(* ===== verification/_CoqProject ===== *)
-Q . S2P
Prelude.v
Machine.v
Logic.v
Sim.v
CString.v
Regions.v
LoadCommands.v
Memory.v
Arm64.v
Function.v
Symbols.v
Rebind.v
Undo.v
Registry.v
Threads.v
Concurrent.v
Global.v
DyldCache.v
Files.v
SharedCache.v
Locator.v
Version.v
Vectors.v
