(* ===== verification/Prelude.v ===== *)
(** * RorkHook: a verification library

    RorkHook is a C library for Apple platforms that redirects functions in a
    running process.  It has three means: it patches the first instructions of a
    function (RorkHookFunction.c), it rewrites the symbol-pointer slots through
    which images call a function (RorkHookRebind.c), and it finds private symbols
    to do either with (RorkHookSymbols.c, RorkHookSharedCache.c).  All of them
    stand on two lower layers: the protected pointer store with its TPRO write
    window (RorkHookMemory.c), and the parsing of Mach-O load commands and the VM
    region queries (RorkHookInternal.c).  RorkHookArm64.c decodes instructions for
    clients.  File names below are relative to src/Sources/RorkHook/.

    ** The model

    C code is a function in the monad [M] of Machine.v: from a [machine] (kernel
    state, bytes of the address space, event log) it returns a result and a
    machine, faults at an access the MMU refuses, or runs out of the bound of a
    loop.  A C integer is the [Z] in its range, and an operation that may leave
    the range is followed by its explicit wrap ([u32], [u64], [s64]); a pointer is
    a [Z] with [NULL] = 0; an output parameter is an option, [None] for a null
    pointer.  Structures in the address space are read field by field, each read
    an access that may fault; structures on the stack are records.  Definitions
    keep the names of the C functions; a loop body is a definition of its own,
    named after the loop ([validate_step], [entry_step], [rebind_step], ...).

    - Prelude.v: machine-width integers, bit fields, little-endian bytes, pages.
    - Machine.v: the build target ([Target]), the kernel interface ([Kernel]), the
      machine, the monad, loops, loads and stores.
    - Logic.v: the laws of the kernel ([KernelLaws]), the total-correctness
      judgement [wp], the loop rule, unrolling, the memory access lemmas.
    - Sim.v: a concrete kernel on which the laws hold and every function runs; the
      witnesses of the properties are evaluated on it.
    - CString.v: the functions of <string.h> the library calls.
    - Regions.v: RorkHookInternal.c from [RorkHookQueryRegion] on: region queries,
      readability, pointer signing, the shared-cache slide.
    - LoadCommands.v: RorkHookInternal.c before that: validation of a load-command
      table, its delivery to a visitor, the image slide.
    - Memory.v: RorkHookMemory.c: protection changes, the TPRO window, the
      protected pointer store.
    - Arm64.v: RorkHookArm64.c: the instruction decoders.
    - Function.v: RorkHookFunction.c: the jump encoder and the detour.
    - Symbols.v: RorkHookSymbols.c: symbol lookup in loaded and in file-mapped
      images.
    - Rebind.v: RorkHookRebind.c up to [RorkHookRebindSymbolInImage]: rewriting the
      slots of one image.
    - Undo.v: a second rebind of an image that has been rebound: the same one again,
      and the one that takes it back.
    - Registry.v: the rest of RorkHookRebind.c: the process-wide registry, as a
      transition system of interleaved threads.
    - Threads.v: code with its preemption points ([thread]), pools of such threads,
      and a rely-guarantee judgement for them ([rg]).
    - Concurrent.v: the protected store and the rebinding of a section, its check of
      the whole section included, as threads: what holds when rebinds of the same
      slots, or of the same pages, run at once.
    - Global.v: Registry.v and Concurrent.v together: the stores that the registry's
      applications perform, under every interleaving.
    - DyldCache.v: RorkHookSharedCache.c up to
      [RorkHookFindSharedCacheSymbolInData], with the records of
      private/RorkHookDyldCache.h: the search for a local symbol in the bytes of a
      dyld shared cache.
    - Files.v: the system calls that open and map a file ([FileSystem]), their laws
      ([FileLaws]), and a simulated file system on which they hold.
    - SharedCache.v: the other functions of RorkHookSharedCache.c: mapping a cache
      file, locating the cache, the lookups by path and in the active cache.
    - Locator.v: [RorkHookLocateSharedCache] again, its [dispatch_once] block in
      stages and its callers as threads.
    - Version.v: RorkHookVersion.c.
    - Vectors.v: the unit tests of decoding, jump encoding, memory protection and
      TPRO (src/Tests/RorkHookTests/), run on the model with the inputs and
      expectations they have.

    A file requires the files of the components it calls.  Each ends with the
    section of its properties and the section of their witnesses.

    ** What is assumed

    The kernel, the MMU, the pointer-authentication unit, the TPRO register, dyld
    and the client's filters are not code of the repository.  They are the
    operations of type classes, and what the library relies on is the laws of other
    classes: [KernelLaws] (a region is a range with one protection; a query gives
    back what it takes; a protection change covers exactly the pages of its range
    or, when refused, nothing), [TPROLaws] (a register write decides the window;
    the advertised disable value closes it; only processes that enforce TPRO have
    guarded pages), [PointerAuthLaws] (stripping removes a signature),
    [FileLaws] (a mapping of a file is placed on free pages and shows its bytes; a
    failed call changes nothing; closing and unmapping undo opening and mapping).
    Sim.v, Memory.v, Rebind.v and Files.v show that they hold together on the
    concrete kernel.  The
    answers of the kernel are otherwise arbitrary: any query and any protection
    change may fail.

    ** What the properties show

    - Memory: the protected store is a transaction: it leaves the thread's write
      window as it found it, and writes the slot and restores every protection, or
      changes nothing, or, where the kernel refuses to restore a page, reports failure
      with the slot written
      ([RorkHookStoreProtectedPointer_transaction]); the exact case in which the
      code stores to a page the MMU refuses
      ([RorkHookStoreProtectedPointer_unguarded]); the window functions are
      balanced; the device path does not depend on the hookable symbol.
    - Function: a detour is installed whole or rolled back, and a processor model
      that executes the patched bytes reaches the replacement with only x16
      changed ([RorkHookReplaceFunction_detours]).
    - Load commands: validation decides a declarative well-formedness of the table
      without a fault on any readable bytes; delivery refines a fold over the
      table; the image slide is exact.
    - Symbols: lookup returns the slid value of the first section-defined entry
      with the name, or nothing, whatever the bytes of the image are.
    - Rebind: rebinding an image touches nothing but the matching slots, and
      redirects all of them when the kernel refuses nothing and the sections and slots
      pass the checks of the code; the same rebind again does nothing at all, and the
      reverse rebind takes it back where no slot resolved to the replacement before
      ([RorkHookRebindSymbolInImage_undo]).
    - Registry: under every interleaving of calls, callbacks and image loads, each
      registered rebind reaches each loaded image; entries are permanent; the
      callback is registered once; the threads can always finish; and the
      schedule with an unload in which an image is skipped
      ([RorkHookRebindSymbolGlobally_unload_race]).
    - Concurrent: however concurrent rebinds interleave, every protection, byte and
      slot value stays justified, no call diverges, each thread gets its TPRO window
      back, and no call faults where TPRO guards the slots or their pages are
      writable already ([rebind_threads_safe]); a call that has returned unrefused
      has redirected its slots for good, where sections and slots pass their checks
      whichever pages are read-write at the time ([rebind_threads_settle]).  The code
      takes no lock, so on a read-only page TPRO does not guard two calls may fault or
      leave the page writable ([rebind_threads_race]), and a call that looks at a
      section while another has one of its pages read-write skips the whole section
      ([rebind_threads_skip]).  Without interference a thread is the function it stands
      for ([section_job_run]).
    - Global: when the calls and the applications they distribute are over and
      nothing was refused, no slot of a participating image resolves to a registered
      replacee, under the same condition on the checks and where no replacement is
      itself replaced ([registered_rebinds_take_effect]).
    - Arm64: each decoder accepts exactly the encodings of its instruction and
      returns its fields.
    - Regions: what is judged readable can be loaded; queries leak nothing.
    - Shared cache: the parser reads nothing outside its two views and selects the
      first image with the path and the first matching symbol of that image; its
      result is a function of the contents of the cache files ([file_symbol]).  The
      lookup by path refines that function and leaves no descriptor, mapping,
      protection or byte changed, whichever call fails.  The locator returns the
      first readable candidate that fits its buffer, computed once; concurrent first
      calls never see the candidates that the block tries in the shared buffer, even
      when the files change meanwhile ([RorkHookLocateSharedCache_threads]).  The
      offsets of the cache records are those the header file asserts.

    Theorems about functions with a result are total: [wp] and the equations
    [f σ = Ret r σ'] say that the function returns.

    ** Bounds

    Loops run on a bound given in binary ([loopM]): [FUEL32] = 2^32 + 1 iterations
    for a loop over a 32-bit counter, [FUEL64] = 2^64 + 1 for one over a 64-bit
    counter or length.  Each loop's proof gives a measure below its bound, so that
    no theorem has a fuel hypothesis.

    ** What is not modelled

    - 32-bit targets: the LP64 branch of private/RorkHookInternal.h is modelled.
    - The memory model: threads interleave with sequential consistency (the code's
      release and acquire orders give it for the published entries, and an aligned
      pointer is stored whole).  Each thread has its own TPRO window, which
      [PoolSwitch] puts in the register when the thread goes on; of the rest of the
      register nothing is assumed.  Registry.v records the calls of
      [RorkHookApplyRebind] and Global.v runs their stores; the load commands of the
      images are read before the stores and do not change.
    - The shared cache: that [dispatch_once] lets one caller into the block and makes
      the others wait is its contract, not code of the repository; SharedCache.v
      passes the once token as a state, and Locator.v interleaves the callers.  A
      cache file does not change while it is mapped.
    - The nullability macros and type aliases of include/RorkHookTypes.h and the
      umbrella headers, which have no behaviour; the build files; the tests other
      than those of Vectors.v. *)
From stdpp Require Export base tactics list gmap.
From Stdlib Require Export ZArith Lia ZifyBool.
From Stdlib Require Export Strings.Byte.

Create HintDb rork discriminated.

Declare Scope rork_scope.
Delimit Scope rork_scope with rork.
Open Scope Z_scope.

(** ** Machine-width integers

    A C integer of width [w] is the [Z] in its range; a conversion or an
    arithmetic operation that may leave the range is followed by the explicit
    wrap below. *)

Definition u8 (z : Z) : Z := z mod 2 ^ 8.
Definition u16 (z : Z) : Z := z mod 2 ^ 16.
Definition u32 (z : Z) : Z := z mod 2 ^ 32.
Definition u64 (z : Z) : Z := z mod 2 ^ 64.
Definition s64 (z : Z) : Z := (z + 2 ^ 63) mod 2 ^ 64 - 2 ^ 63.

Definition UINT32_MAX : Z := 2 ^ 32 - 1.
Definition UINT64_MAX : Z := 2 ^ 64 - 1.
(** On the LP64 targets the library builds for, [uintptr_t], [size_t],
    [vm_address_t] and [vm_size_t] are 64 bits wide. *)
Definition UINTPTR_MAX : Z := UINT64_MAX.
Definition SIZE_MAX : Z := UINT64_MAX.
Definition INTPTR_MAX : Z := 2 ^ 63 - 1.
Definition INTPTR_MIN : Z := - 2 ^ 63.

Definition NULL : Z := 0.

(** The ranges, as predicates the lemmas of every component share. *)
Definition is_u8 (z : Z) : Prop := 0 <= z < 2 ^ 8.
Definition is_u32 (z : Z) : Prop := 0 <= z < 2 ^ 32.
Definition is_u64 (z : Z) : Prop := 0 <= z < 2 ^ 64.
Definition is_s64 (z : Z) : Prop := - 2 ^ 63 <= z < 2 ^ 63.

Lemma u64_small z : is_u64 z -> u64 z = z.
Proof. intros; apply Z.mod_small; done. Qed.

Lemma u32_small z : is_u32 z -> u32 z = z.
Proof. intros; apply Z.mod_small; done. Qed.

Lemma u8_small z : is_u8 z -> u8 z = z.
Proof. intros; apply Z.mod_small; done. Qed.

Lemma s64_small z : is_s64 z -> s64 z = z.
Proof. unfold is_s64, s64; intros. rewrite Z.mod_small; lia. Qed.

Lemma u32_u64 z : is_u32 z -> is_u64 z.
Proof. unfold is_u32, is_u64. lia. Qed.

Lemma u64_range z : is_u64 (u64 z).
Proof. apply Z.mod_pos_bound; lia. Qed.

Lemma u32_range z : is_u32 (u32 z).
Proof. apply Z.mod_pos_bound; lia. Qed.

#[export] Hint Resolve u64_range u32_range : rork.

(** ** Output parameters

    A pointer argument the callee only stores through is the storage it points
    to, or [None] when the pointer is [NULL]; storing returns the new content. *)

Definition write_out {A} (out : option A) (v : A) : option A :=
  match out with Some _ => Some v | None => None end.

(** ** Bit fields

    [field w k n] is the [n]-bit field of [w] that starts at bit [k]. *)

Definition field (w k n : Z) : Z := (w / 2 ^ k) mod 2 ^ n.

Lemma field_range w k n : 0 <= n -> 0 <= field w k n < 2 ^ n.
Proof. intros; apply Z.mod_pos_bound, Z.pow_pos_nonneg; lia. Qed.

Lemma land_shiftr_field w k n :
  0 <= k -> 0 <= n -> Z.land (Z.shiftr w k) (Z.ones n) = field w k n.
Proof.
  intros. unfold field. rewrite Z.land_ones, Z.shiftr_div_pow2 by lia. done.
Qed.

Lemma land_shifted_ones w k n :
  0 <= k -> 0 <= n ->
  Z.land w (Z.shiftl (Z.ones n) k) = field w k n * 2 ^ k.
Proof.
  intros Hk Hn. rewrite <- land_shiftr_field by lia.
  rewrite <- Z.shiftl_mul_pow2 by lia.
  apply Z.bits_inj'; intros i Hi.
  rewrite Z.land_spec, !Z.shiftl_spec by lia.
  destruct (Z.leb_spec k i).
  - rewrite Z.land_spec, Z.shiftr_spec by lia. do 2 f_equal. lia.
  - rewrite (Z.testbit_neg_r _ (i - k)), (Z.testbit_neg_r (Z.land _ _)) by lia.
    by rewrite andb_false_r.
Qed.

(** A mask of contiguous ones, and a mask made of two such runs, select the
    words whose fields have the given values. *)
Lemma mask_eqb w k n v :
  0 <= k -> 0 <= n ->
  (Z.land w (Z.shiftl (Z.ones n) k) =? Z.shiftl v k) = (field w k n =? v).
Proof.
  intros. rewrite land_shifted_ones, Z.shiftl_mul_pow2 by lia.
  assert (0 < 2 ^ k) by (apply Z.pow_pos_nonneg; lia).
  destruct (Z.eqb_spec (field w k n) v) as [->|Hne].
  - apply Z.eqb_refl.
  - apply Z.eqb_neq. intros Heq. apply Z.mul_reg_r in Heq; lia.
Qed.

Lemma field_of_field w k n j m :
  0 <= k -> 0 <= j -> 0 <= m -> j + m <= n ->
  field (field w k n) j m = field w (k + j) m.
Proof.
  intros. rewrite <- !land_shiftr_field by lia.
  apply Z.bits_inj'; intros i Hi.
  rewrite !Z.land_spec, !Z.shiftr_spec, Z.land_spec, Z.shiftr_spec by lia.
  rewrite !Z.testbit_ones_nonneg by lia.
  replace (i + (k + j)) with (i + j + k) by lia.
  destruct (Z.ltb_spec i m), (Z.ltb_spec (i + j) n);
    rewrite ?andb_true_r, ?andb_false_r; lia || done.
Qed.

(** ** Bytes and little-endian fields *)

#[export] Instance byte_eq_dec : EqDecision byte := Byte.byte_eq_dec.

Definition byte_val (b : byte) : Z := Z.of_N (Byte.to_N b).
Definition byte_of (z : Z) : byte := default x00 (Byte.of_N (Z.to_N (z mod 256))).

Lemma byte_val_range b : 0 <= byte_val b < 256.
Proof. unfold byte_val. pose proof (Byte.to_N_bounded b). lia. Qed.

Lemma byte_val_of z : byte_val (byte_of z) = z mod 256.
Proof.
  unfold byte_val, byte_of. pose proof (Z.mod_pos_bound z 256 ltac:(lia)).
  destruct (Byte.of_N _) eqn:E; cbn.
  - apply Byte.to_of_N in E. rewrite E. lia.
  - apply Byte.of_N_None_iff in E. lia.
Qed.

Lemma byte_of_val b : byte_of (byte_val b) = b.
Proof.
  unfold byte_val, byte_of. pose proof (Byte.to_N_bounded b).
  rewrite Z.mod_small, N2Z.id, Byte.of_to_N by lia. done.
Qed.

(** The value of a little-endian byte sequence, and its inverse: the first
    [n] bytes of a value. *)
Fixpoint le_combine (bs : list byte) : Z :=
  match bs with
  | [] => 0
  | b :: bs => byte_val b + 256 * le_combine bs
  end.

Fixpoint le_split (n : nat) (z : Z) : list byte :=
  match n with
  | O => []
  | S n => byte_of z :: le_split n (z / 256)
  end.

Lemma length_le_split n z : length (le_split n z) = n.
Proof. revert z; induction n; intros; cbn; auto. Qed.

Lemma le_combine_range bs : 0 <= le_combine bs < 2 ^ (8 * Z.of_nat (length bs)).
Proof.
  induction bs as [|b bs IH]; cbn [le_combine length]; [lia|].
  pose proof (byte_val_range b).
  rewrite Nat2Z.inj_succ, Z.mul_succ_r, Z.pow_add_r by lia.
  change (2 ^ 8) with 256. lia.
Qed.

Lemma le_combine_split n z : le_combine (le_split n z) = z mod 2 ^ (8 * Z.of_nat n).
Proof.
  revert z; induction n as [|n IH]; intros z; cbn [le_combine le_split].
  { by rewrite Z.mod_1_r. }
  rewrite IH, byte_val_of, Nat2Z.inj_succ, Z.mul_succ_r, Z.add_comm, Z.pow_add_r by lia.
  change (2 ^ 8) with 256. rewrite (Z.mul_comm _ 256).
  rewrite (Z.rem_mul_r z) by (try apply Z.pow_pos_nonneg; lia). lia.
Qed.

Lemma le_split_combine bs : le_split (length bs) (le_combine bs) = bs.
Proof.
  induction bs as [|b bs IH]; [done|].
  cbn [le_combine le_split length]. pose proof (byte_val_range b). f_equal.
  - rewrite <- (byte_of_val b) at 2. unfold byte_of. do 3 f_equal.
    rewrite (Z.mul_comm 256), Z.mod_add by lia. done.
  - rewrite Z.add_comm, Z.mul_comm, Z.div_add_l, (Z.div_small (byte_val b)), Z.add_0_r by lia. done.
Qed.


(** ** Addresses and pages *)

(** [page_base p a] is the start of the [p]-byte page that contains [a]. *)
Definition page_base (p a : Z) : Z := a - a mod p.

(** [Z.land a (u64 (Z.lnot (p - 1)))] is the idiom [a & ~(p - 1)]. *)
Lemma land_page_mask k a :
  0 <= k <= 64 -> is_u64 a ->
  Z.land a (u64 (Z.lnot (2 ^ k - 1))) = page_base (2 ^ k) a.
Proof.
  intros Hk Ha. unfold page_base, u64.
  rewrite <- (Z.land_ones (Z.lnot _) 64) by lia.
  rewrite Z.land_assoc, (Z.land_comm a), <- Z.land_assoc, (Z.land_ones a) by lia.
  rewrite (Z.mod_small a) by done.
  replace (2 ^ k - 1) with (Z.ones k) by (rewrite Z.ones_equiv; lia).
  rewrite Z.land_comm, <- Z.ldiff_land, Z.ldiff_ones_r by lia.
  rewrite Z.shiftl_mul_pow2, Z.shiftr_div_pow2 by lia.
  assert (2 ^ k <> 0) by (apply Z.pow_nonzero; lia).
  pose proof (Z.div_mod a (2 ^ k)). lia.
Qed.

Lemma page_base_bounds p a : 0 < p -> page_base p a <= a < page_base p a + p.
Proof. intros. unfold page_base. pose proof (Z.mod_pos_bound a p). lia. Qed.

Lemma page_base_nonneg p a : 0 < p -> 0 <= a -> 0 <= page_base p a.
Proof. intros. unfold page_base. pose proof (Z.mod_le a p). lia. Qed.

Lemma page_base_idem p a : 0 < p -> page_base p (page_base p a) = page_base p a.
Proof.
  intros. unfold page_base.
  rewrite Zminus_mod_idemp_r, Z.sub_diag, Z.mod_0_l; lia.
Qed.

Lemma page_base_multiple p a : page_base p a mod p = 0.
Proof.
  unfold page_base. rewrite Zminus_mod_idemp_r, Z.sub_diag. apply Zmod_0_l.
Qed.

(** An address belongs to the page with base [b] exactly when it lies in it. *)
Lemma page_base_eq p a b : 0 < p -> b mod p = 0 -> b <= a < b + p -> page_base p a = b.
Proof.
  intros Hp Hb Ha. unfold page_base.
  apply Z.mod_divide in Hb as [q ->]; [|lia].
  replace a with (a - q * p + q * p) at 2 by lia.
  rewrite Z.mod_add, Z.mod_small by lia. lia.
Qed.

(** Case analysis on the comparisons a definition branches on. *)
Ltac case_Z :=
  repeat match goal with
  | |- context [if ?b then _ else _] =>
      match b with
      | context [if _ then _ else _] => fail 1
      | _ => destruct b eqn:?
      end
  end.
