(* ===== verification/Machine.v ===== *)
(** The process the library runs in: the build target, the kernel interface it
    calls, the bytes of its address space, and the monad its C functions are
    written in.

    Nothing here models a function of the library.  The kernel, the MMU, the
    pointer-authentication unit and the TPRO register are not code of the
    repository: they are the operations of the classes [Target] and [Kernel],
    and what the library relies on is stated once, as the laws of [KernelLaws].
    [Sim.v] gives a concrete kernel that satisfies them. *)
From S2P Require Import Prelude.

(** ** Constants of the system headers *)

Definition KERN_SUCCESS : Z := 0.
Definition KERN_INVALID_ADDRESS : Z := 1.
Definition KERN_PROTECTION_FAILURE : Z := 2.
Definition KERN_INVALID_ARGUMENT : Z := 4.
Definition KERN_FAILURE : Z := 5.
Definition KERN_NOT_SUPPORTED : Z := 46.

Definition VM_PROT_READ : Z := 1.
Definition VM_PROT_WRITE : Z := 2.
Definition VM_PROT_EXECUTE : Z := 4.
Definition VM_PROT_COPY : Z := 16.
Definition MACH_PORT_NULL : Z := 0.

(** [p & bit] as a C condition. *)
Definition prot_has (p bit : Z) : bool := negb (Z.land p bit =? 0).

(** ** The build target and the process constants *)

Class Target := {
  (* compile-time conditions *)
  defined_arm64 : bool;             (* defined(__arm64__) *)
  TARGET_OS_IOS : bool;
  TARGET_OS_SIMULATOR : bool;
  ptrauth_calls : bool;             (* __has_feature(ptrauth_calls) *)
  has_security_config_h : bool;     (* __has_include(<os/security_config.h>) *)
  OS_SECURITY_CONFIG_TPRO : Z;
  (* layout of struct dyld_all_image_infos *)
  sizeof_dyld_all_image_infos : Z;
  offsetof_version : Z;
  offsetof_sharedCacheSlide : Z;
  (* run-time constants of the process *)
  builtin_available_iOS_26 : bool;
  vm_page_size : Z;
  getpagesize : Z;
  (* pointer authentication with [ptrauth_key_function_pointer] *)
  ptrauth_strip : Z -> Z;
  ptrauth_sign_unauthenticated : Z -> Z -> Z
}.

(** ** The kernel and the processor *)

(** What [vm_region_64] returns. *)
Record vm_region := VmRegion {
  region_result : Z;                (* kern_return_t *)
  region_address : Z;
  region_size : Z;
  region_protection : Z;
  region_object_name : Z            (* mach_port_t *)
}.

Class Kernel (K : Type) := {
  vm_region_64 : K -> Z -> vm_region * K;
  mach_port_deallocate : K -> Z -> K;
  (* [vm_protect] of libsystem, and the trap it wraps; the Boolean is
     [set_maximum] *)
  vm_protect : K -> Z -> Z -> bool -> Z -> Z * K;
  mach_vm_protect_trap : K -> Z -> Z -> bool -> Z -> Z * K;
  (* TASK_DYLD_INFO: the result and [all_image_info_addr] *)
  task_dyld_info : K -> Z * Z;
  (* the comm page, the thread register s3_6_c15_c1_5, and the process
     security configuration *)
  comm_page_u64 : K -> Z -> Z;
  mrs_tpro : K -> Z;
  msr_tpro : K -> Z -> K;
  os_security_config_get : K -> Z;
  (* the MMU: the protection in force at an address, and whether TPRO guards
     it.  The library cannot see these; they decide which accesses fault. *)
  prot_at : K -> Z -> option Z;
  tpro_gated : K -> Z -> bool
}.

(** ** The machine *)

(** Effects an observer of the process sees, newest first. *)
Inductive event :=
| EvProtect (address size protection result : Z)
| EvStore (address : Z) (bytes : list byte)
| EvDCacheFlush (address size : Z)
| EvICacheInvalidate (address size : Z)
| EvTPRO (state : Z).

Record machine (K : Type) := Machine {
  kern : K;
  mem : gmap Z byte;
  log : list event
}.
Arguments Machine {K} _ _ _.
Arguments kern {K} _.
Arguments mem {K} _.
Arguments log {K} _.

(** The result of running C code: it returns, it makes an access the MMU
    refuses, or a loop exceeds the bound it was given. *)
Inductive outcome (K A : Type) :=
| Ret (a : A) (σ : machine K)
| Fault
| OutOfFuel.
Arguments Ret {K A} _ _.
Arguments Fault {K A}.
Arguments OutOfFuel {K A}.

Definition M (K A : Type) : Type := machine K -> outcome K A.

Definition ret {K A} (a : A) : M K A := fun σ => Ret a σ.
Definition bind {K A B} (c : M K A) (k : A -> M K B) : M K B := fun σ =>
  match c σ with
  | Ret a σ' => k a σ'
  | Fault => Fault
  | OutOfFuel => OutOfFuel
  end.

Notation "'let*' x := c 'in' k" := (bind c (fun x => k))
  (at level 10, x pattern, c at level 100, k at level 200) : rork_scope.
Notation "c ;;; k" := (bind c (fun _ => k))
  (at level 199, k at level 200, right associativity) : rork_scope.
Open Scope rork_scope.

(** [a || b] and [a && b] of C evaluate [b] only when [a] does not decide. *)
Definition or_else {K} (a b : M K bool) : M K bool :=
  let* x := a in if x then ret true else b.
Definition and_then {K} (a b : M K bool) : M K bool :=
  let* x := a in if x then b else ret false.
Notation "a '<||>' b" := (or_else a b) (at level 60, right associativity) : rork_scope.
Notation "a '<&&>' b" := (and_then a b) (at level 55, right associativity) : rork_scope.

(** ** Loops

    [iterM p body s] runs [body] at most [p] times from [s], stopping at the
    first [inr].  The recursion follows the binary digits of [p], so a bound
    such as [2^32] costs nothing to evaluate. *)
Fixpoint iterM {K S R} (p : positive) (body : S -> M K (S + R)) (s : S) : M K (S + R) :=
  match p with
  | xH => body s
  | xO p =>
      let* r := iterM p body s in
      match r with inl s' => iterM p body s' | inr v => ret (inr v) end
  | xI p =>
      let* r := body s in
      match r with
      | inl s' =>
          let* r := iterM p body s' in
          match r with inl s'' => iterM p body s'' | inr v => ret (inr v) end
      | inr v => ret (inr v)
      end
  end.

Definition loopM {K S R} (p : positive) (body : S -> M K (S + R)) (s : S) : M K R :=
  let* r := iterM p body s in
  match r with inl _ => fun _ => OutOfFuel | inr v => ret v end.

(** More iterations than any loop over a 32-bit or a 64-bit counter runs. *)
Definition FUEL32 : positive := 4294967297.
Definition FUEL64 : positive := 18446744073709551617.

(** ** Memory access *)

Section Access.
Context {K : Type} `{Kernel K}.
Implicit Types σ : machine K.

(** A byte the address space has never stored to reads as zero. *)
Definition peek σ (a : Z) : byte := default x00 (mem σ !! a).
Definition peeks σ (a : Z) (n : nat) : list byte :=
  (fun i => peek σ (a + Z.of_nat i)) <$> seq 0 n.
Definition peek_u8 σ a : Z := le_combine (peeks σ a 1).
Definition peek_u32 σ a : Z := le_combine (peeks σ a 4).
Definition peek_u64 σ a : Z := le_combine (peeks σ a 8).

Definition readable σ (a : Z) : bool :=
  match prot_at (kern σ) a with Some p => prot_has p VM_PROT_READ | None => false end.

(** The thread's TPRO write window: bit 0x24 of the register. *)
Definition window_open (k : K) : bool := Z.testbit (mrs_tpro k) 0x24.

(** A TPRO-guarded byte is writable while the window is open, whatever its VM
    protection; any other byte is writable when its VM protection says so. *)
Definition writable σ (a : Z) : bool :=
  match prot_at (kern σ) a with
  | None => false
  | Some p =>
      if tpro_gated (kern σ) a then window_open (kern σ) else prot_has p VM_PROT_WRITE
  end.

Definition range_all (f : Z -> bool) (a : Z) (n : nat) : bool :=
  forallb (fun i => f (a + Z.of_nat i)) (seq 0 n).

Definition load_bytes (a : Z) (n : nat) : M K (list byte) := fun σ =>
  if range_all (readable σ) a n then Ret (peeks σ a n) σ else Fault.

Definition load_u8 (a : Z) : M K Z :=
  let* bs := load_bytes a 1 in ret (le_combine bs).
Definition load_u32 (a : Z) : M K Z :=
  let* bs := load_bytes a 4 in ret (le_combine bs).
Definition load_u64 (a : Z) : M K Z :=
  let* bs := load_bytes a 8 in ret (le_combine bs).

Fixpoint poke (m : gmap Z byte) (a : Z) (bs : list byte) : gmap Z byte :=
  match bs with
  | [] => m
  | b :: bs => poke (<[a := b]> m) (a + 1) bs
  end.

(** [memcpy] into the address space. *)
Definition store_bytes (a : Z) (bs : list byte) : M K unit := fun σ =>
  if range_all (writable σ) a (length bs)
  then Ret tt (Machine (kern σ) (poke (mem σ) a bs) (EvStore a bs :: log σ))
  else Fault.

Definition emit (e : event) : M K unit := fun σ =>
  Ret tt (Machine (kern σ) (mem σ) (e :: log σ)).

(** Cache maintenance of <libkern/OSCacheControl.h>. *)
Definition sys_dcache_flush (a n : Z) : M K unit := emit (EvDCacheFlush a n).
Definition sys_icache_invalidate (a n : Z) : M K unit := emit (EvICacheInvalidate a n).

(** Reading and updating the kernel component. *)
Definition asks {A} (f : K -> A) : M K A := fun σ => Ret (f (kern σ)) σ.
Definition kcall {A} (f : K -> A * K) : M K A := fun σ =>
  let '(a, k) := f (kern σ) in Ret a (Machine k (mem σ) (log σ)).
Definition kset (f : K -> K) : M K unit := fun σ =>
  Ret tt (Machine (f (kern σ)) (mem σ) (log σ)).
End Access.

#[global] Arguments peek : simpl never.
#[global] Arguments peeks : simpl never.
#[global] Arguments peek_u8 : simpl never.
#[global] Arguments peek_u32 : simpl never.
#[global] Arguments peek_u64 : simpl never.
#[global] Arguments FUEL32 : simpl never.
#[global] Arguments FUEL64 : simpl never.
