(* ===== verification/Logic.v ===== *)
(** The laws the library relies on, and the total-correctness logic its
    functions are specified in.

    [wp c σ Q] says that running [c] from [σ] returns, without a fault and
    within its loop bounds, in a result and a state that satisfy [Q].  Every
    component states its functions' behaviour as equations [f σ = Ret r σ'] or as
    [wp] judgements, and its clients compose those with the rules below. *)
From S2P Require Import Prelude Machine.

(** ** What the kernel promises *)

(** Parts of the kernel state an operation leaves alone. *)
Definition same_prot {K} `{Kernel K} (k k' : K) : Prop :=
  forall a, prot_at k' a = prot_at k a.
Definition same_process {K} `{Kernel K} (k k' : K) : Prop :=
  (forall a, tpro_gated k' a = tpro_gated k a) /\
  (forall a, comm_page_u64 k' a = comm_page_u64 k a) /\
  os_security_config_get k' = os_security_config_get k.
Definition same_thread {K} `{Kernel K} (k k' : K) : Prop :=
  mrs_tpro k' = mrs_tpro k.

(** [a] lies in a page that the byte range [[start, start + size)] touches. *)
Definition in_pages `{Target} (start size a : Z) : bool :=
  (page_base vm_page_size start <=? a) &&
  (a <? page_base vm_page_size (start + size - 1) + vm_page_size).

(** A successful protection change replaces the protection of exactly the pages
    of the range ([VM_PROT_COPY] is a request, not a protection); a failed one
    changes no protection. *)
Definition protect_law {K} `{Target} `{Kernel K}
    (f : K -> Z -> Z -> bool -> Z -> Z * K) : Prop :=
  forall k start size prot r k',
    0 <= start -> 0 < size -> start + size <= 2 ^ 64 ->
    f k start size false prot = (r, k') ->
    same_process k k' /\ same_thread k k' /\
    (r = KERN_SUCCESS -> forall a, prot_at k' a =
       if in_pages start size a then Some (Z.land prot 7)
       else prot_at k a) /\
    (r <> KERN_SUCCESS -> same_prot k k').

Class KernelLaws (K : Type) `{Target} `{Kernel K} : Prop := {
  page_size_pow2 : exists n, 12 <= n <= 32 /\ vm_page_size = 2 ^ n;
  getpagesize_eq : getpagesize = vm_page_size;
  strip_range p : is_u64 p -> is_u64 (ptrauth_strip p);
  prot_at_bits k a p : prot_at k a = Some p -> 0 <= p < 8;
  prot_at_page k a : prot_at k a = prot_at k (page_base vm_page_size a);
  (* releasing the object name a query returned undoes all the query did *)
  region_released k a r k' :
    vm_region_64 k a = (r, k') ->
    (if negb (region_object_name r =? MACH_PORT_NULL)
     then mach_port_deallocate k' (region_object_name r) else k') = k;
  (* a region is a range of addresses that share one protection *)
  region_sound k a r k' :
    vm_region_64 k a = (r, k') -> region_result r = KERN_SUCCESS ->
    0 <= region_address r /\ 0 <= region_size r /\
    region_address r + region_size r <= 2 ^ 64 /\
    forall x, region_address r <= x < region_address r + region_size r ->
      prot_at k x = Some (region_protection r);
  vm_protect_law : protect_law vm_protect;
  trap_law : protect_law mach_vm_protect_trap;
  msr_law k v :
    same_process k (msr_tpro k v) /\ same_prot k (msr_tpro k v)
}.

(** ** Weakest preconditions *)

Section WP.
Context {K : Type}.

Definition wp {A} (c : M K A) (σ : machine K) (Q : A -> machine K -> Prop) : Prop :=
  match c σ with Ret a σ' => Q a σ' | _ => False end.

Lemma wp_Ret {A} (c : M K A) σ a σ' (Q : A -> machine K -> Prop) :
  c σ = Ret a σ' -> Q a σ' -> wp c σ Q.
Proof. unfold wp. by intros ->. Qed.

Lemma wp_inv {A} (c : M K A) σ Q :
  wp c σ Q -> exists a σ', c σ = Ret a σ' /\ Q a σ'.
Proof. unfold wp. destruct (c σ) eqn:?; naive_solver. Qed.

Lemma wp_ret {A} (a : A) σ (Q : A -> machine K -> Prop) : Q a σ -> wp (ret a) σ Q.
Proof. done. Qed.

Lemma wp_bind {A B} (c : M K A) (k : A -> M K B) σ Q :
  wp c σ (fun a σ' => wp (k a) σ' Q) -> wp (bind c k) σ Q.
Proof. unfold wp, bind. by destruct (c σ). Qed.

Lemma wp_mono {A} (c : M K A) σ (Q Q' : A -> machine K -> Prop) :
  wp c σ Q -> (forall a σ', Q a σ' -> Q' a σ') -> wp c σ Q'.
Proof. unfold wp. destruct (c σ); naive_solver. Qed.

Lemma wp_call {A B} (c : M K A) (k : A -> M K B) σ a σ' Q :
  c σ = Ret a σ' -> wp (k a) σ' Q -> wp (bind c k) σ Q.
Proof. unfold wp, bind. by intros ->. Qed.

Lemma bind_Ret {A B} (c : M K A) (k : A -> M K B) σ a σ' :
  c σ = Ret a σ' -> bind c k σ = k a σ'.
Proof. unfold bind. by intros ->. Qed.

Lemma wp_or_else (a b : M K bool) σ Q :
  wp a σ (fun x σ' => if x then Q true σ' else wp b σ' Q) -> wp (or_else a b) σ Q.
Proof. unfold wp, or_else, bind. destruct (a σ) as [[] ?| |]; done. Qed.

Lemma wp_and_then (a b : M K bool) σ Q :
  wp a σ (fun x σ' => if x then wp b σ' Q else Q false σ') -> wp (and_then a b) σ Q.
Proof. unfold wp, and_then, bind. destruct (a σ) as [[] ?| |]; done. Qed.

(** *** Loops *)

Section Loop.
Context {S R : Type} (body : S -> M K (S + R)).
Context (I : S -> machine K -> Prop) (measure : S -> Z) (Q : R -> machine K -> Prop).

Definition loop_step (s : S) (r : S + R) (σ : machine K) : Prop :=
  match r with
  | inl s' => I s' σ /\ 0 <= measure s' < measure s
  | inr v => Q v σ
  end.

Context (Hbody : forall s σ, I s σ -> 0 <= measure s -> wp (body s) σ (loop_step s)).

Lemma wp_iterM p s σ :
  I s σ -> 0 <= measure s ->
  wp (iterM p body s) σ (fun r σ' =>
    match r with
    | inl s' => I s' σ' /\ 0 <= measure s' /\ measure s' + Z.pos p <= measure s
    | inr v => Q v σ'
    end).
Proof using Hbody.
  revert s σ. induction p as [p IH|p IH|]; intros s σ HI Hm; cbn [iterM].
  - apply wp_bind. eapply wp_mono; [by apply Hbody|].
    intros [s1|v] σ1; cbn; [intros [HI1 Hm1]|by intros].
    apply wp_bind. eapply wp_mono; [apply IH; [done|lia]|].
    intros [s2|v] σ2; cbn; [intros (HI2 & Hm2 & Hle)|by intros].
    eapply wp_mono; [apply IH; [done|lia]|].
    intros [s3|v] σ3; cbn; [intros (? & ? & ?)|by intros]. split_and!; [done|lia|lia].
  - apply wp_bind. eapply wp_mono; [apply IH; [done|lia]|].
    intros [s2|v] σ2; cbn; [intros (HI2 & Hm2 & Hle)|by intros].
    eapply wp_mono; [apply IH; [done|lia]|].
    intros [s3|v] σ3; cbn; [intros (? & ? & ?)|by intros]. split_and!; [done|lia|lia].
  - eapply wp_mono; [by apply Hbody|].
    intros [s1|v] σ1; cbn; [intros [? ?]|by intros]. split_and!; [done|lia|lia].
Qed.

(** A loop whose body keeps [I] and decreases [measure] at every
    continuing iteration ends within a bound greater than the measure. *)
Lemma wp_loop p s σ :
  I s σ -> 0 <= measure s < Z.pos p -> wp (loopM p body s) σ Q.
Proof using Hbody.
  intros HI Hm. unfold loopM. apply wp_bind.
  eapply wp_mono; [apply wp_iterM; [done|lia]|].
  intros [s'|v] σ'; cbn; [lia|]. intros HQ. by apply wp_ret.
Qed.
End Loop.
End WP.

(** *** Unrolling

    [loopM] agrees with plain iteration on [nat], so a proof can follow a loop
    by induction on the number of iterations left. *)

Fixpoint iterN {K A R} (n : nat) (body : A -> M K (A + R)) (s : A) : M K (A + R) :=
  match n with
  | O => ret (inl s)
  | S n =>
      let* r := body s in
      match r with inl s' => iterN n body s' | inr v => ret (inr v) end
  end.

Lemma iterN_add {K A R} n m (body : A -> M K (A + R)) s σ :
  iterN (n + m) body s σ =
  bind (iterN n body s) (fun r =>
    match r with inl s' => iterN m body s' | inr v => ret (inr v) end) σ.
Proof.
  revert s σ. induction n as [|n IH]; intros s σ; [done|].
  cbn [iterN Nat.add]. unfold bind. destruct (body s σ) as [[s'|v] σ'| |]; [|done..].
  rewrite IH. unfold bind. by destruct (iterN n body s' σ').
Qed.

Lemma iterM_iterN {K A R} p (body : A -> M K (A + R)) s σ :
  iterM p body s σ = iterN (Pos.to_nat p) body s σ.
Proof.
  revert s σ. induction p as [p IH|p IH|]; intros s σ; cbn [iterM].
  - rewrite Pos2Nat.inj_xI. cbn [iterN]. unfold bind.
    destruct (body s σ) as [[s'|v] σ'| |]; [|done..].
    replace (2 * Pos.to_nat p)%nat with (Pos.to_nat p + Pos.to_nat p)%nat by lia.
    rewrite iterN_add, IH. unfold bind.
    destruct (iterN _ _ s' σ') as [[s''|v] σ''| |]; [|done..]. apply IH.
  - rewrite Pos2Nat.inj_xO.
    replace (2 * Pos.to_nat p)%nat with (Pos.to_nat p + Pos.to_nat p)%nat by lia.
    rewrite iterN_add. unfold bind. rewrite IH.
    destruct (iterN _ _ s σ) as [[s''|v] σ''| |]; [|done..]. apply IH.
  - change (Pos.to_nat 1) with 1%nat. cbn [iterN]. unfold bind.
    by destruct (body s σ) as [[s''|v] σ''| |].
Qed.

Definition loopN {K A R} (n : nat) (body : A -> M K (A + R)) (s : A) : M K R :=
  let* r := iterN n body s in
  match r with inl _ => fun _ => OutOfFuel | inr v => ret v end.

Lemma loopM_loopN {K A R} p (body : A -> M K (A + R)) s σ :
  loopM p body s σ = loopN (Pos.to_nat p) body s σ.
Proof. unfold loopM, loopN, bind. by rewrite iterM_iterN. Qed.

Lemma loopN_S {K A R} n (body : A -> M K (A + R)) s σ :
  loopN (S n) body s σ =
  bind (body s) (fun r => match r with inl s' => loopN n body s' | inr v => ret v end) σ.
Proof.
  unfold loopN. cbn [iterN]. unfold bind.
  by destruct (body s σ) as [[s'|v] σ'| |].
Qed.

(** A loop that continues at [s'] or stops with [v], one step at a time. *)
Lemma loopN_next {K A R} n (body : A -> M K (A + R)) s s' σ σ' :
  body s σ = Ret (inl s') σ' -> loopN (S n) body s σ = loopN n body s' σ'.
Proof. intros Hb. rewrite loopN_S. unfold bind. by rewrite Hb. Qed.

Lemma loopN_stop {K A R} n (body : A -> M K (A + R)) s v σ σ' :
  body s σ = Ret (inr v) σ' -> loopN (S n) body s σ = Ret v σ'.
Proof. intros Hb. rewrite loopN_S. unfold bind. by rewrite Hb. Qed.

(** ** Memory access *)

Section AccessLemmas.
Context {K : Type} `{Kernel K}.
Implicit Types σ : machine K.

Lemma range_all_spec f a n :
  range_all f a n = true <-> forall x, a <= x < a + Z.of_nat n -> f x = true.
Proof.
  unfold range_all. rewrite forallb_forall. split.
  - intros Hf x Hx. replace x with (a + Z.of_nat (Z.to_nat (x - a))) by lia.
    apply Hf, in_seq. lia.
  - intros Hf i Hi%in_seq. apply Hf. lia.
Qed.

Lemma length_peeks σ a n : length (peeks σ a n) = n.
Proof. unfold peeks. by rewrite length_fmap, length_seq. Qed.

Lemma peeks_lookup σ a n i :
  (i < n)%nat -> peeks σ a n !! i = Some (peek σ (a + Z.of_nat i)).
Proof.
  intros. unfold peeks. rewrite list_lookup_fmap, lookup_seq_lt by done. done.
Qed.

Lemma peeks_S σ a n : peeks σ a (S n) = peek σ a :: peeks σ (a + 1) n.
Proof.
  unfold peeks. cbn [seq]. rewrite fmap_cons, <- seq_shift. f_equal.
  - f_equal. lia.
  - rewrite <- list_fmap_compose. apply list_fmap_ext.
    intros i x _. cbn. f_equal. lia.
Qed.

Lemma peeks_app σ a n m :
  peeks σ a (n + m) = peeks σ a n ++ peeks σ (a + Z.of_nat n) m.
Proof.
  revert a; induction n as [|n IH]; intros a.
  { cbn [Nat.add]. by rewrite Z.add_0_r. }
  rewrite Nat.add_succ_l, !peeks_S, IH. cbn [app]. do 3 f_equal. lia.
Qed.

Lemma peeks_ext σ σ' a n :
  (forall x, a <= x < a + Z.of_nat n -> peek σ' x = peek σ x) ->
  peeks σ' a n = peeks σ a n.
Proof.
  revert a; induction n as [|n IH]; intros a Hx; [done|].
  rewrite !peeks_S. f_equal; [apply Hx; lia|]. apply IH. intros; apply Hx; lia.
Qed.

Definition range_readable σ (a n : Z) : Prop :=
  forall x, a <= x < a + n -> readable σ x = true.
Definition range_writable σ (a n : Z) : Prop :=
  forall x, a <= x < a + n -> writable σ x = true.

Lemma range_readable_sub σ a n b m :
  range_readable σ a n -> a <= b -> b + m <= a + n -> range_readable σ b m.
Proof. unfold range_readable. intros Hr ? ? x ?. apply Hr. lia. Qed.

Lemma load_bytes_ok σ a n :
  range_readable σ a (Z.of_nat n) -> load_bytes a n σ = Ret (peeks σ a n) σ.
Proof.
  intros Hr. unfold load_bytes. by rewrite (proj2 (range_all_spec _ _ _) Hr).
Qed.

Lemma load_u8_ok σ a : range_readable σ a 1 -> load_u8 a σ = Ret (peek_u8 σ a) σ.
Proof. intros. unfold load_u8, bind. by rewrite load_bytes_ok. Qed.
Lemma load_u32_ok σ a : range_readable σ a 4 -> load_u32 a σ = Ret (peek_u32 σ a) σ.
Proof. intros. unfold load_u32, bind. by rewrite load_bytes_ok. Qed.
Lemma load_u64_ok σ a : range_readable σ a 8 -> load_u64 a σ = Ret (peek_u64 σ a) σ.
Proof. intros. unfold load_u64, bind. by rewrite load_bytes_ok. Qed.

Lemma peek_u32_range σ a : is_u32 (peek_u32 σ a).
Proof.
  unfold peek_u32, is_u32. pose proof (le_combine_range (peeks σ a 4)) as Hb.
  by rewrite length_peeks in Hb.
Qed.
Lemma peek_u64_range σ a : is_u64 (peek_u64 σ a).
Proof.
  unfold peek_u64, is_u64. pose proof (le_combine_range (peeks σ a 8)) as Hb.
  by rewrite length_peeks in Hb.
Qed.

Lemma poke_lookup m a bs x :
  default x00 (poke m a bs !! x) =
  if (a <=? x) && (x <? a + Z.of_nat (length bs))
  then default x00 (bs !! Z.to_nat (x - a)) else default x00 (m !! x).
Proof.
  revert m a; induction bs as [|b bs IH]; intros m a; cbn [poke length].
  { destruct (Z.leb_spec a x), (Z.ltb_spec x (a + Z.of_nat 0)); done || lia. }
  rewrite IH.
  destruct (decide (x = a)) as [->|Hne].
  - rewrite lookup_insert_eq.
    replace (a + 1 <=? a) with false by lia. cbn [andb].
    replace ((a <=? a) && (a <? a + Z.of_nat (S (length bs)))) with true by lia.
    by rewrite Z.sub_diag.
  - rewrite lookup_insert_ne by done.
    replace ((a <=? x) && (x <? a + Z.of_nat (S (length bs))))
      with ((a + 1 <=? x) && (x <? a + 1 + Z.of_nat (length bs))) by lia.
    destruct (_ && _) eqn:E; [|done].
    replace (Z.to_nat (x - a)) with (S (Z.to_nat (x - (a + 1)))) by lia. done.
Qed.

Lemma store_bytes_ok σ a bs :
  range_writable σ a (Z.of_nat (length bs)) ->
  store_bytes a bs σ =
    Ret tt (Machine (kern σ) (poke (mem σ) a bs) (EvStore a bs :: log σ)).
Proof.
  intros Hw. unfold store_bytes. by rewrite (proj2 (range_all_spec _ _ _) Hw).
Qed.

(** Two states with the same bytes, whatever their logs and kernels. *)
Definition same_bytes σ σ' : Prop := forall a, peek σ' a = peek σ a.
(** [σ'] has the bytes of [σ] outside [[a, a + n)]. *)
Definition same_bytes_but (a n : Z) σ σ' : Prop :=
  forall x, ~ (a <= x < a + n) -> peek σ' x = peek σ x.

Lemma peek_poked σ (k : K) l a bs x :
  peek (Machine k (poke (mem σ) a bs) l) x =
  if (a <=? x) && (x <? a + Z.of_nat (length bs))
  then default x00 (bs !! Z.to_nat (x - a)) else peek σ x.
Proof. apply poke_lookup. Qed.

Lemma peeks_poked σ (k : K) l a bs :
  peeks (Machine k (poke (mem σ) a bs) l) a (length bs) = bs.
Proof.
  apply list_eq_same_length with (length bs); [done|apply length_peeks|].
  intros i x y Hi Hx Hy. rewrite peeks_lookup in Hx by done. simplify_eq.
  rewrite peek_poked.
  replace (_ && _) with true by (apply lookup_lt_Some in Hy; lia).
  replace (Z.to_nat (a + Z.of_nat i - a)) with i by lia. by rewrite Hy.
Qed.

#[export] Instance same_bytes_equiv : Equivalence same_bytes.
Proof.
  split; unfold same_bytes.
  - done.
  - intros σ σ' Hs a. by rewrite Hs.
  - intros σ1 σ2 σ3 H1 H2 a. by rewrite H2, H1.
Qed.

#[export] Instance peek_proper : Proper (same_bytes ==> eq ==> eq) (peek (K:=K)).
Proof. intros σ σ' Hs a ? <-. symmetry. apply Hs. Qed.

#[export] Instance peeks_proper : Proper (same_bytes ==> eq ==> eq ==> eq) (peeks (K:=K)).
Proof. intros σ σ' Hs a ? <- n ? <-. symmetry. apply peeks_ext. intros; apply Hs. Qed.
End AccessLemmas.

#[export] Hint Resolve peek_u32_range peek_u64_range : rork.

(** ** Functions that only read

    A function in this class returns in the state it started from; the tactic
    follows the code down to its loads. *)

Class ReadsOnly {K A} (c : M K A) : Prop :=
  reads_only : forall σ a σ', c σ = Ret a σ' -> σ' = σ.

#[export] Instance reads_only_ret {K A} (a : A) : ReadsOnly (K:=K) (ret a).
Proof. intros σ ? ? [= _ ->]. done. Qed.

#[export] Instance reads_only_load_bytes {K} `{Kernel K} a n : ReadsOnly (load_bytes a n).
Proof. intros σ ? ?. unfold load_bytes. destruct (range_all _ _ _); congruence. Qed.

#[export] Instance reads_only_asks {K} `{Kernel K} {A} (f : K -> A) : ReadsOnly (asks f).
Proof. intros σ ? ? [= _ ->]. done. Qed.

Lemma reads_only_bind {K A B} (c : M K A) (k : A -> M K B) :
  ReadsOnly c -> (forall a, ReadsOnly (k a)) -> ReadsOnly (bind c k).
Proof.
  intros Hc Hk σ b σ' Hb. unfold bind in Hb.
  destruct (c σ) as [a σ1| |] eqn:E; [|done..].
  apply Hc in E as ->. by apply Hk in Hb.
Qed.

Ltac reads_only :=
  repeat first [ apply _ | apply reads_only_bind; intros
               | match goal with |- ReadsOnly (match ?x with _ => _ end) => destruct x end ].

#[export] Instance reads_only_load_u8 {K} `{Kernel K} a : ReadsOnly (load_u8 a).
Proof. unfold load_u8. reads_only. Qed.
#[export] Instance reads_only_load_u32 {K} `{Kernel K} a : ReadsOnly (load_u32 a).
Proof. unfold load_u32. reads_only. Qed.
#[export] Instance reads_only_load_u64 {K} `{Kernel K} a : ReadsOnly (load_u64 a).
Proof. unfold load_u64. reads_only. Qed.
