(* ===== verification/Sim.v ===== *)
(** A concrete kernel that satisfies [KernelLaws].

    It keeps one protection per 16 KiB page, a set of TPRO-guarded pages, the
    thread's TPRO register, a count of the port rights it has handed out, and a
    script of the results its next protection calls return, so that every error
    path of the library can be run.  The witnesses of the development evaluate
    the library's functions on this kernel. *)
From S2P Require Import Prelude Machine Logic.

Definition SIM_PAGE : Z := 16384.

Record sim := Sim {
  sim_prot : gmap Z Z;          (* page index -> protection *)
  sim_gated : list Z;           (* TPRO-guarded page indices *)
  sim_enforced : bool;          (* the process enforces TPRO *)
  sim_register : Z;
  sim_rights : Z;
  sim_script : list Z;          (* results of the next protection calls *)
  sim_dyld_info : Z * Z
}.

(** Builds: a physical arm64e device (with or without the process security
    configuration API), an arm64 host, and an Intel host. *)
Definition sim_target (arm64 ios ptrauth config : bool) : Target := {|
  defined_arm64 := arm64;
  TARGET_OS_IOS := ios;
  TARGET_OS_SIMULATOR := false;
  ptrauth_calls := ptrauth;
  has_security_config_h := config;
  OS_SECURITY_CONFIG_TPRO := 4;
  sizeof_dyld_all_image_infos := 360;
  offsetof_version := 0;
  offsetof_sharedCacheSlide := 152;
  builtin_available_iOS_26 := config;
  vm_page_size := SIM_PAGE;
  getpagesize := SIM_PAGE;
  ptrauth_strip := fun p => p mod 2 ^ 48;
  ptrauth_sign_unauthenticated := fun p d => p + 2 ^ 48 * (1 + d mod 2 ^ 15)
|}.

Definition device : Target := sim_target true true true true.
Definition legacy_device : Target := sim_target true true true false.
Definition arm64_host : Target := sim_target true false false false.
Definition intel_host : Target := sim_target false false false false.

Definition sim_page_prot (k : sim) (a : Z) : option Z :=
  if (0 <=? a) && (a <? 2 ^ 64)
  then (fun p => Z.land p 7) <$> sim_prot k !! (a / SIM_PAGE) else None.

Definition sim_region (k : sim) (a : Z) : vm_region * sim :=
  (match sim_page_prot k a with
   | Some p => VmRegion KERN_SUCCESS (page_base SIM_PAGE a) SIM_PAGE p 7
   | None => VmRegion KERN_INVALID_ADDRESS 0 0 0 7
   end,
   Sim (sim_prot k) (sim_gated k) (sim_enforced k) (sim_register k)
       (sim_rights k + 1) (sim_script k) (sim_dyld_info k)).

Definition sim_deallocate (k : sim) (_ : Z) : sim :=
  Sim (sim_prot k) (sim_gated k) (sim_enforced k) (sim_register k)
      (sim_rights k - 1) (sim_script k) (sim_dyld_info k).

Definition sim_pages (start size : Z) : list Z :=
  seqZ (start / SIM_PAGE) ((start + size - 1) / SIM_PAGE - start / SIM_PAGE + 1).

Definition sim_protect (k : sim) (start size : Z) (setMaximum : bool) (prot : Z) : Z * sim :=
  let scripted := default KERN_SUCCESS (head (sim_script k)) in
  let mapped := forallb (fun i => bool_decide (is_Some (sim_prot k !! i))) (sim_pages start size) in
  let result := if scripted =? KERN_SUCCESS
                then if mapped then KERN_SUCCESS else KERN_INVALID_ADDRESS
                else scripted in
  let pages := if result =? KERN_SUCCESS
               then foldr (fun i m => <[i := prot]> m) (sim_prot k) (sim_pages start size)
               else sim_prot k in
  (result, Sim pages (sim_gated k) (sim_enforced k) (sim_register k)
               (sim_rights k) (tail (sim_script k)) (sim_dyld_info k)).

#[export] Instance sim_kernel : Kernel sim := {|
  vm_region_64 := sim_region;
  mach_port_deallocate := sim_deallocate;
  vm_protect := sim_protect;
  mach_vm_protect_trap := sim_protect;
  task_dyld_info := sim_dyld_info;
  comm_page_u64 := fun _ a => if a =? 0xFFFFFC0D0 then 2 ^ 36 + 1 else
                              if a =? 0xFFFFFC0D8 then 1 else 0;
  mrs_tpro := fun k => if sim_enforced k then sim_register k else 0;
  msr_tpro := fun k v => Sim (sim_prot k) (sim_gated k) (sim_enforced k) v
                             (sim_rights k) (sim_script k) (sim_dyld_info k);
  os_security_config_get := fun k => if sim_enforced k then 4 else 0;
  prot_at := sim_page_prot;
  tpro_gated := fun k a => sim_enforced k && bool_decide (a / SIM_PAGE ∈ sim_gated k)
|}.

(** ** The laws hold *)

Lemma sim_fold_lookup (m : gmap Z Z) pages prot i :
  foldr (fun i m => <[i := prot]> m) m pages !! i =
  if bool_decide (i ∈ pages) then Some prot else m !! i.
Proof.
  induction pages as [|j pages IH]; [done|]. cbn [foldr].
  destruct (decide (i = j)) as [->|Hne].
  - rewrite lookup_insert_eq, bool_decide_eq_true_2; [done|]. apply list_elem_of_here.
  - rewrite lookup_insert_ne, IH by done.
    rewrite (bool_decide_ext (i ∈ j :: pages) (i ∈ pages)); [done|]. rewrite elem_of_cons. tauto.
Qed.

Lemma sim_pages_spec start size a :
  0 <= start -> 0 < size ->
  a / SIM_PAGE ∈ sim_pages start size <->
  page_base SIM_PAGE start <= a < page_base SIM_PAGE (start + size - 1) + SIM_PAGE.
Proof.
  intros. unfold sim_pages. rewrite elem_of_seqZ. unfold page_base, SIM_PAGE.
  pose proof (Z.div_mod a 16384). pose proof (Z.mod_pos_bound a 16384).
  pose proof (Z.div_mod start 16384). pose proof (Z.mod_pos_bound start 16384).
  pose proof (Z.div_mod (start + size - 1) 16384).
  pose proof (Z.mod_pos_bound (start + size - 1) 16384).
  pose proof (Z.div_le_mono start (start + size - 1) 16384). lia.
Qed.

(** The last page of a range ends inside the address space. *)
Lemma sim_page_end start size :
  0 <= start -> 0 < size -> start + size <= 2 ^ 64 ->
  page_base SIM_PAGE (start + size - 1) + SIM_PAGE <= 2 ^ 64.
Proof.
  intros Hs Hz Hb. unfold page_base, SIM_PAGE.
  pose proof (Z.div_mod (start + size - 1) 16384).
  pose proof (Z.mod_pos_bound (start + size - 1) 16384).
  assert ((start + size - 1) / 16384 < 2 ^ 64 / 16384)
    by (apply Z.div_lt_upper_bound; [lia|]; change (16384 * (2 ^ 64 / 16384)) with (2 ^ 64); lia).
  change (2 ^ 64 / 16384) with 1125899906842624 in *. lia.
Qed.

Lemma sim_protect_law arm64 ios ptrauth config :
  protect_law (H := sim_target arm64 ios ptrauth config) sim_protect.
Proof.
  intros k start size prot r k' Hs Hz Hb [= <- <-].
  split_and!; [done|done| |].
  - intros -> a. cbn. unfold sim_page_prot. cbn [sim_prot].
    rewrite sim_fold_lookup, bool_decide_decide.
    pose proof (sim_pages_spec start size a Hs Hz) as Hp.
    unfold in_pages. cbn [vm_page_size sim_target].
    destruct (decide _) as [Hin|Hin].
    + apply Hp in Hin. pose proof (page_base_nonneg SIM_PAGE start ltac:(done) Hs).
      pose proof (sim_page_end start size Hs Hz Hb).
      replace ((0 <=? a) && (a <? 2 ^ 64)) with true by lia.
      by replace (_ && _) with true by lia.
    + rewrite Hp in Hin.
      replace (_ && (a <? page_base _ _ + _)) with false by (symmetry; apply not_true_iff_false; lia).
      done.
  - intros Hr a. cbn. unfold sim_page_prot. cbn [sim_prot].
    by rewrite (proj2 (Z.eqb_neq _ _) Hr).
Qed.

Lemma sim_page_prot_page k a :
  sim_page_prot k a = sim_page_prot k (page_base SIM_PAGE a).
Proof.
  unfold sim_page_prot, page_base, SIM_PAGE.
  pose proof (Z.div_mod a 16384). pose proof (Z.mod_pos_bound a 16384).
  replace ((a - a mod 16384) / 16384) with (a / 16384).
  2:{ apply Z.div_unique with 0; lia. }
  change (2 ^ 64) with (16384 * 1125899906842624) in *.
  by replace ((0 <=? a - a mod 16384) && _) with ((0 <=? a) && (a <? 16384 * 1125899906842624)) by lia.
Qed.

Lemma sim_region_sound k a r k' :
  sim_region k a = (r, k') -> region_result r = KERN_SUCCESS ->
  0 <= region_address r /\ 0 <= region_size r /\ region_address r + region_size r <= 2 ^ 64 /\
  forall x, region_address r <= x < region_address r + region_size r ->
    sim_page_prot k x = Some (region_protection r).
Proof.
  unfold sim_region. destruct (sim_page_prot k a) as [p|] eqn:Hp; intros [= <- <-]; [|done].
  intros _. cbn [region_address region_size region_protection].
  assert (0 <= a < 2 ^ 64) as Ha.
  { unfold sim_page_prot in Hp. destruct (_ && _) eqn:?; [lia|done]. }
  pose proof (page_base_bounds SIM_PAGE a ltac:(done)).
  pose proof (page_base_nonneg SIM_PAGE a ltac:(done) ltac:(lia)).
  split_and!; [done|done| |].
  - unfold page_base, SIM_PAGE in *. pose proof (Z.div_mod a 16384).
    assert (a / 16384 < 1125899906842624) by (apply Z.div_lt_upper_bound; lia). lia.
  - intros x Hx. rewrite sim_page_prot_page, (page_base_eq SIM_PAGE x (page_base SIM_PAGE a)).
    + by rewrite <- sim_page_prot_page.
    + done.
    + apply page_base_multiple.
    + done.
Qed.

#[export] Instance sim_laws arm64 ios ptrauth config :
  KernelLaws sim (H := sim_target arm64 ios ptrauth config).
Proof.
  split.
  - exists 14. done.
  - done.
  - intros p _. cbn. unfold is_u64. pose proof (Z.mod_pos_bound p (2 ^ 48)). lia.
  - intros k a p. cbn. unfold sim_page_prot.
    destruct (_ && _); [|done]. destruct (_ !! _) as [q|]; intros [= <-].
    change 7 with (Z.ones 3). rewrite Z.land_ones by done. apply Z.mod_pos_bound. done.
  - apply sim_page_prot_page.
  - intros [] a r k'. cbn. unfold sim_region, sim_deallocate.
    destruct (sim_page_prot _ _); intros [= <- <-]; cbn; f_equal; lia.
  - apply sim_region_sound.
  - apply sim_protect_law.
  - apply sim_protect_law.
  - intros k v. split; [done|]. by intros a.
Qed.

(** The laws at the named builds. *)
#[export] Instance device_laws : KernelLaws sim (H := device) := sim_laws _ _ _ _.
#[export] Instance legacy_device_laws : KernelLaws sim (H := legacy_device) := sim_laws _ _ _ _.
#[export] Instance arm64_host_laws : KernelLaws sim (H := arm64_host) := sim_laws _ _ _ _.
#[export] Instance intel_host_laws : KernelLaws sim (H := intel_host) := sim_laws _ _ _ _.

(** A machine with the given pages mapped and the given byte ranges stored. *)
Definition sim_machine (pages : list (Z * Z)) (contents : list (Z * list byte)) : machine sim :=
  Machine
    (Sim (list_to_map pages) [] false 0 0 [] (KERN_FAILURE, 0))
    (foldr (fun c m => poke m (fst c) (snd c)) ∅ contents) [].

(** The same machine in a process that enforces TPRO, with some pages guarded. *)
Definition tpro_machine (pages : list (Z * Z)) (gated : list Z) (register : Z) : machine sim :=
  Machine (Sim (list_to_map pages) gated true register 0 [] (KERN_FAILURE, 0)) ∅ [].

(** The next protection calls return the given results. *)
Definition scripted (script : list Z) (σ : machine sim) : machine sim :=
  let k := kern σ in
  Machine (Sim (sim_prot k) (sim_gated k) (sim_enforced k) (sim_register k)
               (sim_rights k) script (sim_dyld_info k)) (mem σ) (log σ).

(** The value a run returns, and the machine it ends in. *)
Definition result_of {K A} (o : outcome K A) : option A :=
  match o with Ret a _ => Some a | _ => None end.
Definition final {K A} (σ : machine K) (o : outcome K A) : machine K :=
  match o with Ret _ σ' => σ' | _ => σ end.
