(* ===== verification/CString.v ===== *)
(** C strings: the functions of <string.h> the library calls, and the strings
    they find in memory. *)
From S2P Require Import Prelude Machine Logic.

(** ** The functions of <string.h> the library calls

    A C string argument is the list of its bytes before the terminator. *)

(** The bytes before the first NUL. *)
Fixpoint until_nul (bytes : list byte) : list byte :=
  match bytes with
  | [] => []
  | b :: bytes => if byte_val b =? 0 then [] else b :: until_nul bytes
  end.

(** [strcmp(a, b) == 0] on two terminated arrays, [strncmp(a, b, n) == 0] on two
    arrays. *)
Definition strcmp_eq (a b : list byte) : bool := bool_decide (until_nul a = until_nul b).
Definition strncmp_eq (a b : list byte) (n : nat) : bool :=
  bool_decide (until_nul (take n a) = until_nul (take n b)).

Section StringFunctions.
Context {K : Type} {Kern : Kernel K}.

(** [memchr(s, c, n)] reads up to the first match. *)
Definition memchr (s c n : Z) : M K (option Z) :=
  loopM FUEL64 (fun i =>
    if n <=? i then ret (inr None) else
    let* b := load_u8 (s + i) in
    if b =? c then ret (inr (Some (s + i))) else ret (inl (i + 1))) 0.

(** [memcmp(s, bytes, n) == 0]. *)
Definition memcmp_eq (s : Z) (bytes : list byte) (n : Z) : M K bool :=
  let* content := load_bytes s (Z.to_nat n) in
  ret (bool_decide (content = take (Z.to_nat n) bytes)).
End StringFunctions.

(** ** Strings in memory *)

Section Strings.
Context {K : Type} {Kern : Kernel K}.
Implicit Types σ : machine K.

(** The C string at [a], if it ends within [n] bytes. *)
Definition cstring σ (a n : Z) : option (list byte) :=
  let bytes := peeks σ a (Z.to_nat n) in
  if (length (until_nul bytes) <? length bytes)%nat then Some (until_nul bytes) else None.

Lemma until_nul_prefix bytes :
  (length (until_nul bytes) <= length bytes)%nat /\
  until_nul bytes = take (length (until_nul bytes)) bytes.
Proof.
  induction bytes as [|b bytes [IH1 IH2]]; [done|]. cbn [until_nul].
  destruct (byte_val b =? 0); cbn [length take]; [split; [lia|done]|].
  split; [lia|by f_equal].
Qed.

Lemma peek_u8_byte σ a : peek_u8 σ a = byte_val (peek σ a).
Proof.
  unfold peek_u8. rewrite peeks_S. change (peeks σ (a + 1) 0) with (@nil byte). cbn [le_combine]. lia.
Qed.

Lemma peeks_take σ a n m : (m <= n)%nat -> take m (peeks σ a n) = peeks σ a m.
Proof.
  intros. replace n with (m + (n - m))%nat by lia. rewrite peeks_app.
  by rewrite take_app_length' by by rewrite length_peeks.
Qed.

Lemma memchr_loop σ s n m extra i :
  0 <= i -> i + Z.of_nat m = n -> range_readable σ s n ->
  let bytes := peeks σ (s + i) m in
  loopN (S m + extra) (fun i =>
    if n <=? i then ret (inr None) else
    let* b := load_u8 (s + i) in
    if b =? 0 then ret (inr (Some (s + i))) else ret (inl (i + 1))) i σ =
  Ret (if (length (until_nul bytes) <? m)%nat
       then Some (s + i + Z.of_nat (length (until_nul bytes))) else None) σ.
Proof.
  revert i. induction m as [|m IH]; intros i Hi Hn Hr bytes.
  - apply loopN_stop. by replace (n <=? i) with true by lia.
  - cbn [Nat.add]. rewrite loopN_S. unfold bind. replace (n <=? i) with false by lia.
    rewrite load_u8_ok by (eapply range_readable_sub; [done|lia|lia]).
    rewrite peek_u8_byte. subst bytes. rewrite peeks_S. cbn [until_nul].
    destruct (byte_val (peek σ (s + i)) =? 0).
    { unfold ret. cbn [length]. by rewrite Z.add_0_r. }
    unfold ret. rewrite IH by (done || lia). cbv zeta. cbn [length].
    replace (s + (i + 1)) with (s + i + 1) by lia.
    destruct (Nat.ltb_spec (length (until_nul (peeks σ (s + i + 1) m))) m),
      (Nat.ltb_spec (S (length (until_nul (peeks σ (s + i + 1) m)))) (S m)); try lia; [|done].
    do 2 f_equal. lia.
Qed.

Lemma memchr_eq σ s n :
  0 <= n < 2 ^ 64 -> range_readable σ s n ->
  memchr s 0 n σ =
  Ret ((fun str => s + Z.of_nat (length str)) <$> cstring σ s n) σ.
Proof.
  intros Hn Hr. unfold memchr. rewrite loopM_loopN.
  replace (Pos.to_nat FUEL64) with
    (S (Z.to_nat n) + (Pos.to_nat FUEL64 - S (Z.to_nat n)))%nat by (unfold FUEL64; lia).
  rewrite (memchr_loop σ s n) by (done || lia). rewrite Z.add_0_r.
  unfold cstring. rewrite length_peeks. by destruct (_ <? _)%nat.
Qed.

(** Length and bytes agree exactly when the string is the name. *)
Lemma candidate_eq σ a n str name :
  0 <= n -> cstring σ a n = Some str ->
  Z.of_nat (length str) < n /\
  ((Z.of_nat (length str) =? Z.of_nat (length name)) &&
   bool_decide (peeks σ a (length str) = take (length str) name)) =
  bool_decide (Some str = Some name).
Proof.
  intros Hn. unfold cstring. rewrite length_peeks. set (bytes := peeks σ a (Z.to_nat n)).
  destruct (Nat.ltb_spec (length (until_nul bytes)) (Z.to_nat n)) as [Hl|]; [|done].
  intros [= <-]. split; [lia|]. destruct (until_nul_prefix bytes) as [_ Hp].
  rewrite <- (peeks_take σ a (Z.to_nat n)) by lia. fold bytes. rewrite <- Hp.
  set (str := until_nul bytes) in *. clearbody str.
  destruct (Z.eqb_spec (Z.of_nat (length str)) (Z.of_nat (length name))) as [He|He].
  - rewrite take_ge by lia. cbn [andb]. apply bool_decide_ext. naive_solver.
  - cbn [andb]. symmetry. apply bool_decide_eq_false. intros [= ->]. lia.
Qed.
End Strings.
