(* ===== verification/Regions.v ===== *)
(** VM region queries, function-pointer signing and the shared-cache slide: the
    second half of RorkHookInternal.c. *)
From S2P Require Import Prelude Machine Logic Sim.

Section Regions.
Context {K : Type} {T : Target} {Kern : Kernel K}.
Implicit Types σ : machine K.

(** ** Operations *)

Definition RorkHookQueryRegion (address : Z)
    (regionAddressOut regionSizeOut protectionOut : option Z)
    : M K (bool * (option Z * option Z * option Z)) :=
  let unchanged := (regionAddressOut, regionSizeOut, protectionOut) in
  if address =? NULL then ret (false, unchanged) else
  let* info := kcall (fun k => vm_region_64 k address) in
  let* _ := if negb (region_object_name info =? MACH_PORT_NULL)
            then kset (fun k => mach_port_deallocate k (region_object_name info))
            else ret tt in
  if negb (region_result info =? KERN_SUCCESS) then ret (false, unchanged) else
  let regionStart := region_address info in
  let regionEnd := u64 (regionStart + region_size info) in
  if (regionEnd <? regionStart) || (address <? regionStart) || (regionEnd <=? address)
  then ret (false, unchanged)
  else ret (true, (write_out regionAddressOut (region_address info),
                   write_out regionSizeOut (region_size info),
                   write_out protectionOut (region_protection info))).

Definition RorkHookMemoryProtection (address : Z) (protectionOut : option Z)
    : M K (bool * option Z) :=
  match protectionOut with
  | None => ret (false, None)
  | Some _ =>
      let* (found, (_, _, protectionOut)) :=
        RorkHookQueryRegion address None None protectionOut in
      ret (found, protectionOut)
  end.

Definition RorkHookReadableMemoryLength (address : Z) : M K Z :=
  let* (found, (regionAddress, regionSize, protection)) :=
    RorkHookQueryRegion address (Some 0) (Some 0) (Some 0) in
  if negb found || negb (prot_has (default 0 protection) VM_PROT_READ) then ret 0 else
  let start := address in
  let regionStart := default 0 regionAddress in
  let regionEnd := u64 (regionStart + default 0 regionSize) in
  if (regionEnd <? regionStart) || (start <? regionStart) || (regionEnd <=? start)
  then ret 0
  else ret (u64 (regionEnd - start)).

Definition RorkHookMemoryIsReadable (address length : Z) : M K bool :=
  if negb (length =? 0) then
    let* readableLength := RorkHookReadableMemoryLength address in
    ret (length <=? readableLength)
  else ret false.

Definition RorkHookSignPointerIfExecutable (pointer : Z) : M K Z :=
  if pointer =? NULL then ret NULL else
  if ptrauth_calls then
    let rawPointer := ptrauth_strip pointer in
    let* (found, (_, _, protection)) :=
      RorkHookQueryRegion rawPointer None None (Some 0) in
    if found && prot_has (default 0 protection) VM_PROT_EXECUTE
    then ret (ptrauth_sign_unauthenticated rawPointer 0)
    else ret pointer
  else ret pointer.

Definition RorkHookSharedCacheSlide : M K Z :=
  let* (result, all_image_info_addr) := asks task_dyld_info in
  if negb (result =? KERN_SUCCESS) || (all_image_info_addr =? 0) then ret 0 else
  let imageInfos := all_image_info_addr in
  let* isReadable := RorkHookMemoryIsReadable imageInfos sizeof_dyld_all_image_infos in
  if negb isReadable then ret 0 else
  let* version := load_u32 (imageInfos + offsetof_version) in
  if version <? 12 then ret 0 else
  load_u64 (imageInfos + offsetof_sharedCacheSlide).

(** ** Specifications

    The region a query reports, as a function of the kernel state. *)

Definition region_at (k : K) (address : Z) : option vm_region :=
  let info := fst (vm_region_64 k address) in
  let stop := u64 (region_address info + region_size info) in
  if (address =? NULL) || negb (region_result info =? KERN_SUCCESS) ||
     (stop <? region_address info) || (address <? region_address info) ||
     (stop <=? address)
  then None else Some info.

Definition readable_length (k : K) (address : Z) : Z :=
  match region_at k address with
  | Some r => if prot_has (region_protection r) VM_PROT_READ
              then u64 (region_address r + region_size r) - address else 0
  | None => 0
  end.

Definition memory_is_readable (k : K) (address length : Z) : bool :=
  negb (length =? 0) && (length <=? readable_length k address).

Context {Laws : KernelLaws K}.

Lemma region_at_sound k a r :
  region_at k a = Some r ->
  0 <= region_address r <= a /\
  a < u64 (region_address r + region_size r) <= region_address r + region_size r /\
  region_address r + region_size r <= 2 ^ 64 /\
  forall x, region_address r <= x < region_address r + region_size r ->
    prot_at k x = Some (region_protection r).
Proof.
  unfold region_at. destruct (vm_region_64 k a) as [info k'] eqn:Hq. cbn [fst].
  destruct (_ || _) eqn:E; [done|]. intros [= <-].
  pose proof (region_sound _ _ _ _ Hq ltac:(lia)) as (? & ? & ? & Hp).
  pose proof (Z.mod_le (region_address info + region_size info) (2 ^ 64) ltac:(lia) ltac:(lia)).
  unfold u64 in *. split_and!; try lia; done.
Qed.

(** The query itself: its result is [region_at], and whatever the kernel hands
    out during the call has been given back. *)
Lemma RorkHookQueryRegion_eq σ a o1 o2 o3 :
  RorkHookQueryRegion a o1 o2 o3 σ =
  Ret (match region_at (kern σ) a with
       | Some r => (true, (write_out o1 (region_address r), write_out o2 (region_size r),
                           write_out o3 (region_protection r)))
       | None => (false, (o1, o2, o3))
       end) σ.
Proof.
  unfold RorkHookQueryRegion, region_at, kcall, kset, bind, ret.
  destruct (Z.eqb_spec a NULL); [done|].
  destruct (vm_region_64 (kern σ) a) as [info k'] eqn:Hq. cbn [fst].
  pose proof (region_released _ _ _ _ Hq) as Hrel.
  destruct σ as [k m l]. cbn [kern mem log] in *.
  destruct (negb (region_object_name info =? MACH_PORT_NULL)); subst; cbn [kern mem log orb];
    destruct (negb (region_result info =? KERN_SUCCESS)); cbn [orb]; try done;
    by destruct (_ || _).
Qed.

Lemma RorkHookMemoryProtection_eq σ a o :
  RorkHookMemoryProtection a o σ =
  Ret (match o, region_at (kern σ) a with
       | Some _, Some r => (true, Some (region_protection r))
       | _, _ => (false, o)
       end) σ.
Proof.
  unfold RorkHookMemoryProtection. destruct o as [p|]; [|done].
  erewrite bind_Ret by apply RorkHookQueryRegion_eq. by destruct (region_at _ _).
Qed.

Lemma RorkHookReadableMemoryLength_eq σ a :
  is_u64 a ->
  RorkHookReadableMemoryLength a σ = Ret (readable_length (kern σ) a) σ.
Proof.
  intros Ha. unfold RorkHookReadableMemoryLength, readable_length.
  erewrite bind_Ret by apply RorkHookQueryRegion_eq.
  destruct (region_at _ _) as [r|] eqn:Hr; [|done]. cbn.
  apply region_at_sound in Hr as (? & Hend & ? & _).
  destruct (prot_has _ _); [|done]. cbn.
  destruct (_ || _) eqn:?; [lia|]. unfold ret. f_equal.
  apply u64_small. unfold is_u64 in *. pose proof (u64_range (region_address r + region_size r)).
  unfold is_u64 in *. lia.
Qed.

Lemma RorkHookMemoryIsReadable_eq σ a n :
  is_u64 a ->
  RorkHookMemoryIsReadable a n σ = Ret (memory_is_readable (kern σ) a n) σ.
Proof.
  intros. unfold RorkHookMemoryIsReadable, memory_is_readable.
  destruct (negb _); [|done].
  erewrite bind_Ret by by apply RorkHookReadableMemoryLength_eq. done.
Qed.

Lemma readable_length_range k a :
  is_u64 a -> 0 <= readable_length k a /\ a + readable_length k a < 2 ^ 64.
Proof.
  unfold readable_length, is_u64. intros.
  destruct (region_at k a) as [r|] eqn:Hr; [|lia].
  apply region_at_sound in Hr as (? & ? & ? & _).
  pose proof (u64_range (region_address r + region_size r)). unfold is_u64 in *.
  destruct (prot_has _ _); lia.
Qed.

Lemma readable_length_sound σ a :
  range_readable σ a (readable_length (kern σ) a).
Proof.
  intros x Hx. unfold readable, readable_length in *.
  destruct (region_at (kern σ) a) as [r|] eqn:Hr; [|cbn in Hx; lia].
  apply region_at_sound in Hr as (? & ? & ? & Hp).
  destruct (prot_has (region_protection r) VM_PROT_READ) eqn:E in Hx; [|lia].
  by rewrite Hp by lia.
Qed.

Lemma memory_is_readable_sound σ a n :
  memory_is_readable (kern σ) a n = true -> range_readable σ a n.
Proof.
  unfold memory_is_readable. intros ?.
  eapply (range_readable_sub σ a); [apply readable_length_sound|lia|lia].
Qed.

Lemma memory_is_readable_bound k a n :
  is_u64 a -> memory_is_readable k a n = true -> n <> 0 /\ a + n < 2 ^ 64.
Proof.
  unfold memory_is_readable. intros Ha ?.
  pose proof (readable_length_range k a Ha). lia.
Qed.

(** Signing reads the region table only. *)
Definition sign_pointer (k : K) (pointer : Z) : Z :=
  if (pointer =? NULL) || negb ptrauth_calls then pointer else
  match region_at k (ptrauth_strip pointer) with
  | Some r => if prot_has (region_protection r) VM_PROT_EXECUTE
              then ptrauth_sign_unauthenticated (ptrauth_strip pointer) 0 else pointer
  | None => pointer
  end.

Lemma RorkHookSignPointerIfExecutable_eq σ p :
  RorkHookSignPointerIfExecutable p σ = Ret (sign_pointer (kern σ) p) σ.
Proof.
  unfold RorkHookSignPointerIfExecutable, sign_pointer.
  destruct (Z.eqb_spec p NULL) as [->|]; [done|]. cbn [orb].
  destruct ptrauth_calls; [|done]. cbn [negb].
  erewrite bind_Ret by apply RorkHookQueryRegion_eq.
  destruct (region_at _ _); cbn; [|done]. by destruct (prot_has _ _).
Qed.
End Regions.

(** ** The shared-cache slide *)

Section Slide.
Context {K : Type} {T : Target} {Kern : Kernel K}.
Context {Laws : KernelLaws K}.
Implicit Types σ : machine K.

(** The slide dyld publishes, when its record is present, wholly readable and
    recent enough to have the field. *)
Definition shared_cache_slide σ : Z :=
  let '(result, infos) := task_dyld_info (kern σ) in
  if (result =? KERN_SUCCESS) && negb (infos =? 0) &&
     memory_is_readable (kern σ) infos sizeof_dyld_all_image_infos &&
     (12 <=? peek_u32 σ (infos + offsetof_version))
  then peek_u64 σ (infos + offsetof_sharedCacheSlide) else 0.

Lemma RorkHookSharedCacheSlide_eq σ :
  is_u64 (snd (task_dyld_info (kern σ))) ->
  0 <= offsetof_version -> offsetof_version + 4 <= sizeof_dyld_all_image_infos ->
  0 <= offsetof_sharedCacheSlide ->
  offsetof_sharedCacheSlide + 8 <= sizeof_dyld_all_image_infos ->
  RorkHookSharedCacheSlide σ = Ret (shared_cache_slide σ) σ.
Proof.
  intros Hi Hv1 Hv2 Hs1 Hs2. unfold RorkHookSharedCacheSlide, shared_cache_slide, asks.
  unfold bind at 1. destruct (task_dyld_info (kern σ)) as [r infos]. cbn [snd] in Hi.
  destruct (r =? KERN_SUCCESS); [|done]. destruct (infos =? 0); [done|]. cbn [negb orb andb].
  erewrite bind_Ret by by apply RorkHookMemoryIsReadable_eq.
  destruct (memory_is_readable _ _ _) eqn:Hr; [|done]. cbn [negb andb].
  apply (memory_is_readable_sound σ) in Hr.
  erewrite bind_Ret by (apply load_u32_ok; eapply range_readable_sub; [done|lia|lia]).
  destruct (Z.ltb_spec (peek_u32 σ (infos + offsetof_version)) 12).
  - by replace (12 <=? _) with false by lia.
  - replace (12 <=? _) with true by lia.
    apply load_u64_ok. eapply range_readable_sub; [done|lia|lia].
Qed.
End Slide.

(** ** Properties *)

Section Properties.
Context {K : Type} {T : Target} {Kern : Kernel K}.
Context {Laws : KernelLaws K}.
Implicit Types σ : machine K.

(** C34: a region query leaves the kernel as it found it: the object name the
    kernel hands out is given back on every path.  When it reports a region,
    that region contains the address, does not wrap, and every byte of it has
    the reported protection; when it does not, the outputs are untouched. *)
Theorem RorkHookQueryRegion_sound σ address a0 s0 p0 :
  exists found a s p,
    RorkHookQueryRegion address (Some a0) (Some s0) (Some p0) σ =
      Ret (found, (Some a, Some s, Some p)) σ /\
    if found
    then 0 <= a <= address /\ address < a + s <= 2 ^ 64 /\
         forall x, a <= x < a + s -> prot_at (kern σ) x = Some p
    else a = a0 /\ s = s0 /\ p = p0.
Proof using Laws.
  rewrite RorkHookQueryRegion_eq. destruct (region_at (kern σ) address) as [r|] eqn:Hr.
  - apply region_at_sound in Hr as (? & ? & ? & Hp). do 4 eexists.
    split; [done|]. cbn. split_and!; try lia. done.
  - by do 4 eexists.
Qed.

(** C33: when the library judges a range readable, loads of the whole range
    succeed and the range does not wrap around the address space; and asking
    changes nothing. *)
Theorem RorkHookMemoryIsReadable_sound σ address length :
  is_u64 address -> 0 <= length ->
  exists answer, RorkHookMemoryIsReadable address length σ = Ret answer σ /\
    (answer = true ->
     0 < length /\ address + length < 2 ^ 64 /\
     load_bytes address (Z.to_nat length) σ = Ret (peeks σ address (Z.to_nat length)) σ).
Proof using Laws.
  intros Ha Hl. exists (memory_is_readable (kern σ) address length).
  split; [by apply RorkHookMemoryIsReadable_eq|]. intros Hr.
  destruct (memory_is_readable_bound _ _ _ Ha Hr). split_and!; [lia|done|].
  apply load_bytes_ok. rewrite Z2Nat.id by done. by apply memory_is_readable_sound.
Qed.

(** A function pointer is re-signed exactly when the target has pointer
    authentication and the stripped address lies in an executable region; any
    other pointer, [NULL] included, is returned as it was given. *)
Theorem RorkHookSignPointerIfExecutable_spec σ pointer :
  exists result, RorkHookSignPointerIfExecutable pointer σ = Ret result σ /\
    ((result = ptrauth_sign_unauthenticated (ptrauth_strip pointer) 0 /\
      pointer <> NULL /\ ptrauth_calls = true /\
      exists p, prot_at (kern σ) (ptrauth_strip pointer) = Some p /\
        prot_has p VM_PROT_EXECUTE = true) \/
     (result = pointer /\
      (pointer = NULL \/ ptrauth_calls = false \/
       region_at (kern σ) (ptrauth_strip pointer) = None \/
       exists p, prot_at (kern σ) (ptrauth_strip pointer) = Some p /\
         prot_has p VM_PROT_EXECUTE = false))).
Proof using Laws.
  exists (sign_pointer (kern σ) pointer). split; [apply RorkHookSignPointerIfExecutable_eq|].
  unfold sign_pointer. destruct (Z.eqb_spec pointer NULL) as [->|Hn]; [by right; auto|].
  destruct ptrauth_calls; [|by right; auto]. cbn [orb negb].
  destruct (region_at _ _) as [r|] eqn:Hr; [|by right; auto].
  apply region_at_sound in Hr as (? & ? & ? & Hp).
  assert (prot_at (kern σ) (ptrauth_strip pointer) = Some (region_protection r)) as Hs
    by (apply Hp; lia).
  destruct (prot_has _ _) eqn:Hx.
  - left. split_and!; [done..|]. by eexists.
  - right. split; [done|]. do 3 right. by eexists.
Qed.

(** The shared-cache slide is read only through a wholly readable,
    recent enough dyld record: the function returns without a fault on any
    answer of the kernel, and returns the published slide or zero. *)
Theorem RorkHookSharedCacheSlide_total σ :
  is_u64 (snd (task_dyld_info (kern σ))) ->
  0 <= offsetof_version -> offsetof_version + 4 <= sizeof_dyld_all_image_infos ->
  0 <= offsetof_sharedCacheSlide ->
  offsetof_sharedCacheSlide + 8 <= sizeof_dyld_all_image_infos ->
  RorkHookSharedCacheSlide σ = Ret (shared_cache_slide σ) σ.
Proof using Laws. apply RorkHookSharedCacheSlide_eq. Qed.
End Properties.

(** ** Witnesses *)

(** One read-only page at [0x4000] and one executable page at [0x8000]. *)
Definition two_pages : machine sim := sim_machine [(1, 1); (2, 5)] [].

Lemma RorkHookMemoryIsReadable_sound_witness :
  result_of (RorkHookMemoryIsReadable 0x7ff0 16 two_pages) = Some true /\
  result_of (RorkHookMemoryIsReadable 0x7ff0 17 two_pages) = Some false /\
  exists answer, RorkHookMemoryIsReadable 0x7ff0 16 two_pages = Ret answer two_pages /\
    (answer = true ->
     0 < 16 /\ 0x7ff0 + 16 < 2 ^ 64 /\
     load_bytes 0x7ff0 (Z.to_nat 16) two_pages =
       Ret (peeks two_pages 0x7ff0 (Z.to_nat 16)) two_pages).
Proof.
  split; [by vm_compute|]. split; [by vm_compute|].
  apply (RorkHookMemoryIsReadable_sound (T := device)); done.
Defined.

(** The dyld record at [0x4000]: version 15, slide [0x123000]. *)
Definition dyld_machine : machine sim :=
  let σ := sim_machine [(1, 1)] [(0x4000, le_split 4 15); (0x4098, le_split 8 0x123000)] in
  let k := kern σ in
  Machine (Sim (sim_prot k) [] false 0 0 [] (KERN_SUCCESS, 0x4000)) (mem σ) (log σ).

Lemma RorkHookSharedCacheSlide_total_witness :
  shared_cache_slide (T := device) dyld_machine = 0x123000 /\
  RorkHookSharedCacheSlide (T := device) dyld_machine =
    Ret (shared_cache_slide (T := device) dyld_machine) dyld_machine.
Proof.
  split; [by vm_compute|]. apply (RorkHookSharedCacheSlide_total (T := device)); done.
Defined.

Lemma RorkHookQueryRegion_sound_witness :
  result_of (RorkHookQueryRegion 0x4321 (Some 0) (Some 0) (Some 0) two_pages) =
    Some (true, (Some 0x4000, Some 0x4000, Some 1)) /\
  exists found a s p,
    RorkHookQueryRegion 0x4321 (Some 0) (Some 0) (Some 0) two_pages =
      Ret (found, (Some a, Some s, Some p)) two_pages /\
    if found
    then 0 <= a <= 0x4321 /\ 0x4321 < a + s <= 2 ^ 64 /\
         forall x, a <= x < a + s -> prot_at (kern two_pages) x = Some p
    else a = 0 /\ s = 0 /\ p = 0.
Proof.
  split; [by vm_compute|]. apply (RorkHookQueryRegion_sound (T := device)).
Defined.

Lemma RorkHookSignPointerIfExecutable_spec_witness :
  let _ := device in
  result_of (RorkHookSignPointerIfExecutable 0x8010 two_pages) = Some (0x8010 + 2 ^ 48) /\
  result_of (RorkHookSignPointerIfExecutable 0x4010 two_pages) = Some 0x4010 /\
  exists result, RorkHookSignPointerIfExecutable 0x8010 two_pages = Ret result two_pages /\
    ((result = ptrauth_sign_unauthenticated (ptrauth_strip 0x8010) 0 /\
      0x8010 <> NULL /\ ptrauth_calls = true /\
      exists p, prot_at (kern two_pages) (ptrauth_strip 0x8010) = Some p /\
        prot_has p VM_PROT_EXECUTE = true) \/
     (result = 0x8010 /\
      (0x8010 = NULL \/ ptrauth_calls = false \/
       region_at (kern two_pages) (ptrauth_strip 0x8010) = None \/
       exists p, prot_at (kern two_pages) (ptrauth_strip 0x8010) = Some p /\
         prot_has p VM_PROT_EXECUTE = false))).
Proof.
  intros D. split; [by vm_compute|]. split; [by vm_compute|].
  apply (RorkHookSignPointerIfExecutable_spec (T := device)).
Defined.
