(* ===== verification/LoadCommands.v ===== *)
(** Mach-O load-command tables: validation, delivery to a visitor, and the image
    slide, the first half of RorkHookInternal.c. *)
From S2P Require Import Prelude Machine Logic Sim Regions.

(** ** Mach-O records

    Sizes and member offsets of the 64-bit records of <mach-o/loader.h> and
    <mach-o/nlist.h>, the ones RorkHookInternal.h selects under [__LP64__]. *)

Definition sizeof_mach_header : Z := 32.
Definition sizeof_load_command : Z := 8.
Definition RORK_HOOK_MH_MAGIC : Z := 0xfeedfacf.        (* MH_MAGIC_64 *)
Definition RORK_HOOK_LC_SEGMENT : Z := 0x19.            (* LC_SEGMENT_64 *)
Definition RORK_HOOK_LOAD_COMMAND_ALIGNMENT : Z := 8.   (* sizeof(uint64_t) *)

Section MachORecords.
Context {K : Type} {Kern : Kernel K}.

(* struct mach_header_64 *)
Definition header_magic (header : Z) : M K Z := load_u32 header.
Definition header_ncmds (header : Z) : M K Z := load_u32 (header + 16).
Definition header_sizeofcmds (header : Z) : M K Z := load_u32 (header + 20).

(* struct load_command *)
Definition command_cmd (command : Z) : M K Z := load_u32 command.
Definition command_cmdsize (command : Z) : M K Z := load_u32 (command + 4).

(* struct segment_command_64 *)
Definition sizeof_segment_command : Z := 72.
Definition segment_segname (segment : Z) : M K (list byte) := load_bytes (segment + 8) 16.
Definition segment_vmaddr (segment : Z) : M K Z := load_u64 (segment + 24).
Definition segment_vmsize (segment : Z) : M K Z := load_u64 (segment + 32).
Definition segment_fileoff (segment : Z) : M K Z := load_u64 (segment + 40).
Definition segment_filesize (segment : Z) : M K Z := load_u64 (segment + 48).
Definition segment_nsects (segment : Z) : M K Z := load_u32 (segment + 64).
End MachORecords.

(** A local copy of a [struct load_command]. *)
Record load_command := LoadCommand { cmd : Z; cmdsize : Z }.

Section LoadCommands.
Context {K : Type} {T : Target} {Kern : Kernel K}.
Implicit Types σ : machine K.

(** ** Operations *)

(** [memcpy(&command, source, sizeof(command))]. *)
Definition copy_load_command (source : Z) : M K load_command :=
  let* bytes := load_bytes source 8 in
  ret (LoadCommand (le_combine (take 4 bytes)) (le_combine (drop 4 bytes))).

(** One iteration of the validation loop: [inr None] is [return false], [inr
    (Some consumed)] the end of the loop. *)
Definition validate_step (header : Z) (state : Z * Z)
    : M K ((Z * Z) + option Z) :=
  let '(index, consumed) := state in
  let* ncmds := header_ncmds header in
  if negb (index <? ncmds) then ret (inr (Some consumed)) else
  let* sizeofcmds := header_sizeofcmds header in
  if sizeofcmds <? consumed then ret (inr None) else
  let remaining := u32 (sizeofcmds - consumed) in
  if remaining <? sizeof_load_command then ret (inr None) else
  let commandBytes := header + sizeof_mach_header in
  let* command := copy_load_command (commandBytes + consumed) in
  if (cmdsize command <? sizeof_load_command) ||
     negb (cmdsize command mod RORK_HOOK_LOAD_COMMAND_ALIGNMENT =? 0) ||
     (remaining <? cmdsize command)
  then ret (inr None)
  else ret (inl (u32 (index + 1), u32 (consumed + cmdsize command))).

Definition RorkHookValidateLoadCommands (header mappedSize : Z)
    (commandBytesOut : option Z) : M K (bool * option Z) :=
  match commandBytesOut with
  | None => ret (false, None)
  | Some _ =>
  if (header =? NULL) || (mappedSize <? sizeof_mach_header)
  then ret (false, commandBytesOut) else
  let* magic := header_magic header in
  if negb (magic =? RORK_HOOK_MH_MAGIC) then ret (false, commandBytesOut) else
  let* sizeofcmds := header_sizeofcmds header in
  if mappedSize - sizeof_mach_header <? sizeofcmds then ret (false, commandBytesOut) else
  let* ncmds := header_ncmds header in
  if sizeofcmds / sizeof_load_command <? ncmds then ret (false, commandBytesOut) else
  let commandBytes := header + sizeof_mach_header in
  let* consumed := loopM FUEL32 (validate_step header) (0, 0) in
  match consumed with
  | None => ret (false, commandBytesOut)
  | Some consumed =>
      let* sizeofcmds := header_sizeofcmds header in
      if negb (consumed =? sizeofcmds) then ret (false, commandBytesOut)
      else ret (true, Some commandBytes)
  end
  end.

(** A visitor receives the command's address, its index and the caller's
    context, and returns whether to go on with the context it leaves. *)
Definition visitor_fn (C : Type) : Type := Z -> Z -> option C -> M K (bool * option C).

Definition foreach_step {C} (header commandBytes : Z) (visitor : visitor_fn C)
    (state : Z * Z * option C) : M K ((Z * Z * option C) + option C) :=
  let '(index, consumed, context) := state in
  let* ncmds := header_ncmds header in
  if negb (index <? ncmds) then ret (inr context) else
  let command := commandBytes + consumed in
  let* (continue, context) := visitor command index context in
  if negb continue then ret (inr context) else
  let* cmdsize := command_cmdsize command in
  ret (inl (u32 (index + 1), u32 (consumed + cmdsize), context)).

Definition RorkHookForEachLoadCommandWithSize {C} (header mappedSize : Z)
    (visitor : option (visitor_fn C)) (context : option C) : M K (bool * option C) :=
  match visitor with
  | None => ret (false, context)
  | Some visitor =>
      let* (valid, commandBytes) :=
        RorkHookValidateLoadCommands header mappedSize (Some NULL) in
      if negb valid then ret (false, context) else
      let commandBytes := default NULL commandBytes in
      let* context := loopM FUEL32 (foreach_step header commandBytes visitor) (0, 0, context) in
      ret (true, context)
  end.

Definition RorkHookForEachLoadCommand {C} (header : Z)
    (visitor : option (visitor_fn C)) (context : option C) : M K (bool * option C) :=
  let* mappedSize := RorkHookReadableMemoryLength header in
  RorkHookForEachLoadCommandWithSize header mappedSize visitor context.

Definition RorkHookAddressDifference (left right : Z) (differenceOut : option Z)
    : bool * option Z :=
  match differenceOut with
  | None => (false, None)
  | Some _ =>
      if right <=? left then
        let difference := u64 (left - right) in
        if INTPTR_MAX <? difference then (false, differenceOut)
        else (true, Some difference)
      else
        let magnitude := u64 (right - left) in
        let minimumMagnitude := u64 (INTPTR_MAX + 1) in
        if minimumMagnitude <? magnitude then (false, differenceOut)
        else (true, Some (if magnitude =? minimumMagnitude
                          then INTPTR_MIN else - magnitude))
  end.

Record RorkHookImageSlideContext := ImageSlideContext {
  context_header : Z;
  context_slide : Z;
  context_found : bool
}.

Definition RorkHookImageSlideLoadCommand : visitor_fn RorkHookImageSlideContext :=
  fun command _ contextRaw =>
  if command =? NULL then ret (false, contextRaw) else
  match contextRaw with
  | None => ret (false, None)
  | Some context =>
  let* cmd := command_cmd command in
  if negb (cmd =? RORK_HOOK_LC_SEGMENT) then ret (true, contextRaw) else
  let* cmdsize := command_cmdsize command in
  if cmdsize <? sizeof_segment_command then ret (true, contextRaw) else
  let segment := command in
  let* fileoff := segment_fileoff segment in
  if negb (fileoff =? 0) then ret (true, contextRaw) else
  let* filesize := segment_filesize segment in
  if filesize =? 0 then ret (true, contextRaw) else
  let* vmaddr := segment_vmaddr segment in
  if UINTPTR_MAX <? vmaddr then ret (false, contextRaw) else
  let '(fits, slide) :=
    RorkHookAddressDifference (context_header context) vmaddr
      (Some (context_slide context)) in
  let context := ImageSlideContext (context_header context)
                   (default 0 slide) (context_found context) in
  if negb fits then ret (false, Some context) else
  ret (false, Some (ImageSlideContext (context_header context)
                      (context_slide context) true))
  end.

Definition RorkHookImageSlide (header : Z) (resolved : option bool)
    : M K (Z * option bool) :=
  let resolved := write_out resolved false in
  if header =? NULL then ret (0, resolved) else
  let* (valid, context) :=
    RorkHookForEachLoadCommand header (Some RorkHookImageSlideLoadCommand)
      (Some (ImageSlideContext header 0 false)) in
  match context with
  | Some context =>
      if valid && context_found context
      then ret (context_slide context, write_out resolved true)
      else ret (0, resolved)
  | None => ret (0, resolved)
  end.
End LoadCommands.

(** ** The table a validated image holds *)

Fixpoint sumZ (l : list Z) : Z :=
  match l with [] => 0 | z :: l => z + sumZ l end.

Section Table.
Context {K : Type}.
Implicit Types σ : machine K.

(** The sizes of [n] consecutive commands from [a], each at least a header
    long, a multiple of the alignment and within the [remaining] bytes. *)
Fixpoint parse_sizes σ (a : Z) (n : nat) (remaining : Z) : option (list Z) :=
  match n with
  | O => Some []
  | S n =>
      let size := peek_u32 σ (a + 4) in
      if (remaining <? sizeof_load_command) || (size <? sizeof_load_command) ||
         negb (size mod RORK_HOOK_LOAD_COMMAND_ALIGNMENT =? 0) || (remaining <? size)
      then None
      else cons size <$> parse_sizes σ (a + size) n (remaining - size)
  end.

Definition table_sizes σ (header mappedSize : Z) : option (list Z) :=
  let sizeofcmds := peek_u32 σ (header + 20) in
  let ncmds := peek_u32 σ (header + 16) in
  if (header =? NULL) || (mappedSize <? sizeof_mach_header) ||
     negb (peek_u32 σ header =? RORK_HOOK_MH_MAGIC) ||
     (mappedSize - sizeof_mach_header <? sizeofcmds) ||
     (sizeofcmds / sizeof_load_command <? ncmds)
  then None else
  match parse_sizes σ (header + sizeof_mach_header) (Z.to_nat ncmds) sizeofcmds with
  | Some sizes => if sumZ sizes =? sizeofcmds then Some sizes else None
  | None => None
  end.

(** The declarative reading: [sizes] are the sizes of the image's commands and
    they tile the table the header declares. *)
Record valid_image σ (header mappedSize : Z) (sizes : list Z) : Prop := {
  vi_nonnull : header <> NULL;
  vi_magic : peek_u32 σ header = RORK_HOOK_MH_MAGIC;
  vi_bound : sizeof_mach_header + peek_u32 σ (header + 20) <= mappedSize;
  vi_count : Z.of_nat (length sizes) = peek_u32 σ (header + 16);
  vi_tiles : sumZ sizes = peek_u32 σ (header + 20);
  vi_command i size :
    sizes !! i = Some size ->
    sizeof_load_command <= size /\
    size mod RORK_HOOK_LOAD_COMMAND_ALIGNMENT = 0 /\
    peek_u32 σ (header + sizeof_mach_header + sumZ (take i sizes) + 4) = size
}.

Lemma sumZ_app l1 l2 : sumZ (l1 ++ l2) = sumZ l1 + sumZ l2.
Proof. induction l1; cbn in *; lia. Qed.

Lemma sumZ_lower c l :
  (forall i z, l !! i = Some z -> c <= z) -> c * Z.of_nat (length l) <= sumZ l.
Proof.
  induction l as [|z l IH]; intros Hl; cbn [sumZ length]; [lia|].
  pose proof (Hl 0%nat z eq_refl).
  pose proof (IH (fun i => Hl (S i))). lia.
Qed.

Lemma parse_sizes_spec σ a n remaining sizes :
  0 <= remaining ->
  parse_sizes σ a n remaining = Some sizes <->
  length sizes = n /\ sumZ sizes <= remaining /\
  forall i size, sizes !! i = Some size ->
    sizeof_load_command <= size /\ size mod RORK_HOOK_LOAD_COMMAND_ALIGNMENT = 0 /\
    peek_u32 σ (a + sumZ (take i sizes) + 4) = size.
Proof.
  revert a remaining sizes. induction n as [|n IH]; intros a remaining sizes Hrem.
  { cbn. split.
    - intros [= <-]. split_and!; [done|cbn; lia|done].
    - intros (Hl & _). by apply nil_length_inv in Hl as ->. }
  cbn [parse_sizes]. split.
  - destruct (_ || _) eqn:E; [done|].
    destruct (parse_sizes _ _ n _) as [rest|] eqn:Hp; intros [= <-].
    apply IH in Hp as (Hl & Hs & Hc); [|lia].
    split_and!; [cbn; lia|cbn; lia|].
    intros [|i] size Hi; cbn in Hi; simplify_eq.
    { cbn [take sumZ]. rewrite Z.add_0_r. lia. }
    apply Hc in Hi as (? & ? & Hsz). split_and!; [done..|].
    etrans; [|exact Hsz]. cbn [take sumZ]. f_equal. lia.
  - intros (Hl & Hs & Hc). destruct sizes as [|size rest]; [done|].
    destruct (Hc 0%nat size eq_refl) as (H1 & H2 & H3).
    cbn [take sumZ] in H3, Hs.
    rewrite Z.add_0_r in H3. rewrite H3.
    assert (0 <= sumZ rest) as Hpos.
    { apply (sumZ_lower 0). intros i s Hi. destruct (Hc (S i) s Hi).
      unfold sizeof_load_command in *. lia. }
    replace (_ || _) with false by (unfold sizeof_load_command in *; lia).
    rewrite (proj2 (IH (a + size) (remaining - size) rest ltac:(lia))); [done|].
    split_and!; [cbn in Hl; lia|lia|].
    intros i s Hi. destruct (Hc (S i) s Hi) as (? & ? & Hsz).
    split_and!; [done..|]. etrans; [|exact Hsz]. cbn [take sumZ]. f_equal. lia.
Qed.

Lemma table_sizes_spec σ header mappedSize sizes :
  table_sizes σ header mappedSize = Some sizes <->
  valid_image σ header mappedSize sizes.
Proof.
  unfold table_sizes. pose proof (peek_u32_range σ (header + 16)) as Hn.
  pose proof (peek_u32_range σ (header + 20)) as Hs. unfold is_u32 in *. split.
  - destruct (_ || _) eqn:E; [done|].
    destruct (parse_sizes _ _ _ _) as [l|] eqn:Hp; [|done].
    destruct (Z.eqb_spec (sumZ l) (peek_u32 σ (header + 20))); intros [= <-].
    apply parse_sizes_spec in Hp as (Hl & _ & Hc); [|lia].
    split; try lia. exact Hc.
  - intros [Hnull Hmagic Hbound Hcount Htiles Hc].
    pose proof (sumZ_lower 8 sizes (fun i z Hi => proj1 (Hc i z Hi))) as Hlen.
    unfold sizeof_mach_header, sizeof_load_command in *.
    assert (peek_u32 σ (header + 16) <= peek_u32 σ (header + 20) / 8)
      by (apply Z.div_le_lower_bound; lia).
    replace (_ || _) with false by lia.
    rewrite (proj2 (parse_sizes_spec σ (header + 32) _ _ sizes (proj1 Hs))).
    { by rewrite Htiles, Z.eqb_refl. }
    split_and!; [lia|lia|exact Hc].
Qed.
End Table.

(** ** Validation and delivery *)

Section Delivery.
Context {K : Type} {T : Target} {Kern : Kernel K}.
Implicit Types σ : machine K.

Lemma copy_load_command_ok σ a :
  range_readable σ a 8 ->
  copy_load_command a σ = Ret (LoadCommand (peek_u32 σ a) (peek_u32 σ (a + 4))) σ.
Proof.
  intros Hr. unfold copy_load_command, bind, ret. rewrite load_bytes_ok by done.
  change 8%nat with (4 + 4)%nat. rewrite peeks_app.
  rewrite take_app_length', drop_app_length' by by rewrite length_peeks. done.
Qed.

Section Image.
Context σ (header mappedSize : Z).
Context (Hread : range_readable σ header mappedSize).
Context (Hbound : sizeof_mach_header + peek_u32 σ (header + 20) <= mappedSize).

Lemma header_readable b m : header <= b -> b + m <= header + mappedSize ->
  range_readable σ b m.
Proof using Hread. intros. by eapply range_readable_sub. Qed.

Lemma validate_step_eq index consumed :
  0 <= index -> 0 <= consumed <= peek_u32 σ (header + 20) ->
  validate_step header (index, consumed) σ =
  Ret (if index <? peek_u32 σ (header + 16) then
         let remaining := peek_u32 σ (header + 20) - consumed in
         let size := peek_u32 σ (header + sizeof_mach_header + consumed + 4) in
         if (remaining <? sizeof_load_command) || (size <? sizeof_load_command) ||
            negb (size mod RORK_HOOK_LOAD_COMMAND_ALIGNMENT =? 0) || (remaining <? size)
         then inr None else inl (index + 1, consumed + size)
       else inr (Some consumed)) σ.
Proof using Hread Hbound.
  intros Hi Hc. pose proof (peek_u32_range σ (header + 16)) as Hn.
  pose proof (peek_u32_range σ (header + 20)) as Hs.
  unfold is_u32, sizeof_mach_header in *.
  unfold validate_step, header_ncmds, header_sizeofcmds, sizeof_mach_header, sizeof_load_command.
  erewrite bind_Ret by (apply load_u32_ok, header_readable; lia).
  destruct (Z.ltb_spec index (peek_u32 σ (header + 16))); [|done]. cbn [negb].
  erewrite bind_Ret by (apply load_u32_ok, header_readable; lia).
  replace (_ <? consumed) with false by lia.
  rewrite u32_small by (unfold is_u32; lia). cbv zeta.
  destruct (Z.ltb_spec (peek_u32 σ (header + 20) - consumed) 8); [done|].
  erewrite bind_Ret by (apply copy_load_command_ok, header_readable; lia).
  cbn [cmdsize orb].
  pose proof (peek_u32_range σ (header + 32 + consumed + 4)) as Hsz. unfold is_u32 in Hsz.
  destruct (_ || _) eqn:E; [done|].
  by rewrite !u32_small by (unfold is_u32; lia).
Qed.

Lemma validate_loop n extra index consumed :
  0 <= index -> index + Z.of_nat n = peek_u32 σ (header + 16) ->
  0 <= consumed <= peek_u32 σ (header + 20) ->
  loopN (S n + extra) (validate_step header) (index, consumed) σ =
  Ret (match parse_sizes σ (header + sizeof_mach_header + consumed) n
               (peek_u32 σ (header + 20) - consumed) with
       | Some sizes => Some (consumed + sumZ sizes)
       | None => None
       end) σ.
Proof using Hread Hbound.
  revert index consumed. induction n as [|n IH]; intros index consumed Hi Hsum Hc.
  - apply loopN_stop. rewrite validate_step_eq by lia.
    replace (index <? _) with false by lia. cbn. do 3 f_equal. lia.
  - pose proof (validate_step_eq index consumed Hi Hc) as Hstep.
    replace (index <? _) with true in Hstep by lia. cbv zeta in Hstep.
    cbn [parse_sizes].
    destruct (_ || _) eqn:E. { by apply loopN_stop. }
    pose proof (peek_u32_range σ (header + sizeof_mach_header + consumed + 4)) as Hsz.
    unfold is_u32 in Hsz.
    apply loopN_next with (n := (S n + extra)%nat) in Hstep.
    cbn [Nat.add] in Hstep |- *. rewrite Hstep, IH by lia.
    replace (header + sizeof_mach_header + (consumed + _))
      with (header + sizeof_mach_header + consumed +
            peek_u32 σ (header + sizeof_mach_header + consumed + 4)) by lia.
    rewrite Z.sub_add_distr.
    destruct (parse_sizes _ _ _ _); cbn; [|done]. do 2 f_equal. lia.
Qed.
End Image.

Lemma RorkHookValidateLoadCommands_eq σ header mappedSize out :
  range_readable σ header mappedSize ->
  RorkHookValidateLoadCommands header mappedSize (Some out) σ =
  Ret (match table_sizes σ header mappedSize with
       | Some _ => (true, Some (header + sizeof_mach_header))
       | None => (false, Some out)
       end) σ.
Proof.
  intros Hr. unfold RorkHookValidateLoadCommands, table_sizes.
  unfold header_magic, header_ncmds, header_sizeofcmds.
  destruct (Z.eqb_spec header NULL); [done|]. cbn [orb].
  destruct (Z.ltb_spec mappedSize sizeof_mach_header) as [|Hm]; [done|]. cbn [orb].
  assert (forall k, 0 <= k <= 28 -> range_readable σ (header + k) 4) as Hh.
  { unfold sizeof_mach_header in Hm. intros. eapply range_readable_sub; [done|lia|lia]. }
  erewrite bind_Ret by (apply load_u32_ok; rewrite <- (Z.add_0_r header); by apply Hh).
  destruct (negb _); [done|]. cbn [orb].
  erewrite bind_Ret by (apply load_u32_ok; by apply Hh).
  destruct (Z.ltb_spec (mappedSize - sizeof_mach_header) (peek_u32 σ (header + 20)));
    [done|]. cbn [orb].
  erewrite bind_Ret by (apply load_u32_ok; by apply Hh).
  destruct (_ <? peek_u32 σ (header + 16)) eqn:?; [done|].
  pose proof (peek_u32_range σ (header + 16)) as Hn.
  pose proof (peek_u32_range σ (header + 20)) as Hs. unfold is_u32 in *.
  erewrite bind_Ret.
  2:{ rewrite loopM_loopN.
      replace (Pos.to_nat FUEL32) with
        (S (Z.to_nat (peek_u32 σ (header + 16))) +
         (Pos.to_nat FUEL32 - S (Z.to_nat (peek_u32 σ (header + 16)))))%nat
        by (unfold FUEL32; lia).
      apply (validate_loop _ _ mappedSize); try done; lia. }
  rewrite Z.add_0_r, Z.sub_0_r.
  destruct (parse_sizes _ _ _ _) as [sizes|]; [|done].
  erewrite bind_Ret by (apply load_u32_ok; by apply Hh).
  rewrite Z.add_0_l. by destruct (Z.eqb_spec (sumZ sizes) (peek_u32 σ (header + 20))).
Qed.

(** *** Delivery

    The reference: the visitor is called on each command of the list in turn,
    at the address and with the index the table gives it, until it asks to
    stop. *)
Fixpoint deliver {C} (visitor : visitor_fn (K:=K) C) (command index : Z) (sizes : list Z)
    (context : option C) : M K (option C) :=
  match sizes with
  | [] => ret context
  | size :: sizes =>
      let* (continue, context) := visitor command index context in
      if continue then deliver visitor (command + size) (index + 1) sizes context
      else ret context
  end.

(** Consecutive commands of the given sizes fill [[a, stop)]. *)
Fixpoint tiled σ (a stop : Z) (sizes : list Z) : Prop :=
  match sizes with
  | [] => a = stop
  | size :: sizes =>
      sizeof_load_command <= size /\ peek_u32 σ (a + 4) = size /\
      tiled σ (a + size) stop sizes
  end.

(** [σ'] still holds the bytes of [σ] in [[a, a + n)], still readable. *)
Definition keeps (a n : Z) σ σ' : Prop :=
  range_readable σ' a n /\ forall x, a <= x < a + n -> peek σ' x = peek σ x.

(** The end of the header and its load commands. *)
Definition table_end σ (header : Z) : Z := sizeof_mach_header + peek_u32 σ (header + 20).

Lemma keeps_refl a n σ : range_readable σ a n -> keeps a n σ σ.
Proof. done. Qed.

Lemma keeps_peek_u32 a n σ σ' x :
  keeps a n σ σ' -> a <= x -> x + 4 <= a + n -> peek_u32 σ' x = peek_u32 σ x.
Proof.
  intros [_ Hk] ? ?. unfold peek_u32. f_equal. apply peeks_ext. intros; apply Hk. lia.
Qed.

Lemma tiled_valid σ header mappedSize sizes :
  valid_image σ header mappedSize sizes ->
  tiled σ (header + sizeof_mach_header)
    (header + sizeof_mach_header + peek_u32 σ (header + 20)) sizes.
Proof.
  intros [_ _ _ _ Htiles Hc]. rewrite <- Htiles. clear Htiles.
  revert Hc. generalize (header + sizeof_mach_header). induction sizes as [|z l IH];
    intros a Hc; cbn [tiled sumZ]; [lia|].
  destruct (Hc 0%nat z eq_refl) as (? & ? & Hz). cbn [take sumZ] in Hz.
  rewrite Z.add_0_r in Hz. split_and!; [done..|].
  rewrite Z.add_assoc. apply IH. intros i size Hi.
  destruct (Hc (S i) size Hi) as (? & ? & Hsz). split_and!; [done..|].
  etrans; [|exact Hsz]. cbn [take sumZ]. f_equal. lia.
Qed.

Lemma tiled_bound σ a stop sizes : tiled σ a stop sizes -> a <= stop.
Proof.
  revert a; induction sizes as [|z l IH]; intros a; cbn; [lia|].
  intros (? & _ & Ht%IH). unfold sizeof_load_command in *. lia.
Qed.

(** [a] is a command of a table that lies in [[start, stop)]. *)
Definition command_at σ (start stop a : Z) : Prop :=
  0 < a /\ start <= a /\ a + Z.max 8 (peek_u32 σ (a + 4)) <= stop.

Section Foreach.
Context σ (header mappedSize : Z) {C : Type} (visitor : visitor_fn (K:=K) C).
(** An invariant of the visits, of the commands left: it makes sure that the
    visitor leaves the header and the table alone. *)
Context (J : Z -> list Z -> option C -> machine K -> Prop).
Context (Jkeeps : forall a sizes c σ1,
  J a sizes c σ1 -> keeps header (table_end σ header) σ σ1).
Context (Jvisit : forall a i size sizes c σ1 c' σ2,
  J a (size :: sizes) c σ1 -> visitor a i c σ1 = Ret (true, c') σ2 ->
  J (a + size) sizes c' σ2).

Lemma foreach_loop sizes extra index consumed c σ' :
  J (header + sizeof_mach_header + consumed) sizes c σ' ->
  0 <= index -> index + Z.of_nat (length sizes) = peek_u32 σ (header + 16) ->
  0 <= consumed ->
  tiled σ (header + sizeof_mach_header + consumed)
    (header + sizeof_mach_header + peek_u32 σ (header + 20)) sizes ->
  loopN (S (length sizes) + extra)
    (foreach_step header (header + sizeof_mach_header) visitor) (index, consumed, c) σ' =
  deliver visitor (header + sizeof_mach_header + consumed) index sizes c σ'.
Proof using Jkeeps Jvisit.
  pose proof (peek_u32_range σ (header + 16)) as Hn.
  pose proof (peek_u32_range σ (header + 20)) as Hs.
  unfold is_u32, table_end, sizeof_mach_header in *.
  revert index consumed c σ'.
  induction sizes as [|size sizes IH]; intros index consumed c σ' HJ Hi Hsum Hc Ht;
    pose proof (Jkeeps _ _ _ _ HJ) as Hk.
  - apply loopN_stop. unfold foreach_step, header_ncmds.
    erewrite bind_Ret by
      (apply load_u32_ok; eapply range_readable_sub; [apply Hk|lia|lia]).
    rewrite (keeps_peek_u32 _ _ _ _ _ Hk) by lia. cbn in Hsum.
    by replace (index <? _) with false by lia.
  - destruct Ht as (Hsz & Hsize & Ht). pose proof (tiled_bound _ _ _ _ Ht).
    cbn [length Nat.add deliver] in *. unfold sizeof_load_command in *.
    rewrite loopN_S. unfold foreach_step at 1, header_ncmds.
    unfold bind. rewrite load_u32_ok by
      (eapply range_readable_sub; [apply Hk|lia|lia]).
    rewrite (keeps_peek_u32 _ _ _ _ _ Hk) by lia.
    replace (index <? _) with true by lia. cbn [negb].
    destruct (visitor _ _ _ σ') as [[[] c'] σ1| |] eqn:Hv; [|done..]. cbn [negb].
    eapply Jvisit in Hv; [|done]. pose proof (Jkeeps _ _ _ _ Hv) as Hk1.
    unfold command_cmdsize. rewrite load_u32_ok by
      (eapply range_readable_sub; [apply Hk1|lia|lia]).
    rewrite (keeps_peek_u32 _ _ _ _ _ Hk1), Hsize by lia. cbn.
    rewrite !u32_small by (unfold is_u32; lia).
    replace (header + 32 + consumed + size)
      with (header + 32 + (consumed + size)) in Ht, Hv |- * by lia.
    apply (IH (index + 1) (consumed + size)); done || lia.
Qed.

Lemma RorkHookForEachLoadCommandWithSize_refines c :
  range_readable σ header mappedSize ->
  (forall sizes, table_sizes σ header mappedSize = Some sizes ->
     range_readable σ header (table_end σ header) ->
     J (header + sizeof_mach_header) sizes c σ) ->
  RorkHookForEachLoadCommandWithSize header mappedSize (Some visitor) c σ =
  match table_sizes σ header mappedSize with
  | Some sizes =>
      bind (deliver visitor (header + sizeof_mach_header) 0 sizes c)
        (fun c => ret (true, c)) σ
  | None => Ret (false, c) σ
  end.
Proof using Jkeeps Jvisit.
  intros Hr HJ. unfold RorkHookForEachLoadCommandWithSize.
  erewrite bind_Ret by by apply RorkHookValidateLoadCommands_eq.
  destruct (table_sizes _ _ _) as [sizes|] eqn:Ht; [|done]. cbn [negb default].
  specialize (HJ sizes eq_refl). apply table_sizes_spec in Ht. pose proof (vi_count _ _ _ _ Ht) as Hcount.
  pose proof (vi_bound _ _ _ _ Ht).
  apply tiled_valid in Ht. pose proof (peek_u32_range σ (header + 16)) as Hn.
  unfold is_u32 in Hn. unfold bind at 1. rewrite loopM_loopN.
  replace (Pos.to_nat FUEL32) with
    (S (length sizes) + (Pos.to_nat FUEL32 - S (length sizes)))%nat by (unfold FUEL32; lia).
  rewrite foreach_loop; [| |lia|lia|lia|by rewrite Z.add_0_r].
  - by rewrite Z.add_0_r.
  - rewrite Z.add_0_r. apply HJ. eapply range_readable_sub; [done|lia|unfold table_end; lia].
Qed.
End Foreach.

(** A visitor that, called on a command of the table, leaves the table alone. *)
Lemma RorkHookForEachLoadCommandWithSize_keeps {C} σ header mappedSize
    (visitor : visitor_fn (K:=K) C) c :
  0 <= header ->
  (forall a i c σ1 r σ2,
    command_at σ header (header + table_end σ header) a ->
    keeps header (table_end σ header) σ σ1 -> visitor a i c σ1 = Ret r σ2 ->
    keeps header (table_end σ header) σ σ2) ->
  range_readable σ header mappedSize ->
  RorkHookForEachLoadCommandWithSize header mappedSize (Some visitor) c σ =
  match table_sizes σ header mappedSize with
  | Some sizes =>
      bind (deliver visitor (header + sizeof_mach_header) 0 sizes c)
        (fun c => ret (true, c)) σ
  | None => Ret (false, c) σ
  end.
Proof.
  intros Hh Hv Hr.
  set (J := fun a sizes (_ : option C) σ1 =>
    keeps header (table_end σ header) σ σ1 /\ header + sizeof_mach_header <= a /\
    tiled σ a (header + table_end σ header) sizes).
  apply (RorkHookForEachLoadCommandWithSize_refines _ _ _ _ J); unfold J; clear J.
  - by intros ? ? ? ? [? _].
  - intros a i size sizes c1 σ1 c2 σ2 (Hk & Ha & Hsz & Hsize & Ht) Hvisit.
    pose proof (tiled_bound _ _ _ _ Ht).
    unfold command_at, sizeof_load_command, sizeof_mach_header in *.
    split_and!; [|lia|done]. eapply Hv; [|done|done]. lia.
  - done.
  - intros sizes Ht%table_sizes_spec%tiled_valid Hk. split_and!; [done|lia|].
    unfold table_end. by rewrite Z.add_assoc.
Qed.

(** A visitor that only reads leaves the table alone. *)
Lemma RorkHookForEachLoadCommandWithSize_reads {C} σ header mappedSize
    (visitor : visitor_fn (K:=K) C) c :
  0 <= header -> (forall a i c, ReadsOnly (visitor a i c)) ->
  range_readable σ header mappedSize ->
  RorkHookForEachLoadCommandWithSize header mappedSize (Some visitor) c σ =
  match table_sizes σ header mappedSize with
  | Some sizes =>
      bind (deliver visitor (header + sizeof_mach_header) 0 sizes c)
        (fun c => ret (true, c)) σ
  | None => Ret (false, c) σ
  end.
Proof.
  intros Hh Hro Hr. apply RorkHookForEachLoadCommandWithSize_keeps; [done| |done].
  by intros ????????->%Hro.
Qed.
End Delivery.

(** ** Read-only visitors

    A visitor that only reads is a function of the command's address and its
    context; delivery folds it over the table. *)
Section Visit.
Context {K : Type} {T : Target} {Kern : Kernel K} {C : Type}.
Implicit Types σ : machine K.

Fixpoint visit (f : Z -> C -> bool * C) (a : Z) (sizes : list Z) (c : C) : C :=
  match sizes with
  | [] => c
  | size :: sizes =>
      let '(continue, c) := f a c in
      if continue then visit f (a + size) sizes c else c
  end.

(** An invariant of the function holds of the final context. *)
Lemma visit_inv (P : C -> Prop) σ f start a stop sizes c :
  tiled σ a stop sizes -> 0 < a -> start <= a ->
  (forall b c, command_at σ start stop b -> P c -> P (snd (f b c))) -> P c ->
  P (visit f a sizes c).
Proof.
  intros Ht Ha Hs Hf. revert a c Ht Ha Hs.
  induction sizes as [|size sizes IH]; intros a c Ht Ha Hs Hc; [done|].
  destruct Ht as (Hsz & Hsize & Ht). pose proof (tiled_bound _ _ _ _ Ht).
  unfold sizeof_load_command in *. cbn [visit].
  assert (P (snd (f a c))) as Hc' by (apply Hf; [split_and!; lia|done]).
  destruct (f a c) as [[] c']; [|done]. apply IH; [done|lia|lia|done].
Qed.

(** [visitor] computes [f] on the commands of a table, on contexts in [P]. *)
Definition computes σ (start stop : Z) (P : C -> Prop) (visitor : visitor_fn (K:=K) C)
    (f : Z -> C -> bool * C) : Prop :=
  forall a i c, command_at σ start stop a ->
    range_readable σ a (Z.max 8 (peek_u32 σ (a + 4))) -> P c ->
    visitor a i (Some c) σ = Ret (let '(continue, c) := f a c in (continue, Some c)) σ /\
    P (snd (f a c)).

Lemma deliver_visit σ visitor f (P : C -> Prop) start a stop index sizes c :
  computes σ start stop P visitor f -> P c -> tiled σ a stop sizes -> 0 < a -> start <= a ->
  range_readable σ a (stop - a) ->
  deliver visitor a index sizes (Some c) σ = Ret (Some (visit f a sizes c)) σ.
Proof.
  intros Hv. revert a index c.
  induction sizes as [|size sizes IH]; intros a index c Hc Ht Ha Hs Hr; [done|].
  destruct Ht as (Hsz & Hsize & Ht). pose proof (tiled_bound _ _ _ _ Ht).
  unfold sizeof_load_command in *. cbn [deliver visit].
  destruct (Hv a index c) as [Hvc Hc']; [split_and!; lia| |done|].
  { eapply range_readable_sub; [done|lia|lia]. }
  rewrite (bind_Ret _ _ _ _ _ Hvc).
  destruct (f a c) as [[] c']; [|done]. apply IH; [done|done|lia|lia|].
  eapply range_readable_sub; [done|lia|lia].
Qed.

Lemma RorkHookForEachLoadCommandWithSize_visit σ header n visitor f (P : C -> Prop) c :
  0 <= header -> range_readable σ header n -> P c ->
  (forall a i c, ReadsOnly (visitor a i c)) ->
  computes σ header (header + n) P visitor f ->
  RorkHookForEachLoadCommandWithSize header n (Some visitor) (Some c) σ =
  Ret (match table_sizes σ header n with
       | Some sizes => (true, Some (visit f (header + sizeof_mach_header) sizes c))
       | None => (false, Some c)
       end) σ.
Proof.
  intros Hh Hr Hc Hro Hv.
  rewrite (RorkHookForEachLoadCommandWithSize_reads σ header n visitor) by done.
  destruct (table_sizes σ header n) as [sizes|] eqn:Hts; [|done].
  apply table_sizes_spec in Hts. pose proof (vi_bound _ _ _ _ Hts) as Hb.
  apply tiled_valid in Hts. unfold bind, sizeof_mach_header in *.
  erewrite (deliver_visit σ visitor f P header); [done| |done|done|lia|lia|].
  - intros a i c' (? & ? & ?). apply Hv. split_and!; lia.
  - eapply range_readable_sub; [done|lia|lia].
Qed.

(** Every context the table's commands can produce satisfies an invariant of the
    function. *)
Lemma table_visit_inv (P : C -> Prop) σ f header n sizes c :
  0 <= header -> table_sizes σ header n = Some sizes ->
  (forall b c, command_at σ header (header + n) b -> P c -> P (snd (f b c))) -> P c ->
  P (visit f (header + sizeof_mach_header) sizes c).
Proof.
  intros Hh Hts%table_sizes_spec Hf Hc. pose proof (vi_bound _ _ _ _ Hts) as Hb.
  apply tiled_valid in Hts. unfold sizeof_mach_header in *.
  eapply (visit_inv P σ f header); [done|lia|lia| |done].
  intros b c' (? & ? & ?). apply Hf. split_and!; lia.
Qed.
End Visit.

(** ** The image slide *)

(** The difference is computed exactly when it is representable. *)
Lemma RorkHookAddressDifference_eq left right old :
  is_u64 left -> is_u64 right ->
  RorkHookAddressDifference left right (Some old) =
  if (INTPTR_MIN <=? left - right) && (left - right <=? INTPTR_MAX)
  then (true, Some (left - right)) else (false, Some old).
Proof.
  unfold is_u64, RorkHookAddressDifference, INTPTR_MAX, INTPTR_MIN. intros.
  destruct (Z.leb_spec right left).
  - rewrite u64_small by (unfold is_u64; lia).
    destruct (Z.ltb_spec (2 ^ 63 - 1) (left - right)), (_ && _) eqn:?; done || lia.
  - rewrite !u64_small by (unfold is_u64; lia).
    destruct (Z.ltb_spec (2 ^ 63 - 1 + 1) (right - left)), (_ && _) eqn:?; try done; try lia.
    destruct (Z.eqb_spec (right - left) (2 ^ 63 - 1 + 1)); do 2 f_equal; lia.
Qed.

Section ImageSlide.
Context {K : Type} {T : Target} {Kern : Kernel K}.
Implicit Types σ : machine K.

(** A segment command whose file content starts at the image's first byte. *)
Definition maps_header σ (a : Z) : bool :=
  (peek_u32 σ a =? RORK_HOOK_LC_SEGMENT) && (sizeof_segment_command <=? peek_u32 σ (a + 4)) &&
  (peek_u64 σ (a + 40) =? 0) && negb (peek_u64 σ (a + 48) =? 0).

(** The first command of the list that satisfies [p]. *)
Fixpoint find_command (p : Z -> bool) (a : Z) (sizes : list Z) : option Z :=
  match sizes with
  | [] => None
  | size :: sizes => if p a then Some a else find_command p (a + size) sizes
  end.

Lemma find_command_sound p a sizes x : find_command p a sizes = Some x -> p x = true.
Proof.
  revert a. induction sizes as [|size sizes IH]; intros a; cbn [find_command]; [done|].
  destruct (p a) eqn:Hp; [by intros [= <-]|apply IH].
Qed.

Definition slide_to σ (header segment : Z) : option Z :=
  let slide := header - peek_u64 σ (segment + 24) in
  if (INTPTR_MIN <=? slide) && (slide <=? INTPTR_MAX) then Some slide else None.

Definition image_slide σ (header : Z) : option Z :=
  sizes ← table_sizes σ header (readable_length (kern σ) header);
  segment ← find_command (maps_header σ) (header + sizeof_mach_header) sizes;
  slide_to σ header segment.

#[local] Instance slide_visitor_reads_only a i c :
  ReadsOnly (RorkHookImageSlideLoadCommand a i c).
Proof.
  unfold RorkHookImageSlideLoadCommand, command_cmd, command_cmdsize, segment_fileoff,
    segment_filesize, segment_vmaddr. reads_only.
Qed.

Lemma slide_visitor_eq σ a i header :
  is_u64 header -> a <> NULL -> range_readable σ a (Z.max 8 (peek_u32 σ (a + 4))) ->
  RorkHookImageSlideLoadCommand a i (Some (ImageSlideContext header 0 false)) σ =
  Ret (if maps_header σ a then
         (false, Some (match slide_to σ header a with
                       | Some slide => ImageSlideContext header slide true
                       | None => ImageSlideContext header 0 false
                       end))
       else (true, Some (ImageSlideContext header 0 false))) σ.
Proof.
  intros Hh Ha Hr. unfold RorkHookImageSlideLoadCommand, maps_header.
  rewrite (proj2 (Z.eqb_neq _ _) Ha).
  unfold command_cmd, command_cmdsize, segment_fileoff, segment_filesize, segment_vmaddr.
  unfold sizeof_segment_command.
  assert (forall k m, 0 <= k -> k + m <= Z.max 8 (peek_u32 σ (a + 4)) ->
    range_readable σ (a + k) m) as Hin by (intros; eapply range_readable_sub; [done|lia|lia]).
  erewrite bind_Ret by (apply load_u32_ok; rewrite <- (Z.add_0_r a); apply Hin; lia).
  destruct (_ =? RORK_HOOK_LC_SEGMENT); [|done]. cbn [negb andb].
  erewrite bind_Ret by (apply load_u32_ok, Hin; lia).
  destruct (Z.ltb_spec (peek_u32 σ (a + 4)) 72).
  { by replace (72 <=? _) with false by lia. }
  replace (72 <=? _) with true by lia. cbn [andb].
  erewrite bind_Ret by (apply load_u64_ok, Hin; lia).
  destruct (_ =? 0); [|done]. cbn [negb andb].
  erewrite bind_Ret by (apply load_u64_ok, Hin; lia).
  destruct (_ =? 0); [done|]. cbn [negb].
  erewrite bind_Ret by (apply load_u64_ok, Hin; lia).
  pose proof (peek_u64_range σ (a + 24)) as Hv.
  replace (UINTPTR_MAX <? _) with false
    by (unfold UINTPTR_MAX, UINT64_MAX, is_u64 in *; lia).
  cbn [context_header context_slide context_found].
  rewrite RorkHookAddressDifference_eq by done. unfold slide_to.
  by destruct (_ && _).
Qed.

Lemma slide_deliver σ header sizes a stop index :
  is_u64 header -> tiled σ a stop sizes -> 0 < a -> range_readable σ a (stop - a) ->
  deliver RorkHookImageSlideLoadCommand a index sizes
    (Some (ImageSlideContext header 0 false)) σ =
  Ret (Some (match find_command (maps_header σ) a sizes ≫= slide_to σ header with
             | Some slide => ImageSlideContext header slide true
             | None => ImageSlideContext header 0 false
             end)) σ.
Proof.
  intros Hh. revert a index. induction sizes as [|size sizes IH]; intros a index Ht Ha Hr; [done|].
  destruct Ht as (Hsz & Hsize & Ht). pose proof (tiled_bound _ _ _ _ Ht).
  unfold sizeof_load_command in *. cbn [deliver find_command].
  erewrite bind_Ret.
  2:{ apply slide_visitor_eq; [done|unfold NULL; lia|].
      eapply range_readable_sub; [done|lia|lia]. }
  destruct (maps_header σ a); cbn; [done|].
  apply IH; [done|lia|]. eapply range_readable_sub; [done|lia|lia].
Qed.

Context {Laws : KernelLaws K}.

(** The slide of any header pointer: the function never faults, and it reports
    exactly the slide of the table's first header-mapping segment. *)
Lemma RorkHookImageSlide_eq σ header resolved :
  is_u64 header ->
  RorkHookImageSlide header resolved σ =
  Ret (match image_slide σ header with
       | Some slide => (slide, write_out resolved true)
       | None => (0, write_out resolved false)
       end) σ.
Proof.
  intros Hh. unfold RorkHookImageSlide, image_slide.
  destruct (Z.eqb_spec header NULL) as [->|Hnull].
  { unfold table_sizes. by rewrite Z.eqb_refl. }
  unfold RorkHookForEachLoadCommand. unfold bind at 1.
  erewrite bind_Ret by by apply RorkHookReadableMemoryLength_eq.
  set (n := readable_length (kern σ) header).
  assert (range_readable σ header n) as Hr by apply readable_length_sound.
  rewrite RorkHookForEachLoadCommandWithSize_reads;
    [|unfold is_u64 in Hh; lia|apply slide_visitor_reads_only|done].
  destruct (table_sizes σ header n) as [sizes|] eqn:Hts; [|done]. cbn [mbind option_bind].
  apply table_sizes_spec in Hts. pose proof (vi_bound _ _ _ _ Hts).
  apply tiled_valid in Hts. unfold is_u64, NULL, sizeof_mach_header in *.
  unfold bind at 1. erewrite slide_deliver; [|done|done|lia|].
  2:{ eapply range_readable_sub; [done|lia|lia]. }
  cbn. destruct (find_command _ _ _) as [seg|]; cbn; [|by destruct resolved].
  destruct (slide_to σ header seg); by destruct resolved.
Qed.
End ImageSlide.

(** ** Properties *)

Section Properties.
Context {K : Type} {T : Target} {Kern : Kernel K}.
Implicit Types σ : machine K.

(** C13: validation decides well-formedness.  Over any readable range it
    returns within its loop bound and without a fault, whatever the bytes are;
    it answers [true] and hands out the table exactly when the bytes are an
    image whose commands, each at least a header long and aligned, tile the
    declared table, and otherwise leaves the output alone. *)
Theorem RorkHookValidateLoadCommands_decides σ header mappedSize out :
  range_readable σ header mappedSize ->
  exists valid table,
    RorkHookValidateLoadCommands header mappedSize (Some out) σ =
      Ret (valid, Some table) σ /\
    (valid = true <-> exists sizes, valid_image σ header mappedSize sizes) /\
    table = (if valid then header + sizeof_mach_header else out).
Proof.
  intros Hr. rewrite RorkHookValidateLoadCommands_eq by done.
  destruct (table_sizes σ header mappedSize) as [sizes|] eqn:Ht.
  - do 2 eexists. split_and!; [done| |done]. split; [|done].
    intros _. exists sizes. by apply table_sizes_spec.
  - do 2 eexists. split_and!; [done| |done]. split; [done|].
    intros [sizes Hv%table_sizes_spec]. congruence.
Qed.

(** C12: delivery visits exactly the commands of a valid image, in order, each
    at the address the sizes of its predecessors give, with its index and the
    context its predecessor left, and stops after the first visitor that asks
    to; an invalid image is never visited.  It holds for every visitor that,
    called on a command of the table, leaves the header and the table readable
    and unchanged. *)
Theorem RorkHookForEachLoadCommandWithSize_delivers {C} (visitor : visitor_fn (K:=K) C)
    σ header mappedSize c :
  0 <= header ->
  (forall a i c σ1 r σ2,
    command_at σ header (header + table_end σ header) a ->
    keeps header (table_end σ header) σ σ1 -> visitor a i c σ1 = Ret r σ2 ->
    keeps header (table_end σ header) σ σ2) ->
  range_readable σ header mappedSize ->
  RorkHookForEachLoadCommandWithSize header mappedSize (Some visitor) c σ =
  match table_sizes σ header mappedSize with
  | Some sizes =>
      bind (deliver visitor (header + sizeof_mach_header) 0 sizes c)
        (fun c => ret (true, c)) σ
  | None => Ret (false, c) σ
  end.
Proof. apply RorkHookForEachLoadCommandWithSize_keeps. Qed.

(** The difference of two addresses is computed exactly, including
    [INTPTR_MIN], when it is representable, and refused with the output
    untouched when it is not; a missing output is refused. *)
Theorem RorkHookAddressDifference_exact left right old :
  is_u64 left -> is_u64 right ->
  RorkHookAddressDifference left right None = (false, None) /\
  (is_s64 (left - right) ->
   RorkHookAddressDifference left right (Some old) = (true, Some (left - right))) /\
  (~ is_s64 (left - right) ->
   RorkHookAddressDifference left right (Some old) = (false, Some old)).
Proof.
  intros Hl Hr. split; [done|]. rewrite RorkHookAddressDifference_eq by done.
  unfold is_s64, INTPTR_MIN, INTPTR_MAX.
  split; intros; destruct (_ && _) eqn:?; done || lia.
Qed.

Context {Laws : KernelLaws K}.

(** C31: the image slide of any address.  The function never faults; it reports
    a resolved slide exactly when the readable bytes at the address are a valid
    image one of whose segments maps the header and the first such segment's
    address differs from the header by a representable amount, and that
    difference is what it returns.  Otherwise it returns zero, unresolved. *)
Theorem RorkHookImageSlide_exact σ header resolved :
  is_u64 header ->
  exists slide ok,
    RorkHookImageSlide header (Some resolved) σ = Ret (slide, Some ok) σ /\
    (ok = false -> slide = 0) /\
    (ok = true <-> exists sizes segment,
      valid_image σ header (readable_length (kern σ) header) sizes /\
      find_command (maps_header σ) (header + sizeof_mach_header) sizes = Some segment /\
      slide = header - peek_u64 σ (segment + 24) /\ is_s64 slide).
Proof using Laws.
  intros Hh. rewrite RorkHookImageSlide_eq by done. unfold image_slide.
  destruct (table_sizes σ header _) as [sizes|] eqn:Ht; cbn [mbind option_bind].
  2:{ do 2 eexists. split_and!; [done|done|]. split; [done|].
      intros (sizes & seg & Hv%table_sizes_spec & _). congruence. }
  destruct (find_command _ _ _) as [seg|] eqn:Hf; cbn [mbind option_bind].
  2:{ do 2 eexists. split_and!; [done|done|]. split; [done|].
      intros (sizes' & seg & Hv%table_sizes_spec & Hf' & _). congruence. }
  apply table_sizes_spec in Ht as Hv. unfold slide_to.
  destruct ((INTPTR_MIN <=? _) && _) eqn:Hs; do 2 eexists.
  - split_and!; [done|done|]. split; [|done]. intros _. exists sizes, seg.
    split_and!; [done|done|done|]. unfold is_s64, INTPTR_MIN, INTPTR_MAX in *. lia.
  - split_and!; [done|done|]. split; [done|].
    intros (sizes' & seg' & Hv'%table_sizes_spec & Hf' & -> & Hr).
    assert (seg' = seg) as -> by congruence.
    unfold is_s64, INTPTR_MIN, INTPTR_MAX in *. lia.
Qed.
End Properties.

(** ** Witnesses *)

(** An image at [0x4000]: a UUID command and a [__TEXT] segment linked at
    [0x1000]. *)
Definition image_header (commands : list (list byte)) : list byte :=
  le_split 4 RORK_HOOK_MH_MAGIC ++ le_split 4 0x100000c ++ le_split 4 0 ++ le_split 4 6 ++
  le_split 4 (Z.of_nat (length commands)) ++
  le_split 4 (Z.of_nat (length (concat commands))) ++ le_split 4 0 ++ le_split 4 0 ++
  concat commands.

Definition uuid_command : list byte :=
  le_split 4 0x1b ++ le_split 4 24 ++ le_split 8 1 ++ le_split 8 2.
Definition segment_command (vmaddr vmsize fileoff filesize : Z) : list byte :=
  le_split 4 RORK_HOOK_LC_SEGMENT ++ le_split 4 72 ++ le_split 16 0 ++
  le_split 8 vmaddr ++ le_split 8 vmsize ++ le_split 8 fileoff ++ le_split 8 filesize ++
  le_split 16 0.

Definition image_machine : machine sim :=
  sim_machine [(1, 5)]
    [(0x4000, image_header [uuid_command; segment_command 0x1000 0x4000 0 0x4000])].

Lemma image_readable : range_readable image_machine 0x4000 0x4000.
Proof.
  apply (memory_is_readable_sound (T := device)). by vm_compute.
Qed.

Lemma RorkHookValidateLoadCommands_decides_witness :
  result_of (RorkHookValidateLoadCommands 0x4000 0x4000 (Some 0) image_machine) =
    Some (true, Some 0x4020) /\
  exists valid table,
    RorkHookValidateLoadCommands 0x4000 0x4000 (Some 0) image_machine =
      Ret (valid, Some table) image_machine /\
    (valid = true <-> exists sizes, valid_image image_machine 0x4000 0x4000 sizes) /\
    table = (if valid then 0x4000 + sizeof_mach_header else 0).
Proof.
  split; [by vm_compute|].
  apply RorkHookValidateLoadCommands_decides. apply image_readable.
Defined.

(** A visitor that lists the commands it is given. *)
Definition record_visitor : visitor_fn (K := sim) (list (Z * Z)) :=
  fun command index context => ret (true, cons (command, index) <$> context).

Lemma RorkHookForEachLoadCommandWithSize_delivers_witness :
  result_of (RorkHookForEachLoadCommandWithSize 0x4000 0x4000 (Some record_visitor)
    (Some []) image_machine) = Some (true, Some [(0x4038, 1); (0x4020, 0)]) /\
  RorkHookForEachLoadCommandWithSize 0x4000 0x4000 (Some record_visitor) (Some []) image_machine =
  match table_sizes image_machine 0x4000 0x4000 with
  | Some sizes =>
      bind (deliver record_visitor (0x4000 + sizeof_mach_header) 0 sizes (Some []))
        (fun c => ret (true, c)) image_machine
  | None => Ret (false, Some []) image_machine
  end.
Proof.
  split; [by vm_compute|].
  apply RorkHookForEachLoadCommandWithSize_delivers.
  - done.
  - intros a i c σ1 r σ2 _ Hk Hv. by injection Hv as <- <-.
  - apply image_readable.
Defined.

Lemma RorkHookAddressDifference_exact_witness :
  RorkHookAddressDifference 0 (2 ^ 63) None = (false, None) /\
  (is_s64 (0 - 2 ^ 63) ->
   RorkHookAddressDifference 0 (2 ^ 63) (Some 7) = (true, Some (0 - 2 ^ 63))) /\
  (~ is_s64 (0 - 2 ^ 63) ->
   RorkHookAddressDifference 0 (2 ^ 63) (Some 7) = (false, Some 7)).
Proof. apply RorkHookAddressDifference_exact; done. Defined.

Lemma RorkHookImageSlide_exact_witness :
  result_of (RorkHookImageSlide 0x4000 (Some false) image_machine) =
    Some (0x3000, Some true) /\
  exists slide ok,
    RorkHookImageSlide 0x4000 (Some false) image_machine = Ret (slide, Some ok) image_machine /\
    (ok = false -> slide = 0) /\
    (ok = true <-> exists sizes segment,
      valid_image image_machine 0x4000 (readable_length (kern image_machine) 0x4000) sizes /\
      find_command (maps_header image_machine) (0x4000 + sizeof_mach_header) sizes = Some segment /\
      slide = 0x4000 - peek_u64 image_machine (segment + 24) /\ is_s64 slide).
Proof.
  split; [by vm_compute|]. apply (RorkHookImageSlide_exact (T := device)). done.
Defined.
