(* ===== verification/Memory.v ===== *)
(** Page protection, the TPRO write window and the protected pointer store:
    RorkHookMemory.c. *)
From S2P Require Import Prelude Machine Logic Sim Regions.

Section Memory.
Context {K : Type} {T : Target} {Kern : Kernel K}.
Implicit Types σ : machine K.

(** ** Operations *)

Definition RORK_HOOK_HAS_PROCESS_SECURITY_CONFIG : bool := has_security_config_h.
Definition RORK_HOOK_DEVICE_ARM64 : bool :=
  defined_arm64 && TARGET_OS_IOS && negb TARGET_OS_SIMULATOR.

Definition RorkHookMachVMProtectTrap (address size : Z) (setMaximum : bool)
    (newProtection : Z) : M K Z :=
  kcall (fun k => mach_vm_protect_trap k address size setMaximum newProtection).

(** [mrs x0, s3_6_c15_c1_5; ubfx x0, x0, #0x24, #1]. *)
Definition RorkHookThreadTPROWriteEnabledRaw : M K Z :=
  asks (fun k => field (mrs_tpro k) 0x24 1).

Definition RORK_HOOK_COMM_PAGE_START : Z := 0x0000000FFFFFC000.
Definition RORK_HOOK_COMM_PAGE_TPRO_WRITE_ENABLE : Z := RORK_HOOK_COMM_PAGE_START + 0x0d0.
Definition RORK_HOOK_COMM_PAGE_TPRO_WRITE_DISABLE : Z := RORK_HOOK_COMM_PAGE_START + 0x0d8.

Definition RorkHookCommPageValue (address : Z) : M K Z :=
  asks (fun k => comm_page_u64 k address).

Definition RorkHookWriteThreadTPROState (state : Z) : M K unit :=
  kset (fun k => msr_tpro k state) ;;; emit (EvTPRO state).

Definition RorkHookHardwareSupportsTPRO : M K bool :=
  (let* enable := RorkHookCommPageValue RORK_HOOK_COMM_PAGE_TPRO_WRITE_ENABLE in
   ret (negb (enable =? 0))) <&&>
  (let* disable := RorkHookCommPageValue RORK_HOOK_COMM_PAGE_TPRO_WRITE_DISABLE in
   ret (negb (disable =? 0))).

Definition RorkHookProbeProcessTPRO : M K bool :=
  let* raw := RorkHookThreadTPROWriteEnabledRaw in
  if negb (raw =? 0) then ret true else
  let* enableState := RorkHookCommPageValue RORK_HOOK_COMM_PAGE_TPRO_WRITE_ENABLE in
  RorkHookWriteThreadTPROState enableState ;;;
  let* raw := RorkHookThreadTPROWriteEnabledRaw in
  let writeWindowOpened := negb (raw =? 0) in
  let* disableState := RorkHookCommPageValue RORK_HOOK_COMM_PAGE_TPRO_WRITE_DISABLE in
  RorkHookWriteThreadTPROState disableState ;;;
  ret writeWindowOpened.

(** The VM call [RorkHookProtectMemory] issues on this target. *)
Definition protect_call (address size : Z) (setMaximum : bool) (protection : Z) : M K Z :=
  if RORK_HOOK_DEVICE_ARM64
  then RorkHookMachVMProtectTrap address size setMaximum protection
  else kcall (fun k => vm_protect k address size setMaximum protection).

Definition RorkHookProtectMemory (address size protection : Z) : M K Z :=
  if (address =? 0) || (size =? 0) then ret KERN_INVALID_ARGUMENT else
  let* result := protect_call address size false protection in
  emit (EvProtect address size protection result) ;;;
  ret result.

Definition RorkHookMakeMemoryWritable (address size : Z) : M K Z :=
  RorkHookProtectMemory address size
    (Z.lor (Z.lor VM_PROT_READ VM_PROT_WRITE) VM_PROT_COPY).

Definition RorkHookMakeMemoryExecutable (address size : Z) : M K Z :=
  RorkHookProtectMemory address size (Z.lor VM_PROT_READ VM_PROT_EXECUTE).

Definition RorkHookProtectedPointerWriteIsAvailable
    (protectionResult : Z) (supportsTPRO tproWindowOpened : bool) : bool :=
  if supportsTPRO then tproWindowOpened else protectionResult =? KERN_SUCCESS.

Definition RorkHookProcessUsesTPRO
    (hardwareSupportsTPRO processConfigurationKnown
     processConfigurationEnablesTPRO writeWindowProbeSucceeded : bool) : bool :=
  if negb hardwareSupportsTPRO then false else
  if processConfigurationKnown then processConfigurationEnablesTPRO else
  writeWindowProbeSucceeded.

Definition RorkHookSupportsTPRO : M K bool :=
  if RORK_HOOK_DEVICE_ARM64 then
    let* hardwareSupportsTPRO := RorkHookHardwareSupportsTPRO in
    if negb hardwareSupportsTPRO then ret false else
    if RORK_HOOK_HAS_PROCESS_SECURITY_CONFIG && builtin_available_iOS_26 then
      let* configuration := asks os_security_config_get in
      let processConfigurationEnablesTPRO :=
        negb (Z.land configuration OS_SECURITY_CONFIG_TPRO =? 0) in
      ret (RorkHookProcessUsesTPRO hardwareSupportsTPRO true
             processConfigurationEnablesTPRO false)
    else
      let* probe := RorkHookProbeProcessTPRO in
      ret (RorkHookProcessUsesTPRO hardwareSupportsTPRO false false probe)
  else ret false.

Definition RorkHookThreadCanWriteTPRO : M K bool :=
  if RORK_HOOK_DEVICE_ARM64 then
    RorkHookSupportsTPRO <&&>
    (let* raw := RorkHookThreadTPROWriteEnabledRaw in ret (negb (raw =? 0)))
  else ret false.

Definition RorkHookBeginThreadTPROWrite : M K unit :=
  if RORK_HOOK_DEVICE_ARM64 then
    let* supported := RorkHookSupportsTPRO in
    if negb supported then ret tt else
    let* enableState := RorkHookCommPageValue RORK_HOOK_COMM_PAGE_TPRO_WRITE_ENABLE in
    RorkHookWriteThreadTPROState enableState
  else ret tt.

Definition RorkHookEndThreadTPROWrite : M K unit :=
  if RORK_HOOK_DEVICE_ARM64 then
    let* supported := RorkHookSupportsTPRO in
    if negb supported then ret tt else
    let* disableState := RorkHookCommPageValue RORK_HOOK_COMM_PAGE_TPRO_WRITE_DISABLE in
    RorkHookWriteThreadTPROState disableState
  else ret tt.

(** [restoreReadOnly] points to a function pointer: the outer option is the
    storage, the inner one the pointer it holds. *)
Definition RorkHookAllowTPROWrites (restoreReadOnly : option (option (M K unit)))
    : M K (bool * option (option (M K unit))) :=
  match restoreReadOnly with
  | None => ret (false, None)
  | Some _ =>
  let restoreReadOnly := Some None in
  let* supported := RorkHookSupportsTPRO in
  if negb supported then ret (false, restoreReadOnly) else
  let* canWrite := RorkHookThreadCanWriteTPRO in
  if canWrite then ret (true, restoreReadOnly) else
  RorkHookBeginThreadTPROWrite ;;;
  let* canWrite := RorkHookThreadCanWriteTPRO in
  if negb canWrite
  then RorkHookEndThreadTPROWrite ;;; ret (false, restoreReadOnly)
  else ret (true, Some (Some RorkHookEndThreadTPROWrite))
  end.

Definition RorkHookRestorePointerPageProtections (firstPage lastPage pageSize : Z)
    (spansPages : bool) (firstProtection lastProtection : Z) : M K bool :=
  let* firstResult := RorkHookProtectMemory firstPage pageSize firstProtection in
  let* lastResult :=
    if spansPages then RorkHookProtectMemory lastPage pageSize lastProtection
    else ret KERN_SUCCESS in
  ret ((firstResult =? KERN_SUCCESS) && (lastResult =? KERN_SUCCESS)).

(** The part of the store that follows the argument checks: reprotect, open
    the window, write, close the window, restore. *)
Definition store_transaction (slot value protection firstPage lastPage protectSize : Z)
    (spansPages : bool) (firstOriginalProtection lastOriginalProtection : Z) : M K bool :=
  let pageSize := vm_page_size in
  let slotSize := 8 in
  let* result := RorkHookProtectMemory firstPage protectSize protection in
  let* supportsTPRO := RorkHookSupportsTPRO in
  let* (tproWindowOpened, restoreReadOnly) :=
    if supportsTPRO then RorkHookAllowTPROWrites (Some None)
    else ret (false, Some None) in
  let writeCompleted :=
    RorkHookProtectedPointerWriteIsAvailable result supportsTPRO tproWindowOpened in
  let* _ :=
    if writeCompleted
    then store_bytes slot (le_split 8 value) ;;; sys_dcache_flush slot slotSize
    else ret tt in
  let* _ :=
    match restoreReadOnly with
    | Some (Some restore) => restore
    | _ => ret tt
    end in
  if negb (result =? KERN_SUCCESS) then ret writeCompleted else
  let* protectionsRestored :=
    RorkHookRestorePointerPageProtections firstPage lastPage pageSize spansPages
      firstOriginalProtection lastOriginalProtection in
  ret (writeCompleted && protectionsRestored).

Definition RorkHookStoreProtectedPointer (slot value protection : Z) : M K bool :=
  if (slot =? NULL) || negb (prot_has protection VM_PROT_WRITE) then ret false else
  let pageSize := vm_page_size in
  if (pageSize =? 0) || negb (Z.land pageSize (u64 (pageSize - 1)) =? 0)
  then ret false else
  let slotSize := 8 in
  let slotStart := slot in
  let slotEnd := u64 (slotStart + slotSize - 1) in
  if slotEnd <? slotStart then ret false else
  let pageMask := u64 (pageSize - 1) in
  let firstPage := Z.land slotStart (u64 (Z.lnot pageMask)) in
  let lastPage := Z.land slotEnd (u64 (Z.lnot pageMask)) in
  let spansPages := negb (firstPage =? lastPage) in
  let protectSize := u64 (u64 (lastPage - firstPage) + pageSize) in
  let firstPageBytes := if spansPages then u64 (lastPage - slotStart) else slotSize in
  let lastPageBytes := u64 (slotSize - firstPageBytes) in
  let* unreadable :=
    (let* r := RorkHookMemoryIsReadable slot firstPageBytes in ret (negb r)) <||>
    (if spansPages
     then let* r := RorkHookMemoryIsReadable lastPage lastPageBytes in ret (negb r)
     else ret false) in
  if unreadable then ret false else
  let* (firstFound, firstOriginalProtection) :=
    RorkHookMemoryProtection firstPage (Some 0) in
  if negb firstFound then ret false else
  let* (lastFound, lastOriginalProtection) :=
    if spansPages then RorkHookMemoryProtection lastPage (Some 0) else ret (true, Some 0) in
  if negb lastFound then ret false else
  let firstOriginalProtection := default 0 firstOriginalProtection in
  let lastOriginalProtection :=
    if spansPages then default 0 lastOriginalProtection else firstOriginalProtection in
  store_transaction slot value protection firstPage lastPage protectSize spansPages
    firstOriginalProtection lastOriginalProtection.
End Memory.

(** ** What TPRO hardware promises *)

(** Writing the register decides the window as a function of the value and the
    process; the advertised disable value closes it; and a page is guarded only
    in a process that enforces TPRO, which the process configuration reports
    where it exists and a write of the advertised enable value shows elsewhere. *)
Class TPROLaws (K : Type) {T : Target} {Kern : Kernel K} : Prop := {
  msr_window k k' v :
    same_process k k' -> window_open (msr_tpro k' v) = window_open (msr_tpro k v);
  msr_disable k :
    comm_page_u64 k RORK_HOOK_COMM_PAGE_TPRO_WRITE_DISABLE <> 0 ->
    window_open (msr_tpro k (comm_page_u64 k RORK_HOOK_COMM_PAGE_TPRO_WRITE_DISABLE)) = false;
  gated_enforced k a :
    tpro_gated k a = true ->
    RORK_HOOK_DEVICE_ARM64 = true /\
    comm_page_u64 k RORK_HOOK_COMM_PAGE_TPRO_WRITE_ENABLE <> 0 /\
    comm_page_u64 k RORK_HOOK_COMM_PAGE_TPRO_WRITE_DISABLE <> 0 /\
    (if RORK_HOOK_HAS_PROCESS_SECURITY_CONFIG && builtin_available_iOS_26
     then Z.land (os_security_config_get k) OS_SECURITY_CONFIG_TPRO <> 0
     else window_open (msr_tpro k (comm_page_u64 k RORK_HOOK_COMM_PAGE_TPRO_WRITE_ENABLE)) = true)
}.

(** ** State changes the window functions may make *)

Section Frames.
Context {K : Type} {Kern : Kernel K}.
Implicit Types σ : machine K.

(** Memory, protections and process attributes are kept; the register and the
    log may have moved. *)
Record steady σ σ' : Prop := {
  steady_mem : mem σ' = mem σ;
  steady_prot : same_prot (kern σ) (kern σ');
  steady_process : same_process (kern σ) (kern σ');
  steady_log : exists new, log σ' = new ++ log σ
}.

(** [steady], with the write window as it was. *)
Definition quiet σ σ' : Prop :=
  steady σ σ' /\ window_open (kern σ') = window_open (kern σ).

Lemma same_process_trans (k1 k2 k3 : K) :
  same_process k1 k2 -> same_process k2 k3 -> same_process k1 k3.
Proof. unfold same_process. intros (H1 & H2 & H3) (H4 & H5 & H6). split_and!; congruence. Qed.

Lemma same_process_sym (k1 k2 : K) : same_process k1 k2 -> same_process k2 k1.
Proof. unfold same_process. intros (H1 & H2 & H3). split_and!; congruence. Qed.

#[export] Instance steady_preorder : PreOrder steady.
Proof.
  split.
  - intros σ. split; [done..|]. by exists [].
  - intros σ1 σ2 σ3 [M1 P1 S1 [l1 L1]] [M2 P2 S2 [l2 L2]]. split.
    + congruence.
    + intros a. by rewrite P2, P1.
    + by eapply same_process_trans.
    + exists (l2 ++ l1). rewrite L2, L1. by rewrite app_assoc.
Qed.

#[export] Instance quiet_preorder : PreOrder quiet.
Proof.
  split.
  - intros σ. split; done.
  - intros σ1 σ2 σ3 [S1 W1] [S2 W2]. split; [by etrans|congruence].
Qed.

Lemma quiet_steady σ σ' : quiet σ σ' -> steady σ σ'.
Proof. by intros []. Qed.
End Frames.

#[export] Hint Resolve quiet_steady : rork.
#[export] Hint Extern 1 (steady _ _) => reflexivity : rork.
#[export] Hint Extern 1 (quiet _ _) => reflexivity : rork.

Section Window.
Context {K : Type} {T : Target} {Kern : Kernel K}.
Context {Laws : KernelLaws K} {TLaws : TPROLaws K}.
Implicit Types σ : machine K.

Definition known_configuration : bool :=
  RORK_HOOK_HAS_PROCESS_SECURITY_CONFIG && builtin_available_iOS_26.
Definition hardware_tpro (k : K) : bool :=
  negb (comm_page_u64 k RORK_HOOK_COMM_PAGE_TPRO_WRITE_ENABLE =? 0) &&
  negb (comm_page_u64 k RORK_HOOK_COMM_PAGE_TPRO_WRITE_DISABLE =? 0).

(** Writing the advertised enable value opens the window. *)
Definition window_opens (k : K) : bool :=
  window_open (msr_tpro k (comm_page_u64 k RORK_HOOK_COMM_PAGE_TPRO_WRITE_ENABLE)).

(** What [RorkHookSupportsTPRO] answers. *)
Definition uses_tpro (k : K) : bool :=
  RORK_HOOK_DEVICE_ARM64 && hardware_tpro k &&
  (if known_configuration
   then negb (Z.land (os_security_config_get k) OS_SECURITY_CONFIG_TPRO =? 0)
   else window_open k || window_opens k).

Lemma window_opens_stable k k' : same_process k k' -> window_opens k' = window_opens k.
Proof using TLaws.
  intros Hp. unfold window_opens. rewrite (msr_window _ _ _ Hp).
  by destruct Hp as (_ & -> & _).
Qed.

Lemma hardware_tpro_stable k k' : same_process k k' -> hardware_tpro k' = hardware_tpro k.
Proof. intros (_ & Hc & _). unfold hardware_tpro. by rewrite !Hc. Qed.

Lemma uses_tpro_stable k k' :
  same_process k k' -> window_open k' = window_open k -> uses_tpro k' = uses_tpro k.
Proof using TLaws.
  intros Hp Hw. unfold uses_tpro. rewrite (hardware_tpro_stable _ _ Hp), Hw.
  rewrite (window_opens_stable _ _ Hp). by destruct Hp as (_ & _ & ->).
Qed.

(** An open window only makes the answer more positive. *)
Lemma uses_tpro_open k k' :
  same_process k k' -> window_open k' = true -> uses_tpro k = true -> uses_tpro k' = true.
Proof.
  intros Hp Hw. unfold uses_tpro. rewrite (hardware_tpro_stable _ _ Hp), Hw.
  destruct Hp as (_ & _ & Ho). rewrite Ho.
  destruct RORK_HOOK_DEVICE_ARM64, (hardware_tpro k), known_configuration; done.
Qed.

Lemma gated_uses_tpro k a : tpro_gated k a = true -> uses_tpro k = true.
Proof using TLaws.
  intros (Hd & He & Hn & Hc)%gated_enforced. unfold uses_tpro, hardware_tpro.
  rewrite Hd, (proj2 (Z.eqb_neq _ _) He), (proj2 (Z.eqb_neq _ _) Hn). cbn [andb negb].
  unfold known_configuration. destruct (_ && _).
  - by rewrite (proj2 (Z.eqb_neq _ _) Hc).
  - unfold window_opens. rewrite Hc. apply orb_true_r.
Qed.

Lemma raw_window k : negb (field (mrs_tpro k) 0x24 1 =? 0) = window_open k.
Proof.
  unfold field, window_open. change (2 ^ 1) with 2.
  rewrite <- Z.testbit_spec' by lia. by destruct (Z.testbit _ _).
Qed.

Lemma write_state_steady σ v :
  RorkHookWriteThreadTPROState v σ =
  Ret tt (Machine (msr_tpro (kern σ) v) (mem σ) (EvTPRO v :: log σ)).
Proof. done. Qed.

Lemma msr_steady σ v :
  steady σ (Machine (msr_tpro (kern σ) v) (mem σ) (EvTPRO v :: log σ)).
Proof using Laws.
  destruct (msr_law (kern σ) v) as [Hp Hs]. split; [done..|]. by exists [EvTPRO v].
Qed.

Lemma RorkHookProbeProcessTPRO_spec σ :
  hardware_tpro (kern σ) = true ->
  exists σ', RorkHookProbeProcessTPRO σ =
    Ret (window_open (kern σ) || window_opens (kern σ)) σ' /\ quiet σ σ'.
Proof using Laws TLaws.
  intros Hh. unfold RorkHookProbeProcessTPRO, RorkHookThreadTPROWriteEnabledRaw,
    RorkHookCommPageValue, asks, bind, ret.
  rewrite !raw_window. destruct (window_open (kern σ)) eqn:Hw.
  { eexists. split; [done|reflexivity]. }
  rewrite write_state_steady. cbn [kern mem log]. rewrite raw_window, write_state_steady.
  eexists. split; [done|]. split.
  - etrans; [apply msr_steady|]. apply msr_steady.
  - cbn [kern mem log]. rewrite Hw. set (v := comm_page_u64 _ _).
    unfold hardware_tpro in Hh.
    destruct (msr_law (kern σ) v) as [Hp _]. pose proof Hp as (_ & Hc & _). rewrite Hc.
    rewrite (msr_window _ _ _ Hp). apply msr_disable. lia.
Qed.

Lemma RorkHookHardwareSupportsTPRO_eq σ :
  RorkHookHardwareSupportsTPRO σ = Ret (hardware_tpro (kern σ)) σ.
Proof.
  unfold RorkHookHardwareSupportsTPRO, hardware_tpro, and_then, RorkHookCommPageValue, asks,
    bind, ret. by destruct (negb (comm_page_u64 _ RORK_HOOK_COMM_PAGE_TPRO_WRITE_ENABLE =? 0)).
Qed.

Lemma RorkHookSupportsTPRO_spec σ :
  exists σ', RorkHookSupportsTPRO σ = Ret (uses_tpro (kern σ)) σ' /\ quiet σ σ'.
Proof using Laws TLaws.
  unfold RorkHookSupportsTPRO, uses_tpro.
  destruct RORK_HOOK_DEVICE_ARM64; [|eexists; split; [done|reflexivity]].
  rewrite (bind_Ret _ _ _ _ _ (RorkHookHardwareSupportsTPRO_eq σ)).
  destruct (hardware_tpro (kern σ)) eqn:Hh; [|eexists; split; [done|reflexivity]].
  fold known_configuration. cbn [negb andb].
  destruct known_configuration; [eexists; split; [done|reflexivity]|].
  destruct (RorkHookProbeProcessTPRO_spec σ Hh) as (σ' & Hp & Hq).
  rewrite (bind_Ret _ _ _ _ _ Hp). by eexists.
Qed.

Lemma RorkHookThreadCanWriteTPRO_spec σ :
  exists σ', RorkHookThreadCanWriteTPRO σ =
    Ret (uses_tpro (kern σ) && window_open (kern σ)) σ' /\ quiet σ σ'.
Proof using Laws TLaws.
  unfold RorkHookThreadCanWriteTPRO. destruct RORK_HOOK_DEVICE_ARM64 eqn:Hd.
  2:{ eexists. split; [|reflexivity]. unfold uses_tpro. by rewrite Hd. }
  destruct (RorkHookSupportsTPRO_spec σ) as (σ' & Hs & Hq). exists σ'. split; [|done].
  unfold and_then. rewrite (bind_Ret _ _ _ _ _ Hs).
  destruct (uses_tpro (kern σ)); [|done]. destruct Hq as [_ <-].
  unfold RorkHookThreadTPROWriteEnabledRaw, asks, bind, ret. by rewrite raw_window.
Qed.

Lemma RorkHookBeginThreadTPROWrite_spec σ :
  exists σ', RorkHookBeginThreadTPROWrite σ = Ret tt σ' /\ steady σ σ' /\
    window_open (kern σ') =
      if uses_tpro (kern σ) then window_opens (kern σ) else window_open (kern σ).
Proof using Laws TLaws.
  unfold RorkHookBeginThreadTPROWrite. destruct RORK_HOOK_DEVICE_ARM64 eqn:Hd.
  2:{ eexists. split_and!; [done|reflexivity|]. unfold uses_tpro. by rewrite Hd. }
  destruct (RorkHookSupportsTPRO_spec σ) as (σ1 & Hs & Hq1 & Hw1).
  rewrite (bind_Ret _ _ _ _ _ Hs).
  destruct (uses_tpro (kern σ)); [|by eexists]. cbn [negb].
  unfold RorkHookCommPageValue, asks, bind at 1. rewrite write_state_steady.
  eexists. split_and!; [done|etrans; [exact Hq1|]; apply msr_steady|].
  cbn [kern]. pose proof (steady_process _ _ Hq1) as Hp. unfold window_opens.
  rewrite (msr_window _ _ _ Hp). by destruct Hp as (_ & -> & _).
Qed.

Lemma RorkHookEndThreadTPROWrite_spec σ :
  exists σ', RorkHookEndThreadTPROWrite σ = Ret tt σ' /\ steady σ σ' /\
    window_open (kern σ') =
      if uses_tpro (kern σ) then false else window_open (kern σ).
Proof using Laws TLaws.
  unfold RorkHookEndThreadTPROWrite. destruct RORK_HOOK_DEVICE_ARM64 eqn:Hd.
  2:{ eexists. split_and!; [done|reflexivity|]. unfold uses_tpro. by rewrite Hd. }
  destruct (RorkHookSupportsTPRO_spec σ) as (σ1 & Hs & Hq1 & Hw1).
  rewrite (bind_Ret _ _ _ _ _ Hs).
  destruct (uses_tpro (kern σ)) eqn:Hu; [|by eexists]. cbn [negb].
  unfold RorkHookCommPageValue, asks, bind at 1. rewrite write_state_steady.
  eexists. split_and!; [done| |].
  - etrans; [exact Hq1|]. apply msr_steady.
  - apply msr_disable. unfold uses_tpro, hardware_tpro in Hu.
    destruct (steady_process _ _ Hq1) as (_ & Hc & _). rewrite Hc. lia.
Qed.

(** Opening the window: it is refused with the window as it was, found open
    and left to its owner, or opened here with the operation that closes it. *)
Lemma RorkHookAllowTPROWrites_spec σ out :
  exists σ' opened restore,
    RorkHookAllowTPROWrites (Some out) σ = Ret (opened, Some restore) σ' /\
    steady σ σ' /\
    opened = uses_tpro (kern σ) && (window_open (kern σ) || window_opens (kern σ)) /\
    ((opened = false /\ restore = None /\ window_open (kern σ') = window_open (kern σ)) \/
     (opened = true /\ restore = None /\
      window_open (kern σ) = true /\ window_open (kern σ') = true) \/
     (opened = true /\ restore = Some RorkHookEndThreadTPROWrite /\
      uses_tpro (kern σ') = true /\
      window_open (kern σ) = false /\ window_open (kern σ') = true)).
Proof using Laws TLaws.
  unfold RorkHookAllowTPROWrites.
  destruct (RorkHookSupportsTPRO_spec σ) as (σ1 & Hs1 & Hq1).
  rewrite (bind_Ret _ _ _ _ _ Hs1).
  destruct (uses_tpro (kern σ)) eqn:Hu; cbn [negb].
  2:{ do 3 eexists. split_and!; [done|apply Hq1|done|]. left. split_and!; [done..|apply Hq1]. }
  destruct (RorkHookThreadCanWriteTPRO_spec σ1) as (σ2 & Hs2 & Hq2).
  rewrite (bind_Ret _ _ _ _ _ Hs2).
  assert (uses_tpro (kern σ1) = true) as Hu1.
  { rewrite (uses_tpro_stable (kern σ)); [done|apply Hq1..]. }
  rewrite Hu1. cbn [andb]. assert (quiet σ σ2) as Hq by by etrans.
  destruct (window_open (kern σ1)) eqn:Hw1.
  { assert (window_open (kern σ) = true) as Hw0 by (destruct Hq1; congruence).
    do 3 eexists. split_and!; [done|apply Hq|by rewrite Hw0|]. right; left.
    destruct Hq1 as [_ Hq1], Hq2 as [_ Hq2]. split_and!; congruence. }
  destruct (RorkHookBeginThreadTPROWrite_spec σ2) as (σ3 & Hs3 & St3 & Ho3).
  rewrite (uses_tpro_stable (kern σ)), Hu in Ho3 by apply Hq.
  rewrite (window_opens_stable (kern σ)) in Ho3 by apply (steady_process _ _ (proj1 Hq)).
  rewrite (bind_Ret _ _ _ _ _ Hs3).
  destruct (RorkHookThreadCanWriteTPRO_spec σ3) as (σ4 & Hs4 & Hq4).
  rewrite (bind_Ret _ _ _ _ _ Hs4).
  assert (steady σ σ3) as St by (etrans; [apply Hq|done]).
  assert (steady σ σ4) as St4 by (etrans; [exact St|apply Hq4]).
  assert (window_open (kern σ) = false) as Hw0 by (destruct Hq1; congruence).
  destruct (window_open (kern σ3)) eqn:Hw3.
  - rewrite (uses_tpro_open (kern σ) (kern σ3)) by (done || apply (steady_process _ _ St)).
    do 3 eexists. split_and!; [done|done|by rewrite Hw0, <- Ho3|]. right; right.
    destruct Hq4 as [_ Hw4]. split_and!; try done; try congruence.
    eapply (uses_tpro_open (kern σ)); [by apply steady_process|congruence|done].
  - rewrite andb_false_r. cbn [negb].
    destruct (RorkHookEndThreadTPROWrite_spec σ4) as (σ5 & Hs5 & St5 & Hw5).
    rewrite (bind_Ret _ _ _ _ _ Hs5).
    do 3 eexists. split_and!; [done|by etrans|by rewrite Hw0, <- Ho3|]. left. split_and!; [done..|].
    rewrite Hw5, Hw0. destruct Hq4 as [_ ->]. rewrite Hw3. by destruct (uses_tpro (kern σ4)).
Qed.
End Window.

(** ** Protection changes *)

Section Protect.
Context {K : Type} {T : Target} {Kern : Kernel K} {Laws : KernelLaws K}.
Implicit Types σ : machine K.

Definition protect_op (k : K) (start size prot : Z) : Z * K :=
  if RORK_HOOK_DEVICE_ARM64 then mach_vm_protect_trap k start size false prot
  else vm_protect k start size false prot.

Lemma RorkHookProtectMemory_spec σ start size prot :
  0 < start -> 0 < size -> start + size <= 2 ^ 64 ->
  exists r k', protect_op (kern σ) start size prot = (r, k') /\
    RorkHookProtectMemory start size prot σ =
      Ret r (Machine k' (mem σ) (EvProtect start size prot r :: log σ)) /\
    same_process (kern σ) k' /\ window_open k' = window_open (kern σ) /\
    (r = KERN_SUCCESS -> forall a, prot_at k' a =
       if in_pages start size a then Some (Z.land prot 7) else prot_at (kern σ) a) /\
    (r <> KERN_SUCCESS -> same_prot (kern σ) k').
Proof using Laws.
  intros Hs Hz Hb. destruct (protect_op (kern σ) start size prot) as [r k'] eqn:Hop.
  exists r, k'. split; [done|].
  assert (same_process (kern σ) k' /\ same_thread (kern σ) k' /\
    (r = KERN_SUCCESS -> forall a, prot_at k' a =
       if in_pages start size a then Some (Z.land prot 7) else prot_at (kern σ) a) /\
    (r <> KERN_SUCCESS -> same_prot (kern σ) k')) as (Hp & Ht & Hok & Hno).
  { unfold protect_op in Hop. destruct RORK_HOOK_DEVICE_ARM64;
      [eapply trap_law in Hop|eapply vm_protect_law in Hop]; done || lia. }
  split_and!; [|done| |done..].
  - unfold RorkHookProtectMemory.
    replace ((start =? 0) || (size =? 0)) with false by lia.
    unfold protect_call, RorkHookMachVMProtectTrap, protect_op, kcall, bind in *.
    by destruct RORK_HOOK_DEVICE_ARM64; rewrite Hop.
  - unfold window_open. by rewrite Ht.
Qed.

Lemma page_size_bounds : 4096 <= vm_page_size <= 2 ^ 32.
Proof using Laws.
  destruct page_size_pow2 as (n & Hn & ->). split.
  - change 4096 with (2 ^ 12). apply Z.pow_le_mono_r; lia.
  - apply Z.pow_le_mono_r; lia.
Qed.

(** Page-aligned ranges. *)
Lemma in_pages_aligned start stop a :
  start mod vm_page_size = 0 -> stop mod vm_page_size = 0 -> start <= stop ->
  in_pages start (stop - start + vm_page_size) a =
  (start <=? a) && (a <? stop + vm_page_size).
Proof using Laws.
  intros Hs He Hle. pose proof page_size_bounds. unfold in_pages.
  rewrite (page_base_eq _ start start) by lia.
  rewrite (page_base_eq _ (start + (stop - start + vm_page_size) - 1) stop) by lia. done.
Qed.

Lemma prot_land7 (k : K) a p : prot_at k a = Some p -> Z.land p 7 = p.
Proof using Laws.
  intros Hp%prot_at_bits. change 7 with (Z.ones 3). rewrite Z.land_ones by lia.
  apply Z.mod_small. lia.
Qed.

Lemma prot_at_in_page (k : K) base a p :
  prot_at k base = Some p -> base mod vm_page_size = 0 ->
  base <= a < base + vm_page_size -> prot_at k a = Some p.
Proof using Laws.
  intros Hp Hb Ha. pose proof page_size_bounds.
  rewrite prot_at_page, (page_base_eq _ a base) by (done || lia). done.
Qed.

(** Restoring one page to what it was in [k0]. *)
Lemma restored_page (k0 k k' : K) page p r :
  page mod vm_page_size = 0 -> prot_at k0 page = Some p ->
  (r = KERN_SUCCESS -> forall a, prot_at k' a =
     if in_pages page vm_page_size a then Some (Z.land p 7) else prot_at k a) ->
  (r <> KERN_SUCCESS -> same_prot k k') ->
  forall a, prot_at k' a =
    if (r =? KERN_SUCCESS) && (page <=? a) && (a <? page + vm_page_size)
    then prot_at k0 a else prot_at k a.
Proof using Laws.
  intros Hm Hp Ok No a. destruct (Z.eqb_spec r KERN_SUCCESS) as [Hr|Hr]; [|by apply No].
  rewrite Ok by done. pose proof (in_pages_aligned page page a) as Hin.
  rewrite Z.sub_diag, Z.add_0_l in Hin. rewrite Hin by (done || lia). cbn [andb].
  destruct ((page <=? a) && _) eqn:Ha; [|done].
  rewrite (prot_land7 k0 page) by done. symmetry. eapply prot_at_in_page; [done..|lia].
Qed.

(** Both restorations are attempted, in this order, whatever the first one
    returns. *)
Lemma RorkHookRestorePointerPageProtections_spec σ (k0 : K) fp lp spans p1 p2 :
  0 < fp -> fp <= lp -> fp mod vm_page_size = 0 -> lp mod vm_page_size = 0 ->
  lp + vm_page_size <= 2 ^ 64 -> spans = negb (fp =? lp) -> lp <= fp + vm_page_size ->
  prot_at k0 fp = Some p1 -> prot_at k0 lp = Some p2 ->
  (forall a, ~ (fp <= a < lp + vm_page_size) -> prot_at (kern σ) a = prot_at k0 a) ->
  exists ok σ' new,
    RorkHookRestorePointerPageProtections fp lp vm_page_size spans p1 p2 σ = Ret ok σ' /\
    mem σ' = mem σ /\ same_process (kern σ) (kern σ') /\
    window_open (kern σ') = window_open (kern σ) /\ log σ' = new ++ log σ /\
    (forall a, prot_at (kern σ') a = prot_at k0 a \/ prot_at (kern σ') a = prot_at (kern σ) a) /\
    (ok = true -> same_prot k0 (kern σ')) /\
    (ok = false -> exists page p r, (page = fp \/ page = lp) /\ prot_at k0 page = Some p /\
      EvProtect page vm_page_size p r ∈ new /\ r <> KERN_SUCCESS).
Proof using Laws.
  intros H0 Hle Hf Hl Hb -> Hnext Hp1 Hp2 Hout. pose proof page_size_bounds as HP.
  unfold RorkHookRestorePointerPageProtections.
  assert (0 < vm_page_size) as HP0 by lia.
  assert (fp + vm_page_size <= 2 ^ 64) as Hfb by lia.
  destruct (RorkHookProtectMemory_spec σ fp vm_page_size p1 H0 HP0 Hfb)
    as (r1 & k1 & _ & E1 & S1 & W1 & Ok1 & No1).
  rewrite (bind_Ret _ _ _ _ _ E1).
  pose proof (restored_page k0 (kern σ) k1 fp p1 r1 Hf Hp1 Ok1 No1) as R1. clear Ok1 No1.
  destruct (Z.eqb_spec fp lp) as [<-|Hne]; cbn [negb].
  - do 3 eexists. split_and!; [done|done|done|done|by apply (f_equal2 app (x1:=[_]))| | |];
      cbn [kern].
    + intros a. rewrite R1. destruct (_ && _ && _); auto.
    + intros Hok a. rewrite R1. destruct (_ && _ && _) eqn:Ha; [done|]. apply Hout. lia.
    + intros Hno. exists fp, p1, r1. split_and!; [by left|done|apply list_elem_of_here|lia].
  - assert (0 < lp) as Hlp0 by lia.
    destruct (RorkHookProtectMemory_spec
      (Machine k1 (mem σ) (EvProtect fp vm_page_size p1 r1 :: log σ))
      lp vm_page_size p2 Hlp0 HP0 Hb)
      as (r2 & k2 & _ & E2 & S2 & W2 & Ok2 & No2).
    rewrite (bind_Ret _ _ _ _ _ E2). cbn [kern mem log] in *.
    pose proof (restored_page k0 k1 k2 lp p2 r2 Hl Hp2 Ok2 No2) as R2. clear Ok2 No2.
    do 3 eexists. split_and!;
      [done|done|by eapply same_process_trans|cbn [kern]; by rewrite W2
      |by apply (f_equal2 app (x1:=[_;_]))| | |]; cbn [kern].
    + intros a. rewrite R2, R1. destruct (_ && _ && _); [by left|].
      destruct (_ && _ && _); auto.
    + intros Hok a. rewrite R2, R1. destruct (_ && (lp <=? a) && _) eqn:Ha2; [done|].
      destruct (_ && (fp <=? a) && _) eqn:Ha1; [done|]. apply Hout. lia.
    + intros Hno. destruct (Z.eqb_spec r1 KERN_SUCCESS).
      * exists lp, p2, r2. split_and!; [by right|done|apply list_elem_of_here|lia].
      * exists fp, p1, r1.
        split_and!; [by left|done|apply list_elem_of_further, list_elem_of_here|lia].
Qed.
End Protect.

(** ** The protected pointer store *)

Section Store.
Context {K : Type} {T : Target} {Kern : Kernel K}.
Context {Laws : KernelLaws K} {TLaws : TPROLaws K}.
Implicit Types σ : machine K.

(** [slot] holds [value] and nothing else moved. *)
Definition written (slot value : Z) σ σ' : Prop :=
  peeks σ' slot 8 = le_split 8 value /\ same_bytes_but slot 8 σ σ'.

(** The pages of a slot, and the store's request to change their protection. *)
Definition first_page (slot : Z) : Z := page_base vm_page_size slot.
Definition last_page (slot : Z) : Z := page_base vm_page_size (slot + 7).
Definition request (slot protection r : Z) : event :=
  EvProtect (first_page slot) (last_page slot - first_page slot + vm_page_size) protection r.

(** Some protection change since [σ] was refused by the kernel. *)
Definition refused σ σ' : Prop :=
  exists new start size p r, log σ' = new ++ log σ /\
    EvProtect start size p r ∈ new /\ r <> KERN_SUCCESS.

(** The store's request was accepted, and afterwards the kernel refused to give a
    page of the slot its original protection back. *)
Definition restore_failed (slot protection : Z) σ σ' : Prop :=
  exists later page p r, log σ' = later ++ request slot protection KERN_SUCCESS :: log σ /\
    (page = first_page slot \/ page = last_page slot) /\ prot_at (kern σ) page = Some p /\
    EvProtect page vm_page_size p r ∈ later /\ r <> KERN_SUCCESS.

(** A log in which the kernel accepted every protection change. *)
Definition accepted (e : event) : bool :=
  match e with EvProtect _ _ _ r => r =? KERN_SUCCESS | _ => true end.

Lemma accepted_not_refused σ σ' :
  log σ = [] -> forallb accepted (log σ') = true -> ~ refused σ σ'.
Proof.
  intros H0 Ha (new & start & size & p & r & Hl & Hin & Hr).
  rewrite H0, app_nil_r in Hl. subst new. rewrite forallb_forall in Ha.
  apply list_elem_of_In, Ha in Hin. cbn in Hin. lia.
Qed.

(** The process uses TPRO, the window is closed, and the advertised value does
    not open it. *)
Definition window_refused (k : K) : Prop :=
  uses_tpro k = true /\ window_opens k = false.

(** The contract of the store: the thread's write window is as the caller left
    it; no page ends with a protection other than its own or the requested one;
    memory is untouched or the slot was written; [true] means written with every
    protection as before; [false] means either untouched with every protection as
    before, or that the kernel refused to restore a page, and then the slot was
    written, unless the TPRO window could not be opened; and there is no [false]
    without a refusal. *)
Record store_contract (slot value protection : Z) σ (ok : bool) σ' : Prop := {
  sc_window : window_open (kern σ') = window_open (kern σ);
  sc_process : same_process (kern σ) (kern σ');
  sc_prot a : prot_at (kern σ') a = prot_at (kern σ) a \/
    prot_at (kern σ') a = Some (Z.land protection 7);
  sc_log : exists new, log σ' = new ++ log σ;
  sc_memory : mem σ' = mem σ \/ written slot value σ σ';
  sc_true : ok = true -> written slot value σ σ' /\ same_prot (kern σ) (kern σ');
  sc_false : ok = false ->
    (mem σ' = mem σ /\ same_prot (kern σ) (kern σ')) \/
    restore_failed slot protection σ σ' /\
      (written slot value σ σ' \/ mem σ' = mem σ /\ window_refused (kern σ));
  sc_cause : ok = false -> refused σ σ' \/ window_refused (kern σ)
}.

Lemma restore_failed_refused slot protection σ σ' :
  restore_failed slot protection σ σ' -> refused σ σ'.
Proof.
  intros (later & page & p & r & Hl & _ & _ & Hin & Hr).
  exists (later ++ [request slot protection KERN_SUCCESS]), page, vm_page_size, p, r.
  split_and!; [by rewrite Hl, <- app_assoc|apply elem_of_app; by left|done].
Qed.

Lemma refused_later σ σ1 σ2 new :
  refused σ σ1 -> log σ2 = new ++ log σ1 -> refused σ σ2.
Proof.
  intros (l & start & size & p & r & Hl & Hin & Hr) H2.
  exists (new ++ l), start, size, p, r. split_and!; [|apply elem_of_app; by right|done].
  by rewrite H2, Hl, app_assoc.
Qed.

(** A store that follows a refused protection change cannot fault: either the
    process does not use TPRO (and then the code does not store), or each byte
    of the slot is guarded by TPRO or writable already. *)
Definition refusal_is_safe (k : K) (slot : Z) : Prop :=
  uses_tpro k = false \/ forall a, slot <= a < slot + 8 ->
    tpro_gated k a = true \/
    exists p, prot_at k a = Some p /\ prot_has p VM_PROT_WRITE = true.

Lemma written_frame slot value σ0 σ0' σ1 σ1' :
  mem σ0' = mem σ0 -> mem σ1' = mem σ1 ->
  written slot value σ0 σ1 -> written slot value σ0' σ1'.
Proof.
  intros H0 H1 [Hv Hb]. unfold written, same_bytes_but, peeks, peek in *.
  by rewrite H0, H1.
Qed.

Lemma store_slot_written σ slot value :
  range_writable σ slot 8 ->
  exists σ', (store_bytes slot (le_split 8 value) ;;; sys_dcache_flush slot 8) σ = Ret tt σ' /\
    kern σ' = kern σ /\ written slot value σ σ' /\ exists new, log σ' = new ++ log σ.
Proof.
  intros Hw. eexists. split_and!.
  - unfold bind. by rewrite store_bytes_ok by (rewrite length_le_split; done).
  - done.
  - split; cbn [kern mem log emit].
    + rewrite <- (length_le_split 8 value) at 1. apply peeks_poked.
    + intros x Hx. rewrite peek_poked, length_le_split.
      destruct (_ && _) eqn:?; [lia|done].
  - by exists [EvDCacheFlush slot 8; EvStore slot (le_split 8 value)].
Qed.

(** The window part of the transaction. *)
Lemma open_window_spec σ :
  exists σ1 σ' supported opened restore,
    RorkHookSupportsTPRO σ = Ret supported σ1 /\
    (if supported then RorkHookAllowTPROWrites (Some None) else ret (false, Some None)) σ1 =
      Ret (opened, Some restore) σ' /\
    supported = uses_tpro (kern σ) /\ steady σ σ' /\
    (opened = true -> supported = true /\ window_open (kern σ') = true) /\
    (opened = false -> supported = true -> window_refused (kern σ)) /\
    ((restore = None /\ window_open (kern σ') = window_open (kern σ)) \/
     (restore = Some RorkHookEndThreadTPROWrite /\ uses_tpro (kern σ') = true /\
      window_open (kern σ) = false)).
Proof using Laws TLaws.
  destruct (RorkHookSupportsTPRO_spec σ) as (σ1 & Hs & Hst1 & Hw1).
  destruct (uses_tpro (kern σ)) eqn:Hu.
  - destruct (RorkHookAllowTPROWrites_spec σ1 None) as (σ2 & o & r & Ha & Hst & Ho & Hc).
    do 5 eexists. split_and!; [done|exact Ha|done|by etrans| | |].
    + intros ->. split; [done|].
      by destruct Hc as [(? & _)|[(_ & _ & _ & ?)|(_ & _ & _ & _ & ?)]].
    + intros -> _. split; [done|]. rewrite (uses_tpro_stable (kern σ)), Hu in Ho by (done || apply Hst1).
      rewrite (window_opens_stable (kern σ)) in Ho by apply Hst1.
      by destruct (window_open (kern σ1)), (window_opens (kern σ)).
    + destruct Hc as [(-> & -> & ?)|[(-> & -> & ? & ?)|(-> & -> & ? & ? & ?)]];
        [left|left|right]; split_and!; congruence.
  - do 5 eexists. split_and!; [done|done|done|done|done|done|]. by left.
Qed.

Lemma close_window_spec σ (w : bool) restore :
  (restore = None /\ window_open (kern σ) = w) \/
  (restore = Some RorkHookEndThreadTPROWrite /\ uses_tpro (kern σ) = true /\ w = false) ->
  exists σ', match restore with Some close => close | None => ret tt end σ = Ret tt σ' /\
    steady σ σ' /\ window_open (kern σ') = w.
Proof using Laws TLaws.
  intros [[-> Hw]|(-> & Hu & Hw)].
  - exists σ. split_and!; [done|reflexivity|done].
  - destruct (RorkHookEndThreadTPROWrite_spec σ) as (σ' & He & Hst & Hc).
    rewrite Hu in Hc. exists σ'. split_and!; [done..|congruence].
Qed.

(** Where the code decides to store, the MMU lets it. *)
Lemma store_is_allowed (k0 : K) σ slot result supported opened prot :
  same_process k0 (kern σ) -> same_prot k0 (kern σ) -> supported = uses_tpro k0 ->
  (opened = true -> supported = true /\ window_open (kern σ) = true) ->
  RorkHookProtectedPointerWriteIsAvailable result supported opened = true ->
  (forall a, slot <= a < slot + 8 -> exists p, prot_at (kern σ) a = Some p /\
     (result = KERN_SUCCESS -> p = Z.land prot 7)) ->
  prot_has prot VM_PROT_WRITE = true ->
  (result <> KERN_SUCCESS -> refusal_is_safe k0 slot) ->
  range_writable σ slot 8.
Proof using TLaws.
  intros (Hgate & _) Hsame -> Ho Ha Hp Hw Hsafe a Hin. unfold writable. rewrite Hgate.
  destruct (Hp a Hin) as (p & Hpa & Hpr). rewrite Hpa.
  unfold RorkHookProtectedPointerWriteIsAvailable in Ha.
  destruct (tpro_gated k0 a) eqn:Hg.
  - rewrite (gated_uses_tpro _ _ Hg) in Ha. by apply Ho.
  - destruct (Z.eqb_spec result KERN_SUCCESS) as [Hr|Hr].
    + rewrite (Hpr Hr). unfold prot_has in *. by rewrite <- Z.land_assoc.
    + destruct (Hsafe Hr) as [Hu|Hall]; [by rewrite Hu in Ha|].
      destruct (Hall a Hin) as [Hg'|(q & Hq & Hqw)]; [by rewrite Hg' in Hg|].
      by rewrite <- Hsame, Hpa in Hq; simplify_eq.
Qed.

Lemma refusal_is_safe_stable k k' slot :
  same_process k k' -> window_open k' = window_open k ->
  (forall a, prot_at k' a = prot_at k a \/
     exists p, prot_at k' a = Some p /\ prot_has p VM_PROT_WRITE = true) ->
  refusal_is_safe k slot -> refusal_is_safe k' slot.
Proof using TLaws.
  intros Hp Hw Hsame [Hu|Hg]; [left; by rewrite (uses_tpro_stable k)|right].
  intros a Ha. destruct Hp as (Hp & _). rewrite Hp.
  destruct (Hg a Ha) as [|(p & Hpa & Hpw)]; [by left|right].
  destruct (Hsame a) as [->|]; [by exists p|done].
Qed.

Lemma slot_pages slot :
  0 <= slot -> slot + 7 < 2 ^ 64 ->
  first_page slot <= slot < first_page slot + vm_page_size /\
  last_page slot <= slot + 7 < last_page slot + vm_page_size /\
  first_page slot mod vm_page_size = 0 /\ last_page slot mod vm_page_size = 0 /\
  0 <= first_page slot <= last_page slot /\
  (last_page slot = first_page slot \/ last_page slot = first_page slot + vm_page_size) /\
  last_page slot + vm_page_size <= 2 ^ 64.
Proof using Laws.
  intros H0 H1. pose proof page_size_bounds as HP. unfold first_page, last_page.
  assert (0 < vm_page_size) as HP0 by lia.
  pose proof (page_base_bounds _ slot HP0).
  pose proof (page_base_bounds _ (slot + 7) HP0).
  pose proof (page_base_nonneg _ slot HP0 H0).
  split_and!; try apply page_base_multiple; try lia.
  - destruct (Z.lt_ge_cases (slot + 7) (page_base vm_page_size slot + vm_page_size)).
    + rewrite (page_base_eq _ (slot + 7) (page_base vm_page_size slot)); try lia.
      apply page_base_multiple.
    + lia.
  - destruct (Z.lt_ge_cases (slot + 7) (page_base vm_page_size slot + vm_page_size)) as [Hl|Hl].
    + left. apply page_base_eq; [lia|apply page_base_multiple|lia].
    + right. apply page_base_eq; [lia| |lia].
      rewrite <- Zplus_mod_idemp_l, page_base_multiple, Z.add_0_l. apply Z_mod_same_full.
  - destruct page_size_pow2 as (n & Hn & E). unfold page_base. rewrite E in *.
    assert (2 ^ 64 = 2 ^ n * 2 ^ (64 - n)) as E64.
    { rewrite <- Z.pow_add_r by lia. f_equal. lia. }
    assert ((slot + 7) / 2 ^ n < 2 ^ (64 - n)) by (apply Z.div_lt_upper_bound; lia).
    pose proof (Z.div_mod (slot + 7) (2 ^ n)). nia.
Qed.

Lemma first_page_nonneg slot : 0 < first_page slot -> 0 <= slot.
Proof using Laws.
  unfold first_page, page_base. pose proof page_size_bounds.
  pose proof (Z.mod_pos_bound slot vm_page_size). lia.
Qed.

(** From the closed window to the result: [k1] is the process after the
    protection change, [σ4] the machine after the window was closed. *)
Lemma store_finish σ k1 σ4 slot value prot p1 p2 r (avail : bool) :
  let fp := first_page slot in let lp := last_page slot in
  0 < fp -> slot + 7 < 2 ^ 64 ->
  prot_at (kern σ) fp = Some p1 -> prot_at (kern σ) lp = Some p2 ->
  (r = KERN_SUCCESS -> forall a, prot_at k1 a =
     if in_pages fp (lp - fp + vm_page_size) a then Some (Z.land prot 7)
     else prot_at (kern σ) a) ->
  (r <> KERN_SUCCESS -> same_prot (kern σ) k1) ->
  same_prot k1 (kern σ4) -> same_process (kern σ) (kern σ4) ->
  window_open (kern σ4) = window_open (kern σ) ->
  (exists later, log σ4 = later ++ request slot prot r :: log σ) ->
  (if avail then written slot value σ σ4 else mem σ4 = mem σ) ->
  (r = KERN_SUCCESS -> avail = false -> window_refused (kern σ)) ->
  wp (if negb (r =? KERN_SUCCESS) then ret avail else
      let* restored := RorkHookRestorePointerPageProtections fp lp vm_page_size
        (negb (fp =? lp)) p1 p2 in
      ret (avail && restored)) σ4 (store_contract slot value prot σ).
Proof using Laws.
  intros fp lp Hf0 Hb Hp1 Hp2 Ok1 No1 Q4 P4 W4 [l4 L4] W Hno.
  assert (0 <= slot) as Hs0 by by apply first_page_nonneg.
  destruct (slot_pages slot Hs0 Hb) as (Hf & Hl & Mf & Ml & Hle & Hnext & Htop).
  fold fp lp in Hf, Hl, Mf, Ml, Hle, Hnext, Htop.
  assert (forall a, prot_at (kern σ4) a = prot_at (kern σ) a \/
    prot_at (kern σ4) a = Some (Z.land prot 7)) as A4.
  { intros a. rewrite Q4. destruct (Z.eq_dec r KERN_SUCCESS) as [Hr|Hr].
    - rewrite Ok1 by done. destruct (in_pages _ _ _); auto.
    - left. by apply No1. }
  destruct (Z.eqb_spec r KERN_SUCCESS) as [Hr|Hr]; cbn [negb].
  - specialize (Ok1 Hr). specialize (Hno Hr). subst r. clear No1 Hb Hs0 Hf Hl.
    assert (forall a, ~ (fp <= a < lp + vm_page_size) ->
      prot_at (kern σ4) a = prot_at (kern σ) a) as Hout.
    { intros a Ha. rewrite Q4, Ok1, in_pages_aligned by (done || lia).
      by replace (_ && _) with false by lia. }
    assert (fp <= lp) as Hfl by lia. assert (lp <= fp + vm_page_size) as Hlf.
    { pose proof page_size_bounds. lia. }
    destruct (RorkHookRestorePointerPageProtections_spec σ4 (kern σ) fp lp
      (negb (fp =? lp)) p1 p2 Hf0 Hfl Mf Ml Htop eq_refl Hlf Hp1 Hp2 Hout)
      as (ok & σ5 & new & E5 & M5 & P5 & W5 & L5 & A5 & T5 & F5).
    assert (ok = false -> restore_failed slot prot σ σ5) as Hbad.
    { intros Hf. destruct (F5 Hf) as (page & p & r' & Hpage & Hp & Hin & Hne).
      exists (new ++ l4), page, p, r'.
      split_and!; [by rewrite L5, L4, app_assoc|done|done|apply elem_of_app; by left|done]. }
    assert (if avail then written slot value σ σ5 else mem σ5 = mem σ) as W'.
    { destruct avail; [by eapply written_frame|congruence]. }
    eapply wp_call; [exact E5|]. apply wp_ret. split.
    + congruence.
    + by eapply same_process_trans.
    + intros a. destruct (A5 a) as [->| ->]; auto.
    + exists (new ++ l4 ++ [request slot prot KERN_SUCCESS]).
      by rewrite L5, L4, <- !app_assoc.
    + destruct avail; [by right|by left].
    + intros [-> ->]%andb_true_iff. split; [done|by apply T5].
    + intros Hf. destruct ok; [left|right; split; [by apply Hbad|]].
      * destruct avail; [done|]. split; [done|by apply T5].
      * destruct avail; [by left|right]. split; [done|by apply Hno].
    + intros Hf. destruct avail; [left; destruct ok; [done|]|right; by apply Hno].
      by eapply restore_failed_refused, Hbad.
  - assert (same_prot (kern σ) (kern σ4)) as Hsame by (intros a; by rewrite Q4, (No1 Hr)).
    apply wp_ret. split; [done|done|done| | | | |].
    + exists (l4 ++ [request slot prot r]). by rewrite L4, <- app_assoc.
    + destruct avail; [by right|by left].
    + by intros ->.
    + intros ->. by left.
    + intros _. left. eexists (l4 ++ [_]), _, _, _, r.
      split_and!; [by rewrite L4, <- app_assoc|apply elem_of_app; right; apply list_elem_of_here|done].
Qed.

(** Why the code may decide not to store after an accepted request. *)
Lemma available_cause (k : K) supported opened :
  (opened = false -> supported = true -> window_refused k) ->
  RorkHookProtectedPointerWriteIsAvailable KERN_SUCCESS supported opened = false ->
  window_refused k.
Proof.
  intros Hw. unfold RorkHookProtectedPointerWriteIsAvailable. destruct supported; [|done].
  intros ->. by apply Hw.
Qed.

(** The slot lies in its pages, which are mapped. *)
Lemma slot_covered (k : K) slot p1 p2 x :
  0 <= slot -> slot + 7 < 2 ^ 64 ->
  prot_at k (first_page slot) = Some p1 -> prot_at k (last_page slot) = Some p2 ->
  slot <= x < slot + 8 ->
  in_pages (first_page slot) (last_page slot - first_page slot + vm_page_size) x = true /\
  exists p, prot_at k x = Some p.
Proof using Laws.
  intros Hs0 Hb Hp1 Hp2 Hx. pose proof page_size_bounds as HP.
  destruct (slot_pages slot Hs0 Hb) as (Hf & Hl & Mf & Ml & Hle & Hnext & Htop).
  split; [rewrite in_pages_aligned by (done || lia); lia|].
  destruct (Z.lt_ge_cases x (first_page slot + vm_page_size)).
  - exists p1. eapply prot_at_in_page; [exact Hp1|done|lia].
  - exists p2. eapply prot_at_in_page; [exact Hp2|done|lia].
Qed.

(** The store, when the code decides to make it. *)
Lemma conditional_store (k0 : K) σ slot value result supported opened prot :
  let avail := RorkHookProtectedPointerWriteIsAvailable result supported opened in
  same_process k0 (kern σ) -> same_prot k0 (kern σ) -> supported = uses_tpro k0 ->
  (opened = true -> supported = true /\ window_open (kern σ) = true) ->
  (forall a, slot <= a < slot + 8 -> exists p, prot_at (kern σ) a = Some p /\
     (result = KERN_SUCCESS -> p = Z.land prot 7)) ->
  prot_has prot VM_PROT_WRITE = true ->
  (result <> KERN_SUCCESS -> refusal_is_safe k0 slot) ->
  exists σ', (if avail then store_bytes slot (le_split 8 value) ;;; sys_dcache_flush slot 8
              else ret tt) σ = Ret tt σ' /\ kern σ' = kern σ /\
    (exists new, log σ' = new ++ log σ) /\
    if avail then written slot value σ σ' else mem σ' = mem σ.
Proof using TLaws.
  intros avail Hpr Hsame Hsup Hopen Hmapped Hw Hsafe.
  destruct avail eqn:Ha; [|exists σ; split_and!; [done|done|by exists []|done]].
  destruct (store_slot_written σ slot value) as (σ' & ? & ? & ? & ?); [|by exists σ'].
  by eapply (store_is_allowed k0 σ slot result supported opened prot).
Qed.

Lemma log_grows_trans σ1 σ2 σ3 :
  (exists new, log σ2 = new ++ log σ1) -> (exists new, log σ3 = new ++ log σ2) ->
  exists new, log σ3 = new ++ log σ1.
Proof. intros [a ->] [b ->]. exists (b ++ a). by rewrite app_assoc. Qed.

(** The slot after the protection change has been asked for. *)
Lemma requested_slot (k k1 : K) slot prot p1 p2 r x :
  0 <= slot -> slot + 7 < 2 ^ 64 ->
  prot_at k (first_page slot) = Some p1 -> prot_at k (last_page slot) = Some p2 ->
  (r = KERN_SUCCESS -> forall a, prot_at k1 a =
     if in_pages (first_page slot) (last_page slot - first_page slot + vm_page_size) a
     then Some (Z.land prot 7) else prot_at k a) ->
  (r <> KERN_SUCCESS -> same_prot k k1) ->
  slot <= x < slot + 8 ->
  exists p, prot_at k1 x = Some p /\ (r = KERN_SUCCESS -> p = Z.land prot 7).
Proof using Laws.
  intros Hs0 Hb Hp1 Hp2 Ok No Hx.
  destruct (slot_covered k slot p1 p2 x) as (Hin & p & Hpx); [done..|].
  destruct (Z.eq_dec r KERN_SUCCESS) as [Hr|Hr].
  - rewrite (Ok Hr), Hin. by eexists.
  - rewrite (No Hr), Hpx. by eexists.
Qed.

Lemma store_transaction_spec σ slot value prot p1 p2 :
  0 < first_page slot -> slot + 7 < 2 ^ 64 ->
  prot_at (kern σ) (first_page slot) = Some p1 ->
  prot_at (kern σ) (last_page slot) = Some p2 ->
  prot_has prot VM_PROT_WRITE = true ->
  (fst (protect_op (kern σ) (first_page slot)
          (last_page slot - first_page slot + vm_page_size) prot) <> KERN_SUCCESS ->
   refusal_is_safe (kern σ) slot) ->
  wp (store_transaction slot value prot (first_page slot) (last_page slot)
        (last_page slot - first_page slot + vm_page_size)
        (negb (first_page slot =? last_page slot)) p1 p2) σ (store_contract slot value prot σ).
Proof using Laws TLaws.
  intros Hf0 Hb Hp1 Hp2 Hw Href. pose proof page_size_bounds as HP.
  assert (0 <= slot) as Hs0 by by apply first_page_nonneg.
  destruct (slot_pages slot Hs0 Hb) as (Hf & Hl & Mf & Ml & Hle & Hnext & Htop).
  set (fp := first_page slot) in *. set (lp := last_page slot) in *.
  assert (0 < lp - fp + vm_page_size) as Hsz by lia.
  assert (fp + (lp - fp + vm_page_size) <= 2 ^ 64) as Hend by lia.
  destruct (RorkHookProtectMemory_spec σ fp _ prot Hf0 Hsz Hend)
    as (r & k1 & Hop & E1 & S1 & W1 & Ok1 & No1).
  rewrite Hop in Href. cbn [fst] in Href.
  unfold store_transaction. eapply wp_call; [exact E1|]. set (σ1 := Machine k1 _ _) in *.
  destruct (open_window_spec σ1)
    as (σa & σ2 & sup & opened & restore & Es & Ea & Hsup & St2 & Hopen & Hshut & Hrest).
  eapply wp_call; [exact Es|]. eapply wp_call; [exact Ea|]. cbn beta iota.
  set (avail := RorkHookProtectedPointerWriteIsAvailable r sup opened).
  assert (same_process k1 (kern σ2)) as P2 by apply (steady_process _ _ St2).
  destruct (conditional_store k1 σ2 slot value r sup opened prot)
    as (σ3 & E3 & K3 & L3 & W3); try done.
  { intros a. by rewrite (steady_prot _ _ St2). }
  { intros x Hx. rewrite (steady_prot _ _ St2). by eapply requested_slot. }
  { intros Hr. eapply (refusal_is_safe_stable (kern σ)); [done|done| |by apply Href].
    intros a. left. by apply No1. }
  fold avail in E3, W3.
  eapply wp_call; [exact E3|].
  destruct (close_window_spec σ3 (window_open k1) restore) as (σ4 & E4 & St4 & W4).
  { rewrite K3. exact Hrest. }
  eapply wp_call; [exact E4|].
  assert (exists new, log σ4 = new ++ log σ1) as L4.
  { eapply log_grows_trans; [apply St2|]. eapply log_grows_trans; [exact L3|apply St4]. }
  cbn [kern mem log] in *.
  eapply (store_finish σ k1 σ4 slot value prot p1 p2 r avail); try done.
  - intros a. rewrite (steady_prot _ _ St4), K3. apply (steady_prot _ _ St2).
  - do 2 (eapply same_process_trans; [eassumption|]).
    rewrite <- K3. apply (steady_process _ _ St4).
  - by rewrite W4.
  - pose proof (steady_mem _ _ St2) as M2. pose proof (steady_mem _ _ St4) as M4.
    change (mem σ1) with (mem σ) in M2.
    destruct avail; [by eapply written_frame|congruence].
  - intros Hr Hav. unfold avail in Hav. rewrite Hr in Hav.
    eapply (available_cause _ sup opened); [|exact Hav].
    intros Ho Hs. destruct (Hshut Ho Hs) as [H1 H2].
    split; [rewrite (uses_tpro_stable (kern σ)) in H1|rewrite (window_opens_stable (kern σ)) in H2];
    done.
Qed.

(** The argument checks of the store. *)
Definition slot_spans (slot : Z) : bool := negb (first_page slot =? last_page slot).
Definition first_page_bytes (slot : Z) : Z :=
  if slot_spans slot then last_page slot - slot else 8.

Definition store_ready (k : K) (slot protection : Z) : bool :=
  negb (slot =? NULL) && prot_has protection VM_PROT_WRITE && (slot + 7 <? 2 ^ 64) &&
  memory_is_readable k slot (first_page_bytes slot) &&
  bool_decide (is_Some (region_at k (first_page slot))) &&
  (negb (slot_spans slot) ||
   (memory_is_readable k (last_page slot) (8 - first_page_bytes slot) &&
    bool_decide (is_Some (region_at k (last_page slot))))).

Definition page_protection (k : K) (page : Z) : Z :=
  match region_at k page with Some r => region_protection r | None => 0 end.

Lemma slot_masks slot :
  is_u64 slot -> is_u64 (slot + 7) ->
  Z.land slot (u64 (Z.lnot (u64 (vm_page_size - 1)))) = first_page slot /\
  Z.land (slot + 7) (u64 (Z.lnot (u64 (vm_page_size - 1)))) = last_page slot.
Proof using Laws.
  intros H1 H2. pose proof page_size_bounds. unfold first_page, last_page.
  rewrite (u64_small (vm_page_size - 1)) by (unfold is_u64; lia).
  destruct page_size_pow2 as (n & Hn & ->).
  by rewrite !land_page_mask by (done || lia).
Qed.

Lemma page_size_is_mask :
  Z.land vm_page_size (u64 (vm_page_size - 1)) = 0.
Proof using Laws.
  pose proof page_size_bounds. rewrite u64_small by (unfold is_u64; lia).
  destruct page_size_pow2 as (n & Hn & ->).
  replace (2 ^ n - 1) with (Z.ones n) by (rewrite Z.ones_equiv; lia).
  rewrite Z.land_ones by lia. apply Z_mod_same_full.
Qed.

Lemma u64_slot_end slot : is_u64 slot ->
  (u64 (slot + 8 - 1) <? slot) = negb (slot + 7 <? 2 ^ 64).
Proof.
  unfold is_u64. intros H. destruct (Z.ltb_spec (slot + 7) (2 ^ 64)).
  - rewrite u64_small by (unfold is_u64; lia). lia.
  - unfold u64. replace (slot + 8 - 1) with (slot - (2 ^ 64 - 7) + 1 * 2 ^ 64) by lia.
    rewrite Z.mod_add, Z.mod_small by lia. lia.
Qed.

(** What the code computes of a slot. *)
Lemma slot_geometry slot :
  is_u64 slot -> slot + 7 < 2 ^ 64 ->
  let mask := u64 (Z.lnot (u64 (vm_page_size - 1))) in
  let fp := first_page slot in let lp := last_page slot in
  u64 (slot + 8 - 1) = slot + 7 /\ Z.land slot mask = fp /\ Z.land (slot + 7) mask = lp /\
  u64 (u64 (lp - fp) + vm_page_size) = lp - fp + vm_page_size /\
  (if slot_spans slot then u64 (lp - slot) else 8) = first_page_bytes slot /\
  u64 (8 - first_page_bytes slot) = 8 - first_page_bytes slot /\ is_u64 lp.
Proof using Laws.
  intros Hs He mask fp lp. pose proof page_size_bounds as HP. unfold is_u64 in Hs.
  destruct (slot_masks slot) as [Hm1 Hm2]; [done|unfold is_u64; lia|].
  destruct (slot_pages slot) as (Hf & Hl & _ & _ & Hle & Hnext & Htop); [lia..|].
  fold fp lp in Hf, Hl, Hle, Hnext, Htop. split_and!; [|done|done|..].
  - rewrite u64_small; unfold is_u64; lia.
  - rewrite (u64_small (lp - fp)), u64_small by (unfold is_u64; lia). done.
  - unfold first_page_bytes, slot_spans. fold fp lp.
    destruct (Z.eqb_spec fp lp); cbn [negb]; [done|]. apply u64_small. unfold is_u64. lia.
  - apply u64_small. unfold is_u64, first_page_bytes, slot_spans. fold fp lp.
    destruct (Z.eqb_spec fp lp); cbn [negb]; lia.
  - unfold is_u64. lia.
Qed.

(** The function is its checks, which leave the machine alone, followed by the
    transaction. *)
Lemma RorkHookStoreProtectedPointer_eq σ slot value protection :
  is_u64 slot ->
  RorkHookStoreProtectedPointer slot value protection σ =
  (if store_ready (kern σ) slot protection
   then store_transaction slot value protection (first_page slot) (last_page slot)
          (last_page slot - first_page slot + vm_page_size) (slot_spans slot)
          (page_protection (kern σ) (first_page slot))
          (page_protection (kern σ) (last_page slot)) σ
   else Ret false σ).
Proof using Laws.
  intros Hs. unfold RorkHookStoreProtectedPointer, store_ready.
  destruct (slot =? NULL) eqn:Hn; [done|].
  destruct (prot_has protection VM_PROT_WRITE); [|done]. cbn [orb negb andb].
  pose proof page_size_bounds as HP.
  rewrite page_size_is_mask. replace (vm_page_size =? 0) with false by lia. cbn [orb negb Z.eqb].
  rewrite u64_slot_end by done. destruct (Z.ltb_spec (slot + 7) (2 ^ 64)) as [He|]; [|done].
  cbn [negb andb]. destruct (slot_geometry slot Hs He) as (-> & -> & -> & Hsz & Hb1 & Hb2 & Hlp).
  set (fp := first_page slot) in *. set (lp := last_page slot) in *.
  change (negb (fp =? lp)) with (slot_spans slot). rewrite Hsz, Hb1, Hb2.
  clear Hsz Hb1 Hb2 He Hn HP.
  unfold or_else, page_protection, bind, ret.
  rewrite RorkHookMemoryIsReadable_eq by done.
  destruct (memory_is_readable (kern σ) slot _); cbn [negb andb]; [|done].
  assert (slot_spans slot = false -> lp = fp) as Hsame.
  { unfold slot_spans. fold fp lp. destruct (Z.eqb_spec fp lp); done. }
  destruct (slot_spans slot); cbn [negb orb andb].
  - rewrite RorkHookMemoryIsReadable_eq by done.
    destruct (memory_is_readable (kern σ) lp _); cbn [negb andb].
    2:{ by rewrite andb_false_r. }
    rewrite RorkHookMemoryProtection_eq.
    destruct (region_at (kern σ) fp) as [r1|]; cbn [negb]; [|done].
    rewrite RorkHookMemoryProtection_eq.
    by destruct (region_at (kern σ) lp) as [r2|].
  - rewrite RorkHookMemoryProtection_eq, (Hsame eq_refl).
    by destruct (region_at (kern σ) fp) as [r1|].
Qed.

Lemma store_ready_bounds k slot protection :
  is_u64 slot -> store_ready k slot protection = true ->
  0 < first_page slot /\ 0 < last_page slot - first_page slot + vm_page_size /\
  first_page slot + (last_page slot - first_page slot + vm_page_size) <= 2 ^ 64.
Proof using Laws.
  unfold store_ready, is_u64. intros Hs Hr. rewrite !andb_true_iff in Hr.
  destruct Hr as (((((_ & _) & Hb) & _) & Hr1) & _).
  apply bool_decide_eq_true in Hr1 as [r1 E1].
  assert (first_page slot <> 0) as Hf0.
  { intros E. unfold region_at in E1. by rewrite E in E1. }
  destruct (slot_pages slot) as (_ & _ & _ & _ & Hle & _ & Htop); [lia..|].
  pose proof page_size_bounds. lia.
Qed.

(** Ready or not, the store keeps its contract. *)
Lemma RorkHookStoreProtectedPointer_spec σ slot value protection :
  is_u64 slot ->
  (fst (protect_op (kern σ) (first_page slot)
          (last_page slot - first_page slot + vm_page_size) protection) <> KERN_SUCCESS ->
   refusal_is_safe (kern σ) slot) ->
  wp (RorkHookStoreProtectedPointer slot value protection) σ (fun ok σ' =>
    if store_ready (kern σ) slot protection
    then store_contract slot value protection σ ok σ' else ok = false /\ σ' = σ).
Proof using Laws TLaws.
  intros Hs Href. unfold wp. rewrite RorkHookStoreProtectedPointer_eq by done.
  destruct (store_ready (kern σ) slot protection) eqn:Hr.
  2:{ done. }
  pose proof Hr as Hr0. unfold store_ready in Hr. rewrite !andb_true_iff in Hr.
  destruct Hr as (((((_ & Hw) & Hb) & _) & Hr1) & Hr2).
  apply bool_decide_eq_true in Hr1 as [r1 E1].
  pose proof (region_at_sound _ _ _ E1) as (Hlo1 & Hhi1 & _ & Hp1).
  pose proof (store_ready_bounds _ _ _ Hs Hr0) as (Hf0 & _ & _).
  apply store_transaction_spec; try done.
  - lia.
  - unfold page_protection. rewrite E1. apply Hp1. lia.
  - unfold page_protection. destruct (slot_spans slot) eqn:Hsp; cbn [negb orb] in Hr2.
    + apply andb_true_iff in Hr2 as [_ Hr2]. apply bool_decide_eq_true in Hr2 as [r2 E2].
      rewrite E2. apply (region_at_sound _ _ _) in E2 as (Hlo2 & Hhi2 & _ & Hp2).
      apply Hp2. lia.
    + unfold slot_spans in Hsp. replace (last_page slot) with (first_page slot) by lia.
      rewrite E1. apply Hp1. lia.
Qed.
End Store.

(** ** The laws of TPRO on the concrete kernel *)

Lemma sim_tpro_laws ptrauth config :
  TPROLaws sim (T := sim_target true true ptrauth config).
Proof.
  split.
  - intros k k' v (_ & _ & Ho). unfold window_open. cbn in *.
    by destruct (sim_enforced k), (sim_enforced k').
  - intros k _. unfold window_open. cbn. by destruct (sim_enforced k).
  - intros k a Hg. cbn in Hg. apply andb_true_iff in Hg as [Hg _].
    split_and!; [done|done|done|]. unfold window_open. cbn. rewrite Hg. by destruct config.
Qed.

#[export] Instance device_tpro : TPROLaws sim (T := device) := sim_tpro_laws _ _.
#[export] Instance legacy_device_tpro : TPROLaws sim (T := legacy_device) := sim_tpro_laws _ _.

(** A kernel interface whose [vm_protect] symbol has been hooked. *)
Definition hook_vm_protect {K} (f : K -> Z -> Z -> bool -> Z -> Z * K)
    (Kern : Kernel K) : Kernel K := {|
  vm_region_64 := vm_region_64;
  mach_port_deallocate := mach_port_deallocate;
  vm_protect := f;
  mach_vm_protect_trap := mach_vm_protect_trap;
  task_dyld_info := task_dyld_info;
  comm_page_u64 := comm_page_u64;
  mrs_tpro := mrs_tpro;
  msr_tpro := msr_tpro;
  os_security_config_get := os_security_config_get;
  prot_at := prot_at;
  tpro_gated := tpro_gated
|}.

Lemma hooked_protect {K} {T : Target} (f : K -> Z -> Z -> bool -> Z -> Z * K) (Kern : Kernel K) :
  RORK_HOOK_DEVICE_ARM64 = true ->
  @RorkHookProtectMemory K T (hook_vm_protect f Kern) = @RorkHookProtectMemory K T Kern.
Proof.
  intros Hd. unfold RorkHookProtectMemory, protect_call. by rewrite Hd.
Qed.

(** ** Properties *)

Section Properties.
Context {K : Type} {T : Target} {Kern : Kernel K}.
Context {Laws : KernelLaws K} {TLaws : TPROLaws K}.
Implicit Types σ : machine K.

(** C1: a protected pointer store is a transaction.  It returns [false] and
    changes nothing when the arguments or the pages are not [store_ready];
    otherwise it returns with the caller's write window as it was, memory
    outside the slot untouched, and one of three outcomes.  [true]: the value is
    written and every protection restored.  [false] after the kernel refused the
    request or the window did not open: memory and protections are unchanged.
    [false] after the request was accepted and the kernel refused to give a page of
    the slot its original protection back: the value is written, unless the window
    did not open.  It never faults, provided a refused request does not meet an
    unguarded read-only page in a TPRO process. *)
Theorem RorkHookStoreProtectedPointer_transaction σ slot value protection :
  is_u64 slot ->
  (fst (protect_op (kern σ) (first_page slot)
          (last_page slot - first_page slot + vm_page_size) protection) <> KERN_SUCCESS ->
   refusal_is_safe (kern σ) slot) ->
  wp (RorkHookStoreProtectedPointer slot value protection) σ (fun ok σ' =>
    if store_ready (kern σ) slot protection
    then store_contract slot value protection σ ok σ' else ok = false /\ σ' = σ).
Proof using Laws TLaws. apply RorkHookStoreProtectedPointer_spec. Qed.

(** C32: the case the transaction excludes.  In a TPRO process whose window can
    be open, a refused protection change of a page that TPRO does not guard and
    that is not writable leads to a store that faults. *)
Theorem RorkHookStoreProtectedPointer_unguarded σ slot value protection p :
  is_u64 slot -> store_ready (kern σ) slot protection = true ->
  uses_tpro (kern σ) = true -> window_opens (kern σ) = true ->
  fst (protect_op (kern σ) (first_page slot)
         (last_page slot - first_page slot + vm_page_size) protection) <> KERN_SUCCESS ->
  tpro_gated (kern σ) slot = false ->
  prot_at (kern σ) slot = Some p -> prot_has p VM_PROT_WRITE = false ->
  RorkHookStoreProtectedPointer slot value protection σ = Fault.
Proof using Laws TLaws.
  intros Hs Hr Hu Ho Hno Hg Hp Hw.
  rewrite RorkHookStoreProtectedPointer_eq by done. rewrite Hr.
  destruct (store_ready_bounds _ _ _ Hs Hr) as (Hf0 & Hsz & Hend).
  destruct (RorkHookProtectMemory_spec σ _ _ protection Hf0 Hsz Hend)
    as (r & k1 & Hop & E1 & S1 & W1 & _ & No1).
  rewrite Hop in Hno. unfold store_transaction. rewrite (bind_Ret _ _ _ _ _ E1).
  set (σ1 := Machine k1 _ _).
  destruct (open_window_spec σ1)
    as (σa & σ2 & sup & opened & restore & Es & Ea & Hsup & St2 & _ & Hshut & _).
  rewrite (bind_Ret _ _ _ _ _ Es), (bind_Ret _ _ _ _ _ Ea).
  rewrite (uses_tpro_stable (kern σ)), Hu in Hsup by done. subst sup.
  destruct opened.
  2:{ destruct (Hshut eq_refl eq_refl) as [_ Hsh].
      by rewrite (window_opens_stable (kern σ)), Ho in Hsh. }
  cbn [RorkHookProtectedPointerWriteIsAvailable].
  unfold bind at 1 2, store_bytes at 1.
  destruct (range_all _ _ _) eqn:Hall; [|done]. exfalso.
  rewrite range_all_spec in Hall. specialize (Hall slot).
  rewrite length_le_split in Hall. unfold writable in Hall.
  rewrite (steady_prot _ _ St2) in Hall. cbn [kern σ1] in Hall. rewrite (No1 Hno), Hp in Hall.
  rewrite (proj1 (same_process_trans _ _ _ S1 (steady_process _ _ St2))), Hg, Hw in Hall.
  assert (false = true) by (apply Hall; lia). done.
Qed.

(** Asking whether the process uses TPRO answers [uses_tpro], and the
    register probe it may run leaves memory, protections and the thread's write
    window as they were. *)
Theorem RorkHookSupportsTPRO_balanced σ :
  exists σ', RorkHookSupportsTPRO σ = Ret (uses_tpro (kern σ)) σ' /\ quiet σ σ'.
Proof using Laws TLaws. apply RorkHookSupportsTPRO_spec. Qed.

(** C30: opening the write window for a transaction and running the operation it
    hands back restores the thread's window.  It reports success exactly when
    the process uses TPRO and the window is open afterwards, leaves a window the
    caller had opened to the caller, and moves neither memory nor protections. *)
Theorem RorkHookAllowTPROWrites_balanced σ out :
  exists opened restore σ1 σ2,
    RorkHookAllowTPROWrites (Some out) σ = Ret (opened, Some restore) σ1 /\
    match restore with Some close => close | None => ret tt end σ1 = Ret tt σ2 /\
    opened = uses_tpro (kern σ) && (window_open (kern σ) || window_opens (kern σ)) /\
    (opened = true -> window_open (kern σ1) = true) /\
    (window_open (kern σ) = true -> restore = None) /\
    steady σ σ1 /\ quiet σ σ2.
Proof using Laws TLaws.
  destruct (RorkHookAllowTPROWrites_spec σ out) as (σ1 & o & r & Ha & St & Ho & Hc).
  destruct (close_window_spec σ1 (window_open (kern σ)) r) as (σ2 & Hr & St2 & Hw2).
  { destruct Hc as [(-> & -> & ?)|[(-> & -> & ? & ?)|(-> & -> & ? & ? & ?)]];
      [left|left|right]; split_and!; congruence. }
  exists o, r, σ1, σ2. split_and!; try done.
  - by destruct Hc as [(-> & _)|[(_ & _ & _ & ?)|(_ & _ & _ & _ & ?)]].
  - intros Hw. by destruct Hc as [(_ & -> & _)|[(_ & -> & _)|(_ & _ & _ & Hf & _)]];
      [| |rewrite Hw in Hf].
  - split; [by etrans|done].
Qed.

(** Restoring a slot's pages attempts both protections, the second also
    after the first is refused, and reports whether both were accepted. *)
Theorem RorkHookRestorePointerPageProtections_both σ firstPage lastPage pageSize p1 p2 :
  firstPage <> 0 -> lastPage <> 0 -> pageSize <> 0 ->
  exists r1 r2 σ',
    RorkHookRestorePointerPageProtections firstPage lastPage pageSize true p1 p2 σ =
      Ret ((r1 =? KERN_SUCCESS) && (r2 =? KERN_SUCCESS)) σ' /\
    log σ' = EvProtect lastPage pageSize p2 r2 :: EvProtect firstPage pageSize p1 r1 :: log σ /\
    mem σ' = mem σ.
Proof.
  intros H1%Z.eqb_neq H2%Z.eqb_neq H3%Z.eqb_neq.
  unfold RorkHookRestorePointerPageProtections, RorkHookProtectMemory, protect_call,
    RorkHookMachVMProtectTrap, kcall, bind, emit, ret. rewrite H1, H2, H3. cbn [orb].
  destruct RORK_HOOK_DEVICE_ARM64.
  - destruct (mach_vm_protect_trap _ firstPage _ _ _) as [r1 k1]. cbn [kern mem log].
    destruct (mach_vm_protect_trap _ lastPage _ _ _) as [r2 k2]. by do 3 eexists.
  - destruct (vm_protect _ firstPage _ _ _) as [r1 k1]. cbn [kern mem log].
    destruct (vm_protect _ lastPage _ _ _) as [r2 k2]. by do 3 eexists.
Qed.

(** C37: a protection change of a null or empty range is rejected without a
    call; any other range reaches the kernel, whose result is returned.  On
    success exactly the pages of the range have the requested protection, on
    failure none changed, and memory is untouched in both cases. *)
Theorem RorkHookProtectMemory_effect σ start size protection :
  is_u64 start -> is_u64 size -> start + size <= 2 ^ 64 ->
  exists r σ', RorkHookProtectMemory start size protection σ = Ret r σ' /\
    mem σ' = mem σ /\
    ((start = 0 \/ size = 0) /\ r = KERN_INVALID_ARGUMENT /\ σ' = σ \/
     start <> 0 /\ size <> 0 /\
     log σ' = EvProtect start size protection r :: log σ /\
     (r = KERN_SUCCESS -> forall a, prot_at (kern σ') a =
        if in_pages start size a then Some (Z.land protection 7) else prot_at (kern σ) a) /\
     (r <> KERN_SUCCESS -> same_prot (kern σ) (kern σ'))).
Proof using Laws.
  unfold is_u64. intros Hs Hz Hb. destruct (decide (start = 0 \/ size = 0)) as [H0|H0].
  - exists KERN_INVALID_ARGUMENT, σ. split_and!; [|done|by left].
    unfold RorkHookProtectMemory. by replace ((start =? 0) || (size =? 0)) with true by lia.
  - destruct (RorkHookProtectMemory_spec σ start size protection)
      as (r & k' & _ & E & _ & _ & Ok & No); [lia..|].
    do 2 eexists. split_and!; [exact E|done|]. right. split_and!; [lia|lia|done|done|done].
Qed.

(** C38: on a physical device the store does not go through the exported
    [vm_protect] symbol: hooking that symbol, whatever the hook does, changes
    nothing of what a protected pointer store does. *)
Theorem RorkHookStoreProtectedPointer_unhookable
    (hook : K -> Z -> Z -> bool -> Z -> Z * K) σ slot value protection :
  RORK_HOOK_DEVICE_ARM64 = true ->
  @RorkHookStoreProtectedPointer K T (hook_vm_protect hook Kern) slot value protection σ =
  RorkHookStoreProtectedPointer slot value protection σ.
Proof.
  intros Hd. pose proof (hooked_protect hook Kern Hd) as Hp.
  unfold RorkHookStoreProtectedPointer, store_transaction,
    RorkHookRestorePointerPageProtections. rewrite Hp. reflexivity.
Qed.
End Properties.

(** ** Witnesses *)

(** An 8-byte slot at [0x7ffc] that straddles a read-only and a writable page. *)
Definition straddling : machine sim := sim_machine [(1, 1); (2, 3)] [].

Lemma RorkHookStoreProtectedPointer_transaction_witness :
  result_of (RorkHookStoreProtectedPointer (T := device) 0x7ffc 0x1122334455667788 3 straddling) =
    Some true /\
  wp (RorkHookStoreProtectedPointer (T := device) 0x7ffc 0x1122334455667788 3) straddling
    (fun ok σ' =>
      if store_ready (T := device) (kern straddling) 0x7ffc 3
      then store_contract (T := device) 0x7ffc 0x1122334455667788 3 straddling ok σ'
      else ok = false /\ σ' = straddling).
Proof.
  split; [by vm_compute|].
  apply (RorkHookStoreProtectedPointer_transaction (T := device)).
  - split; done.
  - intros Hr. exfalso. apply Hr. by vm_compute.
Defined.

(** The third outcome: the request is accepted and the restoration refused.  The value
    is written, the page stays read-write, and the store reports failure. *)
Example restoration_refused :
  match RorkHookStoreProtectedPointer (T := device) 0x4000 7 3
          (scripted [KERN_SUCCESS; KERN_PROTECTION_FAILURE] straddling) with
  | Ret ok σ => (ok, peek_u64 σ 0x4000, prot_at (kern σ) 0x4000) = (false, 7, Some 3)
  | _ => False
  end.
Proof. by vm_compute. Qed.

(** A read-only page of a TPRO process that TPRO does not guard, with the
    protection change refused. *)
Definition unguarded : machine sim :=
  scripted [KERN_PROTECTION_FAILURE] (tpro_machine [(1, 1)] [] 1).

Lemma RorkHookStoreProtectedPointer_unguarded_witness :
  RorkHookStoreProtectedPointer (T := device) 0x4000 7 3 unguarded = Fault.
Proof.
  apply (RorkHookStoreProtectedPointer_unguarded (T := device) unguarded 0x4000 7 3 1).
  all: vm_compute; done.
Defined.

Lemma RorkHookRestorePointerPageProtections_both_witness :
  let σ := scripted [KERN_PROTECTION_FAILURE; KERN_SUCCESS] straddling in
  exists r1 r2 σ',
    RorkHookRestorePointerPageProtections (T := device) 0x4000 0x8000 0x4000 true 1 3 σ =
      Ret ((r1 =? KERN_SUCCESS) && (r2 =? KERN_SUCCESS)) σ' /\
    log σ' = EvProtect 0x8000 0x4000 3 r2 :: EvProtect 0x4000 0x4000 1 r1 :: log σ /\
    mem σ' = mem σ.
Proof.
  apply (RorkHookRestorePointerPageProtections_both (T := device)); done.
Defined.

Lemma RorkHookProtectMemory_effect_witness :
  exists r σ', RorkHookProtectMemory (T := arm64_host) 0x4000 0x4001 3 straddling = Ret r σ' /\
    mem σ' = mem straddling /\
    ((0x4000 = 0 \/ 0x4001 = 0) /\ r = KERN_INVALID_ARGUMENT /\ σ' = straddling \/
     0x4000 <> 0 /\ 0x4001 <> 0 /\
     log σ' = EvProtect 0x4000 0x4001 3 r :: log straddling /\
     (r = KERN_SUCCESS -> forall a, prot_at (kern σ') a =
        if in_pages (H := arm64_host) 0x4000 0x4001 a then Some (Z.land 3 7)
        else prot_at (kern straddling) a) /\
     (r <> KERN_SUCCESS -> same_prot (kern straddling) (kern σ'))).
Proof.
  apply (RorkHookProtectMemory_effect (T := arm64_host)); done.
Defined.

Lemma RorkHookStoreProtectedPointer_unhookable_witness :
  @RorkHookStoreProtectedPointer sim device
    (hook_vm_protect (fun k _ _ _ _ => (KERN_FAILURE, k)) sim_kernel) 0x7ffc 7 3 straddling =
  RorkHookStoreProtectedPointer (T := device) 0x7ffc 7 3 straddling.
Proof.
  apply (RorkHookStoreProtectedPointer_unhookable (T := device)); done.
Defined.

(** A TPRO process with a guarded page, its window closed, on a build that has to
    probe the register. *)
Definition guarded : machine sim := tpro_machine [(1, 1)] [1] 1.

Lemma RorkHookSupportsTPRO_balanced_witness :
  let _ := legacy_device in
  result_of (RorkHookSupportsTPRO guarded) = Some true /\
  exists σ', RorkHookSupportsTPRO guarded = Ret (uses_tpro (kern guarded)) σ' /\ quiet guarded σ'.
Proof.
  intros D. split; [by vm_compute|]. apply (RorkHookSupportsTPRO_balanced (T := legacy_device)).
Defined.

Lemma RorkHookAllowTPROWrites_balanced_witness :
  let _ := legacy_device in
  fst <$> result_of (RorkHookAllowTPROWrites (Some None) guarded) = Some true /\
  exists opened restore σ1 σ2,
    RorkHookAllowTPROWrites (Some None) guarded = Ret (opened, Some restore) σ1 /\
    match restore with Some close => close | None => ret tt end σ1 = Ret tt σ2 /\
    opened = uses_tpro (kern guarded) &&
             (window_open (kern guarded) || window_opens (kern guarded)) /\
    (opened = true -> window_open (kern σ1) = true) /\
    (window_open (kern guarded) = true -> restore = None) /\
    steady guarded σ1 /\ quiet guarded σ2.
Proof.
  intros D. split; [by vm_compute|].
  apply (RorkHookAllowTPROWrites_balanced (T := legacy_device)).
Defined.
