(* ===== verification/Arm64.v ===== *)
(** Arm64 instruction words: the decoders of RorkHookArm64.c, related to the
    instructions whose encodings they recognise. *)
From S2P Require Import Prelude Machine Logic Sim.

(** ** Operations *)

Definition RorkHookAddSignedOffset (base offset : Z) (resultOut : option Z)
    : bool * option Z :=
  match resultOut with
  | None => (false, None)
  | Some _ =>
      if offset <? 0 then
        let magnitude := u64 (u64 (- (offset + 1)) + 1) in
        if (UINTPTR_MAX <? magnitude) || (base <? magnitude) then (false, resultOut)
        else (true, Some (u64 (base - magnitude)))
      else
        let magnitude := u64 offset in
        if (UINTPTR_MAX <? magnitude) || (u64 (UINTPTR_MAX - magnitude) <? base)
        then (false, resultOut)
        else (true, Some (u64 (base + magnitude)))
  end.

Definition RorkHookArm64SignExtend (value bits : Z) : Z :=
  if (bits <=? 0) || (64 <? bits) then 0 else
  if bits =? 64 then s64 value else
  let value := Z.land value (u64 (Z.shiftl 1 bits - 1)) in
  let signBit := Z.shiftl 1 (bits - 1) in
  s64 (u64 (Z.lxor value signBit - signBit)).

Definition RorkHookDecodeADRP (instruction pc : Z) (targetRegister pageAddress : option Z)
    : bool * (option Z * option Z) :=
  let unchanged := (targetRegister, pageAddress) in
  match targetRegister, pageAddress with
  | Some _, Some _ =>
      if negb (Z.land instruction 0x9f000000 =? 0x90000000) then (false, unchanged) else
      let immlo := Z.land (Z.shiftr instruction 29) 0x3 in
      let immhi := Z.land (Z.shiftr instruction 5) 0x7ffff in
      let signedPages := RorkHookArm64SignExtend (Z.lor (u64 (Z.shiftl immhi 2)) immlo) 21 in
      let '(fits, decodedPage) :=
        RorkHookAddSignedOffset (Z.land pc (u64 (Z.lnot 0xfff))) (signedPages * 4096) (Some 0) in
      if negb fits then (false, unchanged) else
      (true, (Some (u8 (Z.land instruction 0x1f)), decodedPage))
  | _, _ => (false, unchanged)
  end.

Definition RorkHookDecodeADDImmediate (instruction baseRegister : Z) (offset : option Z)
    : bool * option Z :=
  match offset with
  | None => (false, None)
  | Some _ =>
      if negb (Z.land instruction 0xff800000 =? 0x91000000) then (false, offset) else
      let destination := u8 (Z.land instruction 0x1f) in
      let source := u8 (Z.land (Z.shiftr instruction 5) 0x1f) in
      if negb (destination =? baseRegister) || negb (source =? baseRegister)
      then (false, offset) else
      let imm12 := Z.land (Z.shiftr instruction 10) 0xfff in
      let shift := Z.land (Z.shiftr instruction 22) 0x3 in
      (true, Some (if shift =? 1 then u64 (Z.shiftl imm12 12) else imm12))
  end.

Definition RorkHookDecodeLDRUnsigned64 (instruction baseRegister : Z) (offset : option Z)
    : bool * option Z :=
  match offset with
  | None => (false, None)
  | Some _ =>
      if negb (Z.land instruction 0xffc00000 =? 0xf9400000) then (false, offset) else
      let source := u8 (Z.land (Z.shiftr instruction 5) 0x1f) in
      if negb (source =? baseRegister) then (false, offset) else
      let imm12 := Z.land (Z.shiftr instruction 10) 0xfff in
      (true, Some (u64 (Z.shiftl imm12 3)))
  end.

Definition RorkHookDecodeLDRUnsignedOffset64 (instruction : Z) (offset : option Z)
    : bool * option Z :=
  match offset with
  | None => (false, None)
  | Some _ =>
      if negb (Z.land instruction 0xffc00000 =? 0xf9400000) then (false, offset) else
      let imm12 := Z.land (Z.shiftr instruction 10) 0xfff in
      (true, Some (u64 (Z.shiftl imm12 3)))
  end.

Definition RorkHookDecodeLDRSignedPreIndex64 (instruction : Z) (offset : option Z)
    : bool * option Z :=
  match offset with
  | None => (false, None)
  | Some _ =>
      if negb (Z.land instruction 0xffe00c00 =? 0xf8400c00) then (false, offset) else
      let imm9 := Z.land (Z.shiftr instruction 12) 0x1ff in
      (true, Some (RorkHookArm64SignExtend imm9 9))
  end.

Definition RorkHookDecodeLDUR64 (instruction baseRegister : Z) (offset : option Z)
    : bool * option Z :=
  match offset with
  | None => (false, None)
  | Some _ =>
      if negb (Z.land instruction 0xffe00c00 =? 0xf8400000) then (false, offset) else
      let source := u8 (Z.land (Z.shiftr instruction 5) 0x1f) in
      if negb (source =? baseRegister) then (false, offset) else
      let imm9 := Z.land (Z.shiftr instruction 12) 0x1ff in
      (true, Some (RorkHookArm64SignExtend imm9 9))
  end.

Definition RorkHookDecodeMOVZImmediate (instruction : Z) (value : option Z)
    : bool * option Z :=
  match value with
  | None => (false, None)
  | Some _ =>
      if negb (Z.land instruction 0xff800000 =? 0xd2800000) then (false, value) else
      let imm16 := Z.land (Z.shiftr instruction 5) 0xffff in
      let shift := u32 (Z.land (Z.shiftr instruction 21) 0x3 * 16) in
      (true, Some (u64 (Z.shiftl imm16 shift)))
  end.

Section FollowOneBranch.
Context {K : Type} {Kern : Kernel K}.

Definition RorkHookFollowOneBranch (instructions : Z) : M K Z :=
  if instructions =? NULL then ret instructions else
  let* instruction := load_u32 instructions in
  if negb (Z.land instruction 0xfc000000 =? 0x14000000) then ret instructions else
  let imm26 := RorkHookArm64SignExtend (Z.land instruction 0x03ffffff) 26 in
  let '(fits, target) := RorkHookAddSignedOffset instructions (imm26 * 4) (Some 0) in
  if negb fits then ret instructions else
  ret (default 0 target).
End FollowOneBranch.

(** ** The instructions

    The 64-bit forms the library reads or writes, with their operands as the
    architecture gives them, and the words that encode them. *)
Inductive instr :=
| ADRP (rd imm : Z)                 (* signed page count *)
| ADDi (rd rn imm12 sh : Z)
| LDRu (rt rn imm12 : Z)            (* unsigned scaled offset *)
| LDRpre (rt rn simm9 : Z)          (* signed pre-index *)
| LDUR (rt rn simm9 : Z)
| MOVZ (rd imm16 hw : Z)
| MOVK (rd imm16 hw : Z)
| B (simm26 : Z)
| BL (simm26 : Z)
| BR (rn : Z).

Definition encode (i : instr) : Z :=
  match i with
  | ADRP rd imm =>
      (imm mod 4) * 2 ^ 29 + 0x90000000 + ((imm / 4) mod 2 ^ 19) * 2 ^ 5 + rd
  | ADDi rd rn imm12 sh => 0x91000000 + sh * 2 ^ 22 + imm12 * 2 ^ 10 + rn * 2 ^ 5 + rd
  | LDRu rt rn imm12 => 0xf9400000 + imm12 * 2 ^ 10 + rn * 2 ^ 5 + rt
  | LDRpre rt rn simm9 => 0xf8400000 + (simm9 mod 2 ^ 9) * 2 ^ 12 + 0xc00 + rn * 2 ^ 5 + rt
  | LDUR rt rn simm9 => 0xf8400000 + (simm9 mod 2 ^ 9) * 2 ^ 12 + rn * 2 ^ 5 + rt
  | MOVZ rd imm16 hw => 0xd2800000 + hw * 2 ^ 21 + imm16 * 2 ^ 5 + rd
  | MOVK rd imm16 hw => 0xf2800000 + hw * 2 ^ 21 + imm16 * 2 ^ 5 + rd
  | B simm26 => 0x14000000 + simm26 mod 2 ^ 26
  | BL simm26 => 0x94000000 + simm26 mod 2 ^ 26
  | BR rn => 0xd61f0000 + rn * 2 ^ 5
  end.

Definition is_reg (r : Z) : Prop := 0 <= r < 32.
Definition is_signed (n v : Z) : Prop := - 2 ^ (n - 1) <= v < 2 ^ (n - 1).

Definition wf_instr (i : instr) : Prop :=
  match i with
  | ADRP rd imm => is_reg rd /\ is_signed 21 imm
  | ADDi rd rn imm12 sh => is_reg rd /\ is_reg rn /\ 0 <= imm12 < 2 ^ 12 /\ 0 <= sh < 2
  | LDRu rt rn imm12 => is_reg rt /\ is_reg rn /\ 0 <= imm12 < 2 ^ 12
  | LDRpre rt rn simm9 | LDUR rt rn simm9 => is_reg rt /\ is_reg rn /\ is_signed 9 simm9
  | MOVZ rd imm16 hw | MOVK rd imm16 hw => is_reg rd /\ 0 <= imm16 < 2 ^ 16 /\ 0 <= hw < 4
  | B simm26 | BL simm26 => is_signed 26 simm26
  | BR rn => is_reg rn
  end.

(** [dec] recognises exactly the encodings of the instructions [meaning] is
    defined on, and returns what [meaning] gives them: any other word, and a
    missing output, is refused with the output untouched. *)
Record decodes {A} (dec : Z -> option A -> bool * option A) (meaning : instr -> option A)
    : Prop := {
  dec_accepts i v old :
    wf_instr i -> meaning i = Some v -> dec (encode i) (Some old) = (true, Some v);
  dec_rejects w old :
    is_u32 w -> (forall i v, wf_instr i -> meaning i = Some v -> w <> encode i) ->
    dec w (Some old) = (false, Some old);
  dec_null w : dec w None = (false, None)
}.

(** ** Sign extension and signed displacements *)

(** The two's-complement reading of the low [n] bits. *)
Definition sign_extend (n v : Z) : Z :=
  let f := v mod 2 ^ n in if f <? 2 ^ (n - 1) then f else f - 2 ^ n.

Lemma lxor_pow2 k x : 0 <= k -> 0 <= x < 2 ^ (k + 1) ->
  Z.lxor x (2 ^ k) = if x <? 2 ^ k then x + 2 ^ k else x - 2 ^ k.
Proof.
  intros Hk Hx. rewrite Z.pow_add_r in Hx by lia.
  assert (forall y, 0 <= y < 2 ^ k -> Z.lxor y (2 ^ k) = y + 2 ^ k) as Hlow.
  { intros y Hy. symmetry. apply Z.add_nocarry_lxor.
    rewrite <- (Z.mod_small y (2 ^ k)) by done. rewrite <- Z.land_ones by lia.
    rewrite <- Z.land_assoc, (Z.land_comm (Z.ones k)), Z.land_ones, Z_mod_same_full by lia.
    apply Z.land_0_r. }
  destruct (Z.ltb_spec x (2 ^ k)); [apply Hlow; lia|].
  replace x with (Z.lxor (x - 2 ^ k) (2 ^ k)) at 1 by (rewrite Hlow; lia).
  by rewrite Z.lxor_assoc, Z.lxor_nilpotent, Z.lxor_0_r.
Qed.

Lemma sign_extend_range n v : 0 < n -> is_signed n (sign_extend n v).
Proof.
  intros Hn. unfold is_signed, sign_extend.
  assert (2 ^ n = 2 * 2 ^ (n - 1)) as E.
  { rewrite <- Z.pow_succ_r by lia. f_equal. lia. }
  pose proof (Z.mod_pos_bound v (2 ^ n)). destruct (Z.ltb_spec (v mod 2 ^ n) (2 ^ (n - 1))); lia.
Qed.

Lemma sign_extend_signed n v : 0 < n -> is_signed n v -> sign_extend n (v mod 2 ^ n) = v.
Proof.
  intros Hn. unfold is_signed, sign_extend.
  assert (2 ^ n = 2 * 2 ^ (n - 1)) as E.
  { rewrite <- Z.pow_succ_r by lia. f_equal. lia. }
  rewrite Z.mod_mod by lia. intros Hv. destruct (Z.ltb_spec v 0).
  - replace (v mod 2 ^ n) with (v + 2 ^ n).
    2:{ apply Z.mod_unique_pos with (-1); lia. }
    destruct (Z.ltb_spec (v + 2 ^ n) (2 ^ (n - 1))); lia.
  - rewrite Z.mod_small by lia. destruct (Z.ltb_spec v (2 ^ (n - 1))); lia.
Qed.

Lemma RorkHookArm64SignExtend_eq value bits :
  is_u64 value -> 0 < bits <= 64 ->
  RorkHookArm64SignExtend value bits = sign_extend bits value.
Proof.
  intros Hv Hb. unfold RorkHookArm64SignExtend. replace (_ || _) with false by lia.
  destruct (Z.eqb_spec bits 64) as [->|Hne].
  - unfold s64, sign_extend, is_u64 in *. change (64 - 1) with 63. rewrite (Z.mod_small value) by done.
    destruct (Z.ltb_spec value (2 ^ 63)).
    + rewrite Z.mod_small; lia.
    + replace (value + 2 ^ 63) with (value - 2 ^ 63 + 1 * 2 ^ 64) by lia.
      rewrite Z.mod_add, Z.mod_small; lia.
  - assert (2 ^ bits = 2 * 2 ^ (bits - 1)) as E.
    { rewrite <- Z.pow_succ_r by lia. f_equal. lia. }
    assert (2 ^ bits <= 2 ^ 63) by (apply Z.pow_le_mono_r; lia).
    assert (0 < 2 ^ (bits - 1)) by (apply Z.pow_pos_nonneg; lia).
    rewrite !Z.shiftl_1_l. rewrite (u64_small (2 ^ bits - 1)) by (unfold is_u64; lia).
    replace (2 ^ bits - 1) with (Z.ones bits) by (rewrite Z.ones_equiv; lia).
    rewrite Z.land_ones by lia. pose proof (Z.mod_pos_bound value (2 ^ bits)).
    cbv zeta. rewrite lxor_pow2 by (rewrite ?Z.sub_add; lia). unfold sign_extend.
    destruct (Z.ltb_spec (value mod 2 ^ bits) (2 ^ (bits - 1))).
    + rewrite u64_small by (unfold is_u64; lia). rewrite s64_small by (unfold is_s64; lia). lia.
    + unfold u64. replace (_ - _) with (value mod 2 ^ bits - 2 ^ bits) at 1 by lia.
      replace (value mod 2 ^ bits - 2 ^ bits)
        with (value mod 2 ^ bits - 2 ^ bits + 2 ^ 64 + (-1) * 2 ^ 64) by lia.
      rewrite Z.mod_add, Z.mod_small by lia. unfold s64.
      replace (value mod 2 ^ bits - 2 ^ bits + 2 ^ 64 + 2 ^ 63)
        with (value mod 2 ^ bits - 2 ^ bits + 2 ^ 63 + 1 * 2 ^ 64) by lia.
      rewrite Z.mod_add, Z.mod_small; lia.
Qed.

Lemma RorkHookAddSignedOffset_eq base offset old :
  is_u64 base -> is_s64 offset ->
  RorkHookAddSignedOffset base offset (Some old) =
  if (0 <=? base + offset) && (base + offset <=? UINTPTR_MAX)
  then (true, Some (base + offset)) else (false, Some old).
Proof.
  unfold is_u64, is_s64, RorkHookAddSignedOffset, UINTPTR_MAX, UINT64_MAX. intros Hb Ho.
  destruct (Z.ltb_spec offset 0).
  - rewrite (u64_small (- (offset + 1))), (u64_small (_ + 1)) by (unfold is_u64; lia).
    destruct ((0 <=? _) && _) eqn:E; destruct (_ || _) eqn:E'; try lia; [|done].
    rewrite u64_small by (unfold is_u64; lia). do 2 f_equal. lia.
  - rewrite (u64_small offset) by (unfold is_u64; lia).
    rewrite (u64_small (_ - offset)) by (unfold is_u64; lia).
    destruct ((0 <=? _) && _) eqn:E; destruct (_ || _) eqn:E'; try lia; [|done].
    by rewrite u64_small by (unfold is_u64; lia).
Qed.

(** ** Fields of instruction words *)

Lemma lor_shiftl a b k : 0 <= k -> 0 <= b < 2 ^ k -> Z.lor (Z.shiftl a k) b = a * 2 ^ k + b.
Proof.
  intros Hk Hb. rewrite <- Z.shiftl_mul_pow2 by lia. symmetry.
  rewrite <- Z.lxor_lor, <- Z.add_nocarry_lxor; [done|..];
    rewrite <- (Z.mod_small b (2 ^ k)), <- Z.land_ones by lia;
    apply Z.bits_inj'; intros i Hi;
    rewrite !Z.land_spec, Z.shiftl_spec, Z.bits_0 by lia;
    (destruct (Z.ltb_spec i k);
     [by rewrite Z.testbit_neg_r by lia
     |by rewrite Z.ones_spec_high, !andb_false_r by lia]).
Qed.

(** A mask of two runs of ones. *)
Lemma mask2_eqb w k1 n1 v1 k2 n2 v2 :
  0 <= k2 -> 0 <= n2 -> k2 + n2 <= k1 -> 0 <= n1 -> 0 <= v2 < 2 ^ n2 ->
  (Z.land w (Z.shiftl (Z.ones n1) k1 + Z.shiftl (Z.ones n2) k2) =?
   Z.shiftl v1 k1 + Z.shiftl v2 k2) =
  (field w k1 n1 =? v1) && (field w k2 n2 =? v2).
Proof.
  intros Hk2 Hn2 Hk1 Hn1 Hv2.
  assert (forall x, 0 <= x < 2 ^ n2 -> 0 <= Z.shiftl x k2 < 2 ^ k1) as Hsmall.
  { intros x Hx. rewrite Z.shiftl_mul_pow2 by lia.
    assert (2 ^ n2 * 2 ^ k2 <= 2 ^ k1).
    { rewrite <- Z.pow_add_r by lia. apply Z.pow_le_mono_r; lia. }
    assert (0 < 2 ^ k2) by (apply Z.pow_pos_nonneg; lia). nia. }
  assert (forall a x, 0 <= x < 2 ^ n2 ->
    Z.shiftl a k1 + Z.shiftl x k2 = Z.lor (Z.shiftl a k1) (Z.shiftl x k2)) as Hor.
  { intros a x Hx. rewrite lor_shiftl by (try apply Hsmall; lia).
    by rewrite (Z.shiftl_mul_pow2 a) by lia. }
  assert (0 < 2 ^ n2) as Hp by (apply Z.pow_pos_nonneg; lia).
  rewrite (Hor (Z.ones n1)) by (rewrite Z.ones_equiv; lia).
  rewrite Z.land_lor_distr_r, !land_shifted_ones by lia.
  rewrite <- !Z.shiftl_mul_pow2 by lia. pose proof (field_range w k2 n2 Hn2) as Hf2.
  rewrite <- Hor by lia. rewrite !(Z.shiftl_mul_pow2 _ k1) by lia.
  pose proof (Hsmall _ Hv2). pose proof (Hsmall _ Hf2).
  destruct (Z.eqb_spec (field w k1 n1) v1) as [->|Hne].
  - cbn [andb]. rewrite !Z.shiftl_mul_pow2 by lia.
    assert (0 < 2 ^ k2) by (apply Z.pow_pos_nonneg; lia).
    destruct (Z.eqb_spec (field w k2 n2) v2) as [->|Hne]; [by rewrite Z.eqb_refl|].
    apply Z.eqb_neq. nia.
  - apply Z.eqb_neq. cbn [andb]. nia.
Qed.

(** Turns fields of concrete width and position into arithmetic. *)
Ltac field_lia :=
  unfold field, is_u32, is_reg, is_signed in *;
  repeat match goal with
  | |- context [2 ^ ?k] => let v := eval vm_compute in (2 ^ k) in change (2 ^ k) with v in *
  | H : context [2 ^ ?k] |- _ => let v := eval vm_compute in (2 ^ k) in change (2 ^ k) with v in *
  end;
  Z.div_mod_to_equations; lia.

Section Words.
Context (w : Z) (Hw : is_u32 w).

Lemma mask_ADRP :
  (Z.land w 0x9f000000 =? 0x90000000) = (field w 31 1 =? 1) && (field w 24 5 =? 16).
Proof. exact (mask2_eqb w 31 1 1 24 5 16 ltac:(done) ltac:(done) ltac:(done) ltac:(done) ltac:(done)). Qed.
Lemma mask_ADDi : (Z.land w 0xff800000 =? 0x91000000) = (field w 23 9 =? 0x122).
Proof. exact (mask_eqb w 23 9 0x122 ltac:(done) ltac:(done)). Qed.
Lemma mask_LDRu : (Z.land w 0xffc00000 =? 0xf9400000) = (field w 22 10 =? 0x3e5).
Proof. exact (mask_eqb w 22 10 0x3e5 ltac:(done) ltac:(done)). Qed.
Lemma mask_LDRpre :
  (Z.land w 0xffe00c00 =? 0xf8400c00) = (field w 21 11 =? 0x7c2) && (field w 10 2 =? 3).
Proof. exact (mask2_eqb w 21 11 0x7c2 10 2 3 ltac:(done) ltac:(done) ltac:(done) ltac:(done) ltac:(done)). Qed.
Lemma mask_LDUR :
  (Z.land w 0xffe00c00 =? 0xf8400000) = (field w 21 11 =? 0x7c2) && (field w 10 2 =? 0).
Proof. exact (mask2_eqb w 21 11 0x7c2 10 2 0 ltac:(done) ltac:(done) ltac:(done) ltac:(done) ltac:(done)). Qed.
Lemma mask_MOVZ : (Z.land w 0xff800000 =? 0xd2800000) = (field w 23 9 =? 0x1a5).
Proof. exact (mask_eqb w 23 9 0x1a5 ltac:(done) ltac:(done)). Qed.
Lemma mask_B : (Z.land w 0xfc000000 =? 0x14000000) = (field w 26 6 =? 5).
Proof. exact (mask_eqb w 26 6 5 ltac:(done) ltac:(done)). Qed.
End Words.

Lemma low_field w n : 0 <= n -> Z.land w (Z.ones n) = field w 0 n.
Proof. intros. by rewrite <- land_shiftr_field, Z.shiftr_0_r. Qed.

Lemma register_field w k : 0 <= k -> u8 (Z.land (Z.shiftr w k) 0x1f) = field w k 5.
Proof.
  intros. change 0x1f with (Z.ones 5). rewrite land_shiftr_field by lia. apply u8_small.
  pose proof (field_range w k 5 ltac:(lia)). unfold is_u8. lia.
Qed.

Lemma low_register_field w : u8 (Z.land w 0x1f) = field w 0 5.
Proof. rewrite <- register_field by lia. by rewrite Z.shiftr_0_r. Qed.

(** ** Decoders of one offset or value *)

Section Decoders.
Context (w old : Z).

Lemma RorkHookDecodeADDImmediate_eq b :
  RorkHookDecodeADDImmediate w b (Some old) =
  if (field w 23 9 =? 0x122) && (field w 0 5 =? b) && (field w 5 5 =? b)
  then (true, Some (if field w 22 2 =? 1 then field w 10 12 * 2 ^ 12 else field w 10 12))
  else (false, Some old).
Proof.
  unfold RorkHookDecodeADDImmediate.
  rewrite mask_ADDi, low_register_field, register_field by done.
  change 0xfff with (Z.ones 12). change 0x3 with (Z.ones 2).
  rewrite !land_shiftr_field, Z.shiftl_mul_pow2 by done.
  pose proof (field_range w 10 12 ltac:(done)). rewrite u64_small by (unfold is_u64; lia).
  by destruct (_ =? 0x122), (field w 0 5 =? b), (field w 5 5 =? b).
Qed.

Lemma scaled_offset :
  u64 (Z.shiftl (Z.land (Z.shiftr w 10) 0xfff) 3) = field w 10 12 * 8.
Proof.
  change 0xfff with (Z.ones 12). rewrite land_shiftr_field, Z.shiftl_mul_pow2 by done.
  pose proof (field_range w 10 12 ltac:(done)). by rewrite u64_small by (unfold is_u64; lia).
Qed.

Lemma signed_offset :
  RorkHookArm64SignExtend (Z.land (Z.shiftr w 12) 0x1ff) 9 = sign_extend 9 (field w 12 9).
Proof.
  change 0x1ff with (Z.ones 9). rewrite land_shiftr_field by done.
  pose proof (field_range w 12 9 ltac:(done)).
  by rewrite RorkHookArm64SignExtend_eq by (unfold is_u64; lia).
Qed.

Lemma RorkHookDecodeLDRUnsignedOffset64_eq :
  RorkHookDecodeLDRUnsignedOffset64 w (Some old) =
  if field w 22 10 =? 0x3e5 then (true, Some (field w 10 12 * 8)) else (false, Some old).
Proof.
  unfold RorkHookDecodeLDRUnsignedOffset64. rewrite mask_LDRu, scaled_offset.
  by destruct (_ =? _).
Qed.

Lemma RorkHookDecodeLDRUnsigned64_eq b :
  RorkHookDecodeLDRUnsigned64 w b (Some old) =
  if (field w 22 10 =? 0x3e5) && (field w 5 5 =? b)
  then (true, Some (field w 10 12 * 8)) else (false, Some old).
Proof.
  unfold RorkHookDecodeLDRUnsigned64. rewrite mask_LDRu, scaled_offset, register_field by done.
  by destruct (field w 22 10 =? _), (field w 5 5 =? b).
Qed.

Lemma RorkHookDecodeLDRSignedPreIndex64_eq :
  RorkHookDecodeLDRSignedPreIndex64 w (Some old) =
  if (field w 21 11 =? 0x7c2) && (field w 10 2 =? 3)
  then (true, Some (sign_extend 9 (field w 12 9))) else (false, Some old).
Proof.
  unfold RorkHookDecodeLDRSignedPreIndex64. rewrite mask_LDRpre, signed_offset.
  by destruct (_ && _).
Qed.

Lemma RorkHookDecodeLDUR64_eq b :
  RorkHookDecodeLDUR64 w b (Some old) =
  if (field w 21 11 =? 0x7c2) && (field w 10 2 =? 0) && (field w 5 5 =? b)
  then (true, Some (sign_extend 9 (field w 12 9))) else (false, Some old).
Proof.
  unfold RorkHookDecodeLDUR64. rewrite mask_LDUR, signed_offset, register_field by done.
  by destruct (field w 21 11 =? _), (field w 10 2 =? _), (field w 5 5 =? b).
Qed.

Lemma RorkHookDecodeMOVZImmediate_eq :
  RorkHookDecodeMOVZImmediate w (Some old) =
  if field w 23 9 =? 0x1a5
  then (true, Some (field w 5 16 * 2 ^ (16 * field w 21 2))) else (false, Some old).
Proof.
  unfold RorkHookDecodeMOVZImmediate. rewrite mask_MOVZ.
  change 0xffff with (Z.ones 16). change 0x3 with (Z.ones 2).
  rewrite !land_shiftr_field by done. destruct (_ =? _); [|done]. cbn [negb].
  pose proof (field_range w 5 16 ltac:(done)). pose proof (field_range w 21 2 ltac:(done)).
  rewrite u32_small by (unfold is_u32; lia). rewrite Z.shiftl_mul_pow2 by lia.
  rewrite (Z.mul_comm (field w 21 2)). rewrite u64_small; [done|].
  assert (2 ^ (16 * field w 21 2) <= 2 ^ 48) by (apply Z.pow_le_mono_r; lia).
  assert (0 < 2 ^ (16 * field w 21 2)) by (apply Z.pow_pos_nonneg; lia).
  unfold is_u64. nia.
Qed.
End Decoders.

(** *** Exactness

      A word whose fixed fields have the opcode's value is the encoding of its
      operand fields. *)

Lemma decode_ADDi b :
  decodes (fun w => RorkHookDecodeADDImmediate w b)
    (fun i => match i with
              | ADDi rd rn imm12 sh =>
                  if (rd =? b) && (rn =? b) then Some (imm12 * 2 ^ (12 * sh)) else None
              | _ => None
              end).
Proof.
  split; [| |done].
  - intros [|rd rn imm12 sh| | | | | | | |] v old Hwf; try done.
    destruct Hwf as (Hd & Hn & Hi & Hs).
    destruct ((_ =? b) && _) eqn:E; intros [= <-].
    rewrite RorkHookDecodeADDImmediate_eq. cbn [encode]. set (w := _ + rd).
    assert (field w 23 9 = 0x122 /\ field w 0 5 = rd /\ field w 5 5 = rn /\
            field w 22 2 = sh /\ field w 10 12 = imm12) as (-> & -> & -> & -> & ->).
    { subst w. clear E. split_and!; field_lia. }
    rewrite Z.eqb_refl. cbn [andb]. rewrite E.
    assert (sh = 0 \/ sh = 1) as [-> | ->] by lia; cbn [Z.eqb]; do 2 f_equal. lia.
  - intros w old Hw Hno. rewrite RorkHookDecodeADDImmediate_eq.
    destruct ((_ =? 0x122) && _ && _) eqn:E; [exfalso|done].
    rewrite !andb_true_iff, !Z.eqb_eq in E. destruct E as ((Hop & Hd) & Hn).
    eapply (Hno (ADDi (field w 0 5) (field w 5 5) (field w 10 12) (field w 22 2)));
      [split_and!; field_lia|by rewrite Hd, Hn, Z.eqb_refl|].
    cbn [encode]. clear Hd Hn. field_lia.
Qed.

Lemma decode_LDRu :
  decodes RorkHookDecodeLDRUnsignedOffset64
    (fun i => match i with LDRu _ _ imm12 => Some (imm12 * 8) | _ => None end).
Proof.
  split; [| |done].
  - intros [| |rt rn imm12| | | | | | |] v old Hwf; try done. intros [= <-].
    destruct Hwf as (Ht & Hn & Hi). rewrite RorkHookDecodeLDRUnsignedOffset64_eq.
    cbn [encode]. set (w := _ + rt).
    assert (field w 22 10 = 0x3e5 /\ field w 10 12 = imm12) as (-> & ->); [|done].
    subst w. split_and!; field_lia.
  - intros w old Hw Hno. rewrite RorkHookDecodeLDRUnsignedOffset64_eq.
    destruct (Z.eqb_spec (field w 22 10) 0x3e5) as [Hop|]; [exfalso|done].
    eapply (Hno (LDRu (field w 0 5) (field w 5 5) (field w 10 12)));
      [split_and!; field_lia|done|]. cbn [encode]. field_lia.
Qed.

Lemma decode_LDRu_base b :
  decodes (fun w => RorkHookDecodeLDRUnsigned64 w b)
    (fun i => match i with
              | LDRu _ rn imm12 => if rn =? b then Some (imm12 * 8) else None
              | _ => None
              end).
Proof.
  split; [| |done].
  - intros [| |rt rn imm12| | | | | | |] v old Hwf; try done.
    destruct (rn =? b) eqn:E; intros [= <-].
    destruct Hwf as (Ht & Hn & Hi). rewrite RorkHookDecodeLDRUnsigned64_eq.
    cbn [encode]. set (w := _ + rt).
    assert (field w 22 10 = 0x3e5 /\ field w 5 5 = rn /\ field w 10 12 = imm12)
      as (-> & -> & ->); [subst w; clear E; split_and!; field_lia|].
    by rewrite E.
  - intros w old Hw Hno. rewrite RorkHookDecodeLDRUnsigned64_eq.
    destruct ((_ =? 0x3e5) && _) eqn:E; [exfalso|done].
    rewrite !andb_true_iff, !Z.eqb_eq in E. destruct E as (Hop & Hn).
    eapply (Hno (LDRu (field w 0 5) (field w 5 5) (field w 10 12)));
      [split_and!; field_lia|by rewrite Hn, Z.eqb_refl|].
    cbn [encode]. clear Hn. field_lia.
Qed.

(** The signed operand survives its 9-bit encoding, and any 9-bit field is the
    encoding of the operand it is read as. *)
Lemma sign_extend_mod n f : 0 < n -> 0 <= f < 2 ^ n -> sign_extend n f mod 2 ^ n = f.
Proof.
  intros Hn Hf. unfold sign_extend. rewrite (Z.mod_small f) by done.
  destruct (_ <? _); [by apply Z.mod_small|].
  replace (f - 2 ^ n) with (f + (-1) * 2 ^ n) by lia. by rewrite Z.mod_add, Z.mod_small by lia.
Qed.

Lemma reg_field w k : is_reg (field w k 5).
Proof. by apply field_range. Qed.

Lemma decode_LDRpre :
  decodes RorkHookDecodeLDRSignedPreIndex64
    (fun i => match i with LDRpre _ _ simm9 => Some simm9 | _ => None end).
Proof.
  split; [| |done].
  - intros [| | |rt rn simm9| | | | | |] v old Hwf; try done. intros [= <-].
    destruct Hwf as (Ht & Hn & Hi). rewrite RorkHookDecodeLDRSignedPreIndex64_eq.
    cbn [encode]. set (w := _ + rt).
    pose proof (Z.mod_pos_bound simm9 (2 ^ 9) ltac:(done)) as Hm.
    assert (field w 21 11 = 0x7c2 /\ field w 10 2 = 3 /\ field w 12 9 = simm9 mod 2 ^ 9)
      as (-> & -> & ->).
    { subst w. generalize dependent (simm9 mod 2 ^ 9). clear Hi. intros m Hm.
      split_and!; field_lia. }
    cbn. by rewrite sign_extend_signed.
  - intros w old Hw Hno. rewrite RorkHookDecodeLDRSignedPreIndex64_eq.
    destruct ((_ =? 0x7c2) && _) eqn:E; [exfalso|done].
    rewrite !andb_true_iff, !Z.eqb_eq in E. destruct E as (Hop & Hp).
    eapply (Hno (LDRpre (field w 0 5) (field w 5 5) (sign_extend 9 (field w 12 9))));
      [split; [|split]; [by apply reg_field|by apply reg_field|by apply sign_extend_range]|done|].
    cbn [encode]. rewrite sign_extend_mod by (done || by apply field_range). field_lia.
Qed.

Lemma decode_LDUR b :
  decodes (fun w => RorkHookDecodeLDUR64 w b)
    (fun i => match i with
              | LDUR _ rn simm9 => if rn =? b then Some simm9 else None
              | _ => None
              end).
Proof.
  split; [| |done].
  - intros [| | | |rt rn simm9| | | | |] v old Hwf; try done.
    destruct (rn =? b) eqn:E; intros [= <-].
    destruct Hwf as (Ht & Hn & Hi). rewrite RorkHookDecodeLDUR64_eq.
    cbn [encode]. set (w := _ + rt).
    pose proof (Z.mod_pos_bound simm9 (2 ^ 9) ltac:(done)) as Hm.
    assert (field w 21 11 = 0x7c2 /\ field w 10 2 = 0 /\ field w 5 5 = rn /\
            field w 12 9 = simm9 mod 2 ^ 9) as (-> & -> & -> & ->).
    { subst w. generalize dependent (simm9 mod 2 ^ 9). clear Hi E. intros m Hm.
      split_and!; field_lia. }
    rewrite E. cbn. by rewrite sign_extend_signed.
  - intros w old Hw Hno. rewrite RorkHookDecodeLDUR64_eq.
    destruct ((_ =? 0x7c2) && _ && _) eqn:E; [exfalso|done].
    rewrite !andb_true_iff, !Z.eqb_eq in E. destruct E as ((Hop & Hp) & Hn).
    eapply (Hno (LDUR (field w 0 5) (field w 5 5) (sign_extend 9 (field w 12 9))));
      [split; [|split]; [by apply reg_field|by apply reg_field|by apply sign_extend_range]|by rewrite Hn, Z.eqb_refl|].
    cbn [encode]. rewrite sign_extend_mod by (done || by apply field_range).
    clear Hn. field_lia.
Qed.

Lemma decode_MOVZ :
  decodes RorkHookDecodeMOVZImmediate
    (fun i => match i with MOVZ _ imm16 hw => Some (imm16 * 2 ^ (16 * hw)) | _ => None end).
Proof.
  split; [| |done].
  - intros [| | | | |rd imm16 hw| | | |] v old Hwf; try done. intros [= <-].
    destruct Hwf as (Hd & Hi & Hh). rewrite RorkHookDecodeMOVZImmediate_eq.
    cbn [encode]. set (w := _ + rd).
    assert (field w 23 9 = 0x1a5 /\ field w 5 16 = imm16 /\ field w 21 2 = hw)
      as (-> & -> & ->); [|done].
    subst w. split_and!; field_lia.
  - intros w old Hw Hno. rewrite RorkHookDecodeMOVZImmediate_eq.
    destruct (Z.eqb_spec (field w 23 9) 0x1a5) as [Hop|]; [exfalso|done].
    eapply (Hno (MOVZ (field w 0 5) (field w 5 16) (field w 21 2)));
      [split_and!; field_lia|done|]. cbn [encode]. field_lia.
Qed.

(** ** PC-relative addresses *)

Lemma RorkHookDecodeADRP_eq w pc r p :
  is_u64 pc ->
  RorkHookDecodeADRP w pc (Some r) (Some p) =
  let page := page_base (2 ^ 12) pc +
              sign_extend 21 (field w 5 19 * 2 ^ 2 + field w 29 2) * 4096 in
  if (field w 31 1 =? 1) && (field w 24 5 =? 16) && (0 <=? page) && (page <=? UINTPTR_MAX)
  then (true, (Some (field w 0 5), Some page)) else (false, (Some r, Some p)).
Proof.
  intros Hpc. unfold RorkHookDecodeADRP. rewrite mask_ADRP, low_register_field.
  destruct (field w 31 1 =? 1), (field w 24 5 =? 16); cbn [andb negb]; try done.
  change 0x7ffff with (Z.ones 19). change 0x3 with (Z.ones 2).
  rewrite !land_shiftr_field by done.
  pose proof (field_range w 5 19 ltac:(done)) as H1. pose proof (field_range w 29 2 ltac:(done)) as H2.
  rewrite (u64_small (Z.shiftl _ 2)) by (rewrite Z.shiftl_mul_pow2 by done; unfold is_u64; lia).
  rewrite lor_shiftl by done. rewrite RorkHookArm64SignExtend_eq by (unfold is_u64; lia).
  pose proof (sign_extend_range 21 (field w 5 19 * 2 ^ 2 + field w 29 2) ltac:(done)) as Hs.
  set (s := sign_extend _ _) in *. unfold is_signed in Hs.
  change 0xfff with (2 ^ 12 - 1). rewrite land_page_mask by done.
  pose proof (page_base_nonneg (2 ^ 12) pc ltac:(done) ltac:(apply Hpc)).
  pose proof (page_base_bounds (2 ^ 12) pc ltac:(done)).
  rewrite RorkHookAddSignedOffset_eq by (unfold is_u64, is_s64 in *; lia). cbv zeta.
  by destruct (0 <=? _), (_ <=? UINTPTR_MAX).
Qed.

Lemma ADRP_fields rd imm :
  wf_instr (ADRP rd imm) ->
  let w := encode (ADRP rd imm) in
  field w 31 1 = 1 /\ field w 24 5 = 16 /\ field w 0 5 = rd /\
  sign_extend 21 (field w 5 19 * 2 ^ 2 + field w 29 2) = imm.
Proof.
  intros [Hd Hi] w. split_and!.
  1-3: subst w; cbn [encode]; field_lia.
  rewrite <- (sign_extend_signed 21 imm) by done. f_equal. subst w. cbn [encode].
  clear Hi. field_lia.
Qed.

Lemma ADRP_word w :
  is_u32 w -> field w 31 1 = 1 -> field w 24 5 = 16 ->
  w = encode (ADRP (field w 0 5) (sign_extend 21 (field w 5 19 * 2 ^ 2 + field w 29 2))).
Proof.
  intros Hw H1 H2. pose proof (field_range w 5 19 ltac:(done)). pose proof (field_range w 29 2 ltac:(done)).
  set (f := field w 5 19 * 2 ^ 2 + field w 29 2).
  assert (sign_extend 21 f mod 2 ^ 21 = f) as Hm by (apply sign_extend_mod; subst f; lia).
  cbn [encode]. set (s := sign_extend 21 f) in *. clearbody s.
  assert (s mod 4 = f mod 4) as -> by field_lia.
  assert ((s / 4) mod 2 ^ 19 = f / 4) as -> by field_lia.
  subst f. clear Hm. field_lia.
Qed.

Section Branch.
Context {K : Type} {Kern : Kernel K}.
Implicit Types σ : machine K.

Lemma RorkHookFollowOneBranch_eq σ p :
  is_u64 p -> p <> NULL -> range_readable σ p 4 ->
  RorkHookFollowOneBranch p σ =
  let w := peek_u32 σ p in
  let target := p + sign_extend 26 (field w 0 26) * 4 in
  Ret (if (field w 26 6 =? 5) && (0 <=? target) && (target <=? UINTPTR_MAX)
       then target else p) σ.
Proof.
  intros Hp Hn Hr. unfold RorkHookFollowOneBranch. rewrite (proj2 (Z.eqb_neq _ _) Hn).
  erewrite bind_Ret by by apply load_u32_ok.
  set (w := peek_u32 σ p). cbv zeta.
  rewrite mask_B. destruct (field w 26 6 =? 5); [|done]. cbn [negb andb].
  change 0x03ffffff with (Z.ones 26). rewrite low_field by done.
  pose proof (field_range w 0 26 ltac:(done)).
  rewrite RorkHookArm64SignExtend_eq by (unfold is_u64; lia).
  pose proof (sign_extend_range 26 (field w 0 26) ltac:(done)) as Hs. unfold is_signed in Hs.
  rewrite RorkHookAddSignedOffset_eq by (unfold is_s64; lia || done).
  by destruct (0 <=? _), (_ <=? UINTPTR_MAX).
Qed.
End Branch.

Lemma B_fields imm :
  wf_instr (B imm) ->
  field (encode (B imm)) 26 6 = 5 /\ sign_extend 26 (field (encode (B imm)) 0 26) = imm.
Proof.
  intros Hi. split; [cbn [encode]; clear Hi; field_lia|].
  etrans; [|by apply (sign_extend_signed 26)]. f_equal. cbn [encode]. clear Hi. field_lia.
Qed.

Lemma B_word w : is_u32 w -> field w 26 6 = 5 -> w = encode (B (sign_extend 26 (field w 0 26))).
Proof.
  intros Hw Hop. cbn [encode]. rewrite sign_extend_mod by (done || by apply field_range).
  field_lia.
Qed.

(** ** Properties *)

(** A signed displacement is added exactly when the sum is an address, and
    refused with the output untouched when it is not, for every 64-bit base and
    every 64-bit displacement, the most negative one included. *)
Theorem RorkHookAddSignedOffset_exact base offset old :
  is_u64 base -> is_s64 offset ->
  RorkHookAddSignedOffset base offset (Some old) =
  if bool_decide (is_u64 (base + offset)) then (true, Some (base + offset))
  else (false, Some old).
Proof.
  intros Hb Ho. rewrite RorkHookAddSignedOffset_eq by done.
  unfold UINTPTR_MAX, UINT64_MAX, is_u64. destruct (_ && _) eqn:E.
  - by rewrite bool_decide_true by lia.
  - by rewrite bool_decide_false by lia.
Qed.

(** Sign extension is the two's-complement reading of the low bits: the
    result is congruent to the value, in the signed range of the width, and the
    identity on encoded signed immediates; an impossible width gives zero. *)
Theorem RorkHookArm64SignExtend_spec value bits :
  is_u64 value ->
  (0 < bits <= 64 ->
   is_signed bits (RorkHookArm64SignExtend value bits) /\
   RorkHookArm64SignExtend value bits mod 2 ^ bits = value mod 2 ^ bits /\
   forall v, is_signed bits v -> value = v mod 2 ^ bits ->
     RorkHookArm64SignExtend value bits = v) /\
  (~ 0 < bits <= 64 -> RorkHookArm64SignExtend value bits = 0).
Proof.
  intros Hv. split.
  - intros Hb. rewrite RorkHookArm64SignExtend_eq by done.
    assert (0 < bits) as Hpos by lia. split_and!.
    + by apply sign_extend_range.
    + assert (sign_extend bits value = sign_extend bits (value mod 2 ^ bits)) as ->.
      { unfold sign_extend. by rewrite Z.mod_mod by (apply Z.pow_nonzero; lia). }
      apply sign_extend_mod; [done|]. apply Z.mod_pos_bound, Z.pow_pos_nonneg; lia.
    + intros v Hs ->. by apply sign_extend_signed.
  - intros Hb. unfold RorkHookArm64SignExtend. by replace (_ || _) with true by lia.
Qed.

(** C35: the ADRP decoder inverts the encoding: it returns the destination
    register and the page the instruction addresses, unless that page lies
    outside the address space, and refuses every other word and every missing
    output with the outputs untouched. *)
Theorem RorkHookDecodeADRP_exact pc r p :
  is_u64 pc ->
  (forall rd imm, wf_instr (ADRP rd imm) ->
     let page := pc - pc mod 4096 + imm * 4096 in
     RorkHookDecodeADRP (encode (ADRP rd imm)) pc (Some r) (Some p) =
     if bool_decide (is_u64 page) then (true, (Some rd, Some page))
     else (false, (Some r, Some p))) /\
  (forall w, is_u32 w ->
     (forall rd imm, wf_instr (ADRP rd imm) -> w <> encode (ADRP rd imm)) ->
     RorkHookDecodeADRP w pc (Some r) (Some p) = (false, (Some r, Some p))) /\
  (forall w o, RorkHookDecodeADRP w pc None o = (false, (None, o)) /\
     RorkHookDecodeADRP w pc o None = (false, (o, None))).
Proof.
  intros Hpc. split_and!.
  - intros rd imm Hwf page. rewrite RorkHookDecodeADRP_eq by done. cbv zeta.
    destruct (ADRP_fields rd imm Hwf) as (-> & -> & -> & ->).
    change (page_base (2 ^ 12) pc) with (pc - pc mod 4096). fold page.
    unfold UINTPTR_MAX, UINT64_MAX, is_u64. cbn [Z.eqb Pos.eqb andb].
    destruct ((0 <=? page) && _) eqn:E.
    + by rewrite bool_decide_true by lia.
    + by rewrite bool_decide_false by lia.
  - intros w Hw Hno. rewrite RorkHookDecodeADRP_eq by done. cbv zeta.
    destruct (Z.eqb_spec (field w 31 1) 1) as [H1|]; [|done].
    destruct (Z.eqb_spec (field w 24 5) 16) as [H2|]; [|done]. exfalso.
    eapply Hno; [|by apply ADRP_word]. split; [by apply reg_field|by apply sign_extend_range].
  - intros w o. split; [done|by destruct o].
Qed.

(** The ADD decoder recognises exactly the 64-bit ADD (immediate)
    instructions that read and write the requested register, and returns the
    immediate with its optional shift applied. *)
Theorem RorkHookDecodeADDImmediate_exact b :
  decodes (fun w => RorkHookDecodeADDImmediate w b)
    (fun i => match i with
              | ADDi rd rn imm12 sh =>
                  if (rd =? b) && (rn =? b) then Some (imm12 * 2 ^ (12 * sh)) else None
              | _ => None
              end).
Proof. apply decode_ADDi. Qed.

(** The four 64-bit load decoders recognise exactly their instruction, from
    the requested base register where one is given, and return its byte
    displacement: scaled by eight for the unsigned forms, signed for the
    pre-indexed and the unscaled one. *)
Theorem RorkHookDecodeLDR_exact b :
  decodes RorkHookDecodeLDRUnsignedOffset64
    (fun i => match i with LDRu _ _ imm12 => Some (imm12 * 8) | _ => None end) /\
  decodes (fun w => RorkHookDecodeLDRUnsigned64 w b)
    (fun i => match i with
              | LDRu _ rn imm12 => if rn =? b then Some (imm12 * 8) else None
              | _ => None
              end) /\
  decodes RorkHookDecodeLDRSignedPreIndex64
    (fun i => match i with LDRpre _ _ simm9 => Some simm9 | _ => None end) /\
  decodes (fun w => RorkHookDecodeLDUR64 w b)
    (fun i => match i with
              | LDUR _ rn simm9 => if rn =? b then Some simm9 else None
              | _ => None
              end).
Proof.
  split_and!; [apply decode_LDRu|apply decode_LDRu_base|apply decode_LDRpre|apply decode_LDUR].
Qed.

(** The MOVZ decoder recognises exactly the 64-bit MOVZ instructions and
    returns the constant they load. *)
Theorem RorkHookDecodeMOVZImmediate_exact :
  decodes RorkHookDecodeMOVZImmediate
    (fun i => match i with MOVZ _ imm16 hw => Some (imm16 * 2 ^ (16 * hw)) | _ => None end).
Proof. apply decode_MOVZ. Qed.

(** C39: every decoder of an immediate recognises exactly the encodings of its
    instruction, with the requested base register where one is given, and returns
    the constant it stands for: the shifted immediate of ADD, the displacement of
    the four 64-bit loads, scaled by eight for the unsigned forms and signed for the
    others, and the constant MOVZ loads. *)
Theorem RorkHookDecodeImmediates_exact b :
  decodes (fun w => RorkHookDecodeADDImmediate w b)
    (fun i => match i with
              | ADDi rd rn imm12 sh =>
                  if (rd =? b) && (rn =? b) then Some (imm12 * 2 ^ (12 * sh)) else None
              | _ => None
              end) /\
  decodes RorkHookDecodeLDRUnsignedOffset64
    (fun i => match i with LDRu _ _ imm12 => Some (imm12 * 8) | _ => None end) /\
  decodes (fun w => RorkHookDecodeLDRUnsigned64 w b)
    (fun i => match i with
              | LDRu _ rn imm12 => if rn =? b then Some (imm12 * 8) else None
              | _ => None
              end) /\
  decodes RorkHookDecodeLDRSignedPreIndex64
    (fun i => match i with LDRpre _ _ simm9 => Some simm9 | _ => None end) /\
  decodes (fun w => RorkHookDecodeLDUR64 w b)
    (fun i => match i with
              | LDUR _ rn simm9 => if rn =? b then Some simm9 else None
              | _ => None
              end) /\
  decodes RorkHookDecodeMOVZImmediate
    (fun i => match i with MOVZ _ imm16 hw => Some (imm16 * 2 ^ (16 * hw)) | _ => None end).
Proof.
  split_and!; [apply decode_ADDi|apply decode_LDRu|apply decode_LDRu_base|apply decode_LDRpre
    |apply decode_LDUR|apply decode_MOVZ].
Qed.

Section FollowProperty.
Context {K : Type} {Kern : Kernel K}.

(** C36: following a veneer: an unconditional [B] is followed once, to the
    address it jumps to, unless that address does not exist; every other
    instruction, [BL] calls included, leaves the pointer where it was, as does
    [NULL]. *)
Theorem RorkHookFollowOneBranch_exact (σ : machine K) p :
  is_u64 p -> range_readable σ p 4 ->
  (forall imm, wf_instr (B imm) -> p <> NULL -> peek_u32 σ p = encode (B imm) ->
     RorkHookFollowOneBranch p σ =
     Ret (if bool_decide (is_u64 (p + imm * 4)) then p + imm * 4 else p) σ) /\
  ((forall imm, wf_instr (B imm) -> peek_u32 σ p <> encode (B imm)) ->
     RorkHookFollowOneBranch p σ = Ret p σ) /\
  (forall imm, wf_instr (BL imm) -> peek_u32 σ p = encode (BL imm) ->
     RorkHookFollowOneBranch p σ = Ret p σ) /\
  (p = NULL -> RorkHookFollowOneBranch p σ = Ret p σ).
Proof.
  intros Hp Hr.
  assert (p = NULL -> RorkHookFollowOneBranch p σ = Ret p σ) as Hnull by by intros ->.
  pose proof (RorkHookFollowOneBranch_eq σ p Hp) as Heq. cbv zeta in Heq. split_and!.
  - intros imm Hwf Hn Hw. rewrite Heq, Hw by done. clear Heq.
    destruct (B_fields imm Hwf) as [-> ->]. cbn [Z.eqb Pos.eqb andb].
    unfold UINTPTR_MAX, UINT64_MAX, is_u64. destruct (_ && _) eqn:E.
    + by rewrite bool_decide_true by lia.
    + by rewrite bool_decide_false by lia.
  - intros Hno. destruct (Z.eq_dec p NULL) as [|Hn]; [by apply Hnull|]. rewrite Heq by done.
    destruct (Z.eqb_spec (field (peek_u32 σ p) 26 6) 5) as [Hop|]; [|done]. exfalso.
    eapply Hno; [|apply B_word; [apply peek_u32_range|done]]. by apply sign_extend_range.
  - intros imm Hwf Hw. destruct (Z.eq_dec p NULL) as [|Hn]; [by apply Hnull|].
    rewrite Heq, Hw by done.
    assert (field (encode (BL imm)) 26 6 = 37) as ->; [|done].
    cbn [encode]. clear. field_lia.
  - done.
Qed.
End FollowProperty.

(** ** Witnesses *)

Lemma RorkHookAddSignedOffset_exact_witness :
  RorkHookAddSignedOffset (2 ^ 63) (- 2 ^ 63) (Some 7) =
  if bool_decide (is_u64 (2 ^ 63 + - 2 ^ 63)) then (true, Some (2 ^ 63 + - 2 ^ 63))
  else (false, Some 7).
Proof. apply RorkHookAddSignedOffset_exact; done. Defined.

Lemma RorkHookArm64SignExtend_spec_witness :
  RorkHookArm64SignExtend 0x1ff 9 = -1 /\
  (0 < 9 <= 64 ->
   is_signed 9 (RorkHookArm64SignExtend 0x1ff 9) /\
   RorkHookArm64SignExtend 0x1ff 9 mod 2 ^ 9 = 0x1ff mod 2 ^ 9 /\
   forall v, is_signed 9 v -> 0x1ff = v mod 2 ^ 9 -> RorkHookArm64SignExtend 0x1ff 9 = v) /\
  (~ 0 < 9 <= 64 -> RorkHookArm64SignExtend 0x1ff 9 = 0).
Proof. split; [done|]. apply RorkHookArm64SignExtend_spec. done. Defined.

(** [adrp x16, #-4096] at [0x100004abc]. *)
Lemma RorkHookDecodeADRP_exact_witness :
  RorkHookDecodeADRP 0xf0fffff0 0x100004abc (Some 0) (Some 0) =
    (true, (Some 16, Some 0x100003000)) /\
  (forall rd imm, wf_instr (ADRP rd imm) ->
     let page := 0x100004abc - 0x100004abc mod 4096 + imm * 4096 in
     RorkHookDecodeADRP (encode (ADRP rd imm)) 0x100004abc (Some 0) (Some 0) =
     if bool_decide (is_u64 page) then (true, (Some rd, Some page))
     else (false, (Some 0, Some 0))) /\
  (forall w, is_u32 w ->
     (forall rd imm, wf_instr (ADRP rd imm) -> w <> encode (ADRP rd imm)) ->
     RorkHookDecodeADRP w 0x100004abc (Some 0) (Some 0) = (false, (Some 0, Some 0))) /\
  (forall w o, RorkHookDecodeADRP w 0x100004abc None o = (false, (None, o)) /\
     RorkHookDecodeADRP w 0x100004abc o None = (false, (o, None))).
Proof. split; [by vm_compute|]. apply RorkHookDecodeADRP_exact. done. Defined.

(** [b #-8] at [0x4010]. *)
Definition veneer : machine sim :=
  sim_machine [(1, 5)] [(0x4010, le_split 4 0x17fffffe)].

Lemma RorkHookFollowOneBranch_exact_witness :
  result_of (RorkHookFollowOneBranch 0x4010 veneer) = Some 0x4008 /\
  (forall imm, wf_instr (B imm) -> 0x4010 <> NULL -> peek_u32 veneer 0x4010 = encode (B imm) ->
     RorkHookFollowOneBranch 0x4010 veneer =
     Ret (if bool_decide (is_u64 (0x4010 + imm * 4)) then 0x4010 + imm * 4 else 0x4010) veneer) /\
  ((forall imm, wf_instr (B imm) -> peek_u32 veneer 0x4010 <> encode (B imm)) ->
     RorkHookFollowOneBranch 0x4010 veneer = Ret 0x4010 veneer) /\
  (forall imm, wf_instr (BL imm) -> peek_u32 veneer 0x4010 = encode (BL imm) ->
     RorkHookFollowOneBranch 0x4010 veneer = Ret 0x4010 veneer) /\
  (0x4010 = NULL -> RorkHookFollowOneBranch 0x4010 veneer = Ret 0x4010 veneer).
Proof.
  split; [by vm_compute|]. apply RorkHookFollowOneBranch_exact; [done|].
  refine (proj1 (range_all_spec (readable veneer) 0x4010 4) _). by vm_compute.
Defined.
