(* ===== verification/Function.v ===== *)
(** Destructive detours: the absolute-jump encoder and the transaction that
    installs it, RorkHookFunction.c. *)
From S2P Require Import Prelude Machine Logic Sim Regions Arm64 Memory.

(** ** Operations *)

Definition RORK_HOOK_ABSOLUTE_JUMP_WORDS : Z := 5.

Definition RorkHookEncodeMOVK (destinationRegister immediate shift : Z) : Z :=
  let opcode := 0xf2800000 in
  let halfword := u32 (Z.shiftl (shift / 16) 21) in
  let encodedImmediate := u32 (Z.shiftl immediate 5) in
  let destination := Z.land destinationRegister 0x1f in
  Z.lor (Z.lor (Z.lor opcode halfword) encodedImmediate) destination.

Definition RorkHookEncodeBR (sourceRegister : Z) : Z :=
  let opcode := 0xd61f0000 in
  let source := u32 (Z.shiftl (Z.land sourceRegister 0x1f) 5) in
  Z.lor opcode source.

Section Function_.
Context {K : Type} {T : Target} {Kern : Kernel K}.
Implicit Types σ : machine K.

(** The buffer [instructions] points to is the list of its words. *)
Definition RorkHookBuildAbsoluteJump (destination : Z) (instructions : option (list Z))
    (capacity : Z) : Z * option (list Z) :=
  if defined_arm64 then
    match instructions with
    | None => (0, None)
    | Some words =>
        if (destination =? NULL) || (capacity <? RORK_HOOK_ABSOLUTE_JUMP_WORDS)
        then (0, instructions) else
        let stripped := if ptrauth_calls then ptrauth_strip destination else destination in
        let target := stripped in
        let scratchRegister := 16 in
        let words := <[0%nat := RorkHookEncodeMOVK scratchRegister (u16 target) 0]> words in
        let words := <[1%nat := RorkHookEncodeMOVK scratchRegister (u16 (Z.shiftr target 16)) 16]> words in
        let words := <[2%nat := RorkHookEncodeMOVK scratchRegister (u16 (Z.shiftr target 32)) 32]> words in
        let words := <[3%nat := RorkHookEncodeMOVK scratchRegister (u16 (Z.shiftr target 48)) 48]> words in
        let words := <[4%nat := RorkHookEncodeBR scratchRegister]> words in
        (RORK_HOOK_ABSOLUTE_JUMP_WORDS, Some words)
    end
  else (0, instructions).

(** The bytes of an array of [uint32_t]. *)
Definition word_bytes (words : list Z) : list byte := words ≫= le_split 4.

Definition RorkHookReplaceFunctionWithSize (function patchableBytes replacement : Z) : M K Z :=
  if defined_arm64 then
    let patchSize := 4 * RORK_HOOK_ABSOLUTE_JUMP_WORDS in
    if (function =? NULL) || (replacement =? NULL) || (patchableBytes <? patchSize)
    then ret KERN_INVALID_ARGUMENT else
    let target := if ptrauth_calls then ptrauth_strip function else function in
    let targetAddress := target in
    let nativePageSize := getpagesize in
    if nativePageSize <=? 0 then ret KERN_INVALID_ARGUMENT else
    let pageSize := nativePageSize in
    if negb (targetAddress mod 4 =? 0) || (pageSize <? patchSize) ||
       (pageSize - patchSize <? targetAddress mod pageSize)
    then ret KERN_INVALID_ARGUMENT else
    let* isReadable := RorkHookMemoryIsReadable target patchSize in
    if negb isReadable then ret KERN_INVALID_ADDRESS else
    let* (found, originalProtection) := RorkHookMemoryProtection target (Some 0) in
    let originalProtection := default 0 originalProtection in
    if negb found || negb (prot_has originalProtection VM_PROT_EXECUTE)
    then ret KERN_PROTECTION_FAILURE else
    let '(built, instructions) :=
      RorkHookBuildAbsoluteJump replacement (Some (replicate 5 0))
        RORK_HOOK_ABSOLUTE_JUMP_WORDS in
    if built =? 0 then ret KERN_NOT_SUPPORTED else
    let instructions := word_bytes (default [] instructions) in
    let* originalInstructions := load_bytes target (Z.to_nat patchSize) in
    let* result := RorkHookMakeMemoryWritable targetAddress patchSize in
    if negb (result =? KERN_SUCCESS) then ret result else
    store_bytes target instructions ;;;
    sys_dcache_flush target patchSize ;;;
    let* result := RorkHookProtectMemory targetAddress patchSize originalProtection in
    if negb (result =? KERN_SUCCESS) then
      store_bytes target originalInstructions ;;;
      sys_dcache_flush target patchSize ;;;
      let* _ := RorkHookProtectMemory targetAddress patchSize originalProtection in
      sys_icache_invalidate target patchSize ;;;
      ret result
    else
      sys_icache_invalidate target patchSize ;;;
      ret KERN_SUCCESS
  else ret KERN_NOT_SUPPORTED.

Definition RorkHookReplaceFunction (function replacement : Z) : M K Z :=
  RorkHookReplaceFunctionWithSize function (4 * RORK_HOOK_ABSOLUTE_JUMP_WORDS) replacement.
End Function_.

(** ** Encodings *)

Lemma lor_low a b k : 0 <= k -> a mod 2 ^ k = 0 -> 0 <= b < 2 ^ k -> Z.lor a b = a + b.
Proof.
  intros Hk Ha Hb. assert (2 ^ k <> 0) by (apply Z.pow_nonzero; lia).
  assert (a = a / 2 ^ k * 2 ^ k) as E by (pose proof (Z.div_mod a (2 ^ k)); lia).
  rewrite E at 1. rewrite <- Z.shiftl_mul_pow2, lor_shiftl by lia. lia.
Qed.

Lemma RorkHookEncodeMOVK_eq rd imm hw :
  wf_instr (MOVK rd imm hw) -> RorkHookEncodeMOVK rd imm (16 * hw) = encode (MOVK rd imm hw).
Proof.
  intros (Hd & Hi & Hh). unfold is_reg in Hd. unfold RorkHookEncodeMOVK. cbv zeta.
  rewrite (Z.mul_comm 16), Z.div_mul by done. rewrite !Z.shiftl_mul_pow2 by done.
  rewrite !u32_small by (unfold is_u32; lia).
  change 0x1f with (Z.ones 5). rewrite Z.land_ones, (Z.mod_small rd) by lia.
  cbn [encode].
  rewrite (lor_low 0xf2800000 _ 23) by (done || lia).
  rewrite (lor_low _ (imm * 2 ^ 5) 21) by (try lia; field_lia).
  rewrite (lor_low _ rd 5) by (try lia; field_lia). done.
Qed.

Lemma RorkHookEncodeBR_eq rn : wf_instr (BR rn) -> RorkHookEncodeBR rn = encode (BR rn).
Proof.
  intros Hn. cbn in Hn. unfold is_reg in Hn. unfold RorkHookEncodeBR. cbv zeta.
  change 0x1f with (Z.ones 5). rewrite Z.land_ones, (Z.mod_small rn) by lia.
  rewrite Z.shiftl_mul_pow2, u32_small by (unfold is_u32; lia).
  by rewrite (lor_low _ _ 10) by (done || lia).
Qed.

(** ** The jump *)

(** The instructions of an absolute jump, and their words. *)
Definition jump_code (target : Z) : list instr :=
  [MOVK 16 (field target 0 16) 0; MOVK 16 (field target 16 16) 1;
   MOVK 16 (field target 32 16) 2; MOVK 16 (field target 48 16) 3; BR 16].
Definition jump_words (target : Z) : list Z := encode <$> jump_code target.

Lemma jump_code_wf target : Forall wf_instr (jump_code target).
Proof.
  repeat constructor; cbn; unfold is_reg; try lia; by apply field_range.
Qed.

Section Jump.
Context {T : Target}.

Definition jump_target (destination : Z) : Z :=
  if ptrauth_calls then ptrauth_strip destination else destination.

Lemma u16_field t k : 0 <= k -> u16 (Z.shiftr t k) = field t k 16.
Proof. intros. unfold u16, field. by rewrite Z.shiftr_div_pow2. Qed.

Lemma movk_lane t hw : 0 <= hw < 4 ->
  RorkHookEncodeMOVK 16 (u16 (Z.shiftr t (16 * hw))) (16 * hw) =
  encode (MOVK 16 (field t (16 * hw) 16) hw).
Proof.
  intros Hh. rewrite u16_field by lia. apply RorkHookEncodeMOVK_eq.
  split; [done|split; [by apply field_range|done]].
Qed.

Lemma RorkHookBuildAbsoluteJump_eq destination words capacity :
  defined_arm64 = true -> destination <> NULL ->
  RORK_HOOK_ABSOLUTE_JUMP_WORDS <= capacity -> (5 <= length words)%nat ->
  RorkHookBuildAbsoluteJump destination (Some words) capacity =
  (RORK_HOOK_ABSOLUTE_JUMP_WORDS,
   Some (jump_words (jump_target destination) ++ drop 5 words)).
Proof.
  intros Ha Hd Hc Hl. unfold RorkHookBuildAbsoluteJump. rewrite Ha.
  replace (_ || _) with false by (unfold NULL in *; lia).
  fold (jump_target destination). set (t := jump_target destination).
  destruct words as [|w0 [|w1 [|w2 [|w3 [|w4 words]]]]]; cbn in Hl; try lia.
  assert (RorkHookEncodeMOVK 16 (u16 t) 0 = encode (MOVK 16 (field t 0 16) 0)) as ->
    by by apply (movk_lane t 0).
  assert (RorkHookEncodeMOVK 16 (u16 (Z.shiftr t 16)) 16 =
          encode (MOVK 16 (field t 16 16) 1)) as -> by by apply (movk_lane t 1).
  assert (RorkHookEncodeMOVK 16 (u16 (Z.shiftr t 32)) 32 =
          encode (MOVK 16 (field t 32 16) 2)) as -> by by apply (movk_lane t 2).
  assert (RorkHookEncodeMOVK 16 (u16 (Z.shiftr t 48)) 48 =
          encode (MOVK 16 (field t 48 16) 3)) as -> by by apply (movk_lane t 3).
  by rewrite RorkHookEncodeBR_eq by done.
Qed.
End Jump.

(** ** Running the jump

    The part of the processor the jump uses: a program counter and the general
    registers, fetching words from the machine's memory. *)
Section Processor.
Context {K : Type}.
Implicit Types σ : machine K.

Definition registers : Type := Z -> Z.
Definition set_register (x : registers) (r v : Z) : registers :=
  fun r' => if r' =? r then v else x r'.

(** [MOVK] replaces one 16-bit lane of a register. *)
Definition insert_lane (old imm16 hw : Z) : Z :=
  old + (imm16 - field old (16 * hw) 16) * 2 ^ (16 * hw).

Definition cpu_step σ (state : Z * registers) : option (Z * registers) :=
  let '(pc, x) := state in
  let w := peek_u32 σ pc in
  if field w 23 9 =? 0x1e5 then
    Some (pc + 4, set_register x (field w 0 5)
                    (insert_lane (x (field w 0 5)) (field w 5 16) (field w 21 2)))
  else if (field w 10 22 =? 0x3587c0) && (field w 0 5 =? 0) then
    Some (x (field w 5 5), x)
  else None.

Fixpoint cpu_run (n : nat) σ (state : Z * registers) : option (Z * registers) :=
  match n with
  | O => Some state
  | S n => state ← cpu_step σ state; cpu_run n σ state
  end.

Lemma cpu_step_MOVK σ pc x rd imm hw :
  wf_instr (MOVK rd imm hw) -> peek_u32 σ pc = encode (MOVK rd imm hw) ->
  cpu_step σ (pc, x) = Some (pc + 4, set_register x rd (insert_lane (x rd) imm hw)).
Proof.
  intros (Hd & Hi & Hh) Hw. unfold cpu_step. rewrite Hw. cbn [encode]. set (w := _ + rd).
  assert (field w 23 9 = 0x1e5 /\ field w 0 5 = rd /\ field w 5 16 = imm /\ field w 21 2 = hw)
    as (-> & -> & -> & ->); [|done].
  subst w. clear Hw. split_and!; field_lia.
Qed.

Lemma cpu_step_BR σ pc x rn :
  wf_instr (BR rn) -> peek_u32 σ pc = encode (BR rn) -> cpu_step σ (pc, x) = Some (x rn, x).
Proof.
  intros Hn Hw. unfold cpu_step. rewrite Hw. cbn in Hn |- *. set (w := _ + _).
  assert (field w 23 9 = 0x1ac /\ field w 10 22 = 0x3587c0 /\ field w 0 5 = 0 /\
          field w 5 5 = rn) as (-> & -> & -> & ->); [|done].
  subst w. clear Hw. split_and!; field_lia.
Qed.

(** The four lanes of a 64-bit value determine it, whatever the register held. *)
Definition of_lanes (a b c d : Z) : Z := a + b * 2 ^ 16 + c * 2 ^ 32 + d * 2 ^ 48.

Lemma of_lanes_field v :
  is_u64 v ->
  v = of_lanes (field v 0 16) (field v 16 16) (field v 32 16) (field v 48 16).
Proof. unfold of_lanes, is_u64. intros. field_lia. Qed.

Lemma field_of_lanes a b c d :
  0 <= a < 2 ^ 16 -> 0 <= b < 2 ^ 16 -> 0 <= c < 2 ^ 16 -> 0 <= d < 2 ^ 16 ->
  field (of_lanes a b c d) 0 16 = a /\ field (of_lanes a b c d) 16 16 = b /\
  field (of_lanes a b c d) 32 16 = c /\ field (of_lanes a b c d) 48 16 = d.
Proof. unfold of_lanes. intros. split_and!; field_lia. Qed.

Lemma insert_lanes old a b c d :
  is_u64 old ->
  0 <= a < 2 ^ 16 -> 0 <= b < 2 ^ 16 -> 0 <= c < 2 ^ 16 -> 0 <= d < 2 ^ 16 ->
  insert_lane (insert_lane (insert_lane (insert_lane old a 0) b 1) c 2) d 3 =
  of_lanes a b c d.
Proof.
  intros Ho Ha Hb Hc Hd. rewrite (of_lanes_field old) by done.
  pose proof (fun k => field_range old k 16 ltac:(done)) as Hf.
  generalize (field old 0 16) (Hf 0) (field old 16 16) (Hf 16) (field old 32 16) (Hf 32)
    (field old 48 16) (Hf 48). clear old Ho Hf. intros e He f Hf g Hg h Hh.
  assert (insert_lane (of_lanes e f g h) a 0 = of_lanes a f g h) as ->.
  { unfold insert_lane. change (16 * 0) with 0.
    destruct (field_of_lanes e f g h) as (-> & _); try done. unfold of_lanes. lia. }
  assert (insert_lane (of_lanes a f g h) b 1 = of_lanes a b g h) as ->.
  { unfold insert_lane. change (16 * 1) with 16.
    destruct (field_of_lanes a f g h) as (_ & -> & _); try done. unfold of_lanes. lia. }
  assert (insert_lane (of_lanes a b g h) c 2 = of_lanes a b c h) as ->.
  { unfold insert_lane. change (16 * 2) with 32.
    destruct (field_of_lanes a b g h) as (_ & _ & -> & _); try done. unfold of_lanes. lia. }
  unfold insert_lane. change (16 * 3) with 48.
  destruct (field_of_lanes a b c h) as (_ & _ & _ & ->); try done. unfold of_lanes. lia.
Qed.

(** Running the five words from [pc]. *)
Lemma cpu_run_jump σ pc target x :
  is_u64 target -> is_u64 (x 16) ->
  (forall i w, jump_words target !! i = Some w -> peek_u32 σ (pc + 4 * Z.of_nat i) = w) ->
  exists x', cpu_run 5 σ (pc, x) = Some (target, x') /\
    forall r, r <> 16 -> x' r = x r.
Proof.
  intros Ht Hx Hw.
  pose proof (Hw 0%nat _ eq_refl) as W0. pose proof (Hw 1%nat _ eq_refl) as W1.
  pose proof (Hw 2%nat _ eq_refl) as W2. pose proof (Hw 3%nat _ eq_refl) as W3.
  pose proof (Hw 4%nat _ eq_refl) as W4. clear Hw.
  pose proof (fun k => field_range target k 16 ltac:(done)) as Hf.
  assert (forall k hw, 0 <= hw < 4 -> wf_instr (MOVK 16 (field target k 16) hw)) as Hwf.
  { intros k hw Hh. split; [done|split; [by apply Hf|done]]. }
  change (4 * Z.of_nat 0) with 0 in W0. change (4 * Z.of_nat 1) with 4 in W1.
  change (4 * Z.of_nat 2) with 8 in W2. change (4 * Z.of_nat 3) with 12 in W3.
  change (4 * Z.of_nat 4) with 16 in W4. rewrite Z.add_0_r in W0.
  unfold cpu_run.
  rewrite (cpu_step_MOVK _ _ _ _ _ _ (Hwf 0 0 ltac:(done)) W0). cbn [mbind option_bind].
  rewrite (cpu_step_MOVK _ _ _ _ _ _ (Hwf 16 1 ltac:(done)) W1). cbn [mbind option_bind].
  replace (pc + 4 + 4) with (pc + 8) by lia.
  rewrite (cpu_step_MOVK _ _ _ _ _ _ (Hwf 32 2 ltac:(done)) W2). cbn [mbind option_bind].
  replace (pc + 8 + 4) with (pc + 12) by lia.
  rewrite (cpu_step_MOVK _ _ _ _ _ _ (Hwf 48 3 ltac:(done)) W3). cbn [mbind option_bind].
  replace (pc + 12 + 4) with (pc + 16) by lia.
  rewrite (cpu_step_BR _ _ _ 16 ltac:(done) W4). eexists. split.
  - do 2 f_equal. unfold set_register. cbn [Z.eqb Pos.eqb].
    rewrite insert_lanes by (done || by apply Hf). by rewrite <- of_lanes_field.
  - intros r Hr. unfold set_register. by rewrite !(proj2 (Z.eqb_neq _ _) Hr).
Qed.
End Processor.

(** ** Installing the jump *)

Lemma word_bytes_length words : length (word_bytes words) = (4 * length words)%nat.
Proof.
  unfold word_bytes. induction words as [|w words IH]; [done|].
  cbn [mbind list_bind]. rewrite length_app, length_le_split. cbn [length]. lia.
Qed.

Lemma word_bytes_peek {K} (σ : machine K) a words i w :
  Forall is_u32 words -> peeks σ a (4 * length words) = word_bytes words ->
  words !! i = Some w -> peek_u32 σ (a + 4 * Z.of_nat i) = w.
Proof.
  revert a i. induction words as [|v words IH]; intros a i Hall Hp Hi; [done|].
  apply Forall_cons in Hall as [Hv Hall].
  replace (4 * length (v :: words))%nat with (4 + 4 * length words)%nat in Hp by (cbn; lia).
  rewrite peeks_app in Hp. unfold word_bytes in Hp. cbn [mbind list_bind] in Hp.
  apply app_inj_1 in Hp as [Hh Ht]; [|by rewrite length_peeks, length_le_split].
  destruct i as [|i]; cbn in Hi; simplify_eq.
  - rewrite Z.add_0_r. unfold peek_u32. rewrite Hh, le_combine_split. by apply Z.mod_small.
  - rewrite <- (IH _ i Hall Ht Hi). f_equal. lia.
Qed.

Lemma encode_MOVK_BR_u32 i :
  wf_instr i -> match i with MOVK _ _ _ | BR _ => True | _ => False end -> is_u32 (encode i).
Proof.
  destruct i; try done; cbn [wf_instr encode]; intros Hwf _; unfold is_reg, is_u32 in *; lia.
Qed.

Lemma jump_words_u32 target : Forall is_u32 (jump_words target).
Proof.
  pose proof (jump_code_wf target) as Hwf. unfold jump_words, jump_code in *. cbn [fmap list_fmap].
  repeat (apply Forall_cons in Hwf as [? Hwf]; constructor; [by apply encode_MOVK_BR_u32|]).
  constructor.
Qed.

Section Patch.
Context {K : Type} {T : Target} {Kern : Kernel K}.
Implicit Types σ : machine K.

Definition PATCH_SIZE : Z := 20.
Definition jump_bytes (destination : Z) : list byte :=
  word_bytes (jump_words (jump_target destination)).

(** The argument checks, in their order: the error a call is refused with. *)
Definition patch_error (k : K) (function patchableBytes replacement : Z) : option Z :=
  if negb defined_arm64 then Some KERN_NOT_SUPPORTED else
  if (function =? NULL) || (replacement =? NULL) || (patchableBytes <? PATCH_SIZE)
  then Some KERN_INVALID_ARGUMENT else
  let target := jump_target function in
  if negb (target mod 4 =? 0) || (vm_page_size - PATCH_SIZE <? target mod vm_page_size)
  then Some KERN_INVALID_ARGUMENT else
  if negb (memory_is_readable k target PATCH_SIZE) then Some KERN_INVALID_ADDRESS else
  match region_at k target with
  | Some r => if prot_has (region_protection r) VM_PROT_EXECUTE then None
              else Some KERN_PROTECTION_FAILURE
  | None => Some KERN_PROTECTION_FAILURE
  end.

(** What an accepted call runs. *)
Definition patch_body (target : Z) (bytes : list byte) (protection : Z) : M K Z :=
  let* original := load_bytes target 20 in
  let* result := RorkHookMakeMemoryWritable target PATCH_SIZE in
  if negb (result =? KERN_SUCCESS) then ret result else
  store_bytes target bytes ;;;
  sys_dcache_flush target PATCH_SIZE ;;;
  let* result := RorkHookProtectMemory target PATCH_SIZE protection in
  if negb (result =? KERN_SUCCESS) then
    store_bytes target original ;;;
    sys_dcache_flush target PATCH_SIZE ;;;
    let* _ := RorkHookProtectMemory target PATCH_SIZE protection in
    sys_icache_invalidate target PATCH_SIZE ;;;
    ret result
  else
    sys_icache_invalidate target PATCH_SIZE ;;;
    ret KERN_SUCCESS.

Context {Laws : KernelLaws K}.

Lemma jump_target_u64 p : is_u64 p -> is_u64 (jump_target p).
Proof using Laws. unfold jump_target. destruct ptrauth_calls; [apply strip_range|done]. Qed.

Lemma RorkHookReplaceFunctionWithSize_eq σ function patchableBytes replacement :
  is_u64 function ->
  RorkHookReplaceFunctionWithSize function patchableBytes replacement σ =
  match patch_error (kern σ) function patchableBytes replacement with
  | Some error => Ret error σ
  | None =>
      patch_body (jump_target function) (jump_bytes replacement)
        (page_protection (kern σ) (jump_target function)) σ
  end.
Proof using Laws.
  intros Hf%jump_target_u64. unfold RorkHookReplaceFunctionWithSize, patch_error.
  destruct defined_arm64 eqn:Harm; [|done]. cbn [negb].
  change (4 * RORK_HOOK_ABSOLUTE_JUMP_WORDS) with PATCH_SIZE. fold (jump_target function).
  destruct ((function =? NULL) || _ || _) eqn:Hargs; [done|]. cbv zeta.
  assert (replacement <> NULL) as Hrep by (unfold NULL in *; lia). clear Hargs.
  rewrite getpagesize_eq. pose proof page_size_bounds as HP.
  replace (vm_page_size <=? 0) with false by lia.
  set (t := jump_target function) in *.
  assert ((vm_page_size <? PATCH_SIZE) = false) as -> by (unfold PATCH_SIZE; lia).
  rewrite orb_false_r. destruct (_ || _); [done|].
  erewrite bind_Ret by by apply RorkHookMemoryIsReadable_eq.
  destruct (memory_is_readable _ _ _); [|done]. cbn [negb].
  erewrite bind_Ret by apply RorkHookMemoryProtection_eq.
  unfold page_protection. destruct (region_at (kern σ) t) as [r|]; [|done]. cbn [default negb orb].
  destruct (prot_has _ _); [|done]. cbn [negb].
  rewrite RorkHookBuildAbsoluteJump_eq; [|done|done|done|cbn; lia].
  cbn [Z.eqb RORK_HOOK_ABSOLUTE_JUMP_WORDS default replicate drop]. by rewrite app_nil_r.
Qed.

(** *** The transaction *)

(** [σ'] follows the installation of [bytes] at [t], whose page had protection
    [p]: on success the code is in place, visible to instruction fetch, and
    every protection is as before; on failure no byte has changed, and the log
    tells which protection change was refused. *)
Definition installed (t : Z) (bytes : list byte) (p : Z) : list event :=
  [EvProtect t PATCH_SIZE p KERN_SUCCESS; EvDCacheFlush t PATCH_SIZE; EvStore t bytes;
   EvProtect t PATCH_SIZE 19 KERN_SUCCESS].

Record patch_contract (t : Z) (bytes : list byte) (p : Z) σ (result : Z) σ' : Prop := {
  pt_process : same_process (kern σ) (kern σ');
  pt_window : window_open (kern σ') = window_open (kern σ);
  pt_success : result = KERN_SUCCESS ->
    peeks σ' t 20 = bytes /\ same_bytes_but t PATCH_SIZE σ σ' /\
    same_prot (kern σ) (kern σ') /\
    log σ' = EvICacheInvalidate t PATCH_SIZE :: installed t bytes p ++ log σ;
  pt_failure : result <> KERN_SUCCESS ->
    same_bytes σ σ' /\
    (same_prot (kern σ) (kern σ') /\ log σ' = EvProtect t PATCH_SIZE 19 result :: log σ \/
     exists again,
       (again = KERN_SUCCESS -> same_prot (kern σ) (kern σ')) /\
       log σ' =
         [EvICacheInvalidate t PATCH_SIZE; EvProtect t PATCH_SIZE p again;
          EvDCacheFlush t PATCH_SIZE; EvStore t (peeks σ t 20);
          EvProtect t PATCH_SIZE p result; EvDCacheFlush t PATCH_SIZE; EvStore t bytes;
          EvProtect t PATCH_SIZE 19 KERN_SUCCESS] ++ log σ)
}.

(** A range inside one page. *)
Lemma in_one_page t a :
  0 <= t -> t mod vm_page_size <= vm_page_size - PATCH_SIZE ->
  in_pages t PATCH_SIZE a =
  (page_base vm_page_size t <=? a) && (a <? page_base vm_page_size t + vm_page_size).
Proof using Laws.
  intros Ht Hm. unfold in_pages, PATCH_SIZE in *. pose proof page_size_bounds.
  rewrite (page_base_eq _ (t + 20 - 1) (page_base vm_page_size t)); [done|lia| |].
  - apply page_base_multiple.
  - unfold page_base. pose proof (Z.mod_pos_bound t vm_page_size). lia.
Qed.

Lemma patch_writable σ k1 l t p prot :
  prot_at (kern σ) t = Some p -> 0 < t -> t + PATCH_SIZE <= 2 ^ 64 ->
  t mod vm_page_size <= vm_page_size - PATCH_SIZE ->
  (forall a, t <= a < t + PATCH_SIZE -> tpro_gated (kern σ) a = false) ->
  same_process (kern σ) k1 ->
  (forall a, prot_at k1 a =
     if in_pages t PATCH_SIZE a then Some (Z.land prot 7) else prot_at (kern σ) a) ->
  prot_has prot VM_PROT_WRITE = true ->
  forall m, range_writable (Machine k1 m l) t PATCH_SIZE.
Proof using Laws.
  intros Hp Ht Hend Hm Hg (Hgate & _) Hprot Hw m a Ha. unfold writable. cbn [kern].
  rewrite Hprot, Hgate, Hg by done. rewrite in_one_page by lia.
  unfold page_base, PATCH_SIZE in *. pose proof (Z.mod_pos_bound t vm_page_size).
  pose proof page_size_bounds. replace (_ && _) with true by lia.
  unfold prot_has in *. by rewrite <- Z.land_assoc.
Qed.

(** A second protection change of the page, to what it was at first. *)
Lemma reprotect_page (k0 k1 k2 : K) t p prot :
  prot_at k0 t = Some p -> 0 <= t ->
  t mod vm_page_size <= vm_page_size - PATCH_SIZE ->
  (forall a, prot_at k1 a =
     if in_pages t PATCH_SIZE a then Some (Z.land prot 7) else prot_at k0 a) ->
  (forall a, prot_at k2 a =
     if in_pages t PATCH_SIZE a then Some (Z.land p 7) else prot_at k1 a) ->
  same_prot k0 k2.
Proof using Laws.
  intros Hp Ht Hm H1 H2 a. rewrite H2, H1. destruct (in_pages t PATCH_SIZE a) eqn:Hin; [|done].
  rewrite in_one_page in Hin by done. rewrite (prot_land7 k0 t) by done. symmetry.
  eapply prot_at_in_page; [by rewrite <- prot_at_page|apply page_base_multiple|lia].
Qed.

(** Storing the original bytes back undoes the first store. *)
Lemma store_back σ (k1 k2 : K) l1 l2 t bytes :
  length bytes = 20%nat ->
  same_bytes σ (Machine k2 (poke (mem (Machine k1 (poke (mem σ) t bytes) l1)) t
                                 (peeks σ t 20)) l2).
Proof.
  intros Hl a. rewrite peek_poked, length_peeks.
  destruct ((t <=? a) && _) eqn:Hin.
  - rewrite peeks_lookup by lia. by replace (t + Z.of_nat (Z.to_nat (a - t))) with a by lia.
  - rewrite peek_poked, Hl. by rewrite Hin.
Qed.

Lemma patch_body_spec σ t bytes p :
  0 < t -> t + PATCH_SIZE <= 2 ^ 64 ->
  t mod vm_page_size <= vm_page_size - PATCH_SIZE ->
  prot_at (kern σ) t = Some p -> range_readable σ t PATCH_SIZE ->
  (forall a, t <= a < t + PATCH_SIZE -> tpro_gated (kern σ) a = false) ->
  length bytes = 20%nat ->
  wp (patch_body t bytes p) σ (patch_contract t bytes p σ).
Proof using Laws.
  intros Ht Hend Hm Hp Hr Hg Hl. unfold patch_body, RorkHookMakeMemoryWritable.
  eapply wp_call; [by apply (load_bytes_ok σ t 20)|].
  assert (0 < PATCH_SIZE) as Hps by done.
  destruct (RorkHookProtectMemory_spec σ t PATCH_SIZE 19 Ht Hps Hend)
    as (r1 & k1 & _ & E1 & S1 & W1 & Ok1 & No1).
  eapply wp_call; [exact E1|]. destruct (Z.eqb_spec r1 KERN_SUCCESS) as [->|Hr1]; cbn [negb].
  2:{ apply wp_ret. split; [done|done|done|]. intros _. split; [done|].
      left. split; [by apply No1|done]. }
  specialize (Ok1 eq_refl). clear No1 E1.
  assert (forall m l, range_writable (Machine k1 m l) t PATCH_SIZE) as Hw1.
  { intros m l. by eapply (patch_writable σ k1 l t p 19). }
  eapply wp_call; [apply store_bytes_ok; rewrite Hl; apply Hw1|].
  eapply wp_call; [done|]. cbn [kern mem log].
  match goal with |- wp _ ?s _ => set (σ1 := s) end.
  destruct (RorkHookProtectMemory_spec σ1 t PATCH_SIZE p Ht Hps Hend)
    as (r2 & k2 & _ & E2 & S2 & W2 & Ok2 & No2).
  eapply wp_call; [exact E2|]. cbn [kern mem log σ1] in S2, W2, Ok2, No2 |- *.
  destruct (Z.eqb_spec r2 KERN_SUCCESS) as [->|Hr2]; cbn [negb].
  - eapply wp_call; [done|]. apply wp_ret. cbn [kern mem log].
    split; cbn [kern mem log]; [by eapply same_process_trans|by rewrite W2| |done].
    intros _. split_and!.
    + rewrite <- Hl at 1. apply peeks_poked.
    + intros a Ha. rewrite peek_poked, Hl. unfold PATCH_SIZE in Ha.
      by replace ((t <=? a) && (a <? t + Z.of_nat 20)) with false by lia.
    + eapply (reprotect_page (kern σ) k1); eauto with lia.
    + done.
  - clear E2. assert (range_writable (Machine k2 (mem σ1)
      (EvProtect t PATCH_SIZE p r2 :: log σ1)) t PATCH_SIZE) as Hw2.
    { intros a Ha. pose proof (Hw1 (mem σ1) (log σ1) a Ha) as Hw. unfold writable in *.
      cbn [kern] in *. rewrite (No2 Hr2), (proj1 S2). by rewrite W2. }
    eapply wp_call; [apply store_bytes_ok; rewrite length_peeks; apply Hw2|].
    eapply wp_call; [done|]. cbn [kern mem log].
    match goal with |- wp _ ?s _ => set (σ2 := s) end.
    destruct (RorkHookProtectMemory_spec σ2 t PATCH_SIZE p Ht Hps Hend)
      as (r3 & k3 & _ & E3 & S3 & W3 & Ok3 & _).
    eapply wp_call; [exact E3|]. cbn [kern mem log σ2] in S3, W3, Ok3 |- *.
    eapply wp_call; [done|]. apply wp_ret. cbn [kern mem log].
    split; cbn [kern mem log]; [|by rewrite W3, W2|done|].
    + eapply same_process_trans; [exact S1|]. by eapply same_process_trans.
    + intros _. split; [exact (store_back σ k1 _ [] _ t bytes Hl)|]. right. exists r3. split; [|done].
      intros Hr3. eapply (reprotect_page (kern σ) k1 k3); eauto with lia.
      intros a. by rewrite (Ok3 Hr3), (No2 Hr2).
Qed.

Lemma page_fits a : is_u64 a -> a mod vm_page_size <= vm_page_size - PATCH_SIZE ->
  a + PATCH_SIZE <= 2 ^ 64.
Proof using Laws.
  unfold is_u64. intros Ha Hm. destruct page_size_pow2 as (n & Hn & E). rewrite E in *.
  assert (2 ^ 64 = 2 ^ n * 2 ^ (64 - n)) as E64.
  { rewrite <- Z.pow_add_r by lia. f_equal. lia. }
  assert (0 < 2 ^ n) by (apply Z.pow_pos_nonneg; lia).
  assert (a / 2 ^ n < 2 ^ (64 - n)) by (apply Z.div_lt_upper_bound; lia).
  pose proof (Z.div_mod a (2 ^ n)). nia.
Qed.

(** An accepted call's range: where it lies, and what it may be used for. *)
Lemma patch_accepted σ function patchableBytes replacement :
  is_u64 function -> patch_error (kern σ) function patchableBytes replacement = None ->
  let t := jump_target function in
  0 < t /\ t mod 4 = 0 /\ t + PATCH_SIZE <= 2 ^ 64 /\
  t mod vm_page_size <= vm_page_size - PATCH_SIZE /\
  prot_at (kern σ) t = Some (page_protection (kern σ) t) /\
  prot_has (page_protection (kern σ) t) VM_PROT_EXECUTE = true /\
  range_readable σ t PATCH_SIZE /\ replacement <> NULL /\ defined_arm64 = true.
Proof using Laws.
  intros Hf%jump_target_u64 He t. unfold patch_error in He. fold t in He, Hf.
  destruct defined_arm64; [|done]. cbn [negb] in He.
  destruct ((function =? NULL) || _ || _) eqn:Hargs in He; [done|]. cbv zeta in He.
  destruct (_ || (_ <? t mod vm_page_size)) eqn:Hal in He; [done|].
  destruct (memory_is_readable (kern σ) t PATCH_SIZE) eqn:Hr; [|done]. cbn [negb] in He.
  unfold page_protection. destruct (region_at (kern σ) t) as [r|] eqn:Hreg; [|done].
  destruct (prot_has _ _) eqn:Hx; [|done].
  assert (t <> 0) as Ht0.
  { intros E. unfold region_at in Hreg. by rewrite E in Hreg. }
  apply region_at_sound in Hreg as (Hlo & Hhi & _ & Hp).
  assert (t mod vm_page_size <= vm_page_size - PATCH_SIZE) as Hm by lia.
  split_and!; [unfold is_u64 in Hf; lia|lia|by apply page_fits|done|apply Hp; lia|done| |
               unfold NULL in *; lia|done].
  by apply memory_is_readable_sound.
Qed.
End Patch.

(** ** Properties *)

Section Properties.
Context {K : Type} {T : Target} {Kern : Kernel K} {Laws : KernelLaws K}.
Implicit Types σ : machine K.

Lemma ReplaceFunctionWithSize_contract σ function patchableBytes replacement :
  is_u64 function ->
  (forall a, jump_target function <= a < jump_target function + PATCH_SIZE ->
     tpro_gated (kern σ) a = false) ->
  let t := jump_target function in
  match patch_error (kern σ) function patchableBytes replacement with
  | Some error => RorkHookReplaceFunctionWithSize function patchableBytes replacement σ =
                  Ret error σ
  | None => wp (RorkHookReplaceFunctionWithSize function patchableBytes replacement) σ
              (patch_contract t (jump_bytes replacement) (page_protection (kern σ) t) σ)
  end.
Proof using Laws.
  intros Hf Hg t. pose proof (RorkHookReplaceFunctionWithSize_eq σ function patchableBytes
    replacement Hf) as Heq.
  destruct (patch_error _ _ _ _) eqn:He; [done|]. unfold wp. rewrite Heq.
  destruct (patch_accepted σ _ _ _ Hf He) as (Ht & _ & Hend & Hm & Hp & _ & Hr & _).
  by apply patch_body_spec.
Qed.

Lemma patch_error_nonzero (k : K) function patchableBytes replacement e :
  patch_error k function patchableBytes replacement = Some e -> e <> KERN_SUCCESS.
Proof.
  unfold patch_error. cbv zeta. intros He.
  repeat case_match; simplify_eq; done.
Qed.

(** The encoder writes nothing and returns zero when the destination or
    the buffer is missing, the buffer is too small, or the target is not arm64;
    otherwise it returns the word count, the first five words are the encodings
    of the jump to the destination stripped of its signature, and the rest of
    the buffer is untouched. *)
Theorem RorkHookBuildAbsoluteJump_spec destination words capacity :
  Z.of_nat (length words) = capacity ->
  RorkHookBuildAbsoluteJump destination None capacity = (0, None) /\
  RorkHookBuildAbsoluteJump destination (Some words) capacity =
  if defined_arm64 && negb (destination =? NULL) && (5 <=? capacity)
  then (5, Some ((encode <$> jump_code (jump_target destination)) ++ drop 5 words))
  else (0, Some words).
Proof.
  intros <-. split; [unfold RorkHookBuildAbsoluteJump; by destruct defined_arm64|].
  destruct (defined_arm64 && _ && _) eqn:E.
  - rewrite RorkHookBuildAbsoluteJump_eq; [done|..];
      unfold RORK_HOOK_ABSOLUTE_JUMP_WORDS; destruct defined_arm64; lia || done.
  - unfold RorkHookBuildAbsoluteJump, RORK_HOOK_ABSOLUTE_JUMP_WORDS.
    destruct defined_arm64; [|done].
    by replace ((destination =? NULL) || _) with true by lia.
Qed.

(** C2: installing a detour.  A call is refused with the first error of its
    argument checks, the machine untouched; an accepted call never faults,
    returns [KERN_SUCCESS] only with the code written, flushed, made visible to
    instruction fetch last and its page protected as before, and returns the
    error of the refused protection change otherwise, with every byte of the
    function as it was.  The function's page must not be guarded by TPRO. *)
Theorem RorkHookReplaceFunctionWithSize_transaction σ function patchableBytes replacement :
  is_u64 function ->
  (forall a, jump_target function <= a < jump_target function + PATCH_SIZE ->
     tpro_gated (kern σ) a = false) ->
  let t := jump_target function in
  match patch_error (kern σ) function patchableBytes replacement with
  | Some error => RorkHookReplaceFunctionWithSize function patchableBytes replacement σ =
                  Ret error σ
  | None => wp (RorkHookReplaceFunctionWithSize function patchableBytes replacement) σ
              (patch_contract t (jump_bytes replacement) (page_protection (kern σ) t) σ)
  end.
Proof using Laws. apply ReplaceFunctionWithSize_contract. Qed.

(** C3: a detour works.  After [RorkHookReplaceFunction] reports success, a
    processor that enters the function reaches the replacement within five
    instructions, whatever its registers hold, having changed only the
    intra-procedure-call register x16; and the code is still executable. *)
Theorem RorkHookReplaceFunction_detours σ function replacement σ' (x : registers) :
  is_u64 function -> is_u64 replacement -> is_u64 (x 16) ->
  (forall a, jump_target function <= a < jump_target function + PATCH_SIZE ->
     tpro_gated (kern σ) a = false) ->
  RorkHookReplaceFunction function replacement σ = Ret KERN_SUCCESS σ' ->
  (exists x', cpu_run 5 σ' (jump_target function, x) = Some (jump_target replacement, x') /\
     forall r, r <> 16 -> x' r = x r) /\
  exists p, prot_at (kern σ') (jump_target function) = Some p /\
    prot_has p VM_PROT_EXECUTE = true.
Proof using Laws.
  intros Hf Hr Hx Hg Hrun. unfold RorkHookReplaceFunction in Hrun.
  change (4 * RORK_HOOK_ABSOLUTE_JUMP_WORDS) with PATCH_SIZE in Hrun.
  pose proof (ReplaceFunctionWithSize_contract σ function PATCH_SIZE replacement Hf Hg) as Hc.
  cbv zeta in Hc. destruct (patch_error _ _ _ _) as [e|] eqn:He.
  { rewrite Hc in Hrun. injection Hrun as ->. by apply patch_error_nonzero in He. }
  apply wp_inv in Hc as (res & σ1 & Hrun' & Hc). rewrite Hrun in Hrun'.
  injection Hrun' as <- <-. destruct (pt_success _ _ _ _ _ _ Hc eq_refl) as (Hb & _ & Hs & _).
  destruct (patch_accepted σ _ _ _ Hf He) as (_ & _ & _ & _ & Hp & Hxp & _).
  split.
  - apply cpu_run_jump; [by apply jump_target_u64|done|]. intros i w Hi.
    by apply (word_bytes_peek σ' _ (jump_words (jump_target replacement)));
      [apply jump_words_u32| |].
  - eexists. rewrite Hs. by split.
Qed.
End Properties.

(** ** Witnesses *)

(** An executable page holding a function at [0x4010], in a process where the
    protection change that follows the patch is refused in the second machine. *)
Definition code_machine : machine sim :=
  sim_machine [(1, 5)] [(0x4010, le_split 32 0x0123456789abcdef0123456789abcdef)].
Definition stubborn_machine : machine sim :=
  scripted [KERN_SUCCESS; KERN_PROTECTION_FAILURE] code_machine.

Lemma RorkHookBuildAbsoluteJump_spec_witness :
  let _ := device in
  fst (RorkHookBuildAbsoluteJump 0x1122334455667788 (Some [1; 2; 3; 4; 5; 6]) 6) = 5 /\
  RorkHookBuildAbsoluteJump 0x1122334455667788 None 6 = (0, None) /\
  RorkHookBuildAbsoluteJump 0x1122334455667788 (Some [1; 2; 3; 4; 5; 6]) 6 =
  if defined_arm64 && negb (0x1122334455667788 =? NULL) && (5 <=? 6)
  then (5, Some ((encode <$> jump_code (jump_target 0x1122334455667788)) ++
                 drop 5 [1; 2; 3; 4; 5; 6]))
  else (0, Some [1; 2; 3; 4; 5; 6]).
Proof.
  intros D. split; [done|].
  apply (RorkHookBuildAbsoluteJump_spec (T := device) 0x1122334455667788 [1; 2; 3; 4; 5; 6] 6).
  done.
Defined.

Lemma RorkHookReplaceFunctionWithSize_transaction_witness :
  let _ := device in
  result_of (RorkHookReplaceFunctionWithSize 0x4010 64 0x8000 stubborn_machine) =
    Some KERN_PROTECTION_FAILURE /\
  wp (RorkHookReplaceFunctionWithSize 0x4010 64 0x8000) stubborn_machine
    (patch_contract 0x4010 (jump_bytes 0x8000) 5 stubborn_machine).
Proof.
  intros D. split; [by vm_compute|].
  pose proof (RorkHookReplaceFunctionWithSize_transaction (T := device) stubborn_machine
    0x4010 64 0x8000 ltac:(done) ltac:(done)) as Hc. cbv zeta in Hc.
  replace (patch_error (T := device) (kern stubborn_machine) 0x4010 64 0x8000) with (@None Z)
    in Hc by (by vm_compute).
  replace (jump_target (T := device) 0x4010) with 0x4010 in Hc by (by vm_compute).
  replace (page_protection (kern stubborn_machine) 0x4010) with 5 in Hc by (by vm_compute).
  exact Hc.
Defined.

Lemma RorkHookReplaceFunction_detours_witness :
  let _ := device in
  let σ' := final code_machine (RorkHookReplaceFunction 0x4010 0x8000 code_machine) in
  (exists x', cpu_run 5 σ' (jump_target 0x4010, fun r => r) = Some (jump_target 0x8000, x') /\
     forall r, r <> 16 -> x' r = r) /\
  exists p, prot_at (kern σ') (jump_target 0x4010) = Some p /\
    prot_has p VM_PROT_EXECUTE = true.
Proof.
  intros D σ'.
  apply (RorkHookReplaceFunction_detours (T := device) code_machine 0x4010 0x8000 σ'
    (fun r => r)); [done..|by vm_compute].
Defined.
