(* ===== verification/Symbols.v ===== *)
(** Private symbol lookup in loaded and in file-mapped images:
    RorkHookSymbols.c. *)
From S2P Require Import Prelude Machine Logic Sim CString Regions LoadCommands.

(** ** Records of <mach-o/loader.h> and <mach-o/nlist.h> *)

Definition LC_SYMTAB : Z := 2.
Definition sizeof_symtab_command : Z := 24.
Definition sizeof_nlist : Z := 16.
Definition N_TYPE : Z := 0x0e.
Definition N_SECT : Z := 0x0e.

(** ["__LINKEDIT"], the name <mach-o/loader.h> gives [SEG_LINKEDIT]. *)
Definition SEG_LINKEDIT : list byte :=
  byte_of <$> [0x5f; 0x5f; 0x4c; 0x49; 0x4e; 0x4b; 0x45; 0x44; 0x49; 0x54].

Section SymbolRecords.
Context {K : Type} {Kern : Kernel K}.

(* struct symtab_command *)
Definition symtab_symoff (symtab : Z) : M K Z := load_u32 (symtab + 8).
Definition symtab_nsyms (symtab : Z) : M K Z := load_u32 (symtab + 12).
Definition symtab_stroff (symtab : Z) : M K Z := load_u32 (symtab + 16).
Definition symtab_strsize (symtab : Z) : M K Z := load_u32 (symtab + 20).
End SymbolRecords.

(** A local copy of a [struct nlist_64]. *)
Record nlist := NList {
  n_strx : Z;
  n_type : Z;
  n_sect : Z;
  n_desc : Z;
  n_value : Z
}.

Definition nlist_of_bytes (bytes : list byte) : nlist :=
  NList (le_combine (take 4 bytes)) (le_combine (take 1 (drop 4 bytes)))
        (le_combine (take 1 (drop 5 bytes))) (le_combine (take 2 (drop 6 bytes)))
        (le_combine (take 8 (drop 8 bytes))).

Section Symbols.
Context {K : Type} {T : Target} {Kern : Kernel K}.
Implicit Types σ : machine K.

(** ** Operations *)

Record RorkHookFindSymtabContext := FindSymtabContext {
  context_symtab : Z;
  context_linkedit : Z
}.

Definition RorkHookFindSymtabLoadCommand : visitor_fn (K:=K) RorkHookFindSymtabContext :=
  fun command _ contextRaw =>
  if command =? NULL then ret (false, contextRaw) else
  match contextRaw with
  | None => ret (false, None)
  | Some context =>
  let* isSymtab :=
    (let* cmd := command_cmd command in ret (cmd =? LC_SYMTAB)) <&&>
    (let* cmdsize := command_cmdsize command in ret (sizeof_symtab_command <=? cmdsize)) in
  if isSymtab then ret (true, Some (FindSymtabContext command (context_linkedit context))) else
  let* isSegment :=
    (let* cmd := command_cmd command in ret (cmd =? RORK_HOOK_LC_SEGMENT)) <&&>
    (let* cmdsize := command_cmdsize command in ret (sizeof_segment_command <=? cmdsize)) in
  if isSegment then
    let segment := command in
    let* segname := segment_segname segment in
    if strncmp_eq segname SEG_LINKEDIT 16
    then ret (true, Some (FindSymtabContext (context_symtab context) segment))
    else ret (true, contextRaw)
  else ret (true, contextRaw)
  end.

Definition RorkHookFindSymtab (header mappedSize : Z) (linkeditOut : option Z)
    : M K (Z * option Z) :=
  let linkeditOut := write_out linkeditOut NULL in
  let* (valid, context) :=
    RorkHookForEachLoadCommandWithSize header mappedSize
      (Some RorkHookFindSymtabLoadCommand) (Some (FindSymtabContext NULL NULL)) in
  match context with
  | Some context =>
      if negb valid then ret (NULL, linkeditOut) else
      ret (context_symtab context, write_out linkeditOut (context_linkedit context))
  | None => ret (NULL, linkeditOut)
  end.

Definition RorkHookRangeIsValid (offset length totalSize : Z) : bool :=
  (offset <=? totalSize) && (length <=? u64 (totalSize - offset)).

Definition RorkHookSymbolTableSize (symbolCount : Z) (sizeOut : option Z)
    : bool * option Z :=
  match sizeOut with
  | None => (false, None)
  | Some _ =>
      let product := symbolCount * sizeof_nlist in     (* __builtin_mul_overflow *)
      if SIZE_MAX <? product then (false, sizeOut) else (true, Some product)
  end.

Definition RorkHookFileRangeInSegment (fileOffset length segment : Z)
    (relativeOffsetOut : option Z) : M K (bool * option Z) :=
  if segment =? NULL then ret (false, relativeOffsetOut) else
  match relativeOffsetOut with
  | None => ret (false, None)
  | Some _ =>
  let* fileoff := segment_fileoff segment in
  if fileOffset <? fileoff then ret (false, relativeOffsetOut) else
  let relativeOffset := u64 (fileOffset - fileoff) in
  let* filesize := segment_filesize segment in
  if (filesize <? relativeOffset) || (u64 (filesize - relativeOffset) <? length)
  then ret (false, relativeOffsetOut)
  else ret (true, Some relativeOffset)
  end.

(** One iteration of the symbol loop: [inr None] is the final [return false]. *)
Definition entry_step (symbols stringTable stringTableSize symbolCount : Z)
    (symbolName : list byte) (index : Z) : M K (Z + option nlist) :=
  let symbolNameLength := Z.of_nat (length symbolName) in
  if negb (index <? symbolCount) then ret (inr None) else
  let continue := inl (u32 (index + 1)) in
  let* bytes := load_bytes (symbols + index * sizeof_nlist) 16 in
  let entry := nlist_of_bytes bytes in
  let stringOffset := n_strx entry in
  if (stringOffset =? 0) || (stringTableSize <=? stringOffset) ||
     negb (Z.land (n_type entry) N_TYPE =? N_SECT)
  then ret continue else
  let candidate := stringTable + stringOffset in
  let remaining := u64 (stringTableSize - stringOffset) in
  let* terminator := memchr candidate 0 remaining in
  match terminator with
  | None => ret continue
  | Some terminator =>
      let candidateLength := u64 (terminator - candidate) in
      let* equal :=
        if candidateLength =? symbolNameLength
        then memcmp_eq candidate symbolName candidateLength else ret false in
      if equal then ret (inr (Some entry)) else ret continue
  end.

Definition RorkHookFindSymbolEntry (symbols stringTable stringTableSize symbolCount : Z)
    (symbolName : option (list byte)) (entryOut : option nlist)
    : M K (bool * option nlist) :=
  if (symbols =? NULL) || (stringTable =? NULL) then ret (false, entryOut) else
  match symbolName, entryOut with
  | Some symbolName, Some _ =>
      let* found :=
        loopM FUEL32
          (entry_step symbols stringTable stringTableSize symbolCount symbolName) 0 in
      match found with
      | Some entry => ret (true, Some entry)
      | None => ret (false, entryOut)
      end
  | _, _ => ret (false, entryOut)
  end.

Definition RorkHookApplySlide (address slide : Z) (resultOut : option Z)
    : bool * option Z :=
  match resultOut with
  | None => (false, None)
  | Some _ =>
      if UINTPTR_MAX <? address then (false, resultOut) else
      let nativeAddress := address in
      if slide <? 0 then
        let magnitude := u64 (u64 (- (slide + 1)) + 1) in
        if nativeAddress <? magnitude then (false, resultOut)
        else (true, Some (u64 (nativeAddress - magnitude)))
      else
        let magnitude := u64 slide in
        if u64 (UINTPTR_MAX - magnitude) <? nativeAddress then (false, resultOut)
        else (true, Some (u64 (nativeAddress + magnitude)))
  end.

Definition RorkHookFindSymbol (header : Z) (symbolName : option (list byte)) : M K Z :=
  match symbolName with
  | None => ret NULL
  | Some _ =>
  if header =? NULL then ret NULL else
  let* mappedSize := RorkHookReadableMemoryLength header in
  let* (symtab, linkedit) := RorkHookFindSymtab header mappedSize (Some NULL) in
  let linkedit := default NULL linkedit in
  if (symtab =? NULL) || (linkedit =? NULL) then ret NULL else
  let* nsyms := symtab_nsyms symtab in
  let '(sized, symbolBytes) := RorkHookSymbolTableSize nsyms (Some 0) in
  let symbolBytes := default 0 symbolBytes in
  if negb sized then ret NULL else
  let* (slide, slideResolved) := RorkHookImageSlide header (Some false) in
  if negb (default false slideResolved) then ret NULL else
  let* vmaddr := segment_vmaddr linkedit in
  let '(slid, linkeditAddress) := RorkHookApplySlide vmaddr slide (Some 0) in
  let linkeditAddress := default 0 linkeditAddress in
  if negb slid then ret NULL else
  let* symoff := symtab_symoff symtab in
  let* (symbolsInSegment, symbolRelativeOffset) :=
    RorkHookFileRangeInSegment symoff symbolBytes linkedit (Some 0) in
  let symbolRelativeOffset := default 0 symbolRelativeOffset in
  if negb symbolsInSegment then ret NULL else
  let* stroff := symtab_stroff symtab in
  let* strsize := symtab_strsize symtab in
  let* (stringsInSegment, stringRelativeOffset) :=
    RorkHookFileRangeInSegment stroff strsize linkedit (Some 0) in
  let stringRelativeOffset := default 0 stringRelativeOffset in
  if negb stringsInSegment then ret NULL else
  if (UINTPTR_MAX <? symbolRelativeOffset) || (UINTPTR_MAX <? stringRelativeOffset) ||
     (u64 (UINTPTR_MAX - symbolRelativeOffset) <? linkeditAddress) ||
     (u64 (UINTPTR_MAX - stringRelativeOffset) <? linkeditAddress)
  then ret NULL else
  let symbols := u64 (linkeditAddress + symbolRelativeOffset) in
  let stringTable := u64 (linkeditAddress + stringRelativeOffset) in
  if symbolBytes =? 0 then ret NULL else
  let* symbolsReadable := RorkHookMemoryIsReadable symbols symbolBytes in
  if negb symbolsReadable then ret NULL else
  let* strsize := symtab_strsize symtab in
  if strsize =? 0 then ret NULL else
  let* stringsReadable := RorkHookMemoryIsReadable stringTable strsize in
  if negb stringsReadable then ret NULL else
  let* nsyms := symtab_nsyms symtab in
  let* (found, entry) :=
    RorkHookFindSymbolEntry symbols stringTable strsize nsyms symbolName
      (Some (NList 0 0 0 0 0)) in
  match entry with
  | Some entry =>
      if negb found then ret NULL else
      let '(applied, symbolAddress) := RorkHookApplySlide (n_value entry) slide (Some 0) in
      if negb applied then ret NULL else
      RorkHookSignPointerIfExecutable (default 0 symbolAddress)
  | None => ret NULL
  end
  end.

Record RorkHookFileAddressContext := FileAddressContext {
  context_virtualAddress : Z;
  context_fileOffset : Z;
  context_address_found : bool
}.

Definition RorkHookFindFileAddressLoadCommand : visitor_fn (K:=K) RorkHookFileAddressContext :=
  fun command _ contextRaw =>
  if command =? NULL then ret (false, contextRaw) else
  match contextRaw with
  | None => ret (false, None)
  | Some context =>
  let* cmd := command_cmd command in
  if negb (cmd =? RORK_HOOK_LC_SEGMENT) then ret (true, contextRaw) else
  let* cmdsize := command_cmdsize command in
  if cmdsize <? sizeof_segment_command then ret (true, contextRaw) else
  let segment := command in
  let* vmaddr := segment_vmaddr segment in
  if context_virtualAddress context <? vmaddr then ret (true, contextRaw) else
  let segmentOffset := u64 (context_virtualAddress context - vmaddr) in
  let* vmsize := segment_vmsize segment in
  if vmsize <=? segmentOffset then ret (true, contextRaw) else
  let* filesize := segment_filesize segment in
  if filesize <=? segmentOffset then ret (true, contextRaw) else
  let* fileoff := segment_fileoff segment in
  if u64 (UINT64_MAX - fileoff) <? segmentOffset then ret (true, contextRaw) else
  ret (false, Some (FileAddressContext (context_virtualAddress context)
                      (u64 (fileoff + segmentOffset)) true))
  end.

Definition RorkHookFindSymbolInFileImageWithSize (header mappedSize : Z)
    (symbolName : option (list byte)) : M K Z :=
  match symbolName with
  | None => ret NULL
  | Some _ =>
  if (header =? NULL) || (mappedSize <? sizeof_mach_header) then ret NULL else
  let* isReadable := RorkHookMemoryIsReadable header mappedSize in
  if negb isReadable then ret NULL else
  let* (symtab, _) := RorkHookFindSymtab header mappedSize None in
  if symtab =? NULL then ret NULL else
  let* nsyms := symtab_nsyms symtab in
  let '(sized, symbolBytes) := RorkHookSymbolTableSize nsyms (Some 0) in
  let symbolBytes := default 0 symbolBytes in
  if negb sized then ret NULL else
  if symbolBytes =? 0 then ret NULL else
  let* symoff := symtab_symoff symtab in
  if negb (RorkHookRangeIsValid symoff symbolBytes mappedSize) then ret NULL else
  let* strsize := symtab_strsize symtab in
  if strsize =? 0 then ret NULL else
  let* stroff := symtab_stroff symtab in
  if negb (RorkHookRangeIsValid stroff strsize mappedSize) then ret NULL else
  let bytes := header in
  let symbols := bytes + symoff in
  let stringTable := bytes + stroff in
  let* (found, entry) :=
    RorkHookFindSymbolEntry symbols stringTable strsize nsyms symbolName
      (Some (NList 0 0 0 0 0)) in
  match entry with
  | None => ret NULL
  | Some entry =>
  if negb found then ret NULL else
  let* (delivered, context) :=
    RorkHookForEachLoadCommandWithSize header mappedSize
      (Some RorkHookFindFileAddressLoadCommand)
      (Some (FileAddressContext (n_value entry) 0 false)) in
  match context with
  | None => ret NULL
  | Some context =>
  if negb delivered || negb (context_address_found context) ||
     (SIZE_MAX <? context_fileOffset context) ||
     negb (RorkHookRangeIsValid (context_fileOffset context) 1 mappedSize)
  then ret NULL
  else RorkHookSignPointerIfExecutable (bytes + context_fileOffset context)
  end
  end
  end.

Definition RorkHookFindSymbolInFileImage (header : Z) (symbolName : option (list byte))
    : M K Z :=
  match symbolName with
  | None => ret NULL
  | Some _ =>
      if header =? NULL then ret NULL else
      let* mappedSize := RorkHookReadableMemoryLength header in
      RorkHookFindSymbolInFileImageWithSize header mappedSize symbolName
  end.
End Symbols.

(** ** The symbol table *)

Section Table.
Context {K : Type} {Kern : Kernel K}.
Implicit Types σ : machine K.

Definition entry_at σ (symbols i : Z) : nlist :=
  nlist_of_bytes (peeks σ (symbols + i * sizeof_nlist) 16).

(** A symbol defined in a section, whose name, wholly inside the string table,
    is the one asked for. *)
Definition entry_matches σ (strings size : Z) (name : list byte) (e : nlist) : bool :=
  negb (n_strx e =? 0) && (n_strx e <? size) && (Z.land (n_type e) N_TYPE =? N_SECT) &&
  bool_decide (cstring σ (strings + n_strx e) (size - n_strx e) = Some name).

Fixpoint find_entry σ (symbols strings size : Z) (name : list byte) (n : nat) (i : Z)
    : option nlist :=
  match n with
  | O => None
  | S n =>
      if entry_matches σ strings size name (entry_at σ symbols i)
      then Some (entry_at σ symbols i)
      else find_entry σ symbols strings size name n (i + 1)
  end.

Lemma find_entry_spec σ symbols strings size name n i e :
  find_entry σ symbols strings size name n i = Some e <->
  exists j, i <= j < i + Z.of_nat n /\ e = entry_at σ symbols j /\
    entry_matches σ strings size name e = true /\
    forall k, i <= k < j ->
      entry_matches σ strings size name (entry_at σ symbols k) = false.
Proof.
  revert i. induction n as [|n IH]; intros i; cbn [find_entry].
  { split; [done|]. intros (j & ? & _). lia. }
  destruct (entry_matches _ _ _ _ (entry_at σ symbols i)) eqn:Hm.
  - split.
    + intros [= <-]. exists i. split_and!; [lia|lia|done|done|]. intros; lia.
    + intros (j & Hj & -> & Hmj & Hno). destruct (Z.eq_dec j i) as [->|]; [done|].
      rewrite (Hno i) in Hm by lia. done.
  - rewrite IH. split.
    + intros (j & Hj & -> & Hmj & Hno). exists j. split_and!; [lia|lia|done|done|].
      intros k Hk. destruct (Z.eq_dec k i) as [->|]; [done|]. apply Hno. lia.
    + intros (j & Hj & -> & Hmj & Hno). destruct (Z.eq_dec j i) as [->|]; [congruence|].
      exists j. split_and!; [lia|lia|done|done|]. intros k Hk. apply Hno. lia.
Qed.

Lemma find_entry_some σ symbols strings size name n i j :
  i <= j < i + Z.of_nat n -> entry_matches σ strings size name (entry_at σ symbols j) = true ->
  exists e, find_entry σ symbols strings size name n i = Some e.
Proof.
  revert i. induction n as [|n IH]; intros i Hj Hm; [lia|]. cbn [find_entry].
  destruct (entry_matches _ _ _ _ (entry_at σ symbols i)) eqn:Hi; [by eexists|].
  apply IH; [|done]. destruct (Z.eq_dec j i) as [->|]; [congruence|lia].
Qed.

Lemma entry_at_strx σ symbols i : 0 <= n_strx (entry_at σ symbols i) < 2 ^ 32.
Proof.
  unfold entry_at, nlist_of_bytes. cbn [n_strx]. rewrite peeks_take by lia.
  apply peek_u32_range.
Qed.

Lemma entry_at_value σ symbols i : is_u64 (n_value (entry_at σ symbols i)).
Proof.
  unfold entry_at, nlist_of_bytes. cbn [n_value].
  change 16%nat with (8 + 8)%nat. rewrite peeks_app, drop_app_length' by by rewrite length_peeks.
  rewrite peeks_take by lia. apply peek_u64_range.
Qed.

Context σ (symbols strings size count : Z) (name : list byte).
Context (Hsymbols : range_readable σ symbols (count * sizeof_nlist)).
Context (Hstrings : range_readable σ strings size).
Context (Hcount : is_u32 count) (Hsize : is_u32 size).

Lemma entry_step_eq i :
  0 <= i < count ->
  entry_step symbols strings size count name i σ =
  Ret (if entry_matches σ strings size name (entry_at σ symbols i)
       then inr (Some (entry_at σ symbols i)) else inl (i + 1)) σ.
Proof using Hsymbols Hstrings Hcount Hsize.
  intros Hi. unfold entry_step. unfold is_u32, sizeof_nlist in *.
  replace (i <? count) with true by lia. cbn [negb].
  rewrite (u32_small (i + 1)) by (unfold is_u32; lia).
  erewrite bind_Ret by (apply load_bytes_ok; eapply range_readable_sub; [exact Hsymbols|lia|lia]).
  fold sizeof_nlist. fold (entry_at σ symbols i). set (e := entry_at σ symbols i).
  pose proof (entry_at_strx σ symbols i) as Hx. fold e in Hx.
  cbv zeta. unfold entry_matches. rewrite Z.leb_antisym.
  destruct (n_strx e =? 0); [done|]. destruct (n_strx e <? size) eqn:Hlt; [|done].
  destruct (_ =? N_SECT); [|done]. cbn [negb orb andb].
  rewrite (u64_small (size - _)) by (unfold is_u64; lia).
  assert (range_readable σ (strings + n_strx e) (size - n_strx e)) as Hr.
  { eapply range_readable_sub; [exact Hstrings|lia|lia]. }
  erewrite bind_Ret by (apply memchr_eq; [lia|done]).
  destruct (cstring σ _ _) as [str|] eqn:Hs; [|done]. cbn [fmap option_fmap option_map].
  assert (0 <= size - n_strx e) as Hpos by lia.
  destruct (candidate_eq σ _ _ str name Hpos Hs) as [Hl <-].
  replace (strings + n_strx e + Z.of_nat (length str) - (strings + n_strx e))
    with (Z.of_nat (length str)) by lia.
  rewrite u64_small by (unfold is_u64; lia).
  destruct (_ =? Z.of_nat (length name)); [|done]. cbn [andb].
  unfold memcmp_eq. rewrite Nat2Z.id. unfold bind.
  rewrite load_bytes_ok by (eapply range_readable_sub; [exact Hr|lia|lia]).
  unfold ret. by destruct (bool_decide _).
Qed.

Lemma entry_loop n extra i :
  0 <= i -> i + Z.of_nat n = count ->
  loopN (S n + extra) (entry_step symbols strings size count name) i σ =
  Ret (find_entry σ symbols strings size name n i) σ.
Proof using Hsymbols Hstrings Hcount Hsize.
  revert i. induction n as [|n IH]; intros i Hi Hn.
  - apply loopN_stop. unfold entry_step. by replace (i <? count) with false by lia.
  - cbn [Nat.add find_entry]. rewrite loopN_S. unfold bind. rewrite entry_step_eq by lia.
    destruct (entry_matches _ _ _ _ _); [done|]. apply IH; lia.
Qed.

Lemma RorkHookFindSymbolEntry_eq old :
  symbols <> NULL -> strings <> NULL ->
  RorkHookFindSymbolEntry symbols strings size count (Some name) (Some old) σ =
  Ret (match find_entry σ symbols strings size name (Z.to_nat count) 0 with
       | Some e => (true, Some e)
       | None => (false, Some old)
       end) σ.
Proof using Hsymbols Hstrings Hcount Hsize.
  intros H1%Z.eqb_neq H2%Z.eqb_neq. unfold RorkHookFindSymbolEntry. rewrite H1, H2. cbn [orb].
  unfold bind. rewrite loopM_loopN. unfold is_u32 in Hcount.
  replace (Pos.to_nat FUEL32) with
    (S (Z.to_nat count) + (Pos.to_nat FUEL32 - S (Z.to_nat count)))%nat by (unfold FUEL32; lia).
  rewrite entry_loop by lia. by destruct (find_entry _ _ _ _ _ _ _).
Qed.
End Table.

(** ** Addresses, ranges and the load commands of a symbol lookup *)

(** [address + slide], where it is an address. *)
Definition slide_address (address slide : Z) : option Z :=
  if (0 <=? address + slide) && (address + slide <=? UINTPTR_MAX)
  then Some (address + slide) else None.

Lemma RorkHookApplySlide_eq address slide old :
  is_u64 address -> is_s64 slide ->
  RorkHookApplySlide address slide (Some old) =
  match slide_address address slide with
  | Some a => (true, Some a)
  | None => (false, Some old)
  end.
Proof.
  unfold is_u64, is_s64, RorkHookApplySlide, slide_address, UINTPTR_MAX, UINT64_MAX.
  intros Ha Hs. replace (2 ^ 64 - 1 <? address) with false by lia.
  destruct (Z.ltb_spec slide 0).
  - rewrite (u64_small (- (slide + 1))), (u64_small (_ + 1)) by (unfold is_u64; lia).
    destruct ((0 <=? _) && _) eqn:E; destruct (address <? _) eqn:E'; try lia; [|done].
    rewrite u64_small by (unfold is_u64; lia). do 2 f_equal. lia.
  - rewrite (u64_small slide) by (unfold is_u64; lia).
    rewrite (u64_small (_ - slide)) by (unfold is_u64; lia).
    destruct ((0 <=? _) && _) eqn:E; destruct (_ <? address) eqn:E'; try lia; [|done].
    by rewrite u64_small by (unfold is_u64; lia).
Qed.

Lemma RorkHookRangeIsValid_eq offset length total :
  is_u64 offset -> is_u64 total -> 0 <= length ->
  RorkHookRangeIsValid offset length total = (offset + length <=? total).
Proof.
  unfold is_u64, RorkHookRangeIsValid. intros. destruct (Z.leb_spec offset total).
  - cbn [andb]. rewrite u64_small by (unfold is_u64; lia).
    destruct (Z.leb_spec length (total - offset)), (Z.leb_spec (offset + length) total); done || lia.
  - by replace (offset + length <=? total) with false by lia.
Qed.

Lemma RorkHookSymbolTableSize_eq count old :
  is_u32 count ->
  RorkHookSymbolTableSize count (Some old) = (true, Some (count * sizeof_nlist)).
Proof.
  unfold is_u32, RorkHookSymbolTableSize, sizeof_nlist, SIZE_MAX, UINT64_MAX. intros.
  by replace (_ <? _) with false by lia.
Qed.

Section SegmentLemmas.
Context {K : Type} {T : Target} {Kern : Kernel K}.
Implicit Types σ : machine K.

(** The part of a segment's file content a file range occupies. *)
Definition file_range σ (offset length segment : Z) : option Z :=
  let fileoff := peek_u64 σ (segment + 40) in
  let filesize := peek_u64 σ (segment + 48) in
  if (fileoff <=? offset) && (offset - fileoff <=? filesize) &&
     (offset - fileoff + length <=? filesize)
  then Some (offset - fileoff) else None.

Lemma RorkHookFileRangeInSegment_eq σ offset length segment old :
  is_u64 offset -> segment <> NULL -> range_readable σ (segment + 40) 16 ->
  RorkHookFileRangeInSegment offset length segment (Some old) σ =
  Ret (match file_range σ offset length segment with
       | Some relative => (true, Some relative)
       | None => (false, Some old)
       end) σ.
Proof.
  intros Ho Hn%Z.eqb_neq Hr. unfold RorkHookFileRangeInSegment, file_range. rewrite Hn.
  unfold segment_fileoff, segment_filesize.
  erewrite bind_Ret by (apply load_u64_ok; eapply range_readable_sub; [done|lia|lia]).
  pose proof (peek_u64_range σ (segment + 40)) as Hfo.
  pose proof (peek_u64_range σ (segment + 48)) as Hfs. unfold is_u64 in *.
  rewrite Z.leb_antisym. destruct (offset <? _) eqn:Hlt; [done|]. cbn [negb andb].
  erewrite bind_Ret by (apply load_u64_ok; eapply range_readable_sub; [done|lia|lia]).
  rewrite (u64_small (offset - _)) by (unfold is_u64; lia).
  set (rel := offset - peek_u64 σ (segment + 40)) in *.
  destruct (Z.ltb_spec (peek_u64 σ (segment + 48)) rel).
  { by replace (rel <=? _) with false by lia. }
  replace (rel <=? _) with true by lia. cbn [orb andb].
  rewrite u64_small by (unfold is_u64; lia).
  destruct (Z.ltb_spec (peek_u64 σ (segment + 48) - rel) length),
    (Z.leb_spec (rel + length) (peek_u64 σ (segment + 48))); done || lia.
Qed.

(** What the symbol-metadata visitor computes: the last [LC_SYMTAB], and the
    last segment named [__LINKEDIT]. *)
Definition symtab_step σ (a : Z) (c : RorkHookFindSymtabContext)
    : bool * RorkHookFindSymtabContext :=
  let cmd := peek_u32 σ a in
  let size := peek_u32 σ (a + 4) in
  (true,
   if (cmd =? LC_SYMTAB) && (sizeof_symtab_command <=? size)
   then FindSymtabContext a (context_linkedit c)
   else if (cmd =? RORK_HOOK_LC_SEGMENT) && (sizeof_segment_command <=? size) &&
           strncmp_eq (peeks σ (a + 8) 16) SEG_LINKEDIT 16
   then FindSymtabContext (context_symtab c) a
   else c).

#[export] Instance symtab_visitor_reads_only a i c :
  ReadsOnly (RorkHookFindSymtabLoadCommand (K:=K) a i c).
Proof.
  unfold RorkHookFindSymtabLoadCommand, and_then, command_cmd, command_cmdsize,
    segment_segname. reads_only.
Qed.

Lemma symtab_computes σ start stop :
  computes σ start stop (fun _ => True) RorkHookFindSymtabLoadCommand (symtab_step σ).
Proof.
  intros a i c (Ha & _ & Hstop) Hr _. split; [|done]. unfold RorkHookFindSymtabLoadCommand, symtab_step.
  replace (a =? NULL) with false by (unfold NULL; lia).
  unfold and_then, command_cmd, command_cmdsize, segment_segname, bind, ret.
  unfold sizeof_symtab_command, sizeof_segment_command.
  assert (range_readable σ a 4) as H1 by (eapply range_readable_sub; [exact Hr|lia|lia]).
  assert (range_readable σ (a + 4) 4) as H2 by (eapply range_readable_sub; [exact Hr|lia|lia]).
  rewrite load_u32_ok by done. destruct (Z.eqb_spec (peek_u32 σ a) LC_SYMTAB) as [Hc|Hc].
  - rewrite load_u32_ok by done. destruct (24 <=? peek_u32 σ (a + 4)); [done|].
    rewrite load_u32_ok by done. by rewrite Hc.
  - rewrite load_u32_ok by done. destruct (_ =? RORK_HOOK_LC_SEGMENT); [|done].
    rewrite load_u32_ok by done. destruct (72 <=? peek_u32 σ (a + 4)) eqn:H72; [|done].
    rewrite load_bytes_ok by (eapply range_readable_sub; [exact Hr|lia|lia]).
    cbn [andb]. by destruct (strncmp_eq _ _ _).
Qed.

Definition symtab_of σ (header n : Z) : RorkHookFindSymtabContext :=
  match table_sizes σ header n with
  | Some sizes =>
      visit (symtab_step σ) (header + sizeof_mach_header) sizes (FindSymtabContext NULL NULL)
  | None => FindSymtabContext NULL NULL
  end.

(** What was found lies in the table. *)
Definition symtab_inside (start stop : Z) (c : RorkHookFindSymtabContext) : Prop :=
  (context_symtab c <> NULL -> start <= context_symtab c /\
     context_symtab c + sizeof_symtab_command <= stop) /\
  (context_linkedit c <> NULL -> start <= context_linkedit c /\
     context_linkedit c + sizeof_segment_command <= stop).

Lemma symtab_of_inside σ header n :
  0 <= header -> symtab_inside header (header + n) (symtab_of σ header n).
Proof.
  intros Hh. unfold symtab_of. destruct (table_sizes σ header n) eqn:Ht; [|done].
  eapply (table_visit_inv (symtab_inside header (header + n))); [done|done| |done].
  unfold symtab_inside, symtab_step, sizeof_symtab_command, sizeof_segment_command in *.
  intros b c (Hb & Hstart & Hstop) [H1 H2]. cbn [snd].
  destruct ((_ =? LC_SYMTAB) && _) eqn:E1; [|destruct (_ && _ && _) eqn:E2];
    (split; cbn [context_symtab context_linkedit]; intros; [|]); auto;
    split; lia.
Qed.

(** The members of the commands it finds that the lookup reads. *)
Lemma symtab_members_readable σ header n :
  0 <= header -> range_readable σ header n ->
  let symtab := context_symtab (symtab_of σ header n) in
  let linkedit := context_linkedit (symtab_of σ header n) in
  symtab <> NULL -> linkedit <> NULL ->
  (forall k, 0 <= k <= 20 -> range_readable σ (symtab + k) 4) /\
  range_readable σ (linkedit + 24) 8 /\ range_readable σ (linkedit + 40) 16.
Proof.
  intros Hh Hr symtab linkedit Hs Hl. destruct (symtab_of_inside σ header n Hh) as [H1 H2].
  destruct (H1 Hs) as [Hs0 Hs1]. destruct (H2 Hl) as [Hl0 Hl1].
  fold symtab in Hs0, Hs1. fold linkedit in Hl0, Hl1.
  unfold sizeof_symtab_command, sizeof_segment_command in *.
  split_and!; intros; (eapply range_readable_sub; [exact Hr| |]; lia).
Qed.

(** Every member of the table [RorkHookFindSymtab] searches lies above the
    header. *)
Lemma RorkHookFindSymtab_eq σ header n out :
  0 <= header -> range_readable σ header n ->
  RorkHookFindSymtab header n out σ =
  Ret (context_symtab (symtab_of σ header n),
       write_out out (context_linkedit (symtab_of σ header n))) σ.
Proof.
  intros Hh Hr. unfold RorkHookFindSymtab, symtab_of, bind.
  rewrite (RorkHookForEachLoadCommandWithSize_visit σ header n _ (symtab_step σ)
    (fun _ => True)); [|done|done|done|apply _|apply symtab_computes].
  destruct (table_sizes σ header n); [|by destruct out]. by destruct out.
Qed.
End SegmentLemmas.

(** ** Lookup in a loaded image *)

Section Loaded.
Context {K : Type} {T : Target} {Kern : Kernel K}.
Implicit Types σ : machine K.

(** The tables of a loaded image: where its symbols and its strings are, and
    their sizes. *)
Record tables := Tables {
  t_symbols : Z;
  t_count : Z;
  t_strings : Z;
  t_size : Z
}.

Definition tables_readable (k : K) (t : tables) : bool :=
  memory_is_readable k (t_symbols t) (t_count t * sizeof_nlist) &&
  memory_is_readable k (t_strings t) (t_size t).

Definition lookup σ (t : tables) (name : list byte) : option nlist :=
  find_entry σ (t_symbols t) (t_strings t) (t_size t) name (Z.to_nat (t_count t)) 0.

Definition loaded_tables σ (header slide : Z) : option tables :=
  let c := symtab_of σ header (readable_length (kern σ) header) in
  let symtab := context_symtab c in
  let linkedit := context_linkedit c in
  let nsyms := peek_u32 σ (symtab + 12) in
  let strsize := peek_u32 σ (symtab + 20) in
  if (symtab =? NULL) || (linkedit =? NULL) then None else
  base ← slide_address (peek_u64 σ (linkedit + 24)) slide;
  symbols ← file_range σ (peek_u32 σ (symtab + 8)) (nsyms * sizeof_nlist) linkedit;
  strings ← file_range σ (peek_u32 σ (symtab + 16)) strsize linkedit;
  let t := Tables (base + symbols) nsyms (base + strings) strsize in
  if (base + symbols <=? UINTPTR_MAX) && (base + strings <=? UINTPTR_MAX) &&
     tables_readable (kern σ) t
  then Some t else None.

Definition loaded_symbol σ (header : Z) (name : list byte) : option Z :=
  slide ← image_slide σ header;
  t ← loaded_tables σ header slide;
  e ← lookup σ t name;
  slide_address (n_value e) slide.

Context {Laws : KernelLaws K}.

Lemma memory_is_readable_nonnull (k : K) a n :
  memory_is_readable k a n = true -> 0 <= n -> a <> NULL.
Proof.
  intros Hr Hn ->. unfold memory_is_readable, readable_length, region_at in Hr.
  rewrite Z.eqb_refl in Hr. cbn [orb] in Hr. lia.
Qed.

(** Readable tables can be searched. *)
Lemma lookup_eq σ t name old :
  is_u64 (t_symbols t) -> is_u64 (t_strings t) -> is_u32 (t_count t) -> is_u32 (t_size t) ->
  tables_readable (kern σ) t = true ->
  RorkHookFindSymbolEntry (t_symbols t) (t_strings t) (t_size t) (t_count t)
    (Some name) (Some old) σ =
  Ret (match lookup σ t name with Some e => (true, Some e) | None => (false, Some old) end) σ.
Proof using Laws.
  intros H1 H2 H3 H4 [Hs Hstr]%andb_true_iff.
  apply RorkHookFindSymbolEntry_eq; try done.
  - by apply memory_is_readable_sound.
  - by apply memory_is_readable_sound.
  - eapply memory_is_readable_nonnull; [exact Hs|]. unfold is_u32, sizeof_nlist in *. lia.
  - eapply memory_is_readable_nonnull; [exact Hstr|]. unfold is_u32 in *. lia.
Qed.

Lemma slide_address_range a s r : slide_address a s = Some r -> is_u64 r.
Proof.
  unfold slide_address, UINTPTR_MAX, UINT64_MAX, is_u64. destruct (_ && _) eqn:E; [|done].
  intros [= <-]. lia.
Qed.

Lemma file_range_bounds σ off len seg r :
  is_u64 off -> file_range σ off len seg = Some r -> is_u64 r.
Proof.
  unfold file_range, is_u64. intros Ho. destruct (_ && _) eqn:E; [|done]. intros [= <-].
  pose proof (peek_u64_range σ (seg + 40)). unfold is_u64 in *. lia.
Qed.

Lemma image_slide_range σ header slide : image_slide σ header = Some slide -> is_s64 slide.
Proof.
  unfold image_slide. destruct (table_sizes _ _ _); [|done]. cbn.
  destruct (find_command _ _ _); [|done]. cbn. unfold slide_to.
  destruct (_ && _) eqn:E; [|done]. intros [= <-].
  unfold is_s64, INTPTR_MIN, INTPTR_MAX in *. lia.
Qed.

(** The last part of the lookup: check the tables, search them, and slide and
    sign what was found. *)
Lemma search_eq σ t name slide symtab :
  is_u64 (t_symbols t) -> is_u64 (t_strings t) -> is_u32 (t_count t) -> is_u32 (t_size t) ->
  is_s64 slide ->
  t_count t = peek_u32 σ (symtab + 12) -> t_size t = peek_u32 σ (symtab + 20) ->
  range_readable σ (symtab + 12) 4 -> range_readable σ (symtab + 20) 4 ->
  (if t_count t * sizeof_nlist =? 0 then ret NULL else
   let* symbolsReadable := RorkHookMemoryIsReadable (t_symbols t) (t_count t * sizeof_nlist) in
   if negb symbolsReadable then ret NULL else
   let* strsize := symtab_strsize symtab in
   if strsize =? 0 then ret NULL else
   let* stringsReadable := RorkHookMemoryIsReadable (t_strings t) strsize in
   if negb stringsReadable then ret NULL else
   let* nsyms := symtab_nsyms symtab in
   let* (found, entry) :=
     RorkHookFindSymbolEntry (t_symbols t) (t_strings t) strsize nsyms (Some name)
       (Some (NList 0 0 0 0 0)) in
   match entry with
   | Some entry =>
       if negb found then ret NULL else
       let '(applied, symbolAddress) := RorkHookApplySlide (n_value entry) slide (Some 0) in
       if negb applied then ret NULL else
       RorkHookSignPointerIfExecutable (default 0 symbolAddress)
   | None => ret NULL
   end) σ =
  Ret (match (t ← (if tables_readable (kern σ) t then Some t else None);
              e ← lookup σ t name; slide_address (n_value e) slide) with
       | Some a => sign_pointer (kern σ) a
       | None => NULL
       end) σ.
Proof using Laws.
  intros H1 H2 H3 H4 Hs Hc Hz Rc Rz. unfold symtab_strsize, symtab_nsyms.
  unfold tables_readable at 1.
  destruct (Z.eqb_spec (t_count t * sizeof_nlist) 0) as [E0|E0].
  { unfold memory_is_readable at 1. by rewrite E0. }
  erewrite bind_Ret by by apply RorkHookMemoryIsReadable_eq.
  destruct (memory_is_readable (kern σ) (t_symbols t) _) eqn:Hr1; [|done]. cbn [negb andb].
  erewrite bind_Ret by by apply load_u32_ok. rewrite <- Hz.
  destruct (Z.eqb_spec (t_size t) 0) as [E1|E1].
  { unfold memory_is_readable at 1. by rewrite E1. }
  erewrite bind_Ret by by apply RorkHookMemoryIsReadable_eq.
  destruct (memory_is_readable (kern σ) (t_strings t) _) eqn:Hr2; [|done]. cbn [negb].
  erewrite bind_Ret by by apply load_u32_ok. rewrite <- Hc.
  erewrite bind_Ret.
  2:{ apply lookup_eq; try done. unfold tables_readable. by rewrite Hr1, Hr2. }
  cbn [mbind option_bind]. destruct (lookup σ t name) as [e|] eqn:Hl; [|done].
  cbn [negb mbind option_bind].
  assert (is_u64 (n_value e)) as Hv.
  { apply find_entry_spec in Hl as (j & _ & -> & _). apply entry_at_value. }
  rewrite RorkHookApplySlide_eq by done.
  destruct (slide_address (n_value e) slide) as [a|]; [|done]. cbn [negb from_option id].
  apply RorkHookSignPointerIfExecutable_eq.
Qed.

(** The overflow checks on the two table addresses. *)
Lemma table_addresses base rel1 rel2 :
  is_u64 base -> is_u64 rel1 -> is_u64 rel2 ->
  (UINTPTR_MAX <? rel1) || (UINTPTR_MAX <? rel2) ||
  (u64 (UINTPTR_MAX - rel1) <? base) || (u64 (UINTPTR_MAX - rel2) <? base) =
  negb ((base + rel1 <=? UINTPTR_MAX) && (base + rel2 <=? UINTPTR_MAX)).
Proof.
  unfold is_u64, UINTPTR_MAX, UINT64_MAX. intros.
  rewrite (u64_small (_ - rel1)), (u64_small (_ - rel2)) by (unfold is_u64; lia). lia.
Qed.

Lemma RorkHookFindSymbol_eq σ header name :
  is_u64 header ->
  RorkHookFindSymbol header (Some name) σ =
  Ret (match loaded_symbol σ header name with
       | Some a => sign_pointer (kern σ) a
       | None => NULL
       end) σ.
Proof using Laws.
  intros Hh. unfold RorkHookFindSymbol, loaded_symbol, loaded_tables. cbv zeta.
  destruct (Z.eqb_spec header NULL) as [->|Hnull]; [done|].
  erewrite bind_Ret by by apply RorkHookReadableMemoryLength_eq.
  set (n := readable_length (kern σ) header).
  assert (range_readable σ header n) as Hr by apply readable_length_sound.
  assert (0 <= header) as Hh0 by apply Hh.
  erewrite bind_Ret by by apply RorkHookFindSymtab_eq.
  pose proof (symtab_members_readable σ header n Hh0 Hr) as Hmembers. cbv zeta in Hmembers.
  set (symtab := context_symtab _) in *. set (linkedit := context_linkedit _) in *.
  clearbody symtab linkedit. cbn [write_out from_option id].
  destruct (Z.eqb_spec symtab NULL) as [|Hs]; [by destruct (image_slide σ header)|].
  destruct (linkedit =? NULL) eqn:Hl; [by destruct (image_slide σ header)|].
  apply Z.eqb_neq in Hl. cbn [orb].
  destruct (Hmembers Hs Hl) as (Hsym & Hvm & Hfile). clear Hr Hmembers.
  unfold symtab_symoff, symtab_nsyms, symtab_stroff, symtab_strsize, segment_vmaddr.
  pose proof (peek_u32_range σ (symtab + 12)) as Hns.
  erewrite bind_Ret by by apply load_u32_ok, Hsym.
  rewrite RorkHookSymbolTableSize_eq by done. cbn [from_option id negb].
  erewrite bind_Ret by by apply RorkHookImageSlide_eq.
  destruct (image_slide σ header) as [slide|] eqn:Hslide; [|done].
  apply image_slide_range in Hslide. cbn [write_out from_option id negb mbind option_bind].
  erewrite bind_Ret by by apply load_u64_ok.
  rewrite RorkHookApplySlide_eq by (apply peek_u64_range || done).
  destruct (slide_address _ slide) as [base|] eqn:Hbase; [|done].
  apply slide_address_range in Hbase. cbn [from_option id negb mbind option_bind].
  erewrite bind_Ret by by apply load_u32_ok, Hsym.
  erewrite bind_Ret by (apply RorkHookFileRangeInSegment_eq; [apply u32_u64, peek_u32_range|done..]).
  destruct (file_range σ (peek_u32 σ (symtab + 8)) _ _) as [rel1|] eqn:Hrel1; [|done].
  apply file_range_bounds in Hrel1; [|apply u32_u64, peek_u32_range].
  cbn [from_option id negb mbind option_bind].
  erewrite bind_Ret by by apply load_u32_ok, Hsym.
  erewrite bind_Ret by by apply load_u32_ok, Hsym.
  erewrite bind_Ret by (apply RorkHookFileRangeInSegment_eq; [apply u32_u64, peek_u32_range|done..]).
  destruct (file_range σ (peek_u32 σ (symtab + 16)) _ _) as [rel2|] eqn:Hrel2; [|done].
  apply file_range_bounds in Hrel2; [|apply u32_u64, peek_u32_range].
  cbn [from_option id negb mbind option_bind].
  rewrite table_addresses by done.
  destruct ((base + rel1 <=? UINTPTR_MAX) && (base + rel2 <=? UINTPTR_MAX)) eqn:Hfit; [|done].
  cbn [negb]. unfold UINTPTR_MAX, UINT64_MAX, is_u64 in Hbase, Hrel1, Hrel2, Hfit.
  rewrite !u64_small by (unfold is_u64; lia).
  assert (is_u64 (base + rel1) /\ is_u64 (base + rel2)) as [Hsym64 Hstr64]
    by (unfold is_u64; lia).
  clear Hbase Hrel1 Hrel2 Hfit.
  pose proof (peek_u32_range σ (symtab + 20)) as Hsz.
  set (t := Tables (base + rel1) (peek_u32 σ (symtab + 12)) (base + rel2)
              (peek_u32 σ (symtab + 20))).
  apply (search_eq σ t name slide symtab); try done; by apply Hsym.
Qed.
End Loaded.

(** ** Lookup in a file mapping *)

Section FileImage.
Context {K : Type} {T : Target} {Kern : Kernel K}.
Implicit Types σ : machine K.

(** A segment whose address range and file content both hold [va], at a file
    offset that exists. *)
Definition maps_address σ (va a : Z) : bool :=
  let offset := va - peek_u64 σ (a + 24) in
  (peek_u32 σ a =? RORK_HOOK_LC_SEGMENT) && (sizeof_segment_command <=? peek_u32 σ (a + 4)) &&
  (0 <=? offset) && (offset <? peek_u64 σ (a + 32)) && (offset <? peek_u64 σ (a + 48)) &&
  (peek_u64 σ (a + 40) + offset <=? UINT64_MAX).

Definition file_offset σ (va segment : Z) : Z :=
  peek_u64 σ (segment + 40) + (va - peek_u64 σ (segment + 24)).

Definition file_address_step σ (a : Z) (c : RorkHookFileAddressContext)
    : bool * RorkHookFileAddressContext :=
  let va := context_virtualAddress c in
  if maps_address σ va a then (false, FileAddressContext va (file_offset σ va a) true)
  else (true, c).

#[export] Instance file_address_visitor_reads_only a i c :
  ReadsOnly (RorkHookFindFileAddressLoadCommand (K:=K) a i c).
Proof.
  unfold RorkHookFindFileAddressLoadCommand, command_cmd, command_cmdsize, segment_vmaddr,
    segment_vmsize, segment_filesize, segment_fileoff. reads_only.
Qed.

Lemma file_address_computes σ start stop :
  computes σ start stop (fun c => is_u64 (context_virtualAddress c))
    RorkHookFindFileAddressLoadCommand (file_address_step σ).
Proof.
  intros a i c (Ha & _ & _) Hr H64. split; [|unfold file_address_step; by destruct (maps_address _ _ _)].
  set (va := context_virtualAddress c) in *.
  unfold RorkHookFindFileAddressLoadCommand, file_address_step, maps_address.
  unfold command_cmd, command_cmdsize, segment_vmaddr, segment_vmsize, segment_filesize,
    segment_fileoff, sizeof_segment_command. fold va. clearbody va.
  replace (a =? NULL) with false by (unfold NULL; lia).
  assert (forall k m, 0 <= k -> k + m <= Z.max 8 (peek_u32 σ (a + 4)) ->
    range_readable σ (a + k) m) as Hin by (intros; eapply range_readable_sub; [done|lia|lia]).
  erewrite bind_Ret by (apply load_u32_ok; rewrite <- (Z.add_0_r a); apply Hin; lia).
  destruct (_ =? RORK_HOOK_LC_SEGMENT); [|done]. cbn [negb andb].
  erewrite bind_Ret by (apply load_u32_ok, Hin; lia). rewrite Z.leb_antisym.
  destruct (peek_u32 σ (a + 4) <? 72) eqn:H72; [done|]. cbn [negb andb].
  pose proof (peek_u64_range σ (a + 24)) as Hvm. pose proof (peek_u64_range σ (a + 40)) as Hfo.
  unfold is_u64 in *.
  erewrite bind_Ret by (apply load_u64_ok, Hin; lia).
  destruct (Z.ltb_spec va (peek_u64 σ (a + 24))).
  { by replace (0 <=? va - _) with false by lia. }
  replace (0 <=? va - peek_u64 σ (a + 24)) with true by lia. cbn [andb].
  rewrite (u64_small (va - _)) by (unfold is_u64; lia).
  unfold file_offset. set (off := va - peek_u64 σ (a + 24)) in *.
  assert (0 <= off) as Hoff by lia. clearbody off.
  erewrite bind_Ret by (apply load_u64_ok, Hin; lia).
  rewrite Z.leb_antisym. destruct (off <? peek_u64 σ (a + 32)); [|done]. cbn [negb andb].
  erewrite bind_Ret by (apply load_u64_ok, Hin; lia).
  rewrite Z.leb_antisym. destruct (off <? peek_u64 σ (a + 48)); [|done]. cbn [negb andb].
  erewrite bind_Ret by (apply load_u64_ok, Hin; lia).
  unfold UINT64_MAX in *.
  rewrite (u64_small (_ - peek_u64 σ (a + 40))) by (unfold is_u64; lia).
  set (fileoff := peek_u64 σ (a + 40)) in *. clearbody fileoff.
  destruct (Z.ltb_spec (2 ^ 64 - 1 - fileoff) off).
  - by replace (fileoff + off <=? _) with false by lia.
  - replace (fileoff + off <=? _) with true by lia. by rewrite u64_small by (unfold is_u64; lia).
Qed.

Lemma visit_file_address σ va a sizes :
  visit (file_address_step σ) a sizes (FileAddressContext va 0 false) =
  match find_command (maps_address σ va) a sizes with
  | Some segment => FileAddressContext va (file_offset σ va segment) true
  | None => FileAddressContext va 0 false
  end.
Proof.
  revert a. induction sizes as [|size sizes IH]; intros a; [done|]. cbn [visit find_command].
  unfold file_address_step at 1. cbn [context_virtualAddress].
  by destruct (maps_address σ va a).
Qed.

Definition file_tables σ (header n : Z) : option tables :=
  let symtab := context_symtab (symtab_of σ header n) in
  let symoff := peek_u32 σ (symtab + 8) in
  let nsyms := peek_u32 σ (symtab + 12) in
  let stroff := peek_u32 σ (symtab + 16) in
  let strsize := peek_u32 σ (symtab + 20) in
  if negb (symtab =? NULL) && (0 <? nsyms) && (symoff + nsyms * sizeof_nlist <=? n) &&
     (0 <? strsize) && (stroff + strsize <=? n)
  then Some (Tables (header + symoff) nsyms (header + stroff) strsize) else None.

(** The address, inside the mapping, of the first byte of a symbol. *)
Definition file_symbol σ (header n : Z) (name : list byte) : option Z :=
  t ← file_tables σ header n;
  e ← lookup σ t name;
  sizes ← table_sizes σ header n;
  segment ← find_command (maps_address σ (n_value e)) (header + sizeof_mach_header) sizes;
  let offset := file_offset σ (n_value e) segment in
  if offset <? n then Some (header + offset) else None.

Context {Laws : KernelLaws K}.

(** The last part of the lookup: translate the symbol's address and sign the
    result. *)
Lemma locate_eq σ header n e :
  0 <= header -> is_u64 n -> range_readable σ header n -> is_u64 (n_value e) ->
  (let* (delivered, context) :=
     RorkHookForEachLoadCommandWithSize header n (Some RorkHookFindFileAddressLoadCommand)
       (Some (FileAddressContext (n_value e) 0 false)) in
   match context with
   | None => ret NULL
   | Some context =>
   if negb delivered || negb (context_address_found context) ||
      (SIZE_MAX <? context_fileOffset context) ||
      negb (RorkHookRangeIsValid (context_fileOffset context) 1 n)
   then ret NULL
   else RorkHookSignPointerIfExecutable (header + context_fileOffset context)
   end) σ =
  Ret (match (sizes ← table_sizes σ header n;
              segment ← find_command (maps_address σ (n_value e))
                (header + sizeof_mach_header) sizes;
              let offset := file_offset σ (n_value e) segment in
              if offset <? n then Some (header + offset) else None) with
       | Some a => sign_pointer (kern σ) a
       | None => NULL
       end) σ.
Proof using Laws.
  intros Hh Hn Hr Hv. erewrite bind_Ret.
  2:{ apply (RorkHookForEachLoadCommandWithSize_visit σ header n _ (file_address_step σ)
        (fun c => is_u64 (context_virtualAddress c))); [done|done|done|apply _|].
      apply file_address_computes. }
  destruct (table_sizes σ header n) as [sizes|]; [|done].
  rewrite visit_file_address. cbn [mbind option_bind].
  destruct (find_command _ _ _) as [segment|] eqn:Hf; [|done].
  cbn [mbind option_bind context_address_found context_fileOffset negb orb].
  apply find_command_sound in Hf.
  assert (is_u64 (file_offset σ (n_value e) segment)) as Hoff.
  { unfold maps_address, UINT64_MAX in Hf. unfold file_offset, is_u64.
    pose proof (peek_u64_range σ (segment + 40)). unfold is_u64 in *. lia. }
  rewrite RorkHookRangeIsValid_eq by done. unfold is_u64, SIZE_MAX, UINT64_MAX in *.
  replace (2 ^ 64 - 1 <? _) with false by lia. cbn [orb].
  destruct (Z.ltb_spec (file_offset σ (n_value e) segment) n).
  - replace (_ <=? n) with true by lia. apply RorkHookSignPointerIfExecutable_eq.
  - by replace (_ <=? n) with false by lia.
Qed.
End FileImage.

Section FileLookup.
Context {K : Type} {T : Target} {Kern : Kernel K} {Laws : KernelLaws K}.
Implicit Types σ : machine K.

Lemma file_tables_found σ header n t name old :
  0 < header -> range_readable σ header n -> file_tables σ header n = Some t ->
  RorkHookFindSymbolEntry (t_symbols t) (t_strings t) (t_size t) (t_count t)
    (Some name) (Some old) σ =
  Ret (match lookup σ t name with Some e => (true, Some e) | None => (false, Some old) end) σ.
Proof.
  unfold file_tables. intros Hh Hr. set (symtab := context_symtab _).
  pose proof (peek_u32_range σ (symtab + 8)) as R1. pose proof (peek_u32_range σ (symtab + 12)) as R2.
  pose proof (peek_u32_range σ (symtab + 16)) as R3. pose proof (peek_u32_range σ (symtab + 20)) as R4.
  destruct (_ && _) eqn:E; [|done]. intros [= <-]. cbn [t_symbols t_strings t_size t_count].
  unfold lookup. cbn [t_symbols t_strings t_size t_count]. unfold is_u32, NULL in *.
  apply RorkHookFindSymbolEntry_eq; unfold is_u32, NULL; try lia.
  - eapply range_readable_sub; [exact Hr|lia|lia].
  - eapply range_readable_sub; [exact Hr|lia|lia].
Qed.

(** The checks a mapping has to pass before it is searched. *)
Definition mapping_ready (k : K) (header n : Z) : bool :=
  negb (header =? NULL) && (sizeof_mach_header <=? n) && memory_is_readable k header n.

Lemma RorkHookFindSymbolInFileImageWithSize_eq σ header n name :
  is_u64 header -> is_u64 n ->
  RorkHookFindSymbolInFileImageWithSize header n (Some name) σ =
  Ret (match (if mapping_ready (kern σ) header n then file_symbol σ header n name else None) with
       | Some a => sign_pointer (kern σ) a
       | None => NULL
       end) σ.
Proof using Laws.
  intros Hh Hn. unfold RorkHookFindSymbolInFileImageWithSize, mapping_ready.
  destruct (Z.eqb_spec header NULL) as [|Hnull]; [done|]. rewrite Z.leb_antisym.
  destruct (n <? sizeof_mach_header); [done|]. cbn [orb andb negb].
  erewrite bind_Ret by by apply RorkHookMemoryIsReadable_eq.
  destruct (memory_is_readable (kern σ) header n) eqn:Hmr; [|done]. cbn [negb].
  apply (memory_is_readable_sound σ) in Hmr as Hr.
  assert (0 <= header) as Hh0 by apply Hh. assert (0 < header) as Hh1 by (unfold NULL in *; lia).
  unfold file_symbol. pose proof (fun t old => file_tables_found σ header n t name old Hh1 Hr) as Hfind.
  pose proof (symtab_of_inside σ header n Hh0) as [Hin _].
  erewrite bind_Ret by by apply RorkHookFindSymtab_eq.
  unfold file_tables in *. set (symtab := context_symtab _) in *. clearbody symtab.
  destruct (symtab =? NULL) eqn:Hs; [done|]. apply Z.eqb_neq in Hs.
  destruct (Hin Hs) as [Hs0 Hs1]. unfold sizeof_symtab_command in Hs1.
  assert (forall k, 0 <= k <= 20 -> range_readable σ (symtab + k) 4) as Hsym.
  { intros k Hk. eapply range_readable_sub; [exact Hr| |]; lia. }
  clear Hin Hs0 Hs1 Hs Hmr.
  unfold symtab_symoff, symtab_nsyms, symtab_stroff, symtab_strsize.
  pose proof (peek_u32_range σ (symtab + 8)) as R1. pose proof (peek_u32_range σ (symtab + 12)) as R2.
  pose proof (peek_u32_range σ (symtab + 16)) as R3. pose proof (peek_u32_range σ (symtab + 20)) as R4.
  erewrite bind_Ret by by apply load_u32_ok, Hsym.
  rewrite RorkHookSymbolTableSize_eq by done. cbn [from_option id negb andb].
  unfold is_u32 in R2, R4. unfold sizeof_nlist in *.
  destruct (Z.eqb_spec (peek_u32 σ (symtab + 12) * 16) 0).
  { by replace (0 <? peek_u32 σ (symtab + 12)) with false by lia. }
  replace (0 <? peek_u32 σ (symtab + 12)) with true in * by lia. cbn [andb].
  erewrite bind_Ret by by apply load_u32_ok, Hsym.
  rewrite RorkHookRangeIsValid_eq by (done || lia || by apply u32_u64).
  destruct (_ + _ * 16 <=? n); [|done]. cbn [negb andb].
  erewrite bind_Ret by by apply load_u32_ok, Hsym.
  destruct (Z.eqb_spec (peek_u32 σ (symtab + 20)) 0).
  { by replace (0 <? peek_u32 σ (symtab + 20)) with false by lia. }
  replace (0 <? peek_u32 σ (symtab + 20)) with true in * by lia. cbn [andb].
  erewrite bind_Ret by by apply load_u32_ok, Hsym.
  rewrite RorkHookRangeIsValid_eq by (done || lia || by apply u32_u64).
  destruct (_ + peek_u32 σ (symtab + 20) <=? n); [|done]. cbn [negb mbind option_bind] in *.
  erewrite bind_Ret by apply (Hfind _ (NList 0 0 0 0 0) eq_refl).
  destruct (lookup σ _ name) as [e|] eqn:Hl; [|done]. cbn [negb mbind option_bind].
  apply locate_eq; try done.
  apply find_entry_spec in Hl as (j & _ & -> & _). apply entry_at_value.
Qed.
End FileLookup.

(** ** Properties *)

Section Properties.
Context {K : Type} {T : Target} {Kern : Kernel K} {Laws : KernelLaws K}.
Implicit Types σ : machine K.

(** C40: the symbol search returns the first section-defined entry of the table
    whose string, terminated inside the string table, is the name asked for,
    and reports failure with the output untouched exactly when there is none;
    it reads only the two tables, whatever they hold, and changes nothing. *)
Theorem RorkHookFindSymbolEntry_first σ symbols strings size count name old :
  symbols <> NULL -> strings <> NULL -> is_u32 count -> is_u32 size ->
  range_readable σ symbols (count * sizeof_nlist) -> range_readable σ strings size ->
  exists found e,
    RorkHookFindSymbolEntry symbols strings size count (Some name) (Some old) σ =
      Ret (found, Some e) σ /\
    if found
    then exists i, 0 <= i < count /\ e = entry_at σ symbols i /\
           entry_matches σ strings size name e = true /\
           forall j, 0 <= j < i ->
             entry_matches σ strings size name (entry_at σ symbols j) = false
    else e = old /\ forall i, 0 <= i < count ->
           entry_matches σ strings size name (entry_at σ symbols i) = false.
Proof.
  intros Hn1 Hn2 Hc Hz R1 R2. erewrite RorkHookFindSymbolEntry_eq by done.
  unfold is_u32 in Hc. destruct (find_entry _ _ _ _ _ _ _) as [e|] eqn:Hf.
  - apply find_entry_spec in Hf as (j & Hj & -> & Hm & Hno).
    do 2 eexists. split; [done|]. exists j. split_and!; [lia|lia|done|done|done].
  - do 2 eexists. split; [done|]. split; [done|]. intros i Hi.
    destruct (entry_matches _ _ _ _ _) eqn:Hm; [|done]. exfalso.
    destruct (find_entry_some σ symbols strings size name (Z.to_nat count) 0 i) as [e He];
      [lia|done|congruence].
Qed.

(** C16: lookup in a loaded image.  On any address and any memory the function
    returns without a fault.  The result is NULL unless the image is valid, its
    slide resolves, its symbol and string tables lie in the file content of the
    slid [__LINKEDIT] segment and are wholly readable, and an entry matches; it
    is then the first matching entry's value plus the slide, computed without
    wrap-around and signed if it is executable. *)
Theorem RorkHookFindSymbol_exact σ header name :
  is_u64 header ->
  exists result,
    RorkHookFindSymbol header (Some name) σ = Ret result σ /\
    (result = NULL \/
     exists slide t i,
       image_slide σ header = Some slide /\ loaded_tables σ header slide = Some t /\
       0 <= i < t_count t /\
       let e := entry_at σ (t_symbols t) i in
       entry_matches σ (t_strings t) (t_size t) name e = true /\
       (forall j, 0 <= j < i ->
          entry_matches σ (t_strings t) (t_size t) name (entry_at σ (t_symbols t) j) = false) /\
       is_u64 (n_value e + slide) /\ result = sign_pointer (kern σ) (n_value e + slide)) /\
    (loaded_symbol σ header name <> None ->
     exists a, loaded_symbol σ header name = Some a /\ result = sign_pointer (kern σ) a).
Proof using Laws.
  intros Hh. eexists. split; [by apply RorkHookFindSymbol_eq|].
  destruct (loaded_symbol σ header name) as [a|] eqn:Hl; [|by split; [left|]].
  split; [right|by intros _; exists a]. unfold loaded_symbol in Hl.
  destruct (image_slide σ header) as [slide|] eqn:Hs; [|done]. cbn [mbind option_bind] in Hl.
  destruct (loaded_tables σ header slide) as [t|] eqn:Ht; [|done]. cbn [mbind option_bind] in Hl.
  destruct (lookup σ t name) as [e|] eqn:He; [|done]. cbn [mbind option_bind] in Hl.
  apply find_entry_spec in He as (i & Hi & -> & Hm & Hno).
  apply slide_address_range in Hl as Ha. unfold slide_address in Hl.
  destruct (_ && _); [|done]. injection Hl as <-.
  exists slide, t, i. split_and!; [done|done|lia|lia|cbv zeta].
  repeat (split; [done|]). done.
Qed.

(** C17: lookup in a file mapping.  On any bounds and any bytes the function
    returns without a fault; its result is NULL unless the whole mapping is
    readable and holds the tables, a matching symbol and a segment that backs
    the symbol's address with file content, and then it is the signed address of
    that content, which lies inside the mapping. *)
Theorem RorkHookFindSymbolInFileImageWithSize_exact σ header mappedSize name :
  is_u64 header -> is_u64 mappedSize ->
  exists result,
    RorkHookFindSymbolInFileImageWithSize header mappedSize (Some name) σ = Ret result σ /\
    match (if mapping_ready (kern σ) header mappedSize
           then file_symbol σ header mappedSize name else None) with
    | Some a =>
        result = sign_pointer (kern σ) a /\ header <= a < header + mappedSize /\
        exists t e segment,
          file_tables σ header mappedSize = Some t /\ lookup σ t name = Some e /\
          maps_address σ (n_value e) segment = true /\
          a = header + file_offset σ (n_value e) segment
    | None => result = NULL
    end.
Proof using Laws.
  intros Hh Hn. eexists. split; [by apply RorkHookFindSymbolInFileImageWithSize_eq|].
  destruct (mapping_ready _ _ _); [|done].
  destruct (file_symbol σ header mappedSize name) as [a|] eqn:Hf; [|done].
  split; [done|]. unfold file_symbol in Hf.
  destruct (file_tables _ _ _) as [t|] eqn:Ht; [|done]. cbn [mbind option_bind] in Hf.
  destruct (lookup σ t name) as [e|] eqn:He; [|done]. cbn [mbind option_bind] in Hf.
  destruct (table_sizes _ _ _) as [sizes|]; [|done]. cbn [mbind option_bind] in Hf.
  destruct (find_command _ _ _) as [segment|] eqn:Hs; [|done]. cbn [mbind option_bind] in Hf.
  apply find_command_sound in Hs. destruct (_ <? mappedSize) eqn:Hlt; [|done].
  injection Hf as <-. split; [|by exists t, e, segment].
  pose proof (peek_u64_range σ (segment + 40)). unfold maps_address, file_offset, is_u64 in *. lia.
Qed.
End Properties.

(** ** Witnesses *)

(** ["_f"], in the string table and as an argument. *)
Definition name_f : list byte := byte_of <$> [0x5f; 0x66].

(** A page that is both a loaded and a file-mapped image: [__TEXT] linked at
    [0x1000], [__LINKEDIT] at [0x1200], and two symbols called [_f], the first of
    them undefined. *)
Definition linkedit_command : list byte :=
  le_split 4 RORK_HOOK_LC_SEGMENT ++ le_split 4 72 ++ SEG_LINKEDIT ++ le_split 6 0 ++
  le_split 8 0x1200 ++ le_split 8 0x200 ++ le_split 8 0x200 ++ le_split 8 0x200 ++ le_split 16 0.
Definition symtab_command : list byte :=
  le_split 4 LC_SYMTAB ++ le_split 4 24 ++ le_split 4 0x200 ++ le_split 4 2 ++
  le_split 4 0x300 ++ le_split 4 8.

Definition symbols_machine : machine sim :=
  sim_machine [(1, 5)]
    [(0x4000, image_header [segment_command 0x1000 0x200 0 0x200; linkedit_command; symtab_command]);
     (0x4200, le_split 4 1 ++ le_split 1 1 ++ le_split 11 0 ++
              le_split 4 1 ++ le_split 1 0x0f ++ le_split 3 1 ++ le_split 8 0x1100);
     (0x4301, name_f ++ le_split 1 0)].

Lemma symbols_readable a n :
  memory_is_readable (kern symbols_machine) a n = true -> range_readable symbols_machine a n.
Proof. apply (memory_is_readable_sound (T := device)). Qed.

Lemma RorkHookFindSymbolEntry_first_witness :
  result_of (RorkHookFindSymbolEntry 0x4200 0x4300 8 2 (Some name_f) (Some (NList 0 0 0 0 0))
    symbols_machine) = Some (true, Some (NList 1 15 1 0 0x1100)) /\
  exists found e,
    RorkHookFindSymbolEntry 0x4200 0x4300 8 2 (Some name_f) (Some (NList 0 0 0 0 0))
      symbols_machine = Ret (found, Some e) symbols_machine /\
    if found
    then exists i, 0 <= i < 2 /\ e = entry_at symbols_machine 0x4200 i /\
           entry_matches symbols_machine 0x4300 8 name_f e = true /\
           forall j, 0 <= j < i ->
             entry_matches symbols_machine 0x4300 8 name_f
               (entry_at symbols_machine 0x4200 j) = false
    else e = NList 0 0 0 0 0 /\ forall i, 0 <= i < 2 ->
           entry_matches symbols_machine 0x4300 8 name_f
             (entry_at symbols_machine 0x4200 i) = false.
Proof.
  split; [by vm_compute|].
  apply RorkHookFindSymbolEntry_first; [done|done|done|done|apply symbols_readable; by vm_compute..].
Defined.

Lemma RorkHookFindSymbol_exact_witness :
  result_of (RorkHookFindSymbol (T := device) 0x4000 (Some name_f) symbols_machine) =
    Some (0x4100 + 2 ^ 48) /\
  exists result,
    RorkHookFindSymbol (T := device) 0x4000 (Some name_f) symbols_machine =
      Ret result symbols_machine /\
    (result = NULL \/
     exists slide t i,
       image_slide symbols_machine 0x4000 = Some slide /\
       loaded_tables symbols_machine 0x4000 slide = Some t /\
       0 <= i < t_count t /\
       let e := entry_at symbols_machine (t_symbols t) i in
       entry_matches symbols_machine (t_strings t) (t_size t) name_f e = true /\
       (forall j, 0 <= j < i ->
          entry_matches symbols_machine (t_strings t) (t_size t) name_f
            (entry_at symbols_machine (t_symbols t) j) = false) /\
       is_u64 (n_value e + slide) /\
       result = sign_pointer (T := device) (kern symbols_machine) (n_value e + slide)) /\
    (loaded_symbol symbols_machine 0x4000 name_f <> None ->
     exists a, loaded_symbol symbols_machine 0x4000 name_f = Some a /\
       result = sign_pointer (T := device) (kern symbols_machine) a).
Proof.
  split; [by vm_compute|]. apply (RorkHookFindSymbol_exact (T := device)). done.
Defined.

Lemma RorkHookFindSymbolInFileImageWithSize_exact_witness :
  result_of (RorkHookFindSymbolInFileImageWithSize (T := arm64_host) 0x4000 0x400 (Some name_f)
    symbols_machine) = Some 0x4100 /\
  exists result,
    RorkHookFindSymbolInFileImageWithSize (T := arm64_host) 0x4000 0x400 (Some name_f)
      symbols_machine = Ret result symbols_machine /\
    match (if mapping_ready (kern symbols_machine) 0x4000 0x400
           then file_symbol symbols_machine 0x4000 0x400 name_f else None) with
    | Some a =>
        result = sign_pointer (T := arm64_host) (kern symbols_machine) a /\
        0x4000 <= a < 0x4000 + 0x400 /\
        exists t e segment,
          file_tables symbols_machine 0x4000 0x400 = Some t /\
          lookup symbols_machine t name_f = Some e /\
          maps_address symbols_machine (n_value e) segment = true /\
          a = 0x4000 + file_offset symbols_machine (n_value e) segment
    | None => result = NULL
    end.
Proof.
  split; [by vm_compute|].
  apply (RorkHookFindSymbolInFileImageWithSize_exact (T := arm64_host)); done.
Defined.
