(* ===== verification/Rebind.v ===== *)
(** Rewriting the symbol-pointer slots of one Mach-O image: the first half of
    RorkHookRebind.c. *)
From S2P Require Import Prelude Machine Logic Sim CString Regions LoadCommands Memory.

(** ** Records and functions of the system *)

Definition sizeof_section : Z := 80.
Definition SECTION_TYPE : Z := 0xff.
Definition S_NON_LAZY_SYMBOL_POINTERS : Z := 6.
Definition S_LAZY_SYMBOL_POINTERS : Z := 7.

(** ["__auth_got"] *)
Definition auth_got : list byte :=
  byte_of <$> [0x5f; 0x5f; 0x61; 0x75; 0x74; 0x68; 0x5f; 0x67; 0x6f; 0x74].

(** [getsectiondata(header, segname, sectname, &size)] of <mach-o/getsect.h>: the
    mapped address and the size of a section of a loaded image, a function of
    the image and the names while the image stays loaded. *)
Class SectionData := {
  getsectiondata : Z -> list byte -> list byte -> Z * Z
}.

Section SectionRecords.
Context {K : Type} {Kern : Kernel K}.

(* struct section_64 *)
Definition section_sectname (section : Z) : M K (list byte) := load_bytes section 16.
Definition section_segname (section : Z) : M K (list byte) := load_bytes (section + 16) 16.
Definition section_flags (section : Z) : M K Z := load_u32 (section + 64).
End SectionRecords.

(** ** Operations *)

Record RorkHookRebindImageContext := RebindImageContext {
  rebind_header : Z;
  replaceeRaw : Z;
  rebind_replacement : Z
}.

Section Rebind.
Context {K : Type} {T : Target} {Kern : Kernel K} {SD : SectionData}.
Implicit Types σ : machine K.

Definition RorkHookStripPointer (pointer : Z) : Z :=
  if ptrauth_calls then ptrauth_strip pointer else pointer.

Definition RorkHookStoreSlot (slot value : Z) : M K bool :=
  RorkHookStoreProtectedPointer slot value
    (Z.lor (Z.lor VM_PROT_READ VM_PROT_WRITE) VM_PROT_COPY).

(** The 17-byte buffer after the call. *)
Definition RorkHookCopyName (out name : list byte) : list byte :=
  <[16%nat := x00]> (take 16 name ++ drop 16 out).

(** The value a matching slot receives. *)
Definition final_value (context : RorkHookRebindImageContext) (authenticated : bool)
    (slot : Z) : Z :=
  if ptrauth_calls then
    if authenticated then
      let rawReplacement := ptrauth_strip (rebind_replacement context) in
      ptrauth_sign_unauthenticated rawReplacement slot
    else RorkHookStripPointer (rebind_replacement context)
  else rebind_replacement context.

Definition rebind_step (context : RorkHookRebindImageContext) (slots slotCount : Z)
    (authenticated : bool) (index : Z) : M K (Z + unit) :=
  if negb (index <? slotCount) then ret (inr tt) else
  let slot := slots + 8 * index in
  let* current := load_u64 slot in
  if current =? NULL then ret (inl (u64 (index + 1))) else
  let resolved := RorkHookStripPointer current in
  if negb (resolved =? replaceeRaw context) then ret (inl (u64 (index + 1))) else
  let finalValue := final_value context authenticated slot in
  let* _ := RorkHookStoreSlot slot finalValue in
  ret (inl (u64 (index + 1))).

Definition RorkHookRebindSection (context : option RorkHookRebindImageContext)
    (section : Z) : M K unit :=
  match context with
  | None => ret tt
  | Some context =>
  if section =? NULL then ret tt else
  let* segname := section_segname section in
  let segname := RorkHookCopyName (replicate 17 x00) segname in
  let* sectname := section_sectname section in
  let sectname := RorkHookCopyName (replicate 17 x00) sectname in
  let '(slots, sectionSize) :=
    getsectiondata (rebind_header context) (until_nul segname) (until_nul sectname) in
  let slotCount := sectionSize / 8 in
  let* unusable :=
    ret (slots =? NULL) <||> ret (slotCount =? 0) <||>
    ret (negb (sectionSize mod 8 =? 0)) <||>
    (let* r := RorkHookMemoryIsReadable slots sectionSize in ret (negb r)) in
  if unusable then ret tt else
  let authenticated := strcmp_eq sectname (auth_got ++ [x00]) in
  loopM FUEL64 (rebind_step context slots slotCount authenticated) 0
  end.

Definition sections_step (context : option RorkHookRebindImageContext)
    (segment sections : Z) (sectionIndex : Z) : M K (Z + unit) :=
  let* nsects := segment_nsects segment in
  if negb (sectionIndex <? nsects) then ret (inr tt) else
  let section := sections + sizeof_section * sectionIndex in
  let* flags := section_flags section in
  let type := Z.land flags SECTION_TYPE in
  let* _ :=
    if (type =? S_LAZY_SYMBOL_POINTERS) || (type =? S_NON_LAZY_SYMBOL_POINTERS)
    then RorkHookRebindSection context section else ret tt in
  ret (inl (u32 (sectionIndex + 1))).

Definition RorkHookRebindImageLoadCommand : visitor_fn (K:=K) RorkHookRebindImageContext :=
  fun command _ contextRaw =>
  let* skip :=
    ret (command =? NULL) <||> ret (bool_decide (contextRaw = None)) <||>
    (let* cmd := command_cmd command in ret (negb (cmd =? RORK_HOOK_LC_SEGMENT))) <||>
    (let* cmdsize := command_cmdsize command in ret (cmdsize <? sizeof_segment_command)) in
  if skip then ret (true, contextRaw) else
  let segment := command in
  let* nsects := segment_nsects segment in
  let sectionsSize := nsects * sizeof_section in
  if SIZE_MAX <? sectionsSize then ret (true, contextRaw) else
  let sectionsEnd := sizeof_segment_command + sectionsSize in
  if SIZE_MAX <? sectionsEnd then ret (true, contextRaw) else
  let* cmdsize := command_cmdsize command in
  if cmdsize <? sectionsEnd then ret (true, contextRaw) else
  let sections := segment + sizeof_segment_command in
  let* _ := loopM FUEL32 (sections_step contextRaw segment sections) 0 in
  ret (true, contextRaw).

Definition RorkHookRebindSymbolInImage (header replacee replacement : Z) : M K unit :=
  if (header =? NULL) || (replacee =? NULL) || (replacement =? NULL) then ret tt else
  let replaceeRaw := RorkHookStripPointer replacee in
  let context := RebindImageContext header replaceeRaw replacement in
  let* _ := RorkHookForEachLoadCommand header (Some RorkHookRebindImageLoadCommand)
              (Some context) in
  ret tt.
End Rebind.

(** ** What rebinding a list of slots means *)

(** A slot: its address, and whether it lies in the authenticated section. *)
Definition slot_covers (s : Z * bool) (x : Z) : Prop := fst s <= x < fst s + 8.
Definition covered (l : list (Z * bool)) (x : Z) : Prop := exists s, s ∈ l /\ slot_covers s x.

(** Slots that share no byte. *)
Definition apart (s t : Z * bool) : Prop := fst s + 8 <= fst t \/ fst t + 8 <= fst s.

Section Rebound.
Context {K : Type} {T : Target} {Kern : Kernel K}.
Context {Laws : KernelLaws K} {TLaws : TPROLaws K}.
Implicit Types σ : machine K.

Definition REBIND_PROTECTION : Z := 19.   (* VM_PROT_READ | VM_PROT_WRITE | VM_PROT_COPY *)

(** The slot's content resolves to the replacee. *)
Definition matches (context : RorkHookRebindImageContext) (current : Z) : bool :=
  negb (current =? NULL) && (RorkHookStripPointer current =? replaceeRaw context).

Definition new_value (context : RorkHookRebindImageContext) (s : Z * bool) (current : Z) : Z :=
  if matches context current then u64 (final_value context (snd s) (fst s)) else current.

(** Holds in every kernel state with the same process attributes and
    protections. *)
Definition always (P : K -> Prop) (k : K) : Prop :=
  forall k', same_process k k' -> same_prot k k' -> P k'.

(** [σ'] is [σ] after rebinding the slots of [l]: the thread's window and the
    process are as before; a protection is its own or the requested one; no byte
    outside the slots changed; a slot holds what it held, or matched and holds
    the new value.  Where nothing was refused and the pages were [ready], every
    slot was processed and every protection restored.  Where no slot matches, the
    machine is as it was: nothing was written and the kernel was not called. *)
Record rebound (context : RorkHookRebindImageContext) (ready : K -> Prop)
    (l : list (Z * bool)) σ σ' : Prop := {
  rb_process : same_process (kern σ) (kern σ');
  rb_window : window_open (kern σ') = window_open (kern σ);
  rb_log : exists new, log σ' = new ++ log σ;
  rb_prot a : prot_at (kern σ') a = prot_at (kern σ) a \/
    prot_at (kern σ') a = Some (Z.land REBIND_PROTECTION 7);
  rb_frame x : ~ covered l x -> peek σ' x = peek σ x;
  rb_slot s : s ∈ l -> peek_u64 σ' (fst s) = peek_u64 σ (fst s) \/
    matches context (peek_u64 σ (fst s)) = true /\
    peek_u64 σ' (fst s) = new_value context s (peek_u64 σ (fst s));
  rb_complete : ~ refused σ σ' -> ~ window_refused (kern σ) -> always ready (kern σ) ->
    same_prot (kern σ) (kern σ') /\
    forall s, s ∈ l -> peek_u64 σ' (fst s) = new_value context s (peek_u64 σ (fst s));
  rb_idle : (forall s, s ∈ l -> matches context (peek_u64 σ (fst s)) = false) -> σ' = σ
}.

Lemma same_process_refl (k : K) : same_process k k.
Proof. done. Qed.

Lemma always_here P k : always P k -> P k.
Proof. intros HP. by apply HP. Qed.

Lemma always_stable P k k' :
  same_process k k' -> same_prot k k' -> always P k -> always P k'.
Proof.
  intros Hp Hs HP k2 Hp2 Hs2. apply HP; [by eapply same_process_trans|].
  intros a. by rewrite Hs2, Hs.
Qed.

Lemma refused_earlier σ σ1 σ2 new :
  refused σ1 σ2 -> log σ1 = new ++ log σ -> refused σ σ2.
Proof.
  intros (l & start & size & p & r & Hl & Hin & Hr) H1.
  exists (l ++ new), start, size, p, r. split_and!; [|apply elem_of_app; by left|done].
  by rewrite Hl, H1, app_assoc.
Qed.

Lemma window_refused_stable k k' :
  same_process k k' -> window_open k' = window_open k -> window_refused k' -> window_refused k.
Proof using TLaws.
  intros Hp Hw [H1 H2]. split; [by rewrite <- (uses_tpro_stable k k')|].
  by rewrite <- (window_opens_stable k k').
Qed.

Lemma rebound_nil context ready σ : rebound context ready [] σ σ.
Proof.
  split; try done.
  - by exists [].
  - by left.
  - by left.
  - intros _ _ _. split; [done|]. intros s Hs. by apply not_elem_of_nil in Hs.
Qed.

Lemma peek_u64_frame σ σ' a :
  (forall x, a <= x < a + 8 -> peek σ' x = peek σ x) -> peek_u64 σ' a = peek_u64 σ a.
Proof. intros Hx. unfold peek_u64. f_equal. apply peeks_ext. intros. apply Hx. lia. Qed.

Lemma apart_not_covered l s x :
  (forall t, t ∈ l -> apart s t) -> slot_covers s x -> ~ covered l x.
Proof.
  intros Hl Hs (t & Ht & Hx). specialize (Hl t Ht). unfold apart, slot_covers in *. lia.
Qed.

Lemma apart_sym s t : apart s t -> apart t s.
Proof. unfold apart. lia. Qed.

(** Rebinding one list of slots and then another, none of which overlap. *)
Lemma rebound_app context ready l1 l2 σ σ1 σ2 :
  (forall s t, s ∈ l1 -> t ∈ l2 -> apart s t) ->
  rebound context ready l1 σ σ1 -> rebound context ready l2 σ1 σ2 ->
  rebound context ready (l1 ++ l2) σ σ2.
Proof using TLaws.
  intros Hap [P1 W1 [n1 L1] A1 F1 S1 C1 D1] [P2 W2 [n2 L2] A2 F2 S2 C2 D2].
  assert (forall s, s ∈ l1 -> peek_u64 σ2 (fst s) = peek_u64 σ1 (fst s)) as H1.
  { intros s Hs. apply peek_u64_frame. intros x Hx. apply F2.
    apply (apart_not_covered l2 s); [|done]. intros t Ht. by apply Hap. }
  assert (forall s, s ∈ l2 -> peek_u64 σ1 (fst s) = peek_u64 σ (fst s)) as H2.
  { intros s Hs. apply peek_u64_frame. intros x Hx. apply F1.
    apply (apart_not_covered l1 s); [|done]. intros t Ht. apply apart_sym. by apply Hap. }
  split.
  - by eapply same_process_trans.
  - congruence.
  - exists (n2 ++ n1). by rewrite L2, L1, app_assoc.
  - intros a. destruct (A2 a) as [->|]; [apply A1|by right].
  - intros x Hx. rewrite F2, F1; [done| |]; intros (s & Hs & Hc); apply Hx; exists s;
      (split; [|done]); apply elem_of_app; auto.
  - intros s [Hs|Hs]%elem_of_app.
    + rewrite H1 by done. by apply S1.
    + rewrite <- !H2 by done. by apply S2.
  - intros Hr Hw Hy.
    destruct C1 as [Q1 C1]; [|done..|].
    { intros Hr1. apply Hr. by eapply refused_later. }
    destruct C2 as [Q2 C2].
    { intros Hr2. apply Hr. by eapply refused_earlier. }
    { intros Hw2. apply Hw. by eapply window_refused_stable. }
    { by eapply always_stable. }
    split; [intros a; by rewrite Q2, Q1|].
    intros s [Hs|Hs]%elem_of_app.
    + rewrite H1 by done. by apply C1.
    + rewrite <- (H2 s) by done. by apply C2.
  - intros Hl. assert (σ1 = σ) as -> by (apply D1; intros; apply Hl, elem_of_app; auto).
    apply D2. intros. apply Hl, elem_of_app. auto.
Qed.

(** Protections keep what they allow to read. *)
Lemma rebound_readable context ready l σ σ' a n :
  rebound context ready l σ σ' -> range_readable σ a n -> range_readable σ' a n.
Proof.
  intros Hb Hr x Hx. specialize (Hr x Hx). unfold readable in *.
  destruct (rb_prot _ _ _ _ _ Hb x) as [->| ->]; done.
Qed.

Lemma rebound_refusal_safe context ready l σ σ' slot :
  rebound context ready l σ σ' -> refusal_is_safe (kern σ) slot ->
  refusal_is_safe (kern σ') slot.
Proof using TLaws.
  intros Hb. apply refusal_is_safe_stable; [apply Hb..|].
  intros a. destruct (rb_prot _ _ _ _ _ Hb a); [by left|right; by eexists].
Qed.
End Rebound.

(** ** One section *)

Section SectionSpec.
Context {K : Type} {T : Target} {Kern : Kernel K} {SD : SectionData}.
Context {Laws : KernelLaws K} {TLaws : TPROLaws K}.
Context (context : RorkHookRebindImageContext) (ready : K -> Prop).
Implicit Types σ : machine K.

(** Nothing happens to slots that do not match or cannot be processed. *)
Lemma rebound_refl l σ :
  (always ready (kern σ) -> forall s, s ∈ l -> matches context (peek_u64 σ (fst s)) = false) ->
  rebound context ready l σ σ.
Proof.
  intros Hl. split; try done; [by exists []|by left|by left|].
  intros _ _ Hy. split; [done|]. intros s Hs. unfold new_value. by rewrite (Hl Hy s Hs).
Qed.

Lemma written_value σ σ' slot value :
  written slot value σ σ' -> peek_u64 σ' slot = u64 value.
Proof. intros [Hv _]. unfold peek_u64. by rewrite Hv, le_combine_split. Qed.

(** A matching slot. *)
Lemma RorkHookStoreSlot_spec σ s :
  is_u64 (fst s) -> refusal_is_safe (kern σ) (fst s) ->
  matches context (peek_u64 σ (fst s)) = true ->
  (forall k, ready k -> store_ready k (fst s) REBIND_PROTECTION = true) ->
  wp (RorkHookStoreSlot (fst s) (final_value context (snd s) (fst s))) σ
    (fun _ σ' => rebound context ready [s] σ σ').
Proof using Laws TLaws.
  intros Hs Hsafe Hm Hready. unfold RorkHookStoreSlot. change (Z.lor _ _) with REBIND_PROTECTION.
  eapply wp_mono; [by apply RorkHookStoreProtectedPointer_spec|]. intros ok σ'. cbn beta.
  destruct (store_ready (kern σ) (fst s) REBIND_PROTECTION) eqn:Hr.
  - intros [W P A L M Ht _ Hc].
    assert (forall x, ~ covered [s] x -> peek σ' x = peek σ x) as Hf.
    { intros x Hx. destruct M as [M|[_ Hb]]; [unfold peek; by rewrite M|]. apply Hb.
      intros Hin. apply Hx. exists s. split; [apply list_elem_of_here|done]. }
    split; try done.
    + intros t ->%list_elem_of_singleton. unfold new_value. rewrite Hm.
      destruct M as [M|M]; [left|right; split; [done|by eapply written_value]].
      apply peek_u64_frame. intros x _. unfold peek. by rewrite M.
    + intros Hn Hw _. destruct ok; [|by destruct (Hc eq_refl)].
      destruct (Ht eq_refl) as [Hwr Hsame]. split; [done|].
      intros t ->%list_elem_of_singleton. unfold new_value. rewrite Hm.
      by eapply written_value.
    + intros Hl. rewrite Hl in Hm; [done|apply list_elem_of_here].
  - intros [_ ->]. apply rebound_refl. intros Hy%always_here%Hready. congruence.
Qed.

(** The slots of a section, as the loop visits them. *)
Definition section_slots (slots slotCount : Z) (authenticated : bool) : list (Z * bool) :=
  (fun i => (slots + 8 * i, authenticated)) <$> seqZ 0 slotCount.

Lemma elem_of_section_slots slots n auth s :
  s ∈ section_slots slots n auth <->
  exists i, 0 <= i < n /\ s = (slots + 8 * i, auth).
Proof.
  unfold section_slots. rewrite list_elem_of_fmap. setoid_rewrite elem_of_seqZ.
  split; intros (i & H1 & H2); exists i; split; done || lia.
Qed.

Lemma section_slots_next slots i auth :
  0 <= i -> section_slots slots (i + 1) auth =
            section_slots slots i auth ++ [(slots + 8 * i, auth)].
Proof. intros. unfold section_slots. by rewrite seqZ_app, fmap_app by lia. Qed.

Lemma rebind_loop σ slots n auth :
  0 <= slots -> 0 <= n -> slots + 8 * n <= 2 ^ 64 -> range_readable σ slots (8 * n) ->
  (forall s, s ∈ section_slots slots n auth -> refusal_is_safe (kern σ) (fst s)) ->
  (forall k s, ready k -> s ∈ section_slots slots n auth ->
     store_ready k (fst s) REBIND_PROTECTION = true) ->
  wp (loopM FUEL64 (rebind_step context slots n auth) 0) σ
    (fun _ σ' => rebound context ready (section_slots slots n auth) σ σ').
Proof using Laws TLaws.
  intros Hs Hn Hend Hr Hsafe Hready.
  eapply (wp_loop _ (fun i σ1 => 0 <= i <= n /\
      rebound context ready (section_slots slots i auth) σ σ1) (fun i => n - i)).
  2:{ split; [lia|apply rebound_nil]. }
  2:{ unfold FUEL64; lia. }
  intros i σ1 [Hi Hb] _. unfold rebind_step, loop_step.
  destruct (Z.ltb_spec i n) as [Hlt|]; cbn [negb].
  2:{ apply wp_ret. by replace n with i by lia. }
  set (s := (slots + 8 * i, auth)).
  assert (s ∈ section_slots slots n auth) as Hin by (apply elem_of_section_slots; exists i; split; [lia|done]).
  assert (u64 (i + 1) = i + 1) as -> by (apply u64_small; unfold is_u64; lia).
  assert (forall σ2, rebound context ready [s] σ1 σ2 ->
    (0 <= i + 1 <= n /\ rebound context ready (section_slots slots (i + 1) auth) σ σ2) /\
    0 <= n - (i + 1) < n - i) as Hnext.
  { intros σ2 H2. split; [split; [lia|]|lia]. rewrite section_slots_next by lia.
    eapply rebound_app; [|done|exact H2].
    intros a b (j & Hj & ->)%elem_of_section_slots ->%list_elem_of_singleton.
    unfold apart. cbn. lia. }
  eapply wp_call.
  { apply load_u64_ok. eapply range_readable_sub; [by eapply rebound_readable|lia|lia]. }
  destruct (peek_u64 σ1 (slots + 8 * i) =? NULL) eqn:Hz.
  { apply wp_ret, Hnext, rebound_refl. intros _ t ->%list_elem_of_singleton.
    unfold matches. cbn [fst s]. by rewrite Hz. }
  destruct (RorkHookStripPointer _ =? _) eqn:Hm; cbn [negb].
  2:{ apply wp_ret, Hnext, rebound_refl. intros _ t ->%list_elem_of_singleton.
      unfold matches. cbn [fst s]. by rewrite Hz, Hm. }
  apply wp_bind. eapply wp_mono; [|intros ? σ2 H2; apply wp_ret, Hnext, H2].
  apply (RorkHookStoreSlot_spec σ1 s).
  - unfold is_u64. cbn [fst s]. lia.
  - eapply rebound_refusal_safe; [done|by apply Hsafe].
  - unfold matches. cbn [fst s]. by rewrite Hz, Hm.
  - intros k Hk. by apply Hready.
Qed.

(** Where a section's data is mapped, and the slots it holds. *)
Definition section_name σ (a : Z) : list byte := until_nul (peeks σ a 16).
Definition section_data σ (section : Z) : Z * Z :=
  getsectiondata (rebind_header context) (section_name σ (section + 16))
    (section_name σ section).
Definition section_pointers σ (section : Z) : list (Z * bool) :=
  let '(slots, size) := section_data σ section in
  if (slots =? NULL) || (size / 8 =? 0) || negb (size mod 8 =? 0) then []
  else section_slots slots (size / 8) (bool_decide (section_name σ section = auth_got)).

(** The data lies in the address space. *)
Definition section_fits σ (section : Z) : Prop :=
  let '(slots, size) := section_data σ section in
  is_u64 slots /\ 0 <= size /\ slots + size <= 2 ^ 64.

(** The whole section is readable, and each of its slots can be stored to. *)
Definition section_ready σ (section : Z) (k : K) : Prop :=
  section_pointers σ section = [] \/
  (let '(slots, size) := section_data σ section in memory_is_readable k slots size = true) /\
  forall s, s ∈ section_pointers σ section -> store_ready k (fst s) REBIND_PROTECTION = true.

Lemma until_nul_app_nul l : until_nul (l ++ [x00]) = until_nul l.
Proof.
  induction l as [|b l IH]; [done|]. cbn [until_nul app]. by rewrite IH.
Qed.

Lemma copied_name σ a :
  RorkHookCopyName (replicate 17 x00) (peeks σ a 16) = peeks σ a 16 ++ [x00].
Proof.
  unfold RorkHookCopyName. rewrite take_ge by (rewrite length_peeks; lia).
  by rewrite insert_app_r_alt by (rewrite length_peeks; lia); rewrite length_peeks.
Qed.

Lemma unusable_eq σ slots size :
  is_u64 slots ->
  (ret (slots =? NULL) <||> ret (size / 8 =? 0) <||> ret (negb (size mod 8 =? 0)) <||>
   (let* r := RorkHookMemoryIsReadable slots size in ret (negb r))) σ =
  Ret ((slots =? NULL) || (size / 8 =? 0) || negb (size mod 8 =? 0) ||
       negb (memory_is_readable (kern σ) slots size)) σ.
Proof using Laws.
  intros Hs. unfold or_else, bind, ret.
  destruct (slots =? NULL); [done|]. destruct (size / 8 =? 0); [done|].
  destruct (negb (size mod 8 =? 0)); [done|].
  by rewrite RorkHookMemoryIsReadable_eq.
Qed.

Lemma RorkHookRebindSection_spec σ section :
  section <> NULL -> range_readable σ section 32 -> section_fits σ section ->
  (forall s, s ∈ section_pointers σ section -> refusal_is_safe (kern σ) (fst s)) ->
  (forall k, ready k -> section_ready σ section k) ->
  wp (RorkHookRebindSection (Some context) section) σ
    (fun _ σ' => rebound context ready (section_pointers σ section) σ σ').
Proof using Laws TLaws.
  intros Hs Hr Hfit Hsafe Hready. unfold RorkHookRebindSection.
  replace (section =? NULL) with false by lia.
  eapply wp_call; [apply load_bytes_ok; eapply range_readable_sub; [exact Hr|lia|lia]|].
  eapply wp_call; [apply load_bytes_ok; eapply range_readable_sub; [exact Hr|lia|lia]|].
  rewrite !copied_name, !until_nul_app_nul.
  change (getsectiondata _ _ _) with (section_data σ section).
  unfold strcmp_eq. rewrite !until_nul_app_nul.
  change (until_nul auth_got) with auth_got.
  change (until_nul (peeks σ section 16)) with (section_name σ section).
  unfold section_ready, section_fits in *.
  assert (section_pointers σ section = section_pointers σ section) as Hp by done.
  unfold section_pointers at 2 in Hp.
  destruct (section_data σ section) as [slots size]. destruct Hfit as (H0 & H1 & H2). unfold is_u64 in H0.
  eapply wp_call; [apply unusable_eq; unfold is_u64; lia|].
  destruct ((slots =? NULL) || _ || _) eqn:E; cbn [orb].
  { rewrite Hp. apply rebound_nil. }
  assert (size = 8 * (size / 8)) as Hsize by (pose proof (Z.div_mod size 8); lia).
  destruct (memory_is_readable (kern σ) slots size) eqn:Hmr; cbn [negb].
  - apply (memory_is_readable_sound σ) in Hmr. rewrite Hsize in Hmr. rewrite Hp in *.
    apply rebind_loop; try done; try lia.
    intros k s Hk Hin. destruct (Hready k Hk) as [He|[_ Ha]]; [|by apply Ha].
    rewrite He in Hin. by apply not_elem_of_nil in Hin.
  - apply rebound_refl. intros Hy%always_here%Hready s Hin.
    destruct Hy as [He|[Hm _]]; [|congruence]. rewrite He in Hin.
    by apply not_elem_of_nil in Hin.
Qed.
End SectionSpec.

(** ** One image *)

Section Sections.
Context {K : Type}.
Implicit Types σ : machine K.

Definition is_pointer_section σ (section : Z) : bool :=
  let type := Z.land (peek_u32 σ (section + 64)) SECTION_TYPE in
  (type =? S_LAZY_SYMBOL_POINTERS) || (type =? S_NON_LAZY_SYMBOL_POINTERS).

(** The pointer sections among the first [n] sections of the segment at [a]. *)
Definition segment_sections σ (a n : Z) : list Z :=
  filter (fun s => is_pointer_section σ s = true)
    ((fun i => a + sizeof_segment_command + sizeof_section * i) <$> seqZ 0 n).

Definition command_sections σ (a : Z) : list Z :=
  if (peek_u32 σ a =? RORK_HOOK_LC_SEGMENT) && (sizeof_segment_command <=? peek_u32 σ (a + 4)) &&
     (sizeof_segment_command + peek_u32 σ (a + 64) * sizeof_section <=? peek_u32 σ (a + 4))
  then segment_sections σ a (peek_u32 σ (a + 64)) else [].

(** The pointer sections of a load-command table, in order. *)
Fixpoint table_sections σ (a : Z) (sizes : list Z) : list Z :=
  match sizes with
  | [] => []
  | size :: sizes => command_sections σ a ++ table_sections σ (a + size) sizes
  end.

Lemma segment_sections_next σ a i :
  0 <= i ->
  let s := a + sizeof_segment_command + sizeof_section * i in
  segment_sections σ a (i + 1) =
  segment_sections σ a i ++ (if is_pointer_section σ s then [s] else []).
Proof.
  intros Hi s. unfold segment_sections. rewrite seqZ_app, fmap_app, filter_app by lia. f_equal.
  cbn [fmap list_fmap seqZ]. change (seqZ (0 + i) 1) with [0 + (0 + i)]. cbn [fmap list_fmap].
  replace (0 + (0 + i)) with i by lia. fold s. rewrite filter_cons, filter_nil.
  destruct (is_pointer_section σ s) eqn:E; [by rewrite decide_True|by rewrite decide_False].
Qed.

Lemma segment_sections_prefix σ a i n :
  0 <= i <= n -> segment_sections σ a i `prefix_of` segment_sections σ a n.
Proof.
  intros Hi. unfold segment_sections. replace n with (i + (n - i)) by lia.
  rewrite seqZ_app, fmap_app, filter_app by lia. apply prefix_app_r. done.
Qed.
End Sections.

Section ImageSpec.
Context {K : Type} {T : Target} {Kern : Kernel K} {SD : SectionData}.
Context {Laws : KernelLaws K} {TLaws : TPROLaws K}.
Implicit Types σ : machine K.

(** The pointer sections of the image at [header], and their slots. *)
Definition image_sections σ (header : Z) : list Z :=
  match table_sizes σ header (readable_length (kern σ) header) with
  | Some sizes => table_sections σ (header + sizeof_mach_header) sizes
  | None => []
  end.
Definition image_slots (context : RorkHookRebindImageContext) σ : list (Z * bool) :=
  image_sections σ (rebind_header context) ≫= section_pointers context σ.

(** The data of the sections lies in the address space, no two slots overlap,
    and no slot overlaps the header or the load commands. *)
Record image_layout (context : RorkHookRebindImageContext) σ : Prop := {
  il_fits s : s ∈ image_sections σ (rebind_header context) -> section_fits context σ s;
  il_apart : ForallOrdPairs apart (image_slots context σ);
  il_outside s : s ∈ image_slots context σ ->
    fst s + 8 <= rebind_header context \/
    rebind_header context + table_end σ (rebind_header context) <= fst s
}.

Definition image_ready (context : RorkHookRebindImageContext) σ (k : K) : Prop :=
  forall s, s ∈ image_sections σ (rebind_header context) -> section_ready context σ s k.

Lemma FOP_app {A} (R : A -> A -> Prop) l1 l2 x y :
  ForallOrdPairs R (l1 ++ l2) -> x ∈ l1 -> y ∈ l2 -> R x y.
Proof.
  intros Hf Hx Hy. induction l1 as [|z l1 IH]; [by apply not_elem_of_nil in Hx|].
  cbn [app] in Hf. inversion Hf as [|?? Ha Hf']; subst.
  apply elem_of_cons in Hx as [->|Hx]; [|by apply IH].
  rewrite List.Forall_forall in Ha. apply Ha, list_elem_of_In, elem_of_app. by right.
Qed.

Section Image.
Context (context : RorkHookRebindImageContext) σ (sizes : list Z).
Local Abbreviation header := (rebind_header context).
Local Abbreviation slots_of := (section_pointers context σ).
Context (Hheader : 0 <= header).
Context (Hsizes : table_sizes σ header (readable_length (kern σ) header) = Some sizes).
Context (Hlayout : image_layout context σ).
Context (Hsafe : forall s, s ∈ image_slots context σ -> refusal_is_safe (kern σ) (fst s)).
Local Abbreviation done_to l := (rebound context (image_ready context σ) l σ).

Lemma image_table_bound : table_end σ header <= readable_length (kern σ) header.
Proof using Hsizes.
  apply table_sizes_spec in Hsizes. unfold table_end. apply (vi_bound _ _ _ _ Hsizes).
Qed.

Lemma progress_keeps l σ1 :
  l `prefix_of` image_slots context σ -> done_to l σ1 ->
  keeps header (table_end σ header) σ σ1.
Proof using Hsizes Hlayout Laws.
  intros [rest Hl] Hb. split.
  - eapply rebound_readable; [exact Hb|]. pose proof image_table_bound.
    eapply range_readable_sub; [apply (readable_length_sound σ header)|lia|lia].
  - intros x Hx. apply (rb_frame _ _ _ _ _ Hb). intros (s & Hs & Hc).
    assert (s ∈ image_slots context σ) as Hin by (rewrite Hl; apply elem_of_app; by left).
    apply (il_outside _ _ Hlayout) in Hin. unfold slot_covers in Hc. lia.
Qed.

(** A section record that lies in the table reads the same later. *)
Definition in_table (s : Z) : Prop := header <= s /\ s + 80 <= header + table_end σ header.

Lemma kept_data σ1 s :
  keeps header (table_end σ header) σ σ1 -> in_table s ->
  section_name σ1 s = section_name σ s /\ section_data context σ1 s = section_data context σ s.
Proof.
  intros [_ Hk] [H1 H2].
  assert (forall a, header <= a -> a + 16 <= header + table_end σ header ->
    section_name σ1 a = section_name σ a) as Hn.
  { intros a ? ?. unfold section_name. f_equal. apply peeks_ext. intros. apply Hk. lia. }
  unfold section_data. rewrite !Hn by lia. done.
Qed.

Lemma section_progress l σ1 s :
  s ∈ image_sections σ header -> in_table s -> s <> NULL ->
  l ++ slots_of s `prefix_of` image_slots context σ -> done_to l σ1 ->
  wp (RorkHookRebindSection (Some context) s) σ1 (fun _ σ2 => done_to (l ++ slots_of s) σ2).
Proof using Hsizes Hlayout Hsafe Laws TLaws.
  intros Hs Hin Hnull Hpre Hb.
  assert (keeps header (table_end σ header) σ σ1) as Hk.
  { eapply progress_keeps; [|exact Hb]. etrans; [|exact Hpre]. by apply prefix_app_r. }
  destruct (kept_data σ1 s Hk Hin) as [Hn Hd].
  assert (section_pointers context σ1 s = slots_of s) as Hp.
  { unfold section_pointers. by rewrite Hd, Hn. }
  destruct Hpre as [rest Hall].
  assert (forall t, t ∈ slots_of s -> t ∈ image_slots context σ) as Hsub.
  { intros t Ht. rewrite Hall. rewrite !elem_of_app. auto. }
  eapply wp_mono; [apply (RorkHookRebindSection_spec context (image_ready context σ))|].
  - done.
  - eapply range_readable_sub; [apply Hk|unfold in_table in Hin; lia|unfold in_table in Hin; lia].
  - unfold section_fits. rewrite Hd. by apply (il_fits _ _ Hlayout).
  - rewrite Hp. intros t Ht. eapply rebound_refusal_safe; [exact Hb|]. by apply Hsafe, Hsub.
  - intros k Hready. unfold section_ready. rewrite Hp, Hd. by apply Hready.
  - intros [] σ2. cbn beta. rewrite Hp. intros H2. eapply rebound_app; [|exact Hb|exact H2].
    intros x y Hx Hy. apply (FOP_app apart l (slots_of s ++ rest)); [|done|by apply elem_of_app; left].
    rewrite app_assoc, <- Hall. apply Hlayout.
Qed.

Lemma bind_slots_app l1 l2 : (l1 ++ l2) ≫= slots_of = (l1 ≫= slots_of) ++ (l2 ≫= slots_of).
Proof. apply bind_app. Qed.

(** The sections of the segment command at [a]. *)
Lemma segment_progress l σ1 a :
  let n := peek_u32 σ (a + 64) in
  header < a -> a + sizeof_segment_command + n * sizeof_section <= header + table_end σ header ->
  (forall s, s ∈ segment_sections σ a n -> s ∈ image_sections σ header) ->
  l ++ (segment_sections σ a n ≫= slots_of) `prefix_of` image_slots context σ ->
  done_to l σ1 ->
  wp (loopM FUEL32 (sections_step (Some context) a (a + sizeof_segment_command)) 0) σ1
    (fun _ σ2 => done_to (l ++ (segment_sections σ a n ≫= slots_of)) σ2).
Proof using Hheader Hsizes Hlayout Hsafe Laws TLaws.
  intros n Ha Hend Hsub Hpre Hb. pose proof (peek_u32_range σ (a + 64)) as Hn.
  fold n in Hn. unfold is_u32, sizeof_segment_command, sizeof_section in *.
  eapply (wp_loop _ (fun i σ2 => 0 <= i <= n /\
      done_to (l ++ (segment_sections σ a i ≫= slots_of)) σ2) (fun i => n - i)).
  2:{ split; [lia|]. cbn. by rewrite app_nil_r. }
  2:{ unfold FUEL32. lia. }
  intros i σ2 [Hi H2] _. unfold sections_step, segment_nsects, section_flags, loop_step.
  assert (keeps header (table_end σ header) σ σ2) as Hk.
  { eapply progress_keeps; [|exact H2]. etrans; [|exact Hpre]. apply prefix_app.
    destruct (segment_sections_prefix σ a i n Hi) as [m ->].
    rewrite bind_slots_app. by apply prefix_app_r. }
  eapply wp_call; [apply load_u32_ok; eapply range_readable_sub; [apply Hk|lia|lia]|].
  rewrite (keeps_peek_u32 _ _ _ _ _ Hk) by lia. fold n.
  destruct (Z.ltb_spec i n) as [Hlt|]; cbn [negb].
  2:{ apply wp_ret. by replace n with i by lia. }
  unfold sizeof_section. set (s := a + 72 + 80 * i).
  eapply wp_call; [apply load_u32_ok; eapply range_readable_sub; [apply Hk|lia|lia]|].
  rewrite (keeps_peek_u32 _ _ _ _ _ Hk) by lia.
  assert (u32 (i + 1) = i + 1) as -> by (apply u32_small; unfold is_u32; lia).
  destruct (segment_sections_prefix σ a (i + 1) n) as [m Hm]; [lia|].
  rewrite Hm, bind_slots_app, app_assoc in Hpre.
  apply prefix_app_l in Hpre.
  pose proof (segment_sections_next σ a i (proj1 Hi)) as Hnext. cbv zeta in Hnext.
  unfold sizeof_segment_command, sizeof_section in Hnext. fold s in Hnext.
  change ((Z.land (peek_u32 σ (s + 64)) SECTION_TYPE =? S_LAZY_SYMBOL_POINTERS) ||
          (Z.land (peek_u32 σ (s + 64)) SECTION_TYPE =? S_NON_LAZY_SYMBOL_POINTERS))
    with (is_pointer_section σ s).
  apply wp_bind. rewrite Hnext, bind_slots_app, app_assoc in Hpre.
  destruct (is_pointer_section σ s).
  - cbn [mbind list_bind] in Hpre. rewrite app_nil_r in Hpre.
    eapply wp_mono; [eapply section_progress; [| | |exact Hpre|exact H2]|].
    + apply Hsub. rewrite Hm, Hnext, !elem_of_app, list_elem_of_singleton. auto.
    + unfold in_table. lia.
    + unfold NULL. lia.
    + intros ? σ3 H3. apply wp_ret. split; [split; [lia|]|lia].
      rewrite Hnext, bind_slots_app, app_assoc. cbn [mbind list_bind]. by rewrite app_nil_r.
  - apply wp_ret, wp_ret. rewrite Hnext, app_nil_r. split; [split; [lia|exact H2]|lia].
Qed.

(** The visitor, on a command of the table. *)
Lemma skip_eq σ1 (a : Z) (c : RorkHookRebindImageContext) :
  a <> NULL -> range_readable σ1 a 8 ->
  (ret (a =? NULL) <||> ret (bool_decide (Some c = None)) <||>
   (let* cmd := command_cmd a in ret (negb (cmd =? RORK_HOOK_LC_SEGMENT))) <||>
   (let* cmdsize := command_cmdsize a in ret (cmdsize <? sizeof_segment_command))) σ1 =
  Ret (negb (peek_u32 σ1 a =? RORK_HOOK_LC_SEGMENT) ||
       (peek_u32 σ1 (a + 4) <? sizeof_segment_command)) σ1.
Proof.
  intros Hn Hr. unfold or_else, command_cmd, command_cmdsize, bind, ret.
  replace (a =? NULL) with false by lia.
  rewrite bool_decide_eq_false_2 by done. cbn beta iota.
  rewrite load_u32_ok by (eapply range_readable_sub; [done|lia|lia]).
  destruct (peek_u32 σ1 a =? RORK_HOOK_LC_SEGMENT); cbn [negb orb]; [|done].
  by rewrite load_u32_ok by (eapply range_readable_sub; [done|lia|lia]).
Qed.

Lemma command_progress l σ1 a i :
  header < a -> a + Z.max 8 (peek_u32 σ (a + 4)) <= header + table_end σ header ->
  (forall s, s ∈ command_sections σ a -> s ∈ image_sections σ header) ->
  l ++ (command_sections σ a ≫= slots_of) `prefix_of` image_slots context σ ->
  done_to l σ1 ->
  wp (RorkHookRebindImageLoadCommand a i (Some context)) σ1 (fun r σ2 =>
    r = (true, Some context) /\ done_to (l ++ (command_sections σ a ≫= slots_of)) σ2).
Proof using Hheader Hsizes Hlayout Hsafe Laws TLaws.
  intros Ha Hend Hsub Hpre Hb. unfold RorkHookRebindImageLoadCommand.
  assert (keeps header (table_end σ header) σ σ1) as Hk.
  { eapply progress_keeps; [|exact Hb]. etrans; [|exact Hpre]. by apply prefix_app_r. }
  eapply wp_call.
  { apply skip_eq; [unfold NULL; lia|eapply range_readable_sub; [apply Hk|lia|lia]]. }
  rewrite !(keeps_peek_u32 _ _ _ _ _ Hk) by lia. unfold command_sections in *.
  destruct (peek_u32 σ a =? RORK_HOOK_LC_SEGMENT); cbn [negb orb andb] in *.
  2:{ apply wp_ret. by rewrite app_nil_r. }
  destruct (Z.ltb_spec (peek_u32 σ (a + 4)) sizeof_segment_command) as [Hlt|Hge].
  { replace (sizeof_segment_command <=? peek_u32 σ (a + 4)) with false in * by lia.
    apply wp_ret. by rewrite app_nil_r. }
  replace (sizeof_segment_command <=? peek_u32 σ (a + 4)) with true in * by lia.
  cbn [andb] in *.
  pose proof (peek_u32_range σ (a + 64)) as Hn. unfold is_u32 in Hn.
  unfold segment_nsects, command_cmdsize.
  unfold sizeof_segment_command in Hge.
  eapply wp_call; [apply load_u32_ok; eapply range_readable_sub; [apply Hk|lia|lia]|].
  rewrite !(keeps_peek_u32 _ _ _ _ _ Hk) by lia.
  replace (SIZE_MAX <? _) with false
    by (unfold SIZE_MAX, UINT64_MAX, sizeof_section; lia).
  replace (SIZE_MAX <? _) with false
    by (unfold SIZE_MAX, UINT64_MAX, sizeof_section, sizeof_segment_command; lia).
  eapply wp_call; [apply load_u32_ok; eapply range_readable_sub; [apply Hk|lia|lia]|].
  rewrite !(keeps_peek_u32 _ _ _ _ _ Hk) by lia.
  destruct (Z.ltb_spec (peek_u32 σ (a + 4))
    (sizeof_segment_command + peek_u32 σ (a + 64) * sizeof_section)) as [Hlt|Hfit].
  { replace (_ <=? peek_u32 σ (a + 4)) with false in * by lia.
    apply wp_ret. by rewrite app_nil_r. }
  replace (_ <=? peek_u32 σ (a + 4)) with true in * by lia.
  apply wp_bind. eapply wp_mono; [eapply segment_progress; try done; lia|].
  intros ? σ2 H2. by apply wp_ret.
Qed.

(** Where the visits are: the commands left, and what is done. *)
Definition visiting (a : Z) (left : list Z) (c : option RorkHookRebindImageContext) σ1 : Prop :=
  c = Some context /\ header < a /\ tiled σ a (header + table_end σ header) left /\
  (forall s, s ∈ table_sections σ a left -> s ∈ image_sections σ header) /\
  exists l, image_slots context σ = l ++ (table_sections σ a left ≫= slots_of) /\
    done_to l σ1.

Lemma visit_progress a i size left c σ1 :
  visiting a (size :: left) c σ1 ->
  wp (RorkHookRebindImageLoadCommand a i c) σ1
    (fun r σ2 => r = (true, Some context) /\ visiting (a + size) left (Some context) σ2).
Proof using Hheader Hsizes Hlayout Hsafe Laws TLaws.
  intros (-> & Ha & (Hsz & Hsize & Ht) & Hsub & l & Hall & Hb).
  pose proof (tiled_bound _ _ _ _ Ht). unfold sizeof_load_command in Hsz.
  cbn [table_sections] in *. rewrite bind_slots_app in Hall.
  eapply wp_mono; [eapply command_progress; [done|lia| | |exact Hb]|].
  - intros s Hs. apply Hsub, elem_of_app. by left.
  - rewrite Hall, app_assoc. by apply prefix_app_r.
  - intros r σ2 [-> H2]. split; [done|]. split_and!; [done|lia|done| |].
    + intros s Hs. apply Hsub, elem_of_app. by right.
    + eexists. split; [|exact H2]. by rewrite Hall, app_assoc.
Qed.

Lemma deliver_progress a i left c σ1 :
  visiting a left c σ1 ->
  wp (deliver RorkHookRebindImageLoadCommand a i left c) σ1
    (fun _ σ2 => done_to (image_slots context σ) σ2).
Proof using Hheader Hsizes Hlayout Hsafe Laws TLaws.
  revert a i c σ1. induction left as [|size left IH]; intros a i c σ1 Hv.
  - apply wp_ret. destruct Hv as (_ & _ & _ & _ & l & -> & Hb). cbn. by rewrite app_nil_r.
  - cbn [deliver]. apply wp_bind. eapply wp_mono; [by apply visit_progress|].
    intros r σ2 [-> H2]. by apply IH.
Qed.

Lemma visiting_start :
  range_readable σ header (table_end σ header) ->
  visiting (header + sizeof_mach_header) sizes (Some context) σ.
Proof using Hsizes.
  intros Hr. unfold visiting, image_slots, image_sections. rewrite Hsizes.
  unfold sizeof_mach_header at 1. split_and!; [done|lia| |done|].
  - apply table_sizes_spec, tiled_valid in Hsizes. unfold table_end. by rewrite Z.add_assoc.
  - exists []. split; [done|apply rebound_nil].
Qed.
End Image.

Lemma RorkHookRebindImage_spec context σ :
  is_u64 (rebind_header context) -> image_layout context σ ->
  (forall s, s ∈ image_slots context σ -> refusal_is_safe (kern σ) (fst s)) ->
  wp (RorkHookForEachLoadCommand (rebind_header context)
        (Some RorkHookRebindImageLoadCommand) (Some context)) σ
    (fun _ σ' => rebound context (image_ready context σ) (image_slots context σ) σ σ').
Proof using Laws TLaws.
  intros Hh Hl Hsafe. unfold RorkHookForEachLoadCommand.
  eapply wp_call; [by apply RorkHookReadableMemoryLength_eq|].
  set (n := readable_length (kern σ) (rebind_header context)).
  assert (range_readable σ (rebind_header context) n) as Hr by apply readable_length_sound.
  assert (0 <= rebind_header context) as Hh0 by (unfold is_u64 in Hh; lia).
  unfold wp. destruct (table_sizes σ (rebind_header context) n) as [sizes|] eqn:Hs.
  - rewrite (RorkHookForEachLoadCommandWithSize_refines σ _ _ _ (visiting context σ)).
    + rewrite Hs. apply wp_bind. eapply wp_mono.
      * apply (deliver_progress context σ sizes); [done..|].
        apply (visiting_start context σ sizes); [done|].
        pose proof (image_table_bound context σ sizes Hs). fold n in H.
        eapply range_readable_sub; [exact Hr|lia|lia].
      * intros c σ2 H2. by apply wp_ret.
    + intros a left c σ1 (_ & _ & _ & _ & l & Hall & Hb).
      eapply (progress_keeps context σ sizes Hs Hl); [|exact Hb]. rewrite Hall.
      by apply prefix_app_r.
    + intros a i size left c σ1 c' σ2 Hv Hrun.
      apply (visit_progress context σ sizes Hh0 Hs Hl Hsafe a i) in Hv.
      apply wp_inv in Hv as (r & σ3 & Hrun' & -> & Hv). rewrite Hrun in Hrun'. by simplify_eq.
    + done.
    + intros sizes' Hs'. rewrite Hs in Hs'. injection Hs' as <-.
      by apply (visiting_start context σ sizes).
  - unfold image_slots, image_sections. fold n. rewrite Hs.
    unfold RorkHookForEachLoadCommandWithSize.
    erewrite bind_Ret by by apply RorkHookValidateLoadCommands_eq.
    rewrite Hs. apply rebound_nil.
Qed.
End ImageSpec.

(** ** What pointer authentication promises *)

(** Stripping removes a signature, and signing yields a 64-bit pointer. *)
Class PointerAuthLaws (T : Target) : Prop := {
  strip_idem p : ptrauth_strip (ptrauth_strip p) = ptrauth_strip p;
  strip_sign p d : ptrauth_strip (ptrauth_sign_unauthenticated p d) = ptrauth_strip p;
  sign_range p d : is_u64 p -> is_u64 (ptrauth_sign_unauthenticated (ptrauth_strip p) d)
}.

Lemma sim_auth_laws arm64 ios ptrauth config :
  PointerAuthLaws (sim_target arm64 ios ptrauth config).
Proof.
  split; cbn; intros.
  - apply Zmod_mod.
  - by rewrite Z.mul_comm, Z.mod_add.
  - pose proof (Z.mod_pos_bound d (2 ^ 15)). pose proof (Z.mod_pos_bound p (2 ^ 48)).
    unfold is_u64. lia.
Qed.

#[export] Instance device_auth_laws : PointerAuthLaws device := sim_auth_laws _ _ _ _.

(** ** Properties *)

Section Properties.
Context {K : Type} {T : Target} {Kern : Kernel K} {SD : SectionData}.
Context {Laws : KernelLaws K} {TLaws : TPROLaws K}.
Implicit Types σ : machine K.

Lemma rebind_in_image header replacee replacement σ :
  let context := RebindImageContext header (RorkHookStripPointer replacee) replacement in
  is_u64 header -> image_layout context σ ->
  (forall s, s ∈ image_slots context σ -> refusal_is_safe (kern σ) (fst s)) ->
  wp (RorkHookRebindSymbolInImage header replacee replacement) σ (fun _ σ' =>
    if (header =? NULL) || (replacee =? NULL) || (replacement =? NULL) then σ' = σ
    else rebound context (image_ready context σ) (image_slots context σ) σ σ').
Proof using Laws TLaws.
  intros context Hh Hl Hs. unfold RorkHookRebindSymbolInImage.
  destruct (_ || _); [by apply wp_ret|]. apply wp_bind.
  eapply wp_mono; [by apply (RorkHookRebindImage_spec context)|]. intros ? σ' Hb. by apply wp_ret.
Qed.

(** C18: rebinding one image.  Suppose that the image's slots do not overlap each
    other or its load commands, and that a refused protection change of a slot's pages
    does not meet an unguarded read-only page in a TPRO process ([refusal_is_safe]:
    there the store faults, see [RorkHookStoreProtectedPointer_unguarded]).  Then the
    call does not fault and ends within its loop bounds.  It does nothing when an
    argument is missing; otherwise the machine it leaves is [rebound] over the slots of
    the image's symbol-pointer sections, and an image whose table is not valid has
    none. *)
Theorem RorkHookRebindSymbolInImage_rebinds header replacee replacement σ :
  let context := RebindImageContext header (RorkHookStripPointer replacee) replacement in
  is_u64 header -> image_layout context σ ->
  (forall s, s ∈ image_slots context σ -> refusal_is_safe (kern σ) (fst s)) ->
  wp (RorkHookRebindSymbolInImage header replacee replacement) σ (fun _ σ' =>
    if (header =? NULL) || (replacee =? NULL) || (replacement =? NULL) then σ' = σ
    else rebound context (image_ready context σ) (image_slots context σ) σ σ').
Proof using Laws TLaws. apply rebind_in_image. Qed.

Context {ALaws : PointerAuthLaws T}.

Lemma final_value_strips context authenticated slot :
  is_u64 (rebind_replacement context) ->
  RorkHookStripPointer (u64 (final_value context authenticated slot)) =
  RorkHookStripPointer (rebind_replacement context).
Proof using Laws ALaws.
  intros Hr. unfold final_value, RorkHookStripPointer. pose proof (strip_range _ Hr).
  destruct ptrauth_calls; [|by rewrite u64_small].
  destruct authenticated; rewrite u64_small by (try apply sign_range; done).
  - by rewrite strip_sign, strip_idem.
  - apply strip_idem.
Qed.

(** C6: rebinding redirects.  When the kernel refuses nothing, every section of the
    image is readable as a whole and each of its slots can be stored to
    ([image_ready], [refusal_is_safe]), every slot that resolved to the replacee resolves to
    the replacement, every other slot holds what it held, and every protection is
    as before; and no slot resolves to the replacee any more, so that applying the
    rebind again would find nothing to do. *)
Theorem RorkHookRebindSymbolInImage_redirects header replacee replacement σ σ' :
  let context := RebindImageContext header (RorkHookStripPointer replacee) replacement in
  is_u64 header -> is_u64 replacement -> image_layout context σ ->
  (forall s, s ∈ image_slots context σ -> refusal_is_safe (kern σ) (fst s)) ->
  header <> NULL -> replacee <> NULL -> replacement <> NULL ->
  RorkHookRebindSymbolInImage header replacee replacement σ = Ret tt σ' ->
  ~ refused σ σ' -> ~ window_refused (kern σ) ->
  always (image_ready context σ) (kern σ) ->
  same_prot (kern σ) (kern σ') /\
  forall s, s ∈ image_slots context σ ->
    let old := peek_u64 σ (fst s) in let new := peek_u64 σ' (fst s) in
    (if matches context old
     then RorkHookStripPointer new = RorkHookStripPointer replacement else new = old) /\
    (RorkHookStripPointer replacement <> RorkHookStripPointer replacee ->
     matches context new = false).
Proof using Laws TLaws ALaws.
  intros context Hh Hr Hl Hs N1 N2 N3 Hrun Hno Hw Hy.
  pose proof (rebind_in_image header replacee replacement σ Hh Hl Hs) as Hwp.
  apply wp_inv in Hwp as (? & σ1 & Hrun' & Hb). rewrite Hrun in Hrun'.
  injection Hrun' as <- <-. unfold NULL in *.
  replace (_ || _) with false in Hb by lia.
  destruct (rb_complete _ _ _ _ _ Hb Hno Hw Hy) as [Hp Hv]. split; [done|].
  intros s Hin. cbv zeta. specialize (Hv s Hin). fold context in Hv.
  unfold new_value in Hv. destruct (matches context _) eqn:Hm; rewrite Hv.
  - split; [by apply (final_value_strips context)|]. intros Hne.
    unfold matches. rewrite (final_value_strips context) by done. cbn [rebind_replacement context].
    apply andb_false_iff. right. by apply Z.eqb_neq.
  - by split.
Qed.
End Properties.

(** ** Witnesses *)

(** An image at [0x4000] whose [__auth_got] has three slots at [0xc000], in a
    read-only page: one resolves to [0x20000], one is empty, one resolves
    elsewhere. *)
Definition got_sections : SectionData := {|
  getsectiondata := fun header _ sectname =>
    if bool_decide (header = 0x4000 /\ sectname = auth_got) then (0xc000, 24) else (0, 0)
|}.

Definition got_segment : list byte :=
  le_split 4 RORK_HOOK_LC_SEGMENT ++ le_split 4 152 ++ le_split 16 0 ++
  le_split 8 0 ++ le_split 8 0 ++ le_split 8 0 ++ le_split 8 0 ++ le_split 8 0 ++
  le_split 4 1 ++ le_split 4 0 ++
  auth_got ++ le_split 6 0 ++ le_split 16 0 ++ le_split 32 0 ++ le_split 4 6 ++ le_split 12 0.

Definition got_machine : machine sim :=
  sim_machine [(1, 1); (3, 1)]
    [(0x4000, image_header [uuid_command; got_segment]);
     (0xc000, le_split 8 (0x20000 + 2 ^ 50)); (0xc010, le_split 8 0x30000)].


Definition got_context : RorkHookRebindImageContext :=
  RebindImageContext 0x4000 (RorkHookStripPointer (T := device) 0x20000) 0x50000.

Lemma got_image_slots :
  image_slots (SD := got_sections) got_context got_machine =
  [(0xc000, true); (0xc008, true); (0xc010, true)].
Proof. by vm_compute. Qed.

Lemma got_image_sections : image_sections got_machine (rebind_header got_context) = [0x4080].
Proof. by vm_compute. Qed.

Lemma got_layout : image_layout (SD := got_sections) got_context got_machine.
Proof.
  split.
  - rewrite got_image_sections. intros s ->%list_elem_of_singleton. by vm_compute.
  - rewrite got_image_slots. repeat constructor; unfold apart; cbn; lia.
  - rewrite got_image_slots. intros s. rewrite !elem_of_cons, elem_of_nil.
    replace (table_end got_machine (rebind_header got_context)) with 208 by (by vm_compute).
    intros [->|[->|[->|[]]]]; cbn; lia.
Qed.

Lemma got_safe s : s ∈ image_slots (SD := got_sections) got_context got_machine ->
  refusal_is_safe (T := device) (kern got_machine) (fst s).
Proof. intros _. left. by vm_compute. Qed.

(** On the concrete kernel what a store needs is a function of the protections. *)
Lemma sim_region_at_same (k k' : sim) a : same_prot k k' -> region_at k' a = region_at k a.
Proof.
  intros Hs. specialize (Hs a). cbn in Hs. unfold region_at. cbn.
  unfold sim_region. cbn [fst]. by rewrite Hs.
Qed.

Lemma sim_readable_same (k k' : sim) a n :
  same_prot k k' -> memory_is_readable k' a n = memory_is_readable k a n.
Proof.
  intros Hs. unfold memory_is_readable, readable_length. by rewrite (sim_region_at_same k).
Qed.

Lemma sim_store_ready_same (k k' : sim) slot prot :
  same_prot k k' ->
  store_ready (T := device) k' slot prot = store_ready (T := device) k slot prot.
Proof.
  intros Hs. unfold store_ready.
  by rewrite !(sim_readable_same k k'), !(sim_region_at_same k k').
Qed.

Lemma got_ready :
  always (image_ready (T := device) (SD := got_sections) got_context got_machine)
    (kern got_machine).
Proof.
  intros k' _ Hs s Hin. rewrite got_image_sections in Hin.
  apply list_elem_of_singleton in Hin as ->. right. split.
  - change (section_data (SD := got_sections) got_context got_machine 0x4080) with (0xc000, 24).
    cbn beta iota.
    rewrite (sim_readable_same (kern got_machine)) by done. by vm_compute.
  - intros s. rewrite (sim_store_ready_same (kern got_machine)) by done.
    replace (section_pointers _ _ _) with [(0xc000, true); (0xc008, true); (0xc010, true)]
      by (by vm_compute).
    rewrite !elem_of_cons, elem_of_nil. intros [->|[->|[->|[]]]]; by vm_compute.
Qed.

Definition rebind_got : outcome sim unit :=
  RorkHookRebindSymbolInImage (T := device) (SD := got_sections) 0x4000 0x20000 0x50000
    got_machine.
Definition got_slots_after : list Z :=
  (fun a => peek_u64 (final got_machine rebind_got) a) <$> [0xc000; 0xc008; 0xc010].

Lemma RorkHookRebindSymbolInImage_rebinds_witness :
  got_slots_after = [0x50000 + 2 ^ 48 * (1 + 0xc000 mod 2 ^ 15); 0; 0x30000] /\
  wp (RorkHookRebindSymbolInImage (T := device) (SD := got_sections) 0x4000 0x20000 0x50000)
    got_machine (fun _ σ' =>
    if (0x4000 =? NULL) || (0x20000 =? NULL) || (0x50000 =? NULL) then σ' = got_machine
    else rebound (T := device) got_context
           (image_ready (T := device) (SD := got_sections) got_context got_machine)
           (image_slots (SD := got_sections) got_context got_machine) got_machine σ').
Proof.
  split; [by vm_compute|].
  apply (RorkHookRebindSymbolInImage_rebinds (T := device) (SD := got_sections)
           0x4000 0x20000 0x50000 got_machine); [done|apply got_layout|apply got_safe].
Defined.

(** No protection change of the run was refused. *)
Lemma got_not_refused : ~ refused got_machine (final got_machine rebind_got).
Proof. apply accepted_not_refused; by vm_compute. Qed.

Lemma RorkHookRebindSymbolInImage_redirects_witness :
  let σ' := final got_machine rebind_got in
  same_prot (kern got_machine) (kern σ') /\
  forall s, s ∈ image_slots (SD := got_sections) got_context got_machine ->
    let old := peek_u64 got_machine (fst s) in let new := peek_u64 σ' (fst s) in
    (if matches (T := device) got_context old
     then RorkHookStripPointer (T := device) new = RorkHookStripPointer (T := device) 0x50000
     else new = old) /\
    (RorkHookStripPointer (T := device) 0x50000 <> RorkHookStripPointer (T := device) 0x20000 ->
     matches (T := device) got_context new = false).
Proof.
  apply (RorkHookRebindSymbolInImage_redirects (T := device) (SD := got_sections)
           0x4000 0x20000 0x50000 got_machine).
  - done.
  - done.
  - apply got_layout.
  - apply got_safe.
  - done.
  - done.
  - done.
  - by vm_compute.
  - apply got_not_refused.
  - intros [Hu _]. by vm_compute in Hu.
  - apply got_ready.
Defined.
