(* ===== verification/Undo.v ===== *)
(** Rebinding an image again: what a second call of [RorkHookRebindSymbolInImage] does
    to the image a first one has rebound.

    The registry applies an entry to an image more than once (its callback and its
    enumeration may both reach it), and a client takes a rebind back by the reverse
    rebind.  Both start from the image the first call left, so the load commands and
    the slots it had must still be there. *)
From S2P Require Import Prelude Machine Logic Sim CString Regions LoadCommands Memory Rebind.

(** ** The image is the same image *)

Section Kept.
Context {K : Type} {T : Target} {Kern : Kernel K} {SD : SectionData}.
Implicit Types σ : machine K.

Lemma list_filter_ext_in {A} (P Q : A -> Prop) `{!forall x, Decision (P x)}
    `{!forall x, Decision (Q x)} (l : list A) :
  (forall x, x ∈ l -> P x <-> Q x) -> filter P l = filter Q l.
Proof.
  induction l as [|x l IH]; intros Hl; [done|]. rewrite !filter_cons.
  rewrite IH by (intros; apply Hl; by apply list_elem_of_further).
  specialize (Hl x (list_elem_of_here _ _)). destruct (decide (P x)), (decide (Q x)); tauto.
Qed.

Lemma list_bind_ext_in {A B} (f g : A -> list B) (l : list A) :
  (forall x, x ∈ l -> f x = g x) -> l ≫= f = l ≫= g.
Proof.
  induction l as [|x l IH]; intros Hl; [done|]. cbn.
  rewrite Hl by apply list_elem_of_here. f_equal. apply IH.
  intros; apply Hl. by apply list_elem_of_further.
Qed.

(** The commands of a table lie in it. *)
Lemma command_bound (sizes : list Z) i size :
  (forall i size, sizes !! i = Some size -> sizeof_load_command <= size) ->
  sizes !! i = Some size -> 0 <= sumZ (take i sizes) /\
    sumZ (take i sizes) + size <= sumZ sizes.
Proof.
  intros Hc Hi.
  assert (forall l, (forall i z, l !! i = Some z -> sizeof_load_command <= z) -> 0 <= sumZ l)
    as Hpos.
  { intros l Hl. apply (sumZ_lower 0). intros j z Hj. specialize (Hl j z Hj).
    unfold sizeof_load_command in Hl. lia. }
  rewrite <- (take_drop_middle sizes i size Hi) at 3. rewrite sumZ_app. cbn [sumZ].
  assert (0 <= sumZ (take i sizes)).
  { apply Hpos. intros j z Hj. apply lookup_take_Some in Hj as [Hj _]. by eapply Hc. }
  assert (0 <= sumZ (drop (S i) sizes)).
  { apply Hpos. intros j z Hj. rewrite lookup_drop in Hj. by eapply Hc. }
  lia.
Qed.

Section Table.
Context (header : Z) σ σ1.
Context (Hk : keeps header (table_end σ header) σ σ1).

Lemma valid_kept n sizes :
  valid_image σ header n sizes -> valid_image σ1 header n sizes.
Proof using Hk.
  intros [Hn Hm Hb Hc Ht Hcmd]. pose proof (peek_u32_range σ (header + 20)) as Hs.
  unfold is_u32, table_end, sizeof_mach_header in *.
  assert (forall a, header <= a -> a + 4 <= header + (32 + peek_u32 σ (header + 20)) ->
    peek_u32 σ1 a = peek_u32 σ a) as Hpk by (intros; by eapply keeps_peek_u32).
  split; unfold sizeof_mach_header; try done; try (rewrite !Hpk by lia; done).
  intros i size Hi. destruct (Hcmd i size Hi) as (H1 & H2 & H3).
  destruct (command_bound sizes i size) as [B1 B2]; [|done|].
  { intros j z Hj. by destruct (Hcmd j z Hj). }
  split_and!; [done|done|]. unfold sizeof_load_command in H1.
  rewrite Hpk by lia. exact H3.
Qed.

Lemma table_sizes_kept n sizes :
  table_sizes σ header n = Some sizes -> table_sizes σ1 header n = Some sizes.
Proof using Hk. rewrite !table_sizes_spec. apply valid_kept. Qed.

(** The pointer sections of a command that lies in the table, and of the table. *)
Lemma command_sections_kept a :
  header <= a -> 8 <= peek_u32 σ (a + 4) ->
  a + peek_u32 σ (a + 4) <= header + table_end σ header ->
  command_sections σ1 a = command_sections σ a /\
  forall s, s ∈ command_sections σ a -> header <= s /\ s + 80 <= header + table_end σ header.
Proof using Hk.
  intros Ha H8 Hend. unfold command_sections, sizeof_segment_command, sizeof_section.
  rewrite !(keeps_peek_u32 _ _ _ _ _ Hk) by lia.
  destruct (peek_u32 σ a =? RORK_HOOK_LC_SEGMENT); cbn [andb].
  2:{ split; [done|]. intros s Hs. by apply not_elem_of_nil in Hs. }
  destruct (Z.leb_spec 72 (peek_u32 σ (a + 4))); cbn [andb].
  2:{ split; [done|]. intros s Hs. by apply not_elem_of_nil in Hs. }
  rewrite !(keeps_peek_u32 _ _ _ _ _ Hk) by lia.
  destruct (Z.leb_spec (72 + peek_u32 σ (a + 64) * 80) (peek_u32 σ (a + 4))).
  2:{ split; [done|]. intros s Hs. by apply not_elem_of_nil in Hs. }
  unfold segment_sections, sizeof_segment_command, sizeof_section. split.
  - apply list_filter_ext_in. intros s (i & -> & Hi%elem_of_seqZ)%list_elem_of_fmap.
    unfold is_pointer_section. by rewrite !(keeps_peek_u32 _ _ _ _ _ Hk) by lia.
  - intros s [_ (i & -> & Hi%elem_of_seqZ)%list_elem_of_fmap]%list_elem_of_filter. lia.
Qed.

Lemma table_sections_kept a stop sizes :
  tiled σ a stop sizes -> header <= a -> stop <= header + table_end σ header ->
  table_sections σ1 a sizes = table_sections σ a sizes /\
  forall s, s ∈ table_sections σ a sizes -> header <= s /\ s + 80 <= header + table_end σ header.
Proof using Hk.
  revert a. induction sizes as [|size sizes IH]; intros a Ht Ha Hstop; cbn [table_sections].
  { split; [done|]. intros s Hs. by apply not_elem_of_nil in Hs. }
  destruct Ht as (H8 & <- & Ht). unfold sizeof_load_command in H8.
  pose proof (tiled_bound _ _ _ _ Ht) as Hle.
  destruct (command_sections_kept a) as [-> Hc]; [lia..|].
  destruct (IH _ Ht) as [-> Hs]; [lia..|].
  split; [done|]. intros s [Hin|Hin]%elem_of_app; auto.
Qed.
End Table.

Section Image.
Context (context : RorkHookRebindImageContext) σ σ1.
#[local] Abbreviation header := (rebind_header context).
Context (Hk : keeps header (table_end σ header) σ σ1).
Context (Hlen : readable_length (kern σ1) header = readable_length (kern σ) header).
Context (sizes : list Z).
Context (Hsizes : table_sizes σ header (readable_length (kern σ) header) = Some sizes).

Lemma image_sections_kept :
  image_sections σ1 header = image_sections σ header /\
  forall s, s ∈ image_sections σ header -> header <= s /\ s + 80 <= header + table_end σ header.
Proof using Hk Hlen Hsizes.
  unfold image_sections. rewrite Hlen, Hsizes.
  rewrite (table_sizes_kept header σ σ1 Hk _ _ Hsizes).
  apply table_sizes_spec, tiled_valid in Hsizes.
  eapply table_sections_kept; [exact Hk|exact Hsizes| |]; unfold table_end, sizeof_mach_header; lia.
Qed.

Lemma section_kept s :
  s ∈ image_sections σ header ->
  section_data context σ1 s = section_data context σ s /\
  section_pointers context σ1 s = section_pointers context σ s.
Proof using Hk Hlen Hsizes.
  intros Hs. destruct image_sections_kept as [_ Hin]. specialize (Hin s Hs).
  destruct (kept_data context σ σ1 s Hk Hin) as [Hn Hd].
  split; [done|]. unfold section_pointers. by rewrite Hn, Hd.
Qed.

Lemma image_slots_kept : image_slots context σ1 = image_slots context σ.
Proof using Hk Hlen Hsizes.
  unfold image_slots. destruct image_sections_kept as [-> _].
  apply list_bind_ext_in. intros s Hs. by apply section_kept.
Qed.

Lemma image_layout_kept : image_layout context σ -> image_layout context σ1.
Proof using Hk Hlen Hsizes.
  intros [Hf Ha Ho]. destruct image_sections_kept as [Hsec _]. split.
  - rewrite Hsec. intros s Hs. unfold section_fits. destruct (section_kept s Hs) as [-> _].
    by apply Hf.
  - by rewrite image_slots_kept.
  - rewrite image_slots_kept. unfold table_end.
    pose proof (peek_u32_range σ (header + 20)) as Hr. unfold is_u32 in Hr.
    rewrite (keeps_peek_u32 _ _ _ _ _ Hk) by (unfold table_end, sizeof_mach_header; lia).
    exact Ho.
Qed.

Lemma image_ready_kept k : image_ready context σ k -> image_ready context σ1 k.
Proof using Hk Hlen Hsizes.
  intros Hr. unfold image_ready. destruct image_sections_kept as [-> _].
  intros s Hs. unfold section_ready. destruct (section_kept s Hs) as [-> ->]. by apply Hr.
Qed.
End Image.
End Kept.

(** ** A second rebind *)

Section Again.
Context {K : Type} {T : Target} {Kern : Kernel K} {SD : SectionData}.
Context {Laws : KernelLaws K} {TLaws : TPROLaws K}.
Implicit Types σ : machine K.

(** What of an image depends on the rebind: nothing but the header. *)
Lemma image_layout_header c c' σ :
  rebind_header c = rebind_header c' -> image_layout c σ -> image_layout c' σ.
Proof. destruct c, c'; cbn. intros <- [Hf Ha Ho]. by split. Qed.

Lemma image_ready_header c c' σ k :
  rebind_header c = rebind_header c' -> image_ready c σ k -> image_ready c' σ k.
Proof. destruct c, c'; cbn. by intros <-. Qed.

Lemma image_slots_header c c' σ :
  rebind_header c = rebind_header c' -> image_slots c σ = image_slots c' σ.
Proof. destruct c, c'; cbn. by intros <-. Qed.

(** A rebound image is the image it was. *)
Lemma rebound_image c σ σ' :
  image_layout c σ -> rebound c (image_ready c σ) (image_slots c σ) σ σ' ->
  readable_length (kern σ') (rebind_header c) = readable_length (kern σ) (rebind_header c) ->
  image_slots c σ' = image_slots c σ /\ image_layout c σ' /\
  forall k, image_ready c σ k -> image_ready c σ' k.
Proof using Laws.
  intros Hl Hb Hlen.
  destruct (table_sizes σ (rebind_header c) (readable_length (kern σ) (rebind_header c)))
    as [sizes|] eqn:Hs.
  - assert (keeps (rebind_header c) (table_end σ (rebind_header c)) σ σ') as Hk
      by by eapply progress_keeps.
    split_and!.
    + by eapply image_slots_kept.
    + by eapply image_layout_kept.
    + intros k. by eapply image_ready_kept.
  - assert (σ' = σ) as ->; [|done]. apply (rb_idle _ _ _ _ _ Hb). intros s Hin.
    unfold image_slots, image_sections in Hin. rewrite Hs in Hin.
    by apply not_elem_of_nil in Hin.
Qed.

Lemma rebound_safe c ready l σ σ' :
  rebound c ready l σ σ' ->
  (forall s, s ∈ l -> refusal_is_safe (kern σ) (fst s)) ->
  forall s, s ∈ l -> refusal_is_safe (kern σ') (fst s).
Proof using TLaws. intros Hb Hs s Hin. eapply rebound_refusal_safe; [exact Hb|by apply Hs]. Qed.

(** The second call, on the machine the first one left. *)
Lemma rebind_again header replacee replacement replacee' replacement' σ σ' :
  let context := RebindImageContext header (RorkHookStripPointer replacee) replacement in
  let context' := RebindImageContext header (RorkHookStripPointer replacee') replacement' in
  is_u64 header -> image_layout context σ ->
  (forall s, s ∈ image_slots context σ -> refusal_is_safe (kern σ) (fst s)) ->
  rebound context (image_ready context σ) (image_slots context σ) σ σ' ->
  readable_length (kern σ') header = readable_length (kern σ) header ->
  header <> NULL -> replacee' <> NULL -> replacement' <> NULL ->
  wp (RorkHookRebindSymbolInImage header replacee' replacement') σ' (fun _ σ2 =>
    rebound context' (image_ready context' σ') (image_slots context σ) σ' σ2) /\
  forall k, image_ready context σ k -> image_ready context' σ' k.
Proof using Laws TLaws.
  intros context context' Hh Hl Hs Hb Hlen N1 N2 N3.
  destruct (rebound_image context σ σ' Hl Hb Hlen) as (Hslots & Hl' & Hr).
  rewrite (image_slots_header context context') in Hslots at 1 by done. split.
  - eapply wp_mono; [apply (rebind_in_image header replacee' replacement' σ')|].
    + done.
    + by apply (image_layout_header context).
    + fold context'. rewrite Hslots. by eapply rebound_safe.
    + intros [] σ2. cbn beta. unfold NULL in *.
      replace (_ || _) with false by lia. fold context'. by rewrite Hslots.
  - intros k Hk. by apply (image_ready_header context), Hr.
Qed.
End Again.

(** ** Properties *)

Section Properties.
Context {K : Type} {T : Target} {Kern : Kernel K} {SD : SectionData}.
Context {Laws : KernelLaws K} {TLaws : TPROLaws K} {ALaws : PointerAuthLaws T}.
Implicit Types σ : machine K.

(** What the first call does, when the kernel refuses it nothing. *)
Lemma rebind_first header replacee replacement σ σ' :
  let context := RebindImageContext header (RorkHookStripPointer replacee) replacement in
  is_u64 header -> image_layout context σ ->
  (forall s, s ∈ image_slots context σ -> refusal_is_safe (kern σ) (fst s)) ->
  header <> NULL -> replacee <> NULL -> replacement <> NULL ->
  RorkHookRebindSymbolInImage header replacee replacement σ = Ret tt σ' ->
  rebound context (image_ready context σ) (image_slots context σ) σ σ'.
Proof using Laws TLaws.
  intros context Hh Hl Hs N1 N2 N3 Hrun.
  pose proof (rebind_in_image header replacee replacement σ Hh Hl Hs) as Hwp.
  apply wp_inv in Hwp as ([] & σ1 & Hrun' & Hb). rewrite Hrun in Hrun'.
  injection Hrun' as <-. unfold NULL in *. by replace (_ || _) with false in Hb by lia.
Qed.

Lemma new_value_strips context (s : Z * bool) v :
  is_u64 (rebind_replacement context) -> matches context v = true ->
  RorkHookStripPointer (new_value context s v) =
  RorkHookStripPointer (rebind_replacement context).
Proof using Laws ALaws.
  intros Hr Hm. unfold new_value. rewrite Hm. by apply final_value_strips.
Qed.

Lemma matches_strip context v :
  matches context v = true -> v <> NULL /\ RorkHookStripPointer v = replaceeRaw context.
Proof. unfold matches. lia. Qed.

(** One slot, there and back. *)
Lemma undo_value context back (s : Z * bool) v :
  replaceeRaw context = RorkHookStripPointer (rebind_replacement back) ->
  replaceeRaw back = RorkHookStripPointer (rebind_replacement context) ->
  is_u64 (rebind_replacement context) -> is_u64 (rebind_replacement back) ->
  RorkHookStripPointer (rebind_replacement context) <> RorkHookStripPointer NULL ->
  RorkHookStripPointer v <> RorkHookStripPointer (rebind_replacement context) ->
  let v2 := new_value back s (new_value context s v) in
  RorkHookStripPointer v2 = RorkHookStripPointer v /\ (ptrauth_calls = false -> v2 = v).
Proof using Laws ALaws.
  intros Hc Hb U1 U2 Nz Hfresh. cbv zeta.
  destruct (matches context v) eqn:Hm.
  - pose proof (new_value_strips context s v U1 Hm) as Hs1.
    destruct (matches_strip _ _ Hm) as [_ Hv].
    assert (matches back (new_value context s v) = true) as Hm2.
    { unfold matches. rewrite Hs1, Hb, Z.eqb_refl, andb_true_r.
      destruct (Z.eqb_spec (new_value context s v) NULL) as [E|]; [|done].
      rewrite E in Hs1. congruence. }
    split; [rewrite new_value_strips by done; congruence|]. intros Hauth.
    unfold new_value at 1. rewrite Hm2. unfold final_value, RorkHookStripPointer in *.
    rewrite Hauth in *. rewrite u64_small by done. congruence.
  - assert (new_value context s v = v) as -> by (unfold new_value; by rewrite Hm).
    assert (matches back v = false) as Hm2.
    { unfold matches. rewrite Hb. apply andb_false_iff. right. by apply Z.eqb_neq. }
    unfold new_value. by rewrite Hm2.
Qed.

Lemma peek_u64_bytes σ σ' a x :
  peek_u64 σ' a = peek_u64 σ a -> a <= x < a + 8 -> peek σ' x = peek σ x.
Proof.
  intros Hv Hx. assert (peeks σ' a 8 = peeks σ a 8) as Hp.
  { rewrite <- (le_split_combine (peeks σ' a 8)), <- (le_split_combine (peeks σ a 8)).
    rewrite !length_peeks. by apply f_equal. }
  assert (Z.to_nat (x - a) < 8)%nat as Hi by lia.
  pose proof (peeks_lookup σ a 8 _ Hi) as H1. pose proof (peeks_lookup σ' a 8 _ Hi) as H2.
  rewrite Hp, H1 in H2. replace (a + Z.of_nat (Z.to_nat (x - a))) with x in H2 by lia.
  congruence.
Qed.

Lemma undo_bytes c c' ready ready' l σ σ1 σ2 :
  rebound c ready l σ σ1 -> rebound c' ready' l σ1 σ2 ->
  (forall s, s ∈ l -> peek_u64 σ2 (fst s) = peek_u64 σ (fst s)) -> same_bytes σ σ2.
Proof.
  intros Hb1 Hb2 Hs x.
  destruct (decide (Exists (fun s : Z * bool => fst s <= x < fst s + 8) l)) as [He|He].
  - apply Exists_exists in He as (s & Hin & Hx). by eapply peek_u64_bytes; [apply Hs|].
  - assert (~ covered l x) as Hx.
    { intros (s & Hin & Hx). apply He, Exists_exists. by exists s. }
    rewrite (rb_frame _ _ _ _ _ Hb2) by done. by apply (rb_frame _ _ _ _ _ Hb1).
Qed.

(** C19: rebinding is idempotent.  Where the kernel refused the first call nothing,
    a second call with the same arguments finds no slot to rewrite: it returns in the
    very state it started from, with no byte written and no protection changed. *)
Theorem RorkHookRebindSymbolInImage_idempotent header replacee replacement σ σ' :
  let context := RebindImageContext header (RorkHookStripPointer replacee) replacement in
  is_u64 header -> is_u64 replacement -> image_layout context σ ->
  (forall s, s ∈ image_slots context σ -> refusal_is_safe (kern σ) (fst s)) ->
  header <> NULL -> replacee <> NULL -> replacement <> NULL ->
  RorkHookStripPointer replacement <> RorkHookStripPointer replacee ->
  RorkHookRebindSymbolInImage header replacee replacement σ = Ret tt σ' ->
  ~ refused σ σ' -> ~ window_refused (kern σ) ->
  always (image_ready context σ) (kern σ) ->
  readable_length (kern σ') header = readable_length (kern σ) header ->
  RorkHookRebindSymbolInImage header replacee replacement σ' = Ret tt σ'.
Proof using Laws TLaws ALaws.
  intros context Hh Hr Hl Hs N1 N2 N3 Hne Hrun Hno Hw Hy Hlen.
  pose proof (rebind_first _ _ _ _ _ Hh Hl Hs N1 N2 N3 Hrun) as Hb. fold context in Hb.
  destruct (rb_complete _ _ _ _ _ Hb Hno Hw Hy) as [_ Hv].
  destruct (rebind_again header replacee replacement replacee replacement σ σ')
    as [Hwp _]; try done.
  apply wp_inv in Hwp as ([] & σ2 & -> & Hb2). f_equal.
  apply (rb_idle _ _ _ _ _ Hb2). intros s Hin. fold context. rewrite (Hv s Hin).
  destruct (matches context (peek_u64 σ (fst s))) eqn:Hm.
  - unfold matches. rewrite new_value_strips by done. cbn [context replaceeRaw].
    apply andb_false_iff. right. by apply Z.eqb_neq.
  - assert (new_value context s (peek_u64 σ (fst s)) = peek_u64 σ (fst s)) as ->
      by (unfold new_value; by rewrite Hm). exact Hm.
Qed.

(** C7: a rebind is undone by the reverse rebind.  In an image none of whose slots
    resolved to the replacement before, rebinding the replacee to the replacement and
    then the replacement to the replacee leaves every slot resolving to what it
    resolved to, with every protection as it was; on a target without pointer
    authentication memory is byte for byte what it was. *)
Theorem RorkHookRebindSymbolInImage_undo header replacee replacement σ σ1 σ2 :
  let context := RebindImageContext header (RorkHookStripPointer replacee) replacement in
  is_u64 header -> is_u64 replacee -> is_u64 replacement -> image_layout context σ ->
  (forall s, s ∈ image_slots context σ -> refusal_is_safe (kern σ) (fst s)) ->
  header <> NULL -> replacee <> NULL -> replacement <> NULL ->
  RorkHookStripPointer replacement <> RorkHookStripPointer NULL ->
  (forall s, s ∈ image_slots context σ ->
     RorkHookStripPointer (peek_u64 σ (fst s)) <> RorkHookStripPointer replacement) ->
  RorkHookRebindSymbolInImage header replacee replacement σ = Ret tt σ1 ->
  RorkHookRebindSymbolInImage header replacement replacee σ1 = Ret tt σ2 ->
  ~ refused σ σ2 -> ~ window_refused (kern σ) ->
  always (image_ready context σ) (kern σ) ->
  readable_length (kern σ1) header = readable_length (kern σ) header ->
  same_prot (kern σ) (kern σ2) /\
  (forall s, s ∈ image_slots context σ ->
     RorkHookStripPointer (peek_u64 σ2 (fst s)) = RorkHookStripPointer (peek_u64 σ (fst s))) /\
  (ptrauth_calls = false -> same_bytes σ σ2).
Proof using Laws TLaws ALaws.
  intros context Hh Hre Hr Hl Hs N1 N2 N3 Nz Hfresh Hrun1 Hrun2 Hno Hw Hy Hlen.
  pose proof (rebind_first _ _ _ _ _ Hh Hl Hs N1 N2 N3 Hrun1) as Hb1. fold context in Hb1.
  destruct (rebind_again header replacee replacement replacement replacee σ σ1)
    as [Hwp Hready]; try done. fold context in Hwp, Hready.
  apply wp_inv in Hwp as ([] & σ2' & Hrun2' & Hb2). rewrite Hrun2 in Hrun2'.
  injection Hrun2' as <-. set (back := RebindImageContext header _ replacee) in *.
  destruct (rb_log _ _ _ _ _ Hb1) as [new1 L1]. destruct (rb_log _ _ _ _ _ Hb2) as [new2 L2].
  destruct (rb_complete _ _ _ _ _ Hb1) as [P1 V1]; [|done..|].
  { intros Hr1. by eapply Hno, refused_later. }
  destruct (rb_complete _ _ _ _ _ Hb2) as [P2 V2].
  { intros Hr2. by eapply Hno, refused_earlier. }
  { intros Hw2. eapply Hw, window_refused_stable; [apply Hb1..|done]. }
  { intros k Hk Hk'. apply Hready. revert k Hk Hk'.
    eapply always_stable; [apply (rb_process _ _ _ _ _ Hb1)|done|done]. }
  pose proof (undo_value context back) as Hundo.
  split; [intros a; by rewrite P2, P1|]. split.
  - intros s Hin. rewrite (V2 s Hin), (V1 s Hin). apply Hundo; try done. by apply Hfresh.
  - intros Hauth. eapply undo_bytes; [exact Hb1|exact Hb2|]. intros s Hin.
    rewrite (V2 s Hin), (V1 s Hin). apply Hundo; try done. by apply Hfresh.
Qed.
End Properties.

(** ** Witnesses *)

(** The image of [got_machine], rebound once, and rebound back. *)
Definition got_rebound : machine sim := final got_machine rebind_got.
Definition got_undone : machine sim :=
  final got_rebound (RorkHookRebindSymbolInImage (T := device) (SD := got_sections)
    0x4000 0x50000 0x20000 got_rebound).

Lemma got_window : ~ window_refused (T := device) (kern got_machine).
Proof. intros [Hu _]. by vm_compute in Hu. Qed.

Lemma RorkHookRebindSymbolInImage_idempotent_witness :
  RorkHookRebindSymbolInImage (T := device) (SD := got_sections) 0x4000 0x20000 0x50000
    got_rebound = Ret tt got_rebound.
Proof.
  apply (RorkHookRebindSymbolInImage_idempotent (T := device) (SD := got_sections)
    0x4000 0x20000 0x50000 got_machine got_rebound).
  - done.
  - done.
  - apply got_layout.
  - apply got_safe.
  - done.
  - done.
  - done.
  - by vm_compute.
  - by vm_compute.
  - apply got_not_refused.
  - apply got_window.
  - apply got_ready.
  - by vm_compute.
Defined.

Lemma RorkHookRebindSymbolInImage_undo_witness :
  got_slots_after = [0x50000 + 2 ^ 48 * (1 + 0xc000 mod 2 ^ 15); 0; 0x30000] /\
  same_prot (kern got_machine) (kern got_undone) /\
  (forall s, s ∈ image_slots (SD := got_sections) got_context got_machine ->
     RorkHookStripPointer (T := device) (peek_u64 got_undone (fst s)) =
     RorkHookStripPointer (T := device) (peek_u64 got_machine (fst s))) /\
  (ptrauth_calls (Target := device) = false -> same_bytes got_machine got_undone).
Proof.
  split; [by vm_compute|].
  apply (RorkHookRebindSymbolInImage_undo (T := device) (SD := got_sections)
    0x4000 0x20000 0x50000 got_machine got_rebound got_undone).
  - done.
  - done.
  - done.
  - apply got_layout.
  - apply got_safe.
  - done.
  - done.
  - done.
  - by vm_compute.
  - intros s Hs. change (s ∈ image_slots (SD := got_sections) got_context got_machine) in Hs.
    rewrite got_image_slots, !elem_of_cons, elem_of_nil in Hs.
    destruct Hs as [->|[->|[->|[]]]]; by vm_compute.
  - by vm_compute.
  - by vm_compute.
  - apply accepted_not_refused; by vm_compute.
  - apply got_window.
  - apply got_ready.
  - by vm_compute.
Defined.
