(* ===== verification/Registry.v ===== *)
(** The process-wide rebind registry: the second half of RorkHookRebind.c.

    [RorkHookRebindSymbolGlobally] runs concurrently with itself and with dyld,
    which calls [RorkHookHandleImageAdded] for the images it maps.  Each C
    function here is a program counter per point at which another thread may
    interleave, and [thread_step] is the code between two such points. *)
From stdpp Require Import relations.
From S2P Require Import Prelude Machine Logic Sim CString Regions LoadCommands Memory Rebind.

(** ** Applying one rebind *)

(** An entry; [filter] and [next] are addresses, [NULL] when absent. *)
Record RorkHookGlobalRebind := GlobalRebind {
  sourceHeader : Z;
  replacee : Z;
  replacement : Z;
  filter : Z;
  next : Z
}.

(** Calling the filter a client registered: code of the client. *)
Class Filters (K : Type) := {
  call_filter : Z -> Z -> M K bool
}.

Section Apply.
Context {K : Type} {T : Target} {Kern : Kernel K} {SD : SectionData} {F : Filters K}.

Definition RorkHookApplyRebind (rebind : option RorkHookGlobalRebind) (header : Z) : M K unit :=
  match rebind with
  | None => ret tt
  | Some rebind =>
  if header =? NULL then ret tt else
  if header =? sourceHeader rebind then ret tt else
  let* rejected :=
    ret (negb (filter rebind =? NULL)) <&&>
    (let* accepted := call_filter (filter rebind) header in ret (negb accepted)) in
  if rejected then ret tt else
  RorkHookRebindSymbolInImage header (replacee rebind) (replacement rebind)
  end.
End Apply.

(** ** The process *)

(** [gAddImageCallbackOnce]: the block has not run, is running, or has run. *)
Inductive once := OnceFresh | OnceRunning | OnceDone.

(** Where a thread is.  [Load], [Link] and [Cas] are the publication loop, [Once]
    the [dispatch_once], [Registering] dyld's visit of the images already loaded
    when the callback is registered, [Count] and [Enumerate] the explicit
    enumeration; [CallbackLoad] and [CallbackWalk] are
    [RorkHookHandleImageAdded], which returns to the code in [after]. *)
Inductive pc :=
| Load (entry : Z)
| Link (entry head : Z)
| Cas (entry head : Z)
| Once (entry : Z)
| Registering (entry : Z) (todo : list Z)
| Count (entry : Z)
| Enumerate (entry index imageCount : Z)
| CallbackLoad (header : Z) (after : pc)
| CallbackWalk (header rebind : Z) (after : pc)
| Returned (entry : option Z)      (* the call returned; [Some] is [true] *)
| Finished.

Record process := Process {
  rebinds : gmap Z RorkHookGlobalRebind;   (* the entries malloc'd so far *)
  gRebinds : Z;
  gAddImageCallbackOnce : once;
  registrations : nat;                     (* of the callback with dyld *)
  images : list Z;                         (* dyld's list, by index *)
  applied : list (Z * Z);                  (* calls of RorkHookApplyRebind *)
  threads : list pc
}.

Definition process_init (loaded : list Z) : process :=
  Process ∅ NULL OnceFresh 0 loaded [] [].

(** Single-field updates. *)
Definition set_rebinds f p := Process (f (rebinds p)) (gRebinds p) (gAddImageCallbackOnce p)
  (registrations p) (images p) (applied p) (threads p).
Definition set_head h p := Process (rebinds p) h (gAddImageCallbackOnce p)
  (registrations p) (images p) (applied p) (threads p).
Definition set_once o n p := Process (rebinds p) (gRebinds p) o
  n (images p) (applied p) (threads p).
Definition set_images l p := Process (rebinds p) (gRebinds p) (gAddImageCallbackOnce p)
  (registrations p) l (applied p) (threads p).
Definition add_applied c p := Process (rebinds p) (gRebinds p) (gAddImageCallbackOnce p)
  (registrations p) (images p) (c :: applied p) (threads p).
Definition set_threads f p := Process (rebinds p) (gRebinds p) (gAddImageCallbackOnce p)
  (registrations p) (images p) (applied p) (f (threads p)).

(** [entry->next = head]. *)
Definition with_next (head : Z) (x : RorkHookGlobalRebind) : RorkHookGlobalRebind :=
  GlobalRebind (sourceHeader x) (replacee x) (replacement x) (filter x) head.

(** [_dyld_image_count] and [_dyld_get_image_header]. *)
Definition dyld_image_count (p : process) : Z := u32 (Z.of_nat (length (images p))).
Definition dyld_get_image_header (p : process) (index : Z) : Z :=
  default NULL (images p !! Z.to_nat index).

(** ** The code *)

(** The callback's entry point: a thread that enters it goes on at [after]. *)
Definition RorkHookHandleImageAdded (header : Z) (after : pc) : pc := CallbackLoad header after.

(** One iteration of [RorkHookHandleImageAdded]'s loop. *)
Definition callback_step (p : process) (header rebind : Z) (after : pc) : option (process * pc) :=
  if rebind =? NULL then Some (p, after) else
  match rebinds p !! rebind with
  | Some entry =>
      Some (add_applied (rebind, header) p, CallbackWalk header (next entry) after)
  | None => None
  end.

(** The publication loop; a weak exchange may fail [spuriously]. *)
Definition publish_step (p : process) (entry head : Z) (spuriously : bool) : process * pc :=
  if (gRebinds p =? head) && negb spuriously
  then (set_head entry p, Once entry)
  else (p, Link entry (gRebinds p)).

(** One iteration of the enumeration. *)
Definition enumerate_step (p : process) (entry index imageCount : Z) : process * pc :=
  if negb (index <? imageCount) then (p, Returned (Some entry)) else
  let header := dyld_get_image_header p index in
  (if negb (header =? NULL) then add_applied (entry, header) p else p,
   Enumerate entry (u32 (index + 1)) imageCount).

(** [None]: the thread waits, or has nothing left to do. *)
Definition thread_step (p : process) (spuriously : bool) (at_pc : pc) : option (process * pc) :=
  match at_pc with
  | Load entry => Some (p, Link entry (gRebinds p))
  | Link entry head => Some (set_rebinds (alter (with_next head) entry) p, Cas entry head)
  | Cas entry head => Some (publish_step p entry head spuriously)
  | Once entry =>
      match gAddImageCallbackOnce p with
      | OnceFresh => Some (set_once OnceRunning (S (registrations p)) p,
                           Registering entry (images p))
      | OnceRunning => None
      | OnceDone => Some (p, Count entry)
      end
  | Registering entry [] => Some (set_once OnceDone (registrations p) p, Count entry)
  | Registering entry (header :: todo) =>
      Some (p, RorkHookHandleImageAdded header (Registering entry todo))
  | Count entry => Some (p, Enumerate entry 0 (dyld_image_count p))
  | Enumerate entry index imageCount => Some (enumerate_step p entry index imageCount)
  | CallbackLoad header after => Some (p, CallbackWalk header (gRebinds p) after)
  | CallbackWalk header rebind after => callback_step p header rebind after
  | Returned _ | Finished => None
  end.

(** [dladdr]: its result, and [dli_fbase]. *)
Class Loader := {
  dladdr : Z -> Z * Z
}.

Section Code.
Context {T : Target} {L : Loader}.

(** [RorkHookRebindSymbolGlobally] up to the first access to shared state;
    [allocated] is what [malloc] returns. *)
Definition RorkHookRebindSymbolGlobally (p : process) (replacee replacement filter allocated : Z)
    : process * pc :=
  if (replacee =? NULL) || (replacement =? NULL) then (p, Returned None) else
  let replacementRaw := RorkHookStripPointer replacement in
  let '(result, dli_fbase) := dladdr replacementRaw in
  if (result =? 0) || (dli_fbase =? NULL) then (p, Returned None) else
  let sourceHeader := dli_fbase in
  if allocated =? NULL then (p, Returned None) else
  (set_rebinds <[allocated := GlobalRebind sourceHeader replacee replacement filter NULL]> p,
   Load allocated).

(** dyld maps an image, and calls the callback for it when there is one. *)
Definition dyld_load (header : Z) (p : process) : process :=
  let p := set_images (images p ++ [header]) p in
  if (registrations p =? 0)%nat then p
  else set_threads (fun l => l ++ [RorkHookHandleImageAdded header Finished]) p.

Definition dyld_unload (header : Z) (p : process) : process :=
  set_images (base.filter (fun h => h <> header) (images p)) p.

(** The steps of the process: a thread goes on, a client makes a call, dyld maps
    an image. *)
Inductive step : process -> process -> Prop :=
| step_thread p t at_pc spuriously p' at_pc' :
    threads p !! t = Some at_pc ->
    thread_step p spuriously at_pc = Some (p', at_pc') ->
    step p (set_threads <[t := at_pc']> p')
| step_call p replacee replacement filter allocated p' at_pc :
    allocated = NULL \/ rebinds p !! allocated = None ->
    RorkHookRebindSymbolGlobally p replacee replacement filter allocated = (p', at_pc) ->
    step p (set_threads (fun l => l ++ [at_pc]) p')
| step_load p header :
    header <> NULL -> Z.of_nat (length (images p)) < UINT32_MAX ->
    step p (dyld_load header p).

(** The same where the image [gone] may also be unloaded. *)
Inductive step_unloading (gone : Z) : process -> process -> Prop :=
| step_other p p' : step p p' -> step_unloading gone p p'
| step_unload p : step_unloading gone p (dyld_unload gone p).
End Code.

(** ** The list of published entries *)

(** [l] is the list that starts at the address [r]. *)
Fixpoint linked (m : gmap Z RorkHookGlobalRebind) (r : Z) (l : list Z) : Prop :=
  match l with
  | [] => r = NULL
  | a :: l => r = a /\ a <> NULL /\ exists x, m !! a = Some x /\ linked m (next x) l
  end.

Definition published (p : process) (entry : Z) : Prop :=
  exists l, linked (rebinds p) (gRebinds p) l /\ entry ∈ l.

(** Every call has returned and no callback is running. *)
Definition at_rest (q : pc) : bool :=
  match q with Returned _ | Finished => true | _ => false end.
Definition quiescent (p : process) : Prop := Forall (fun q => at_rest q = true) (threads p).

Lemma linked_unique m r l l' : linked m r l -> linked m r l' -> l = l'.
Proof.
  revert r l'. induction l as [|a l IH]; intros r [|b l']; cbn; [done| | |].
  - intros -> (<- & ? & _). done.
  - intros (-> & ? & _) ?. done.
  - intros (<- & _ & x & Hx & Hl) (-> & _ & y & Hy & Hl'). simplify_eq. f_equal. by eapply IH.
Qed.

Lemma linked_frame m m' r l :
  (forall b, b ∈ l -> m' !! b = m !! b) -> linked m r l -> linked m' r l.
Proof.
  revert r. induction l as [|a l IH]; intros r Hm; cbn; [done|].
  intros (-> & Ha & x & Hx & Hl). split_and!; [done|done|]. exists x.
  split; [rewrite Hm; [done|apply list_elem_of_here]|]. apply IH; [|done].
  intros b Hb. apply Hm. by apply list_elem_of_further.
Qed.

Lemma linked_dom m r l b : linked m r l -> b ∈ l -> b <> NULL /\ is_Some (m !! b).
Proof.
  revert r. induction l as [|a l IH]; intros r; cbn.
  - intros _ Hb. by apply not_elem_of_nil in Hb.
  - intros (_ & Ha & x & Hx & Hl) [->|Hb]%elem_of_cons; [by eauto|by eapply IH].
Qed.

(** ** The invariant *)

(** The entry a thread has allocated and not yet published. *)
Fixpoint private (q : pc) : option Z :=
  match q with
  | Load e | Link e _ | Cas e _ => Some e
  | CallbackLoad _ after | CallbackWalk _ _ after => private after
  | _ => None
  end.

(** The thread is inside the [dispatch_once] block. *)
Fixpoint registering (q : pc) : bool :=
  match q with
  | Registering _ _ => true
  | CallbackLoad _ after | CallbackWalk _ _ after => registering after
  | _ => false
  end.

(** What a thread may rely on, given the published entries [pub]. *)
Fixpoint valid (m : gmap Z RorkHookGlobalRebind) (loaded pub : list Z) (q : pc) : Prop :=
  match q with
  | Load e | Link e _ => (e ∉ pub) /\ e <> NULL /\ is_Some (m !! e)
  | Cas e head => (e ∉ pub) /\ e <> NULL /\ exists x, m !! e = Some x /\ next x = head
  | Once e | Registering e _ | Count e | Returned (Some e) => e ∈ pub
  | Enumerate e i n => e ∈ pub /\ 0 <= i /\ n <= Z.of_nat (length loaded)
  | CallbackLoad _ after => valid m loaded pub after
  | CallbackWalk _ r after =>
      (exists l, linked m r l /\ l ⊆ pub) /\ valid m loaded pub after
  | Returned None | Finished => True
  end.

(** The thread will still apply [e] to the loaded image [h]. *)
Fixpoint owes (m : gmap Z RorkHookGlobalRebind) (loaded pub : list Z) (q : pc) (e h : Z) : Prop :=
  match q with
  | Once e' | Count e' => e = e'
  | Registering e' todo => e = e' \/ h ∈ todo
  | Enumerate e' i n => e = e' /\ exists j, i <= Z.of_nat j < n /\ loaded !! j = Some h
  | CallbackLoad h' after => h = h' \/ owes m loaded pub after e h
  | CallbackWalk h' r after =>
      (h = h' /\ exists l, linked m r l /\ l ⊆ pub /\ e ∈ l) \/ owes m loaded pub after e h
  | _ => False
  end.

Definition once_ok (p : process) (pub : list Z) : Prop :=
  match gAddImageCallbackOnce p with
  | OnceFresh => registrations p = 0%nat /\
      forall e, e ∈ pub -> exists t, threads p !! t = Some (Once e)
  | OnceRunning => registrations p = 1%nat /\
      exists t q, threads p !! t = Some q /\ registering q = true
  | OnceDone => registrations p = 1%nat
  end.

Definition covered_by (p : process) (pub : list Z) (e h : Z) : Prop :=
  (e, h) ∈ applied p \/
  exists t q, threads p !! t = Some q /\ owes (rebinds p) (images p) pub q e h.

Record inv (p : process) (pub : list Z) : Prop := {
  inv_linked : linked (rebinds p) (gRebinds p) pub;
  inv_valid t q : threads p !! t = Some q -> valid (rebinds p) (images p) pub q;
  inv_private t t' q q' e : threads p !! t = Some q -> threads p !! t' = Some q' ->
    private q = Some e -> private q' = Some e -> t = t';
  inv_once : once_ok p pub;
  inv_registering t t' q q' : threads p !! t = Some q -> threads p !! t' = Some q' ->
    registering q = true -> registering q' = true ->
    t = t' /\ gAddImageCallbackOnce p = OnceRunning;
  inv_images : (NULL ∉ images p) /\ Z.of_nat (length (images p)) <= UINT32_MAX;
  inv_covered e h : e ∈ pub -> h ∈ images p -> covered_by p pub e h
}.

Lemma valid_private m loaded pub q e :
  valid m loaded pub q -> private q = Some e -> (e ∉ pub) /\ e <> NULL /\ is_Some (m !! e).
Proof.
  induction q; cbn; try done.
  - by intros ? [= <-].
  - by intros ? [= <-].
  - intros (? & ? & x & ? & _) [= <-]. eauto.
  - intros [_ Hv]. by apply IHq.
Qed.

(** What a thread relies on survives when the published entries stay as they
    are and its private entry is left alone. *)
Lemma valid_mono m m1 loaded loaded1 pub pub1 q :
  (forall b, b ∈ pub -> m1 !! b = m !! b) -> pub ⊆ pub1 -> loaded `prefix_of` loaded1 ->
  (forall e, private q = Some e -> (e ∉ pub1) /\ m1 !! e = m !! e) ->
  valid m loaded pub q -> valid m1 loaded1 pub1 q.
Proof.
  intros Hm Hsub Hpre. induction q as [e|e hd|e hd|e|e todo|e|e i n|h after IH|h r after IH|[e|]|];
    cbn; intros Hpriv; auto.
  1-3: by destruct (Hpriv e eq_refl) as [Hn ->]; intros (_ & ? & ?).
  - apply prefix_length in Hpre. intros (? & ? & ?). split_and!; [by apply Hsub|done|lia].
  - intros [(l & Hl & Hs) Hv]. split; [|by apply IH]. exists l. split; [|by etrans].
    eapply linked_frame; [|exact Hl]. intros b Hb. apply Hm, Hs, Hb.
Qed.

Lemma owes_mono m m1 loaded loaded1 pub pub1 q e h :
  (forall b, b ∈ pub -> m1 !! b = m !! b) -> pub ⊆ pub1 -> loaded `prefix_of` loaded1 ->
  owes m loaded pub q e h -> owes m1 loaded1 pub1 q e h.
Proof.
  intros Hm Hsub Hpre. induction q; cbn; auto.
  - intros (-> & j & Hj & Hh). split; [done|]. exists j. split; [done|].
    by eapply prefix_lookup_Some.
  - intros [?|?]; [by left|right; auto].
  - intros [(-> & l & Hl & Hs & He)|?]; [left; split; [done|]|right; auto].
    exists l. split_and!; [|by etrans|done].
    eapply linked_frame; [|exact Hl]. intros b Hb. apply Hm, Hs, Hb.
Qed.

(** ** Preservation *)

Lemma lookup_set_thread p t q t' q' :
  threads (set_threads <[t := q]> p) !! t' = Some q' ->
  (t' = t /\ q' = q) \/ (t' <> t /\ threads p !! t' = Some q').
Proof.
  cbn. intros H. apply list_lookup_insert_Some in H as [(<- & <- & _)|[? ?]]; [by left|by right].
Qed.

(** One thread goes from [q] to [q'] and the process from [p] to [p1]. *)
Section ThreadStep.
Context (p p1 : process) (pub pub1 : list Z) (t : nat) (q q' : pc).
Context (Hinv : inv p pub) (Ht : threads p !! t = Some q).
Context (Hthreads : threads p1 = threads p) (Himages : images p1 = images p).
Local Abbreviation p' := (set_threads <[t := q']> p1).

Lemma thread_at : threads p' !! t = Some q'.
Proof using Ht Hthreads.
  cbn. rewrite Hthreads. apply list_lookup_insert_eq. by eapply lookup_lt_Some.
Qed.

Lemma thread_other t' r : t' <> t -> threads p !! t' = Some r -> threads p' !! t' = Some r.
Proof using Hthreads. intros. cbn. by rewrite Hthreads, list_lookup_insert_ne. Qed.

Lemma once_same :
  (forall e, q <> Once e) -> (registering q = true -> registering q' = true) ->
  gAddImageCallbackOnce p1 = gAddImageCallbackOnce p -> registrations p1 = registrations p ->
  (forall e, e ∈ pub1 -> e ∈ pub \/ q' = Once e) ->
  once_ok p' pub1.
Proof using Hinv Ht Hthreads.
  intros Hq Hreg Ho Hr Hpub. pose proof (inv_once _ _ Hinv) as Hok. unfold once_ok in *.
  cbn [gAddImageCallbackOnce registrations set_threads]. rewrite Ho, Hr.
  destruct (gAddImageCallbackOnce p); [|destruct Hok as [? (t' & r & Hr' & Hreg')]|done].
  - destruct Hok as [? Hok]. split; [done|]. intros e [He|Hq']%Hpub.
    + destruct (Hok e He) as [t' Ht']. exists t'. apply thread_other; [|done].
      intros ->. rewrite Ht in Ht'. injection Ht' as E. by eapply Hq.
    + exists t. rewrite <- Hq'. apply thread_at.
  - split; [done|]. destruct (decide (t' = t)) as [->|Hne].
    + exists t, q'. split; [apply thread_at|]. apply Hreg. congruence.
    + exists t', r. split; [by apply thread_other|done].
Qed.

Context (Hlinked : linked (rebinds p1) (gRebinds p1) pub1) (Hpub : pub ⊆ pub1).
Context (Hkept : forall b, b ∈ pub -> rebinds p1 !! b = rebinds p !! b).
Context (Hothers : forall t' r e, t' <> t -> threads p !! t' = Some r -> private r = Some e ->
  (e ∉ pub1) /\ rebinds p1 !! e = rebinds p !! e).
Context (Hvalid : valid (rebinds p1) (images p) pub1 q').
Context (Hprivate : forall e, private q' = Some e -> private q = Some e).
Context (Honce : once_ok p' pub1).
(** The thread is in the block only if it was, or has just entered it; and the
    state of the block changes only when it enters or leaves. *)
Context (Hinside : registering q' = true -> gAddImageCallbackOnce p1 = OnceRunning /\
  (registering q = true \/ gAddImageCallbackOnce p = OnceFresh)).
Context (Hblock : gAddImageCallbackOnce p1 = gAddImageCallbackOnce p \/
  registering q = true \/ gAddImageCallbackOnce p = OnceFresh).
Context (Happlied : forall c, c ∈ applied p -> c ∈ applied p1).
Context (Howes : forall e h, e ∈ pub1 -> h ∈ images p ->
  (e ∈ pub /\ (owes (rebinds p) (images p) pub q e h ->
     (e, h) ∈ applied p1 \/ owes (rebinds p1) (images p) pub1 q' e h)) \/
  owes (rebinds p1) (images p) pub1 q' e h).

Lemma inside_other t' r :
  t' <> t -> threads p !! t' = Some r -> registering r = true ->
  registering q' = false /\ gAddImageCallbackOnce p1 = OnceRunning.
Proof using Hinv Ht Hinside Hblock.
  intros Hne Hr Hreg.
  assert (registering q = false) as Hq.
  { destruct (registering q) eqn:E; [|done].
    by destruct (inv_registering _ _ Hinv t' t r q Hr Ht Hreg E). }
  destruct (inv_registering _ _ Hinv t' t' r r Hr Hr Hreg Hreg) as [_ Ho]. split.
  - destruct (registering q'); [|done].
    by destruct (Hinside eq_refl) as [_ [|]]; congruence.
  - destruct Hblock as [->|[|]]; congruence.
Qed.

Lemma inv_thread : inv p' pub1.
Proof using All.
  pose proof thread_at as Hat. split; cbn [rebinds gRebinds images applied set_threads].
  - done.
  - rewrite Himages. intros t' r [[-> ->]|[Hne Hr]]%lookup_set_thread; [done|].
    rewrite Hthreads in Hr. eapply valid_mono; [exact Hkept|done|done| |by eapply inv_valid].
    intros e He. by eapply Hothers.
  - intros t1 t2 q1 q2 e H1 H2 P1 P2.
    apply lookup_set_thread in H1 as [[-> ->]|[N1 H1]], H2 as [[-> ->]|[N2 H2]];
      rewrite ?Hthreads in *; [done|..].
    + symmetry. eapply (inv_private _ _ Hinv t2 t); eauto.
    + eapply (inv_private _ _ Hinv t1 t); eauto.
    + eapply (inv_private _ _ Hinv t1 t2); eauto.
  - done.
  - intros t1 t2 q1 q2 H1 H2 R1 R2. cbn [gAddImageCallbackOnce set_threads].
    apply lookup_set_thread in H1 as [[-> ->]|[N1 H1]], H2 as [[-> ->]|[N2 H2]];
      rewrite ?Hthreads in *.
    + split; [done|by apply Hinside].
    + destruct (inside_other t2 q2 N2 H2 R2). congruence.
    + destruct (inside_other t1 q1 N1 H1 R1). congruence.
    + destruct (inside_other t1 q1 N1 H1 R1). split; [|done].
      by eapply (inv_registering _ _ Hinv t1 t2).
  - rewrite Himages. apply Hinv.
  - rewrite Himages. intros e h He Hh. unfold covered_by. cbn [applied rebinds images set_threads].
    rewrite Himages. destruct (Howes e h He Hh) as [[Hpe Ho]|Ho].
    2:{ right. exists t, q'. by split. }
    destruct (inv_covered _ _ Hinv e h Hpe Hh) as [Ha|(t' & r & Hr & Hor)]; [by left; apply Happlied|].
    destruct (decide (t' = t)) as [->|Hne].
    + rewrite Ht in Hr. injection Hr as E. rewrite <- E in Hor. destruct (Ho Hor); [by left|].
      right. exists t, q'. by split.
    + right. exists t', r. split; [by apply thread_other|].
      by eapply owes_mono.
Qed.
End ThreadStep.

(** A step that leaves the entries and the head alone. *)
Lemma inv_quiet p p1 pub t q q' :
  inv p pub -> threads p !! t = Some q ->
  threads p1 = threads p -> images p1 = images p ->
  rebinds p1 = rebinds p -> gRebinds p1 = gRebinds p ->
  valid (rebinds p) (images p) pub q' -> (forall e, private q' = Some e -> private q = Some e) ->
  once_ok (set_threads <[t := q']> p1) pub ->
  (registering q' = true -> gAddImageCallbackOnce p1 = OnceRunning /\
     (registering q = true \/ gAddImageCallbackOnce p = OnceFresh)) ->
  (gAddImageCallbackOnce p1 = gAddImageCallbackOnce p \/
     registering q = true \/ gAddImageCallbackOnce p = OnceFresh) ->
  (forall c, c ∈ applied p -> c ∈ applied p1) ->
  (forall e h, e ∈ pub -> h ∈ images p -> owes (rebinds p) (images p) pub q e h ->
     (e, h) ∈ applied p1 \/ owes (rebinds p) (images p) pub q' e h) ->
  inv (set_threads <[t := q']> p1) pub.
Proof.
  intros Hinv Ht Hth Him Hm Hg Hv Hp Ho Hr1 Hr2 Ha Hw.
  apply (inv_thread p p1 pub pub t q q'); rewrite ?Hm, ?Hg; try done.
  - apply Hinv.
  - intros t' r e _ Hr He. by destruct (valid_private _ _ _ _ _ (inv_valid _ _ Hinv _ _ Hr) He).
  - intros e h He Hh. left. split; [done|]. by apply Hw.
Qed.

Section Steps.
Context (p : process) (pub : list Z) (t : nat).
Context (Hinv : inv p pub).

(** The entries already published are as they were. *)
Definition kept (p p' : process) (pub pub' : list Z) : Prop :=
  pub `suffix_of` pub' /\ forall e, e ∈ pub -> rebinds p' !! e = rebinds p !! e.

Lemma private_apart t' q r e e' :
  threads p !! t = Some q -> private q = Some e -> t' <> t ->
  threads p !! t' = Some r -> private r = Some e' -> e' <> e.
Proof using Hinv.
  intros Hq He Hne Hr Hr' ->. apply Hne. by eapply (inv_private _ _ Hinv t' t).
Qed.

Lemma link_inv e head :
  threads p !! t = Some (Link e head) ->
  let p1 := set_rebinds (alter (with_next head) e) p in
  inv (set_threads <[t := Cas e head]> p1) pub /\ kept p p1 pub pub.
Proof using Hinv.
  intros Ht p1. destruct (inv_valid _ _ Hinv _ _ Ht) as (Hn & Hnull & x & Hx).
  assert (forall b, b <> e -> rebinds p1 !! b = rebinds p !! b) as Hsame.
  { intros b Hb. cbn. by rewrite lookup_alter_ne. }
  assert (forall b, b ∈ pub -> rebinds p1 !! b = rebinds p !! b) as Hkept.
  { intros b Hb. apply Hsame. by intros ->. }
  split; [|by split].
  eapply (inv_thread p p1 pub pub t (Link e head)); try done.
  - eapply linked_frame; [exact Hkept|apply Hinv].
  - intros t' r e' Hne Hr He'. split.
    + by destruct (valid_private _ _ _ _ _ (inv_valid _ _ Hinv _ _ Hr) He').
    + apply Hsame. by eapply private_apart.
  - split_and!; [done|done|]. exists (with_next head x). split; [|done].
    cbn. by rewrite lookup_alter_eq, Hx.
  - eapply (once_same p p1 pub); try done. auto.
  - by left.
  - intros e' h He' _. left. split; [done|]. by intros [].
Qed.

Lemma publish_inv e head :
  threads p !! t = Some (Cas e head) -> gRebinds p = head ->
  let p1 := set_head e p in
  inv (set_threads <[t := Once e]> p1) (e :: pub) /\ kept p p1 pub (e :: pub).
Proof using Hinv.
  intros Ht Hhead p1. destruct (inv_valid _ _ Hinv _ _ Ht) as (Hn & Hnull & x & Hx & Hnext).
  split; [|by split; [apply suffix_cons_r|]].
  eapply (inv_thread p p1 pub (e :: pub) t (Cas e head)); try done.
  - cbn. split_and!; [done|done|]. exists x. split; [done|]. rewrite Hnext, <- Hhead. apply Hinv.
  - intros b Hb. by apply list_elem_of_further.
  - intros t' r e' Hne Hr He'. split; [|done]. rewrite not_elem_of_cons. split.
    + by eapply (private_apart t' (Cas e head)).
    + by destruct (valid_private _ _ _ _ _ (inv_valid _ _ Hinv _ _ Hr) He').
  - apply list_elem_of_here.
  - eapply (once_same p p1 pub); try done.
    intros e' [->|]%elem_of_cons; [by right|by left].
  - by left.
  - intros e' h [->|He']%elem_of_cons _; [by right|].
    left. split; [done|]. by intros [].
Qed.

Lemma inside_here t' q : threads p !! t' = Some q -> registering q = true ->
  gAddImageCallbackOnce p = OnceRunning.
Proof using Hinv. intros Hq Hr. by destruct (inv_registering _ _ Hinv t' t' q q Hq Hq Hr Hr). Qed.

(** A step that only moves the thread, and may apply. *)
Lemma move_inv p1 q q' :
  threads p !! t = Some q -> threads p1 = threads p -> images p1 = images p ->
  rebinds p1 = rebinds p -> gRebinds p1 = gRebinds p ->
  gAddImageCallbackOnce p1 = gAddImageCallbackOnce p -> registrations p1 = registrations p ->
  (forall e, q <> Once e) -> registering q' = registering q ->
  valid (rebinds p) (images p) pub q' -> (forall e, private q' = Some e -> private q = Some e) ->
  (forall c, c ∈ applied p -> c ∈ applied p1) ->
  (forall e h, e ∈ pub -> h ∈ images p -> owes (rebinds p) (images p) pub q e h ->
     (e, h) ∈ applied p1 \/ owes (rebinds p) (images p) pub q' e h) ->
  inv (set_threads <[t := q']> p1) pub /\ kept p p1 pub pub.
Proof using Hinv.
  intros Ht Hth Him Hm Hg Ho Hr Hq Hreg Hv Hp Ha Hw. split; [|split; [done|congruence]].
  eapply (inv_quiet p p1 pub t q q'); try done.
  - eapply (once_same p p1 pub); try done; [congruence|auto].
  - rewrite Hreg, Ho. intros Hin. split; [by eapply inside_here|by left].
  - by left.
Qed.

(** The steps of [dispatch_once]. *)
Lemma enter_inv e :
  threads p !! t = Some (Once e) -> gAddImageCallbackOnce p = OnceFresh ->
  let p1 := set_once OnceRunning (S (registrations p)) p in
  inv (set_threads <[t := Registering e (images p)]> p1) pub /\ kept p p1 pub pub.
Proof using Hinv.
  intros Ht Ho p1. split; [|done]. pose proof (inv_valid _ _ Hinv _ _ Ht) as Hv.
  pose proof (inv_once _ _ Hinv) as Hok. unfold once_ok in Hok. rewrite Ho in Hok.
  eapply (inv_quiet p p1 pub t (Once e)); try done.
  - unfold once_ok. cbn. destruct Hok as [-> _]. split; [done|].
    exists t, (Registering e (images p)). split; [|done].
    apply list_lookup_insert_eq. by eapply lookup_lt_Some.
  - intros _. split; [done|by right].
  - right. by right.
  - intros e' h' _ _ ->. right. by left.
Qed.

Lemma pass_inv e :
  threads p !! t = Some (Once e) -> gAddImageCallbackOnce p = OnceDone ->
  inv (set_threads <[t := Count e]> p) pub /\ kept p p pub pub.
Proof using Hinv.
  intros Ht Ho. split; [|done]. pose proof (inv_valid _ _ Hinv _ _ Ht) as Hv.
  pose proof (inv_once _ _ Hinv) as Hok.
  eapply (inv_quiet p p pub t (Once e)); try done.
  - unfold once_ok in *. cbn. by rewrite Ho in *.
  - by left.
  - intros e' h' _ _ ->. by right.
Qed.

Lemma leave_inv e :
  threads p !! t = Some (Registering e []) ->
  let p1 := set_once OnceDone (registrations p) p in
  inv (set_threads <[t := Count e]> p1) pub /\ kept p p1 pub pub.
Proof using Hinv.
  intros Ht p1. split; [|done]. pose proof (inv_valid _ _ Hinv _ _ Ht) as Hv.
  pose proof (inv_once _ _ Hinv) as Hok. pose proof (inside_here t _ Ht eq_refl) as Ho.
  eapply (inv_quiet p p1 pub t (Registering e [])); try done.
  - unfold once_ok in *. cbn. rewrite Ho in Hok. by destruct Hok.
  - right. by left.
  - intros e' h' _ _ [->|Hin]; [by right|by apply not_elem_of_nil in Hin].
Qed.

(** The steps that apply an entry to an image. *)
Lemma walk_inv h r after p1 q' :
  threads p !! t = Some (CallbackWalk h r after) ->
  callback_step p h r after = Some (p1, q') ->
  inv (set_threads <[t := q']> p1) pub /\ kept p p1 pub pub.
Proof using Hinv.
  intros Ht Hs. destruct (inv_valid _ _ Hinv _ _ Ht) as [(l & Hl & Hsub) Hv].
  unfold callback_step in Hs. destruct (Z.eqb_spec r NULL) as [->|Hr].
  - injection Hs as <- <-. eapply move_inv; try done.
    intros e' h' _ _ [(_ & l' & Hl' & _ & He)|Ho]; [|by right].
    destruct l' as [|a l']; [by apply not_elem_of_nil in He|].
    destruct Hl' as (<- & ? & _). done.
  - destruct l as [|a l]; [done|]. destruct Hl as (-> & _ & x & Hx & Hl).
    rewrite Hx in Hs. injection Hs as <- <-. eapply move_inv; try done.
    + split; [|done]. exists l. split; [done|]. intros b Hb. apply Hsub. by apply list_elem_of_further.
    + intros c Hc. cbn. by apply list_elem_of_further.
    + intros e' h' _ _ [(-> & l' & Hl' & Hs' & He)|Ho]; [|by right; right].
      assert (l' = a :: l) as ->.
      { eapply linked_unique; [exact Hl'|]. cbn. eauto. }
      apply elem_of_cons in He as [->|He]; [left; apply list_elem_of_here|].
      right. left. split; [done|]. exists l. split_and!; [done| |done].
      intros b Hb. apply Hsub. by apply list_elem_of_further.
Qed.

Lemma enumerate_inv e i n p1 q' :
  threads p !! t = Some (Enumerate e i n) ->
  enumerate_step p e i n = (p1, q') ->
  inv (set_threads <[t := q']> p1) pub /\ kept p p1 pub pub.
Proof using Hinv.
  intros Ht Hs. destruct (inv_valid _ _ Hinv _ _ Ht) as (Hv & Hi & Hn).
  destruct (inv_images _ _ Hinv) as [Hnull Hlen]. unfold UINT32_MAX in Hlen.
  unfold enumerate_step in Hs. destruct (Z.ltb_spec i n) as [Hlt|Hge]; cbn [negb] in Hs.
  - injection Hs as <- <-. destruct (images p !! Z.to_nat i) as [x|] eqn:Hx.
    2:{ apply lookup_ge_None in Hx. lia. }
    unfold dyld_get_image_header. rewrite Hx. cbn [from_option id].
    assert (x <> NULL) as Hxn.
    { intros ->. apply Hnull. by eapply list_elem_of_lookup_2. }
    replace (x =? NULL) with false by lia. cbn [negb]. eapply move_inv; try done.
    + rewrite u32_small by (unfold is_u32; lia). split_and!; [done|lia|done].
    + intros c Hc. cbn. by apply list_elem_of_further.
    + intros e' h' _ _ (-> & j & Hj & Hh). rewrite u32_small by (unfold is_u32; lia).
      destruct (decide (Z.of_nat j = i)) as [<-|Hne].
      * left. rewrite Nat2Z.id in Hx. replace h' with x by congruence. apply list_elem_of_here.
      * right. split; [done|]. exists j. split; [lia|done].
  - injection Hs as <- <-. eapply move_inv; try done.
    intros e' h' _ _ (-> & j & Hj & _). lia.
Qed.

Lemma thread_step_inv q spuriously p1 q' :
  threads p !! t = Some q -> thread_step p spuriously q = Some (p1, q') ->
  exists pub1, inv (set_threads <[t := q']> p1) pub1 /\ kept p p1 pub pub1.
Proof using Hinv.
  intros Ht Hs. pose proof (inv_valid _ _ Hinv _ _ Ht) as Hv.
  destruct q as [e|e hd|e hd|e|e [|h todo]|e|e i n|h after|h r after|[e|]|]; cbn in Hs.
  - injection Hs as <- <-. exists pub. by eapply move_inv.
  - injection Hs as <- <-. exists pub. by apply link_inv.
  - unfold publish_step in Hs. destruct (_ && _) eqn:Hc; injection Hs as <- <-.
    + exists (e :: pub). apply (publish_inv e hd Ht). lia.
    + exists pub. eapply move_inv; try done.
      destruct Hv as (? & ? & x & ? & _). split_and!; [done|done|by exists x].
  - exists pub. destruct (gAddImageCallbackOnce p) eqn:Ho; [|done|]; injection Hs as <- <-.
    + by apply enter_inv.
    + by apply pass_inv.
  - injection Hs as <- <-. exists pub. by apply leave_inv.
  - injection Hs as <- <-. exists pub. eapply move_inv; try done.
    intros e' h' _ _ [->|Hin]; right; [by right; left|].
    apply elem_of_cons in Hin as [->|Hin]; [by left|by right; right].
  - injection Hs as <- <-. exists pub. pose proof (proj2 (inv_images _ _ Hinv)) as Hlen.
    assert (dyld_image_count p = Z.of_nat (length (images p))) as Hcount.
    { apply u32_small. unfold is_u32, UINT32_MAX in *. lia. }
    rewrite Hcount. eapply move_inv; try done.
    intros e' h' _ Hin ->. right. split; [done|].
    apply list_elem_of_lookup in Hin as [j Hj]. exists j. split; [|done].
    pose proof (lookup_lt_Some _ _ _ Hj). lia.
  - injection Hs as Hs. exists pub. by apply (enumerate_inv e i n).
  - injection Hs as <- <-. exists pub. eapply move_inv; try done.
    + split; [|done]. exists pub. split; [apply Hinv|done].
    + intros e' h' He _ [->|Ho]; right; [left|by right].
      split; [done|]. exists pub. split_and!; [apply Hinv|done|done].
  - exists pub. by eapply walk_inv.
  - done.
  - done.
  - done.
Qed.
End Steps.

(** Steps that start threads or map images. *)
Section Grow.
Context (p p1 : process) (pub : list Z) (extra : list pc).
Context (Hinv : inv p pub) (Hextra : (length extra <= 1)%nat).
Context (Hthreads : threads p1 = threads p ++ extra).
Context (Hhead : gRebinds p1 = gRebinds p).
Context (Hstate : gAddImageCallbackOnce p1 = gAddImageCallbackOnce p).
Context (Hcount : registrations p1 = registrations p).
Context (Hkept : forall b, is_Some (rebinds p !! b) -> rebinds p1 !! b = rebinds p !! b).
Context (Hloaded : images p `prefix_of` images p1).
Context (Himages : (NULL ∉ images p1) /\ Z.of_nat (length (images p1)) <= UINT32_MAX).
Context (Hvalid : forall q, q ∈ extra -> valid (rebinds p1) (images p1) pub q).
Context (Hfresh : forall q e, q ∈ extra -> private q = Some e -> rebinds p !! e = None).
Context (Hout : forall q, q ∈ extra -> registering q = false).
Context (Happlied : applied p1 = applied p).
Context (Hcover : forall e h, e ∈ pub -> h ∈ images p1 -> h ∈ images p \/
  exists t q, threads p1 !! t = Some q /\ owes (rebinds p1) (images p1) pub q e h).

Lemma grow_thread t q :
  threads p1 !! t = Some q -> threads p !! t = Some q \/ (t = length (threads p) /\ q ∈ extra).
Proof using All.
  rewrite Hthreads. intros [?|[Hge Hq]]%lookup_app_Some; [by left|right].
  pose proof (lookup_lt_Some _ _ _ Hq). split; [lia|by eapply list_elem_of_lookup_2].
Qed.

Lemma grow_pub b : b ∈ pub -> rebinds p1 !! b = rebinds p !! b.
Proof using Hinv Hkept.
  intros Hb. apply Hkept. by eapply linked_dom; [apply Hinv|].
Qed.

Lemma grow_old t q : threads p !! t = Some q -> threads p1 !! t = Some q.
Proof using Hthreads. intros Hq. rewrite Hthreads. by apply lookup_app_l_Some. Qed.

Lemma inv_grow : inv p1 pub.
Proof using All.
  pose proof grow_pub as Hpub. split.
  - rewrite Hhead. eapply linked_frame; [exact Hpub|apply Hinv].
  - intros t q [Hq|[_ Hq]]%grow_thread; [|by apply Hvalid].
    eapply valid_mono; [exact Hpub|done|done| |by eapply inv_valid].
    intros e He. destruct (valid_private _ _ _ _ _ (inv_valid _ _ Hinv _ _ Hq) He) as (? & _ & ?).
    split; [done|by apply Hkept].
  - assert (forall t q e, threads p !! t = Some q -> private q = Some e ->
      rebinds p !! e <> None) as Hsome.
    { intros t q e Hq He.
      destruct (valid_private _ _ _ _ _ (inv_valid _ _ Hinv _ _ Hq) He) as (_ & _ & [? ->]). done. }
    intros t t' q q' e Hq Hq' He He'.
    apply grow_thread in Hq as [Hq|[-> Hq]], Hq' as [Hq'|[-> Hq']]; [|exfalso|exfalso|done].
    + by eapply (inv_private _ _ Hinv t t').
    + by eapply Hsome, Hfresh.
    + by eapply Hsome, Hfresh.
  - pose proof (inv_once _ _ Hinv) as Hok. unfold once_ok in *. rewrite Hstate, Hcount.
    destruct (gAddImageCallbackOnce p); [| |done].
    + destruct Hok as [? Hok]. split; [done|]. intros e [t Ht]%Hok. exists t. by apply grow_old.
    + destruct Hok as [? (t & q & Hq & ?)]. split; [done|]. exists t, q. split; [|done].
      by apply grow_old.
  - intros t t' q q' Hq Hq' Hr Hr'. rewrite Hstate.
    apply grow_thread in Hq as [Hq|[-> Hq%Hout]], Hq' as [Hq'|[-> Hq'%Hout]]; try congruence.
    by eapply (inv_registering _ _ Hinv t t').
  - done.
  - intros e h He Hh. unfold covered_by. rewrite Happlied.
    destruct (Hcover e h He Hh) as [Hold|?]; [|by right].
    destruct (inv_covered _ _ Hinv e h He Hold) as [?|(t & q & Hq & Ho)]; [by left|right].
    exists t, q. split; [by apply grow_old|]. by eapply owes_mono.
Qed.
End Grow.

Section Reachable.
Context {T : Target} {L : Loader}.

Lemma call_inv p pub replacee replacement filter allocated p1 q :
  inv p pub -> allocated = NULL \/ rebinds p !! allocated = None ->
  RorkHookRebindSymbolGlobally p replacee replacement filter allocated = (p1, q) ->
  inv (set_threads (fun l => l ++ [q]) p1) pub /\
  forall e, e ∈ pub -> rebinds p1 !! e = rebinds p !! e.
Proof.
  intros Hinv Ha Hc.
  assert ((p1, q) = (p, Returned None) \/ allocated <> NULL /\ exists x,
    (p1, q) = (set_rebinds <[allocated := x]> p, Load allocated)) as Hcase.
  { unfold RorkHookRebindSymbolGlobally in Hc. destruct (_ || _); [by left|].
    destruct (dladdr _) as [result base]. destruct (_ || _); [by left|].
    destruct (Z.eqb_spec allocated NULL); [by left|]. right. split; [done|by eexists]. }
  destruct Hcase as [E|(Hn & x & E)]; injection E as -> ->.
  - split; [|done]. apply (inv_grow p _ pub [Returned None]); try done; cbn; try lia.
    + apply Hinv.
    + by intros q ->%list_elem_of_singleton.
    + by intros q e ->%list_elem_of_singleton.
    + by intros q ->%list_elem_of_singleton.
    + intros e h _ Hh. by left.
  - destruct Ha as [|Ha]; [done|].
    assert (forall b, is_Some (rebinds p !! b) ->
      rebinds (set_rebinds <[allocated:=x]> p) !! b = rebinds p !! b) as Hkept.
    { intros b [y Hb]. cbn. rewrite lookup_insert_ne; [done|]. by intros ->; congruence. }
    assert (forall b, b ∈ pub -> is_Some (rebinds p !! b)) as Hdom.
    { intros b Hb. by eapply linked_dom; [apply Hinv|]. }
    split; [|by intros e He; apply Hkept, Hdom].
    apply (inv_grow p _ pub [Load allocated]); try done; cbn; try lia.
    + apply Hinv.
    + intros q ->%list_elem_of_singleton. cbn. split_and!; [|done|].
      * intros Hin. destruct (Hdom _ Hin). congruence.
      * rewrite lookup_insert_eq. by eexists.
    + intros q e ->%list_elem_of_singleton. by intros [= <-].
    + by intros q ->%list_elem_of_singleton.
    + intros e h _ Hh. by left.
Qed.

Lemma load_inv p pub header :
  inv p pub -> header <> NULL -> Z.of_nat (length (images p)) < UINT32_MAX ->
  inv (dyld_load header p) pub.
Proof.
  intros Hinv Hn Hlen. destruct (inv_images _ _ Hinv) as [Hnull _].
  assert ((NULL ∉ images p ++ [header]) /\
    Z.of_nat (length (images p ++ [header])) <= UINT32_MAX) as Himg.
  { split; [|rewrite length_app; cbn; lia]. rewrite elem_of_app, list_elem_of_singleton.
    intros [?|?]; [done|congruence]. }
  unfold dyld_load. cbv zeta. cbn [registrations set_images].
  destruct (Nat.eqb_spec (registrations p) 0) as [Hr|Hr].
  - apply (inv_grow p _ pub []); try done; cbn; try lia.
    + by rewrite app_nil_r.
    + by apply prefix_app_r.
    + intros q Hq. by apply not_elem_of_nil in Hq.
    + intros q e Hq. by apply not_elem_of_nil in Hq.
    + intros q Hq. by apply not_elem_of_nil in Hq.
    + intros e h He _. right. pose proof (inv_once _ _ Hinv) as Hok. unfold once_ok in Hok.
      destruct (gAddImageCallbackOnce p); [|lia..].
      destruct Hok as [_ Hok]. destruct (Hok e He) as [t Ht]. by exists t, (Once e).
  - apply (inv_grow p _ pub [CallbackLoad header Finished]); try done; cbn; try lia.
    + by apply prefix_app_r.
    + by intros q ->%list_elem_of_singleton.
    + by intros q e ->%list_elem_of_singleton.
    + by intros q ->%list_elem_of_singleton.
    + intros e h _ [Hh|Hh]%elem_of_app; [by left|right].
      apply list_elem_of_singleton in Hh as ->.
      exists (length (threads p)), (CallbackLoad header Finished). split; [|by left].
      by apply list_lookup_middle.
Qed.

Lemma step_inv p pub p' :
  inv p pub -> step p p' ->
  exists pub', inv p' pub' /\ pub `suffix_of` pub' /\
    forall e, e ∈ pub -> rebinds p' !! e = rebinds p !! e.
Proof.
  intros Hinv Hs.
  destruct Hs as [p t q sp p1 q1 Hq Hs|p r1 r2 f a p1 q Ha Hc|p h Hn Hlen].
  - destruct (thread_step_inv p pub t Hinv q sp p1 q1 Hq Hs) as (pub1 & H1 & H2 & H3).
    by exists pub1.
  - destruct (call_inv p pub r1 r2 f a p1 q Hinv Ha Hc) as [H1 H2]. by exists pub.
  - exists pub. split; [by apply load_inv|]. split; [done|]. intros e _. unfold dyld_load.
    cbv zeta. by destruct (registrations _ =? 0)%nat.
Qed.

(** dyld lists images that exist, and no more than its 32-bit count can say. *)
Definition loadable (loaded : list Z) : Prop :=
  (NULL ∉ loaded) /\ Z.of_nat (length loaded) <= UINT32_MAX.

Lemma init_inv loaded : loadable loaded -> inv (process_init loaded) [].
Proof.
  intros Hl. split; try done.
  - split; [done|]. intros e He. by apply not_elem_of_nil in He.
  - intros e h He. by apply not_elem_of_nil in He.
Qed.

Lemma steps_inv p pub p' :
  inv p pub -> rtc step p p' ->
  exists pub', inv p' pub' /\ pub `suffix_of` pub' /\
    forall e, e ∈ pub -> rebinds p' !! e = rebinds p !! e.
Proof.
  intros Hinv Hs. revert pub Hinv. induction Hs as [p|p p1 p2 Hs _ IH]; intros pub Hinv.
  { by exists pub. }
  destruct (step_inv p pub p1 Hinv Hs) as (pub1 & H1 & S1 & K1).
  destruct (IH pub1 H1) as (pub2 & H2 & S2 & K2). exists pub2.
  split_and!; [done|by etrans|]. intros e He. rewrite K2, K1; [done|done|].
  destruct S1 as [l ->]. apply elem_of_app. by right.
Qed.

Lemma inv_published p pub e : inv p pub -> published p e <-> e ∈ pub.
Proof.
  intros Hinv. split.
  - intros (l & Hl & He). by rewrite (linked_unique _ _ _ _ (inv_linked _ _ Hinv) Hl).
  - intros He. exists pub. split; [apply Hinv|done].
Qed.
End Reachable.

(** ** Progress *)

Section Progress.
Context {T : Target} {L : Loader}.

(** Thread [t] can go on alone until its call, or its callback, has returned. *)
Definition can_finish (t : nat) (p : process) : Prop :=
  exists p' q', rtc step p p' /\ threads p' = <[t := q']> (threads p) /\
    at_rest q' = true /\ gAddImageCallbackOnce p' <> OnceRunning.

Lemma thread_step_threads p spuriously q p1 q1 :
  thread_step p spuriously q = Some (p1, q1) -> threads p1 = threads p.
Proof.
  destruct q as [e|e hd|e hd|e|e [|h todo]|e|e i n|h after|h r after|o|]; cbn; intros Hs;
    try by simplify_eq.
  - unfold publish_step in Hs. destruct (_ && _); by simplify_eq.
  - destruct (gAddImageCallbackOnce p); by simplify_eq.
  - unfold enumerate_step in Hs. destruct (negb _); simplify_eq; [done|].
    by destruct (negb _).
  - unfold callback_step in Hs. destruct (_ =? _); [by simplify_eq|].
    destruct (_ !! _); by simplify_eq.
Qed.

(** A thread that has reached [q'] without any other thread moving. *)
Lemma can_finish_steps t p p' q' :
  rtc step p p' -> threads p' = <[t := q']> (threads p) -> can_finish t p' -> can_finish t p.
Proof.
  intros Hs Ht (p2 & q2 & Hs2 & Ht2 & Hr & Ho). exists p2, q2. split_and!; [by etrans| |done..].
  by rewrite Ht2, Ht, list_insert_insert_eq.
Qed.

Lemma can_finish_step t p q spuriously p1 q1 :
  threads p !! t = Some q -> thread_step p spuriously q = Some (p1, q1) ->
  can_finish t (set_threads <[t := q1]> p1) -> can_finish t p.
Proof.
  intros Hq Hs. eapply (can_finish_steps t p _ q1).
  - apply rtc_once. by eapply step_thread.
  - cbn. by rewrite (thread_step_threads _ _ _ _ _ Hs).
Qed.

Lemma at_thread t p q0 q : threads p !! t = Some q0 ->
  threads (set_threads <[t := q]> p) !! t = Some q.
Proof. intros Hq. cbn. apply list_lookup_insert_eq. by eapply lookup_lt_Some. Qed.

Lemma finish_enumerate t p e i n :
  threads p !! t = Some (Enumerate e i n) -> 0 <= i -> n <= UINT32_MAX ->
  gAddImageCallbackOnce p <> OnceRunning -> can_finish t p.
Proof.
  intros Hq Hi Hn Ho. remember (Z.to_nat (n - i)) as k eqn:Hk. revert p i Hq Hi Ho Hk.
  induction k as [|k IH]; intros p i Hq Hi Ho Hk.
  - eapply (can_finish_step t p _ false); [done|cbn; unfold enumerate_step;
      by replace (i <? n) with false by lia|].
    exists (set_threads <[t := Returned (Some e)]> p), (Returned (Some e)). split_and!; try done.
    cbn. by rewrite list_insert_insert_eq.
  - eapply (can_finish_step t p _ false); [done|cbn; unfold enumerate_step;
      by replace (i <? n) with true by lia|].
    cbn [negb]. match goal with |- can_finish _ (set_threads _ ?x) => set (p1 := x) end.
    assert (gAddImageCallbackOnce p1 = gAddImageCallbackOnce p /\ threads p1 = threads p) as [H1 H2].
    { unfold p1. by destruct (negb _). }
    rewrite u32_small by (unfold is_u32, UINT32_MAX in *; lia).
    eapply (IH _ (i + 1)); [eapply at_thread; by rewrite H2|lia| |lia].
    cbn. congruence.
Qed.

Lemma finish_count t p e pub :
  inv p pub -> threads p !! t = Some (Count e) ->
  gAddImageCallbackOnce p <> OnceRunning -> can_finish t p.
Proof.
  intros Hinv Hq Ho. eapply (can_finish_step t p _ false); [done|done|].
  eapply finish_enumerate; [by eapply at_thread|lia| |done].
  unfold dyld_image_count. pose proof (u32_range (Z.of_nat (length (images p)))).
  unfold is_u32, UINT32_MAX in *. lia.
Qed.

(** A callback ends, with the process otherwise as it was. *)
Lemma walk_ends t p h r after l :
  threads p !! t = Some (CallbackWalk h r after) -> linked (rebinds p) r l ->
  exists p', rtc step p p' /\ threads p' = <[t := after]> (threads p) /\
    gAddImageCallbackOnce p' = gAddImageCallbackOnce p.
Proof.
  revert p r. induction l as [|a l IH]; intros p r Hq.
  - intros ->. exists (set_threads <[t := after]> p). split_and!; [|done|done].
    apply rtc_once. by eapply (step_thread p t _ false).
  - intros (-> & Ha & x & Hx & Hl).
    assert (threads (set_threads <[t := CallbackWalk h (next x) after]> (add_applied (a, h) p)) !! t =
      Some (CallbackWalk h (next x) after)) as Hq1 by by eapply (at_thread t (add_applied (a, h) p)).
    destruct (IH _ (next x) Hq1)
      as (p' & Hs & Ht & Ho); [done|].
    exists p'. split_and!; [|by rewrite Ht; cbn; rewrite list_insert_insert_eq|done].
    eapply rtc_l; [|exact Hs]. eapply (step_thread p t _ false); [done|]. cbn.
    unfold callback_step. rewrite Hx. by replace (a =? NULL) with false by lia.
Qed.

Lemma callback_ends t p pub h after :
  inv p pub -> threads p !! t = Some (CallbackLoad h after) ->
  exists p', rtc step p p' /\ threads p' = <[t := after]> (threads p) /\
    gAddImageCallbackOnce p' = gAddImageCallbackOnce p.
Proof.
  intros Hinv Hq.
  destruct (walk_ends t (set_threads <[t := CallbackWalk h (gRebinds p) after]> p) h (gRebinds p)
    after pub) as (p' & Hs & Ht & Ho); [by eapply at_thread|apply Hinv|].
  exists p'. split_and!; [|by rewrite Ht; cbn; rewrite list_insert_insert_eq|done].
  eapply rtc_l; [|exact Hs]. by eapply (step_thread p t _ false).
Qed.

Lemma finish_registering t p pub e todo :
  inv p pub -> threads p !! t = Some (Registering e todo) -> can_finish t p.
Proof.
  revert p pub. induction todo as [|h todo IH]; intros p pub Hinv Hq.
  - destruct (thread_step_inv p pub t Hinv _ false _ _ Hq eq_refl) as (pub1 & Hinv1 & _).
    eapply (can_finish_step t p _ false); [done|done|].
    eapply finish_count; [done|by eapply (at_thread t (set_once _ _ p))|done].
  - eapply (can_finish_step t p _ false); [done|done|].
    destruct (thread_step_inv p pub t Hinv _ false _ _ Hq eq_refl) as (pub1 & Hinv1 & _).
    destruct (callback_ends t _ pub1 h (Registering e todo) Hinv1) as (p' & Hs & Ht & _).
    { by eapply at_thread. }
    eapply can_finish_steps; [done|done|].
    destruct (steps_inv _ _ _ Hinv1 Hs) as (pub2 & Hinv2 & _).
    eapply IH; [done|]. rewrite Ht. apply list_lookup_insert_eq. cbn.
    rewrite length_insert. by eapply lookup_lt_Some.
Qed.

Lemma finish_once t p pub e :
  inv p pub -> threads p !! t = Some (Once e) -> gAddImageCallbackOnce p <> OnceRunning ->
  can_finish t p.
Proof.
  intros Hinv Hq Ho. destruct (gAddImageCallbackOnce p) eqn:E; [|done|].
  - destruct (enter_inv p pub t Hinv e Hq E) as [Hinv1 _].
    eapply (can_finish_step t p _ false); [done|cbn; by rewrite E|].
    eapply finish_registering; [done|by eapply (at_thread t (set_once _ _ p))].
  - destruct (pass_inv p pub t Hinv e Hq E) as [Hinv1 _].
    eapply (can_finish_step t p _ false); [done|cbn; by rewrite E|].
    eapply finish_count; [done|by eapply at_thread|]. cbn. congruence.
Qed.

Lemma finish_publish t p pub e :
  inv p pub -> threads p !! t = Some (Link e (gRebinds p)) ->
  gAddImageCallbackOnce p <> OnceRunning -> can_finish t p.
Proof.
  intros Hinv Hq Ho. destruct (link_inv p pub t Hinv e _ Hq) as [Hinv1 _].
  eapply (can_finish_step t p _ false); [done|done|].
  set (p1 := set_threads _ _) in *.
  assert (threads p1 !! t = Some (Cas e (gRebinds p1))) as Hq1
    by by eapply (at_thread t (set_rebinds _ p)).
  destruct (publish_inv p1 pub t Hinv1 e _ Hq1 eq_refl) as [Hinv2 _].
  eapply (can_finish_step t p1 _ false); [done| |].
  { cbn. unfold publish_step. by rewrite Z.eqb_refl. }
  eapply finish_once; [done|by eapply (at_thread t (set_head _ p1))|done].
Qed.

Lemma finish_cas t p pub e head :
  inv p pub -> threads p !! t = Some (Cas e head) ->
  gAddImageCallbackOnce p <> OnceRunning -> can_finish t p.
Proof.
  intros Hinv Hq Ho. destruct (Z.eqb_spec (gRebinds p) head) as [Hh|Hh].
  - destruct (publish_inv p pub t Hinv e _ Hq Hh) as [Hinv1 _].
    eapply (can_finish_step t p _ false); [done| |].
    { cbn. unfold publish_step. by replace (gRebinds p =? head) with true by lia. }
    eapply finish_once; [done|by eapply (at_thread t (set_head _ p))|done].
  - assert (thread_step p false (Cas e head) = Some (p, Link e (gRebinds p))) as Hs.
    { cbn. unfold publish_step. by replace (gRebinds p =? head) with false by lia. }
    destruct (thread_step_inv p pub t Hinv _ false _ _ Hq Hs) as (pub1 & Hinv1 & _).
    eapply (can_finish_step t p _ false); [done|done|].
    eapply finish_publish; [done|by eapply at_thread|done].
Qed.

(** What a callback leaves behind finishes as well. *)
Lemma finish_after t p pub p' q :
  inv p pub -> rtc step p p' -> threads p' = <[t := q]> (threads p) ->
  is_Some (threads p !! t) -> gAddImageCallbackOnce p' = gAddImageCallbackOnce p ->
  gAddImageCallbackOnce p <> OnceRunning \/ registering q = true ->
  (forall p pub, inv p pub -> threads p !! t = Some q -> at_rest q = false ->
     gAddImageCallbackOnce p <> OnceRunning \/ registering q = true -> can_finish t p) ->
  can_finish t p.
Proof.
  intros Hinv Hs Ht [q0 Hq0] Ho Hor IH. destruct (at_rest q) eqn:Hr.
  - exists p', q. split_and!; [done..|]. rewrite Ho. destruct Hor as [|Hreg]; [done|].
    destruct q; done.
  - destruct (steps_inv _ _ _ Hinv Hs) as (pub' & Hinv' & _).
    eapply can_finish_steps; [done|done|]. eapply IH; [done| |done|by rewrite Ho].
    rewrite Ht. apply list_lookup_insert_eq. by eapply lookup_lt_Some.
Qed.

(** Unless another thread is inside the [dispatch_once] block, a thread can
    finish. *)
Lemma thread_finishes t p pub q :
  inv p pub -> threads p !! t = Some q -> at_rest q = false ->
  gAddImageCallbackOnce p <> OnceRunning \/ registering q = true -> can_finish t p.
Proof.
  revert p pub. induction q as [e|e hd|e hd|e|e todo|e|e i n|h q IH|h r q IH|o|];
    intros p pub Hinv Hq Hr Ho; cbn in Hr, Ho; try done;
    try (destruct Ho as [Ho|]; [|done]).
  - destruct (thread_step_inv p pub t Hinv _ false _ _ Hq eq_refl) as (pub1 & Hinv1 & _).
    eapply (can_finish_step t p _ false); [done|done|].
    eapply finish_publish; [done|by eapply at_thread|done].
  - destruct (link_inv p pub t Hinv e _ Hq) as [Hinv1 _].
    eapply (can_finish_step t p _ false); [done|done|].
    eapply finish_cas; [done|by eapply (at_thread t (set_rebinds _ p))|done].
  - by eapply finish_cas.
  - by eapply finish_once.
  - by eapply finish_registering.
  - by eapply finish_count.
  - destruct (inv_valid _ _ Hinv _ _ Hq) as (_ & Hi & Hn). pose proof (proj2 (inv_images _ _ Hinv)).
    eapply finish_enumerate; [done|done|lia|done].
  - destruct (callback_ends t p pub h q Hinv Hq) as (p' & Hs & Ht & Hsame).
    eapply finish_after; [done|done|done|by eexists|done|done|exact IH].
  - destruct (inv_valid _ _ Hinv _ _ Hq) as [(l & Hl & _) _].
    destruct (walk_ends t p h r q l Hq Hl) as (p' & Hs & Ht & Hsame).
    eapply finish_after; [done|done|done|by eexists|done|done|exact IH].
Qed.

(** The threads that are not at rest. *)
Definition active (l : list pc) : nat := length (base.filter (fun q => at_rest q = false) l).

Lemma active_insert l t q q' :
  l !! t = Some q -> at_rest q = false -> at_rest q' = true ->
  active l = S (active (<[t := q']> l)).
Proof.
  unfold active. revert t. induction l as [|r l IH]; intros [|t]; [done..| |].
  - intros [= ->] Hq Hq'. change (<[0%nat := q']> (q :: l)) with (q' :: l).
    rewrite !filter_cons. by rewrite Hq, Hq'.
  - intros Hl Hq Hq'. specialize (IH t Hl Hq Hq').
    change (<[S t := q']> (r :: l)) with (r :: <[t := q']> l). rewrite !filter_cons.
    destruct (decide _); cbn [length]; by rewrite IH.
Qed.

Lemma active_none l : active l = 0%nat -> Forall (fun q => at_rest q = true) l.
Proof.
  unfold active. induction l as [|r l IH]; [constructor|]. rewrite filter_cons.
  destruct (decide _) as [|Hr]; [done|]. intros Hl. constructor; [|by apply IH].
  by destruct (at_rest r).
Qed.

Lemma active_some l : active l <> 0%nat -> exists t q, l !! t = Some q /\ at_rest q = false.
Proof.
  unfold active. induction l as [|r l IH]; [done|]. rewrite filter_cons.
  destruct (decide _) as [Hr|]; [intros _; by exists 0%nat, r|].
  intros (t & q & Hl & Hq)%IH. by exists (S t), q.
Qed.

Lemma reaches_rest p pub : inv p pub -> exists p', rtc step p p' /\ quiescent p'.
Proof.
  remember (active (threads p)) as n eqn:Hn. revert p pub Hn.
  induction n as [|n IH]; intros p pub Hn Hinv.
  { exists p. split; [done|]. by apply active_none. }
  assert (exists t q, threads p !! t = Some q /\ at_rest q = false /\
    (gAddImageCallbackOnce p <> OnceRunning \/ registering q = true)) as (t & q & Hq & Hr & Ho).
  { pose proof (inv_once _ _ Hinv) as Hok. unfold once_ok in Hok.
    destruct (gAddImageCallbackOnce p) eqn:E.
    2:{ destruct Hok as (_ & t & q & Hq & Hreg). exists t, q. split_and!; [done| |by right].
        by destruct q. }
    all: destruct (active_some (threads p)) as (t & q & Hq & Hr); [lia|];
      exists t, q; split_and!; [done|done|by left]. }
  destruct (thread_finishes t p pub q Hinv Hq Hr Ho) as (p1 & q1 & Hs & Ht & Hr1 & _).
  destruct (steps_inv _ _ _ Hinv Hs) as (pub1 & Hinv1 & _).
  destruct (IH p1 pub1) as (p2 & Hs2 & Hq2); [|done|].
  - rewrite (active_insert _ t q q1), <- Ht in Hn by done. lia.
  - exists p2. split; [by etrans|done].
Qed.
End Progress.

(** ** Properties *)

Section Properties.
Context {T : Target} {L : Loader}.

(** C5: every registered rebind reaches every image.  However calls, callbacks
    and image loads interleave, and however often an exchange fails, once every
    call has returned and every callback has ended, each published entry has been
    applied to each loaded image; and the entry of a call that returned [true] is
    published. *)
Theorem RorkHookRebindSymbolGlobally_covers loaded p :
  loadable loaded -> rtc step (process_init loaded) p -> quiescent p ->
  (forall e h, published p e -> h ∈ images p -> (e, h) ∈ applied p) /\
  (forall e, Returned (Some e) ∈ threads p -> published p e).
Proof.
  intros Hl Hs Hq. destruct (steps_inv _ _ _ (init_inv _ Hl) Hs) as (pub & Hinv & _). split.
  - intros e h He Hh. apply (inv_published _ _ _ Hinv) in He.
    destruct (inv_covered _ _ Hinv e h He Hh) as [?|(t & q & Hl' & Ho)]; [done|exfalso].
    unfold quiescent in Hq. rewrite Forall_lookup in Hq. specialize (Hq t q Hl').
    by destruct q.
  - intros e [t Ht]%list_elem_of_lookup. apply (inv_published _ _ _ Hinv).
    apply (inv_valid _ _ Hinv t _ Ht).
Qed.

(** C27: registration is for the life of the process.  A published entry stays
    on the list, with every field as it was, whatever happens later. *)
Theorem RorkHookRebindSymbolGlobally_permanent loaded p p' e :
  loadable loaded -> rtc step (process_init loaded) p -> rtc step p p' ->
  published p e -> published p' e /\ rebinds p' !! e = rebinds p !! e.
Proof.
  intros Hl Hs Hs' He. destruct (steps_inv _ _ _ (init_inv _ Hl) Hs) as (pub & Hinv & _).
  destruct (steps_inv _ _ _ Hinv Hs') as (pub' & Hinv' & [l Hsuf] & Hkept).
  apply (inv_published _ _ _ Hinv) in He. split; [|by apply Hkept].
  apply (inv_published _ _ _ Hinv'). rewrite Hsuf. apply elem_of_app. by right.
Qed.

(** C28: dyld is given the callback at most once, and has been given it once the
    calls are over if any entry was published. *)
Theorem RorkHookRebindSymbolGlobally_registers_once loaded p :
  loadable loaded -> rtc step (process_init loaded) p ->
  (registrations p <= 1)%nat /\
  (quiescent p -> forall e, published p e -> registrations p = 1%nat).
Proof.
  intros Hl Hs. destruct (steps_inv _ _ _ (init_inv _ Hl) Hs) as (pub & Hinv & _).
  pose proof (inv_once _ _ Hinv) as Hok. unfold once_ok in Hok.
  destruct (gAddImageCallbackOnce p); [|split; [lia|intros; lia]..].
  destruct Hok as [Hr Hok]. split; [lia|]. intros Hq e He%(inv_published _ _ _ Hinv).
  destruct (Hok e He) as [t Ht]. unfold quiescent in Hq. rewrite Forall_lookup in Hq.
  by specialize (Hq t _ Ht).
Qed.

(** C26: no deadlock.  From any reachable state the threads can all finish, by
    their own steps: publication, [dispatch_once], the callbacks and the
    enumeration each end. *)
Theorem RorkHookRebindSymbolGlobally_progress loaded p :
  loadable loaded -> rtc step (process_init loaded) p ->
  exists p', rtc step p p' /\ quiescent p'.
Proof.
  intros Hl Hs. destruct (steps_inv _ _ _ (init_inv _ Hl) Hs) as (pub & Hinv & _).
  by eapply reaches_rest.
Qed.
End Properties.

Section ApplyProperties.
Context {K : Type} {T : Target} {Kern : Kernel K} {SD : SectionData} {F : Filters K}.
Context {Laws : KernelLaws K} {TLaws : TPROLaws K}.
Implicit Types σ : machine K.

(** The image takes part: it is not the one that defines the replacement, and
    the filter, if there is one, accepts it. *)
Definition participates (accepts : Z -> Z -> bool) (rebind : RorkHookGlobalRebind) (header : Z)
    : bool :=
  negb (header =? sourceHeader rebind) &&
  ((filter rebind =? NULL) || accepts (filter rebind) header).

(** C29: applying an entry to an image.  The image that defines the replacement,
    and any image the filter rejects, is left alone, and the filter is not asked
    about the former; every other image is rebound, over the slots of its
    symbol-pointer sections.  The filter here is one that only answers. *)
Theorem RorkHookApplyRebind_spec accepts rebind header σ :
  let context := RebindImageContext header
    (RorkHookStripPointer (replacee rebind)) (replacement rebind) in
  (forall f h σ, call_filter f h σ = Ret (accepts f h) σ) ->
  is_u64 header -> header <> NULL -> replacee rebind <> NULL -> replacement rebind <> NULL ->
  (participates accepts rebind header = true -> image_layout context σ /\
     forall s, s ∈ image_slots context σ -> refusal_is_safe (kern σ) (fst s)) ->
  wp (RorkHookApplyRebind (Some rebind) header) σ (fun _ σ' =>
    if participates accepts rebind header
    then rebound context (image_ready context σ) (image_slots context σ) σ σ' else σ' = σ).
Proof using Laws TLaws.
  intros context Hf Hh N1 N2 N3 Hlay. unfold RorkHookApplyRebind, participates in *.
  unfold NULL in *. replace (header =? 0) with false by lia.
  destruct (header =? sourceHeader rebind); cbn [negb andb] in *; [by apply wp_ret|].
  assert ((ret (negb (filter rebind =? 0)) <&&>
    (let* accepted := call_filter (filter rebind) header in ret (negb accepted))) σ =
    Ret (negb ((filter rebind =? 0) || accepts (filter rebind) header)) σ) as Hrej.
  { unfold and_then, bind, ret. destruct (filter rebind =? 0); [done|]. cbn [negb orb].
    by rewrite Hf. }
  eapply wp_call; [exact Hrej|]. destruct (_ || accepts _ _); cbn [negb]; [|by apply wp_ret].
  destruct (Hlay eq_refl) as [Hl Hs].
  eapply wp_mono; [by apply (rebind_in_image header)|]. intros ? σ'. cbn beta.
  unfold NULL. by replace (_ || _) with false by lia.
Qed.
End ApplyProperties.

(** *** Unloading

    The coverage above is for processes that unload no image. *)

Definition sim_loader : Loader := {| dladdr := fun _ => (1, 0x1000) |}.

(** A run of the given threads, one step at a time. *)
Fixpoint run (p : process) (schedule : list nat) : option process :=
  match schedule with
  | [] => Some p
  | t :: schedule =>
      q ← threads p !! t;
      '(p', q') ← thread_step p false q;
      run (set_threads <[t := q']> p') schedule
  end.

(** A client's call. *)
Definition call (p : process) (allocated : Z) : process :=
  let '(p', q) := RorkHookRebindSymbolGlobally (T := device) (L := sim_loader)
    p 0x20000 0x50000 NULL allocated in
  set_threads (fun l => l ++ [q]) p'.

Lemma run_steps p schedule p' :
  run p schedule = Some p' -> rtc (step (T := device) (L := sim_loader)) p p'.
Proof.
  revert p. induction schedule as [|t schedule IH]; intros p; cbn [run].
  - intros [= ->]. done.
  - destruct (threads p !! t) as [q|] eqn:Hq; [|done]. cbn.
    destruct (thread_step p false q) as [[p1 q1]|] eqn:Hs; [|done]. cbn.
    intros Hr%IH. eapply rtc_l; [|exact Hr]. by eapply step_thread.
Qed.

Lemma call_steps p allocated :
  rebinds p !! allocated = None ->
  rtc (step (T := device) (L := sim_loader)) p (call p allocated).
Proof.
  intros Ha. apply rtc_once. unfold call.
  destruct (RorkHookRebindSymbolGlobally _ _ _ _ _) as [p' q] eqn:E.
  eapply step_call; [by right|exact E].
Qed.

(** One call has registered the callback; a second one enumerates two images,
    and the first of them is unloaded after its turn. *)
Definition race_start : process := process_init [0x1000; 0x2000].
Definition race_first : process :=
  default race_start (run (call race_start 0x9000) (replicate 17 0%nat)).
Definition race_second : process :=
  default race_start (run (call race_first 0xa000) (replicate 6 1%nat)).
Definition race_end : process :=
  default race_start (run (dyld_unload 0x1000 race_second) (replicate 2 1%nat)).

(** C25: what the coverage excludes.  When another thread unloads an image during
    the enumeration, dyld's indices shift, and an image that was loaded all along
    is skipped: the call returns [true], every thread has finished, and the entry
    was never applied to that image. *)
Theorem RorkHookRebindSymbolGlobally_unload_race :
  exists p, rtc (step_unloading (T := device) (L := sim_loader) 0x1000)
      (process_init [0x1000; 0x2000]) p /\
    quiescent p /\ Returned (Some 0xa000) ∈ threads p /\ published p 0xa000 /\
    0x2000 ∈ images p /\ (0xa000, 0x2000) ∉ applied p.
Proof.
  assert (forall p p', rtc (step (T := device) (L := sim_loader)) p p' ->
    rtc (step_unloading (T := device) (L := sim_loader) 0x1000) p p') as Hsub.
  { intros p p'. apply rtc_subrel. intros ? ?. by apply step_other. }
  exists race_end. split_and!.
  - transitivity race_second; [apply Hsub|].
    + transitivity race_first.
      * etrans; [by apply (call_steps race_start 0x9000)|].
        apply (run_steps _ (replicate 17 0%nat)). by vm_compute.
      * etrans; [by apply (call_steps race_first 0xa000); vm_compute|].
        apply (run_steps _ (replicate 6 1%nat)). by vm_compute.
    + eapply rtc_l; [apply step_unload|]. apply Hsub.
      apply (run_steps _ (replicate 2 1%nat)). by vm_compute.
  - unfold quiescent. replace (threads race_end)
      with [Returned (Some 0x9000); Returned (Some 0xa000)] by (by vm_compute).
    by repeat constructor.
  - replace (threads race_end)
      with [Returned (Some 0x9000); Returned (Some 0xa000)] by (by vm_compute).
    apply list_elem_of_further, list_elem_of_here.
  - exists [0xa000; 0x9000]. split; [|apply list_elem_of_here].
    vm_compute. split_and!; [done|done|]. eexists. split; [done|].
    split_and!; [done|done|]. by eexists.
  - replace (images race_end) with [0x2000] by (by vm_compute). apply list_elem_of_here.
  - replace (applied race_end) with
      [(0xa000, 0x1000); (0x9000, 0x2000); (0x9000, 0x1000); (0x9000, 0x2000); (0x9000, 0x1000)]
      by (by vm_compute).
    rewrite !elem_of_cons, elem_of_nil. intros [|[|[|[|[|[]]]]]]; congruence.
Qed.

(** ** Witnesses *)

(** Two calls whose exchanges collide, and an image loaded while the callback is
    being registered. *)
Definition busy_start : process := call (call race_start 0x9000) 0xa000.
Definition busy_registering : process :=
  default race_start (run busy_start [0; 0; 1; 1; 1; 0; 0; 0; 0]%nat).
Definition busy_loaded : process := dyld_load 0x3000 busy_registering.
Definition busy_end : process :=
  default race_start (run busy_loaded
    (replicate 4 2 ++ replicate 16 0 ++ replicate 6 1)%nat).

Lemma busy_registering_steps :
  rtc (step (T := device) (L := sim_loader)) race_start busy_registering.
Proof.
  etrans; [by apply (call_steps race_start 0x9000)|].
  etrans; [by apply (call_steps (call race_start 0x9000) 0xa000); vm_compute|].
  apply (run_steps _ [0; 0; 1; 1; 1; 0; 0; 0; 0]%nat). by vm_compute.
Qed.

Lemma busy_end_steps : rtc (step (T := device) (L := sim_loader)) busy_registering busy_end.
Proof.
  transitivity busy_loaded.
  - apply rtc_once. unfold busy_loaded. apply step_load; [done|].
    by replace (images busy_registering) with [0x1000; 0x2000] by (by vm_compute).
  - apply (run_steps busy_loaded (replicate 4 2 ++ replicate 16 0 ++ replicate 6 1)%nat).
    by vm_compute.
Qed.

Lemma race_loadable : loadable [0x1000; 0x2000].
Proof.
  split; [|done]. rewrite !elem_of_cons, elem_of_nil. unfold NULL. intros [|[|[]]]; congruence.
Qed.

Lemma busy_quiescent : quiescent busy_end.
Proof.
  unfold quiescent. replace (threads busy_end)
    with [Returned (Some 0x9000); Returned (Some 0xa000); Finished] by (by vm_compute).
  by repeat constructor.
Qed.

Lemma busy_published : published busy_registering 0xa000.
Proof.
  exists [0x9000; 0xa000]. split; [|apply list_elem_of_further, list_elem_of_here].
  vm_compute. split_and!; [done|done|]. eexists. split; [done|].
  split_and!; [done|done|]. by eexists.
Qed.

Lemma RorkHookRebindSymbolGlobally_covers_witness :
  images busy_end = [0x1000; 0x2000; 0x3000] /\
  (forall e h, published busy_end e -> h ∈ images busy_end -> (e, h) ∈ applied busy_end) /\
  (forall e, Returned (Some e) ∈ threads busy_end -> published busy_end e).
Proof.
  split; [by vm_compute|].
  apply (RorkHookRebindSymbolGlobally_covers (T := device) (L := sim_loader) [0x1000; 0x2000] busy_end).
  - apply race_loadable.
  - etrans; [apply busy_registering_steps|apply busy_end_steps].
  - apply busy_quiescent.
Defined.

Lemma RorkHookRebindSymbolGlobally_permanent_witness :
  published busy_end 0xa000 /\ rebinds busy_end !! 0xa000 = rebinds busy_registering !! 0xa000.
Proof.
  apply (RorkHookRebindSymbolGlobally_permanent (T := device) (L := sim_loader) [0x1000; 0x2000]
           busy_registering busy_end 0xa000).
  - apply race_loadable.
  - apply busy_registering_steps.
  - apply busy_end_steps.
  - apply busy_published.
Defined.

Lemma RorkHookRebindSymbolGlobally_registers_once_witness :
  registrations busy_end = 1%nat /\
  (registrations busy_end <= 1)%nat /\
  (quiescent busy_end -> forall e, published busy_end e -> registrations busy_end = 1%nat).
Proof.
  split; [by vm_compute|].
  apply (RorkHookRebindSymbolGlobally_registers_once (T := device) (L := sim_loader)
           [0x1000; 0x2000] busy_end).
  - apply race_loadable.
  - etrans; [apply busy_registering_steps|apply busy_end_steps].
Defined.

Lemma RorkHookRebindSymbolGlobally_progress_witness :
  exists p', rtc (step (T := device) (L := sim_loader)) busy_registering p' /\ quiescent p'.
Proof.
  apply (RorkHookRebindSymbolGlobally_progress (T := device) (L := sim_loader) [0x1000; 0x2000]
           busy_registering).
  - apply race_loadable.
  - apply busy_registering_steps.
Defined.

(** A filter that accepts the image of [got_machine] only. *)
Definition got_filters : Filters sim := {| call_filter := fun _ h => ret (h =? 0x4000) |}.
Definition got_rebind : RorkHookGlobalRebind := GlobalRebind 0x1000 0x20000 0x50000 0x7000 NULL.

Lemma RorkHookApplyRebind_spec_witness :
  result_of (RorkHookApplyRebind (T := device) (SD := got_sections) (F := got_filters)
    (Some got_rebind) 0x4000 got_machine) = Some tt /\
  wp (RorkHookApplyRebind (T := device) (SD := got_sections) (F := got_filters)
        (Some got_rebind) 0x4000) got_machine (fun _ σ' =>
    if participates (fun _ h => h =? 0x4000) got_rebind 0x4000
    then rebound (T := device) got_context
           (image_ready (T := device) (SD := got_sections) got_context got_machine)
           (image_slots (SD := got_sections) got_context got_machine) got_machine σ'
    else σ' = got_machine).
Proof.
  split; [by vm_compute|].
  apply (RorkHookApplyRebind_spec (T := device) (SD := got_sections) (F := got_filters)
           (fun _ h => h =? 0x4000) got_rebind 0x4000 got_machine).
  - reflexivity.
  - split; reflexivity || discriminate.
  - discriminate.
  - discriminate.
  - discriminate.
  - intros _. split; [apply got_layout|apply got_safe].
Defined.
