(* ===== verification/Threads.v ===== *)
(** Threads: C functions that other threads may interrupt.

    The monad of Machine.v runs a function as one step.  A [thread] is the same
    code with the points where it can be preempted made visible: a tree whose
    nodes are the actions the code performs without interruption, each a
    computation of the monad.  [run] forgets the preemption points, and
    [pool_step] interleaves the threads of a pool. *)
From S2P Require Import Prelude Machine Logic.

Inductive thread (K A : Type) : Type :=
| Return (a : A)
| Do {B : Type} (c : M K B) (next : B -> thread K A).
Arguments Return {K A} _.
Arguments Do {K A B} _ _.

Notation "'let!' x := c 'in' k" := (Do c (fun x => k))
  (at level 10, x pattern, c at level 100, k at level 200) : rork_scope.

Fixpoint thread_bind {K A B} (t : thread K A) (k : A -> thread K B) : thread K B :=
  match t with
  | Return a => k a
  | Do c next => Do c (fun b => thread_bind (next b) k)
  end.

(** The thread on its own. *)
Fixpoint run {K A} (t : thread K A) : M K A :=
  match t with
  | Return a => ret a
  | Do c next => let* b := c in run (next b)
  end.

(** The next action of a thread: it leads to the rest of the thread, is an access
    the MMU refuses, or exceeds a loop bound; a thread that has returned has none. *)
Inductive action (K A : Type) :=
| Acts (t : thread K A) (σ : machine K)
| Refused
| Diverges
| Ended.
Arguments Acts {K A} _ _.
Arguments Refused {K A}.
Arguments Diverges {K A}.
Arguments Ended {K A}.

Definition thread_action {K A} (t : thread K A) (σ : machine K) : action K A :=
  match t with
  | Return _ => Ended
  | Do c next =>
      match c σ with
      | Ret b σ' => Acts (next b) σ'
      | Fault => Refused
      | OutOfFuel => Diverges
      end
  end.

(** ** Pools

    A pool is a thread per index, whether each has its TPRO write window open, and
    the machine they share.  The kernel state holds the register of the thread that
    is running. *)

Record pool (K A : Type) := Pool {
  threads : nat -> thread K A;
  windows : nat -> bool;
  shared : machine K
}.
Arguments Pool {K A} _ _ _.
Arguments threads {K A} _ _.
Arguments windows {K A} _ _.
Arguments shared {K A} _.

Definition set_at {B : Type} (f : nat -> B) (i : nat) (b : B) : nat -> B :=
  fun j => if Nat.eqb j i then b else f j.

Section Pool.
Context {K A : Type} {Kern : Kernel K}.
Implicit Types σ : machine K.
Implicit Types t : thread K A.

(** The register shows the window of thread [i]. *)
Definition on_thread (p : pool K A) (i : nat) : Prop :=
  window_open (kern (shared p)) = windows p i.

(** A thread whose window the register shows performs its next action, or the
    processor changes to another thread, which changes at most the registers. *)
Inductive pool_step : pool K A -> pool K A -> Prop :=
| PoolAction ts ws i t' σ σ' :
    on_thread (Pool ts ws σ) i -> thread_action (ts i) σ = Acts t' σ' ->
    pool_step (Pool ts ws σ) (Pool (set_at ts i t') (set_at ws i (window_open (kern σ'))) σ')
| PoolSwitch ts ws σ k :
    same_process (kern σ) k -> same_prot (kern σ) k ->
    pool_step (Pool ts ws σ) (Pool ts ws (Machine k (mem σ) (log σ))).

Inductive pool_steps : pool K A -> pool K A -> Prop :=
| PoolDone p : pool_steps p p
| PoolStep p p1 p2 : pool_step p p1 -> pool_steps p1 p2 -> pool_steps p p2.

(** The running thread's next action is an access the MMU refuses. *)
Definition crashes (p : pool K A) : Prop :=
  exists i, on_thread p i /\ thread_action (threads p i) (shared p) = Refused.

(** The result of a thread that has returned. *)
Definition result (t : thread K A) : option A :=
  match t with Return a => Some a | _ => None end.

(** The actions of a schedule, named by thread; no registers are exchanged, so a
    thread goes on only where its window is as the register shows. *)
Fixpoint run_schedule (p : pool K A) (schedule : list nat) : option (pool K A) :=
  match schedule with
  | [] => Some p
  | i :: schedule =>
      if Bool.eqb (window_open (kern (shared p))) (windows p i) then
        match thread_action (threads p i) (shared p) with
        | Acts t' σ' =>
            run_schedule (Pool (set_at (threads p) i t')
                            (set_at (windows p) i (window_open (kern σ'))) σ') schedule
        | _ => None
        end
      else None
  end.

Lemma run_schedule_steps p schedule p' :
  run_schedule p schedule = Some p' -> pool_steps p p'.
Proof.
  revert p. induction schedule as [|i schedule IH]; intros [ts ws σ]; cbn [run_schedule].
  { intros [= <-]. constructor. }
  cbn [threads windows shared]. destruct (Bool.eqb _ _) eqn:Hw; [|done].
  apply Bool.eqb_prop in Hw.
  destruct (thread_action (ts i) σ) as [t' σ'| | |] eqn:Ha; [|done..].
  intros Hr. eapply PoolStep; [by apply PoolAction|]. by apply IH.
Qed.

Lemma run_schedule_others p schedule p' i :
  run_schedule p schedule = Some p' -> i ∉ schedule -> threads p' i = threads p i.
Proof.
  revert p. induction schedule as [|j schedule IH]; intros p; cbn [run_schedule].
  { by intros [= <-]. }
  destruct (Bool.eqb _ _); [|done].
  destruct (thread_action _ _) as [t' σ'| | |]; [|done..]. intros Hr Hi.
  apply not_elem_of_cons in Hi as [Hne Hi]. rewrite (IH _ Hr Hi). cbn [threads].
  unfold set_at. destruct (Nat.eqb_spec i j); congruence.
Qed.
End Pool.

(** ** Rely and guarantee

    [rg I G crash t w σ Q]: a thread that starts in [σ] with its window [w], among
    threads whose actions keep the invariant [I] and stay within the relation [G],
    keeps [I] and stays within [G] itself, never exceeds a loop bound, faults only
    if [crash], and returns with a window and in states that satisfy [Q], for as
    long as the others run. *)

Section RelyGuarantee.
Context {K : Type} {Kern : Kernel K}.
Context (I : machine K -> Prop) (G : machine K -> machine K -> Prop) `{!PreOrder G}.
Context (crash : Prop).
Implicit Types σ : machine K.

Fixpoint rg {A} (t : thread K A) (w : bool) σ (Q : A -> bool -> machine K -> Prop) : Prop :=
  match t with
  | Return a => forall σ1, G σ σ1 -> I σ1 -> Q a w σ1
  | Do c next =>
      forall σ1, G σ σ1 -> I σ1 -> window_open (kern σ1) = w ->
      match c σ1 with
      | Ret b σ2 => G σ1 σ2 /\ I σ2 /\ rg (next b) (window_open (kern σ2)) σ2 Q
      | Fault => crash
      | OutOfFuel => False
      end
  end.

(** What holds of a thread now holds of it after the others have run. *)
Lemma rg_later {A} (t : thread K A) w σ σ1 Q : G σ σ1 -> rg t w σ Q -> rg t w σ1 Q.
Proof using PreOrder0.
  destruct t as [a|B c next]; cbn [rg]; intros H1 Ht σ2 H2; apply Ht; by etrans.
Qed.

Lemma rg_mono {A} (t : thread K A) w σ (Q Q' : A -> bool -> machine K -> Prop) :
  (forall a w1 σ1, G σ σ1 -> I σ1 -> Q a w1 σ1 -> Q' a w1 σ1) -> rg t w σ Q -> rg t w σ Q'.
Proof using PreOrder0.
  revert w σ. induction t as [a|B c next IH]; intros w σ HQ; cbn [rg].
  - intros Ht σ1 H1 HI. apply HQ; [done..|]. by apply Ht.
  - intros Ht σ1 H1 HI Hw. specialize (Ht σ1 H1 HI Hw). destruct (c σ1) as [b σ2| |]; [|done..].
    destruct Ht as (HG & HI2 & Ht). split_and!; [done..|]. apply IH; [|done].
    intros a w1 σ3 H3. apply HQ. by do 2 (etrans; [eassumption|]).
Qed.

Lemma rg_bind {A B} (t : thread K A) (k : A -> thread K B) w σ Q :
  rg t w σ (fun a w1 σ1 => rg (k a) w1 σ1 Q) -> I σ -> rg (thread_bind t k) w σ Q.
Proof using PreOrder0.
  revert w σ. induction t as [a|C c next IH]; intros w σ; cbn [rg thread_bind].
  - intros Ht HI. by apply Ht.
  - intros Ht _ σ1 H1 HI Hw. specialize (Ht σ1 H1 HI Hw).
    destruct (c σ1) as [b σ2| |]; [|done..].
    destruct Ht as (HG & HI2 & Ht). split_and!; [done..|]. by apply IH.
Qed.

(** An action that returns. *)
Lemma rg_do {A B} (c : M K B) (next : B -> thread K A) w σ Q :
  (forall σ1, G σ σ1 -> I σ1 -> window_open (kern σ1) = w ->
     exists b σ2, c σ1 = Ret b σ2 /\ G σ1 σ2 /\ I σ2 /\
       rg (next b) (window_open (kern σ2)) σ2 Q) ->
  rg (Do c next) w σ Q.
Proof.
  cbn [rg]. intros Ht σ1 H1 HI Hw. by destruct (Ht σ1 H1 HI Hw) as (b & σ2 & -> & H).
Qed.

(** An action that keeps the thread's window. *)
Lemma rg_keep {A B} (c : M K B) (next : B -> thread K A) w σ Q :
  (forall σ1, G σ σ1 -> I σ1 -> window_open (kern σ1) = w ->
     exists b σ2, c σ1 = Ret b σ2 /\ G σ1 σ2 /\ I σ2 /\
       window_open (kern σ2) = window_open (kern σ1) /\ rg (next b) w σ2 Q) ->
  rg (Do c next) w σ Q.
Proof.
  intros Ht. apply rg_do. intros σ1 H1 HI Hw.
  destruct (Ht σ1 H1 HI Hw) as (b & σ2 & Hc & HG & HI2 & Hw2 & HN).
  exists b, σ2. split_and!; [done..|]. by rewrite Hw2, Hw.
Qed.

(** An action that only looks. *)
Lemma rg_look {A B} (c : M K B) (next : B -> thread K A) w σ Q (f : machine K -> B) :
  (forall σ1, I σ1 -> c σ1 = Ret (f σ1) σ1) ->
  (forall σ1, G σ σ1 -> I σ1 -> rg (next (f σ1)) w σ1 Q) -> rg (Do c next) w σ Q.
Proof using PreOrder0.
  intros Hc Ht. apply rg_keep. intros σ1 H1 HI _. exists (f σ1), σ1.
  split_and!; [by apply Hc|reflexivity|done|done|]. by apply Ht.
Qed.

(** *** Pools *)

Context (Hswitch : forall σ k, same_process (kern σ) k -> same_prot (kern σ) k -> I σ ->
  G σ (Machine k (mem σ) (log σ)) /\ I (Machine k (mem σ) (log σ))).

Lemma pool_sound {A} (Q : nat -> A -> bool -> machine K -> Prop) (p p' : pool K A) :
  (forall i, rg (threads p i) (windows p i) (shared p) (Q i)) -> I (shared p) ->
  pool_steps p p' ->
  (forall i, rg (threads p' i) (windows p' i) (shared p') (Q i)) /\ I (shared p').
Proof using PreOrder0 Hswitch.
  intros Hts HI Hs. induction Hs as [|p p1 p2 Hstep Hs IH]; [done|].
  destruct Hstep as [ts ws i t' σ σ' Hw Ha|ts ws σ k Hpr Hprot];
    cbn [threads windows shared] in *.
  - unfold on_thread in Hw. cbn [windows shared] in Hw.
    assert (G σ σ' /\ I σ' /\ rg t' (window_open (kern σ')) σ' (Q i)) as (HG & HI' & Ht').
    { specialize (Hts i). unfold thread_action in Ha. destruct (ts i) as [|B c next]; [done|].
      specialize (Hts σ (reflexivity σ) HI Hw). destruct (c σ) as [b σ1| |]; [|done..].
      by injection Ha as <- <-. }
    apply IH; [|done]. intros j. unfold set_at.
    destruct (Nat.eqb_spec j i) as [->|]; [done|]. by eapply rg_later.
  - destruct (Hswitch σ k Hpr Hprot HI) as [HG HI'].
    apply IH; [|done]. intros i. by eapply rg_later.
Qed.

(** What a pool of such threads can be in the middle of. *)
Lemma rg_action {A} (t : thread K A) w σ Q :
  rg t w σ Q -> I σ ->
  (window_open (kern σ) = w ->
     (thread_action t σ = Refused -> crash) /\ thread_action t σ <> Diverges) /\
  (forall a, result t = Some a -> Q a w σ).
Proof using PreOrder0.
  intros Ht HI. destruct t as [a|B c next]; cbn [rg thread_action result] in *.
  - split; [done|]. intros ? [= <-]. by apply Ht.
  - split; [|done]. intros Hw. specialize (Ht σ (reflexivity σ) HI Hw). by destruct (c σ).
Qed.
End RelyGuarantee.

(** *** Running alone *)

Section Run.
Context {K : Type}.

Lemma bind_ext {A B} (c c' : M K A) (k k' : A -> M K B) σ :
  c σ = c' σ -> (forall a σ', k a σ' = k' a σ') -> bind c k σ = bind c' k' σ.
Proof. intros Hc Hk. unfold bind. rewrite Hc. by destruct (c' σ). Qed.

Lemma run_bind {A B} (t : thread K A) (k : A -> thread K B) σ :
  run (thread_bind t k) σ = bind (run t) (fun a => run (k a)) σ.
Proof.
  revert σ. induction t as [a|C c next IH]; intros σ; cbn [thread_bind run]; [done|].
  unfold bind. destruct (c σ) as [b σ'| |]; [|done..]. apply IH.
Qed.
End Run.
