(* ===== verification/Concurrent.v ===== *)
(** Concurrent rebinding: RorkHookStoreProtectedPointer and RorkHookRebindSection, from
    the checks of its data on, with the points where other threads interleave.

    Two calls of RorkHookRebindSymbolGlobally, or one call and dyld's callback, may
    rewrite slots of the same image, and of the same page, at the same time.  The
    code takes no lock around a store, so its actions interleave. *)
From S2P Require Import Prelude Machine Logic Sim CString Regions Memory Rebind Threads.

Section Code.
Context {K : Type} {T : Target} {Kern : Kernel K}.
Implicit Types σ : machine K.

(** ** The code, with its preemption points

    A region query and a system call are actions, and so are the eight-byte store
    to a slot, the eight-byte load from it, and what a thread does to its own
    write window. *)

Definition restore_thread (firstPage lastPage pageSize : Z) (spansPages : bool)
    (firstProtection lastProtection : Z) : thread K bool :=
  let! firstResult := RorkHookProtectMemory firstPage pageSize firstProtection in
  let! lastResult :=
    if spansPages then RorkHookProtectMemory lastPage pageSize lastProtection
    else ret KERN_SUCCESS in
  Return ((firstResult =? KERN_SUCCESS) && (lastResult =? KERN_SUCCESS)).

Definition transaction_thread (slot value protection firstPage lastPage protectSize : Z)
    (spansPages : bool) (firstOriginalProtection lastOriginalProtection : Z) : thread K bool :=
  let pageSize := vm_page_size in
  let slotSize := 8 in
  let! result := RorkHookProtectMemory firstPage protectSize protection in
  let! supportsTPRO := RorkHookSupportsTPRO in
  let! (tproWindowOpened, restoreReadOnly) :=
    if supportsTPRO : bool then RorkHookAllowTPROWrites (Some None) else ret (false, Some None) in
  let writeCompleted :=
    RorkHookProtectedPointerWriteIsAvailable result supportsTPRO tproWindowOpened in
  let! _ := if writeCompleted then store_bytes slot (le_split 8 value) else ret tt in
  let! _ := if writeCompleted then sys_dcache_flush slot slotSize else ret tt in
  let! _ := match restoreReadOnly with
            | Some (Some restore) => restore
            | _ => ret tt
            end in
  if negb (result =? KERN_SUCCESS) then Return writeCompleted else
  thread_bind
    (restore_thread firstPage lastPage pageSize spansPages
       firstOriginalProtection lastOriginalProtection)
    (fun protectionsRestored => Return (writeCompleted && protectionsRestored)).

Definition store_thread (slot value protection : Z) : thread K bool :=
  if (slot =? NULL) || negb (prot_has protection VM_PROT_WRITE) then Return false else
  let pageSize := vm_page_size in
  if (pageSize =? 0) || negb (Z.land pageSize (u64 (pageSize - 1)) =? 0)
  then Return false else
  let slotSize := 8 in
  let slotStart := slot in
  let slotEnd := u64 (slotStart + slotSize - 1) in
  if slotEnd <? slotStart then Return false else
  let pageMask := u64 (pageSize - 1) in
  let firstPage := Z.land slotStart (u64 (Z.lnot pageMask)) in
  let lastPage := Z.land slotEnd (u64 (Z.lnot pageMask)) in
  let spansPages := negb (firstPage =? lastPage) in
  let protectSize := u64 (u64 (lastPage - firstPage) + pageSize) in
  let firstPageBytes := if spansPages then u64 (lastPage - slotStart) else slotSize in
  let lastPageBytes := u64 (slotSize - firstPageBytes) in
  let! firstReadable := RorkHookMemoryIsReadable slot firstPageBytes in
  if negb firstReadable then Return false else
  let! lastReadable :=
    if spansPages then RorkHookMemoryIsReadable lastPage lastPageBytes else ret true in
  if negb lastReadable then Return false else
  let! (firstFound, firstOriginalProtection) := RorkHookMemoryProtection firstPage (Some 0) in
  if negb firstFound then Return false else
  let! (lastFound, lastOriginalProtection) :=
    if spansPages then RorkHookMemoryProtection lastPage (Some 0) else ret (true, Some 0) in
  if negb lastFound then Return false else
  let firstOriginalProtection := default 0 firstOriginalProtection in
  let lastOriginalProtection :=
    if spansPages then default 0 lastOriginalProtection else firstOriginalProtection in
  transaction_thread slot value protection firstPage lastPage protectSize spansPages
    firstOriginalProtection lastOriginalProtection.

(** The slot loop of a section: [n] slots from [index] on. *)
Fixpoint rebind_thread (context : RorkHookRebindImageContext) (slots : Z) (authenticated : bool)
    (n : nat) (index : Z) : thread K unit :=
  match n with
  | O => Return tt
  | S n =>
      let next := rebind_thread context slots authenticated n (u64 (index + 1)) in
      let slot := slots + 8 * index in
      let! current := load_u64 slot in
      if current =? NULL then next else
      if negb (RorkHookStripPointer current =? replaceeRaw context) then next else
      let finalValue := final_value context authenticated slot in
      thread_bind (store_thread slot finalValue (Z.lor (Z.lor VM_PROT_READ VM_PROT_WRITE) VM_PROT_COPY))
        (fun _ => next)
  end.

(** RorkHookRebindSection once it knows its data: the checks of the whole section, of
    which the region query is an action, and the slot loop. *)
Definition section_thread (context : RorkHookRebindImageContext) (slots sectionSize : Z)
    (authenticated : bool) : thread K unit :=
  let slotCount := sectionSize / 8 in
  if (slots =? NULL) || (slotCount =? 0) || negb (sectionSize mod 8 =? 0) then Return tt else
  let! readable := RorkHookMemoryIsReadable slots sectionSize in
  if negb readable then Return tt else
  rebind_thread context slots authenticated (Z.to_nat slotCount) 0.

(** *** On its own, the thread is the function *)

Lemma bind_assoc {A B C} (c : M K A) (k : A -> M K B) (h : B -> M K C) σ :
  bind (bind c k) h σ = bind c (fun a => bind (k a) h) σ.
Proof. unfold bind. by destruct (c σ). Qed.

Lemma run_do {A B} (c : M K B) (next : B -> thread K A) :
  run (Do c next) = bind c (fun b => run (next b)).
Proof. done. Qed.

Lemma transaction_thread_run slot value protection fp lp size spans p1 p2 σ :
  run (transaction_thread slot value protection fp lp size spans p1 p2) σ =
  store_transaction slot value protection fp lp size spans p1 p2 σ.
Proof.
  unfold transaction_thread, store_transaction. cbv zeta. rewrite run_do.
  apply bind_ext; [done|]. intros result σ1. rewrite run_do.
  apply bind_ext; [done|]. intros supports σ2. rewrite run_do.
  apply bind_ext; [done|]. intros [opened restore] σ3. rewrite run_do.
  set (avail := RorkHookProtectedPointerWriteIsAvailable _ _ _).
  set (close := match restore with Some _ => _ | None => _ end).
  set (finish := fun _ : unit => if negb _ then ret avail else _).
  assert (forall σ, run (if negb (result =? KERN_SUCCESS) then Return avail else
      thread_bind (restore_thread fp lp vm_page_size spans p1 p2)
        (fun restored => Return (avail && restored))) σ = finish tt σ) as Hend.
  { intros σ'. unfold finish. destruct (negb _); [done|]. by rewrite run_bind. }
  destruct avail; [rewrite bind_assoc; apply bind_ext; [done|]; intros [] σ4|].
  - rewrite run_do. apply bind_ext; [done|]. intros [] σ5. rewrite run_do.
    apply bind_ext; [done|]. intros []. apply Hend.
  - apply bind_ext; [done|]. intros [] σ4. rewrite run_do, (bind_Ret (ret tt) _ _ tt _ eq_refl).
    rewrite run_do. apply bind_ext; [done|]. intros []. apply Hend.
Qed.

Lemma store_thread_run slot value protection σ :
  run (store_thread slot value protection) σ = RorkHookStoreProtectedPointer slot value protection σ.
Proof.
  unfold store_thread, RorkHookStoreProtectedPointer. cbv zeta.
  destruct ((slot =? NULL) || _); [done|]. destruct ((vm_page_size =? 0) || _); [done|].
  destruct (_ <? slot); [done|].
  rewrite run_do. unfold or_else. rewrite !bind_assoc.
  apply bind_ext; [done|]. intros r1 σ1. rewrite (bind_Ret (ret _) _ _ _ _ eq_refl).
  destruct r1; cbn [negb]; [|done]. rewrite run_do.
  set (spans := negb (_ =? _)).
  assert (forall (h : bool -> M K bool) σ,
    bind (if spans then let* r := RorkHookMemoryIsReadable
        (Z.land (u64 (slot + 8 - 1)) (u64 (Z.lnot (u64 (vm_page_size - 1)))))
        (u64 (8 - (if spans then u64 (Z.land (u64 (slot + 8 - 1)) (u64 (Z.lnot (u64 (vm_page_size - 1)))) - slot) else 8))) in ret (negb r)
      else ret false) h σ =
    bind (if spans then RorkHookMemoryIsReadable
        (Z.land (u64 (slot + 8 - 1)) (u64 (Z.lnot (u64 (vm_page_size - 1)))))
        (u64 (8 - (if spans then u64 (Z.land (u64 (slot + 8 - 1)) (u64 (Z.lnot (u64 (vm_page_size - 1)))) - slot) else 8)))
      else ret true) (fun r => h (negb r)) σ) as Hs.
  { intros h σ2. destruct spans; [by rewrite bind_assoc|done]. }
  rewrite Hs. apply bind_ext; [done|]. intros r2 σ2. destruct r2; cbn [negb]; [|done].
  rewrite run_do. apply bind_ext; [done|]. intros [found1 p1] σ3. destruct found1; [|done].
  cbn [negb]. rewrite run_do. apply bind_ext; [done|]. intros [found2 p2] σ4.
  destruct found2; [|done]. apply transaction_thread_run.
Qed.

Lemma rebind_thread_loopN context slots authenticated n index m σ :
  0 <= index -> index + Z.of_nat n < 2 ^ 64 -> (n < m)%nat ->
  run (rebind_thread context slots authenticated n index) σ =
  loopN m (rebind_step context slots (index + Z.of_nat n) authenticated) index σ.
Proof.
  revert index m σ. induction n as [|n IH]; intros index m σ Hi Hb Hm.
  - destruct m as [|m]; [lia|]. rewrite loopN_S. unfold rebind_step.
    by replace (index <? index + Z.of_nat 0) with false by lia.
  - destruct m as [|m]; [lia|]. rewrite loopN_S. unfold rebind_step at 1.
    replace (index <? index + Z.of_nat (S n)) with true by lia. cbn [negb rebind_thread].
    assert (u64 (index + 1) = index + 1) as -> by (apply u64_small; unfold is_u64; lia).
    replace (index + Z.of_nat (S n)) with (index + 1 + Z.of_nat n) by lia.
    assert (forall σ, run (rebind_thread context slots authenticated n (index + 1)) σ =
      loopN m (rebind_step context slots (index + 1 + Z.of_nat n) authenticated) (index + 1) σ)
      as Hnext by (intros; apply IH; lia).
    rewrite run_do, bind_assoc. apply bind_ext; [done|]. intros current σ1.
    destruct (current =? NULL); [apply Hnext|].
    destruct (negb (_ =? _)); [apply Hnext|].
    rewrite run_bind, bind_assoc. apply bind_ext; [apply store_thread_run|].
    intros ok σ2. apply Hnext.
Qed.

Lemma rebind_thread_run context slots authenticated n σ :
  Z.of_nat n < 2 ^ 64 ->
  run (rebind_thread context slots authenticated n 0) σ =
  loopM FUEL64 (rebind_step context slots (Z.of_nat n) authenticated) 0 σ.
Proof.
  intros Hn. rewrite loopM_loopN. apply rebind_thread_loopN; [lia|done|].
  unfold FUEL64. lia.
Qed.
End Code.

(** ** The shared invariant *)

(** One call's work on one section: what it rebinds, and the section's data. *)
Record job := Job {
  job_context : RorkHookRebindImageContext;
  job_slots : Z;
  job_size : Z;
  job_authenticated : bool
}.

(** The data are a table of slots. *)
Definition job_usable (j : job) : bool :=
  negb ((job_slots j =? NULL) || (job_size j / 8 =? 0) || negb (job_size j mod 8 =? 0)).

Section SectionJob.
Context {K : Type} {T : Target} {Kern : Kernel K} {SD : SectionData}.
Implicit Types σ : machine K.

Definition thread_of (j : job) : thread K unit :=
  section_thread (job_context j) (job_slots j) (job_size j) (job_authenticated j).

(** The job of the section record at [section]. *)
Definition section_job (context : RorkHookRebindImageContext) σ (section : Z) : job :=
  let '(slots, size) := section_data context σ section in
  Job context slots size (bool_decide (section_name σ section = auth_got)).

(** Run without interruption, the thread of a section's job is the function. *)
Lemma section_job_run {Laws : KernelLaws K} context section σ :
  section <> NULL -> range_readable σ section 32 -> section_fits context σ section ->
  RorkHookRebindSection (Some context) section σ = run (thread_of (section_job context σ section)) σ.
Proof.
  intros Hs Hr Hfit. unfold RorkHookRebindSection, section_job, section_fits in *.
  replace (section =? NULL) with false by lia.
  erewrite bind_Ret by (apply load_bytes_ok; eapply range_readable_sub; [exact Hr|lia|lia]).
  erewrite bind_Ret by (apply load_bytes_ok; eapply range_readable_sub; [exact Hr|lia|lia]).
  rewrite !copied_name, !until_nul_app_nul.
  change (getsectiondata _ _ _) with (section_data context σ section).
  unfold strcmp_eq. rewrite !until_nul_app_nul.
  change (until_nul auth_got) with auth_got.
  change (until_nul (peeks σ section 16)) with (section_name σ section).
  destruct (section_data context σ section) as [slots size]. destruct Hfit as (H0 & H1 & H2).
  erewrite bind_Ret by by apply unusable_eq. unfold thread_of, section_thread.
  cbn [job_context job_slots job_authenticated job_size]. unfold is_u64 in H0.
  destruct ((slots =? NULL) || _ || _); [done|]. cbn [orb run].
  erewrite bind_Ret by by apply RorkHookMemoryIsReadable_eq.
  destruct (memory_is_readable _ _ _); [cbn [negb]|done].
  assert (0 <= size / 8) by (apply Z.div_pos; lia).
  pose proof (Z.div_mod size 8). pose proof (Z.mod_pos_bound size 8).
  rewrite rebind_thread_run by lia. by rewrite Z2Nat.id.
Qed.
End SectionJob.

Section Jobs.
Context {K : Type} {T : Target} {Kern : Kernel K}.
Context (jobs : nat -> option job).
Implicit Types σ : machine K.

Definition job_thread (i : nat) : thread K unit :=
  match jobs i with Some j => thread_of j | None => Return tt end.

Definition job_pointers (j : job) : list (Z * bool) :=
  if job_usable j then section_slots (job_slots j) (job_size j / 8) (job_authenticated j) else [].

Definition participates (context : RorkHookRebindImageContext) : Prop :=
  exists i j, jobs i = Some j /\ job_context j = context.
Definition shared_slot (s : Z * bool) : Prop :=
  exists i j, jobs i = Some j /\ s ∈ job_pointers j.

(** [x] lies in a page of a slot. *)
Definition slot_page (x : Z) : Prop :=
  exists s, shared_slot s /\ in_pages (fst s) 8 x = true.

(** The values a slot can come to hold: its own, and the value of a call whose
    replacee some such value resolves to. *)
Inductive rewrites (s : Z * bool) (v : Z) : Z -> Prop :=
| RewritesOwn : rewrites s v v
| RewritesBy context w :
    participates context -> rewrites s v w -> matches context w = true ->
    rewrites s v (u64 (final_value context (snd s) (fst s))).

(** No call puts back what [context] replaces. *)
Definition keeps_out (context : RorkHookRebindImageContext) : Prop :=
  forall context', participates context' ->
    RorkHookStripPointer (rebind_replacement context') <> replaceeRaw context.

(** Whatever the interleaving: protections are the page's own or read-write, no
    byte outside the slots changed, and each slot holds a value it can come to hold. *)
Record interleaved σ0 σ : Prop := {
  il_process : same_process (kern σ0) (kern σ);
  il_log : exists new, log σ = new ++ log σ0;
  il_prot x : prot_at (kern σ) x = prot_at (kern σ0) x \/
    slot_page x /\ prot_at (kern σ) x = Some (Z.land REBIND_PROTECTION 7);
  il_frame x : ~ (exists s, shared_slot s /\ slot_covers s x) -> peek σ x = peek σ0 x;
  il_slot s : shared_slot s -> rewrites s (peek_u64 σ0 (fst s)) (peek_u64 σ (fst s))
}.

(** What a step may not undo: a slot that does not resolve to a replacee no call
    puts back. *)
Record settles σ σ' : Prop := {
  st_log : exists new, log σ' = new ++ log σ;
  st_slot s context : shared_slot s -> participates context -> keeps_out context ->
    matches context (peek_u64 σ (fst s)) = false ->
    matches context (peek_u64 σ' (fst s)) = false
}.

#[export] Instance settles_preorder : PreOrder settles.
Proof.
  split.
  - intros σ. split; [by exists []|done].
  - intros σ1 σ2 σ3 [L1 S1] [L2 S2]. split; [by eapply log_grows_trans|]. auto.
Qed.

(** The jobs are well formed: their data lie in the address space, their slots are
    readable, are the same slot or share no byte, and their replacements are
    pointers. *)
Record jobs_ok σ0 : Prop := {
  jo_fits i j : jobs i = Some j ->
    is_u64 (job_slots j) /\ 0 <= job_size j /\ job_slots j + job_size j <= 2 ^ 64;
  jo_pointer context : participates context -> is_u64 (rebind_replacement context);
  jo_apart s t : shared_slot s -> shared_slot t -> s = t \/ apart s t;
  jo_readable s x : shared_slot s -> slot_covers s x -> readable σ0 x = true
}.

(** Every page of a slot is read-write already. *)
Definition already_writable σ0 : Prop :=
  forall x, slot_page x -> prot_at (kern σ0) x = Some (Z.land REBIND_PROTECTION 7).

(** Each byte of a slot is guarded by TPRO, or in a page that is read-write already. *)
Definition stores_allowed σ0 : Prop :=
  forall s x, shared_slot s -> slot_covers s x ->
    tpro_gated (kern σ0) x = true \/ prot_at (kern σ0) x = Some (Z.land REBIND_PROTECTION 7).

(** Every check succeeds, whichever pages of the slots are read-write: that of a whole
    section, so that the kernel reports it as one readable region even while a store
    has one of its pages read-write, and those of the store to each slot. *)
Definition always_ready σ0 : Prop :=
  forall k, same_process (kern σ0) k ->
    (forall x, prot_at k x = prot_at (kern σ0) x \/
       slot_page x /\ prot_at k x = Some (Z.land REBIND_PROTECTION 7)) ->
    (forall i j, jobs i = Some j -> job_usable j = true ->
       memory_is_readable k (job_slots j) (job_size j) = true) /\
    (forall s, shared_slot s -> store_ready k (fst s) REBIND_PROTECTION = true).

(** Where the hardware has TPRO, the advertised value opens the window. *)
Definition window_works σ0 : Prop :=
  RORK_HOOK_DEVICE_ARM64 && hardware_tpro (kern σ0) = true -> window_opens (kern σ0) = true.
End Jobs.

(** ** Every action keeps the invariant *)

Section Actions.
Context {K : Type} {T : Target} {Kern : Kernel K}.
Context {Laws : KernelLaws K} {TLaws : TPROLaws K} {ALaws : PointerAuthLaws T}.
Context (jobs : nat -> option job) (σ0 : machine K) (Hok : jobs_ok jobs σ0).
Implicit Types σ : machine K.

#[local] Abbreviation inv := (interleaved jobs σ0).
#[local] Abbreviation step := (settles jobs).
#[local] Abbreviation RW := (Z.land REBIND_PROTECTION 7).

Lemma elem_of_job_pointers j s :
  s ∈ job_pointers j <-> job_usable j = true /\
    exists i, 0 <= i < job_size j / 8 /\ s = (job_slots j + 8 * i, job_authenticated j).
Proof using.
  unfold job_pointers. destruct (job_usable j); [rewrite elem_of_section_slots; tauto|].
  rewrite elem_of_nil. split; [done|by intros [? _]].
Qed.

Lemma job_fits i j :
  jobs i = Some j -> job_usable j = true ->
  0 < job_slots j /\ 0 < job_size j / 8 /\ job_slots j + 8 * (job_size j / 8) <= 2 ^ 64.
Proof using Hok.
  intros Hj Hu. destruct (jo_fits _ _ Hok i j Hj) as (H0 & H1 & H2).
  unfold job_usable, NULL, is_u64 in *. pose proof (Z.div_mod (job_size j) 8).
  pose proof (Z.mod_pos_bound (job_size j) 8). lia.
Qed.

Lemma shared_slot_bounds s : shared_slot jobs s -> 0 < fst s /\ fst s + 8 <= 2 ^ 64.
Proof using Hok.
  intros (i & j & Hj & (Hu & n & Hn & ->)%elem_of_job_pointers).
  destruct (job_fits i j Hj Hu). cbn [fst]. lia.
Qed.

(** A move that keeps memory. *)
Lemma keep_memory σ σ' :
  inv σ -> same_process (kern σ) (kern σ') -> mem σ' = mem σ ->
  (exists new, log σ' = new ++ log σ) ->
  (forall x, prot_at (kern σ') x = prot_at (kern σ) x \/
     slot_page jobs x /\
     (prot_at (kern σ') x = Some RW \/ prot_at (kern σ') x = prot_at (kern σ0) x)) ->
  step σ σ' /\ inv σ'.
Proof using.
  intros [P L A F S] Hp Hm Hl Ha.
  assert (forall x, peek σ' x = peek σ x) as Hpk by (intros x; unfold peek; by rewrite Hm).
  assert (forall x, peek_u64 σ' x = peek_u64 σ x) as Hpk8 by (intros; by apply peek_u64_frame).
  split; split.
  - done.
  - intros s c _ _ _ Hs. by rewrite Hpk8.
  - by eapply same_process_trans.
  - by eapply log_grows_trans.
  - intros x. destruct (Ha x) as [->|(Hx & [E|E])]; [apply A|by right|by left].
  - intros x Hx. rewrite Hpk. by apply F.
  - intros s Hs. rewrite Hpk8. by apply S.
Qed.

Lemma keep_steady σ σ' : inv σ -> steady σ σ' -> step σ σ' /\ inv σ'.
Proof using. intros HI [M P S L]. apply keep_memory; try done. by left. Qed.

Lemma keep_switch σ k :
  same_process (kern σ) k -> same_prot (kern σ) k -> inv σ ->
  step σ (Machine k (mem σ) (log σ)) /\ inv (Machine k (mem σ) (log σ)).
Proof using.
  intros Hp Hs HI. apply keep_memory; try done; [by exists []|by left].
Qed.

(** A protection change of pages of a slot, to what they were or to read-write. *)
Lemma keep_protect σ s start size prot :
  inv σ -> shared_slot jobs s -> 0 < start -> 0 < size -> start + size <= 2 ^ 64 ->
  (forall x, in_pages start size x = true -> in_pages (fst s) 8 x = true /\
     (Z.land prot 7 = RW \/ prot_at (kern σ0) x = Some (Z.land prot 7))) ->
  exists r σ', RorkHookProtectMemory start size prot σ = Ret r σ' /\ step σ σ' /\ inv σ' /\
    window_open (kern σ') = window_open (kern σ) /\ (r <> KERN_SUCCESS -> refused σ0 σ').
Proof using Laws.
  intros HI Hs H0 H1 H2 Hin.
  destruct (RorkHookProtectMemory_spec σ start size prot H0 H1 H2)
    as (r & k & _ & E & P & W & Ok & No).
  exists r, (Machine k (mem σ) (EvProtect start size prot r :: log σ)). split; [done|].
  assert (step σ (Machine k (mem σ) (EvProtect start size prot r :: log σ)) /\
          inv (Machine k (mem σ) (EvProtect start size prot r :: log σ))) as [HG HI'].
  { apply keep_memory; try done; [by exists [EvProtect start size prot r]|]. intros x.
    cbn [kern]. destruct (Z.eq_dec r KERN_SUCCESS) as [Hr|Hr]; [|left; by apply No].
    rewrite (Ok Hr). destruct (in_pages start size x) eqn:Hx; [right|by left].
    destruct (Hin x Hx) as [Hp Hv]. split; [by exists s|].
    destruct Hv as [->| ->]; [by left|by right]. }
  split_and!; [done|done|done|]. intros Hr. destruct (il_log _ _ _ HI) as [new Hl].
  exists (EvProtect start size prot r :: new), start, size, prot, r.
  split_and!; [cbn [log]; by rewrite Hl|apply list_elem_of_here|done].
Qed.

(** The slot's pages: in them, and what a protection found there may be. *)
Definition found (page p : Z) : Prop := prot_at (kern σ0) page = Some p \/ p = RW.

Lemma found_in_page page p x :
  page mod vm_page_size = 0 -> found page p -> page <= x < page + vm_page_size ->
  Z.land p 7 = RW \/ prot_at (kern σ0) x = Some (Z.land p 7).
Proof using Laws.
  intros Hm [Hp| ->] Hx; [|by left]. right. rewrite (prot_land7 (kern σ0) page) by done.
  by eapply prot_at_in_page.
Qed.

Lemma found_region σ page r : inv σ -> region_at (kern σ) page = Some r ->
  found page (region_protection r).
Proof using Laws.
  intros HI (? & ? & _ & Hp)%region_at_sound. specialize (Hp page ltac:(lia)).
  unfold found. destruct (il_prot _ _ _ HI page) as [E|[_ E]]; rewrite Hp in E;
    [by left|right; congruence].
Qed.

Lemma slot_in_pages (s : Z * bool) x :
  0 < fst s -> fst s + 8 <= 2 ^ 64 ->
  in_pages (fst s) 8 x =
  (first_page (fst s) <=? x) && (x <? last_page (fst s) + vm_page_size).
Proof using. intros _ _. unfold in_pages, first_page, last_page. do 4 f_equal. lia. Qed.

Lemma page_in_pages page x : page mod vm_page_size = 0 ->
  in_pages page vm_page_size x = true -> page <= x < page + vm_page_size.
Proof using Laws.
  intros Hm. pose proof (in_pages_aligned page page x Hm Hm ltac:(lia)) as E.
  rewrite Z.sub_diag, Z.add_0_l in E. rewrite E. lia.
Qed.

(** *** The window *)

Lemma supported_works σ :
  inv σ -> uses_tpro (kern σ) = true -> window_works σ0 -> forall σ', inv σ' ->
  uses_tpro (kern σ') = true /\ window_opens (kern σ') = true.
Proof using TLaws.
  intros HI Hu Hw σ' HI'. pose proof (il_process _ _ _ HI) as P.
  pose proof (il_process _ _ _ HI') as P'.
  unfold window_works in Hw. unfold uses_tpro in *.
  rewrite (hardware_tpro_stable _ _ P) in Hu. rewrite (hardware_tpro_stable _ _ P').
  rewrite (window_opens_stable _ _ P'). destruct P as (_ & _ & C), P' as (_ & _ & C').
  rewrite C in Hu. rewrite C'. destruct RORK_HOOK_DEVICE_ARM64, (hardware_tpro (kern σ0)); try done.
  rewrite (Hw eq_refl). split; [|done]. destruct known_configuration; [done|apply orb_true_r].
Qed.

(** How a thread's window [w] is put back at the end: it is as it was, or it was
    closed, is open, and the process will be known to use TPRO while it is. *)
Definition closes (w w1 : bool) (restore : option (M K unit)) : Prop :=
  (restore = None /\ w1 = w) \/
  (restore = Some RorkHookEndThreadTPROWrite /\ w = false /\ w1 = true /\
   forall σ, inv σ -> window_open (kern σ) = true -> uses_tpro (kern σ) = true).

(** Opening the window, at [σ'], after the process was asked at [σ]. *)
Lemma window_action σ σ' :
  inv σ -> inv σ' -> let supported := uses_tpro (kern σ) in
  exists opened restore σ2,
    (if supported then RorkHookAllowTPROWrites (Some None) else ret (false, Some None)) σ' =
      Ret (opened, Some restore) σ2 /\ steady σ' σ2 /\
    closes (window_open (kern σ')) (window_open (kern σ2)) restore /\
    (opened = true -> window_open (kern σ2) = true) /\
    (supported = true -> opened = false -> ~ window_works σ0).
Proof using Laws TLaws.
  intros HI HI' supported. unfold supported, closes. destruct (uses_tpro (kern σ)) eqn:Hu.
  2:{ exists false, None, σ'. split_and!; [done|reflexivity|by left|done|done]. }
  destruct (RorkHookAllowTPROWrites_spec σ' None) as (σ2 & o & re & E & St & Ho & Hcase).
  exists o, re, σ2. split_and!; [done|done| | |].
  - destruct Hcase as [(_ & -> & ?)|[(_ & -> & ? & ?)|(_ & -> & Hu2 & ? & ?)]];
      [left; split; congruence..|right]. split_and!; [done|done|done|].
    intros σ3 HI3 Hw3. eapply (uses_tpro_open (kern σ2)); [|done|done].
    eapply same_process_trans; [|apply HI3]. apply same_process_sym.
    eapply same_process_trans; [apply HI'|apply St].
  - by destruct Hcase as [(-> & _)|[(_ & _ & _ & ?)|(_ & _ & _ & _ & ?)]].
  - intros _ -> Hw. destruct (supported_works σ HI Hu Hw σ' HI') as [H1 H2].
    by rewrite H1, H2, orb_true_r in Ho.
Qed.

(** Where the store goes ahead and TPRO guards some page, the window is open. *)
Lemma gated_opened σ σ' w (opened : bool) result :
  inv σ -> inv σ' -> (opened = true -> w = true) ->
  RorkHookProtectedPointerWriteIsAvailable result (uses_tpro (kern σ)) opened = true ->
  (exists x, tpro_gated (kern σ') x = true) -> w = true.
Proof using TLaws.
  intros HI HI' Ho Ha [x Hx]. apply Ho. unfold RorkHookProtectedPointerWriteIsAvailable in Ha.
  rewrite (gated_uses_tpro (kern σ) x) in Ha; [done|].
  destruct (il_process _ _ _ HI) as (-> & _), (il_process _ _ _ HI') as (Hg & _).
  by rewrite <- Hg.
Qed.

(** Closing it. *)
Lemma close_action σ w restore :
  inv σ -> closes w (window_open (kern σ)) restore ->
  exists σ', match Some restore with Some (Some close) => close | _ => ret tt end σ = Ret tt σ' /\
    steady σ σ' /\ window_open (kern σ') = w.
Proof using Laws TLaws.
  intros HI [[-> <-]|(-> & -> & Hw & Hu)]; [exists σ; by split_and!|].
  destruct (RorkHookEndThreadTPROWrite_spec σ) as (σ' & E & St & Hw').
  rewrite (Hu σ HI Hw) in Hw'. by exists σ'.
Qed.

(** *** The store *)

Lemma store_allowed σ s :
  inv σ -> shared_slot jobs s -> stores_allowed jobs σ0 ->
  ((exists x, tpro_gated (kern σ) x = true) -> window_open (kern σ) = true) ->
  range_writable σ (fst s) 8.
Proof using Hok.
  intros HI Hs Hall Hw x Hx. unfold writable.
  destruct (il_process _ _ _ HI) as (Hg & _). pose proof (jo_readable _ _ Hok s x Hs Hx) as Hr.
  unfold readable in Hr. destruct (prot_at (kern σ0) x) as [p|] eqn:Hp; [|done].
  assert (exists q, prot_at (kern σ) x = Some q /\ (q = p \/ q = RW)) as (q & Hq & Hqp).
  { destruct (il_prot _ _ _ HI x) as [E|[_ E]]; rewrite E; eauto. }
  rewrite Hq. destruct (tpro_gated (kern σ) x) eqn:Hgx; [apply Hw; by exists x|].
  destruct (Hall s x Hs Hx) as [Hg0|Hrw]; [by rewrite <- Hg, Hgx in Hg0|].
  rewrite Hp in Hrw. injection Hrw as ->. by destruct Hqp as [-> | ->].
Qed.

Lemma store_frame σ (k : K) l (s : Z * bool) value (t : Z * bool) :
  s <> t -> shared_slot jobs s -> shared_slot jobs t ->
  peek_u64 (Machine k (poke (mem σ) (fst s) (le_split 8 value)) l) (fst t) = peek_u64 σ (fst t).
Proof using Hok.
  intros Hne Hs Ht. apply peek_u64_frame. intros x Hx. rewrite peek_poked, length_le_split.
  destruct (jo_apart _ _ Hok s t Hs Ht) as [|Ha]; [done|]. unfold apart in Ha.
  by replace (_ && _) with false by lia.
Qed.

Lemma store_value σ (k : K) l (a value : Z) :
  peek_u64 (Machine k (poke (mem σ) a (le_split 8 value)) l) a = u64 value.
Proof using.
  unfold peek_u64. etrans; [|apply (le_combine_split 8 value)]. f_equal.
  rewrite <- (length_le_split 8 value) at 1. apply peeks_poked.
Qed.

(** The value a call stores resolves to what it installs. *)
Lemma value_kept_out context context' (s : Z * bool) :
  participates jobs context' -> keeps_out jobs context ->
  matches context (u64 (final_value context' (snd s) (fst s))) = false.
Proof using Hok Laws ALaws.
  intros Hc Hk. unfold matches. rewrite final_value_strips by by apply Hok.
  specialize (Hk context' Hc). apply andb_false_iff. right. by apply Z.eqb_neq.
Qed.

Lemma keep_store σ s context :
  inv σ -> shared_slot jobs s -> participates jobs context ->
  let value := final_value context (snd s) (fst s) in
  rewrites jobs s (peek_u64 σ0 (fst s)) (u64 value) ->
  let σ' := Machine (kern σ) (poke (mem σ) (fst s) (le_split 8 value))
                    (EvStore (fst s) (le_split 8 value) :: log σ) in
  step σ σ' /\ inv σ' /\ peek_u64 σ' (fst s) = u64 value.
Proof using Hok Laws ALaws.
  intros [P L A F S] Hs Hc value Hv σ'. split_and!; [split|split|by apply store_value].
  - by exists [EvStore (fst s) (le_split 8 value)].
  - intros t c Ht Hc' Hk Hm. destruct (decide (s = t)) as [<-|Hne].
    + unfold σ'. rewrite store_value. by apply value_kept_out.
    + unfold σ'. by rewrite store_frame.
  - done.
  - eapply log_grows_trans; [done|]. by exists [EvStore (fst s) (le_split 8 value)].
  - done.
  - intros x Hx. rewrite <- F by done. unfold σ'. rewrite peek_poked, length_le_split.
    destruct (_ && _) eqn:E; [|done]. exfalso. apply Hx. exists s. split; [done|].
    unfold slot_covers. lia.
  - intros t Ht. destruct (decide (s = t)) as [<-|Hne]; unfold σ'.
    + by rewrite store_value.
    + rewrite store_frame by done. by apply S.
Qed.

(** ** The store, interrupted anywhere *)

(** The slot no longer resolves to what [context] replaces, unless a call puts that
    back, the kernel refused a protection change, or the slot or the window was
    never usable. *)
Definition processed (context : RorkHookRebindImageContext) (s : Z * bool) σ : Prop :=
  (keeps_out jobs context -> matches context (peek_u64 σ (fst s)) = false) \/
  refused σ0 σ \/ ~ always_ready jobs σ0 \/ ~ window_works σ0.

Lemma processed_later context s σ σ' :
  shared_slot jobs s -> participates jobs context -> step σ σ' ->
  processed context s σ -> processed context s σ'.
Proof using.
  intros Hs Hc [[new Hl] Hst] [Hm|[Hr|Hn]]; [left|right; left|by right; right].
  - intros Hk. by apply Hst, Hm.
  - by eapply refused_later.
Qed.

#[local] Abbreviation runs t w σ Q :=
  (rg (interleaved jobs σ0) (settles jobs) (~ stores_allowed jobs σ0) t w σ Q).

Lemma restore_rg w σ s p1 p2 (Q : machine K -> Prop) :
  let fp := first_page (fst s) in let lp := last_page (fst s) in
  shared_slot jobs s -> 0 < fp -> found fp p1 -> found lp p2 ->
  (forall σ1 σ2, step σ1 σ2 -> Q σ1 -> Q σ2) -> Q σ ->
  runs (restore_thread fp lp vm_page_size (slot_spans (fst s)) p1 p2) w σ
    (fun _ w' σ' => w' = w /\ Q σ').
Proof using Hok Laws.
  intros fp lp Hs Hfp H1 H2 HQ HQ0. destruct (shared_slot_bounds s Hs) as [B1 B2].
  destruct (slot_pages (fst s)) as (Hf & Hl & Mf & Ml & Hle & Hnext & Htop); [lia..|].
  fold fp lp in Hf, Hl, Mf, Ml, Hle, Hnext, Htop. pose proof page_size_bounds as HP.
  assert (forall page p σ1, page = fp \/ page = lp -> found page p -> inv σ1 ->
    exists r σ2, RorkHookProtectMemory page vm_page_size p σ1 = Ret r σ2 /\
      step σ1 σ2 /\ inv σ2 /\ window_open (kern σ2) = window_open (kern σ1)) as Hprotect.
  { intros page p σ1 Hpage Hp HI.
    assert (page mod vm_page_size = 0) as Mp by (destruct Hpage; by subst).
    destruct (keep_protect σ1 s page vm_page_size p) as (r & σ2 & E & HG & HI2 & HW & _);
      [done|done|destruct Hpage; lia..| |by exists r, σ2].
    intros x Hx%page_in_pages; [|done]. split; [|by eapply found_in_page].
    rewrite slot_in_pages by done. fold fp lp. destruct Hpage; lia. }
  unfold restore_thread. apply rg_keep. intros σ1 G1 HI1 _.
  destruct (Hprotect fp p1 σ1) as (r1 & σ2 & E1 & G2 & HI2 & W2); [by left|done|done|].
  exists r1, σ2. split_and!; [done..|]. apply rg_keep. intros σ3 G3 HI3 _.
  assert (exists r2 σ4, (if slot_spans (fst s) then RorkHookProtectMemory lp vm_page_size p2
     else ret KERN_SUCCESS) σ3 = Ret r2 σ4 /\ step σ3 σ4 /\ inv σ4 /\
     window_open (kern σ4) = window_open (kern σ3)) as (r2 & σ4 & E2 & G4 & HI4 & W4).
  { destruct (slot_spans (fst s)); [by apply Hprotect; [right| |]|]. by exists KERN_SUCCESS, σ3. }
  exists r2, σ4. split_and!; [done..|]. cbn [rg]. intros σ5 G5 _. split; [done|].
  eapply HQ; [|exact HQ0]. by do 4 (etrans; [eassumption|]).
Qed.

Lemma keep_protect_slot σ s :
  let fp := first_page (fst s) in let lp := last_page (fst s) in
  inv σ -> shared_slot jobs s -> 0 < fp ->
  exists r σ', RorkHookProtectMemory fp (lp - fp + vm_page_size) REBIND_PROTECTION σ = Ret r σ' /\
    step σ σ' /\ inv σ' /\ window_open (kern σ') = window_open (kern σ) /\
    (r <> KERN_SUCCESS -> refused σ0 σ').
Proof using Hok Laws.
  intros fp lp HI Hs Hfp. destruct (shared_slot_bounds s Hs) as [B1 B2].
  destruct (slot_pages (fst s)) as (Hf & Hl & Mf & Ml & Hle & Hnext & Htop); [lia..|].
  fold fp lp in Hf, Hl, Mf, Ml, Hle, Hnext, Htop. pose proof page_size_bounds as HP.
  eapply keep_protect; try done; try lia. intros x Hx. split; [|by left].
  rewrite slot_in_pages by done. by rewrite in_pages_aligned in Hx by (done || lia).
Qed.

(** The end of the transaction: the cache flush, the window's closing, and the
    restoration keep what the store achieved. *)
Lemma finish_rg w w1 σ s p1 p2 flush restore result (ok : bool) (Q : machine K -> Prop) :
  let fp := first_page (fst s) in let lp := last_page (fst s) in
  shared_slot jobs s -> 0 < fp -> found fp p1 -> found lp p2 ->
  (forall σ1, exists σ2, flush σ1 = Ret tt σ2 /\ quiet σ1 σ2) -> closes w w1 restore ->
  (forall σ1 σ2, step σ1 σ2 -> Q σ1 -> Q σ2) -> Q σ ->
  runs (let! _ := flush in
        let! _ := match Some restore with Some (Some close) => close | _ => ret tt end in
        if negb (result =? KERN_SUCCESS) then Return ok else
        thread_bind (restore_thread fp lp vm_page_size (slot_spans (fst s)) p1 p2)
          (fun restored => Return (ok && restored))) w1 σ (fun _ w' σ' => w' = w /\ Q σ').
Proof using Hok Laws TLaws.
  intros fp lp Hs Hfp H1 H2 Hfl Hre HQ HQ0. apply rg_keep. intros σ1 G1 HI1 _.
  destruct (Hfl σ1) as (σ2 & E1 & St1 & W2). destruct (keep_steady σ1 σ2 HI1 St1) as [G2 HI2].
  exists tt, σ2. split_and!; [done..|]. apply rg_do. intros σ3 G3 HI3 W3. rewrite <- W3 in Hre.
  destruct (close_action σ3 w restore HI3 Hre) as (σ4 & E2 & St2 & W4).
  destruct (keep_steady σ3 σ4 HI3 St2) as [G4 HI4].
  exists tt, σ4. split_and!; [done..|]. rewrite W4.
  assert (Q σ4) as HQ4 by (eapply HQ; [|exact HQ0]; by do 3 (etrans; [eassumption|])).
  destruct (negb _); [cbn [rg]; intros; split; [done|by eapply HQ]|].
  apply rg_bind; [exact _| |done]. eapply rg_mono; [exact _| |by apply restore_rg].
  intros restored w5 σ5 _ _ [-> HQ5]. cbn [rg]. intros. split; [done|by eapply HQ].
Qed.

Lemma transaction_rg w σ s context p1 p2 :
  let fp := first_page (fst s) in let lp := last_page (fst s) in
  let value := final_value context (snd s) (fst s) in
  shared_slot jobs s -> participates jobs context ->
  rewrites jobs s (peek_u64 σ0 (fst s)) (u64 value) ->
  0 < fp -> found fp p1 -> found lp p2 ->
  runs (transaction_thread (fst s) value REBIND_PROTECTION fp lp (lp - fp + vm_page_size)
          (slot_spans (fst s)) p1 p2) w σ (fun _ w' σ' => w' = w /\ processed context s σ').
Proof using Hok Laws TLaws ALaws.
  intros fp lp value Hs Hc Hv Hfp Hp1 Hp2. unfold transaction_thread. cbv zeta.
  apply rg_keep. intros σ1 G1 HI1 _.
  destruct (keep_protect_slot σ1 s HI1 Hs Hfp) as (r & σ2 & E1 & G2 & HI2 & W2 & Hr).
  exists r, σ2. split_and!; [done..|]. apply rg_keep. intros σ3 G3 HI3 _.
  destruct (RorkHookSupportsTPRO_spec σ3) as (σ4 & E2 & St4 & W4).
  destruct (keep_steady σ3 σ4 HI3 St4) as [G4 HI4].
  exists (uses_tpro (kern σ3)), σ4. split_and!; [done..|]. apply rg_do. intros σ5 G5 HI5 W5.
  destruct (window_action σ3 σ5 HI3 HI5)
    as (opened & restore & σ6 & E3 & St6 & Hre & Hw & Hopen). rewrite W5 in Hre.
  destruct (keep_steady σ5 σ6 HI5 St6) as [G6 HI6].
  exists (opened, Some restore), σ6. split_and!; [done..|]. cbv beta iota.
  destruct (RorkHookProtectedPointerWriteIsAvailable _ _ _) eqn:Hav; cbv beta iota.
  - cbn [rg]. intros σ7 G7 HI7 W7. unfold store_bytes.
    destruct (range_all (writable σ7) (fst s) _) eqn:Hall.
    2:{ intros Ha. apply not_true_iff_false in Hall. apply Hall, range_all_spec.
        rewrite length_le_split. apply store_allowed; [done..|].
        rewrite W7. eapply (gated_opened σ3 σ7); [done..|exact Hav]. }
    destruct (keep_store σ7 s context HI7 Hs Hc Hv) as (G8 & HI8 & Hval).
    split_and!; [done|done|]. cbn [kern]. rewrite W7. apply finish_rg; try done.
    + intros σ9. eexists. split; [done|]. split; [|done]. split; [done..|]. by eexists [_].
    + intros ? ? ?. by apply processed_later.
    + left. intros Hk. unfold value in *. rewrite Hval. by apply value_kept_out.
  - apply rg_keep. intros σ7 G7 HI7 _. exists tt, σ7. split_and!; [done..|].
    apply finish_rg; try done.
    + intros σ9. exists σ9. by split.
    + intros ? ? ?. by apply processed_later.
    + unfold RorkHookProtectedPointerWriteIsAvailable in Hav. right.
      destruct (uses_tpro (kern σ3)).
      * right; right. by apply Hopen.
      * left. assert (r <> KERN_SUCCESS) as Hne by lia.
        assert (step σ2 σ7) as [[new Hl] _] by (by do 4 (etrans; [eassumption|])).
        eapply refused_later; [by apply Hr|exact Hl].
Qed.

(** The checks that precede the transaction, each against the protections of its
    own moment. *)
Lemma not_ready σ s :
  inv σ -> shared_slot jobs s -> store_ready (kern σ) (fst s) REBIND_PROTECTION = false ->
  ~ always_ready jobs σ0.
Proof using.
  intros HI Hs Hr Hy. destruct (Hy (kern σ)) as [_ Hy']; [apply HI..|]. by rewrite Hy' in Hr.
Qed.

Lemma store_ready_split k slot :
  store_ready k slot REBIND_PROTECTION = true ->
  memory_is_readable k slot (first_page_bytes slot) = true /\
  is_Some (region_at k (first_page slot)) /\
  (slot_spans slot = true ->
   memory_is_readable k (last_page slot) (8 - first_page_bytes slot) = true /\
   is_Some (region_at k (last_page slot))).
Proof using.
  unfold store_ready. rewrite !andb_true_iff. intros (((_ & H1) & H2%bool_decide_eq_true) & H3).
  split_and!; [done|done|]. intros Hsp. rewrite Hsp in H3. cbn [negb orb] in H3.
  by apply andb_true_iff in H3 as [? ?%bool_decide_eq_true].
Qed.

Lemma ready_or σ s :
  inv σ -> shared_slot jobs s ->
  let k := kern σ in
  (memory_is_readable k (fst s) (first_page_bytes (fst s)) = false \/
   region_at k (first_page (fst s)) = None \/
   slot_spans (fst s) = true /\
   (memory_is_readable k (last_page (fst s)) (8 - first_page_bytes (fst s)) = false \/
    region_at k (last_page (fst s)) = None)) ->
  ~ always_ready jobs σ0.
Proof using.
  intros HI Hs k Hno Hy.
  destruct (store_ready_split k (fst s)) as (H1 & [r1 H2] & H3);
    [by apply (Hy k); [apply HI..|]|].
  destruct Hno as [E|[E|[E1 E2]]]; [congruence..|].
  destruct (H3 E1) as (H4 & [r2 H5]). destruct E2; congruence.
Qed.

Lemma spans_pages slot : slot_spans slot = false -> last_page slot = first_page slot.
Proof using. unfold slot_spans. intros. lia. Qed.

Lemma store_thread_checks slot value :
  0 < slot -> slot + 8 <= 2 ^ 64 ->
  let fp := first_page slot in let lp := last_page slot in
  let spans := slot_spans slot in
  store_thread slot value REBIND_PROTECTION =
  (let! firstReadable := RorkHookMemoryIsReadable slot (first_page_bytes slot) in
   if negb firstReadable then Return false else
   let! lastReadable :=
     if spans then RorkHookMemoryIsReadable lp (8 - first_page_bytes slot) else ret true in
   if negb lastReadable then Return false else
   let! (firstFound, p1) := RorkHookMemoryProtection fp (Some 0) in
   if negb firstFound then Return false else
   let! (lastFound, p2) :=
     if spans then RorkHookMemoryProtection lp (Some 0) else ret (true, Some 0) in
   if negb lastFound then Return false else
   transaction_thread slot value REBIND_PROTECTION fp lp (lp - fp + vm_page_size) spans
     (default 0 p1) (if spans then default 0 p2 else default 0 p1)).
Proof using Laws.
  intros Hs He fp lp spans. pose proof page_size_bounds as HP. unfold store_thread.
  replace (slot =? NULL) with false by (unfold NULL; lia).
  change (negb (prot_has REBIND_PROTECTION VM_PROT_WRITE)) with false.
  rewrite page_size_is_mask. replace (vm_page_size =? 0) with false by lia.
  cbn [orb negb Z.eqb]. rewrite u64_slot_end by (unfold is_u64; lia).
  replace (slot + 7 <? 2 ^ 64) with true by lia. cbn [negb].
  assert (is_u64 slot) as Hu by (unfold is_u64; lia).
  assert (slot + 7 < 2 ^ 64) as He' by lia.
  destruct (slot_geometry slot Hu He') as (-> & -> & -> & Hsz & Hb1 & Hb2 & _).
  change (negb (first_page slot =? last_page slot)) with spans.
  fold spans in Hb1. rewrite Hsz, Hb1, Hb2. done.
Qed.

Lemma store_rg w σ s context :
  let value := final_value context (snd s) (fst s) in
  inv σ -> shared_slot jobs s -> participates jobs context ->
  rewrites jobs s (peek_u64 σ0 (fst s)) (u64 value) ->
  runs (store_thread (fst s) value REBIND_PROTECTION) w σ
    (fun _ w' σ' => w' = w /\ processed context s σ').
Proof using Hok Laws TLaws ALaws.
  intros value HI Hs Hc Hv. destruct (shared_slot_bounds s Hs) as [B1 B2].
  assert (is_u64 (fst s)) as Hu by (unfold is_u64; lia).
  unfold value. rewrite store_thread_checks by (done || lia). set (slot := fst s) in *.
  assert (slot + 7 < 2 ^ 64) as He by lia.
  destruct (slot_geometry slot Hu He) as (_ & _ & _ & _ & _ & _ & Hlp).
  destruct (slot_pages slot) as (_ & _ & _ & _ & Hle & _); [lia..|].
  set (fp := first_page slot) in *. set (lp := last_page slot) in *.
  assert (forall σ1, inv σ1 -> ~ always_ready jobs σ0 ->
    runs (Return false) w σ1 (fun _ w' σ' => w' = w /\ processed context s σ')) as Hstop.
  { intros σ1 _ Hno. cbn [rg]. intros σ2 _ _. split; [done|]. right; right; by left. }
  eapply (rg_look _ _ _ _ _ _ _ _ (fun σ1 => memory_is_readable (kern σ1) slot (first_page_bytes slot))).
  { intros σ1 _. by apply RorkHookMemoryIsReadable_eq. }
  intros σ1 G1 HI1. cbv beta. destruct (memory_is_readable _ _ _) eqn:E1; cbn [negb].
  2:{ apply Hstop; [done|]. eapply ready_or; [done..|]. by left. }
  eapply (rg_look _ _ _ _ _ _ _ _ (fun σ2 => if slot_spans slot
    then memory_is_readable (kern σ2) lp (8 - first_page_bytes slot) else true)).
  { intros σ2 _. destruct (slot_spans slot); [by apply RorkHookMemoryIsReadable_eq|done]. }
  intros σ2 G2 HI2. cbv beta.
  destruct (if slot_spans slot then _ else true) eqn:E2; cbn [negb].
  2:{ apply Hstop; [done|]. eapply ready_or; [exact HI2|done|].
      destruct (slot_spans slot) eqn:Hsp; [|done]. right; right. split; [done|by left]. }
  eapply (rg_look _ _ _ _ _ _ _ _ (fun σ3 => match region_at (kern σ3) fp with
     | Some r => (true, Some (region_protection r)) | None => (false, Some 0) end)).
  { intros σ3 _. rewrite RorkHookMemoryProtection_eq. by destruct (region_at _ _). }
  intros σ3 G3 HI3. cbv beta. destruct (region_at (kern σ3) fp) as [r1|] eqn:E3; cbn [negb].
  2:{ apply Hstop; [done|]. eapply ready_or; [exact HI3|done|]. right; by left. }
  eapply (rg_look _ _ _ _ _ _ _ _ (fun σ4 => if slot_spans slot then
     match region_at (kern σ4) lp with
     | Some r => (true, Some (region_protection r)) | None => (false, Some 0) end
     else (true, Some 0))).
  { intros σ4 _. destruct (slot_spans slot); [|done].
    rewrite RorkHookMemoryProtection_eq. by destruct (region_at _ _). }
  intros σ4 G4 HI4. cbv beta.
  assert (0 < fp) as Hfp.
  { assert (fp <> 0); [|lia]. intros E. unfold region_at in E3. by rewrite E in E3. }
  assert (found fp (region_protection r1)) as F1 by by apply (found_region σ3).
  destruct (slot_spans slot) eqn:Hsp.
  - destruct (region_at (kern σ4) lp) as [r2|] eqn:E4; cbn [negb default].
    2:{ apply Hstop; [done|]. eapply ready_or; [exact HI4|done|].
        right; right. split; [done|by right]. }
    rewrite <- Hsp. apply transaction_rg; try done.
    by apply (found_region σ4).
  - cbn [negb]. rewrite <- Hsp. apply transaction_rg; try done.
    unfold lp. by rewrite spans_pages.
Qed.

(** *** The slot loop *)

Lemma readable_kept σ s : inv σ -> shared_slot jobs s -> range_readable σ (fst s) 8.
Proof using Hok.
  intros HI Hs x Hx. pose proof (jo_readable _ _ Hok s x Hs Hx) as Hr. unfold readable in *.
  by destruct (il_prot _ _ _ HI x) as [->|[_ ->]].
Qed.

Lemma rebind_rg w σ i j n index :
  jobs i = Some j -> job_usable j = true -> inv σ ->
  0 <= index -> index + Z.of_nat n = job_size j / 8 ->
  (forall k, 0 <= k < index ->
     processed (job_context j) (job_slots j + 8 * k, job_authenticated j) σ) ->
  runs (rebind_thread (job_context j) (job_slots j) (job_authenticated j) n index) w σ
    (fun _ w' σ' => w' = w /\ forall s, s ∈ job_pointers j -> processed (job_context j) s σ').
Proof using Hok Laws TLaws ALaws.
  intros Hj Hu. assert (participates jobs (job_context j)) as Hc by by exists i, j.
  destruct (job_fits i j Hj Hu) as (Hpos & _ & Hfit).
  assert (forall k, 0 <= k < job_size j / 8 ->
    shared_slot jobs (job_slots j + 8 * k, job_authenticated j)) as Hshared.
  { intros k Hk. exists i, j. split; [done|]. apply elem_of_job_pointers. split; [done|by exists k]. }
  revert σ index. induction n as [|n IH]; intros σ index HI Hi Hn Hdone; cbn [rebind_thread].
  - cbn [rg]. intros σ1 G1 HI1. split; [done|]. intros s (_ & k & Hk & ->)%elem_of_job_pointers.
    eapply processed_later; [by apply Hshared|done|exact G1|]. apply Hdone. lia.
  - set (s := (job_slots j + 8 * index, job_authenticated j)).
    assert (shared_slot jobs s) as Hs by (apply Hshared; lia).
    assert (u64 (index + 1) = index + 1) as -> by (apply u64_small; unfold is_u64; lia).
    assert (forall σ1 σ2, step σ σ1 -> step σ1 σ2 -> inv σ2 -> processed (job_context j) s σ2 ->
      runs (rebind_thread (job_context j) (job_slots j) (job_authenticated j) n (index + 1)) w σ2
        (fun _ w' σ' => w' = w /\ forall s, s ∈ job_pointers j -> processed (job_context j) s σ'))
      as Hnext.
    { intros σ1 σ2 G1 G2 HI2 Hp. apply IH; [done|lia|lia|]. intros k Hk.
      destruct (decide (k = index)) as [->|]; [done|].
      eapply (processed_later _ _ σ); [by apply Hshared; lia|done|by etrans|]. apply Hdone. lia. }
    eapply (rg_look _ _ _ _ _ _ _ _ (fun σ1 => peek_u64 σ1 (fst s))).
    { intros σ1 HI1. by apply load_u64_ok, readable_kept. }
    intros σ1 G1 HI1. cbv beta.
    destruct (peek_u64 σ1 (fst s) =? NULL) eqn:E1.
    { eapply Hnext; [exact G1|reflexivity|done|]. left. intros _. unfold matches. by rewrite E1. }
    destruct (RorkHookStripPointer _ =? _) eqn:E2; cbn [negb].
    2:{ eapply Hnext; [exact G1|reflexivity|done|]. left. intros _. unfold matches.
        by rewrite E2, andb_false_r. }
    apply rg_bind; [exact _| |done]. eapply rg_mono; [exact _| |apply (store_rg w σ1 s); try done].
    + intros ok w2 σ2 G2 HI2 [-> Hp]. by eapply Hnext.
    + econstructor; [done|by apply HI1|]. unfold matches. by rewrite E1, E2.
Qed.

(** *** The section *)

Lemma section_rg w σ i j :
  jobs i = Some j -> inv σ ->
  runs (thread_of j) w σ
    (fun _ w' σ' => w' = w /\ forall s, s ∈ job_pointers j -> processed (job_context j) s σ').
Proof using Hok Laws TLaws ALaws.
  intros Hj HI. unfold thread_of, section_thread. cbv zeta.
  destruct ((job_slots j =? NULL) || _ || _) eqn:Hs.
  { cbn [rg]. intros σ1 _ _. split; [done|]. intros s (Hu & _)%elem_of_job_pointers.
    unfold job_usable in Hu. by rewrite Hs in Hu. }
  assert (job_usable j = true) as Hu by (unfold job_usable; by rewrite Hs).
  eapply (rg_look _ _ _ _ _ _ _ _
    (fun σ1 => memory_is_readable (kern σ1) (job_slots j) (job_size j))).
  { intros σ1 _. by apply RorkHookMemoryIsReadable_eq, (jo_fits _ _ Hok i j Hj). }
  intros σ1 _ HI1. cbv beta. destruct (memory_is_readable _ _ _) eqn:Hm; cbn [negb].
  - destruct (job_fits i j Hj Hu) as (_ & Hn & _).
    apply (rebind_rg w σ1 i j); [done|done|done|done| |lia]. by rewrite Z2Nat.id by lia.
  - cbn [rg]. intros σ2 _ _. split; [done|]. intros s _. right; right; left. intros Hy.
    destruct (Hy (kern σ1)) as [Hy' _]; [apply HI1..|]. by rewrite (Hy' i j) in Hm.
Qed.
End Actions.

(** ** Properties *)

Section Properties.
Context {K : Type} {T : Target} {Kern : Kernel K}.
Context {Laws : KernelLaws K} {TLaws : TPROLaws K} {ALaws : PointerAuthLaws T}.
Implicit Types σ : machine K.

(** The threads of well-formed jobs, at any point of any interleaving. *)
Lemma jobs_reach (jobs : nat -> option job) ws σ0 p :
  jobs_ok jobs σ0 -> pool_steps (Pool (job_thread jobs) ws σ0) p ->
  interleaved jobs σ0 (shared p) /\
  forall i, rg (interleaved jobs σ0) (settles jobs) (~ stores_allowed jobs σ0)
    (threads p i) (windows p i) (shared p) (fun _ w σ => w = ws i /\
       forall j, jobs i = Some j ->
       forall s, s ∈ job_pointers j -> processed jobs σ0 (job_context j) s σ).
Proof using Laws TLaws ALaws.
  intros Hok Hsteps.
  assert (interleaved jobs σ0 σ0) as HI0.
  { split; [done|by exists []|by left|done|]. intros. constructor. }
  refine (proj1 (and_comm _ _) (pool_sound (interleaved jobs σ0) (settles jobs)
    (~ stores_allowed jobs σ0) _ _ (Pool (job_thread jobs) ws σ0) p _ HI0 Hsteps)).
  - intros σ k. apply keep_switch.
  - intros i. cbn [threads windows shared]. unfold job_thread.
    destruct (jobs i) as [j|] eqn:Hj.
    + eapply rg_mono; [exact _| |by apply (section_rg jobs σ0 Hok (ws i) σ0 i j)].
      intros [] w1 σ1 _ _ [-> Hs]. split; [done|]. intros j' [= <-]. exact Hs.
    + cbn [rg]. intros σ1 _ _. split; [done|]. intros j' [=].
Qed.

(** C8: concurrent rebinding is memory safe.  Any number of calls rebind any
    number of sections at once, interrupted anywhere.  At every moment the process
    is intact, each page's protection is its own or the read-write one a store asks
    for, no byte outside the slots has changed, and each slot holds a value the calls
    can justify: its own, or one of a call whose replacee an earlier such value
    resolves to.  No call loops for ever, and each returns with its thread's TPRO
    window as it found it.  Where TPRO guards the slots, or their pages are
    read-write already, no call faults; where the pages are, no protection differs. *)
Theorem rebind_threads_safe (jobs : nat -> option job) ws σ p :
  jobs_ok jobs σ -> pool_steps (Pool (job_thread jobs) ws σ) p ->
  interleaved jobs σ (shared p) /\
  (forall i, on_thread p i -> thread_action (threads p i) (shared p) <> Diverges) /\
  (forall i, result (threads p i) = Some tt -> windows p i = ws i) /\
  (stores_allowed jobs σ -> ~ crashes p) /\
  (already_writable jobs σ -> same_prot (kern σ) (kern (shared p))).
Proof using Laws TLaws ALaws.
  intros Hok Hsteps. destruct (jobs_reach jobs ws σ p Hok Hsteps) as [HI Hrg].
  split; [exact HI|]. split; [|split; [|split]].
  - intros i Hi. destruct (rg_action _ _ _ _ _ _ _ (Hrg i) HI) as [Ha _].
    exact (proj2 (Ha Hi)).
  - intros i Hi. destruct (rg_action _ _ _ _ _ _ _ (Hrg i) HI) as [_ Hq]. exact (proj1 (Hq tt Hi)).
  - intros Hs (i & Hi & Hr). destruct (rg_action _ _ _ _ _ _ _ (Hrg i) HI) as [Ha _].
    exact (proj1 (Ha Hi) Hr Hs).
  - intros Hw x. destruct (il_prot _ _ _ HI x) as [->|[Hx ->]]; [done|]. by rewrite Hw.
Qed.

(** C9: concurrent rebinding redirects.  Suppose that every check of a section and of
    a store succeeds whichever pages of the slots are read-write ([always_ready]), that
    the TPRO window can be opened, and that the kernel has refused nothing.  Then a
    call that has returned has left no slot of its section resolving to its replacee,
    and none resolves to it later, however the other calls interleave, provided no
    call installs a pointer to that replacee ([keeps_out]). *)
Theorem rebind_threads_settle (jobs : nat -> option job) ws σ p i j s :
  jobs_ok jobs σ -> always_ready jobs σ -> window_works σ ->
  pool_steps (Pool (job_thread jobs) ws σ) p -> ~ refused σ (shared p) ->
  jobs i = Some j -> result (threads p i) = Some tt -> keeps_out jobs (job_context j) ->
  s ∈ job_pointers j -> matches (job_context j) (peek_u64 (shared p) (fst s)) = false.
Proof using Laws TLaws ALaws.
  intros Hok Hy Hw Hsteps Hno Hj Hres Hk Hs.
  destruct (jobs_reach jobs ws σ p Hok Hsteps) as [HI Hrg].
  destruct (rg_action _ _ _ _ _ _ _ (Hrg i) HI) as [_ Hq].
  destruct (Hq tt Hres) as [_ Hp].
  destruct (Hp j Hj s Hs) as [Hm|[Hr|[Hn|Hn]]]; [by apply Hm|done..].
Qed.
End Properties.

(** ** Two calls on one page

    Two calls rebind different symbols through one two-slot section, which lies in a
    read-only page of a device process. *)

Definition two_calls (i : nat) : option job :=
  match i with
  | 0%nat => Some (Job (RebindImageContext 0x8000 0x20000 0x50000) 0x4000 16 false)
  | 1%nat => Some (Job (RebindImageContext 0x8000 0x30000 0x60000) 0x4000 16 false)
  | _ => None
  end.

Definition two_slots : list (Z * list byte) :=
  [(0x4000, le_split 8 0x20000); (0x4008, le_split 8 0x30000)].
Definition two_slots_machine : machine sim := sim_machine [(1, 1)] two_slots.

Definition two_calls_pool (σ : machine sim) : pool sim unit :=
  Pool (job_thread (T := device) two_calls) (fun _ => window_open (kern σ)) σ.

(** Of a pool: whether each call's next access is refused, what the calls have
    returned, the page's protection and the slots. *)
Definition summary (p : pool sim unit) : list bool * list (option unit) * option Z * list Z :=
  ((fun i => Bool.eqb (window_open (kern (shared p))) (windows p i) &&
      match thread_action (threads p i) (shared p) with Refused => true | _ => false end)
     <$> [0%nat; 1%nat],
   [result (threads p 0); result (threads p 1)],
   prot_at (kern (shared p)) 0x4000,
   [peek_u64 (shared p) 0x4000; peek_u64 (shared p) 0x4008]).

(** What a schedule leads to. *)
Definition observed (σ : machine sim) (schedule : list nat) :=
  match run_schedule (two_calls_pool σ) schedule with
  | Some p => Some (summary p)
  | None => None
  end.

Lemma observed_reached σ schedule o :
  observed σ schedule = Some o -> exists p, pool_steps (two_calls_pool σ) p /\ summary p = o.
Proof.
  unfold observed. destruct (run_schedule _ _) as [p|] eqn:E; [|done]. intros [= <-].
  exists p. split; [by eapply run_schedule_steps|done].
Qed.

(** A call's fifteen actions: the check of the section, a load of each slot, and the
    twelve of the store. *)
Definition one_after_the_other : list nat := replicate 15 0%nat ++ replicate 15 1%nat.

(** The second call reads the page's protection before the first makes the page
    writable, and restores it before the first stores. *)
Definition restored_early : list nat :=
  replicate 7 1%nat ++ replicate 9 0%nat ++ replicate 8 1%nat.

(** The second call reads the page's protection while the first has it writable. *)
Definition captured_late : list nat :=
  replicate 7 0%nat ++ replicate 7 1%nat ++ replicate 8 0%nat ++ replicate 8 1%nat.

(** C10: two calls on a page that TPRO does not guard are not safe.  Run one after
    the other, they rebind their slots and leave the page read-only, as it was.  Run
    at once, the second may restore the page after the first has made it writable and
    before the first stores, and the first faults; or it may take the first's
    temporary read-write protection for the page's own, and after both have returned
    the page is left writable. *)
Theorem rebind_threads_race :
  observed two_slots_machine one_after_the_other =
    Some ([false; false], [Some tt; Some tt], Some VM_PROT_READ, [0x50000; 0x60000]) /\
  (exists p, pool_steps (two_calls_pool two_slots_machine) p /\ crashes p) /\
  (exists p, pool_steps (two_calls_pool two_slots_machine) p /\
     result (threads p 0) = Some tt /\ result (threads p 1) = Some tt /\
     prot_at (kern (shared p)) 0x4000 = Some (Z.lor VM_PROT_READ VM_PROT_WRITE)).
Proof.
  split; [by vm_compute|]. split.
  - destruct (observed_reached two_slots_machine restored_early
      ([true; false], [None; Some tt], Some 1, [0x20000; 0x60000])) as (p & Hp & Ho);
      [by vm_compute|].
    exists p. split; [done|]. exists 0%nat. unfold summary in Ho. cbn in Ho.
    injection Ho as Hc _. apply andb_true_iff in Hc as [Hw Hr]. split.
    + by apply Bool.eqb_prop in Hw.
    + by destruct (thread_action (threads p 0) (shared p)).
  - destruct (observed_reached two_slots_machine captured_late
      ([false; false], [Some tt; Some tt], Some 3, [0x50000; 0x60000])) as (p & Hp & Ho);
      [by vm_compute|].
    exists p. split; [done|]. unfold summary in Ho. injection Ho as _ _ H1 H2 H3 _ _.
    split; [exact H1|]. split; [exact H2|exact H3].
Qed.

(** ** Two calls on a section of two pages

    Mach reports neighbouring pages with one protection as one region.  So does this
    kernel, otherwise that of Sim.v: a region goes on, for up to sixteen pages, while
    the protection stays. *)

Fixpoint run_length (k : sim) (fuel : nat) (page p : Z) : Z :=
  match fuel with
  | O => 0
  | S fuel =>
      if bool_decide (sim_page_prot k page = Some p)
      then SIM_PAGE + run_length k fuel (page + SIM_PAGE) p else 0
  end.

Definition coalescing_region (k : sim) (a : Z) : vm_region * sim :=
  (match sim_page_prot k a with
   | Some p =>
       VmRegion KERN_SUCCESS (page_base SIM_PAGE a) (run_length k 16 (page_base SIM_PAGE a) p) p 7
   | None => VmRegion KERN_INVALID_ADDRESS 0 0 0 7
   end, snd (sim_region k a)).

Definition coalescing : Kernel sim := {|
  vm_region_64 := coalescing_region;
  mach_port_deallocate := mach_port_deallocate;
  vm_protect := vm_protect;
  mach_vm_protect_trap := mach_vm_protect_trap;
  task_dyld_info := task_dyld_info;
  comm_page_u64 := comm_page_u64;
  mrs_tpro := mrs_tpro;
  msr_tpro := msr_tpro;
  os_security_config_get := os_security_config_get;
  prot_at := prot_at;
  tpro_gated := tpro_gated
|}.

Lemma run_length_sound k fuel page p :
  page mod SIM_PAGE = 0 -> 0 <= page <= 2 ^ 64 ->
  0 <= run_length k fuel page p /\ page + run_length k fuel page p <= 2 ^ 64 /\
  forall x, page <= x < page + run_length k fuel page p -> sim_page_prot k x = Some p.
Proof.
  revert page. induction fuel as [|fuel IH]; intros page Hm Hp; cbn [run_length];
    [split_and!; intros; lia|].
  destruct (bool_decide_reflect (sim_page_prot k page = Some p)) as [E|E]; [|split_and!; intros; lia].
  assert (page + SIM_PAGE <= 2 ^ 64) as Hend.
  { unfold sim_page_prot in E. destruct ((0 <=? page) && (page <? 2 ^ 64)) eqn:?; [|done].
    unfold SIM_PAGE in *. apply Z.mod_divide in Hm as [q ->]; lia. }
  destruct (IH (page + SIM_PAGE)) as (H1 & H2 & H3).
  { by rewrite Z.add_mod, Hm, Z_mod_same_full by done. }
  { unfold SIM_PAGE in *. lia. }
  split_and!; [unfold SIM_PAGE in *; lia|lia|]. intros x Hx.
  destruct (Z.lt_ge_cases x (page + SIM_PAGE)); [|apply H3; lia].
  rewrite sim_page_prot_page, (page_base_eq SIM_PAGE x page); [done|done|done|lia].
Qed.

Arguments run_length : simpl never.

Lemma coalescing_laws : KernelLaws sim (H := device) (H0 := coalescing).
Proof.
  pose proof device_laws as L. split; try apply L.
  - intros [] a r k'. cbn. unfold coalescing_region, sim_region, sim_deallocate.
    destruct (sim_page_prot _ _); intros [= <- <-]; cbn; f_equal; lia.
  - intros k a r k'. cbn. unfold coalescing_region.
    destruct (sim_page_prot k a) as [p|] eqn:Hp; intros [= <- <-]; [|done]. intros _.
    cbn [region_address region_size region_protection].
    assert (0 <= a < 2 ^ 64) as Ha.
    { unfold sim_page_prot in Hp. destruct ((0 <=? a) && (a <? 2 ^ 64)) eqn:?; [lia|done]. }
    pose proof (page_base_bounds SIM_PAGE a ltac:(done)).
    pose proof (page_base_nonneg SIM_PAGE a ltac:(done) ltac:(lia)).
    split; [done|]. apply run_length_sound; [apply page_base_multiple|lia].
Qed.

(** The section's first slot is the last word of a read-only page, its second slot the
    first word of the next one. *)
Definition wide_calls (i : nat) : option job :=
  match i with
  | 0%nat => Some (Job (RebindImageContext 0x8000 0x20000 0x50000) 0x7ff8 16 false)
  | 1%nat => Some (Job (RebindImageContext 0x8000 0x30000 0x60000) 0x7ff8 16 false)
  | _ => None
  end.
Definition wide_machine : machine sim :=
  sim_machine [(1, 1); (2, 1)] [(0x7ff8, le_split 8 0x20000); (0x8000, le_split 8 0x30000)].
Definition wide_pool : pool sim unit :=
  Pool (job_thread (T := device) (Kern := coalescing) wide_calls) (fun _ => false) wide_machine.

(** Of a schedule: what the calls have returned, the protections of the two pages, the
    slots, and whether the kernel accepted everything. *)
Definition wide_observed (schedule : list nat)
    : option (list (option unit) * list (option Z) * list Z * bool) :=
  match run_schedule (Kern := coalescing) wide_pool schedule with
  | Some p => Some ([result (threads p 0); result (threads p 1)],
                    [sim_page_prot (kern (shared p)) 0x4000; sim_page_prot (kern (shared p)) 0x8000],
                    [peek_u64 (shared p) 0x7ff8; peek_u64 (shared p) 0x8000],
                    forallb accepted (log (shared p)))
  | None => None
  end.

(** The second call checks the section while the first has its page read-write. *)
Definition checked_midway : list nat := replicate 7 0%nat ++ [1%nat] ++ replicate 8 0%nat.

(** C11: two calls on one section that spans pages are not both effective.  Run one
    after the other, each redirects its slot.  Run at once, the second may look at the
    section while the first has one of its pages read-write: the kernel then reports
    two regions, the check of the whole section fails, and the call returns without
    having tried any slot, although the kernel has refused nothing. *)
Theorem rebind_threads_skip :
  wide_observed one_after_the_other =
    Some ([Some tt; Some tt], [Some 1; Some 1], [0x50000; 0x60000], true) /\
  exists p, pool_steps (Kern := coalescing) wide_pool p /\
    result (threads p 0) = Some tt /\ result (threads p 1) = Some tt /\
    ~ refused wide_machine (shared p) /\
    peek_u64 (shared p) 0x7ff8 = 0x50000 /\ peek_u64 (shared p) 0x8000 = 0x30000.
Proof.
  split; [by vm_compute|].
  assert (wide_observed checked_midway =
    Some ([Some tt; Some tt], [Some 1; Some 1], [0x50000; 0x30000], true)) as Ho by by vm_compute.
  unfold wide_observed in Ho. destruct (run_schedule _ _) as [p|] eqn:E; [|done].
  apply run_schedule_steps in E. exists p. injection Ho as H0 H1 _ _ H2 H3 Ha.
  split_and!; [done|done|done|by apply accepted_not_refused|done|done].
Qed.

(** ** Witnesses *)

Lemma two_calls_cases i j :
  two_calls i = Some j -> job_pointers j = [(0x4000, false); (0x4008, false)].
Proof. destruct i as [|[|i]]; intros [= <-]; by vm_compute. Qed.

Lemma two_calls_slots s :
  shared_slot two_calls s -> s = (0x4000, false) \/ s = (0x4008, false).
Proof.
  intros (i & j & Hj & Hs). rewrite (two_calls_cases i j Hj) in Hs.
  rewrite !elem_of_cons, elem_of_nil in Hs. tauto.
Qed.

Lemma two_calls_ok σ :
  (forall x, 0x4000 <= x < 0x4010 -> readable σ x = true) -> jobs_ok two_calls σ.
Proof.
  intros Hr. split.
  - intros [|[|i]] j [= <-]; split_and!; done.
  - intros c ([|[|i]] & j & [= <-] & <-); done.
  - intros s t Hs%two_calls_slots Ht%two_calls_slots.
    destruct Hs as [-> | ->], Ht as [-> | ->]; [by left|right|right|by left]; unfold apart; cbn; lia.
  - intros s x Hs%two_calls_slots Hx. apply Hr.
    destruct Hs as [-> | ->]; unfold slot_covers in Hx; cbn in Hx; lia.
Qed.

(** The same page in a process that enforces TPRO and guards it.  The second call
    again restores the page before the first stores, but the window lets the store
    through. *)
Definition restored_before_opening : list nat :=
  replicate 7 1%nat ++ replicate 8 0%nat ++ replicate 8 1%nat ++ replicate 7 0%nat.
Definition guarded_slots_machine : machine sim :=
  Machine (kern (tpro_machine [(1, 1)] [1] 1)) (mem two_slots_machine) [].

Lemma two_slots_readable (k : sim) x :
  sim_page_prot k 0x4000 = Some 1 -> 0x4000 <= x < 0x4010 ->
  readable (Machine k (mem two_slots_machine) []) x = true.
Proof.
  intros Hp Hx. unfold readable. cbn [kern prot_at sim_kernel].
  rewrite sim_page_prot_page, (page_base_eq SIM_PAGE x 0x4000); [by rewrite Hp|done|done|].
  unfold SIM_PAGE. lia.
Qed.

Lemma guarded_stores : stores_allowed two_calls guarded_slots_machine.
Proof.
  intros s x Hs%two_calls_slots Hx. left. unfold slot_covers in Hx.
  assert (x / SIM_PAGE = 1) as E.
  { symmetry. apply Z.div_unique with (x - SIM_PAGE); unfold SIM_PAGE;
      destruct Hs as [-> | ->]; cbn in Hx; lia. }
  cbn. by rewrite E.
Qed.

Lemma rebind_threads_safe_witness :
  stores_allowed two_calls guarded_slots_machine /\
  exists p, pool_steps (two_calls_pool guarded_slots_machine) p /\
    summary p = ([false; false], [Some tt; Some tt], Some 1, [0x50000; 0x60000]) /\
    interleaved (T := device) two_calls guarded_slots_machine (shared p) /\
    (forall i, on_thread p i -> thread_action (threads p i) (shared p) <> Diverges) /\
    (forall i, result (threads p i) = Some tt ->
       windows p i = window_open (kern guarded_slots_machine)) /\
    (stores_allowed two_calls guarded_slots_machine -> ~ crashes p) /\
    (already_writable (T := device) two_calls guarded_slots_machine ->
     same_prot (kern guarded_slots_machine) (kern (shared p))).
Proof.
  split; [apply guarded_stores|].
  destruct (observed_reached guarded_slots_machine restored_before_opening
    ([false; false], [Some tt; Some tt], Some 1, [0x50000; 0x60000])) as (p & Hp & Ho);
    [by vm_compute|].
  exists p. split; [exact Hp|]. split; [exact Ho|].
  apply (rebind_threads_safe (T := device) two_calls
    (fun _ => window_open (kern guarded_slots_machine)) guarded_slots_machine p); [|exact Hp].
  apply two_calls_ok. intros x. by apply two_slots_readable.
Defined.

(** The read-only page in a process that enforces TPRO, which does not guard it. *)
Definition enforced_machine : machine sim :=
  Machine (kern (tpro_machine [(1, 1)] [] 1)) (mem two_slots_machine) [].

(** The concrete kernel's answer in a mapped, readable page. *)
Lemma sim_region_at (k : sim) a p :
  let page := page_base SIM_PAGE a in
  sim_page_prot k a = Some p -> 0 < page -> page + SIM_PAGE < 2 ^ 64 ->
  region_at k a = Some (VmRegion KERN_SUCCESS page SIM_PAGE p 7).
Proof.
  intros page Hp Hlo Hhi. pose proof (page_base_bounds SIM_PAGE a ltac:(done)) as Hb.
  fold page in Hb. unfold region_at. cbn [vm_region_64 sim_kernel]. unfold sim_region.
  rewrite Hp. cbn [fst region_address region_size region_result]. fold page.
  rewrite u64_small by (unfold is_u64, SIM_PAGE; unfold SIM_PAGE in Hhi; lia). unfold NULL.
  replace (_ || _) with false by (change (KERN_SUCCESS =? KERN_SUCCESS) with true; lia). done.
Qed.

Lemma sim_section_ready (k : sim) a n p :
  let page := page_base SIM_PAGE a in
  sim_page_prot k a = Some p -> prot_has p VM_PROT_READ = true ->
  0 < page -> 0 < n -> a + n <= page + SIM_PAGE -> page + SIM_PAGE < 2 ^ 64 ->
  memory_is_readable k a n = true.
Proof.
  intros page Hp Hr Hlo Hn Hin Hhi. pose proof (page_base_bounds SIM_PAGE a ltac:(done)) as Hb.
  fold page in Hb. unfold memory_is_readable, readable_length.
  rewrite (sim_region_at k a p) by done. fold page.
  cbn [region_protection region_address region_size].
  rewrite Hr, u64_small by (unfold is_u64, SIM_PAGE; unfold SIM_PAGE in Hhi; lia).
  cbn [negb]. unfold NULL. lia.
Qed.

Lemma sim_ready (k : sim) slot p :
  let page := page_base SIM_PAGE slot in
  sim_page_prot k slot = Some p -> prot_has p VM_PROT_READ = true ->
  0 < page -> slot + 8 <= page + SIM_PAGE -> page + SIM_PAGE < 2 ^ 64 ->
  store_ready (T := device) k slot REBIND_PROTECTION = true.
Proof.
  intros page Hp Hr Hlo Hpage Hhi.
  pose proof (page_base_bounds SIM_PAGE slot ltac:(done)) as Hb. fold page in Hb.
  assert (page_base SIM_PAGE page = page) as Hbase.
  { apply page_base_eq; [done|apply page_base_multiple|unfold SIM_PAGE; lia]. }
  assert (first_page (T := device) slot = page) as Hf by done.
  assert (last_page (T := device) slot = page) as Hl
    by (apply (page_base_eq SIM_PAGE); [done|apply page_base_multiple|lia]).
  assert (sim_page_prot k page = Some p) as Hp'
    by (unfold page; by rewrite <- sim_page_prot_page).
  unfold store_ready, first_page_bytes, slot_spans. rewrite Hf, Hl, Z.eqb_refl. cbn [negb orb].
  rewrite (sim_section_ready k slot 8 p) by (done || lia).
  rewrite (sim_region_at k page p) by (done || rewrite Hbase; done).
  rewrite bool_decide_eq_true_2 by done.
  change (prot_has REBIND_PROTECTION VM_PROT_WRITE) with true. unfold NULL. lia.
Qed.

(** What a page can have become. *)
Lemma sim_page_kept (jobs : nat -> option job) (k0 k : sim) x p0 :
  (prot_at k x = prot_at k0 x \/
   slot_page (T := device) jobs x /\ prot_at k x = Some (Z.land REBIND_PROTECTION 7)) ->
  sim_page_prot k0 x = Some p0 -> prot_has p0 VM_PROT_READ = true ->
  exists p, sim_page_prot k x = Some p /\ prot_has p VM_PROT_READ = true.
Proof.
  cbn [prot_at sim_kernel]. intros [->|[_ ->]] H0 Hr; [by exists p0|by eexists].
Qed.

Lemma enforced_ready : always_ready (T := device) two_calls enforced_machine.
Proof.
  intros k _ Hk. split.
  - destruct (sim_page_kept two_calls (kern enforced_machine) k 0x4000 1)
      as (p & Hp & Hr); [apply Hk|done|done|].
    intros [|[|i]] j [= <-] _; by apply (sim_section_ready k 0x4000 16 p).
  - intros s Hs%two_calls_slots.
    destruct (sim_page_kept two_calls (kern enforced_machine) k (fst s) 1) as (p & Hp & Hr);
      [apply Hk|by destruct Hs as [-> | ->]|done|].
    apply (sim_ready k (fst s) p); try done; by destruct Hs as [-> | ->].
Qed.

Lemma rebind_threads_settle_witness :
  exists p, pool_steps (two_calls_pool enforced_machine) p /\
    summary p = ([false; false], [Some tt; Some tt], Some 3, [0x50000; 0x60000]) /\
    matches (T := device) (RebindImageContext 0x8000 0x30000 0x60000)
      (peek_u64 (shared p) 0x4008) = false.
Proof.
  assert (match run_schedule (two_calls_pool enforced_machine) captured_late with
    | Some p => Some (summary p, forallb accepted (log (shared p)))
    | None => None end =
    Some (([false; false], [Some tt; Some tt], Some 3, [0x50000; 0x60000]), true)) as Hrun
    by (by vm_compute).
  destruct (run_schedule _ _) as [p|] eqn:Hp; [|done].
  apply (inj Some), pair_equal_spec in Hrun as [Hsum Hlog].
  apply run_schedule_steps in Hp.
  exists p. split; [exact Hp|]. split; [exact Hsum|].
  apply (rebind_threads_settle (T := device) two_calls
    (fun _ => window_open (kern enforced_machine)) enforced_machine p 1
    (Job (RebindImageContext 0x8000 0x30000 0x60000) 0x4000 16 false) (0x4008, false)).
  - apply two_calls_ok. intros x. by apply two_slots_readable.
  - apply enforced_ready.
  - intros _. by vm_compute.
  - exact Hp.
  - by apply accepted_not_refused.
  - done.
  - unfold summary in Hsum. injection Hsum as _ _ _ Hres _ _ _. exact Hres.
  - intros c ([|[|i]] & j & [= <-] & <-); done.
  - apply elem_of_section_slots. exists 1. done.
Defined.
