(* ===== verification/Global.v ===== *)
(** Global rebinding, end to end: the registry of Registry.v decides which entry is
    applied to which image, and the threads of Concurrent.v apply them.

    [registry_jobs] is the work the registry's log stands for: one job per entry,
    image that takes part, and symbol-pointer section of the image.  The code runs
    the jobs of one application in a row; the pool lets all of them interleave, which
    allows every order the code can produce and more. *)
From S2P Require Import Prelude Machine Logic Sim CString Regions LoadCommands Memory Rebind.
From S2P Require Import Registry Threads Concurrent.

Section Jobs.
Context {K : Type} {T : Target} {Kern : Kernel K} {SD : SectionData}.
Implicit Types σ : machine K.

(** The work of [RorkHookRebindSymbolInImage] on one image. *)
Definition image_jobs (context : RorkHookRebindImageContext) σ : list job :=
  section_job context σ <$> image_sections σ (rebind_header context).

Definition entry_context (x : RorkHookGlobalRebind) (header : Z) : RorkHookRebindImageContext :=
  RebindImageContext header (RorkHookStripPointer (replacee x)) (replacement x).

(** The work of [RorkHookApplyRebind] for one line of the log. *)
Definition apply_jobs (accepts : Z -> Z -> bool) (m : gmap Z RorkHookGlobalRebind) σ
    (c : Z * Z) : list job :=
  match m !! fst c with
  | Some x =>
      if Registry.participates accepts x (snd c)
      then image_jobs (entry_context x (snd c)) σ else []
  | None => []
  end.

Definition registry_jobs (accepts : Z -> Z -> bool) (p : process) σ : list job :=
  reverse (applied p) ≫= apply_jobs accepts (rebinds p) σ.

(** *** The jobs cover the slots *)

Lemma section_job_pointers context σ section :
  job_context (section_job context σ section) = context /\
  job_pointers (section_job context σ section) = section_pointers context σ section.
Proof.
  unfold section_job, section_pointers, job_pointers, job_usable.
  destruct (section_data context σ section) as [slots size].
  cbn [job_context job_slots job_size job_authenticated]. by destruct (_ || _ || _).
Qed.

Lemma image_jobs_context context σ j : j ∈ image_jobs context σ -> job_context j = context.
Proof. intros (section & -> & _)%list_elem_of_fmap. apply section_job_pointers. Qed.

Lemma image_jobs_pointers context σ s :
  s ∈ image_slots context σ -> exists j, j ∈ image_jobs context σ /\ s ∈ job_pointers j.
Proof.
  intros (section & Hs & Hin)%list_elem_of_bind. exists (section_job context σ section). split.
  - by apply list_elem_of_fmap_2.
  - by rewrite (proj2 (section_job_pointers context σ section)).
Qed.

Lemma apply_jobs_covered accepts p σ e x h s :
  (e, h) ∈ applied p -> rebinds p !! e = Some x -> Registry.participates accepts x h = true ->
  s ∈ image_slots (entry_context x h) σ ->
  exists i j, registry_jobs accepts p σ !! i = Some j /\
    job_context j = entry_context x h /\ s ∈ job_pointers j.
Proof.
  intros Hin Hx Hp (j & Hj & Hs)%image_jobs_pointers.
  assert (j ∈ registry_jobs accepts p σ) as [i Hi]%list_elem_of_lookup.
  { apply list_elem_of_bind. exists (e, h). split; [|by apply elem_of_reverse].
    unfold apply_jobs. cbn [fst snd]. by rewrite Hx, Hp. }
  exists i, j. split_and!; [done|by eapply image_jobs_context|done].
Qed.

Lemma registry_jobs_context accepts p σ context :
  participates (fun i => registry_jobs accepts p σ !! i) context ->
  exists e x h, rebinds p !! e = Some x /\ context = entry_context x h.
Proof.
  intros (i & j & Hj%list_elem_of_lookup_2 & <-).
  apply list_elem_of_bind in Hj as ([e h] & Hj & _). unfold apply_jobs in Hj.
  cbn [fst snd] in Hj. destruct (rebinds p !! e) as [x|] eqn:Hx; [|by apply not_elem_of_nil in Hj].
  destruct (Registry.participates _ _ _); [|by apply not_elem_of_nil in Hj].
  exists e, x, h. split; [done|]. by eapply image_jobs_context.
Qed.

(** No replacement is itself replaced, so a slot is rewritten at most once. *)
Definition no_chain (p : process) : Prop :=
  forall e e' x x', rebinds p !! e = Some x -> rebinds p !! e' = Some x' ->
    RorkHookStripPointer (replacement x) <> RorkHookStripPointer (replacee x').

Lemma no_chain_keeps_out accepts p σ e x h :
  no_chain p -> rebinds p !! e = Some x ->
  keeps_out (fun i => registry_jobs accepts p σ !! i) (entry_context x h).
Proof.
  intros Hn Hx c (e' & x' & h' & Hx' & ->)%registry_jobs_context. by eapply Hn.
Qed.

End Jobs.

(** ** Properties *)

Section Properties.
Context {K : Type} {T : Target} {Kern : Kernel K} {SD : SectionData} {L : Loader}.
Context {Laws : KernelLaws K} {TLaws : TPROLaws K} {ALaws : PointerAuthLaws T}.
Implicit Types σ : machine K.

(** One rewriting at most: a slot holds its own value, or the replacement of an
    entry whose replacee its own value resolved to. *)
Lemma rewrites_once accepts p σ s v w :
  let jobs := fun i => registry_jobs accepts p σ !! i in
  no_chain p -> (forall c, participates jobs c -> is_u64 (rebind_replacement c)) ->
  rewrites jobs s v w ->
  w = v \/ exists e x h, rebinds p !! e = Some x /\ matches (entry_context x h) v = true /\
    RorkHookStripPointer w = RorkHookStripPointer (replacement x).
Proof using Laws ALaws.
  intros jobs Hn Hu. induction 1 as [|c w Hc Hw IH Hm]; [by left|right].
  destruct (registry_jobs_context _ _ _ _ Hc) as (e & x & h & Hx & ->).
  exists e, x, h. split; [done|]. split; [|by apply final_value_strips, Hu].
  destruct IH as [->|(e' & x' & h' & Hx' & _ & Hs)]; [done|exfalso].
  unfold matches in Hm. apply andb_true_iff in Hm as [_ Hm%Z.eqb_eq].
  cbn [entry_context replaceeRaw] in Hm. rewrite Hs in Hm. by eapply Hn in Hm.
Qed.

(** C4: registered rebinds take effect.  However registrations, dyld's callback and
    image loads interleaved, and however the checks and stores they perform
    interleave: suppose that no registered replacement is itself replaced
    ([no_chain]), that every check of a section and of a store succeeds whichever pages
    of the slots are read-write ([always_ready]), and that the TPRO window can be
    opened.  When the calls are over and every application has run, with nothing
    refused, no slot of a loaded image that takes part in a published entry resolves
    to that entry's replacee; each slot holds what it held, or resolves to the
    replacement of an entry whose replacee it resolved to. *)
Theorem registered_rebinds_take_effect accepts loaded p ws σ q e x h s :
  let jobs := fun i => registry_jobs accepts p σ !! i in
  loadable loaded -> rtc step (process_init loaded) p -> quiescent p -> no_chain p ->
  jobs_ok jobs σ -> always_ready jobs σ -> window_works σ ->
  pool_steps (Pool (job_thread jobs) ws σ) q ->
  (forall i, result (threads q i) = Some tt) -> ~ refused σ (shared q) ->
  published p e -> rebinds p !! e = Some x -> h ∈ images p ->
  Registry.participates accepts x h = true -> s ∈ image_slots (entry_context x h) σ ->
  let old := peek_u64 σ (fst s) in let new := peek_u64 (shared q) (fst s) in
  matches (entry_context x h) new = false /\
  (new = old \/ exists e' x' h', rebinds p !! e' = Some x' /\
     matches (entry_context x' h') old = true /\
     RorkHookStripPointer new = RorkHookStripPointer (replacement x')).
Proof using Laws TLaws ALaws.
  intros jobs Hl Hs Hq Hn Hok Hy Hw Hsteps Hres Hno He Hx Hh Hp Hin old new.
  destruct (steps_inv _ _ _ (init_inv _ Hl) Hs) as (pub & Hinv & _).
  assert ((e, h) ∈ applied p) as Happ.
  { apply (inv_published _ _ _ Hinv) in He.
    destruct (inv_covered _ _ Hinv e h He Hh) as [?|(t & r & Ht & Ho)]; [done|exfalso].
    unfold quiescent in Hq. rewrite Forall_lookup in Hq. specialize (Hq t r Ht). by destruct r. }
  destruct (apply_jobs_covered accepts p σ e x h s Happ Hx Hp Hin) as (i & j & Hj & Hc & Hsj).
  destruct (jobs_reach jobs ws σ q Hok Hsteps) as [HI Hrg]. split.
  - destruct (rg_action _ _ _ _ _ _ _ (Hrg i) HI) as [_ Hpost].
    destruct (proj2 (Hpost tt (Hres i)) j Hj s Hsj) as [Hm|[Hr|[Hbad|Hbad]]]; [|done..].
    rewrite Hc in Hm. apply Hm. by eapply no_chain_keeps_out.
  - eapply rewrites_once; [done|apply (jo_pointer _ _ Hok)|].
    apply (il_slot _ _ _ HI). by exists i, j.
Qed.
End Properties.

(** ** Witness *)

(** A call registers the rebind of [got_machine]'s symbol in a process with that
    image; the process enforces TPRO, which does not guard the pages.  The callback
    and the enumeration both apply the entry, and their stores interleave. *)
Definition one_call_end : process :=
  default (process_init [0x4000])
    (Registry.run (call (process_init [0x4000]) 0x9000) (replicate 12 0%nat)).
Definition enforced_got : machine sim :=
  Machine (kern (tpro_machine [(1, 1); (3, 1)] [] 1)) (mem got_machine) [].
Definition all_images (_ _ : Z) : bool := true.
Definition one_call_jobs (i : nat) : option job :=
  registry_jobs (T := device) (SD := got_sections) all_images one_call_end enforced_got !! i.
Definition one_call_entry : RorkHookGlobalRebind := GlobalRebind 0x1000 0x20000 0x50000 NULL NULL.

Lemma one_call_steps :
  rtc (Registry.step (T := device) (L := sim_loader)) (process_init [0x4000]) one_call_end.
Proof.
  etrans; [by apply (call_steps (process_init [0x4000]) 0x9000)|].
  apply (run_steps _ (replicate 12 0%nat)). by vm_compute.
Qed.

Lemma one_call_rebinds e x :
  rebinds one_call_end !! e = Some x -> x = one_call_entry.
Proof.
  replace (rebinds one_call_end) with ({[ 0x9000 := one_call_entry ]} : gmap Z RorkHookGlobalRebind)
    by (by vm_compute).
  by intros [_ <-]%lookup_singleton_Some.
Qed.

Lemma one_call_job i j :
  one_call_jobs i = Some j -> (i < 2)%nat /\ j = Job got_context 0xc000 24 true.
Proof.
  unfold one_call_jobs. replace (registry_jobs _ _ _)
    with [Job got_context 0xc000 24 true; Job got_context 0xc000 24 true] by (by vm_compute).
  destruct i as [|[|i]]; intros [= <-]; split; done || lia.
Qed.

Lemma one_call_slots s :
  shared_slot one_call_jobs s -> s ∈ [(0xc000, true); (0xc008, true); (0xc010, true)].
Proof. by intros (i & j & [_ ->]%one_call_job & Hs). Qed.

Lemma enforced_got_ok : jobs_ok one_call_jobs enforced_got.
Proof.
  split.
  - intros i j [_ ->]%one_call_job. by split_and!.
  - by intros c (i & j & [_ ->]%one_call_job & <-).
  - intros s t Hs%one_call_slots Ht%one_call_slots. unfold apart.
    rewrite !elem_of_cons, elem_of_nil in Hs, Ht.
    destruct Hs as [->|[->|[->|[]]]], Ht as [->|[->|[->|[]]]]; cbn; auto; right; lia.
  - intros s x Hs%one_call_slots Hx. unfold slot_covers in Hx.
    refine (proj1 (range_all_spec (readable enforced_got) 0xc000 24) _ x _); [by vm_compute|].
    rewrite !elem_of_cons, elem_of_nil in Hs.
    destruct Hs as [->|[->|[->|[]]]]; cbn in Hx; lia.
Qed.

Lemma enforced_got_ready : always_ready (T := device) one_call_jobs enforced_got.
Proof.
  intros k _ Hk.
  assert (forall x, page_base SIM_PAGE x = 0xc000 ->
    exists p, sim_page_prot k x = Some p /\ prot_has p VM_PROT_READ = true) as Hpage.
  { intros x Hx. apply (sim_page_kept one_call_jobs (kern enforced_got) k x 1); [apply Hk| |done].
    rewrite sim_page_prot_page, Hx. by vm_compute. }
  split.
  - destruct (Hpage 0xc000) as (p & Hp & Hr); [done|].
    intros i j [_ ->]%one_call_job _. by apply (sim_section_ready k 0xc000 24 p).
  - intros s Hs%one_call_slots. rewrite !elem_of_cons, elem_of_nil in Hs.
    destruct (Hpage (fst s)) as (p & Hp & Hr); [by destruct Hs as [->|[->|[->|[]]]]|].
    apply (sim_ready k (fst s) p); try done; by destruct Hs as [->|[->|[->|[]]]].
Qed.

Lemma registered_rebinds_take_effect_witness :
  exists q, pool_steps (Pool (job_thread (T := device) one_call_jobs) (fun _ => false) enforced_got) q /\
    peek_u64 (shared q) 0xc000 = 0x50000 + 2 ^ 48 * (1 + 0xc000 mod 2 ^ 15) /\
    let old := peek_u64 enforced_got 0xc000 in let new := peek_u64 (shared q) 0xc000 in
    matches (T := device) (entry_context (T := device) one_call_entry 0x4000) new = false /\
    (new = old \/ exists e' x' h', rebinds one_call_end !! e' = Some x' /\
       matches (T := device) (entry_context (T := device) x' h') old = true /\
       RorkHookStripPointer (T := device) new = RorkHookStripPointer (T := device) (replacement x')).
Proof.
  assert (match run_schedule (Pool (job_thread (T := device) one_call_jobs) (fun _ => false) enforced_got)
      (replicate 4 1 ++ replicate 16 0 ++ replicate 12 1)%nat with
    | Some q => Some ([result (threads q 0); result (threads q 1)], peek_u64 (shared q) 0xc000,
        forallb accepted (log (shared q)))
    | None => None end =
    Some ([Some tt; Some tt], 0x50000 + 2 ^ 48 * (1 + 0xc000 mod 2 ^ 15), true)) as Hrun
    by (by vm_compute).
  destruct (run_schedule _ _) as [q|] eqn:Hq; [|done].
  apply (inj Some), pair_equal_spec in Hrun as [[Hres Hval]%pair_equal_spec Hlog].
  pose proof (run_schedule_steps _ _ _ Hq) as Hsteps.
  exists q. split; [exact Hsteps|]. split; [exact Hval|].
  apply (registered_rebinds_take_effect (T := device) (SD := got_sections) (L := sim_loader)
    all_images [0x4000] one_call_end (fun _ => false) enforced_got q 0x9000 one_call_entry 0x4000 (0xc000, true)).
  - split; [|done]. intros H. by apply list_elem_of_singleton in H.
  - apply one_call_steps.
  - by vm_compute; repeat constructor.
  - intros e e' x x' ->%one_call_rebinds ->%one_call_rebinds. done.
  - apply enforced_got_ok.
  - apply enforced_got_ready.
  - intros _. by vm_compute.
  - exact Hsteps.
  - intros [|[|i]]; [congruence..|]. erewrite run_schedule_others; [|exact Hq|].
    + cbn [threads]. unfold job_thread.
      destruct (one_call_jobs (S (S i))) as [j|] eqn:Hj; [|done].
      apply one_call_job in Hj as [Hj _]. lia.
    + rewrite !elem_of_app, !elem_of_replicate. lia.
  - by apply accepted_not_refused.
  - exists [0x9000]. split; [|apply list_elem_of_here]. split_and!; [by vm_compute|done|].
    exists one_call_entry. split; by vm_compute.
  - by vm_compute.
  - apply list_elem_of_here.
  - done.
  - replace (image_slots _ _) with [(0xc000, true); (0xc008, true); (0xc010, true)]
      by (by vm_compute). apply list_elem_of_here.
Defined.
