(* ===== verification/DyldCache.v ===== *)
(** The parser of the dyld shared cache: RorkHookSharedCache.c up to
    [RorkHookFindSharedCacheSymbolInData], and the cache records of
    private/RorkHookDyldCache.h.

    Every read goes through a bounded view of a byte range; a record is read into a
    local variable and its members are taken from the copy.  The parser is first
    shown equal to a pure lookup in the two views ([shared_symbol]), and that lookup
    to depend on the bytes of the views only ([file_symbol]). *)
From stdpp Require Import strings.
From S2P Require Import Prelude Machine Logic Sim CString Regions LoadCommands Symbols.
Open Scope Z_scope.

(** ** Cache records

    A structure is the list of its members; a member has a name, the size of its
    elements, which is also its alignment, and their number. *)
Record member := Member { member_name : string; member_size : Z; member_count : Z }.

Definition bytes_member (name : string) (n : Z) : member := Member name 1 n.
Definition u32_member (name : string) : member := Member name 4 1.
Definition u64_member (name : string) : member := Member name 8 1.

(** [offset] rounded up to an alignment. *)
Definition aligned (offset alignment : Z) : Z := (offset + alignment - 1) / alignment * alignment.

(** [offsetof] and [sizeof], by the layout rules of C. *)
Fixpoint offset_from (members : list member) (name : string) (offset : Z) : Z :=
  match members with
  | [] => offset
  | m :: members =>
      let start := aligned offset (member_size m) in
      if bool_decide (member_name m = name) then start
      else offset_from members name (start + member_size m * member_count m)
  end.
Definition offsetof (struct : list member) (name : string) : Z := offset_from struct name 0.

Fixpoint end_from (members : list member) (offset : Z) : Z :=
  match members with
  | [] => offset
  | m :: members =>
      end_from members (aligned offset (member_size m) + member_size m * member_count m)
  end.
Definition sizeof (struct : list member) : Z :=
  aligned (end_from struct 0) (foldr Z.max 1 (member_size <$> struct)).

Definition RorkHookDyldCacheHeader : list member :=
  [bytes_member "magic" 16; u32_member "mappingOffset"; u32_member "mappingCount";
   u32_member "imagesOffsetOld"; u32_member "imagesCountOld"; u64_member "dyldBaseAddress";
   u64_member "codeSignatureOffset"; u64_member "codeSignatureSize";
   u64_member "slideInfoOffsetUnused"; u64_member "slideInfoSizeUnused";
   u64_member "localSymbolsOffset"; u64_member "localSymbolsSize"; bytes_member "uuid" 16;
   u64_member "cacheType"; u32_member "branchPoolsOffset"; u32_member "branchPoolsCount";
   u64_member "dyldInCacheMH"; u64_member "dyldInCacheEntry"; u64_member "imagesTextOffset";
   u64_member "imagesTextCount"; u64_member "patchInfoAddr"; u64_member "patchInfoSize";
   u64_member "otherImageGroupAddrUnused"; u64_member "otherImageGroupSizeUnused";
   u64_member "progClosuresAddr"; u64_member "progClosuresSize";
   u64_member "progClosuresTrieAddr"; u64_member "progClosuresTrieSize"; u32_member "platform";
   u32_member "formatAndFlags"; u64_member "sharedRegionStart"; u64_member "sharedRegionSize";
   u64_member "maxSlide"; u64_member "dylibsImageArrayAddr"; u64_member "dylibsImageArraySize";
   u64_member "dylibsTrieAddr"; u64_member "dylibsTrieSize"; u64_member "otherImageArrayAddr";
   u64_member "otherImageArraySize"; u64_member "otherTrieAddr"; u64_member "otherTrieSize";
   u32_member "mappingWithSlideOffset"; u32_member "mappingWithSlideCount";
   u64_member "dylibsPBLStateArrayAddrUnused"; u64_member "dylibsPBLSetAddr";
   u64_member "programsPBLSetPoolAddr"; u64_member "programsPBLSetPoolSize";
   u64_member "programTrieAddr"; u32_member "programTrieSize"; u32_member "osVersion";
   u32_member "altPlatform"; u32_member "altOsVersion"; u64_member "swiftOptsOffset";
   u64_member "swiftOptsSize"; u32_member "subCacheArrayOffset";
   u32_member "subCacheArrayCount"; bytes_member "symbolFileUUID" 16;
   u64_member "rosettaReadOnlyAddr"; u64_member "rosettaReadOnlySize";
   u64_member "rosettaReadWriteAddr"; u64_member "rosettaReadWriteSize";
   u32_member "imagesOffset"; u32_member "imagesCount"].

Definition RorkHookDyldCacheImageInfo : list member :=
  [u64_member "address"; u64_member "modTime"; u64_member "inode"; u32_member "pathFileOffset";
   u32_member "pad"].

Definition RorkHookDyldCacheLocalSymbolsInfo : list member :=
  [u32_member "nlistOffset"; u32_member "nlistCount"; u32_member "stringsOffset";
   u32_member "stringsSize"; u32_member "entriesOffset"; u32_member "entriesCount"].

Definition RorkHookDyldCacheLocalSymbolsEntry32 : list member :=
  [u32_member "dylibOffset"; u32_member "nlistStartIndex"; u32_member "nlistCount"].

Definition RorkHookDyldCacheLocalSymbolsEntry64 : list member :=
  [u64_member "dylibOffset"; u32_member "nlistStartIndex"; u32_member "nlistCount"].

(** A member of a local copy of a structure. *)
Definition member_value (struct : list member) (record : list byte) (name : string) (size : nat)
    : Z :=
  le_combine (take size (drop (Z.to_nat (offsetof struct name)) record)).

Section SharedCache.
Context {K : Type} {T : Target} {Kern : Kernel K}.
Implicit Types σ : machine K.

(** ** Operations *)

Record RorkHookDataView := DataView { bytes : Z; size : Z }.

Definition RorkHookDataAt (view : RorkHookDataView) (offset length : Z) : Z :=
  if (bytes view =? NULL) || (SIZE_MAX <? offset) then NULL else
  let nativeOffset := offset in
  if (size view <? nativeOffset) || (u64 (size view - nativeOffset) <? length) then NULL
  else bytes view + nativeOffset.

Definition RorkHookIndexedOffset (base index stride : Z) (offsetOut : option Z)
    : bool * option Z :=
  match offsetOut with
  | None => (false, None)
  | Some _ =>
      let elementOffset := index * stride in
      if UINT64_MAX <? elementOffset then (false, offsetOut) else
      let result := base + elementOffset in
      if UINT64_MAX <? result then (false, offsetOut) else (true, Some result)
  end.

(** [record] is the storage the bytes are copied to. *)
Definition RorkHookReadRecord (view : RorkHookDataView) (offset : Z)
    (record : option (list byte)) (recordSize : Z) : M K (bool * option (list byte)) :=
  if bool_decide (record = None) || (recordSize =? 0) then ret (false, record) else
  let bytes := RorkHookDataAt view offset recordSize in
  if bytes =? NULL then ret (false, record) else
  let* content := load_bytes bytes (Z.to_nat recordSize) in
  ret (true, Some content).

Definition RorkHookStringEquals (view : RorkHookDataView) (offset : Z)
    (expected : option (list byte)) : M K bool :=
  match expected with
  | None => ret false
  | Some expected =>
  if (bytes view =? NULL) || (SIZE_MAX <? offset) || (size view <=? offset) then ret false else
  let candidate := bytes view + offset in
  let remaining := u64 (size view - offset) in
  let* terminator := memchr candidate 0 remaining in
  match terminator with
  | None => ret false
  | Some terminator =>
      let candidateLength := u64 (terminator - candidate) in
      let expectedLength := Z.of_nat (length expected) in
      if candidateLength =? expectedLength
      then memcmp_eq candidate expected expectedLength else ret false
  end
  end.

(** A record read into a fresh local variable. *)
Definition read_struct (view : RorkHookDataView) (offset : Z) (struct : list member)
    : M K (option (list byte)) :=
  let* (ok, record) := RorkHookReadRecord view offset (Some []) (sizeof struct) in
  ret (if ok then record else None).

(** The record at an index of a table; the local variable of the offset starts at
    zero. *)
Definition read_indexed (view : RorkHookDataView) (base index : Z) (struct : list member)
    : M K (option (list byte)) :=
  let '(ok, offset) := RorkHookIndexedOffset base index (sizeof struct) (Some 0) in
  if negb ok then ret None else read_struct view (default 0 offset) struct.

(** ["dyld_v1"] *)
Definition dyld_v1 : list byte :=
  byte_of <$> [0x64; 0x79; 0x6c; 0x64; 0x5f; 0x76; 0x31].
Definition magic_matches (header : list byte) : bool :=
  bool_decide (take 7 header = dyld_v1).

(** One iteration of the image loop: [inr None] is [return NULL], [inr (Some i)]
    the end of the loop with [imageIndex = i]. *)
Definition image_step (mainView : RorkHookDataView) (imagesOffset imagesCount : Z)
    (imagePath : list byte) (index : Z) : M K (Z + option Z) :=
  if negb (index <? imagesCount) then ret (inr (Some UINT64_MAX)) else
  let* imageInfo := read_indexed mainView imagesOffset index RorkHookDyldCacheImageInfo in
  match imageInfo with
  | None => ret (inr None)
  | Some imageInfo =>
      let pathFileOffset :=
        member_value RorkHookDyldCacheImageInfo imageInfo "pathFileOffset" 4 in
      let* found := RorkHookStringEquals mainView pathFileOffset (Some imagePath) in
      if found then ret (inr (Some index)) else ret (inl (u64 (index + 1)))
  end.

(** The image table of a cache: the modern location, or else the legacy one. *)
Definition images_table (mainHeader : list byte) : Z * Z :=
  let header name := member_value RorkHookDyldCacheHeader mainHeader name 4 in
  if (header "imagesOffset" =? 0) || (header "imagesCount" =? 0)
  then (header "imagesOffsetOld", header "imagesCountOld")
  else (header "imagesOffset", header "imagesCount").

(** The bounds of the local-symbol region; [None] is [return NULL]. *)
Definition local_view (symbolsView : RorkHookDataView) (symbolsHeader : list byte)
    : option RorkHookDataView :=
  let header name := member_value RorkHookDyldCacheHeader symbolsHeader name 8 in
  let localSymbolsOffset := header "localSymbolsOffset" in
  let localSymbolsSize := header "localSymbolsSize" in
  if (localSymbolsOffset =? 0) || (SIZE_MAX <? localSymbolsOffset) then None else
  let localBase := localSymbolsOffset in
  if (size symbolsView <? localBase) || (SIZE_MAX <? localSymbolsSize) then None else
  let localSize := if localSymbolsSize =? 0 then u64 (size symbolsView - localBase)
                   else localSymbolsSize in
  if u64 (size symbolsView - localBase) <? localSize then None
  else Some (DataView (bytes symbolsView + localBase) localSize).

(** The range of an image's symbols: its first index and its count, from the
    per-image entry. *)
Definition nlist_range (localView : RorkHookDataView) (uses64BitEntry : bool)
    (entriesOffset imageIndex : Z) : M K (option (Z * Z)) :=
  let struct := if uses64BitEntry then RorkHookDyldCacheLocalSymbolsEntry64
                else RorkHookDyldCacheLocalSymbolsEntry32 in
  let* entry := read_indexed localView entriesOffset imageIndex struct in
  ret ((fun entry => (member_value struct entry "nlistStartIndex" 4,
                      member_value struct entry "nlistCount" 4)) <$> entry).

(** One iteration of the symbol loop. *)
Definition symbol_step (localView stringsView : RorkHookDataView) (nlistOffset nlistEnd slide : Z)
    (symbolName : list byte) (index : Z) : M K (Z + Z) :=
  if negb (index <? nlistEnd) then ret (inr NULL) else
  let continue := ret (inl (u64 (index + 1))) in
  let '(ok, symbolOffset) := RorkHookIndexedOffset nlistOffset index sizeof_nlist (Some 0) in
  if negb ok then continue else
  let* (ok, symbol) :=
    RorkHookReadRecord localView (default 0 symbolOffset) (Some []) sizeof_nlist in
  if negb ok then continue else
  let symbol := nlist_of_bytes (default [] symbol) in
  if (n_strx symbol =? 0) || (size stringsView <=? n_strx symbol) ||
     negb (Z.land (n_type symbol) N_TYPE =? N_SECT)
  then continue else
  let* named := RorkHookStringEquals stringsView (n_strx symbol) (Some symbolName) in
  if negb named then continue else
  if UINTPTR_MAX - slide <? n_value symbol then ret (inr NULL) else
  let* result := RorkHookSignPointerIfExecutable (u64 (slide + n_value symbol)) in
  ret (inr result).

(** The search of the local-symbol region. *)
Definition find_local_symbol (localView : RorkHookDataView) (uses64BitEntry : bool)
    (imageIndex slide : Z) (symbolName : list byte) : M K Z :=
  let* symbolsInfo := read_struct localView 0 RorkHookDyldCacheLocalSymbolsInfo in
  match symbolsInfo with
  | None => ret NULL
  | Some symbolsInfo =>
  let info name := member_value RorkHookDyldCacheLocalSymbolsInfo symbolsInfo name 4 in
  if info "entriesCount" <=? imageIndex then ret NULL else
  let* range := nlist_range localView uses64BitEntry (info "entriesOffset") imageIndex in
  match range with
  | None => ret NULL
  | Some (nlistStartIndex, nlistCount) =>
  let nlistEnd := nlistStartIndex + nlistCount in
  if (UINT64_MAX <? nlistEnd) || (info "nlistCount" <? nlistEnd) then ret NULL else
  let nlistTableSize := info "nlistCount" * sizeof_nlist in
  if (UINT64_MAX <? nlistTableSize) || (SIZE_MAX <? nlistTableSize) ||
     (RorkHookDataAt localView (info "nlistOffset") nlistTableSize =? NULL) ||
     (RorkHookDataAt localView (info "stringsOffset") (info "stringsSize") =? NULL)
  then ret NULL else
  let stringsView := DataView (bytes localView + info "stringsOffset") (info "stringsSize") in
  loopM FUEL64 (symbol_step localView stringsView (info "nlistOffset") nlistEnd slide symbolName)
    nlistStartIndex
  end
  end.

Definition RorkHookFindSharedCacheSymbolInData (mainData mainSize symbolsData symbolsSize slide : Z)
    (imagePath symbolName : option (list byte)) : M K Z :=
  match imagePath, symbolName with
  | Some imagePath, Some symbolName =>
  if (mainData =? NULL) || (symbolsData =? NULL) then ret NULL else
  let mainView := DataView mainData mainSize in
  let symbolsView := DataView symbolsData symbolsSize in
  let* mainHeader := read_struct mainView 0 RorkHookDyldCacheHeader in
  match mainHeader with
  | None => ret NULL
  | Some mainHeader =>
  let* symbolsHeader := read_struct symbolsView 0 RorkHookDyldCacheHeader in
  match symbolsHeader with
  | None => ret NULL
  | Some symbolsHeader =>
  if negb (magic_matches mainHeader) || negb (magic_matches symbolsHeader) then ret NULL else
  let '(imagesOffset, imagesCount) := images_table mainHeader in
  if (imagesOffset =? 0) || (imagesCount =? 0) then ret NULL else
  let imageTableSize := imagesCount * sizeof RorkHookDyldCacheImageInfo in
  if (UINT64_MAX <? imageTableSize) || (SIZE_MAX <? imageTableSize) ||
     (RorkHookDataAt mainView imagesOffset imageTableSize =? NULL)
  then ret NULL else
  let* imageIndex := loopM FUEL64 (image_step mainView imagesOffset imagesCount imagePath) 0 in
  match imageIndex with
  | None => ret NULL
  | Some imageIndex =>
  if imageIndex =? UINT64_MAX then ret NULL else
  match local_view symbolsView symbolsHeader with
  | None => ret NULL
  | Some localView =>
      let uses64BitEntry :=
        offsetof RorkHookDyldCacheHeader "symbolFileUUID" <=?
        member_value RorkHookDyldCacheHeader mainHeader "mappingOffset" 4 in
      find_local_symbol localView uses64BitEntry imageIndex slide symbolName
  end
  end
  end
  end
  | _, _ => ret NULL
  end.
End SharedCache.

(** ** Views *)

Section Views.
Context {K : Type} {T : Target} {Kern : Kernel K} {Laws : KernelLaws K}.
Implicit Types σ : machine K.

(** A view of memory that can be read and does not wrap. *)
Record view_ok σ (v : RorkHookDataView) : Prop := {
  vo_bytes : 0 < bytes v;
  vo_size : 0 <= size v;
  vo_end : bytes v + size v < 2 ^ 64;
  vo_readable : range_readable σ (bytes v) (size v)
}.

Definition in_view (v : RorkHookDataView) (offset length : Z) : bool :=
  (offset <=? size v) && (length <=? size v - offset).

Lemma RorkHookDataAt_eq σ v offset length :
  view_ok σ v -> 0 <= offset -> 0 <= length ->
  RorkHookDataAt v offset length = if in_view v offset length then bytes v + offset else NULL.
Proof.
  intros [Hb Hs He _] Ho Hl. unfold RorkHookDataAt, in_view, SIZE_MAX, UINT64_MAX, NULL.
  replace (bytes v =? 0) with false by lia. cbn [orb].
  destruct (Z.leb_spec offset (size v)) as [Hle|Hgt]; cbn [andb].
  - rewrite u64_small by (unfold is_u64; lia).
    replace (2 ^ 64 - 1 <? offset) with false by lia.
    replace (size v <? offset) with false by lia. cbn [orb].
    rewrite Z.leb_antisym. by destruct (_ <? length).
  - destruct (2 ^ 64 - 1 <? offset); [done|]. by replace (size v <? offset) with true by lia.
Qed.

Lemma in_view_readable σ v offset n :
  view_ok σ v -> 0 <= offset -> in_view v offset n = true ->
  range_readable σ (bytes v + offset) n.
Proof.
  unfold in_view. intros [_ _ _ Hr] Ho Hi. eapply range_readable_sub; [exact Hr|lia|lia].
Qed.

Lemma RorkHookReadRecord_eq σ v offset old n :
  view_ok σ v -> 0 <= offset -> 0 < n ->
  RorkHookReadRecord v offset (Some old) n σ =
  Ret (if in_view v offset n then (true, Some (peeks σ (bytes v + offset) (Z.to_nat n)))
       else (false, Some old)) σ.
Proof.
  intros Hv Ho Hn. unfold RorkHookReadRecord. rewrite bool_decide_eq_false_2 by done.
  replace (n =? 0) with false by lia. cbn [orb].
  rewrite (RorkHookDataAt_eq σ) by (done || lia).
  destruct (in_view v offset n) eqn:Hi; [|done].
  pose proof (vo_bytes _ _ Hv). replace (_ =? NULL) with false by (unfold NULL; lia).
  erewrite bind_Ret; [done|]. apply load_bytes_ok. rewrite Z2Nat.id by lia.
  by apply in_view_readable.
Qed.

(** The record at an offset of a view, when it lies inside. *)
Definition struct_at σ (v : RorkHookDataView) (offset : Z) (struct : list member)
    : option (list byte) :=
  if in_view v offset (sizeof struct)
  then Some (peeks σ (bytes v + offset) (Z.to_nat (sizeof struct))) else None.

Lemma read_struct_eq σ v offset struct :
  view_ok σ v -> 0 <= offset -> 0 < sizeof struct ->
  read_struct v offset struct σ = Ret (struct_at σ v offset struct) σ.
Proof.
  intros. unfold read_struct, struct_at.
  erewrite bind_Ret by by apply RorkHookReadRecord_eq. by destruct (in_view _ _ _).
Qed.

Lemma RorkHookIndexedOffset_eq base index stride old :
  0 <= base -> 0 <= index -> 0 <= stride ->
  RorkHookIndexedOffset base index stride (Some old) =
  if UINT64_MAX <? base + index * stride then (false, Some old)
  else (true, Some (base + index * stride)).
Proof.
  intros. unfold RorkHookIndexedOffset. destruct (Z.ltb_spec UINT64_MAX (index * stride)); [|done].
  by replace (UINT64_MAX <? base + index * stride) with true by lia.
Qed.

Lemma read_indexed_eq σ v base index struct :
  view_ok σ v -> 0 <= base -> 0 <= index -> 0 < sizeof struct ->
  read_indexed v base index struct σ =
  Ret (struct_at σ v (base + index * sizeof struct) struct) σ.
Proof.
  intros Hv Hb Hi Hs. unfold read_indexed. rewrite RorkHookIndexedOffset_eq by lia.
  destruct (Z.ltb_spec UINT64_MAX (base + index * sizeof struct)) as [Hlt|]; cbn [negb].
  - unfold struct_at, in_view. pose proof (vo_end _ _ Hv). pose proof (vo_bytes _ _ Hv).
    unfold UINT64_MAX in Hlt. by replace (_ <=? size v) with false by lia.
  - by apply read_struct_eq; [|lia|].
Qed.

(** The string at an offset of a view, when it ends inside. *)
Definition string_at σ (v : RorkHookDataView) (offset : Z) : option (list byte) :=
  if offset <? size v then cstring σ (bytes v + offset) (size v - offset) else None.

Lemma RorkHookStringEquals_eq σ v offset expected :
  view_ok σ v -> 0 <= offset ->
  RorkHookStringEquals v offset (Some expected) σ =
  Ret (bool_decide (string_at σ v offset = Some expected)) σ.
Proof.
  intros Hv Ho. pose proof Hv as [Hb Hs He Hr].
  unfold RorkHookStringEquals, string_at, SIZE_MAX, UINT64_MAX, NULL.
  replace (bytes v =? 0) with false by lia. cbn [orb].
  destruct (Z.ltb_spec offset (size v)) as [Hlt|Hge].
  2:{ replace (size v <=? offset) with true by lia. by rewrite orb_true_r. }
  replace (2 ^ 64 - 1 <? offset) with false by lia.
  replace (size v <=? offset) with false by lia. cbn [orb].
  rewrite (u64_small (size v - offset)) by (unfold is_u64; lia).
  assert (range_readable σ (bytes v + offset) (size v - offset)) as Hr'.
  { eapply range_readable_sub; [exact Hr|lia|lia]. }
  erewrite bind_Ret by (apply memchr_eq; [lia|done]).
  destruct (cstring σ _ _) as [str|] eqn:Hstr; [|done]. cbn [fmap option_fmap option_map].
  assert (0 <= size v - offset) as Hpos by lia.
  destruct (candidate_eq σ _ _ str expected Hpos Hstr) as [Hl <-].
  replace (bytes v + offset + Z.of_nat (length str) - (bytes v + offset))
    with (Z.of_nat (length str)) by lia.
  rewrite u64_small by (unfold is_u64; lia).
  destruct (Z.eqb_spec (Z.of_nat (length str)) (Z.of_nat (length expected))) as [Heq|]; [|done].
  cbn [andb]. unfold memcmp_eq. rewrite <- Heq, Nat2Z.id. unfold bind.
  by rewrite load_bytes_ok by (eapply range_readable_sub; [exact Hr'|lia|lia]).
Qed.

(** Members are unsigned. *)
Lemma member_value_u32 struct record name : is_u32 (member_value struct record name 4).
Proof.
  unfold member_value, is_u32.
  pose proof (le_combine_range (take 4 (drop (Z.to_nat (offsetof struct name)) record))) as Hr.
  rewrite length_take in Hr.
  assert (2 ^ (8 * Z.of_nat (4 `min` length (drop (Z.to_nat (offsetof struct name)) record))) <= 2 ^ 32).
  { apply Z.pow_le_mono_r; lia. }
  lia.
Qed.

Lemma member_value_u64 struct record name : is_u64 (member_value struct record name 8).
Proof.
  unfold member_value, is_u64.
  pose proof (le_combine_range (take 8 (drop (Z.to_nat (offsetof struct name)) record))) as Hr.
  rewrite length_take in Hr.
  assert (2 ^ (8 * Z.of_nat (8 `min` length (drop (Z.to_nat (offsetof struct name)) record))) <= 2 ^ 64).
  { apply Z.pow_le_mono_r; lia. }
  lia.
Qed.

(** ** The image table *)

(** The first index in [[i, i + n)] that satisfies [f]. *)
Fixpoint first_index (f : Z -> bool) (n : nat) (i : Z) : option Z :=
  match n with
  | O => None
  | S n => if f i then Some i else first_index f n (i + 1)
  end.

Lemma first_index_spec f n i j :
  first_index f n i = Some j <->
  i <= j < i + Z.of_nat n /\ f j = true /\ forall k, i <= k < j -> f k = false.
Proof.
  revert i. induction n as [|n IH]; intros i; cbn [first_index].
  { split; [done|lia]. }
  destruct (f i) eqn:Hf.
  - split.
    + intros [= <-]. split_and!; [lia|lia|done|lia].
    + intros (Hj & Hfj & Hno). destruct (Z.eq_dec i j) as [->|]; [done|].
      rewrite (Hno i) in Hf by lia. done.
  - rewrite IH. split.
    + intros (Hj & Hfj & Hno). split_and!; [lia|lia|done|]. intros k Hk.
      destruct (Z.eq_dec k i) as [->|]; [done|]. apply Hno. lia.
    + intros (Hj & Hfj & Hno). destruct (Z.eq_dec i j) as [->|]; [congruence|].
      split_and!; [lia|lia|done|]. intros k Hk. apply Hno. lia.
Qed.

(** The install name of the [i]-th image. *)
Definition image_path σ (v : RorkHookDataView) (imagesOffset i : Z) : option (list byte) :=
  info ← struct_at σ v (imagesOffset + i * sizeof RorkHookDyldCacheImageInfo)
           RorkHookDyldCacheImageInfo;
  string_at σ v (member_value RorkHookDyldCacheImageInfo info "pathFileOffset" 4).

Definition sizeof_image_info : Z := 32.
Lemma sizeof_image_info_eq : sizeof RorkHookDyldCacheImageInfo = sizeof_image_info.
Proof. by vm_compute. Qed.

Section ImageLoop.
Context σ (v : RorkHookDataView) (imagesOffset imagesCount : Z) (path : list byte).
Context (Hview : view_ok σ v) (Hoffset : 0 <= imagesOffset) (Hcount : is_u32 imagesCount).
Context (Htable : in_view v imagesOffset (imagesCount * sizeof_image_info) = true).

Lemma image_step_eq i :
  0 <= i < imagesCount ->
  image_step v imagesOffset imagesCount path i σ =
  Ret (if bool_decide (image_path σ v imagesOffset i = Some path)
       then inr (Some i) else inl (i + 1)) σ.
Proof using Hview Hoffset Hcount Htable.
  intros Hi. unfold is_u32 in Hcount. unfold image_step.
  replace (i <? imagesCount) with true by lia. cbn [negb].
  rewrite (u64_small (i + 1)) by (unfold is_u64; lia).
  erewrite bind_Ret.
  2:{ apply read_indexed_eq; [done|done|lia|]. by rewrite sizeof_image_info_eq. }
  unfold image_path. rewrite sizeof_image_info_eq.
  unfold struct_at. rewrite sizeof_image_info_eq.
  unfold in_view, sizeof_image_info in *.
  replace (_ && _) with true by lia. cbn [mbind option_bind].
  match goal with |- context [member_value ?s ?r ?n 4] =>
    pose proof (member_value_u32 s r n) as Hm; set (off := member_value s r n 4) in * end.
  unfold is_u32 in Hm. erewrite bind_Ret by (apply RorkHookStringEquals_eq; [done|lia]).
  by destruct (bool_decide _).
Qed.

Lemma image_loop n extra i :
  0 <= i -> i + Z.of_nat n = imagesCount ->
  loopN (S n + extra) (image_step v imagesOffset imagesCount path) i σ =
  Ret (Some (default UINT64_MAX (first_index
    (fun i => bool_decide (image_path σ v imagesOffset i = Some path)) n i))) σ.
Proof using Hview Hoffset Hcount Htable.
  revert i. induction n as [|n IH]; intros i Hi Hn.
  - apply loopN_stop. unfold image_step. by replace (i <? imagesCount) with false by lia.
  - cbn [Nat.add first_index]. rewrite loopN_S. unfold bind. rewrite image_step_eq by lia.
    destruct (bool_decide _); [done|]. apply IH; lia.
Qed.

Definition image_index : option Z :=
  first_index (fun i => bool_decide (image_path σ v imagesOffset i = Some path))
    (Z.to_nat imagesCount) 0.

Lemma image_search :
  loopM FUEL64 (image_step v imagesOffset imagesCount path) 0 σ =
  Ret (Some (default UINT64_MAX image_index)) σ.
Proof using Hview Hoffset Hcount Htable.
  unfold is_u32 in Hcount. rewrite loopM_loopN.
  replace (Pos.to_nat FUEL64) with
    (S (Z.to_nat imagesCount) + (Pos.to_nat FUEL64 - S (Z.to_nat imagesCount)))%nat
    by (unfold FUEL64; lia).
  apply image_loop; lia.
Qed.
End ImageLoop.
End Views.

(** ** The local symbols *)

Section LocalSymbols.
Context {K : Type} {T : Target} {Kern : Kernel K} {Laws : KernelLaws K}.
Implicit Types σ : machine K.

Lemma sizeof_cache_header_eq : sizeof RorkHookDyldCacheHeader = 456.
Proof. by vm_compute. Qed.
Lemma sizeof_symbols_info_eq : sizeof RorkHookDyldCacheLocalSymbolsInfo = 24.
Proof. by vm_compute. Qed.

(** The local-symbol region lies inside the symbols view. *)
Lemma local_view_ok σ v header lv :
  view_ok σ v -> local_view v header = Some lv -> view_ok σ lv.
Proof.
  intros [Hb Hs He Hr] Hl. unfold local_view in Hl.
  pose proof (member_value_u64 RorkHookDyldCacheHeader header "localSymbolsOffset") as Ho.
  pose proof (member_value_u64 RorkHookDyldCacheHeader header "localSymbolsSize") as Hz.
  set (off := member_value _ _ "localSymbolsOffset" 8) in *.
  set (len := member_value _ _ "localSymbolsSize" 8) in *. unfold is_u64 in *.
  destruct ((off =? 0) || _); [done|].
  destruct (Z.ltb_spec (size v) off) as [|Hle]; [done|]. cbn [orb] in Hl.
  destruct (SIZE_MAX <? len); [done|]. rewrite u64_small in Hl by (unfold is_u64; lia).
  destruct (Z.ltb_spec (size v - off) (if len =? 0 then size v - off else len)) as [|Hfit];
    [done|]. injection Hl as <-.
  split; cbn [bytes size].
  - lia.
  - destruct (len =? 0); lia.
  - lia.
  - eapply range_readable_sub; [exact Hr|lia|lia].
Qed.

(** The symbols of one image: its entries in the table at [ls_table], and the
    string pool. *)
Record local_symbols := LocalSymbols {
  ls_first : Z; ls_count : Z; ls_table : Z; ls_strings : Z; ls_size : Z
}.

(** The per-image record, 64-bit or compact. *)
Definition entry_struct (uses64BitEntry : bool) : list member :=
  if uses64BitEntry then RorkHookDyldCacheLocalSymbolsEntry64
  else RorkHookDyldCacheLocalSymbolsEntry32.

Definition image_range σ (lv : RorkHookDataView) (uses64BitEntry : bool)
    (entriesOffset i : Z) : option (Z * Z) :=
  let struct := entry_struct uses64BitEntry in
  entry ← struct_at σ lv (entriesOffset + i * sizeof struct) struct;
  Some (member_value struct entry "nlistStartIndex" 4, member_value struct entry "nlistCount" 4).

Definition image_symbols σ (lv : RorkHookDataView) (uses64BitEntry : bool) (i : Z)
    : option local_symbols :=
  record ← struct_at σ lv 0 RorkHookDyldCacheLocalSymbolsInfo;
  let info name := member_value RorkHookDyldCacheLocalSymbolsInfo record name 4 in
  if info "entriesCount" <=? i then None else
  '(start, count) ← image_range σ lv uses64BitEntry (info "entriesOffset") i;
  if (start + count <=? info "nlistCount") &&
     in_view lv (info "nlistOffset") (info "nlistCount" * sizeof_nlist) &&
     in_view lv (info "stringsOffset") (info "stringsSize")
  then Some (LocalSymbols start count (bytes lv + info "nlistOffset")
               (bytes lv + info "stringsOffset") (info "stringsSize"))
  else None.

Definition local_symbol σ (t : local_symbols) (name : list byte) : option nlist :=
  find_entry σ (ls_table t) (ls_strings t) (ls_size t) name (Z.to_nat (ls_count t)) (ls_first t).

(** The slid address, when it is one. *)
Definition slid_value (slide : Z) (e : nlist) : option Z :=
  if n_value e <=? UINTPTR_MAX - slide then Some (slide + n_value e) else None.

Definition signed_result (k : K) (address : option Z) : Z :=
  match address with Some a => sign_pointer k a | None => NULL end.

Lemma nlist_range_eq σ lv u64bit entriesOffset i :
  view_ok σ lv -> 0 <= entriesOffset -> 0 <= i ->
  nlist_range lv u64bit entriesOffset i σ = Ret (image_range σ lv u64bit entriesOffset i) σ.
Proof.
  intros Hv Ho Hi. unfold nlist_range, image_range. fold (entry_struct u64bit).
  erewrite bind_Ret by (apply read_indexed_eq; [done..|by destruct u64bit; vm_compute]).
  by destruct (struct_at _ _ _ _).
Qed.

Section SymbolLoop.
Context σ (lv : RorkHookDataView) (nlistOffset nlistCount stringsOffset stringsSize : Z).
Context (start count slide : Z) (name : list byte).
Context (Hview : view_ok σ lv) (Hoffset : 0 <= nlistOffset) (Hcount : is_u32 nlistCount).
Context (Htable : in_view lv nlistOffset (nlistCount * sizeof_nlist) = true).
Context (Hsoffset : 0 <= stringsOffset) (Hssize : is_u32 stringsSize).
Context (Hstrings : in_view lv stringsOffset stringsSize = true).
Context (Hstart : 0 <= start) (Hend : start + count <= nlistCount) (Hslide : is_u64 slide).
Local Abbreviation sv := (DataView (bytes lv + stringsOffset) stringsSize).
Local Abbreviation entry i := (entry_at σ (bytes lv + nlistOffset) i).
Local Abbreviation matching e :=
  (entry_matches σ (bytes lv + stringsOffset) stringsSize name e).

Lemma strings_view_ok : view_ok σ sv.
Proof using Hview Hsoffset Hssize Hstrings.
  destruct Hview as [Hb Hs He Hr]. unfold in_view, is_u32 in *.
  split; cbn [bytes size]; try lia. eapply range_readable_sub; [exact Hr|lia|lia].
Qed.

Lemma symbol_step_eq i :
  start <= i < start + count ->
  symbol_step lv sv nlistOffset (start + count) slide name i σ =
  Ret (if matching (entry i)
       then inr (signed_result (kern σ) (slid_value slide (entry i)))
       else inl (i + 1)) σ.
Proof using All.
  intros Hi. unfold is_u32, is_u64 in Hcount, Hslide. unfold symbol_step.
  replace (i <? start + count) with true by lia. cbn [negb].
  rewrite (u64_small (i + 1)) by (unfold is_u64; lia).
  pose proof Hview as [Hb Hs He _].
  rewrite RorkHookIndexedOffset_eq by (unfold sizeof_nlist; lia).
  unfold in_view, sizeof_nlist in Htable |- *.
  replace (UINT64_MAX <? nlistOffset + i * 16) with false by (unfold UINT64_MAX; lia).
  cbn [negb from_option id].
  erewrite bind_Ret by (apply RorkHookReadRecord_eq; [done|lia|lia]).
  unfold in_view. replace (_ && _) with true by lia. cbn [negb from_option id].
  change (Z.to_nat 16) with 16%nat.
  replace (bytes lv + (nlistOffset + i * 16)) with (bytes lv + nlistOffset + i * sizeof_nlist)
    by (unfold sizeof_nlist; lia).
  fold (entry i). set (e := entry i).
  pose proof (entry_at_strx σ (bytes lv + nlistOffset) i) as Hx. fold e in Hx.
  unfold entry_matches. cbn [size]. rewrite Z.leb_antisym.
  destruct (n_strx e =? 0); [done|]. destruct (n_strx e <? stringsSize) eqn:Hlt; [|done].
  destruct (_ =? N_SECT); [|done]. cbn [negb orb andb].
  erewrite bind_Ret by (apply RorkHookStringEquals_eq; [apply strings_view_ok|lia]).
  unfold string_at. cbn [bytes size]. rewrite Hlt.
  destruct (bool_decide _); [|done]. cbn [negb]. unfold slid_value.
  pose proof (entry_at_value σ (bytes lv + nlistOffset) i) as Hval. fold e in Hval.
  unfold is_u64 in Hval. rewrite (Z.leb_antisym (UINTPTR_MAX - slide)).
  destruct (Z.ltb_spec (UINTPTR_MAX - slide) (n_value e)); [done|]. cbn [negb].
  unfold UINTPTR_MAX, UINT64_MAX in *. rewrite u64_small by (unfold is_u64; lia).
  by erewrite bind_Ret by apply RorkHookSignPointerIfExecutable_eq.
Qed.

Lemma symbol_loop n extra i :
  start <= i -> i + Z.of_nat n = start + count ->
  loopN (S n + extra) (symbol_step lv sv nlistOffset (start + count) slide name) i σ =
  Ret (signed_result (kern σ)
        (find_entry σ (bytes lv + nlistOffset) (bytes lv + stringsOffset) stringsSize name n i
           ≫= slid_value slide)) σ.
Proof using All.
  revert i. induction n as [|n IH]; intros i Hi Hn.
  - apply loopN_stop. unfold symbol_step. by replace (i <? _) with false by lia.
  - cbn [Nat.add find_entry]. rewrite loopN_S. unfold bind. rewrite symbol_step_eq by lia.
    destruct (entry_matches _ _ _ _ _); [done|]. apply IH; lia.
Qed.
End SymbolLoop.

Lemma find_local_symbol_eq σ lv u64bit i slide name :
  view_ok σ lv -> 0 <= i -> is_u64 slide ->
  find_local_symbol lv u64bit i slide name σ =
  Ret (signed_result (kern σ)
        (t ← image_symbols σ lv u64bit i; e ← local_symbol σ t name; slid_value slide e)) σ.
Proof using Laws.
  intros Hv Hi Hslide. unfold find_local_symbol, image_symbols.
  erewrite bind_Ret by (apply read_struct_eq; [done|done|by rewrite sizeof_symbols_info_eq]).
  destruct (struct_at σ lv 0 _) as [record|]; [|done]. cbn [mbind option_bind].
  assert (forall name, is_u32 (member_value RorkHookDyldCacheLocalSymbolsInfo record name 4))
    as Hinfo by (intros; apply member_value_u32).
  pose (info := fun name => member_value RorkHookDyldCacheLocalSymbolsInfo record name 4).
  change (forall name, is_u32 (info name)) in Hinfo. cbv beta zeta.
  repeat match goal with |- context [member_value RorkHookDyldCacheLocalSymbolsInfo record ?n 4] =>
    change (member_value RorkHookDyldCacheLocalSymbolsInfo record n 4) with (info n) end.
  clearbody info.
  destruct (info "entriesCount" <=? i); [done|].
  pose proof (Hinfo "entriesOffset") as Heo. pose proof (Hinfo "nlistCount") as Hnc.
  pose proof (Hinfo "nlistOffset") as Hno. pose proof (Hinfo "stringsOffset") as Hso.
  pose proof (Hinfo "stringsSize") as Hss. unfold is_u32 in Heo, Hno, Hso.
  erewrite bind_Ret by (apply nlist_range_eq; [done|lia|done]).
  destruct (image_range σ lv u64bit _ i) as [[start count]|] eqn:Hrange; [|done].
  cbn [mbind option_bind].
  assert (is_u32 start /\ is_u32 count) as [Hst Hct].
  { unfold image_range in Hrange. destruct (struct_at _ _ _ _); [|done].
    cbn [mbind option_bind] in Hrange. injection Hrange as <- <-.
    split; apply member_value_u32. }
  unfold is_u32 in Hst, Hct, Hnc, Hss.
  replace (UINT64_MAX <? start + count) with false by (unfold UINT64_MAX; lia).
  replace (UINT64_MAX <? info "nlistCount" * sizeof_nlist) with false
    by (unfold UINT64_MAX, sizeof_nlist; lia).
  replace (SIZE_MAX <? info "nlistCount" * sizeof_nlist) with false
    by (unfold SIZE_MAX, UINT64_MAX, sizeof_nlist; lia). cbn [orb].
  rewrite !(RorkHookDataAt_eq σ lv) by (done || unfold sizeof_nlist; lia).
  rewrite (Z.leb_antisym (info "nlistCount")).
  destruct (info "nlistCount" <? start + count) eqn:Hfit; [done|]. cbn [negb andb].
  pose proof (vo_bytes _ _ Hv).
  destruct (in_view lv (info "nlistOffset") _) eqn:Ht; [|done].
  replace (bytes lv + info "nlistOffset" =? NULL) with false by (unfold NULL; lia).
  destruct (in_view lv (info "stringsOffset") _) eqn:Hs; cbn [orb andb]; [|done].
  replace (bytes lv + info "stringsOffset" =? NULL) with false by (unfold NULL; lia).
  cbn [mbind option_bind]. unfold local_symbol. cbn [ls_table ls_strings ls_size ls_count ls_first].
  rewrite loopM_loopN.
  replace (Pos.to_nat FUEL64) with
    (S (Z.to_nat count) + (Pos.to_nat FUEL64 - S (Z.to_nat count)))%nat by (unfold FUEL64; lia).
  apply (symbol_loop σ lv (info "nlistOffset") (info "nlistCount")); try done; lia.
Qed.
End LocalSymbols.

(** ** The lookup *)

Section Lookup.
Context {K : Type} {T : Target} {Kern : Kernel K} {Laws : KernelLaws K}.
Implicit Types σ : machine K.

Definition cache_header σ (v : RorkHookDataView) : option (list byte) :=
  header ← struct_at σ v 0 RorkHookDyldCacheHeader;
  if magic_matches header then Some header else None.

(** The first image of the cache whose install name is [path]. *)
Definition cache_image σ (v : RorkHookDataView) (header : list byte) (path : list byte)
    : option Z :=
  let '(imagesOffset, imagesCount) := images_table header in
  if (imagesOffset =? 0) || (imagesCount =? 0) ||
     negb (in_view v imagesOffset (imagesCount * sizeof_image_info))
  then None else image_index σ v imagesOffset imagesCount path.

(** The cache has the per-image records with 64-bit offsets. *)
Definition modern_entries (header : list byte) : bool :=
  offsetof RorkHookDyldCacheHeader "symbolFileUUID" <=?
  member_value RorkHookDyldCacheHeader header "mappingOffset" 4.

Definition cache_symbols σ (mainView symbolsView : RorkHookDataView) (path : list byte)
    : option local_symbols :=
  mainHeader ← cache_header σ mainView;
  symbolsHeader ← cache_header σ symbolsView;
  i ← cache_image σ mainView mainHeader path;
  lv ← local_view symbolsView symbolsHeader;
  image_symbols σ lv (modern_entries mainHeader) i.

Definition shared_symbol σ (mainView symbolsView : RorkHookDataView) (slide : Z)
    (path name : list byte) : option Z :=
  t ← cache_symbols σ mainView symbolsView path;
  e ← local_symbol σ t name;
  slid_value slide e.

Lemma images_table_u32 header :
  is_u32 (fst (images_table header)) /\ is_u32 (snd (images_table header)).
Proof. unfold images_table. destruct (_ || _); split; apply member_value_u32. Qed.

Lemma first_index_bound f n i j : first_index f n i = Some j -> i <= j < i + Z.of_nat n.
Proof. intros Hf%first_index_spec. tauto. Qed.

(** From the headers on. *)
Lemma lookup_after_headers σ mainView symbolsView slide path name mh sh :
  view_ok σ mainView -> view_ok σ symbolsView -> is_u64 slide ->
  (let '(imagesOffset, imagesCount) := images_table mh in
   if (imagesOffset =? 0) || (imagesCount =? 0) then ret NULL else
   let imageTableSize := imagesCount * sizeof RorkHookDyldCacheImageInfo in
   if (UINT64_MAX <? imageTableSize) || (SIZE_MAX <? imageTableSize) ||
      (RorkHookDataAt mainView imagesOffset imageTableSize =? NULL)
   then ret NULL else
   let* imageIndex := loopM FUEL64 (image_step mainView imagesOffset imagesCount path) 0 in
   match imageIndex with
   | None => ret NULL
   | Some imageIndex =>
   if imageIndex =? UINT64_MAX then ret NULL else
   match local_view symbolsView sh with
   | None => ret NULL
   | Some localView => find_local_symbol localView (modern_entries mh) imageIndex slide name
   end
   end) σ =
  Ret (signed_result (kern σ)
    (t ← (i ← cache_image σ mainView mh path; lv ← local_view symbolsView sh;
          image_symbols σ lv (modern_entries mh) i);
     e ← local_symbol σ t name; slid_value slide e)) σ.
Proof using Laws.
  intros Hm Hs Hslide. unfold cache_image. destruct (images_table_u32 mh) as [Ho Hc].
  destruct (images_table mh) as [off count]. cbn [fst snd] in Ho, Hc.
  unfold is_u32 in Ho, Hc. rewrite sizeof_image_info_eq.
  destruct (off =? 0); [done|]. destruct (count =? 0); [done|]. cbn [orb].
  replace (UINT64_MAX <? count * sizeof_image_info) with false
    by (unfold UINT64_MAX, sizeof_image_info; lia).
  replace (SIZE_MAX <? count * sizeof_image_info) with false
    by (unfold SIZE_MAX, UINT64_MAX, sizeof_image_info; lia). cbn [orb].
  rewrite (RorkHookDataAt_eq σ) by (done || unfold sizeof_image_info; lia).
  destruct (in_view mainView off (count * sizeof_image_info)) eqn:Ht; [|done].
  pose proof (vo_bytes _ _ Hm).
  replace (bytes mainView + off =? NULL) with false by (unfold NULL; lia). cbn [negb].
  erewrite bind_Ret by (apply image_search; done || lia).
  destruct (image_index σ mainView off count path) as [i|] eqn:Hi; [|done].
  cbn [from_option id mbind option_bind]. apply first_index_bound in Hi.
  replace (i =? UINT64_MAX) with false by (unfold UINT64_MAX; lia).
  destruct (local_view symbolsView sh) as [lv|] eqn:Hlv; [|done].
  apply find_local_symbol_eq; [by eapply local_view_ok|lia|done].
Qed.

Lemma RorkHookFindSharedCacheSymbolInData_eq σ mainView symbolsView slide path name :
  view_ok σ mainView -> view_ok σ symbolsView -> is_u64 slide ->
  RorkHookFindSharedCacheSymbolInData (bytes mainView) (size mainView) (bytes symbolsView)
    (size symbolsView) slide (Some path) (Some name) σ =
  Ret (signed_result (kern σ) (shared_symbol σ mainView symbolsView slide path name)) σ.
Proof using Laws.
  intros Hm Hs Hslide. unfold RorkHookFindSharedCacheSymbolInData.
  pose proof (vo_bytes _ _ Hm). pose proof (vo_bytes _ _ Hs).
  replace (_ || _) with false by (unfold NULL; lia). cbv zeta.
  replace (DataView (bytes mainView) (size mainView)) with mainView by by destruct mainView.
  replace (DataView (bytes symbolsView) (size symbolsView)) with symbolsView
    by by destruct symbolsView.
  assert (0 < sizeof RorkHookDyldCacheHeader) as Hz by by rewrite sizeof_cache_header_eq.
  unfold shared_symbol, cache_symbols, cache_header.
  erewrite bind_Ret by by apply read_struct_eq.
  destruct (struct_at σ mainView 0 _) as [mh|]; [|done].
  erewrite bind_Ret by by apply read_struct_eq.
  destruct (struct_at σ symbolsView 0 _) as [sh|]; cbn [mbind option_bind].
  2:{ by destruct (magic_matches mh). }
  destruct (magic_matches mh); [|done]. destruct (magic_matches sh); [|done].
  by apply lookup_after_headers.
Qed.
End Lookup.

(** ** Cache files

    The lookup depends on the bytes of the two views only, so it is a function of
    the contents of the cache files. *)

Lemma peeks_drop {K} (σ : machine K) a i n N :
  0 <= i -> (Z.to_nat i + n <= N)%nat ->
  peeks σ (a + i) n = take n (drop (Z.to_nat i) (peeks σ a N)).
Proof.
  intros Hi Hn. replace N with (Z.to_nat i + (n + (N - Z.to_nat i - n)))%nat by lia.
  rewrite !peeks_app, Z2Nat.id by done.
  rewrite drop_app_length' by by rewrite length_peeks.
  by rewrite take_app_length' by by rewrite length_peeks.
Qed.

Lemma first_index_ext f g n i :
  (forall j, i <= j < i + Z.of_nat n -> f j = g j) -> first_index f n i = first_index g n i.
Proof.
  revert i. induction n as [|n IH]; intros i Hfg; [done|]. cbn [first_index].
  rewrite Hfg by lia. rewrite IH; [done|]. intros; apply Hfg; lia.
Qed.

Section SameContents.
Context {K1 K2 : Type} (σ1 : machine K1) (σ2 : machine K2).

(** Two views with the same bytes. *)
Record same_view (v1 v2 : RorkHookDataView) : Prop := {
  sv_size : size v1 = size v2;
  sv_range : is_u64 (size v1);
  sv_peeks i n : 0 <= i -> i + Z.of_nat n <= size v1 ->
    peeks σ1 (bytes v1 + i) n = peeks σ2 (bytes v2 + i) n
}.

Lemma same_view_contents v1 v2 content :
  size v1 = Z.of_nat (length content) -> size v2 = size v1 -> is_u64 (size v1) ->
  peeks σ1 (bytes v1) (length content) = content ->
  peeks σ2 (bytes v2) (length content) = content -> same_view v1 v2.
Proof.
  intros H1 H2 Hr Hp1 Hp2. split; [done..|]. intros i n Hi Hn.
  rewrite !(peeks_drop _ _ _ _ (length content)) by lia. by rewrite Hp1, Hp2.
Qed.

Lemma same_view_sub v1 v2 off len :
  same_view v1 v2 -> 0 <= off -> 0 <= len -> off + len <= size v1 ->
  same_view (DataView (bytes v1 + off) len) (DataView (bytes v2 + off) len).
Proof.
  intros [Hs Hr Hp] Ho Hl Hfit. unfold is_u64 in *.
  split; cbn [bytes size]; [done|unfold is_u64; lia|]. intros i n Hi Hn.
  rewrite <- !Z.add_assoc. apply Hp; lia.
Qed.

Lemma same_struct_at v1 v2 off struct :
  same_view v1 v2 -> 0 <= off -> 0 <= sizeof struct ->
  struct_at σ1 v1 off struct = struct_at σ2 v2 off struct.
Proof.
  intros [Hs Hr Hp] Ho Hz. unfold struct_at, in_view. rewrite <- Hs.
  destruct (_ && _) eqn:Hi; [|done]. f_equal. apply Hp; lia.
Qed.

Lemma same_cstring v1 v2 off n :
  same_view v1 v2 -> 0 <= off -> off + n <= size v1 ->
  cstring σ1 (bytes v1 + off) n = cstring σ2 (bytes v2 + off) n.
Proof.
  intros [Hs Hr Hp] Ho Hn. unfold cstring. unfold is_u64 in Hr.
  destruct (Z.le_gt_cases 0 n).
  - by rewrite Hp by lia.
  - by replace (Z.to_nat n) with 0%nat by lia.
Qed.

Lemma same_string_at v1 v2 off :
  same_view v1 v2 -> 0 <= off -> string_at σ1 v1 off = string_at σ2 v2 off.
Proof.
  intros Hv Ho. unfold string_at. rewrite <- (sv_size _ _ Hv).
  destruct (_ <? _); [|done]. apply same_cstring; [done|done|lia].
Qed.

Lemma same_image_path v1 v2 off i :
  same_view v1 v2 -> 0 <= off -> 0 <= i -> image_path σ1 v1 off i = image_path σ2 v2 off i.
Proof.
  intros Hv Ho Hi. unfold image_path.
  rewrite (same_struct_at v1 v2 _ _ Hv);
    [|rewrite sizeof_image_info_eq; unfold sizeof_image_info; lia|by rewrite sizeof_image_info_eq].
  destruct (struct_at _ _ _ _); [|done]. cbn [mbind option_bind].
  apply same_string_at; [done|]. apply member_value_u32.
Qed.

Lemma same_cache_image v1 v2 header path :
  same_view v1 v2 -> cache_image σ1 v1 header path = cache_image σ2 v2 header path.
Proof.
  intros Hv. unfold cache_image, in_view. rewrite <- (sv_size _ _ Hv).
  pose proof (images_table_u32 header) as [Ho _].
  destruct (images_table header) as [off count]. cbn [fst] in Ho. unfold is_u32 in Ho.
  destruct (_ || _); [done|]. apply first_index_ext. intros j Hj.
  by rewrite (same_image_path v1 v2) by (done || lia).
Qed.

Lemma same_cache_header v1 v2 :
  same_view v1 v2 -> cache_header σ1 v1 = cache_header σ2 v2.
Proof.
  intros Hv. unfold cache_header.
  rewrite (same_struct_at v1 v2 0 _ Hv); [done|done|]. by rewrite sizeof_cache_header_eq.
Qed.

Lemma same_local_view v1 v2 header :
  same_view v1 v2 ->
  match local_view v1 header, local_view v2 header with
  | Some lv1, Some lv2 => same_view lv1 lv2
  | None, None => True
  | _, _ => False
  end.
Proof.
  intros Hv. pose proof (sv_range _ _ Hv) as Hr. unfold local_view.
  rewrite <- (sv_size _ _ Hv).
  pose proof (member_value_u64 RorkHookDyldCacheHeader header "localSymbolsOffset") as Ho.
  pose proof (member_value_u64 RorkHookDyldCacheHeader header "localSymbolsSize") as Hz.
  set (off := member_value _ _ "localSymbolsOffset" 8) in *.
  set (len := member_value _ _ "localSymbolsSize" 8) in *. unfold is_u64 in *.
  destruct ((off =? 0) || _); [done|].
  destruct (Z.ltb_spec (size v1) off) as [|Hle]; [done|]. cbn [orb].
  destruct (SIZE_MAX <? len); [done|]. rewrite u64_small by (unfold is_u64; lia).
  destruct (Z.ltb_spec (size v1 - off) (if len =? 0 then size v1 - off else len)); [done|].
  apply same_view_sub; [done|lia|destruct (len =? 0); lia|lia].
Qed.

Lemma same_find_entry v1 v2 table strings len name n i :
  same_view v1 v2 -> 0 <= table -> 0 <= i -> 0 <= strings ->
  table + (i + Z.of_nat n) * sizeof_nlist <= size v1 -> strings + len <= size v1 ->
  find_entry σ1 (bytes v1 + table) (bytes v1 + strings) len name n i =
  find_entry σ2 (bytes v2 + table) (bytes v2 + strings) len name n i.
Proof.
  intros Hv Ht Hi Hs Hn Hl. unfold sizeof_nlist in Hn. revert i Hi Hn.
  induction n as [|n IH]; intros i Hi Hn; [done|]. cbn [find_entry].
  assert (entry_at σ1 (bytes v1 + table) i = entry_at σ2 (bytes v2 + table) i) as He.
  { unfold entry_at, sizeof_nlist. rewrite <- !Z.add_assoc. f_equal.
    apply (sv_peeks _ _ Hv); lia. }
  rewrite He. set (e := entry_at σ2 _ i). rewrite IH by lia.
  assert (0 <= n_strx e) by (subst e; apply entry_at_strx).
  unfold entry_matches. rewrite <- !Z.add_assoc.
  by rewrite (same_cstring v1 v2 (strings + n_strx e)) by (done || lia).
Qed.

Lemma same_local_symbol v1 v2 u64bit i name :
  same_view v1 v2 -> 0 <= i ->
  (t ← image_symbols σ1 v1 u64bit i; local_symbol σ1 t name) =
  (t ← image_symbols σ2 v2 u64bit i; local_symbol σ2 t name).
Proof.
  intros Hv Hi. unfold image_symbols.
  rewrite (same_struct_at v1 v2 0 _ Hv); [|done|by rewrite sizeof_symbols_info_eq].
  destruct (struct_at σ2 v2 0 _) as [r|]; [|done]. cbn [mbind option_bind].
  pose proof (member_value_u32 RorkHookDyldCacheLocalSymbolsInfo r) as Hinfo.
  unfold is_u32 in Hinfo. destruct (_ <=? i); [done|].
  assert (forall o, 0 <= o -> image_range σ1 v1 u64bit o i = image_range σ2 v2 u64bit o i) as Hir.
  { intros o Ho. unfold image_range.
    assert (0 < sizeof (entry_struct u64bit)) by by destruct u64bit; vm_compute.
    by rewrite (same_struct_at v1 v2 _ _ Hv) by lia. }
  rewrite Hir by apply Hinfo.
  destruct (image_range σ2 v2 _ _ i) as [[start count]|] eqn:Hr; [|done].
  assert (0 <= start /\ 0 <= count) as [Hst Hct].
  { unfold image_range in Hr. destruct (struct_at _ _ _ _); [|done].
    cbn [mbind option_bind] in Hr. injection Hr as <- <-. split; apply member_value_u32. }
  cbn [mbind option_bind]. unfold in_view. rewrite <- (sv_size _ _ Hv).
  destruct (_ && _) eqn:Hfit; [|done]. unfold local_symbol.
  cbn [ls_table ls_strings ls_size ls_count ls_first mbind option_bind].
  unfold sizeof_nlist in Hfit.
  unfold sizeof_nlist.
  apply same_find_entry;
    [exact Hv|apply Hinfo|exact Hst|apply Hinfo|unfold sizeof_nlist; lia|lia].
Qed.

Lemma cache_image_bound σ v header path i :
  cache_image (K := K1) σ v header path = Some i -> 0 <= i < 2 ^ 32.
Proof.
  unfold cache_image. pose proof (images_table_u32 header) as [_ Hc].
  destruct (images_table header) as [off count]. cbn [snd] in Hc. unfold is_u32 in Hc.
  destruct (_ || _); [done|]. intros Hf%first_index_bound. lia.
Qed.

Lemma same_shared_symbol m1 m2 s1 s2 slide path name :
  same_view m1 m2 -> same_view s1 s2 ->
  shared_symbol σ1 m1 s1 slide path name = shared_symbol σ2 m2 s2 slide path name.
Proof.
  intros Hm Hs. unfold shared_symbol, cache_symbols.
  rewrite (same_cache_header m1 m2), (same_cache_header s1 s2) by done.
  destruct (cache_header σ2 m2) as [mh|]; [|done].
  destruct (cache_header σ2 s2) as [sh|]; [|done]. cbn [mbind option_bind].
  destruct (cache_image σ1 m1 mh path) as [i|] eqn:Hi;
    rewrite (same_cache_image m1 m2) in Hi by done; rewrite Hi; [|done].
  rewrite <- (same_cache_image m1 m2) in Hi by done. apply cache_image_bound in Hi.
  cbn [mbind option_bind]. pose proof (same_local_view s1 s2 sh Hs) as Hl.
  destruct (local_view s1 sh) as [lv1|], (local_view s2 sh) as [lv2|]; try done.
  cbn [mbind option_bind].
  pose proof (same_local_symbol lv1 lv2 (modern_entries mh) i name Hl (proj1 Hi)) as He.
  destruct (image_symbols σ1 _ _ _), (image_symbols σ2 _ _ _); cbn [mbind option_bind] in *.
  - by rewrite He.
  - by rewrite He.
  - by rewrite <- He.
  - done.
Qed.
End SameContents.

(** A machine whose memory holds two files, one after the other. *)
Definition file_machine (main symbols : list byte) : machine unit :=
  Machine tt (poke (poke ∅ 1 main) (1 + Z.of_nat (length main)) symbols) [].
Definition main_file (main : list byte) : RorkHookDataView := DataView 1 (Z.of_nat (length main)).
Definition symbols_file (main symbols : list byte) : RorkHookDataView :=
  DataView (1 + Z.of_nat (length main)) (Z.of_nat (length symbols)).

(** The slid address of a symbol, looked up in the contents of a cache file and
    of the file that holds its local symbols. *)
Definition file_symbol (main symbols : list byte) (slide : Z) (path name : list byte)
    : option Z :=
  shared_symbol (file_machine main symbols) (main_file main) (symbols_file main symbols)
    slide path name.

(** The view holds exactly the bytes of a file. *)
Definition holds {K} (σ : machine K) (v : RorkHookDataView) (content : list byte) : Prop :=
  size v = Z.of_nat (length content) /\ peeks σ (bytes v) (length content) = content.

Lemma file_machine_main main symbols :
  peeks (file_machine main symbols) 1 (length main) = main.
Proof.
  transitivity (peeks (Machine tt (poke ∅ 1 main) []) 1 (length main));
    [|apply (peeks_poked (Machine tt ∅ []))].
  apply peeks_ext. intros x Hx. unfold file_machine.
  etransitivity; [apply (peek_poked (Machine tt (poke ∅ 1 main) []))|].
  by replace (_ && _) with false by lia.
Qed.

Lemma file_machine_symbols main symbols :
  peeks (file_machine main symbols) (1 + Z.of_nat (length main)) (length symbols) = symbols.
Proof. apply (peeks_poked (Machine tt (poke ∅ 1 main) [])). Qed.

Lemma shared_symbol_contents {K} (σ : machine K) m s main symbols slide path name :
  holds σ m main -> holds σ s symbols -> is_u64 (size m) -> is_u64 (size s) ->
  shared_symbol σ m s slide path name = file_symbol main symbols slide path name.
Proof.
  intros [Hm Hmp] [Hs Hsp] Hmr Hsr. unfold file_symbol. apply same_shared_symbol.
  - apply same_view_contents with main; [done|done|done|done|apply file_machine_main].
  - apply same_view_contents with symbols; [done|done|done|done|apply file_machine_symbols].
Qed.

(** ** The selection *)

Lemma cache_image_spec {K} (σ : machine K) v header path i :
  cache_image σ v header path = Some i <->
  let '(imagesOffset, imagesCount) := images_table header in
  imagesOffset <> 0 /\ 0 <= i < imagesCount /\
  in_view v imagesOffset (imagesCount * sizeof_image_info) = true /\
  image_path σ v imagesOffset i = Some path /\
  forall k, 0 <= k < i -> image_path σ v imagesOffset k <> Some path.
Proof.
  unfold cache_image. destruct (images_table_u32 header) as [_ Hc].
  destruct (images_table header) as [off count]. cbn [snd] in Hc. unfold is_u32 in Hc.
  unfold image_index.
  destruct (Z.eqb_spec off 0) as [->|Ho]; [split; [done|by intros [? _]]|].
  destruct (Z.eqb_spec count 0) as [->|Hn]; [split; [done|intros (_ & ? & _); lia]|].
  destruct (in_view _ _ _); cbn [orb negb]; [|split; [done|by intros (_ & _ & ? & _)]].
  rewrite first_index_spec, Z2Nat.id, Z.add_0_l by lia. split.
  - intros (Hi & Hf%bool_decide_eq_true & Hno). split_and!; [done|lia|lia|done|done|].
    intros k Hk. by eapply bool_decide_eq_false, Hno.
  - intros (_ & Hi & _ & Hf & Hno). split_and!; [lia|lia|by apply bool_decide_eq_true|].
    intros k Hk. by apply bool_decide_eq_false, Hno.
Qed.

(** The selection: both headers carry the magic, [i] is the first image of the
    table with the path, the local-symbol region has a record of that image, and
    [j] is the first matching symbol of the record's range, with a slid value that
    is an address. *)
Definition selected {K} (σ : machine K) (mainView symbolsView : RorkHookDataView) (slide : Z)
    (path name : list byte) (address : Z) : Prop :=
  exists mainHeader symbolsHeader i localView t j,
    cache_header σ mainView = Some mainHeader /\
    cache_header σ symbolsView = Some symbolsHeader /\
    (let '(imagesOffset, imagesCount) := images_table mainHeader in
     imagesOffset <> 0 /\ 0 <= i < imagesCount /\
     in_view mainView imagesOffset (imagesCount * sizeof_image_info) = true /\
     image_path σ mainView imagesOffset i = Some path /\
     forall k, 0 <= k < i -> image_path σ mainView imagesOffset k <> Some path) /\
    local_view symbolsView symbolsHeader = Some localView /\
    image_symbols σ localView (modern_entries mainHeader) i = Some t /\
    ls_first t <= j < ls_first t + ls_count t /\
    (let e k := entry_at σ (ls_table t) k in
     entry_matches σ (ls_strings t) (ls_size t) name (e j) = true /\
     (forall k, ls_first t <= k < j ->
        entry_matches σ (ls_strings t) (ls_size t) name (e k) = false) /\
     slide + n_value (e j) <= UINTPTR_MAX /\ address = slide + n_value (e j)).

Lemma shared_symbol_selected {K} (σ : machine K) mainView symbolsView slide path name address :
  shared_symbol σ mainView symbolsView slide path name = Some address <->
  selected σ mainView symbolsView slide path name address.
Proof.
  unfold selected, shared_symbol, cache_symbols, slid_value. split.
  - intros Ha. destruct (cache_header σ mainView) as [mh|]; [|done].
    destruct (cache_header σ symbolsView) as [sh|]; [|done]. cbn [mbind option_bind] in Ha.
    destruct (cache_image σ mainView mh path) as [i|] eqn:Hi; [|done].
    cbn [mbind option_bind] in Ha. destruct (local_view symbolsView sh) as [lv|] eqn:Hl; [|done].
    cbn [mbind option_bind] in Ha. destruct (image_symbols _ _ _ _) as [t|] eqn:Ht; [|done].
    cbn [mbind option_bind] in Ha. destruct (local_symbol σ t name) as [e|] eqn:He; [|done].
    cbn [mbind option_bind] in Ha. destruct (Z.leb_spec (n_value e) (UINTPTR_MAX - slide)); [|done].
    injection Ha as <-. apply find_entry_spec in He as (j & Hj & -> & Hm & Hno).
    exists mh, sh, i, lv, t, j.
    split_and!; [done|done|by apply cache_image_spec|done|done|lia|lia|done|done|lia|done].
  - intros (mh & sh & i & lv & t & j & -> & -> & Hi & Hl & Ht & Hj & Hm & Hno & Hv & ->).
    cbn [mbind option_bind]. apply cache_image_spec in Hi. rewrite Hi. cbn [mbind option_bind].
    rewrite Hl. cbn [mbind option_bind]. rewrite Ht. cbn [mbind option_bind].
    assert (local_symbol σ t name = Some (entry_at σ (ls_table t) j)) as ->.
    { apply find_entry_spec. exists j. split_and!; try done; lia. }
    cbn [mbind option_bind]. by replace (_ <=? _) with true by lia.
Qed.

Lemma shared_symbol_u64 {K} (σ : machine K) mainView symbolsView slide path name address :
  is_u64 slide -> shared_symbol σ mainView symbolsView slide path name = Some address ->
  is_u64 address.
Proof.
  intros Hs (mh & sh & i & lv & t & j & _ & _ & _ & _ & _ & _ & _ & _ & Hv & ->)%shared_symbol_selected.
  pose proof (entry_at_value σ (ls_table t) j). unfold is_u64, UINTPTR_MAX, UINT64_MAX in *. lia.
Qed.

(** ** Properties *)

Section Properties.
Context {K : Type} {T : Target} {Kern : Kernel K} {Laws : KernelLaws K}.
Implicit Types σ : machine K.

(** C15: on two readable views that hold the files [main] and [symbols], the
    parser returns, without a fault and within its loop bounds, what the
    reference lookup finds in the contents of the files, signed when it is
    executable, or [NULL]; a missing argument gives [NULL] as well. *)
Theorem RorkHookFindSharedCacheSymbolInData_exact σ mainView symbolsView main symbols slide
    imagePath symbolName :
  view_ok σ mainView -> view_ok σ symbolsView ->
  holds σ mainView main -> holds σ symbolsView symbols -> is_u64 slide ->
  RorkHookFindSharedCacheSymbolInData (bytes mainView) (size mainView) (bytes symbolsView)
    (size symbolsView) slide imagePath symbolName σ =
  Ret (match imagePath, symbolName with
       | Some path, Some name =>
           match file_symbol main symbols slide path name with
           | Some address => sign_pointer (kern σ) address
           | None => NULL
           end
       | _, _ => NULL
       end) σ.
Proof using Laws.
  intros Hm Hs Hmc Hsc Hslide.
  destruct imagePath as [path|]; [|done]. destruct symbolName as [name|]; [|done].
  rewrite RorkHookFindSharedCacheSymbolInData_eq by done.
  rewrite (shared_symbol_contents σ mainView symbolsView main symbols); [done|done|done|..].
  - destruct Hm. unfold is_u64. lia.
  - destruct Hs. unfold is_u64. lia.
Qed.

(** C20: the parser selects the first image with the path and the first matching
    symbol of that image: the result is the slid value of the selected symbol,
    signed when it is executable, and [NULL] when nothing can be selected.  (A
    selected symbol whose slid value is 0 gives [NULL] too.) *)
Theorem RorkHookFindSharedCacheSymbolInData_selects σ mainView symbolsView slide path name :
  view_ok σ mainView -> view_ok σ symbolsView -> is_u64 slide ->
  exists result,
    RorkHookFindSharedCacheSymbolInData (bytes mainView) (size mainView) (bytes symbolsView)
      (size symbolsView) slide (Some path) (Some name) σ = Ret result σ /\
    ((exists address, selected σ mainView symbolsView slide path name address /\
        is_u64 address /\ result = sign_pointer (kern σ) address) \/
     (result = NULL /\
      forall address, ~ selected σ mainView symbolsView slide path name address)).
Proof using Laws.
  intros Hm Hs Hslide. eexists. split; [by apply RorkHookFindSharedCacheSymbolInData_eq|].
  destruct (shared_symbol _ _ _ _ _ _) as [address|] eqn:Ha.
  - left. exists address. split_and!; [by apply shared_symbol_selected| |done].
    by eapply shared_symbol_u64.
  - right. split; [done|]. intros address Hsel%shared_symbol_selected. congruence.
Qed.
End Properties.

(** The sizes of the records, and the offsets private/RorkHookDyldCache.h asserts. *)
Example cache_record_offsets :
  sizeof <$> [RorkHookDyldCacheHeader; RorkHookDyldCacheImageInfo;
    RorkHookDyldCacheLocalSymbolsInfo; RorkHookDyldCacheLocalSymbolsEntry32;
    RorkHookDyldCacheLocalSymbolsEntry64] = [456; 32; 24; 12; 16] /\
  offsetof RorkHookDyldCacheHeader <$>
    ["mappingOffset"; "localSymbolsOffset"; "mappingWithSlideOffset"; "symbolFileUUID";
     "imagesOffset"] = [16; 72; 312; 400; 448].
Proof. by split; vm_compute. Qed.

(** ** Witnesses *)

(** A structure with the given members, and zeros elsewhere. *)
Definition set_member (struct : list member) (record : list byte) (field : string * Z)
    : list byte :=
  let '(name, value) := field in
  let start := Z.to_nat (offsetof struct name) in
  let n := Z.to_nat (default 0 (head (member_size <$>
             filter (fun m => member_name m = name) struct))) in
  take start record ++ le_split n value ++ drop (start + n) record.
Definition make_struct (struct : list member) (fields : list (string * Z)) : list byte :=
  foldl (set_member struct) (replicate (Z.to_nat (sizeof struct)) x00) fields.
Definition make_header (fields : list (string * Z)) : list byte :=
  dyld_v1 ++ drop 7 (make_struct RorkHookDyldCacheHeader fields).

Definition path_a : list byte := byte_of <$> [0x2f; 0x61].   (* "/a" *)
Definition name_g : list byte := byte_of <$> [0x67].         (* "g" *)

(** One image, the record that describes its symbols, and the single symbol of a
    value, after a header. *)
Definition one_image (pathFileOffset : Z) (modTime : Z) : list byte :=
  make_struct RorkHookDyldCacheImageInfo
    [("modTime", modTime); ("pathFileOffset", pathFileOffset)].
Definition one_symbol (entry : list member) (value : Z) : list byte :=
  let entries := sizeof RorkHookDyldCacheLocalSymbolsInfo in
  let table := entries + sizeof entry in
  make_struct RorkHookDyldCacheLocalSymbolsInfo
    [("nlistOffset", table); ("nlistCount", 1); ("stringsOffset", table + sizeof_nlist);
     ("stringsSize", 3); ("entriesOffset", entries); ("entriesCount", 1)] ++
  make_struct entry [("nlistCount", 1)] ++
  le_split 4 1 ++ le_split 1 0x0e ++ le_split 3 0 ++ le_split 8 value ++
  [x00] ++ name_g ++ [x00].

(** A modern cache: header, image table at [456], path at [488], symbols at
    [491]. *)
Definition modern_header : list byte :=
  make_header [("mappingOffset", 456); ("imagesOffset", 456); ("imagesCount", 1);
               ("localSymbolsOffset", 491)].
Definition modern_cache (value : Z) : list byte :=
  modern_header ++ one_image 488 0 ++ path_a ++ [x00] ++
  one_symbol RorkHookDyldCacheLocalSymbolsEntry64 value.

(** A cache whose header ends at [312]: its image table, at [440], holds the image
    in its first entry, and its symbols use the compact record. *)
Definition legacy_cache (modTime : Z) : list byte :=
  take 440 (make_header [("mappingOffset", 312); ("imagesOffsetOld", 440); ("imagesCountOld", 1);
                         ("localSymbolsOffset", 475)]) ++
  one_image 472 modTime ++ path_a ++ [x00] ++
  one_symbol RorkHookDyldCacheLocalSymbolsEntry32 0x8000.

Definition cache_view : RorkHookDataView := DataView 0x4000 550.
Definition cache_machine : machine sim :=
  sim_machine [(1, 1); (2, 5)] [(0x4000, modern_cache 0x8000)].

Example modern_cache_symbol :
  length (modern_cache 0x8000) = 550%nat /\
  file_symbol (modern_cache 0x8000) (modern_cache 0x8000) 0x100 path_a name_g = Some 0x8100 /\
  file_symbol (modern_cache 0x8000) (modern_cache 0x8000) 0x100 path_a path_a = None /\
  file_symbol (modern_cache (2 ^ 64 - 1)) (modern_cache (2 ^ 64 - 1)) 1 path_a name_g = None.
Proof. by vm_compute. Qed.

(** A header that ends before the modern image-table members is read past its end:
    the same legacy cache resolves or not by the bytes that follow the header. *)
Example legacy_cache_misread :
  let value file := file_symbol file file 0 path_a name_g in
  value (legacy_cache 0) = Some 0x8000 /\ value (legacy_cache (2 ^ 32 + 1)) = None.
Proof. by vm_compute. Qed.

Lemma cache_view_ok : view_ok cache_machine cache_view.
Proof.
  split; cbn [bytes size cache_view]; [done|done|done|].
  apply (memory_is_readable_sound (T := device)). by vm_compute.
Qed.

Lemma cache_view_holds : holds cache_machine cache_view (modern_cache 0x8000).
Proof. split; by vm_compute. Qed.

Lemma RorkHookFindSharedCacheSymbolInData_exact_witness :
  result_of (RorkHookFindSharedCacheSymbolInData (T := device) 0x4000 550 0x4000 550 0x100
    (Some path_a) (Some name_g) cache_machine) = Some (0x8100 + 2 ^ 48) /\
  RorkHookFindSharedCacheSymbolInData (T := device) (bytes cache_view) (size cache_view)
    (bytes cache_view) (size cache_view) 0x100 (Some path_a) (Some name_g) cache_machine =
  Ret (match file_symbol (modern_cache 0x8000) (modern_cache 0x8000) 0x100 path_a name_g with
       | Some address => sign_pointer (T := device) (kern cache_machine) address
       | None => NULL
       end) cache_machine.
Proof.
  split; [by vm_compute|].
  apply (RorkHookFindSharedCacheSymbolInData_exact (T := device) cache_machine cache_view cache_view
           (modern_cache 0x8000) (modern_cache 0x8000) 0x100 (Some path_a) (Some name_g));
    [exact cache_view_ok|exact cache_view_ok|exact cache_view_holds|exact cache_view_holds|done].
Defined.

Lemma RorkHookFindSharedCacheSymbolInData_selects_witness :
  is_u64 0x100 /\
  exists result,
    RorkHookFindSharedCacheSymbolInData (T := device) (bytes cache_view) (size cache_view)
      (bytes cache_view) (size cache_view) 0x100 (Some path_a) (Some name_g) cache_machine =
      Ret result cache_machine /\
    ((exists address, selected cache_machine cache_view cache_view 0x100 path_a name_g address /\
        is_u64 address /\ result = sign_pointer (T := device) (kern cache_machine) address) \/
     (result = NULL /\
      forall address, ~ selected cache_machine cache_view cache_view 0x100 path_a name_g address)).
Proof.
  split; [done|].
  exact (RorkHookFindSharedCacheSymbolInData_selects (T := device) cache_machine cache_view
    cache_view 0x100 path_a name_g cache_view_ok cache_view_ok ltac:(done)).
Defined.
