(* ===== verification/Files.v ===== *)
(** The files of the process: the system calls RorkHookSharedCache.c makes to map
    a file, their laws, and a simulated file system that satisfies them.

    The calls are operations of the kernel, not code of the repository.  Each
    answers with its C result; what it does to the process is observed through
    the open descriptors, the live mappings and the protections, and the bytes a
    mapping shows are those of the file behind its descriptor. *)
From S2P Require Import Prelude Machine Logic Sim.
Open Scope Z_scope.

Record file := File { file_mode : Z; file_content : list byte }.

Definition S_IFMT : Z := 0xf000.
Definition S_IFREG : Z := 0x8000.
Definition S_ISREG (mode : Z) : bool := Z.land mode S_IFMT =? S_IFREG.
Definition MAP_FAILED : Z := 2 ^ 64 - 1.
Definition R_OK : Z := 4.
Definition X_OK : Z := 1.

(** A path is the list of its bytes before the terminator. *)
Class FileSystem (K : Type) := {
  (* open(path, O_RDONLY | O_CLOEXEC | O_NONBLOCK) *)
  open_file : K -> list byte -> Z * K;
  (* fstat: the result, [st_mode] and [st_size] *)
  fstat : K -> Z -> Z * (Z * Z);
  (* mmap(NULL, size, PROT_READ, MAP_PRIVATE, descriptor, 0) *)
  mmap : K -> Z -> Z -> Z * K;
  close : K -> Z -> Z * K;
  munmap : K -> Z -> Z -> Z * K;
  access : K -> list byte -> Z -> Z;
  (* what an observer sees: the files by path, the open descriptors, and the
     address and size of every mapping *)
  lookup_path : K -> list byte -> option file;
  descriptors : K -> gmap Z file;
  mappings : K -> gmap Z Z
}.

Section Calls.
Context {K : Type} {T : Target} {Files : FileSystem K}.

(** The bytes of a mapping of [n] bytes: the file, and zeros up to the end of its
    last page. *)
Definition mapped_bytes (f : file) (n : Z) : list byte :=
  resize (Z.to_nat (page_base vm_page_size (n - 1) + vm_page_size)) x00
    (take (Z.to_nat n) (file_content f)).

Definition sys_mmap (n descriptor : Z) : M K Z := fun σ =>
  let '(address, k) := mmap (kern σ) n descriptor in
  let shown := match descriptors (kern σ) !! descriptor with
               | Some f => mapped_bytes f n
               | None => []
               end in
  Ret address (Machine k (if address =? MAP_FAILED then mem σ else poke (mem σ) address shown)
                 (log σ)).
End Calls.

(** ** Laws *)

Section Frames.
Context {K : Type} {T : Target} {Kern : Kernel K} {Files : FileSystem K}.

(** What a call on files never changes. *)
Definition same_rest (k k' : K) : Prop :=
  same_process k k' /\ same_thread k k' /\ forall path, lookup_path k' path = lookup_path k path.

(** The pages of [[a, a + n)] have protection [p], the others keep theirs. *)
Definition pages_become (k k' : K) (a n : Z) (p : option Z) : Prop :=
  forall x, prot_at k' x = if in_pages a n x then p else prot_at k x.
End Frames.

Class FileLaws (K : Type) `{Target} `{Kernel K} `{FileSystem K} : Prop := {
  open_law k path d k' :
    open_file k path = (d, k') ->
    same_rest k k' /\ same_prot k k' /\ mappings k' = mappings k /\
    (d < 0 -> descriptors k' = descriptors k) /\
    (0 <= d -> exists f, lookup_path k path = Some f /\ descriptors k !! d = None /\
       descriptors k' = <[d := f]> (descriptors k));
  fstat_law k d f mode size :
    descriptors k !! d = Some f -> fstat k d = (0, (mode, size)) ->
    mode = file_mode f /\
    (S_ISREG mode = true -> size = Z.of_nat (length (file_content f)) /\ size < 2 ^ 63);
  mmap_law k n d f a k' :
    0 < n < 2 ^ 64 -> descriptors k !! d = Some f -> mmap k n d = (a, k') ->
    same_rest k k' /\ descriptors k' = descriptors k /\
    (a = MAP_FAILED -> same_prot k k' /\ mappings k' = mappings k) /\
    (a <> MAP_FAILED ->
       0 < a /\ a + n < 2 ^ 64 /\ a mod vm_page_size = 0 /\ mappings k !! a = None /\
       mappings k' = <[a := n]> (mappings k) /\
       (forall x, in_pages a n x = true -> prot_at k x = None) /\
       pages_become k k' a n (Some VM_PROT_READ));
  close_law k d r k' :
    close k d = (r, k') ->
    same_rest k k' /\ same_prot k k' /\ mappings k' = mappings k /\
    descriptors k' = delete d (descriptors k);
  munmap_law k a n r k' :
    0 < a -> 0 < n -> a + n < 2 ^ 64 -> mappings k !! a = Some n -> munmap k a n = (r, k') ->
    same_rest k k' /\ descriptors k' = descriptors k /\ mappings k' = delete a (mappings k) /\
    pages_become k k' a n None
}.

(** ** A simulated file system

    Files are listed by path; a mapping goes to the next page the script names,
    and fails when a page there is in use; the readable paths are listed. *)
Record fsim := FSim {
  fs_kernel : sim;
  fs_files : list (list byte * file);
  fs_open : gmap Z file;
  fs_maps : gmap Z Z;
  fs_places : list Z;
  fs_access : list (list byte)
}.

Definition with_kernel (k : fsim) (s : sim) : fsim :=
  FSim s (fs_files k) (fs_open k) (fs_maps k) (fs_places k) (fs_access k).
Definition with_prot (s : sim) (prot : gmap Z Z) : sim :=
  Sim prot (sim_gated s) (sim_enforced s) (sim_register s) (sim_rights s) (sim_script s)
    (sim_dyld_info s).
Definition lift {A} (k : fsim) (r : A * sim) : A * fsim := (fst r, with_kernel k (snd r)).

#[export] Instance fsim_kernel : Kernel fsim := {|
  vm_region_64 k a := lift k (vm_region_64 (fs_kernel k) a);
  mach_port_deallocate k n := with_kernel k (mach_port_deallocate (fs_kernel k) n);
  vm_protect k a n m p := lift k (vm_protect (fs_kernel k) a n m p);
  mach_vm_protect_trap k a n m p := lift k (mach_vm_protect_trap (fs_kernel k) a n m p);
  task_dyld_info k := task_dyld_info (fs_kernel k);
  comm_page_u64 k := comm_page_u64 (fs_kernel k);
  mrs_tpro k := mrs_tpro (fs_kernel k);
  msr_tpro k v := with_kernel k (msr_tpro (fs_kernel k) v);
  os_security_config_get k := os_security_config_get (fs_kernel k);
  prot_at k := prot_at (fs_kernel k);
  tpro_gated k := tpro_gated (fs_kernel k)
|}.

Definition fsim_lookup (k : fsim) (path : list byte) : option file :=
  snd <$> find (fun entry => bool_decide (fst entry = path)) (fs_files k).

Definition fsim_open (k : fsim) (path : list byte) : Z * fsim :=
  match fsim_lookup k path, find (fun d => bool_decide (fs_open k !! d = None)) [3; 4; 5; 6] with
  | Some f, Some d =>
      (d, FSim (fs_kernel k) (fs_files k) (<[d := f]> (fs_open k)) (fs_maps k) (fs_places k)
               (fs_access k))
  | _, _ => (-1, k)
  end.

Definition fsim_mmap (k : fsim) (n d : Z) : Z * fsim :=
  let a := default 0 (head (fs_places k)) * SIM_PAGE in
  let pages := sim_pages a n in
  let s := fs_kernel k in
  let free := (0 <? a) && (a + n <? 2 ^ 64) &&
    forallb (fun i => bool_decide (sim_prot s !! i = None)) pages &&
    bool_decide (fs_maps k !! a = None) in
  let prot := foldr (fun i m => <[i := VM_PROT_READ]> m) (sim_prot s) pages in
  if free
  then (a, FSim (with_prot s prot) (fs_files k) (fs_open k) (<[a := n]> (fs_maps k))
             (tail (fs_places k)) (fs_access k))
  else (MAP_FAILED, FSim s (fs_files k) (fs_open k) (fs_maps k) (tail (fs_places k))
                      (fs_access k)).

Definition fsim_munmap (k : fsim) (a n : Z) : Z * fsim :=
  let prot := foldr delete (sim_prot (fs_kernel k)) (sim_pages a n) in
  (0, FSim (with_prot (fs_kernel k) prot) (fs_files k) (fs_open k) (delete a (fs_maps k))
        (fs_places k) (fs_access k)).

#[export] Instance fsim_files : FileSystem fsim := {|
  open_file := fsim_open;
  fstat k d := match fs_open k !! d with
               | Some f => if Z.of_nat (length (file_content f)) <? 2 ^ 63
                           then (0, (file_mode f, Z.of_nat (length (file_content f))))
                           else (-1, (0, 0))
               | None => (-1, (0, 0))
               end;
  mmap := fsim_mmap;
  close k d := (0, FSim (fs_kernel k) (fs_files k) (delete d (fs_open k)) (fs_maps k)
                     (fs_places k) (fs_access k));
  munmap := fsim_munmap;
  access k path _ := if bool_decide (path ∈ fs_access k) then 0 else -1;
  lookup_path := fsim_lookup;
  descriptors := fs_open;
  mappings := fs_maps
|}.

#[export] Instance fsim_laws arm64 ios ptrauth config :
  KernelLaws fsim (H := sim_target arm64 ios ptrauth config).
Proof.
  pose proof (sim_laws arm64 ios ptrauth config) as L. destruct L as
    [Hpage Hgp Hstrip Hbits Hpp Hrel Hsound Hprot Htrap Hmsr].
  split.
  - exact Hpage.
  - exact Hgp.
  - exact Hstrip.
  - intros k. apply Hbits.
  - intros k. apply Hpp.
  - intros [[] ? ? ? ? ?] a r k'. cbn. unfold lift, sim_region. cbn.
    destruct (sim_page_prot _ _); intros [= <- <-]; cbn; unfold with_kernel, sim_deallocate; cbn;
      do 2 f_equal; lia.
  - intros k a r k' Hq. cbn in *. unfold lift in Hq.
    destruct (sim_region (fs_kernel k) a) as [r0 s0] eqn:Hr. injection Hq as <- <-.
    exact (Hsound (fs_kernel k) a r0 s0 Hr).
  - intros k a n p r k' Ha Hn Hb Hq. cbn in Hq. unfold lift in Hq.
    destruct (sim_protect (fs_kernel k) a n false p) as [r0 s0] eqn:Hr. injection Hq as <- <-.
    exact (Hprot (fs_kernel k) a n p r0 s0 Ha Hn Hb Hr).
  - intros k a n p r k' Ha Hn Hb Hq. cbn in Hq. unfold lift in Hq.
    destruct (sim_protect (fs_kernel k) a n false p) as [r0 s0] eqn:Hr. injection Hq as <- <-.
    exact (Htrap (fs_kernel k) a n p r0 s0 Ha Hn Hb Hr).
  - intros k v. exact (Hmsr (fs_kernel k) v).
Qed.

Lemma fsim_find_fresh (k : fsim) (l : list Z) d :
  find (fun d => bool_decide (fs_open k !! d = None)) l = Some d -> fs_open k !! d = None /\ d ∈ l.
Proof.
  intros Hf. apply find_some in Hf as [Hin Hd%bool_decide_eq_true].
  by split; [|apply list_elem_of_In].
Qed.

Lemma fsim_unmap_lookup (m : gmap Z Z) pages i :
  foldr delete m pages !! i = if bool_decide (i ∈ pages) then None else m !! i.
Proof.
  induction pages as [|j pages IH]; [done|]. cbn [foldr].
  destruct (decide (i = j)) as [->|Hne].
  - rewrite lookup_delete_eq, bool_decide_eq_true_2; [done|]. apply list_elem_of_here.
  - rewrite lookup_delete_ne, IH by done.
    rewrite (bool_decide_ext (i ∈ j :: pages) (i ∈ pages)); [done|]. rewrite elem_of_cons. tauto.
Qed.

(** A change of the page table over the pages of a range. *)
Lemma sim_pages_become arm64 ios ptrauth config (s : sim) (prot : gmap Z Z) a n p :
  0 < a -> 0 < n -> a + n <= 2 ^ 64 ->
  (forall i, prot !! i = if bool_decide (i ∈ sim_pages a n) then p else sim_prot s !! i) ->
  forall x, sim_page_prot (with_prot s prot) x =
    if in_pages (H := sim_target arm64 ios ptrauth config) a n x
    then (fun p => Z.land p 7) <$> p else sim_page_prot s x.
Proof.
  intros Ha Hn Hb Hp x. unfold sim_page_prot. cbn [sim_prot with_prot]. rewrite Hp.
  rewrite bool_decide_decide. assert (0 <= a) as Ha' by lia.
  pose proof (sim_pages_spec a n x Ha' Hn) as Hs.
  unfold in_pages. cbn [vm_page_size sim_target].
  destruct (decide _) as [Hin|Hin].
  - apply Hs in Hin. pose proof (sim_page_end a n Ha' Hn Hb).
    pose proof (page_base_nonneg SIM_PAGE a ltac:(done) Ha').
    replace ((0 <=? x) && (x <? 2 ^ 64)) with true by lia.
    by replace (_ && _) with true by lia.
  - rewrite Hs in Hin.
    by replace (_ && (x <? page_base _ _ + _)) with false by (symmetry; apply not_true_iff_false; lia).
Qed.

#[export] Instance fsim_file_laws arm64 ios ptrauth config :
  FileLaws fsim (H := sim_target arm64 ios ptrauth config).
Proof.
  split.
  - intros k path d k'. cbn. unfold fsim_open.
    destruct (fsim_lookup k path) as [f|] eqn:Hf;
      [|intros [= <- <-]; by split_and!; [| | | |lia]].
    destruct (find _ [3; 4; 5; 6]) as [d0|] eqn:Hd;
      [|intros [= <- <-]; by split_and!; [| | | |lia]].
    intros [= <- <-]. destruct (fsim_find_fresh k _ d0 Hd) as [Hfree Hin]. split_and!; [done|done|done| |].
    + intros Hneg. exfalso. rewrite !elem_of_cons, elem_of_nil in Hin. lia.
    + intros _. by exists f.
  - intros k d f mode size Hd. cbn in *. rewrite Hd.
    destruct (Z.ltb_spec (Z.of_nat (length (file_content f))) (2 ^ 63)); intros [= <- <-]; done.
  - intros k n d f a k' Hn Hd. cbn. unfold fsim_mmap.
    set (a0 := default 0 (head (fs_places k)) * SIM_PAGE). cbv zeta.
    destruct (_ && _) eqn:Hfree; intros [= <- <-].
    2:{ split_and!; [done|done|done|done]. }
    apply andb_true_iff in Hfree as [Hfree Hm%bool_decide_eq_true].
    apply andb_true_iff in Hfree as [Hb Hpages].
    rewrite forallb_forall in Hpages.
    split_and!; [done|done|intros ->; unfold MAP_FAILED, SIM_PAGE in *; lia|].
    intros _. unfold SIM_PAGE in Hb. split_and!; [lia|lia| |done|done| |].
    + cbn [vm_page_size sim_target]. subst a0. by apply Z.mod_mul.
    + intros x Hx. unfold in_pages in Hx. cbn [vm_page_size sim_target] in Hx.
      assert (x / SIM_PAGE ∈ sim_pages a0 n) as Hin by (apply sim_pages_spec; lia).
      specialize (Hpages _ (proj1 (list_elem_of_In _ _) Hin)).
      apply bool_decide_eq_true in Hpages. change (sim_page_prot (fs_kernel k) x = None).
      unfold sim_page_prot. rewrite Hpages.
      by destruct ((0 <=? x) && (x <? 2 ^ 64)).
    + intros x. apply (sim_pages_become _ _ _ _ (fs_kernel k) _ a0 n (Some VM_PROT_READ));
        unfold SIM_PAGE; [lia|lia|lia|]. intros i. apply sim_fold_lookup.
  - intros k d r k'. cbn. by intros [= <- <-].
  - intros k a n r k' Ha Hn Hb Hm. cbn. unfold fsim_munmap. intros [= <- <-].
    split_and!; [done|done|done|].
    intros x. apply (sim_pages_become _ _ _ _ (fs_kernel k) _ a n None); [lia|lia|lia|].
    intros i. apply fsim_unmap_lookup.
Qed.
