(* ===== verification/SharedCache.v ===== *)
(** The files of the dyld shared cache: RorkHookSharedCache.c above its parser
    ([DyldCache.v]) - mapping a cache file, finding the cache of the process, and
    the lookups by path and in the active cache. *)
From stdpp Require Import strings.
From S2P Require Import Prelude Machine Logic Sim CString Regions DyldCache Files.
Open Scope Z_scope.

(** The bytes of a string literal. *)
Definition literal (s : string) : list byte := String.list_byte_of_string s.

(** ** The environment of the process

    [dlsym(RTLD_DEFAULT, name)] is the function it finds, if any, here one that
    takes nothing and returns a string or [NULL]. *)
Class Environment (K : Type) := {
  dlsym : K -> list byte -> option (K -> option (list byte));
  getenv : K -> list byte -> option (list byte)
}.

(** ** Buffers

    A [char] array that holds a string is the list of the bytes before its
    terminator; [n] is the size of the array. *)

(** [strlcpy(dst, src, n)] and [strlcat(dst, src, n)]: the result and the string
    left in [dst]. *)
Definition strlcpy (src : list byte) (n : Z) : Z * list byte :=
  (Z.of_nat (length src), take (Z.to_nat (n - 1)) src).
Definition strlcat (dst src : list byte) (n : Z) : Z * list byte :=
  (Z.of_nat (length dst) + Z.of_nat (length src), take (Z.to_nat (n - 1)) (dst ++ src)).

(** [snprintf(dst, n, ...)] that formats to [text]: a text longer than [INT_MAX]
    is an error. *)
Definition INT_MAX : Z := 2 ^ 31 - 1.
Definition snprintf (text : list byte) (n : Z) : Z * list byte :=
  (if INT_MAX <? Z.of_nat (length text) then -1 else Z.of_nat (length text),
   take (Z.to_nat (n - 1)) text).

(** <sys/syslimits.h> *)
Definition PATH_MAX : Z := 1024.

(** [DYLD_SHARED_REGION=private] *)
Definition private_region : list byte := literal "private".

Section SharedCache.
Context {K : Type} {T : Target} {Kern : Kernel K} {Files : FileSystem K} {Env : Environment K}.
Implicit Types σ : machine K.

(** ** File mappings *)

Record RorkHookFileMapping := FileMapping { mapping_bytes : Z; mapping_size : Z }.

(** [path] and [mappingOut] may be [NULL]; the mapping written to [mappingOut] is
    returned. *)
Definition RorkHookMapFile (path : option (list byte)) (mappingOut : option RorkHookFileMapping)
    : M K (bool * option RorkHookFileMapping) :=
  match mappingOut with
  | None => ret (false, None)
  | Some _ =>
  let mappingOut := FileMapping NULL 0 in
  match path with
  | None => ret (false, Some mappingOut)
  | Some path =>
  let* descriptor := kcall (fun k => open_file k path) in
  if descriptor <? 0 then ret (false, Some mappingOut) else
  let* (result, (st_mode, st_size)) := asks (fun k => fstat k descriptor) in
  let valid := (result =? 0) && S_ISREG st_mode && (0 <? st_size) && (u64 st_size <=? SIZE_MAX) in
  if negb valid then
    kcall (fun k => close k descriptor) ;;;
    ret (false, Some mappingOut)
  else
  let size := u64 st_size in
  let* bytes := sys_mmap size descriptor in
  kcall (fun k => close k descriptor) ;;;
  if bytes =? MAP_FAILED then ret (false, Some mappingOut)
  else ret (true, Some (FileMapping bytes size))
  end
  end.

Definition RorkHookUnmapFile (mapping : RorkHookFileMapping) : M K unit :=
  if negb (mapping_bytes mapping =? NULL) && negb (mapping_size mapping =? 0)
  then kcall (fun k => munmap k (mapping_bytes mapping) (mapping_size mapping)) ;;; ret tt
  else ret tt.

(** ** The location of the cache *)

Definition cryptexCacheDirectory : list byte :=
  literal "/private/preboot/Cryptexes/OS/System/Library/Caches/com.apple.dyld".
Definition cryptexCacheBasePath : list byte :=
  literal "/private/preboot/Cryptexes/OS/System/Library/Caches/com.apple.dyld/dyld_shared_cache".
Definition systemCacheDirectory : list byte := literal "/System/Library/Caches/com.apple.dyld".
Definition systemCacheBasePath : list byte :=
  literal "/System/Library/Caches/com.apple.dyld/dyld_shared_cache".

Definition suffixes : list (list byte) :=
  literal <$> ["_arm64e"; "_arm64"; "_armv7s"; "_armv7"].

(** [access(path, mode) == 0] *)
Definition accessible (path : list byte) (mode : Z) : M K bool :=
  let* result := asks (fun k => access k path mode) in ret (result =? 0).

(** The suffix loop: the path that is left in the buffer. *)
Fixpoint probe_suffixes (cachePath : list byte) (baseLength : nat)
    (suffixes : list (list byte)) : M K (list byte) :=
  match suffixes with
  | [] => ret []
  | suffix :: suffixes =>
      let cachePath := take baseLength cachePath in
      let '(result, cachePath) := strlcat cachePath suffix PATH_MAX in
      let* found :=
        if result <? PATH_MAX then accessible cachePath R_OK else ret false in
      if found then ret cachePath else probe_suffixes cachePath baseLength suffixes
  end.

(** The first of the two cache directories that can be searched. *)
Definition probe_directories : M K (list byte) :=
  let* cryptex := accessible cryptexCacheDirectory (Z.lor R_OK X_OK) in
  if cryptex then ret (snd (strlcpy cryptexCacheBasePath PATH_MAX)) else
  let* system := accessible systemCacheDirectory (Z.lor R_OK X_OK) in
  if system then ret (snd (strlcpy systemCacheBasePath PATH_MAX)) else ret [].

(** The base path of the cache files; [None] is the early return that leaves the
    buffer empty. *)
Definition cache_base_path : M K (option (list byte)) :=
  let* sharedRegion := asks (fun k => getenv k (literal "DYLD_SHARED_REGION")) in
  let* sharedCacheDir := asks (fun k => getenv k (literal "DYLD_SHARED_CACHE_DIR")) in
  match sharedRegion, sharedCacheDir with
  | Some region, Some dir =>
      if strcmp_eq region private_region then
        let '(written, cachePath) := snprintf (dir ++ literal "/dyld_shared_cache") PATH_MAX in
        ret (if (written <? 0) || (PATH_MAX <=? written) then None else Some cachePath)
      else let* cachePath := probe_directories in ret (Some cachePath)
  | _, _ => let* cachePath := probe_directories in ret (Some cachePath)
  end.

(** The string the [dispatch_once] block leaves in [cachePath]. *)
Definition locate_block : M K (list byte) :=
  let* activePath := asks (fun k =>
    match dlsym k (literal "dyld_shared_cache_file_path") with
    | Some activeCachePath => activeCachePath k
    | None => None
    end) in
  let '(fits, cachePath) :=
    match activePath with
    | Some path => let '(result, cachePath) := strlcpy path PATH_MAX in
                   (result <? PATH_MAX, cachePath)
    | None => (false, [])
    end in
  let* active := if fits : bool then accessible cachePath R_OK else ret false in
  if active then ret cachePath else
  let* base := cache_base_path in
  match base with
  | None => ret []
  | Some cachePath =>
      let baseLength := length cachePath in
      if (baseLength =? 0)%nat then ret [] else probe_suffixes cachePath baseLength suffixes
  end.

(** The static variables of the function: the once token and the buffer. *)
Record locate_state := LocateState { once_done : bool; cachePath : list byte }.
Definition locate_init : locate_state := LocateState false [].

Definition RorkHookLocateSharedCache (s : locate_state) : M K (list byte * locate_state) :=
  if once_done s then ret (cachePath s, s) else
  let* path := locate_block in ret (path, LocateState true path).

(** ** The lookups *)

Definition RorkHookFindSharedCacheSymbolAtPath (mainPath : option (list byte)) (slide : Z)
    (imagePath symbolName : option (list byte)) : M K Z :=
  match mainPath, imagePath, symbolName with
  | Some mainPath, Some imagePath, Some symbolName =>
  let* (mapped, mainMapping) := RorkHookMapFile (Some mainPath) (Some (FileMapping 0 0)) in
  if negb mapped then ret NULL else
  let mainMapping := default (FileMapping 0 0) mainMapping in
  let '(written, symbolsPath) := snprintf (mainPath ++ literal ".symbols") PATH_MAX in
  let* (hasSidecar, symbolsMapping) :=
    if (0 <=? written) && (written <? PATH_MAX)
    then RorkHookMapFile (Some symbolsPath) (Some (FileMapping 0 0))
    else ret (false, None) in
  let symbolsMapping :=
    if hasSidecar : bool then default (FileMapping 0 0) symbolsMapping else mainMapping in
  let* resolved :=
    RorkHookFindSharedCacheSymbolInData (mapping_bytes mainMapping) (mapping_size mainMapping)
      (mapping_bytes symbolsMapping) (mapping_size symbolsMapping) slide
      (Some imagePath) (Some symbolName) in
  (if hasSidecar then RorkHookUnmapFile symbolsMapping else ret tt) ;;;
  RorkHookUnmapFile mainMapping ;;;
  ret resolved
  | _, _, _ => ret NULL
  end.

Definition RorkHookFindSharedCacheSymbol (s : locate_state) (imagePath symbolName : option (list byte))
    : M K (Z * locate_state) :=
  match imagePath, symbolName with
  | Some _, Some _ =>
      let* (mainPath, s) := RorkHookLocateSharedCache s in
      if bool_decide (mainPath = []) then ret (NULL, s) else
      let* slide := RorkHookSharedCacheSlide in
      let* resolved := RorkHookFindSharedCacheSymbolAtPath (Some mainPath) slide imagePath symbolName in
      ret (resolved, s)
  | _, _ => ret (NULL, s)
  end.
End SharedCache.

(** ** Mapping a file

    The effect of the calls is followed through two relations between the states
    before and after: nothing changed that the process can see, or exactly one
    mapping was added. *)

Section Mapping.
Context {K : Type} {T : Target} {Kern : Kernel K} {Files : FileSystem K}.
Context {Laws : KernelLaws K} {FLaws : FileLaws K}.
Implicit Types σ : machine K.

Record untouched σ σ' : Prop := {
  un_rest : same_rest (kern σ) (kern σ');
  un_prot : same_prot (kern σ) (kern σ');
  un_descriptors : descriptors (kern σ') = descriptors (kern σ);
  un_mappings : mappings (kern σ') = mappings (kern σ);
  un_log : log σ' = log σ;
  un_bytes x : prot_at (kern σ) x <> None -> peek σ' x = peek σ x
}.

Record mapped σ σ' (path : list byte) (m : RorkHookFileMapping) (f : file) : Prop := {
  ma_file : lookup_path (kern σ) path = Some f;
  ma_regular : S_ISREG (file_mode f) = true;
  ma_size : 0 < mapping_size m;
  ma_view : view_ok σ' (DataView (mapping_bytes m) (mapping_size m));
  ma_holds : holds σ' (DataView (mapping_bytes m) (mapping_size m)) (file_content f);
  ma_new : mappings (kern σ) !! mapping_bytes m = None;
  ma_mappings : mappings (kern σ') = <[mapping_bytes m := mapping_size m]> (mappings (kern σ));
  ma_descriptors : descriptors (kern σ') = descriptors (kern σ);
  ma_rest : same_rest (kern σ) (kern σ');
  ma_free x : in_pages (mapping_bytes m) (mapping_size m) x = true -> prot_at (kern σ) x = None;
  ma_pages : pages_become (kern σ) (kern σ') (mapping_bytes m) (mapping_size m) (Some VM_PROT_READ);
  ma_log : log σ' = log σ;
  ma_bytes x : prot_at (kern σ) x <> None -> peek σ' x = peek σ x
}.

#[export] Instance same_rest_preorder : PreOrder (same_rest (K := K)).
Proof.
  split.
  - by intros k.
  - intros k1 k2 k3 ((Ha1 & Hb1 & Hc1) & Ht1 & Hp1) ((Ha2 & Hb2 & Hc2) & Ht2 & Hp2).
    unfold same_rest, same_process, same_thread in *.
    split_and!; [intros; by rewrite Ha2|intros; by rewrite Hb2|congruence|congruence|].
    intros; by rewrite Hp2.
Qed.

#[export] Instance untouched_preorder : PreOrder untouched.
Proof.
  split.
  - intros σ. by split.
  - intros σ1 σ2 σ3 [Hr1 Hp1 Hd1 Hm1 Hl1 Hb1] [Hr2 Hp2 Hd2 Hm2 Hl2 Hb2]. split.
    + by transitivity (kern σ2).
    + intros x. by rewrite Hp2.
    + congruence.
    + congruence.
    + congruence.
    + intros x Hx. rewrite Hb2 by by rewrite Hp1. by apply Hb1.
Qed.

Lemma page_size_pos : 0 < vm_page_size.
Proof using Laws. destruct page_size_pow2 as (n & Hn & ->). lia. Qed.

Lemma in_pages_range a n x : a <= x < a + n -> in_pages a n x = true.
Proof using Laws.
  intros Hx. unfold in_pages.
  pose proof (page_base_bounds vm_page_size a page_size_pos).
  pose proof (page_base_bounds vm_page_size (a + n - 1) page_size_pos). lia.
Qed.

(** Opening and closing a descriptor. *)
Lemma close_untouched σ (k : K) d f r k' :
  same_rest (kern σ) k -> same_prot (kern σ) k -> mappings k = mappings (kern σ) ->
  descriptors (kern σ) !! d = None -> descriptors k = <[d := f]> (descriptors (kern σ)) ->
  close k d = (r, k') -> untouched σ (Machine k' (mem σ) (log σ)).
Proof using FLaws.
  intros Hr Hp Hm Hd Hds Hc. destruct (close_law _ _ _ _ Hc) as (Hr' & Hp' & Hm' & Hds').
  split; cbn [kern log].
  - by transitivity k.
  - intros x. by rewrite Hp'.
  - by rewrite Hds', Hds, delete_insert_id.
  - congruence.
  - done.
  - done.
Qed.

(** The bytes of a fresh mapping. *)
Lemma mapped_bytes_length f n :
  0 < n -> Z.of_nat (length (mapped_bytes f n)) = page_base vm_page_size (n - 1) + vm_page_size.
Proof using Laws.
  intros Hn. unfold mapped_bytes. rewrite length_resize.
  pose proof (page_base_nonneg vm_page_size (n - 1) page_size_pos ltac:(lia)).
  pose proof page_size_pos. lia.
Qed.

Lemma mapped_bytes_content f :
  file_content f <> [] ->
  take (length (file_content f)) (mapped_bytes f (Z.of_nat (length (file_content f)))) =
  file_content f.
Proof using Laws.
  intros Hne. unfold mapped_bytes. rewrite Nat2Z.id, firstn_all.
  assert (0 < length (file_content f))%nat by (destruct (file_content f); [done|cbn; lia]).
  pose proof (page_base_bounds vm_page_size (Z.of_nat (length (file_content f)) - 1) page_size_pos).
  rewrite take_resize_le by lia. by rewrite resize_all.
Qed.

(** A page-aligned mapping covers the pages it fills. *)
Lemma in_pages_mapping a n x :
  0 < n -> a mod vm_page_size = 0 ->
  in_pages a n x = true <-> a <= x < a + (page_base vm_page_size (n - 1) + vm_page_size).
Proof using Laws.
  intros Hn Ha. unfold in_pages. pose proof page_size_pos as Hp.
  rewrite (page_base_eq vm_page_size a a) by lia.
  rewrite (page_base_eq vm_page_size (a + n - 1) (a + page_base vm_page_size (n - 1))); [lia|done| |].
  - rewrite Z.add_mod, Ha, page_base_multiple by lia. by rewrite Z.mod_0_l by lia.
  - pose proof (page_base_bounds vm_page_size (n - 1) Hp). lia.
Qed.

(** The mapping of a regular file, with its descriptor closed again. *)
Lemma mapping_mapped σ path f (k1 k2 k3 : K) d a r :
  same_rest (kern σ) k1 -> same_prot (kern σ) k1 -> mappings k1 = mappings (kern σ) ->
  lookup_path (kern σ) path = Some f -> descriptors (kern σ) !! d = None ->
  descriptors k1 = <[d := f]> (descriptors (kern σ)) ->
  S_ISREG (file_mode f) = true -> file_content f <> [] ->
  let n := Z.of_nat (length (file_content f)) in
  n < 2 ^ 63 -> mmap k1 n d = (a, k2) -> a <> MAP_FAILED -> close k2 d = (r, k3) ->
  mapped σ (Machine k3 (poke (mem σ) a (mapped_bytes f n)) (log σ)) path (FileMapping a n) f.
Proof using Laws FLaws.
  intros Hr Hp Hm Hf Hd Hds Hreg Hne n Hn Hmap Ha Hc.
  assert (0 < n) as Hn0 by (subst n; destruct (file_content f); [done|cbn; lia]).
  assert (0 < n < 2 ^ 64) as Hn' by lia.
  assert (descriptors k1 !! d = Some f) as Hd1 by by rewrite Hds, lookup_insert_eq.
  destruct (mmap_law _ _ _ _ _ _ Hn' Hd1 Hmap) as (Hr2 & Hds2 & _ & Hok).
  destruct (Hok Ha) as (Ha0 & Hend & Hal & Hnew & Hms & Hfree & Hpages).
  destruct (close_law _ _ _ _ Hc) as (Hr3 & Hp3 & Hm3 & Hds3).
  assert (forall x, prot_at k3 x = if in_pages a n x then Some VM_PROT_READ
                                   else prot_at (kern σ) x) as Hprot.
  { intros x. rewrite Hp3, Hpages. by rewrite Hp. }
  pose proof (mapped_bytes_length f n Hn0) as Hlen.
  split; cbn [mapping_bytes mapping_size kern log bytes size].
  - done.
  - done.
  - done.
  - split; cbn [bytes size]; [done|lia|lia|]. intros x Hx. unfold readable. cbn [kern].
    by rewrite Hprot, in_pages_range by done.
  - split; cbn [bytes size]; [done|].
    rewrite <- (peeks_take _ a (length (mapped_bytes f n))).
    + rewrite peeks_poked. by apply mapped_bytes_content.
    + pose proof (page_base_bounds vm_page_size (n - 1) page_size_pos). lia.
  - by rewrite <- Hm.
  - by rewrite Hm3, Hms, Hm.
  - rewrite Hds3, Hds2, Hds. by apply delete_insert_id.
  - transitivity k1; [done|]. by transitivity k2.
  - intros x Hx. rewrite <- Hp. by apply Hfree.
  - intros x. apply Hprot.
  - done.
  - intros x Hx. rewrite peek_poked.
    destruct (_ && _) eqn:Hin; [|done]. exfalso. apply Hx. rewrite <- Hp.
    apply Hfree, in_pages_mapping; [done|done|lia].
Qed.

Lemma RorkHookMapFile_ok σ path old :
  exists ok m σ', RorkHookMapFile (Some path) (Some old) σ = Ret (ok, Some m) σ' /\
    if ok : bool then exists f, mapped σ σ' path m f
    else m = FileMapping NULL 0 /\ untouched σ σ'.
Proof using Laws FLaws.
  unfold RorkHookMapFile, bind, kcall, asks, ret.
  destruct (open_file (kern σ) path) as [d k1] eqn:Ho.
  destruct (open_law _ _ _ _ Ho) as (Hr & Hp & Hm & Hfail & Hopen). cbn [kern mem log].
  destruct (Z.ltb_spec d 0) as [Hneg|Hpos].
  { do 3 eexists. split; [done|]. split; [done|]. by split; auto. }
  destruct (Hopen Hpos) as (f & Hf & Hd & Hds).
  cbn [kern mem log]. destruct (fstat k1 d) as [result [mode size]] eqn:Hstat.
  destruct (negb _) eqn:Hvalid.
  - cbn [kern mem log]. destruct (close k1 d) as [r k2] eqn:Hc. do 3 eexists. split; [done|]. split; [done|].
    by eapply close_untouched.
  - apply negb_false_iff in Hvalid. rewrite !andb_true_iff in Hvalid.
    destruct Hvalid as [[[Hres Hreg] Hsize] _]. apply Z.eqb_eq in Hres as ->.
    assert (descriptors k1 !! d = Some f) as Hd1 by by rewrite Hds, lookup_insert_eq.
    destruct (fstat_law k1 d f mode size Hd1 Hstat) as [-> Hlen].
    destruct (Hlen Hreg) as [-> Hbound]. rewrite u64_small by (unfold is_u64; lia).
    unfold sys_mmap. cbn [kern mem log].
    destruct (mmap k1 _ d) as [a k2] eqn:Hmap. rewrite Hds, lookup_insert_eq. cbn [kern mem log].
    destruct (close k2 d) as [r k3] eqn:Hc.
    assert (file_content f <> []) by (intros He; rewrite He in Hsize; done).
    destruct (Z.eqb_spec a MAP_FAILED) as [->|Ha].
    + assert (0 < Z.of_nat (length (file_content f)) < 2 ^ 64) as Hn' by lia.
      destruct (mmap_law _ _ _ _ _ _ Hn' Hd1 Hmap) as (Hr2 & Hds2 & Hbad & _). destruct (Hbad eq_refl) as [Hp2 Hm2].
      do 3 eexists. split; [done|]. split; [done|].
      apply (close_untouched σ k2 d f r k3); [by transitivity k1| |by rewrite Hm2|done|by rewrite Hds2|done].
      intros x. by rewrite Hp2.
    + do 3 eexists. split; [done|]. exists f. by eapply mapping_mapped.
Qed.
End Mapping.

(** ** Releasing a mapping *)

Section Release.
Context {K : Type} {T : Target} {Kern : Kernel K} {Files : FileSystem K}.
Context {Laws : KernelLaws K} {FLaws : FileLaws K}.
Implicit Types σ : machine K.

(** A mapping is a new one as long as nothing else changes. *)
Lemma mapped_untouched σ σ1 σ2 path m f :
  mapped σ σ1 path m f -> untouched σ1 σ2 -> mapped σ σ2 path m f.
Proof using Laws.
  intros [? ? ? Hv Hh ? ? ? ? ? Hpages ? Hb] [Hr Hp Hd Hm Hl Hby].
  assert (forall x, mapping_bytes m <= x < mapping_bytes m + mapping_size m ->
            prot_at (kern σ1) x = Some VM_PROT_READ) as Hin.
  { intros x Hx. by rewrite Hpages, in_pages_range. }
  split; try done; try congruence.
  - destruct Hv as [? ? ? Hread]. split; [done|done|done|]. intros x Hx. unfold readable.
    cbn [bytes size] in Hx. by rewrite Hp, Hin.
  - destruct Hh as [Hs Hc]. cbn [bytes size] in *. split; [done|]. cbn [bytes].
    rewrite <- Hc at 2. apply peeks_ext. intros x Hx. apply Hby. rewrite Hin; [done|lia].
  - by transitivity (kern σ1).
  - intros x. by rewrite Hp, Hpages.
  - intros x Hx. rewrite Hby; [by apply Hb|]. rewrite Hpages. by destruct (in_pages _ _ _).
Qed.

(** Releasing the mapping gives back the state before it. *)
Lemma RorkHookUnmapFile_ok σ σ' path m f :
  mapped σ σ' path m f ->
  exists σ'', RorkHookUnmapFile m σ' = Ret tt σ'' /\ untouched σ σ''.
Proof using Laws FLaws.
  intros [? ? Hs [Hb0 _ Hend _] _ Hnew Hms Hds Hr Hfree Hpages Hl Hb]. cbn [bytes size] in *.
  unfold RorkHookUnmapFile. replace (_ =? NULL) with false by (unfold NULL; lia).
  replace (_ =? 0) with false by lia. cbn [negb andb].
  unfold bind, kcall, ret. destruct (munmap (kern σ') _ _) as [r k] eqn:Hu.
  assert (mappings (kern σ') !! mapping_bytes m = Some (mapping_size m)) as Hm
    by by rewrite Hms, lookup_insert_eq.
  destruct (munmap_law _ _ _ _ _ Hb0 Hs Hend Hm Hu) as (Hr' & Hds' & Hms' & Hpages').
  eexists. split; [done|]. split; cbn [kern log].
  - by transitivity (kern σ').
  - intros x. rewrite Hpages'. destruct (in_pages _ _ _) eqn:Hx; [by rewrite Hfree|].
    by rewrite Hpages, Hx.
  - congruence.
  - rewrite Hms', Hms. by apply delete_insert_id.
  - done.
  - done.
Qed.

(** A result that stands for an address: the address, or its signature when it is
    executable. *)
Definition signing (k : K) (address result : Z) : Prop :=
  result = address \/
  (ptrauth_calls = true /\ result = ptrauth_sign_unauthenticated (ptrauth_strip address) 0 /\
   exists p, prot_at k (ptrauth_strip address) = Some p /\ prot_has p VM_PROT_EXECUTE = true).

Lemma sign_pointer_signing k address : signing k address (sign_pointer k address).
Proof using Laws.
  unfold signing, sign_pointer. destruct (_ =? NULL); [by left|].
  destruct ptrauth_calls; [|by left]. cbn [orb negb].
  destruct (region_at k _) as [r|] eqn:Hr; [|by left].
  apply region_at_sound in Hr as (? & ? & ? & Hp).
  destruct (prot_has _ _) eqn:Hx; [|by left]. right. split_and!; [done|done|].
  exists (region_protection r). split; [|done]. apply Hp. lia.
Qed.

(** Mapped files are not executable. *)
Lemma signing_mapped σ σ' path m f address result :
  mapped σ σ' path m f -> signing (kern σ') address result -> signing (kern σ) address result.
Proof.
  intros Hm [->|(Hpa & -> & p & Hp & Hx)]; [by left|]. right. split_and!; [done|done|].
  exists p. split; [|done]. rewrite (ma_pages _ _ _ _ _ Hm) in Hp.
  destruct (in_pages _ _ _); [|done]. injection Hp as <-. by vm_compute in Hx.
Qed.
End Release.

(** ** The lookup by path *)

Section AtPath.
Context {K : Type} {T : Target} {Kern : Kernel K} {Files : FileSystem K}.
Context {Laws : KernelLaws K} {FLaws : FileLaws K}.
Implicit Types σ : machine K.

(** What an attempt to map a file shows of it, and the state it leaves. *)
Definition attempt σ (path : list byte) : option (list byte) * machine K :=
  match RorkHookMapFile (Some path) (Some (FileMapping 0 0)) σ with
  | Ret (true, Some m) σ' => (Some (peeks σ' (mapping_bytes m) (Z.to_nat (mapping_size m))), σ')
  | Ret _ σ' => (None, σ')
  | _ => (None, σ)
  end.

(** The path of the sidecar, when it fits the buffer. *)
Definition sidecar_path (mainPath : list byte) : option (list byte) :=
  let path := mainPath ++ literal ".symbols" in
  if Z.of_nat (length path) <? PATH_MAX then Some path else None.

(** The result for the contents of a main cache and of its sidecar. *)
Definition resolved_as (k : K) (main sidecar : option (list byte)) (slide : Z)
    (imagePath symbolName : list byte) (result : Z) : Prop :=
  match (main ← main; file_symbol main (default main sidecar) slide imagePath symbolName) with
  | Some address => signing k address result
  | None => result = NULL
  end.

Lemma attempt_some σ σ' path m f :
  RorkHookMapFile (Some path) (Some (FileMapping 0 0)) σ = Ret (true, Some m) σ' ->
  mapped σ σ' path m f -> attempt σ path = (Some (file_content f), σ').
Proof.
  intros Hr Hm. unfold attempt. rewrite Hr. destruct (ma_holds _ _ _ _ _ Hm) as [Hs Hc].
  cbn [bytes size] in *. by rewrite Hs, Nat2Z.id, Hc.
Qed.

Lemma attempt_none σ σ' path m :
  RorkHookMapFile (Some path) (Some (FileMapping 0 0)) σ = Ret (false, Some m) σ' ->
  attempt σ path = (None, σ').
Proof. intros Hr. unfold attempt. by rewrite Hr. Qed.

(** The mapping shows the file. *)
Record shows σ (m : RorkHookFileMapping) (f : file) : Prop := {
  sh_view : view_ok σ (DataView (mapping_bytes m) (mapping_size m));
  sh_holds : holds σ (DataView (mapping_bytes m) (mapping_size m)) (file_content f)
}.

Lemma mapped_shows σ σ' path m f : mapped σ σ' path m f -> shows σ' m f.
Proof. intros Hm. split; apply Hm. Qed.

(** A file stays visible when another one is mapped. *)
Lemma shows_mapped σ σ' path m f s g :
  shows σ m f -> mapped σ σ' path s g -> shows σ' m f.
Proof.
  intros [[Hb Hs He Hr] [Hsize Hc]] Hm. cbn [bytes size] in *.
  assert (forall x, mapping_bytes m <= x < mapping_bytes m + mapping_size m ->
            prot_at (kern σ) x <> None) as Hsome.
  { intros x Hx Hnone. specialize (Hr x Hx). unfold readable in Hr. by rewrite Hnone in Hr. }
  split; split; cbn [bytes size]; [done|done|done| |done|].
  - intros x Hx. specialize (Hr x Hx). unfold readable in *.
    rewrite (ma_pages _ _ _ _ _ Hm).
    destruct (in_pages _ _ x) eqn:Hin; [|done].
    by rewrite (ma_free _ _ _ _ _ Hm x Hin) in Hr.
  - rewrite <- Hc at 2. apply peeks_ext. intros x Hx.
    apply (ma_bytes _ _ _ _ _ Hm), Hsome. lia.
Qed.

(** The parser on two visible files. *)
Lemma parse_shown σ m s f g slide imagePath symbolName :
  shows σ m f -> shows σ s g -> is_u64 slide ->
  exists result,
    RorkHookFindSharedCacheSymbolInData (mapping_bytes m) (mapping_size m) (mapping_bytes s)
      (mapping_size s) slide (Some imagePath) (Some symbolName) σ = Ret result σ /\
    resolved_as (kern σ) (Some (file_content f)) (Some (file_content g)) slide imagePath symbolName
      result.
Proof using Laws.
  intros [Hmv Hmh] [Hsv Hsh] Hslide. eexists. split.
  - by apply (RorkHookFindSharedCacheSymbolInData_eq σ
             (DataView (mapping_bytes m) (mapping_size m))
             (DataView (mapping_bytes s) (mapping_size s))).
  - unfold resolved_as. cbn [mbind option_bind from_option id].
    erewrite shared_symbol_contents; [|exact Hmh|exact Hsh|..].
    + destruct (file_symbol _ _ _ _ _); [apply sign_pointer_signing|done].
    + destruct Hmv. cbn [bytes size] in *. unfold is_u64. lia.
    + destruct Hsv. cbn [bytes size] in *. unfold is_u64. lia.
Qed.

Lemma resolved_as_mapped σ σ' path m f main sidecar slide imagePath symbolName result :
  mapped σ σ' path m f ->
  resolved_as (kern σ') main sidecar slide imagePath symbolName result ->
  resolved_as (kern σ) main sidecar slide imagePath symbolName result.
Proof.
  intros Hm. unfold resolved_as. destruct (_ ≫= _); [|done]. by eapply signing_mapped.
Qed.

(** The sidecar, when the path fits and the file can be mapped, and its release. *)
Lemma sidecar_attempt σ (mainPath : list byte) :
  let path := mainPath ++ literal ".symbols" in
  let '(written, symbolsPath) := snprintf path PATH_MAX in
  exists has m σ', (if (0 <=? written) && (written <? PATH_MAX)
      then RorkHookMapFile (Some symbolsPath) (Some (FileMapping 0 0))
      else ret (false, None)) σ = Ret (has, m) σ' /\
    fst (default (None, σ) (attempt σ <$> sidecar_path mainPath)) =
      (if has : bool then Some (peeks σ' (mapping_bytes (default (FileMapping 0 0) m))
                          (Z.to_nat (mapping_size (default (FileMapping 0 0) m)))) else None) /\
    if has then exists s f, m = Some s /\ mapped σ σ' path s f else untouched σ σ'.
Proof using Laws FLaws.
  cbv zeta. unfold sidecar_path. set (path := mainPath ++ _). cbv zeta. unfold snprintf.
  destruct (Z.ltb_spec (Z.of_nat (length path)) PATH_MAX) as [Hlt|Hge].
  - unfold PATH_MAX, INT_MAX in *.
    replace (2 ^ 31 - 1 <? Z.of_nat (length path)) with false by lia.
    replace (_ && _) with true by lia. rewrite take_ge by lia.
    destruct (RorkHookMapFile_ok σ path (FileMapping 0 0)) as (ok & m & σ' & Hr & Hok).
    exists ok, (Some m), σ'. split; [done|]. cbn [fmap option_fmap option_map from_option id].
    destruct ok; [destruct Hok as [f Hm]|destruct Hok as [-> Hu]].
    + rewrite (attempt_some _ _ _ _ _ Hr Hm). destruct (ma_holds _ _ _ _ _ Hm) as [Hs Hc].
      cbn [fst bytes size] in *. rewrite Hs, Nat2Z.id, Hc. split; [done|]. by exists m, f.
    + by rewrite (attempt_none _ _ _ _ Hr).
  - exists false, None, σ. split_and!; [|done|done].
    unfold PATH_MAX, INT_MAX in *.
    destruct (Z.ltb_spec (2 ^ 31 - 1) (Z.of_nat (length path))); [done|].
    by replace (_ && _) with false by lia.
Qed.
End AtPath.

(** The whole lookup, on arguments that are present. *)
Section Lookup.
Context {K : Type} {T : Target} {Kern : Kernel K} {Files : FileSystem K}.
Context {Laws : KernelLaws K} {FLaws : FileLaws K}.
Implicit Types σ : machine K.

(** The contents an attempt on the main file and then on its sidecar shows. *)
Definition cache_contents σ (mainPath : list byte) : option (list byte) * option (list byte) :=
  let '(main, σ1) := attempt σ mainPath in
  (main, match main with
         | Some _ => fst (default (None, σ1) (attempt σ1 <$> sidecar_path mainPath))
         | None => None
         end).

Lemma AtPath_ok σ mainPath slide imagePath symbolName :
  is_u64 slide ->
  exists result σ',
    RorkHookFindSharedCacheSymbolAtPath (Some mainPath) slide (Some imagePath) (Some symbolName) σ =
      Ret result σ' /\ untouched σ σ' /\
    let '(main, sidecar) := cache_contents σ mainPath in
    resolved_as (kern σ) main sidecar slide imagePath symbolName result.
Proof using Laws FLaws.
  intros Hslide. unfold RorkHookFindSharedCacheSymbolAtPath, cache_contents.
  destruct (RorkHookMapFile_ok σ mainPath (FileMapping 0 0)) as (ok & m & σ1 & Hr & Hok).
  erewrite bind_Ret by exact Hr. destruct ok; cbn [negb].
  2:{ destruct Hok as [-> Hu]. rewrite (attempt_none _ _ _ _ Hr). do 2 eexists. by split_and!. }
  destruct Hok as [f Hm]. rewrite (attempt_some _ _ _ _ _ Hr Hm). cbn [from_option id].
  pose proof (sidecar_attempt σ1 mainPath) as Hside. cbv zeta in Hside.
  destruct (snprintf _ PATH_MAX) as [written symbolsPath].
  destruct Hside as (has & s & σ2 & Hr2 & -> & Hs). erewrite bind_Ret by exact Hr2.
  destruct has.
  - destruct Hs as (s' & g & -> & Hs). cbn [from_option id].
    destruct (ma_holds _ _ _ _ _ Hs) as [Hsize Hc]. cbn [bytes size] in *.
    destruct (parse_shown σ2 m s' f g slide imagePath symbolName) as (result & Hp & Hres);
      [by eapply shows_mapped, Hs; eapply mapped_shows|by eapply mapped_shows|done|].
    erewrite bind_Ret by exact Hp.
    destruct (RorkHookUnmapFile_ok _ _ _ _ _ Hs) as (σ3 & Hu3 & H13).
    erewrite bind_Ret by exact Hu3.
    destruct (RorkHookUnmapFile_ok σ σ3 mainPath m f) as (σ4 & Hu4 & H4).
    { by eapply mapped_untouched. }
    erewrite bind_Ret by exact Hu4. do 2 eexists. split_and!; [done|done|].
    rewrite Hsize, Nat2Z.id, Hc.
    eapply resolved_as_mapped; [exact Hm|]. by eapply resolved_as_mapped.
  - pose proof (mapped_untouched _ _ _ _ _ _ Hm Hs) as Hm2.
    destruct (parse_shown σ2 m m f f slide imagePath symbolName) as (result & Hp & Hres);
      [by eapply mapped_shows|by eapply mapped_shows|done|].
    erewrite bind_Ret by exact Hp. erewrite bind_Ret by done.
    destruct (RorkHookUnmapFile_ok σ σ2 mainPath m f Hm2) as (σ4 & Hu4 & H4).
    erewrite bind_Ret by exact Hu4. do 2 eexists. split_and!; [done|done|].
    by eapply resolved_as_mapped.
Qed.
End Lookup.

(** ** The location of the cache

    The reference: the first path of a list that is short enough for the buffer
    and readable. *)

Section Location.
Context {K : Type} {Files : FileSystem K} {Env : Environment K}.
Implicit Types σ : machine K.

Definition active_path (k : K) : option (list byte) :=
  activeCachePath ← dlsym k (literal "dyld_shared_cache_file_path"); activeCachePath k.

Definition cache_directory (k : K) : option (list byte) :=
  if access k cryptexCacheDirectory (Z.lor R_OK X_OK) =? 0 then Some cryptexCacheBasePath
  else if access k systemCacheDirectory (Z.lor R_OK X_OK) =? 0 then Some systemCacheBasePath
  else None.

(** The private cache when the process asks for one, or else a system location. *)
Definition cache_base (k : K) : option (list byte) :=
  match getenv k (literal "DYLD_SHARED_REGION"), getenv k (literal "DYLD_SHARED_CACHE_DIR") with
  | Some region, Some dir =>
      if strcmp_eq region private_region then Some (dir ++ literal "/dyld_shared_cache")
      else cache_directory k
  | _, _ => cache_directory k
  end.

Definition candidates (k : K) : list (list byte) :=
  option_list (active_path k) ++
  match cache_base k with Some base => app base <$> suffixes | None => [] end.

Definition usable (k : K) (path : list byte) : bool :=
  (Z.of_nat (length path) <? PATH_MAX) && (access k path R_OK =? 0).

Definition located (k : K) : list byte := default [] (find (usable k) (candidates k)).

Lemma accessible_eq σ path mode :
  accessible path mode σ = Ret (access (kern σ) path mode =? 0) σ.
Proof. done. Qed.

Lemma probe_suffixes_eq σ base cachePath l :
  Z.of_nat (length base) < PATH_MAX -> take (length base) cachePath = base ->
  probe_suffixes cachePath (length base) l σ =
  Ret (default [] (find (usable (kern σ)) (app base <$> l))) σ.
Proof.
  intros Hb. revert cachePath. induction l as [|suffix l IH]; intros cachePath Hc; [done|].
  cbn [probe_suffixes fmap list_fmap find]. rewrite Hc. unfold strlcat, usable at 1.
  rewrite length_app, Nat2Z.inj_add. unfold PATH_MAX in *. cbn [Z.to_nat Z.sub].
  assert (take (length base) (take (Z.to_nat (1024 - 1)) (base ++ suffix)) = base) as Ht.
  { rewrite take_take, Nat.min_l by lia. by rewrite take_app_length. }
  destruct (Z.ltb_spec (Z.of_nat (length base) + Z.of_nat (length suffix)) 1024) as [Hlt|].
  - rewrite (take_ge (base ++ suffix)) by (rewrite length_app; lia).
    erewrite bind_Ret by apply accessible_eq. cbn [andb].
    destruct (_ =? 0); [done|]. apply IH. by rewrite take_app_length.
  - erewrite bind_Ret by done. cbn [andb]. by apply IH.
Qed.

Lemma probe_directories_eq σ :
  probe_directories σ = Ret (default [] (cache_directory (kern σ))) σ.
Proof.
  unfold probe_directories, cache_directory. erewrite bind_Ret by apply accessible_eq.
  destruct (_ =? 0); [by vm_compute|]. erewrite bind_Ret by apply accessible_eq.
  destruct (_ =? 0); by vm_compute.
Qed.

Lemma find_none f (l : list (list byte)) :
  (forall x, In x l -> f x = false) -> find f l = None.
Proof.
  induction l as [|y l IH]; intros Hf; [done|]. cbn [find]. rewrite Hf by by left.
  apply IH. intros; apply Hf. by right.
Qed.

(** A base that does not fit has no usable candidate. *)
Lemma find_long k base l :
  PATH_MAX <= Z.of_nat (length base) -> find (usable k) (app base <$> l) = None.
Proof.
  intros Hb. apply find_none. intros x Hx. apply list_elem_of_In, list_elem_of_fmap in Hx as (s & -> & _).
  unfold usable. rewrite length_app. by replace (_ <? PATH_MAX) with false by lia.
Qed.
End Location.

Section LocateBlock.
Context {K : Type} {Files : FileSystem K} {Env : Environment K}.
Implicit Types σ : machine K.

Lemma cache_base_path_eq σ :
  exists base, cache_base_path σ = Ret base σ /\
    match base with
    | None => exists b, cache_base (kern σ) = Some b /\ PATH_MAX <= Z.of_nat (length b)
    | Some [] => cache_base (kern σ) = None
    | Some b => cache_base (kern σ) = Some b /\ Z.of_nat (length b) < PATH_MAX
    end.
Proof.
  assert (exists base, bind probe_directories (fun p => ret (Some p)) σ = Ret base σ /\
    match base with
    | None => False
    | Some [] => cache_directory (kern σ) = None
    | Some b => cache_directory (kern σ) = Some b /\ Z.of_nat (length b) < PATH_MAX
    end) as (dir & Hdir & Hcase).
  { erewrite bind_Ret by apply probe_directories_eq. eexists. split; [done|].
    unfold cache_directory. destruct (_ =? 0); [by vm_compute|]. by destruct (_ =? 0); vm_compute. }
  unfold cache_base_path, cache_base. erewrite !bind_Ret by done.
  destruct (getenv _ _) as [region|], (getenv (kern σ) (literal "DYLD_SHARED_CACHE_DIR")) as [d|];
    try (exists dir; split; [exact Hdir|by destruct dir as [[]|]]).
  destruct (strcmp_eq _ _); [|exists dir; split; [exact Hdir|by destruct dir as [[]|]]].
  set (text := d ++ literal "/dyld_shared_cache"). unfold snprintf.
  eexists. split; [done|]. unfold PATH_MAX, INT_MAX.
  destruct (Z.ltb_spec (2 ^ 31 - 1) (Z.of_nat (length text))).
  { exists text. split; [done|lia]. }
  destruct (Z.leb_spec 1024 (Z.of_nat (length text))).
  { rewrite orb_true_r. by exists text. }
  replace (_ || _) with false by lia. rewrite take_ge by lia.
  assert (text <> []) as Hne by by destruct d.
  by destruct text; [|split; [|lia]].
Qed.

Lemma locate_block_eq σ : locate_block σ = Ret (located (kern σ)) σ.
Proof.
  unfold locate_block, located, candidates, active_path.
  erewrite bind_Ret by done.
  set (active := match dlsym _ _ with Some f => f (kern σ) | None => None end).
  replace (_ ≫= _) with active by by subst active; destruct (dlsym _ _).
  assert (forall r, (let* base := cache_base_path in
    match base with
    | None => ret []
    | Some cachePath =>
        if (length cachePath =? 0)%nat then ret []
        else probe_suffixes cachePath (length cachePath) suffixes
    end) σ = r ->
    r = Ret (default [] (find (usable (kern σ))
          match cache_base (kern σ) with
          | Some base => app base <$> suffixes | None => [] end)) σ) as Hrest.
  { intros r <-. destruct (cache_base_path_eq σ) as (base & Hb & Hcase).
    erewrite bind_Ret by exact Hb. destruct base as [[|c base]|].
    - by rewrite Hcase.
    - destruct Hcase as [-> Hlt]. cbn [length Nat.eqb].
      apply (probe_suffixes_eq σ (c :: base)); [done|apply take_ge; done].
    - destruct Hcase as (b & -> & Hge). by rewrite find_long. }
  destruct active as [path|]; unfold option_list, option_rect; cbn [app find].
  2:{ erewrite bind_Ret by done. by eapply Hrest. }
  unfold strlcpy, usable at 1, PATH_MAX.
  destruct (Z.ltb_spec (Z.of_nat (length path)) 1024) as [Hlt|]; cbn [andb].
  - rewrite take_ge by lia. erewrite bind_Ret by apply accessible_eq.
    destruct (access (kern σ) path R_OK =? 0); [done|]. by eapply Hrest.
  - erewrite bind_Ret by done. by eapply Hrest.
Qed.
End LocateBlock.

(** ** Properties *)

Section Properties.
Context {K : Type} {T : Target} {Kern : Kernel K} {Files : FileSystem K} {Env : Environment K}.
Context {Laws : KernelLaws K} {FLaws : FileLaws K}.
Implicit Types σ : machine K.

(** C24: mapping a file either maps the whole of a nonempty regular file, read-only,
    at addresses that were free, or fails and changes nothing the process can see;
    the descriptor is closed on every path, and an absent argument opens nothing. *)
Theorem RorkHookMapFile_exact σ path old :
  exists ok m σ', RorkHookMapFile (Some path) (Some old) σ = Ret (ok, Some m) σ' /\
    descriptors (kern σ') = descriptors (kern σ) /\
    (if ok : bool
     then exists f, mapped σ σ' path m f /\ file_content f <> []
     else m = FileMapping NULL 0 /\ untouched σ σ') /\
    RorkHookMapFile (Some path) None σ = Ret (false, None) σ /\
    RorkHookMapFile None (Some old) σ = Ret (false, Some (FileMapping NULL 0)) σ.
Proof using Laws FLaws.
  destruct (RorkHookMapFile_ok σ path old) as (ok & m & σ' & Hr & Hok).
  exists ok, m, σ'. destruct ok.
  - destruct Hok as [f Hm]. split_and!; [done|apply Hm| |done|done]. exists f. split; [done|].
    destruct (ma_holds _ _ _ _ _ Hm) as [Hs _]. pose proof (ma_size _ _ _ _ _ Hm).
    cbn [size] in Hs. intros He. rewrite He in Hs. cbn in Hs. lia.
  - destruct Hok as [-> Hu]. by split_and!; [|apply Hu| | | |].
Qed.

(** C14: the lookup by path never faults, leaves no descriptor or mapping behind and
    changes no byte or protection of the process, whatever fails; its result is
    [NULL] when the main file cannot be mapped, and otherwise what the reference
    lookup finds in the contents of the main file and of its [.symbols] sidecar,
    or of the main file alone when the sidecar cannot be mapped. *)
Theorem RorkHookFindSharedCacheSymbolAtPath_exact σ mainPath slide imagePath symbolName :
  is_u64 slide ->
  exists result σ',
    RorkHookFindSharedCacheSymbolAtPath mainPath slide imagePath symbolName σ = Ret result σ' /\
    untouched σ σ' /\
    match mainPath, imagePath, symbolName with
    | Some mainPath, Some imagePath, Some symbolName =>
        let '(main, sidecar) := cache_contents σ mainPath in
        resolved_as (kern σ) main sidecar slide imagePath symbolName result
    | _, _, _ => result = NULL /\ σ' = σ
    end.
Proof using Laws FLaws.
  intros Hslide. destruct mainPath as [mainPath|], imagePath as [imagePath|],
    symbolName as [symbolName|];
    try (exists NULL, σ; split_and!; [done|reflexivity|done|done]).
  by apply AtPath_ok.
Qed.

(** C22: the first call of the locator runs the search and every later one returns
    its result without asking the system again; the search is the first candidate
    that fits the buffer and is readable, so the result is empty or a readable
    path that fits. *)
Theorem RorkHookLocateSharedCache_exact σ :
  exists s, RorkHookLocateSharedCache locate_init σ = Ret (located (kern σ), s) σ /\
    (forall σ', RorkHookLocateSharedCache s σ' = Ret (located (kern σ), s) σ') /\
    (located (kern σ) = [] \/
     located (kern σ) ∈ candidates (kern σ) /\
     Z.of_nat (length (located (kern σ))) < PATH_MAX /\
     access (kern σ) (located (kern σ)) R_OK = 0).
Proof using.
  exists (LocateState true (located (kern σ))). split_and!; [|done|].
  - unfold RorkHookLocateSharedCache. cbn [once_done locate_init].
    by erewrite bind_Ret by apply locate_block_eq.
  - unfold located. destruct (find _ _) as [p|] eqn:Hf; [|by left]. right.
    cbn [from_option id]. apply find_some in Hf as [Hin Hu].
    split; [by apply list_elem_of_In|]. unfold usable in Hu. lia.
Qed.

(** C23: the lookup in the active cache is the lookup by path in the located cache
    with the slide dyld publishes, and [NULL] when no cache is located; it leaves
    no descriptor or mapping behind. *)
Theorem RorkHookFindSharedCacheSymbol_exact σ imagePath symbolName :
  is_u64 (snd (task_dyld_info (kern σ))) ->
  0 <= offsetof_version -> offsetof_version + 4 <= sizeof_dyld_all_image_infos ->
  0 <= offsetof_sharedCacheSlide ->
  offsetof_sharedCacheSlide + 8 <= sizeof_dyld_all_image_infos ->
  exists result s σ',
    RorkHookFindSharedCacheSymbol locate_init (Some imagePath) (Some symbolName) σ =
      Ret (result, s) σ' /\
    once_done s = true /\ cachePath s = located (kern σ) /\ untouched σ σ' /\
    if bool_decide (located (kern σ) = []) then result = NULL
    else let '(main, sidecar) := cache_contents σ (located (kern σ)) in
         resolved_as (kern σ) main sidecar (shared_cache_slide σ) imagePath symbolName result.
Proof using Laws FLaws.
  intros Hi Hv1 Hv2 Hs1 Hs2. unfold RorkHookFindSharedCacheSymbol.
  assert (RorkHookLocateSharedCache locate_init σ =
          Ret (located (kern σ), LocateState true (located (kern σ))) σ) as Hl.
  { unfold RorkHookLocateSharedCache. cbn [once_done locate_init].
    by erewrite bind_Ret by apply locate_block_eq. }
  erewrite bind_Ret by exact Hl. cbv beta iota.
  destruct (bool_decide (located (kern σ) = [])).
  { do 3 eexists. split_and!; [done|done|done|reflexivity|done]. }
  erewrite bind_Ret by by apply RorkHookSharedCacheSlide_eq.
  assert (is_u64 (shared_cache_slide σ)) as Hslide.
  { unfold shared_cache_slide. destruct (task_dyld_info _).
    destruct (_ && _); [apply peek_u64_range|done]. }
  destruct (AtPath_ok σ (located (kern σ)) (shared_cache_slide σ) imagePath symbolName Hslide)
    as (result & σ' & Hr & Hu & Hres).
  erewrite bind_Ret by exact Hr. do 3 eexists. by split_and!.
Qed.
End Properties.

(** ** Witnesses *)

(** What dyld says of its cache, if it has the function, and the environment. *)
Definition sim_environment (dyld : option (option (list byte)))
    (env : list (list byte * list byte)) : Environment fsim := {|
  dlsym := fun _ _ => (fun path _ => path) <$> dyld;
  getenv := fun _ name => snd <$> find (fun entry => bool_decide (fst entry = name)) env
|}.

(** The dyld record is at [0x4000], with slide [0x100]; the page at [0x8000] is
    executable. *)
Definition cache_process (files : list (string * list byte)) (places : list Z)
    (accessible : list (list byte)) : machine fsim :=
  let σ := sim_machine [(1, 1); (2, 5)] [(0x4000, le_split 4 15); (0x4098, le_split 8 0x100)] in
  let k := kern σ in
  Machine (FSim (Sim (sim_prot k) [] false 0 0 [] (KERN_SUCCESS, 0x4000))
             ((fun '(path, content) => (literal path, File S_IFREG content)) <$> files)
             ∅ ∅ places accessible) (mem σ) [].

(** A cache, with and without a sidecar whose symbol has another value. *)
Definition inline_process : machine fsim :=
  cache_process [("/c", modern_cache 0x8000)] [16; 32] [literal "/c"].
Definition sidecar_process : machine fsim :=
  cache_process [("/c", modern_cache 0x8000); ("/c.symbols", modern_cache 0x8200)] [16; 32]
    [literal "/c"].
(** The second mapping fails: its page is in use. *)
Definition full_process : machine fsim :=
  cache_process [("/c", modern_cache 0x8000); ("/c.symbols", modern_cache 0x8200)] [16; 16] [].

Definition dyld_knows : Environment fsim := sim_environment (Some (Some (literal "/c"))) [].

Definition found_in (σ : machine fsim) : option Z :=
  result_of (RorkHookFindSharedCacheSymbolAtPath (T := device) (Some (literal "/c")) 0x100
    (Some path_a) (Some name_g) σ).

Example sidecar_precedence :
  found_in inline_process = Some (0x8100 + 2 ^ 48) /\
  found_in sidecar_process = Some (0x8300 + 2 ^ 48) /\
  found_in full_process = Some (0x8100 + 2 ^ 48) /\
  found_in (cache_process [] [] []) = Some NULL.
Proof. by vm_compute. Qed.

(** The locator looks in one place only: once the Cryptex directory can be searched
    it does not fall back to the system cache, and once the process asks for a
    private cache it falls back to neither. *)
Example locator_does_not_fall_back :
  let system := systemCacheBasePath ++ literal "_arm64e" in
  let private := [(literal "DYLD_SHARED_REGION", literal "private");
                  (literal "DYLD_SHARED_CACHE_DIR", literal "/p")] in
  let search env readable :=
    located (Env := sim_environment None env) (kern (cache_process [] [] readable)) in
  search [] [systemCacheDirectory; system] = system /\
  search [] [cryptexCacheDirectory; systemCacheDirectory; system] = [] /\
  search private [systemCacheDirectory; system] = [] /\
  search private [systemCacheDirectory; system; literal "/p/dyld_shared_cache_armv7"] =
    literal "/p/dyld_shared_cache_armv7".
Proof. by vm_compute. Qed.

Lemma RorkHookFindSharedCacheSymbolAtPath_exact_witness :
  is_u64 0x100 /\
  exists result σ',
    RorkHookFindSharedCacheSymbolAtPath (T := device) (Some (literal "/c")) 0x100 (Some path_a)
      (Some name_g) sidecar_process = Ret result σ' /\
    untouched (Kern := fsim_kernel) sidecar_process σ' /\
    let '(main, sidecar) := cache_contents (T := device) sidecar_process (literal "/c") in
    resolved_as (T := device) (kern sidecar_process) main sidecar 0x100 path_a name_g result.
Proof.
  split; [done|].
  exact (RorkHookFindSharedCacheSymbolAtPath_exact (T := device) (Laws := fsim_laws _ _ _ _)
    (FLaws := fsim_file_laws _ _ _ _) sidecar_process (Some (literal "/c")) 0x100 (Some path_a)
    (Some name_g) ltac:(done)).
Defined.

Lemma RorkHookMapFile_exact_witness :
  result_of (RorkHookMapFile (T := device) (Some (literal "/c")) (Some (FileMapping 1 1))
    inline_process) = Some (true, Some (FileMapping 0x40000 550)) /\
  exists ok m σ', RorkHookMapFile (T := device) (Some (literal "/c")) (Some (FileMapping 1 1))
      inline_process = Ret (ok, Some m) σ' /\
    descriptors (kern σ') = descriptors (kern inline_process) /\
    (if ok : bool
     then exists f, mapped (T := device) inline_process σ' (literal "/c") m f /\ file_content f <> []
     else m = FileMapping NULL 0 /\ untouched inline_process σ') /\
    RorkHookMapFile (T := device) (Some (literal "/c")) None inline_process =
      Ret (false, None) inline_process /\
    RorkHookMapFile (T := device) None (Some (FileMapping 1 1)) inline_process =
      Ret (false, Some (FileMapping NULL 0)) inline_process.
Proof.
  split; [by vm_compute|].
  exact (RorkHookMapFile_exact (T := device) (Laws := fsim_laws _ _ _ _)
    (FLaws := fsim_file_laws _ _ _ _) inline_process (literal "/c") (FileMapping 1 1)).
Defined.

Lemma RorkHookFindSharedCacheSymbol_exact_witness :
  (fst <$> result_of (RorkHookFindSharedCacheSymbol (T := device) (Env := dyld_knows) locate_init
    (Some path_a) (Some name_g) sidecar_process)) = Some (0x8300 + 2 ^ 48) /\
  exists result s σ',
    RorkHookFindSharedCacheSymbol (T := device) (Env := dyld_knows) locate_init (Some path_a)
      (Some name_g) sidecar_process = Ret (result, s) σ' /\
    once_done s = true /\ cachePath s = located (Env := dyld_knows) (kern sidecar_process) /\
    untouched sidecar_process σ' /\
    if bool_decide (located (Env := dyld_knows) (kern sidecar_process) = []) then result = NULL
    else let '(main, sidecar) := cache_contents (T := device) sidecar_process
               (located (Env := dyld_knows) (kern sidecar_process)) in
         resolved_as (T := device) (kern sidecar_process) main sidecar
           (shared_cache_slide (T := device) sidecar_process) path_a name_g result.
Proof.
  split; [by vm_compute|].
  apply (RorkHookFindSharedCacheSymbol_exact (T := device) (Env := dyld_knows)
    (Laws := fsim_laws _ _ _ _) (FLaws := fsim_file_laws _ _ _ _)); done.
Defined.
