(* ===== verification/Locator.v ===== *)
(** Concurrent calls of [RorkHookLocateSharedCache] (RorkHookSharedCache.c): the
    [dispatch_once] token and the static buffer that the block writes in stages.

    [SharedCache.v] runs the block as one step of one thread.  Here the block is a
    tree of its system calls and buffer writes, any number of threads call the
    locator, and the environment (files, variables, dyld) may change between any
    two of their steps. *)
From stdpp Require Import strings relations.
From S2P Require Import Prelude Machine Logic CString Files SharedCache Threads.
Open Scope Z_scope.

(** ** The block in stages

    A stage asks the system, which may read the buffer, or writes the buffer; the
    result of a write is that of the string function that performs it. *)
Inductive block (K : Type) : Type :=
| Finished
| Asks {B : Type} (query : K -> list byte -> B) (next : B -> block K)
| Writes (write : list byte -> Z * list byte) (next : Z -> block K).
Arguments Finished {K}.
Arguments Asks {K B} _ _.
Arguments Writes {K} _ _.

(** [cachePath[0] = '\0'], and [cachePath[n] = '\0'] *)
Definition write_end (n : nat) (cachePath : list byte) : Z * list byte := (0, take n cachePath).

Section Stages.
Context {K : Type} {Files : FileSystem K} {Env : Environment K}.

(** The exit that leaves the buffer empty. *)
Definition clear_stages : block K := Writes (write_end 0) (fun _ => Finished).

(** The suffix loop. *)
Fixpoint probe_stages (baseLength : nat) (suffixes : list (list byte)) : block K :=
  match suffixes with
  | [] => clear_stages
  | suffix :: suffixes =>
      Writes (write_end baseLength) (fun _ =>
      Writes (fun cachePath => strlcat cachePath suffix PATH_MAX) (fun result =>
      if result <? PATH_MAX then
        Asks (fun k cachePath => access k cachePath R_OK =? 0) (fun found =>
        if found : bool then Finished else probe_stages baseLength suffixes)
      else probe_stages baseLength suffixes))
  end.

Definition suffix_stages : block K :=
  Asks (fun _ cachePath => length cachePath) (fun baseLength =>
  if (baseLength =? 0)%nat then clear_stages else probe_stages baseLength suffixes).

Definition directory_stages : block K :=
  Asks (fun k _ => access k cryptexCacheDirectory (Z.lor R_OK X_OK) =? 0) (fun cryptex =>
  if cryptex : bool then
    Writes (fun _ => strlcpy cryptexCacheBasePath PATH_MAX) (fun _ => suffix_stages)
  else
  Asks (fun k _ => access k systemCacheDirectory (Z.lor R_OK X_OK) =? 0) (fun system =>
  if system : bool then
    Writes (fun _ => strlcpy systemCacheBasePath PATH_MAX) (fun _ => suffix_stages)
  else suffix_stages)).

Definition base_stages : block K :=
  Asks (fun k _ => getenv k (literal "DYLD_SHARED_REGION")) (fun sharedRegion =>
  Asks (fun k _ => getenv k (literal "DYLD_SHARED_CACHE_DIR")) (fun sharedCacheDir =>
  match sharedRegion, sharedCacheDir with
  | Some region, Some dir =>
      if strcmp_eq region private_region then
        Writes (fun _ => snprintf (dir ++ literal "/dyld_shared_cache") PATH_MAX) (fun written =>
        if (written <? 0) || (PATH_MAX <=? written) then clear_stages else suffix_stages)
      else directory_stages
  | _, _ => directory_stages
  end)).

Definition fallback_stages : block K := Writes (write_end 0) (fun _ => base_stages).

Definition locate_stages : block K :=
  Asks (fun k _ => dlsym k (literal "dyld_shared_cache_file_path")) (fun activeCachePath =>
  match activeCachePath with
  | None => fallback_stages
  | Some activeCachePath =>
  Asks (fun k _ => activeCachePath k) (fun activePath =>
  match activePath with
  | None => fallback_stages
  | Some activePath =>
      Writes (fun _ => strlcpy activePath PATH_MAX) (fun result =>
      if result <? PATH_MAX then
        Asks (fun k cachePath => access k cachePath R_OK =? 0) (fun active =>
        if active : bool then Finished else fallback_stages)
      else fallback_stages)
  end)
  end).

(** The buffer the block leaves when nothing interferes. *)
Fixpoint run_block (b : block K) (k : K) (cachePath : list byte) : list byte :=
  match b with
  | Finished => cachePath
  | Asks query next => run_block (next (query k cachePath)) k cachePath
  | Writes write next =>
      let '(result, cachePath) := write cachePath in run_block (next result) k cachePath
  end.

(** ** Callers

    A caller that finds the token fresh runs the block, one that finds the block
    running waits, one that finds it done returns. *)
Inductive once_token := TokenFresh | TokenRunning | TokenDone.
Inductive caller := Calling | InBlock (b : block K) | Returned.

Record locator := Locator {
  environment : K;
  token : once_token;
  buffer : list byte;
  callers : nat -> caller
}.

Definition locator_init (k : K) : locator := Locator k TokenFresh [] (fun _ => Calling).

(** [changes k k'] when the system may change the environment from [k] to [k']. *)
Context (changes : K -> K -> Prop).

Inductive locator_step : locator -> locator -> Prop :=
| StepEnter k c cs i :
    cs i = Calling ->
    locator_step (Locator k TokenFresh c cs)
      (Locator k TokenRunning c (set_at cs i (InBlock locate_stages)))
| StepAsk k t c cs i {B} (query : K -> list byte -> B) next :
    cs i = InBlock (Asks query next) ->
    locator_step (Locator k t c cs) (Locator k t c (set_at cs i (InBlock (next (query k c)))))
| StepWrite k t c cs i write next result c' :
    cs i = InBlock (Writes write next) -> write c = (result, c') ->
    locator_step (Locator k t c cs) (Locator k t c' (set_at cs i (InBlock (next result))))
| StepLeave k t c cs i :
    cs i = InBlock Finished ->
    locator_step (Locator k t c cs) (Locator k TokenDone c (set_at cs i Returned))
| StepSkip k c cs i :
    cs i = Calling ->
    locator_step (Locator k TokenDone c cs) (Locator k TokenDone c (set_at cs i Returned))
| StepChange k k' t c cs :
    changes k k' -> locator_step (Locator k t c cs) (Locator k' t c cs).

(** The next step of caller [i], if it has one. *)
Definition locator_act (s : locator) (i : nat) : option locator :=
  let '(Locator k t c cs) := s in
  match cs i with
  | Calling =>
      match t with
      | TokenFresh => Some (Locator k TokenRunning c (set_at cs i (InBlock locate_stages)))
      | TokenRunning => None
      | TokenDone => Some (Locator k t c (set_at cs i Returned))
      end
  | InBlock (Asks query next) => Some (Locator k t c (set_at cs i (InBlock (next (query k c)))))
  | InBlock (Writes write next) =>
      let '(result, c) := write c in Some (Locator k t c (set_at cs i (InBlock (next result))))
  | InBlock Finished => Some (Locator k TokenDone c (set_at cs i Returned))
  | Returned => None
  end.

(** The steps of the callers of a schedule; a caller without a step waits. *)
Definition run_callers (s : locator) (schedule : list nat) : locator :=
  foldl (fun s i => default s (locator_act s i)) s schedule.
End Stages.
Arguments Returned {K}.
Arguments Calling {K}.

(** ** The block on its own *)

Section Alone.
Context {K : Type} {Files : FileSystem K} {Env : Environment K}.
Implicit Types σ : machine K.

Lemma probe_stages_eq σ n l c :
  probe_suffixes c n l σ = Ret (run_block (probe_stages n l) (kern σ) c) σ.
Proof.
  revert c. induction l as [|suffix l IH]; intros c; [done|].
  cbn [probe_suffixes probe_stages run_block]. unfold write_end, strlcat.
  destruct (_ <? PATH_MAX); cbn [run_block]; [|erewrite bind_Ret by done; apply IH].
  erewrite bind_Ret by apply accessible_eq. destruct (_ =? 0); [done|apply IH].
Qed.

Lemma suffix_stages_eq σ c :
  (if (length c =? 0)%nat then ret [] else probe_suffixes c (length c) suffixes) σ =
  Ret (run_block suffix_stages (kern σ) c) σ.
Proof.
  cbn [suffix_stages run_block]. destruct (_ =? 0)%nat; [done|]. apply probe_stages_eq.
Qed.

(** The search under a base path, or under none. *)
Definition search (base : option (list byte)) : M K (list byte) :=
  match base with
  | None => ret []
  | Some c => if (length c =? 0)%nat then ret [] else probe_suffixes c (length c) suffixes
  end.

Lemma directory_stages_eq σ :
  (let* base := (let* c := probe_directories in ret (Some c)) in search base) σ =
  Ret (run_block directory_stages (kern σ) []) σ.
Proof.
  erewrite bind_Ret by (by erewrite bind_Ret by apply probe_directories_eq).
  unfold search. rewrite suffix_stages_eq. f_equal.
  unfold cache_directory. cbn [directory_stages run_block].
  destruct (_ =? 0); [by vm_compute|].
  cbn [run_block]. by destruct (_ =? 0); vm_compute.
Qed.

Lemma base_stages_eq σ :
  (let* base := cache_base_path in search base) σ = Ret (run_block base_stages (kern σ) []) σ.
Proof.
  unfold base_stages. cbn [run_block].
  set (region := getenv (kern σ) _). set (dir := getenv (kern σ) (literal "DYLD_SHARED_CACHE_DIR")).
  assert (cache_base_path σ = (match region, dir with
    | Some region, Some dir =>
        if strcmp_eq region private_region then
          let '(written, c) := snprintf (dir ++ literal "/dyld_shared_cache") PATH_MAX in
          ret (if (written <? 0) || (PATH_MAX <=? written) then None else Some c)
        else let* c := probe_directories in ret (Some c)
    | _, _ => let* c := probe_directories in ret (Some c)
    end) σ) as Hbase by done.
  etransitivity; [exact (bind_ext _ _ search search σ Hbase (fun _ _ => eq_refl))|].
  clear Hbase.
  destruct region as [region|], dir as [dir|]; try apply directory_stages_eq.
  destruct (strcmp_eq _ _); [|apply directory_stages_eq].
  cbn [run_block]. destruct (snprintf _ _) as [written c].
  erewrite bind_Ret by done. destruct (_ || _); [done|]. apply suffix_stages_eq.
Qed.

Lemma locate_stages_eq σ : locate_block σ = Ret (run_block locate_stages (kern σ) []) σ.
Proof.
  unfold locate_block, locate_stages. erewrite bind_Ret by done. cbn [run_block].
  assert (forall c, run_block fallback_stages (kern σ) c = run_block base_stages (kern σ) [])
    as Hfall by done.
  destruct (dlsym _ _) as [f|]; cbn [run_block].
  2:{ rewrite Hfall. erewrite bind_Ret by done. apply base_stages_eq. }
  destruct (f (kern σ)) as [path|].
  2:{ rewrite Hfall. erewrite bind_Ret by done. apply base_stages_eq. }
  cbn [run_block]. destruct (strlcpy _ _) as [result c]. destruct (_ <? _).
  - erewrite bind_Ret by apply accessible_eq. cbn [run_block].
    destruct (_ =? 0); [done|]. rewrite Hfall. apply base_stages_eq.
  - rewrite Hfall. erewrite bind_Ret by done. apply base_stages_eq.
Qed.

Lemma run_locate_stages k : run_block locate_stages k [] = located k.
Proof.
  pose proof (locate_stages_eq (Machine k empty [])) as H.
  rewrite locate_block_eq in H. by injection H.
Qed.
End Alone.

(** ** What the block publishes

    [publishes b c seen]: wherever [b] ends from the buffer [c], in an environment
    that changes between its stages, the buffer is empty, or holds a path that fits
    and is in [seen] or was readable during one of the stages. *)

Section Publishes.
Context {K : Type} {Files : FileSystem K} {Env : Environment K}.
Implicit Types seen : list byte -> Prop.

Definition readable_path (k : K) (path : list byte) : Prop := access k path R_OK = 0.

Definition acceptable seen (c : list byte) : Prop :=
  c = [] \/ Z.of_nat (length c) < PATH_MAX /\ seen c.

Fixpoint publishes (b : block K) (c : list byte) seen : Prop :=
  match b with
  | Finished => acceptable seen c
  | Asks query next =>
      forall k, publishes (next (query k c)) c (fun path => seen path \/ readable_path k path)
  | Writes write next => publishes (next (fst (write c))) (snd (write c)) seen
  end.

Lemma publishes_mono b c seen seen' :
  (forall path, seen path -> seen' path) -> publishes b c seen -> publishes b c seen'.
Proof.
  revert c seen seen'. induction b as [|B query next IH|write next IH];
    intros c seen seen' Hs; cbn [publishes].
  - intros [->|[Hl Hc]]; [by left|right; auto].
  - intros Hb k. eapply IH, Hb. intros path [|]; auto.
  - by apply IH.
Qed.

Lemma clear_publishes c seen : publishes clear_stages c seen.
Proof. by left. Qed.

(** The access stage after a write that leaves a string of the buffer's size. *)
Lemma access_publishes next c seen :
  Z.of_nat (length c) < PATH_MAX -> (forall seen, publishes next c seen) ->
  publishes (Asks (fun k c => access k c R_OK =? 0)
               (fun found => if found : bool then Finished else next)) c seen.
Proof.
  intros Hc Hn k. destruct (Z.eqb_spec (access k c R_OK) 0); [|apply Hn].
  right. split; [done|]. by right.
Qed.

Lemma fits_buffer (text : list byte) :
  Z.of_nat (length (take (Z.to_nat (PATH_MAX - 1)) text)) < PATH_MAX.
Proof. rewrite length_take. unfold PATH_MAX. lia. Qed.

Lemma probe_publishes n l c seen : publishes (probe_stages n l) c seen.
Proof.
  revert c seen. induction l as [|suffix l IH]; intros c seen; [by left|].
  cbn [probe_stages publishes]. destruct (_ <? _); [|apply IH].
  apply access_publishes; [apply fits_buffer|]. intros. apply IH.
Qed.

Lemma suffix_publishes c seen : publishes suffix_stages c seen.
Proof.
  intros k. destruct (_ =? 0)%nat; [apply clear_publishes|apply probe_publishes].
Qed.

Lemma directory_publishes c seen : publishes directory_stages c seen.
Proof.
  intros k. destruct (_ =? 0); [apply suffix_publishes|]. intros k'.
  destruct (_ =? 0); apply suffix_publishes.
Qed.

Lemma base_publishes c seen : publishes base_stages c seen.
Proof.
  intros k k'. set (region := getenv k _).
  set (dir := getenv k' (literal "DYLD_SHARED_CACHE_DIR")).
  destruct region as [region|], dir as [dir|];
    try apply directory_publishes.
  destruct (strcmp_eq _ _); [|apply directory_publishes]. cbn [publishes].
  destruct (_ || _); [apply clear_publishes|apply suffix_publishes].
Qed.

Lemma locate_publishes c seen : publishes locate_stages c seen.
Proof.
  assert (forall c seen, publishes fallback_stages c seen) as Hfall
    by (intros ? ?; apply base_publishes).
  intros k. destruct (dlsym _ _) as [f|]; [|apply Hfall]. intros k'.
  destruct (f k') as [path|]; [|apply Hfall]. cbn [publishes].
  destruct (_ <? _); [|apply Hfall].
  apply access_publishes; [apply fits_buffer|]. intros. apply Hfall.
Qed.
End Publishes.

(** ** Runs *)

Section Runs.
Context {K : Type} {Files : FileSystem K} {Env : Environment K}.
Context (changes : K -> K -> Prop).
Implicit Types s : locator (K := K).
#[local] Abbreviation step := (locator_step changes).
#[local] Abbreviation steps := (rtc (locator_step changes)).

Definition in_block s (i : nat) : Prop := exists b, callers s i = InBlock b.
Definition has_returned s (i : nat) : Prop := callers s i = Returned.

(** [path] was readable at a moment of the run that led to [s]. *)
Definition was_readable (k : K) s (path : list byte) : Prop :=
  exists s0, steps (locator_init k) s0 /\ steps s0 s /\ readable_path (environment s0) path.

(** The states of a run: nobody has entered the block; one caller is in it and all
    others are still to be let in; it is over. *)
Inductive locating (seen : list byte -> Prop) s : Prop :=
| LocFresh :
    token s = TokenFresh -> (forall i, callers s i = Calling) -> buffer s = [] ->
    locating seen s
| LocRunning i b :
    token s = TokenRunning -> callers s i = InBlock b -> publishes b (buffer s) seen ->
    (forall j, j <> i -> callers s j = Calling) -> locating seen s
| LocDone :
    token s = TokenDone -> (forall i, callers s i = Calling \/ callers s i = Returned) ->
    acceptable seen (buffer s) -> locating seen s.

Lemma locating_mono seen seen' s :
  (forall path, seen path -> seen' path) -> locating seen s -> locating seen' s.
Proof.
  intros Hs [Ht Hc Hb|i b Ht Hi Hp Hj|Ht Hc Hb].
  - by apply LocFresh.
  - eapply LocRunning; [done|done| |done]. by eapply publishes_mono.
  - apply LocDone; [done|done|]. destruct Hb as [|[]]; [by left|right; auto].
Qed.

Lemma set_at_same {B : Type} (f : nat -> B) i b : set_at f i b i = b.
Proof. unfold set_at. by rewrite Nat.eqb_refl. Qed.
Lemma set_at_other {B : Type} (f : nat -> B) i j b : j <> i -> set_at f i b j = f j.
Proof. unfold set_at. by destruct (Nat.eqb_spec j i). Qed.

Lemma locating_in_block seen s i b :
  locating seen s -> callers s i = InBlock b ->
  token s = TokenRunning /\ publishes b (buffer s) seen /\
  forall j, j <> i -> callers s j = Calling.
Proof.
  intros [Ht Hc Hb|i0 b0 Ht Hi0 Hp Hj|Ht Hc Hb] Hi; [by rewrite Hc in Hi| |].
  - destruct (decide (i = i0)) as [->|Hne]; [|by rewrite Hj in Hi].
    rewrite Hi0 in Hi. by injection Hi as ->.
  - by destruct (Hc i) as [Hi'|Hi']; rewrite Hi' in Hi.
Qed.

(** The caller in the block goes on in it, or leaves it. *)
Lemma locating_goes_on seen k c cs i b :
  publishes b c seen -> (forall j, j <> i -> cs j = Calling) ->
  locating seen (Locator k TokenRunning c (set_at cs i (InBlock b))).
Proof.
  intros Hp Hj. eapply LocRunning; cbn; [done|apply set_at_same|done|].
  intros j Hne. rewrite set_at_other by done. auto.
Qed.

Lemma locating_returns seen k c cs i :
  acceptable seen c -> (forall j, j <> i -> cs j = Calling \/ cs j = Returned) ->
  locating seen (Locator k TokenDone c (set_at cs i Returned)).
Proof.
  intros Hc Hj. apply LocDone; cbn; [done| |done]. intros j.
  destruct (decide (j = i)) as [->|]; [right; apply set_at_same|].
  rewrite set_at_other by done. auto.
Qed.

Lemma locating_step seen s s' :
  locating seen s -> step s s' ->
  locating (fun path => seen path \/ readable_path (environment s) path) s'.
Proof.
  intros Hl Hstep.
  assert (locating (fun path => seen path \/ readable_path (environment s) path) s) as Hl'
    by (eapply locating_mono; [|done]; auto).
  destruct Hstep as [k c cs i Hi|k t c cs i B query next Hi|k t c cs i write next r c' Hi Hw
    |k t c cs i Hi|k c cs i Hi|k k' t c cs Hch]; cbn [environment] in *.
  - apply locating_goes_on; [apply locate_publishes|]. intros j _.
    inversion Hl as [? Hc|? ? ?|?]; [apply Hc|done|done].
  - destruct (locating_in_block _ _ _ _ Hl Hi) as (Ht & Hp & Hj). cbn in Ht, Hp, Hj.
    subst t. by apply locating_goes_on.
  - destruct (locating_in_block _ _ _ _ Hl' Hi) as (Ht & Hp & Hj). cbn in Ht, Hp, Hj.
    subst t. rewrite Hw in Hp. by apply locating_goes_on.
  - destruct (locating_in_block _ _ _ _ Hl' Hi) as (Ht & Hp & Hj). cbn in Ht, Hp, Hj.
    apply locating_returns; auto.
  - inversion Hl' as [? ?|? ? ?|Ht Hc Hb]; [done|done|]. by apply locating_returns.
  - destruct Hl' as [Ht Hc Hb|i0 b Ht Hi0 Hp Hj|Ht Hc Hb]; cbn in *;
      [by apply LocFresh|by eapply LocRunning|by apply LocDone].
Qed.

Lemma locating_reach k s : steps (locator_init k) s -> locating (was_readable k s) s.
Proof.
  revert s. apply (rtc_ind_r (fun s => locating (was_readable k s) s)).
  { by apply LocFresh. }
  intros s s' Hs Hstep Hl. eapply locating_mono; [|by eapply locating_step].
  intros path [(s0 & H0 & H1 & Hp)|Hp].
  - exists s0. split_and!; [done|by eapply rtc_r|done].
  - exists s. split_and!; [done|by apply rtc_once|done].
Qed.

Lemma in_block_unique seen s i j : locating seen s -> in_block s i -> in_block s j -> i = j.
Proof.
  intros Hl [b Hi] [b' Hj]. destruct (locating_in_block _ _ _ _ Hl Hi) as (_ & _ & Ho).
  destruct (decide (j = i)); [done|]. by rewrite Ho in Hj.
Qed.

Lemma returned_done seen s i :
  locating seen s -> has_returned s i -> token s = TokenDone /\ acceptable seen (buffer s).
Proof.
  unfold has_returned. intros [Ht Hc Hb|i0 b Ht Hi Hp Hj|Ht Hc Hb] Hr; [by rewrite Hc in Hr| |done].
  destruct (decide (i = i0)) as [->|Hne]; [by rewrite Hi in Hr|by rewrite Hj in Hr].
Qed.

(** Once the block is over, nobody writes the buffer. *)
Lemma done_steps seen s s' :
  locating seen s -> token s = TokenDone -> steps s s' -> buffer s' = buffer s.
Proof.
  intros Hl Ht Hs. revert seen Hl Ht. induction Hs as [|s s1 s2 Hstep Hs IH]; [done|].
  intros seen Hl Ht. pose proof (locating_step _ _ _ Hl Hstep) as Hl1.
  assert (token s1 = TokenDone /\ buffer s1 = buffer s) as [Ht1 <-]; [|by eapply IH].
  destruct Hstep as [k c cs i Hi|k t c cs i B query next Hi|k t c cs i write next r c' Hi Hw
    |k t c cs i Hi|k c cs i Hi|k k' t c cs Hch]; cbn in Ht |- *; try done.
  destruct (locating_in_block _ _ _ _ Hl Hi) as (Ht' & _). cbn in Ht'. congruence.
Qed.

(** *** In an environment that stays as it is *)

Definition on_course (k : K) s : Prop :=
  environment s = k /\
  match token s with
  | TokenFresh => buffer s = []
  | TokenRunning => exists i b, callers s i = InBlock b /\ run_block b k (buffer s) = located k
  | TokenDone => buffer s = located k
  end.

Lemma on_course_step seen k s s' :
  (forall k1 k2, changes k1 k2 -> k2 = k1) ->
  locating seen s -> on_course k s -> step s s' -> on_course k s'.
Proof.
  intros Hstill Hl [He Hc] Hstep.
  assert (forall i b, callers s i = InBlock b ->
            token s = TokenRunning /\ run_block b k (buffer s) = located k) as Hrun.
  { intros i b Hi. destruct (locating_in_block _ _ _ _ Hl Hi) as (Ht & _). rewrite Ht in Hc.
    destruct Hc as (j & b' & Hj & Hr). split; [done|].
    assert (i = j) as -> by (eapply in_block_unique; [exact Hl|by exists b|by exists b']).
    rewrite Hi in Hj. by injection Hj as ->. }
  destruct Hstep as [k' c cs i Hi|k' t c cs i B query next Hi|k' t c cs i write next r c' Hi Hw
    |k' t c cs i Hi|k' c cs i Hi|k1 k2 t c cs Hch]; cbn in He, Hc, Hrun; subst; split; try done.
  - cbn. exists i, locate_stages.
    split; [apply set_at_same|apply run_locate_stages].
  - destruct (Hrun _ _ Hi) as [-> Hr]. cbn in Hr |- *. do 2 eexists. by rewrite set_at_same.
  - destruct (Hrun _ _ Hi) as [-> Hr]. cbn in Hr |- *. rewrite Hw in Hr.
    do 2 eexists. by rewrite set_at_same.
  - by destruct (Hrun _ _ Hi) as [-> Hr].
  - cbn. by apply Hstill.
Qed.

Lemma on_course_reach k s :
  (forall k1 k2, changes k1 k2 -> k2 = k1) -> steps (locator_init k) s -> on_course k s.
Proof.
  intros Hstill. revert s.
  enough (forall s, steps (locator_init k) s ->
    steps (locator_init k) s /\ on_course k s) as H by (intros s Hs; by apply H).
  apply (rtc_ind_r (fun s => steps (locator_init k) s /\ on_course k s)).
  { split; [apply rtc_refl|done]. }
  intros s s' _ Hstep [Hs Hc]. split; [by eapply rtc_r|].
  eapply on_course_step; [done|by apply locating_reach|done|done].
Qed.

(** *** Progress *)

Lemma block_ends b k t c cs i :
  cs i = InBlock b ->
  exists c' cs', steps (Locator k t c cs) (Locator k TokenDone c' cs') /\
    cs' i = Returned /\ forall j, j <> i -> cs' j = cs j.
Proof.
  revert t c cs. induction b as [|B query next IH|write next IH]; intros t c cs Hi.
  - exists c, (set_at cs i Returned). split_and!; [|apply set_at_same|].
    { by apply rtc_once, StepLeave. }
    intros j Hj. by apply set_at_other.
  - destruct (IH (query k c) t c (set_at cs i (InBlock (next (query k c)))))
      as (c' & cs' & Hs & Hr & Ho); [apply set_at_same|].
    exists c', cs'. split_and!; [|done|].
    + eapply rtc_l; [by apply StepAsk|done].
    + intros j Hj. rewrite Ho by done. by apply set_at_other.
  - destruct (write c) as [r c1] eqn:Hw.
    destruct (IH r t c1 (set_at cs i (InBlock (next r)))) as (c' & cs' & Hs & Hr & Ho);
      [apply set_at_same|].
    exists c', cs'. split_and!; [|done|].
    + eapply rtc_l; [by eapply StepWrite|done].
    + intros j Hj. rewrite Ho by done. by apply set_at_other.
Qed.

Lemma done_returns k c cs i :
  cs i = Calling \/ cs i = Returned ->
  exists s', steps (Locator k TokenDone c cs) s' /\ has_returned s' i.
Proof.
  intros [Hi|Hi]; eexists.
  - split; [by apply rtc_once, StepSkip|apply set_at_same].
  - by split; [apply rtc_refl|].
Qed.

Lemma locating_progress seen s i :
  locating seen s -> exists s', steps s s' /\ has_returned s' i.
Proof.
  destruct s as [k t c cs]. intros [Ht Hc Hb|j b Ht Hj Hp Ho|Ht Hc Hb]; cbn in *; subst t.
  - destruct (block_ends locate_stages k TokenRunning c (set_at cs i (InBlock locate_stages)) i)
      as (c' & cs' & Hs & Hr & _); [apply set_at_same|].
    exists (Locator k TokenDone c' cs'). split; [|exact Hr].
    eapply rtc_l; [by apply StepEnter|exact Hs].
  - destruct (block_ends b k TokenRunning c cs j Hj) as (c' & cs' & Hs & Hr & Hn).
    destruct (done_returns k c' cs' i) as (s' & Hs' & Hr').
    { destruct (decide (i = j)) as [->|]; [by right|left]. rewrite Hn by done. by apply Ho. }
    exists s'. split; [by etransitivity|done].
  - by apply done_returns.
Qed.

(** *** Schedules *)

Lemma locator_act_step s i s' : locator_act s i = Some s' -> step s s'.
Proof.
  destruct s as [k t c cs]. cbn [locator_act]. destruct (cs i) as [|b|] eqn:Hi; [|destruct b|done].
  - destruct t; intros [= <-]; by constructor.
  - intros [= <-]. by constructor.
  - intros [= <-]. by apply StepAsk.
  - destruct (write c) as [r c'] eqn:Hw. intros [= <-]. by eapply StepWrite.
Qed.

Lemma run_callers_steps s schedule : steps s (run_callers s schedule).
Proof.
  unfold run_callers. revert s. induction schedule as [|i schedule IH]; intros s; [apply rtc_refl|].
  cbn [foldl]. etransitivity; [|apply IH]. destruct (locator_act s i) as [s'|] eqn:Ha.
  - by eapply rtc_once, locator_act_step.
  - apply rtc_refl.
Qed.
End Runs.

(** ** Properties *)

Section Properties.
Context {K : Type} {Files : FileSystem K} {Env : Environment K}.

(** C21: however the threads that call the locator interleave, and whatever changes in
    the environment meanwhile, at most one of them runs the block; a caller that has
    returned sees an empty buffer or a path that fits it and was readable at some
    moment of the run, never the intermediate writes of the block, and what it sees
    never changes again; in an environment that stays as it is that is the located
    path; and from every state each caller can return. *)
Theorem RorkHookLocateSharedCache_threads (changes : K -> K -> Prop) (k : K) s :
  rtc (locator_step changes) (locator_init k) s ->
  (forall i j, in_block s i -> in_block s j -> i = j) /\
  (forall i, has_returned s i ->
     acceptable (was_readable changes k s) (buffer s) /\
     (forall s', rtc (locator_step changes) s s' -> buffer s' = buffer s) /\
     ((forall k1 k2, changes k1 k2 -> k2 = k1) -> buffer s = located k)) /\
  (forall i, exists s', rtc (locator_step changes) s s' /\ has_returned s' i).
Proof.
  intros Hs. pose proof (locating_reach changes k s Hs) as Hl. split_and!.
  - intros i j. by eapply in_block_unique.
  - intros i Hr. destruct (returned_done _ _ _ Hl Hr) as [Ht Ha]. split_and!; [done| |].
    + intros s'. by eapply done_steps.
    + intros Hstill. destruct (on_course_reach changes k s Hstill Hs) as [_ Hc].
      by rewrite Ht in Hc.
  - intros i. by eapply locating_progress.
Qed.
End Properties.

(** ** Witnesses *)

(** dyld names [/c], which cannot be read; the cache is in the Cryptex directory. *)
Definition cryptex_kernel : fsim :=
  kern (cache_process [] [] [cryptexCacheDirectory; cryptexCacheBasePath ++ literal "_arm64"]).

(** Caller 0 enters, caller 1 calls while the block is running and waits, and caller 1
    returns after caller 0. *)
Definition located_callers (schedule : list nat) : locator (K := fsim) :=
  run_callers (Env := dyld_knows) (locator_init cryptex_kernel) schedule.
Definition part_way : locator := located_callers ([0; 1; 0; 0; 1; 0]%nat).
Definition all_the_way : locator := located_callers (repeat 0%nat 30 ++ [1%nat]).

Example part_way_buffer :
  buffer part_way = literal "/c" /\ token part_way = TokenRunning /\
  callers part_way 1%nat = Calling.
Proof. by vm_compute. Qed.

Lemma RorkHookLocateSharedCache_threads_witness :
  has_returned all_the_way 0 /\ has_returned all_the_way 1 /\
  buffer all_the_way = cryptexCacheBasePath ++ literal "_arm64" /\
  let steps := rtc (locator_step (Env := dyld_knows) eq) in
  (forall i j, in_block all_the_way i -> in_block all_the_way j -> i = j) /\
  (forall i, has_returned all_the_way i ->
     acceptable (was_readable (Env := dyld_knows) eq cryptex_kernel all_the_way)
       (buffer all_the_way) /\
     (forall s', steps all_the_way s' -> buffer s' = buffer all_the_way) /\
     ((forall k1 k2 : fsim, k1 = k2 -> k2 = k1) ->
      buffer all_the_way = located (Env := dyld_knows) cryptex_kernel)) /\
  (forall i, exists s', steps all_the_way s' /\ has_returned s' i).
Proof.
  do 3 (split; [by vm_compute|]).
  apply (RorkHookLocateSharedCache_threads (Env := dyld_knows) eq cryptex_kernel all_the_way).
  apply (run_callers_steps (Env := dyld_knows)).
Defined.
