(* ===== verification/Version.v ===== *)
(** The version constants: RorkHookVersion.c and include/RorkHookVersion.h. *)
From stdpp Require Import strings pretty.
From S2P Require Import Prelude.
Open Scope Z_scope.

Definition RORK_HOOK_VERSION_MAJOR : Z := 0.
Definition RORK_HOOK_VERSION_MINOR : Z := 3.
Definition RORK_HOOK_VERSION_PATCH : Z := 1.
Definition RORK_HOOK_VERSION_STRING : string := "0.3.1".
Definition RORK_HOOK_ABI_VERSION : Z := 1.

Definition RorkHookVersion : string := RORK_HOOK_VERSION_STRING.
Definition RorkHookABIVersion : Z := RORK_HOOK_ABI_VERSION.

(** The run-time string names the three components, and the ABI version fits the
    32-bit result. *)
Example version_string_matches :
  RorkHookVersion = (pretty RORK_HOOK_VERSION_MAJOR +:+ "." +:+ pretty RORK_HOOK_VERSION_MINOR +:+
                     "." +:+ pretty RORK_HOOK_VERSION_PATCH)%string /\
  is_u32 RorkHookABIVersion.
Proof. by vm_compute. Qed.
