(* ===== verification/Vectors.v ===== *)
(** The unit tests of instruction decoding, jump encoding, memory protection and TPRO
    (src/Tests/RorkHookTests/), run on the model: each example is named after the
    Swift test whose inputs and expectations it repeats. *)
From S2P Require Import Prelude Machine Logic Sim Regions Memory Arm64 Function.
Open Scope Z_scope.

(** ** RorkHookArm64Tests.swift *)

(** [encodeADRP(register:signedPages:)] *)
Definition encodeADRP (register signedPages : Z) : Z :=
  let rawImmediate := Z.land (u64 signedPages) (Z.shiftl 1 21 - 1) in
  let immlo := Z.shiftl (Z.land rawImmediate 0x3) 29 in
  let immhi := Z.shiftl (Z.land (Z.shiftr rawImmediate 2) 0x7ffff) 5 in
  Z.lor (Z.lor (Z.lor 0x90000000 immlo) immhi) (Z.land register 0x1f).

Example testSignExtendHandlesPositiveAndNegativeValues :
  RorkHookArm64SignExtend 0xa 5 = 10 /\ RorkHookArm64SignExtend 0x16 5 = -10.
Proof. by vm_compute. Qed.

Example testSignExtendMasksBitsOutsideImmediate :
  RorkHookArm64SignExtend 0x4a 5 = 10 /\ RorkHookArm64SignExtend 0x56 5 = -10.
Proof. by vm_compute. Qed.

Example testSignExtendRejectsInvalidBitWidths :
  RorkHookArm64SignExtend 1 0 = 0 /\ RorkHookArm64SignExtend 1 65 = 0.
Proof. by vm_compute. Qed.

Example testDecodeADRPComputesPageRelativeAddress :
  RorkHookDecodeADRP (encodeADRP 8 (-3)) 0x100001234 (Some 0) (Some 0) =
  (true, (Some 8, Some (Z.land 0x100001234 (Z.lnot 0xfff) - Z.shiftl 3 12))).
Proof. by vm_compute. Qed.

Example testDecodeADDImmediateHandlesPlainAndShiftedOffsets :
  let plain := Z.lor (Z.lor (Z.lor 0x91000000 (Z.shiftl 0x123 10)) (Z.shiftl 9 5)) 9 in
  let shifted := Z.lor plain (Z.shiftl 1 22) in
  RorkHookDecodeADDImmediate plain 9 (Some 0) = (true, Some 0x123) /\
  RorkHookDecodeADDImmediate shifted 9 (Some 0x123) = (true, Some 0x123000) /\
  RorkHookDecodeADDImmediate plain 10 (Some 0x123000) = (false, Some 0x123000).
Proof. by vm_compute. Qed.

Example testDecodeLoadOffsets :
  let ldr := Z.lor (Z.lor (Z.lor 0xf9400000 (Z.shiftl 0x44 10)) (Z.shiftl 11 5)) 3 in
  let preIndex := Z.lor 0xf8400c00 (Z.shiftl 0x1f0 12) in
  let ldur := Z.lor (Z.lor (Z.lor 0xf8400000 (Z.shiftl 0x1f0 12)) (Z.shiftl 11 5)) 7 in
  RorkHookDecodeLDRUnsigned64 ldr 11 (Some 0) = (true, Some (0x44 * 8)) /\
  RorkHookDecodeLDRUnsignedOffset64 ldr (Some 0) = (true, Some (0x44 * 8)) /\
  RorkHookDecodeLDRUnsigned64 ldr 12 (Some 0) = (false, Some 0) /\
  RorkHookDecodeLDRSignedPreIndex64 preIndex (Some 0) = (true, Some (-16)) /\
  RorkHookDecodeLDUR64 ldur 11 (Some 0) = (true, Some (-16)) /\
  RorkHookDecodeLDUR64 ldur 12 (Some 0) = (false, Some 0).
Proof. by vm_compute. Qed.

Example testDecodeLDURRejectsIndexedAddressingModes :
  let operands := Z.lor (Z.lor (Z.shiftl 0x10 12) (Z.shiftl 11 5)) 7 in
  RorkHookDecodeLDUR64 (Z.lor 0xf8400400 operands) 11 (Some 0) = (false, Some 0) /\
  RorkHookDecodeLDUR64 (Z.lor 0xf8400c00 operands) 11 (Some 0) = (false, Some 0).
Proof. by vm_compute. Qed.

Example testDecodeMOVZImmediate :
  RorkHookDecodeMOVZImmediate
    (Z.lor (Z.lor (Z.lor 0xd2800000 (Z.shiftl 1 21)) (Z.shiftl 0xabcd 5)) 4) (Some 0) =
  (true, Some 0xabcd0000).
Proof. by vm_compute. Qed.

Example testDecodeMOVZImmediateRejects32BitInstruction :
  RorkHookDecodeMOVZImmediate (Z.lor (Z.lor 0x52800000 (Z.shiftl 0xabcd 5)) 4) (Some 0) =
  (false, Some 0).
Proof. by vm_compute. Qed.

(** Words at [0x4000]. *)
Definition words_at (words : list Z) : machine sim :=
  sim_machine [(1, 1)] [(0x4000, concat (map (le_split 4) words))].

Example testFollowOneBranchReturnsBranchTargetOrOriginalPointer :
  let follow words p := result_of (RorkHookFollowOneBranch p (words_at words)) in
  follow [0x14000002; 0xd503201f; 0xd503201f] 0x4000 = Some 0x4008 /\
  follow [0x14000002; 0xd503201f; 0xd503201f] 0x4004 = Some 0x4004 /\
  follow [0x94000002; 0xd503201f; 0xd503201f] 0x4000 = Some 0x4000.
Proof. by vm_compute. Qed.

Example testFollowOneBranchHandlesNegativeDisplacement :
  result_of (RorkHookFollowOneBranch 0x4008
    (words_at [0xd503201f; 0xd503201f; 0x17fffffe])) = Some 0x4000.
Proof. by vm_compute. Qed.

(** ** RorkHookFunctionTests.swift *)

(** [decodeAbsoluteJumpTarget], for words that pass its two assertions. *)
Definition decodeAbsoluteJumpTarget (words : list Z) : option Z :=
  if forallb (fun word => (Z.land word 0x1f =? 16) && (Z.land word 0xff800000 =? 0xf2800000))
       (take 4 words)
  then Some (fold_left (fun target word =>
         Z.lor target (Z.shiftl (Z.land (Z.shiftr word 5) 0xffff)
                         (Z.land (Z.shiftr word 21) 0x3 * 16))) (take 4 words) 0)
  else None.

Example testBuildAbsoluteJumpEncodesTargetAndBranch :
  let '(written, words) := RorkHookBuildAbsoluteJump (T := device) 0x1aabbccdd
    (Some (replicate 5 0)) 5 in
  written = 5 /\ (words ≫= decodeAbsoluteJumpTarget) = Some 0x1aabbccdd /\
  (words ≫= fun words => words !! 4%nat) = Some 0xd61f0200.
Proof. by vm_compute. Qed.

Example testBuildAbsoluteJumpRejectsUndersizedBuffer :
  RorkHookBuildAbsoluteJump (T := device) 0x1000 (Some (replicate 2 0)) 2 =
  (0, Some (replicate 2 0)).
Proof. by vm_compute. Qed.

(** ** RorkHookMemoryTests.swift, RorkHookEnvironmentTests.swift *)

(** A store on the host: its result, the eight bytes of the slot, and the protections
    of the two pages from [0x4000]. *)
Definition store_on_host (pages : list (Z * Z)) (slot value protection : Z) :=
  match RorkHookStoreProtectedPointer (T := arm64_host) slot value protection
          (sim_machine pages [(slot, le_split 8 0)]) with
  | Ret ok σ => Some (ok, peek_u64 σ slot, sim_page_prot (kern σ) 0x4000,
                      sim_page_prot (kern σ) 0x8000)
  | _ => None
  end.
Definition rwc : Z := Z.lor (Z.lor VM_PROT_READ VM_PROT_WRITE) VM_PROT_COPY.
Definition rw : Z := Z.lor VM_PROT_READ VM_PROT_WRITE.

Example testProtectedPointerWriteMutatesReadOnlyPageAndRestoresProtection :
  store_on_host [(1, 1)] 0x4000 31337 rwc = Some (true, 31337, Some 1, None).
Proof. by vm_compute. Qed.

Example testProtectedPointerWriteAcrossPageBoundaryRestoresBothPages :
  store_on_host [(1, 1); (2, 5)] 0x7ffc 27182 rwc = Some (true, 27182, Some 1, Some 5).
Proof. by vm_compute. Qed.

Example testProtectedPointerWriteRejectsNonWritableProtection :
  store_on_host [(1, 1)] 0x4000 14142 VM_PROT_READ = Some (false, 0, Some 1, None).
Proof. by vm_compute. Qed.

Example testProtectedPointerWriteRejectsUnmappedSlot :
  store_on_host [(1, 1)] 1 NULL rw = Some (false, 0, Some 1, None).
Proof. by vm_compute. Qed.

Example testProtectedPointerWriteRejectsOverflowingSlotRange :
  store_on_host [(1, 1)] (UINT64_MAX - 4) NULL rw = Some (false, 0, Some 1, None).
Proof. by vm_compute. Qed.

Example testMakeMemoryExecutableAppliesReadExecuteProtection :
  match RorkHookMakeMemoryExecutable (T := arm64_host) 0x4000 0x4000 (sim_machine [(1, 3)] []) with
  | Ret result σ => result = KERN_SUCCESS /\ sim_page_prot (kern σ) 0x4000 = Some 5
  | _ => False
  end.
Proof. by vm_compute. Qed.

Example testProtectMemoryRejectsEmptyRange :
  result_of (RorkHookProtectMemory (T := arm64_host) 0 0 VM_PROT_READ (sim_machine [] [])) =
  Some KERN_INVALID_ARGUMENT.
Proof. by vm_compute. Qed.

Example testProtectedPointerWriteRequiresTPROWindow :
  RorkHookProtectedPointerWriteIsAvailable KERN_SUCCESS false false = true /\
  RorkHookProtectedPointerWriteIsAvailable KERN_FAILURE true true = true /\
  RorkHookProtectedPointerWriteIsAvailable KERN_SUCCESS true false = false /\
  RorkHookProtectedPointerWriteIsAvailable KERN_FAILURE false false = false.
Proof. done. Qed.

Example testProcessTPRODetection :
  RorkHookProcessUsesTPRO true true false true = false /\
  RorkHookProcessUsesTPRO true true true false = true /\
  RorkHookProcessUsesTPRO true false false false = false /\
  RorkHookProcessUsesTPRO true false false true = true /\
  RorkHookProcessUsesTPRO false true true true = false.
Proof. done. Qed.

Example testTPROIsUnsupportedOnHost :
  let σ := sim_machine [] [] in
  RorkHookSupportsTPRO (T := arm64_host) σ = Ret false σ /\
  RorkHookThreadCanWriteTPRO (T := arm64_host) σ = Ret false σ /\
  RorkHookBeginThreadTPROWrite (T := arm64_host) σ = Ret tt σ /\
  RorkHookEndThreadTPROWrite (T := arm64_host) σ = Ret tt σ.
Proof. done. Qed.
